(* ===== verification/_CoqProject ===== *)
-Q . S2P
Prelude.v
Constants.v
GoSlice.v
Pool.v
ByteQueue.v
RingBuf.v
Spsc.v
StaticBuf.v
TelnetParser.v
ParserSpec.v
ParserProps.v
Wire.v
Options.v
QMethod.v
NetConn.v
TelnetConn.v
ConnWriter.v
ConnReader.v
ConnLine.v
LineStream.v
ConnSession.v
ConnTalk.v
ConnProps.v
ConnShared.v
ConnSharedProps.v
ConnAlone.v
ConnRaces.v
ConnType.v
Msdp.v
GoText.v
Utils.v
UtilsProps.v
Color.v
Mud.v
Mccp.v
Server.v
ServerProps.v
Examples.v
Sessions.v
ExamplesProps.v
