(* ===== verification/Prelude.v ===== *)
(** * Telnetty: a verification of the TELNET library

    This development models the Go package [telnetty] (the .go files at the top of
    src/) and its example programs (src/examples/), and proves what makes their parts
    correct. It is a shallow embedding: a Go function is a Rocq function on the values
    it reads and writes, a struct is a record, a pointer receiver is threaded through as a state, and a run-time panic
    is [None] (or [LinePanic]). Bytes are [Z] in [0, 256), machine words are [Z] with
    their wrap-around written out ([u8] to [u64] below), Go slices are an array with
    a length ([GoSlice]).

    ** The program and the files that model it

    - [Prelude] (this file): words, bytes, errors, hint bases and tactics.
    - [Constants]: constants.go, each constant under its name.
    - [GoSlice]: Go's slices and [append] (how far [append] grows an array is left
      open, class [GrowPolicy]).
    - [Pool]: the recycled buffers of buffer.go ([getBuf], [putBuf]); what [sync.Pool]
      hands out is an argument of the model, so the theorems hold for every choice.
    - [ByteQueue]: the contract between the ring buffer and its client: a class of
      operations, a class of laws, and the specification [spec_Write], [spec_Read]
      on the list of queued bytes.
    - [RingBuf]: [Ring] of buffer.go with its free-running 32-bit indices; the
      instance [Ring_ByteQueueLaws] discharges the contract.
    - [Spsc]: the same ring shared by one writer and one reader goroutine, each
      operation cut at its accesses to the counters and to the array.
    - [StaticBuf]: [StaticBuffer] of buffer.go.
    - [TelnetParser]: [Parser] and [Parse] of parser.go; events are windows of the
      chunk and of the parser's one buffer, so their aliasing is part of the model.
    - [ParserSpec]: the abstract specification of the parser, a decoder of the byte
      stream that knows of no chunks, buffers or event limits, and the simulation.
    - [ParserProps]: the parser's properties.
    - [Wire]: the encoders of parser.go, the wire forms, and the round trip.
    - [Options]: [Option] and [Negotiator] of options.go, the table of RFC 1143.
    - [QMethod]: two negotiators joined by FIFO channels, as a step relation.
    - [NetConn]: the interface [net.Conn] of the standard library, a class with the
      documented laws of [io.Reader] and [io.Writer], and a scripted instance.
    - [TelnetConn]: [Conn] of conn.go over any [NetConn] and any [ByteQueue];
      [NewConn] and [Close] fix the queue to [Ring].
    - [ConnWriter], [ConnReader], [ConnLine], [ConnSession], [ConnProps]: its sending
      side, its receiving side, [ReadLine], the life of a connection, and the
      properties of the latter. [LineStream]: the lines that successive [ReadLine]
      calls return. [ConnTalk]: what a program and the connection send together on a
      network that takes everything. [ConnType]: every value stays in its machine type.
    - [ConnShared]: goroutines that share one connection: calls, mutexes, the dispatcher
      and the stages of [Close], each cut at its accesses to shared state, as a
      transition system; [ConnSharedProps]: its invariants; [ConnAlone]: a call during
      which the others stand still is the operation of [TelnetConn]; [ConnRaces]: the
      properties and the races.
    - [Msdp]: the MSDP values, marshaller and parser of mud.go. [Mud]: GMCP, MSSP, MTTS
      and MCP. [Mccp]: [MCCPWriter], over a class for the compressor of [compress/zlib].
    - [GoText]: Go's strings (runes and UTF-8, [Fields], [TrimSpace], [strconv]), over a
      class for the tables of package [unicode]. [Utils], [UtilsProps]: utils.go.
      [Color]: color.go, with the arrays that colours share.
    - [Server]: [Server] of server.go and its goroutines (accept loops, handlers,
      calls of [Close] and [Shutdown]) as a transition system, with the world of
      [ConnShared] behind every handler; [ServerProps]: its invariants and properties.
    - [Examples]: the handlers of the echo server and of the MUD server, the server's
      goroutine around them ([serve]) and the loops of the client; [Sessions]: servers of
      lines in general, from [NewConn] to [Close]; [ExamplesProps]: the sessions.

    How they interact: [Conn.Read] calls [net.Conn.Read], [Parser.Parse], [Ring.Write]
    for the text, [Negotiator.Handle] and [SendCommand] for the commands, and pushes
    events; [Write] and the [Send] functions fill the output buffer, which is flushed
    to [net.Conn.Write] when it is full or on [Flush]. The MUD protocols and
    [WriteColor] go through [SendSubnegotiation], [SendCommand] and [Write]. The model
    has the same calls. The server creates connections with [NewConn], registers them and
    closes them with [Conn.Close]: [Server] steps the connections by [ConnShared.wstep],
    where the handler's goroutine and those of [Server.Close] are users, so that what
    [Server.Close] waits for is what [Conn.Close] waits for there. [serve] is what one
    handler goroutine does with its connection when it is alone.

    ** What the theorems show

    - Buffers: the ring refines a bounded FIFO for every sequence of operations, across
      the wrap-around of its array and counters; construction and peeking;
      static buffers never grow; pools stay homogeneous. Between two goroutines, for
      every schedule, the ring is a FIFO and no cell is accessed by both at once.
    - Parser: it computes the stream decoder from every state, independently of how the
      stream is cut; which events are lost when a chunk overflows the event arrays and
      up to which size none is; what the shared subnegotiation buffer does to events.
    - Encoders: exact output, no partial writes; encoding then parsing.
    - Negotiation: the four states, the effect of one command, agreement with RFC 1143
      (and the one departure from it), and for two communicating negotiators agreement
      at rest and termination, with the invariant that every option side is in one of
      sixteen configurations whose weights bound the commands still to come: at most
      3 for each of 512 sides, hence 1536.
    - Connection: the output stream is the sequence of wire forms, also across errors;
      reads return the decoder's text; [ReadLine]'s result, its termination, the
      order it leaves the queue in and, call after call, the lines of the whole stream
      (with or without the CR of their CR LF, and when certainly without);
      type soundness over all sequences of operations; construction, offers and answers; only permitted
      options are ever enabled or agreed to on the wire; terminal data; the event queue; closing.
    - Connection among goroutines, for every schedule: concurrent sends do not mix and go
      out in the order of the lock; one [Close] at most goes through and what it waits
      for; no deadlock but by a handler that closes its own connection; the races that
      lose a byte or panic; undisturbed calls are those of the sequential model.
    - Programs: the echo server and the MUD server answer every line of the peer's text
      with the reply of their transcript, answers to commands in between, and end; the
      client and the echo server joined over two connections print the echo of what is
      typed, whatever the network does to the pieces. Where writes fail the servers'
      goroutines end all the same.
    - MSDP: parsing undoes marshalling, under side conditions on bytes and on arrays;
      the parser terminates on inputs without arrays and may hang with them.
    - Other MUD protocols: a GMCP message and an MSSP table reach the peer; MTTS parsing
      on every branch; an MCP message is read back under side conditions that examples
      show to be needed; the compressed stream reaches the peer, but IAC-escaped.
    - Text and colours: what [StripANSI], [WordWrap], [Truncate], [Box], [ProgressBar] and
      the line splitter compute; a terminal reads back the codes of a colour; what the
      variants of a colour share; colour names and hexadecimal colours.
    - Server, for every interleaving: counters, limit and registry agree with the
      handlers; who closes the two channels, and what a returned [Close] or [Shutdown]
      guarantees; the accept loop stops within five of its steps; [Close] waits for a
      blocked [Read], because of [readMu].
    - Where the code does something its comments or the RFCs do not want, the theorem
      states what it does ([subnegotiation_IAC_stays_doubled], [NAWS_255_misread],
      [full_chunk_loses_last_byte], [raw_commands_loop], [Close_misses_connection],
      [variants_overwrite] and others).

    ** Bounds and fuel

    The unbounded loop of [ReadLine] takes fuel: [ReadLine fuel]
    returns [LineRunning] when it runs out, and [ReadLine_terminates] gives the number
    of iterations that is enough on a network that cannot deliver for ever. The MSDP
    parser, which can loop for ever, takes fuel and returns [None] when it runs out;
    [MSDP_roundtrip] and [UnmarshalMSDP_terminates] say how much is enough.
    [LineStream] gives each call as many iterations as its network can still deliver,
    plus one. That every session ends needs only a network that does not deliver for ever
    ([ends]). That the lines come out in order needs a [calm] conversation: reads of at
    most 1024 bytes (more would not fit [ReadLine]'s buffer, which reorders the rest,
    [ReadLine_rotates_queue]) that cannot fill the parser's event array ([fits_events]: at
    most 128 bytes, or at most 63 IACs), and errors only at the end. This is a condition
    on what arrives, not on [net.Conn]; with a read buffer of at most 128 bytes it always
    holds of the reads ([short_reads_calm]).
    [StripANSI] and the decimal printer run on fuel that their own definitions derive
    from the argument; [ScanLines_splits] says how many rounds the scanner needs. The server's properties hold of every reachable state,
    whatever the number of goroutines, and need no bound. All other loops are structural
    on the data they range over. Rings have at most 2^32 cells. The loops of [Examples]
    take fuel too; the theorems say that from some amount on the run has ended, with the
    same result for every larger amount.

    ** What is not modelled

    In [TelnetConn] one operation is one transition; [Close] tells the dispatcher to stop
    and takes it to be in its [select]. The interleaving of goroutines on one
    connection is [ConnShared]'s; there the code between taking a mutex and giving it
    back is one step (the invariants show that nothing else can run inside), and
    [ReadLine], which takes no lock and is documented as not safe next to [Read], is left
    out; in [Server] a handler inside [ReadLine] may change its connection in any way that
    leaves the closed flag, or panic. Not modelled are time (deadlines, keep-alive), the address accessors,
    [BufferedReader], the TCP options, [Addr] and [NumCPU], which only forward, and of the
    examples the signals, the log and the command line. Parameters are what other
    packages do: [net.Conn] and [net.Listener], the JSON encoder, the zlib compressor, the
    tables of package [unicode], the formatter of [Sprintf]; in [Utils] [bufio.Scanner] is
    modelled without its limit on the length of a token, in [Examples] with it. The
    transcripts of [ExamplesProps] assume a network that takes what it is given
    ([reliable]): on another the handlers, which ignore the errors of their writes, lose
    text (and end, [sessions_end]). doc.go holds no code, and the tests are not part of
    the program. *)
From Stdlib Require Export ZArith Lia.
From stdpp Require Export base tactics numbers option list.
#[export] Set Default Goal Selector "!".
Open Scope Z_scope.

(** ** Bytes and machine words *)

(** A Go [byte] is a [Z] in [0, 256); a [[]byte] (or a [string]) is a list of them. *)
Abbreviation byte := Z (only parsing).
Abbreviation bytes := (list Z) (only parsing).

Definition is_byte (b : Z) : Prop := 0 <= b < 256.
Definition wf_bytes (l : bytes) : Prop := Forall is_byte l.

(** Go's unsigned arithmetic wraps around: [uw z] is the conversion to a w-bit word. *)
Definition u8 (z : Z) : Z := z mod 2 ^ 8.
Definition u16 (z : Z) : Z := z mod 2 ^ 16.
Definition u32 (z : Z) : Z := z mod 2 ^ 32.
Definition u64 (z : Z) : Z := z mod 2 ^ 64.

(** Go's [len] of a slice or a string. *)
Definition zlen {A} (l : list A) : Z := Z.of_nat (length l).

(** Errors the package returns, and the ones it passes on from a [net.Conn]. *)
Inductive error :=
  | ErrConnClosed | ErrBufferFull | ErrLineTooLong
  | errBufferFull | errBufferEmpty
  | EOF
  | NetError (code : Z)
  | Wrapped (e : error).

#[global] Instance error_eq_dec : EqDecision error.
Proof. solve_decision. Defined.

(** [errors.Is(err, target)]: the chain of wrapped errors holds the target. *)
Fixpoint errors_Is (e target : error) : bool :=
  bool_decide (e = target) ||
  match e with Wrapped e' => errors_Is e' target | _ => false end.

(** ** Lemmas *)

Create HintDb telnet.
Create Rewrite HintDb telnet.

Ltac zl := unfold zlen in *; simpl in *; lia.

(** Split an [if] on the [Z] or [nat] comparison it tests. *)
Ltac cmp :=
  match goal with
  | |- context [Z.ltb ?a ?b] => destruct (Z.ltb_spec a b)
  | |- context [Z.leb ?a ?b] => destruct (Z.leb_spec a b)
  | |- context [Z.eqb ?a ?b] => destruct (Z.eqb_spec a b)
  | H : context [Z.ltb ?a ?b] |- _ => destruct (Z.ltb_spec a b)
  | H : context [Z.leb ?a ?b] |- _ => destruct (Z.leb_spec a b)
  | H : context [Z.eqb ?a ?b] |- _ => destruct (Z.eqb_spec a b)
  end.

(** Split all the tests of a goal, the innermost first. *)
Ltac split_byte :=
  repeat match goal with
  | |- context [if ?c then _ else _] =>
      lazymatch c with
      | context [if _ then _ else _] => fail
      | _ => destruct c eqn:?
      end
  end.

Lemma zlen_nonneg {A} (l : list A) : 0 <= zlen l.
Proof. zl. Qed.

Lemma zlen_app {A} (l k : list A) : zlen (l ++ k) = zlen l + zlen k.
Proof. unfold zlen. rewrite length_app. lia. Qed.

Lemma zlen_cons {A} (x : A) (l : list A) : zlen (x :: l) = 1 + zlen l.
Proof. zl. Qed.

Lemma zlen_nil {A} : zlen (@nil A) = 0.
Proof. done. Qed.

Lemma zlen_take {A} n (l : list A) : 0 <= n <= zlen l -> zlen (take (Z.to_nat n) l) = n.
Proof. unfold zlen. rewrite length_take. lia. Qed.

#[export] Hint Rewrite @zlen_app @zlen_cons @zlen_nil : telnet.

Lemma u32_range z : 0 <= u32 z < 2 ^ 32.
Proof. apply Z.mod_pos_bound; lia. Qed.

Lemma u32_small z : 0 <= z < 2 ^ 32 -> u32 z = z.
Proof. apply Z.mod_small. Qed.

Lemma u32_add_l a b : u32 (u32 a + b) = u32 (a + b).
Proof. apply Zplus_mod_idemp_l. Qed.

Lemma u32_add_r a b : u32 (a + u32 b) = u32 (a + b).
Proof. apply Zplus_mod_idemp_r. Qed.

Lemma u32_sub_l a b : u32 (u32 a - b) = u32 (a - b).
Proof. apply Zminus_mod_idemp_l. Qed.

#[export] Hint Rewrite u32_add_l u32_add_r u32_sub_l : telnet.
#[export] Hint Resolve zlen_nonneg u32_range : telnet.

Lemma take_drop_middle_zlen {A} (l : list A) n m :
  (n <= m)%nat -> take n l ++ drop n (take m l) = take m l.
Proof.
  intros H. rewrite <- (take_drop n (take m l)) at 2.
  f_equal. rewrite take_take. f_equal. lia.
Qed.

Lemma take_insert_all {A} (l : list A) n i x : take n (<[i := x]> l) = <[i := x]> (take n l).
Proof.
  rewrite take_insert. case_decide; [done|].
  symmetry. apply list_insert_ge. rewrite length_take. lia.
Qed.

(** Prove a closed decidable proposition by computing its decision. *)
Ltac by_decide := match goal with |- ?P => apply (bool_decide_unpack P); vm_compute; exact I end.
