(* ===== verification/Constants.v ===== *)
(** * Constants: [constants.go], every protocol constant under the name it has there. *)
From S2P Require Import Prelude.

(** ** TELNET command codes (RFC 854) *)
Definition CmdIAC : Z := 255.
Definition CmdDont : Z := 254.
Definition CmdDo : Z := 253.
Definition CmdWont : Z := 252.
Definition CmdWill : Z := 251.
Definition CmdSB : Z := 250.
Definition CmdGA : Z := 249.
Definition CmdEL : Z := 248.
Definition CmdEC : Z := 247.
Definition CmdAYT : Z := 246.
Definition CmdAO : Z := 245.
Definition CmdIP : Z := 244.
Definition CmdBreak : Z := 243.
Definition CmdDM : Z := 242.
Definition CmdNOP : Z := 241.
Definition CmdSE : Z := 240.
Definition CmdEOR : Z := 239.
Definition CmdAbort : Z := 238.
Definition CmdSusp : Z := 237.
Definition CmdEOF : Z := 236.
(** ** Standard TELNET options *)
Definition OptBinary : Z := 0.
Definition OptEcho : Z := 1.
Definition OptRCP : Z := 2.
Definition OptSGA : Z := 3.
Definition OptNAMS : Z := 4.
Definition OptStatus : Z := 5.
Definition OptTimingMark : Z := 6.
Definition OptRCTE : Z := 7.
Definition OptNAOL : Z := 8.
Definition OptNAOP : Z := 9.
Definition OptNAOCRD : Z := 10.
Definition OptNAOHTS : Z := 11.
Definition OptNAOHTD : Z := 12.
Definition OptNAOFFD : Z := 13.
Definition OptNAOVTS : Z := 14.
Definition OptNAOVTD : Z := 15.
Definition OptNAOLFD : Z := 16.
Definition OptXASCII : Z := 17.
Definition OptLogout : Z := 18.
Definition OptBM : Z := 19.
Definition OptDET : Z := 20.
Definition OptSUPDUP : Z := 21.
Definition OptSUPDUPOutput : Z := 22.
Definition OptSendLoc : Z := 23.
Definition OptTerminalType : Z := 24.
Definition OptEOR : Z := 25.
Definition OptTUID : Z := 26.
Definition OptOutmrk : Z := 27.
Definition OptTTYLoc : Z := 28.
Definition Opt3270Regime : Z := 29.
Definition OptX3PAD : Z := 30.
Definition OptNAWS : Z := 31.
Definition OptTermSpeed : Z := 32.
Definition OptRemoteFlow : Z := 33.
Definition OptLinemode : Z := 34.
Definition OptXDispLoc : Z := 35.
Definition OptOldEnviron : Z := 36.
Definition OptAuth : Z := 37.
Definition OptEncrypt : Z := 38.
Definition OptNewEnviron : Z := 39.
Definition OptTN3270E : Z := 40.
Definition OptCharset : Z := 42.
Definition OptEOL : Z := 45.
Definition OptMCCP2 : Z := 86.
Definition OptMCCP3 : Z := 87.
Definition OptMSSP : Z := 70.
Definition OptMSDP : Z := 69.
Definition OptGMCP : Z := 201.
Definition OptMCP : Z := 200.
(** ** Q-Method negotiation states (RFC 1143) *)
Definition QNo : Z := 0.
Definition QYes : Z := 1.
Definition QWantNo : Z := 2.
Definition QWantYes : Z := 3.
Definition QOpposite : Z := 4.
(** ** Negotiation commands *)
Definition NegotiationWill : Z := CmdWill.
Definition NegotiationWont : Z := CmdWont.
Definition NegotiationDo : Z := CmdDo.
Definition NegotiationDont : Z := CmdDont.
(** ** MUD protocol constants *)
Definition MSDPVar : Z := 1.
Definition MSDPVal : Z := 2.
Definition MSDPTableOpen : Z := 3.
Definition MSDPTableClose : Z := 4.
Definition MSDPArrayOpen : Z := 5.
Definition MSDPArrayClose : Z := 6.
Definition GMCPPrefix : bytes := [67; 111; 114; 101; 46].
Definition MCPVersion : bytes := [50; 46; 49].
(** ** ANSI color constants *)
Definition ColorBlack : Z := 0.
Definition ColorRed : Z := 1.
Definition ColorGreen : Z := 2.
Definition ColorYellow : Z := 3.
Definition ColorBlue : Z := 4.
Definition ColorMagenta : Z := 5.
Definition ColorCyan : Z := 6.
Definition ColorWhite : Z := 7.
Definition ColorDefault : Z := 9.
Definition AttrBold : Z := 1.
Definition AttrDim : Z := 2.
Definition AttrItalic : Z := 3.
Definition AttrUnderline : Z := 4.
Definition AttrBlink : Z := 5.
Definition AttrReverse : Z := 7.
Definition AttrHidden : Z := 8.
Definition AttrStrike : Z := 9.
Definition ResetAll : Z := 0.
Definition ResetBold : Z := 22.
Definition ResetItalic : Z := 23.
Definition ResetUnderline : Z := 24.
Definition ResetBlink : Z := 25.
Definition ResetReverse : Z := 27.
Definition ResetHidden : Z := 28.
Definition ResetStrike : Z := 29.
