(* ===== verification/GoSlice.v ===== *)
(** * Slices: Go's byte slices over their backing array.

    Every slice the package keeps ([Ring.buf], [StaticBuffer.buf], the pooled
    buffers) starts at the base of its array, so a slice is the array (its
    length is the capacity) and the slice's length. Operations that Go checks
    at run time return [None] when Go panics. *)
From S2P Require Import Prelude.

Record Slice := MkSlice { sl_arr : bytes; sl_len : Z }.

Definition nil_slice : Slice := MkSlice [] 0.

(** [cap(s)] and the bytes [s[0:len(s)]]. *)
Definition sl_cap (s : Slice) : Z := zlen (sl_arr s).
Definition sl_bytes (s : Slice) : bytes := take (Z.to_nat (sl_len s)) (sl_arr s).

(** [s == nil]. The package makes no slice of capacity 0 but the nil one. *)
Definition sl_is_nil (s : Slice) : bool := sl_cap s =? 0.

(** [make([]byte, n)] *)
Definition sl_make (n : Z) : option Slice :=
  if n <? 0 then None else Some (MkSlice (replicate (Z.to_nat n) 0) n).

(** [s[:n]] *)
Definition sl_reslice (s : Slice) (n : Z) : option Slice :=
  if (0 <=? n) && (n <=? sl_cap s) then Some (MkSlice (sl_arr s) n) else None.

(** [s[i]] and [s[i] = b] *)
Definition sl_get (s : Slice) (i : Z) : option byte :=
  if (0 <=? i) && (i <? sl_len s) then sl_arr s !! Z.to_nat i else None.

Definition sl_set (s : Slice) (i : Z) (b : byte) : option Slice :=
  if (0 <=? i) && (i <? sl_len s)
  then Some (MkSlice (<[Z.to_nat i := b]> (sl_arr s)) (sl_len s)) else None.

(** Overwrite an array from an offset on. *)
Definition write_at (arr : bytes) (off : Z) (p : bytes) : bytes :=
  take (Z.to_nat off) arr ++ p ++ drop (Z.to_nat off + length p) arr.

(** How far [append] grows an array that is too short is left open by the Go
    specification, which asks only that the values fit. *)
Class GrowPolicy := {
  grow_cap : Z -> Z -> Z;
  grow_cap_fits : forall old need, need <= grow_cap old need
}.

(** One policy the specification allows, for concrete runs. *)
Definition doubling : GrowPolicy.
Proof. refine {| grow_cap old need := Z.max need (2 * old) |}. lia. Defined.

(** [append(s, p...)]: in place while the capacity allows, else into a new array. *)
Definition sl_append `{GrowPolicy} (s : Slice) (p : bytes) : Slice :=
  let need := sl_len s + zlen p in
  if need <=? sl_cap s then MkSlice (write_at (sl_arr s) (sl_len s) p) need
  else MkSlice (sl_bytes s ++ p ++
                replicate (Z.to_nat (grow_cap (sl_cap s) need - need)) 0) need.

(** ** Well-formed slices *)

Definition sl_wf (s : Slice) : Prop := 0 <= sl_len s <= sl_cap s.

Lemma sl_bytes_len s : sl_wf s -> zlen (sl_bytes s) = sl_len s.
Proof. intros H. by apply zlen_take. Qed.

Lemma sl_make_wf n s : sl_make n = Some s -> sl_wf s /\ sl_len s = n /\ sl_cap s = n.
Proof.
  unfold sl_make, sl_wf, sl_cap, zlen. cmp; [done|]. intros [= <-]; simpl.
  rewrite length_replicate. lia.
Qed.

Lemma sl_reslice_Some s n :
  0 <= n <= sl_cap s -> sl_reslice s n = Some (MkSlice (sl_arr s) n).
Proof. unfold sl_reslice. intros. repeat cmp; simpl; done || lia. Qed.

Lemma sl_get_Some s i :
  sl_wf s -> 0 <= i < sl_len s -> exists b, sl_get s i = Some b.
Proof.
  unfold sl_get, sl_wf, sl_cap, zlen. intros Hwf Hi. repeat cmp; simpl; try lia.
  apply lookup_lt_is_Some. lia.
Qed.

Lemma sl_set_Some s i b :
  0 <= i < sl_len s ->
  sl_set s i b = Some (MkSlice (<[Z.to_nat i := b]> (sl_arr s)) (sl_len s)).
Proof. unfold sl_set. intros. repeat cmp; simpl; done || lia. Qed.

Lemma length_write_at arr off p :
  0 <= off -> off + zlen p <= zlen arr -> length (write_at arr off p) = length arr.
Proof.
  unfold write_at, zlen. intros. rewrite !length_app, length_take, length_drop. lia.
Qed.

Lemma sl_append_len `{GrowPolicy} s p : sl_len (sl_append s p) = sl_len s + zlen p.
Proof. unfold sl_append. by cmp. Qed.

Lemma sl_append_bytes `{GrowPolicy} s p :
  sl_wf s -> sl_bytes (sl_append s p) = sl_bytes s ++ p.
Proof.
  intros Hwf. pose proof (sl_bytes_len s Hwf) as Hl. unfold sl_wf, sl_cap, zlen in *.
  unfold sl_append, sl_cap, zlen. cmp; unfold sl_bytes; simpl.
  - unfold write_at. rewrite app_assoc.
    apply take_app_length'. rewrite length_app, length_take. lia.
  - rewrite app_assoc. apply take_app_length'.
    fold (sl_bytes s). rewrite length_app. lia.
Qed.

Lemma sl_append_wf `{GrowPolicy} s p : sl_wf s -> sl_wf (sl_append s p).
Proof.
  intros Hwf. pose proof (sl_bytes_len s Hwf) as Hl. unfold sl_wf in *.
  rewrite sl_append_len. pose proof (zlen_nonneg p). split; [lia|].
  unfold sl_append. cmp; unfold sl_cap in *; simpl.
  - unfold zlen at 2. rewrite length_write_at by lia. unfold zlen in *. lia.
  - rewrite !zlen_app, Hl. unfold zlen at 3. lia.
Qed.

(** Appending within the capacity neither moves nor resizes the array. *)
Lemma sl_append_cap `{GrowPolicy} s p :
  sl_wf s -> sl_len s + zlen p <= sl_cap s -> sl_cap (sl_append s p) = sl_cap s.
Proof.
  unfold sl_wf, sl_append, sl_cap. intros. cmp; [|lia]. simpl. unfold zlen at 1.
  rewrite length_write_at by lia. done.
Qed.

#[export] Hint Resolve sl_append_wf : telnet.
