(* ===== verification/Pool.v ===== *)
(** * Pool: the recycled byte slices of [buffer.go] ([getBuf], [putBuf]).

    [sync.Pool.Get] may return any item that was put, or a new one: the choice
    is an argument of [getBuf] (an index into the pool; out of range means the
    pool is treated as empty), and the theorems hold for every choice. *)
From S2P Require Import Prelude GoSlice.

(** The three package variables [bufPool4k], [bufPool16k], [bufPool64k]. *)
Record Pools := MkPools {
  bufPool4k : list Slice;
  bufPool16k : list Slice;
  bufPool64k : list Slice
}.

(** [sync.Pool.Get] on a pool whose [New] makes a slice of [n] bytes. *)
Definition pool_Get (choice : nat) (n : Z) (pool : list Slice) : Slice * list Slice :=
  match pool !! choice with
  | Some s => (s, delete choice pool)
  | None => (MkSlice (replicate (Z.to_nat n) 0) n, pool)
  end.

Definition getBuf (choice : nat) (P : Pools) (size : Z) : option (Slice * Pools) :=
  let finish (bp : Slice) (P' : Pools) :=
    s ← (if size <=? sl_cap bp then sl_reslice bp size else sl_make size); Some (s, P') in
  if size <=? 4096 then
    let '(bp, l) := pool_Get choice 4096 (bufPool4k P) in
    finish bp (MkPools l (bufPool16k P) (bufPool64k P))
  else if size <=? 16384 then
    let '(bp, l) := pool_Get choice 16384 (bufPool16k P) in
    finish bp (MkPools (bufPool4k P) l (bufPool64k P))
  else if size <=? 65536 then
    let '(bp, l) := pool_Get choice 65536 (bufPool64k P) in
    finish bp (MkPools (bufPool4k P) (bufPool16k P) l)
  else s ← sl_make size; Some (s, P).

Definition putBuf (P : Pools) (b : Slice) : Pools :=
  let c := sl_cap b in
  if c =? 4096 then MkPools (b :: bufPool4k P) (bufPool16k P) (bufPool64k P)
  else if c =? 16384 then MkPools (bufPool4k P) (b :: bufPool16k P) (bufPool64k P)
  else if c =? 65536 then MkPools (bufPool4k P) (bufPool16k P) (b :: bufPool64k P)
  else P.

(** ** The pools' invariant: a pool holds slices of its own class only *)

Definition pool_ok (n : Z) (pool : list Slice) : Prop := Forall (fun s => sl_cap s = n) pool.

Record pools_wf (P : Pools) : Prop := {
  wf_4k : pool_ok 4096 (bufPool4k P);
  wf_16k : pool_ok 16384 (bufPool16k P);
  wf_64k : pool_ok 65536 (bufPool64k P)
}.

(** The capacity a request of [size] bytes is served with. *)
Definition size_class (size : Z) : Z :=
  if size <=? 4096 then 4096 else if size <=? 16384 then 16384
  else if size <=? 65536 then 65536 else size.

Definition empty_pools : Pools := MkPools [] [] [].

Lemma empty_pools_wf : pools_wf empty_pools.
Proof. split; constructor. Qed.

Lemma size_class_ge size : size <= size_class size.
Proof. unfold size_class. repeat cmp; lia. Qed.

Lemma pool_Get_ok choice n pool :
  0 <= n -> pool_ok n pool ->
  sl_cap (pool_Get choice n pool).1 = n /\ pool_ok n (pool_Get choice n pool).2.
Proof.
  intros Hn Hok. unfold pool_Get. destruct (pool !! choice) as [s|] eqn:E; simpl.
  - split; [by eapply (Forall_lookup_1 _ _ _ _ Hok E)|].
    unfold pool_ok. rewrite delete_take_drop. apply Forall_app_2.
    + by apply Forall_take.
    + by apply Forall_drop.
  - split; [|done]. unfold sl_cap, zlen; simpl. rewrite length_replicate. lia.
Qed.

(** What [getBuf] promises its callers: a slice of the requested length, of the
    capacity of its class, and pools that stay well formed. *)
Lemma getBuf_ok choice P size :
  pools_wf P -> 0 <= size ->
  exists s P', getBuf choice P size = Some (s, P') /\
    sl_len s = size /\ sl_cap s = size_class size /\ sl_wf s /\ pools_wf P'.
Proof.
  intros [H4 H16 H64] Hs. pose proof (size_class_ge size) as Hge.
  unfold getBuf, size_class in *.
  repeat (cmp; try lia);
    [ destruct (pool_Get_ok choice 4096 (bufPool4k P)) as [Hc Hp]; [lia|done|]
    | destruct (pool_Get_ok choice 16384 (bufPool16k P)) as [Hc Hp]; [lia|done|]
    | destruct (pool_Get_ok choice 65536 (bufPool64k P)) as [Hc Hp]; [lia|done|]
    | ].
  1-3: destruct (pool_Get _ _ _) as [bp l]; simpl in *; rewrite Hc;
    rewrite (proj2 (Z.leb_le _ _)) by lia; rewrite sl_reslice_Some by lia; simpl;
    eexists _, _; split; [done|]; unfold sl_wf, sl_cap in *; simpl;
    repeat split; done || lia.
  unfold sl_make. cmp; [lia|]. simpl. eexists _, _. split; [done|].
  unfold sl_wf, sl_cap, zlen; simpl. rewrite length_replicate. repeat split; done || lia.
Qed.

Lemma putBuf_wf P b : pools_wf P -> pools_wf (putBuf P b).
Proof.
  intros [H4 H16 H64]. unfold putBuf. repeat cmp; split; simpl; try done; by constructor.
Qed.
#[export] Hint Resolve putBuf_wf : telnet.

(** ** Properties *)

(** Whatever item [sync.Pool] hands out, [getBuf] of a non-negative size
    succeeds with a slice of exactly that length whose capacity is the size class
    (4K, 16K, 64K, or the size itself above), [putBuf] of it keeps every pool
    homogeneous, and a negative size is a run-time panic. *)
Theorem getBuf_putBuf_correct choice P size :
  pools_wf P ->
  (0 <= size -> exists s P', getBuf choice P size = Some (s, P') /\
    sl_len s = size /\ sl_cap s = size_class size /\ pools_wf (putBuf P' s)) /\
  (size < 0 -> getBuf choice P size = None).
Proof.
  intros Hwf. split; intros Hs.
  - destruct (getBuf_ok choice P size Hwf Hs) as (s & P' & ? & ? & ? & _ & ?).
    exists s, P'. auto with telnet.
  - unfold getBuf. cmp; [|lia].
    destruct (pool_Get_ok choice 4096 (bufPool4k P)) as [Hc _]; [lia|apply Hwf|].
    destruct (pool_Get _ _ _) as [bp l]; simpl in *. rewrite Hc.
    unfold sl_reslice. by repeat (cmp; try lia).
Qed.

Lemma getBuf_putBuf_correct_witness :
  let P := putBuf empty_pools (MkSlice (replicate 4096%nat 7) 10) in
  pools_wf P /\
  (0 <= 100 -> exists s P', getBuf 0 P 100 = Some (s, P') /\
    sl_len s = 100 /\ sl_cap s = size_class 100 /\ pools_wf (putBuf P' s)).
Proof.
  assert (H : pools_wf (putBuf empty_pools (MkSlice (replicate 4096%nat 7) 10))).
  { apply putBuf_wf, empty_pools_wf. }
  split; [exact H|]. exact (proj1 (getBuf_putBuf_correct 0 _ 100 H)).
Defined.
