(* ===== verification/ByteQueue.v ===== *)
(** * ByteQueue: the contract of a bounded byte queue.

    What [Ring] promises to [Conn]: a FIFO of bytes with a capacity. The
    specification functions work on the list of queued bytes; a [ByteQueue]
    instance relates an implementation to them. *)
From S2P Require Import Prelude.

(** ** The specification *)

(** Queue what fits of [p]; the error tells that some byte did not fit, or
    that the queue was full. *)
Definition spec_Write (cap : Z) (q p : bytes) : bytes * (Z * option error) :=
  let avail := cap - zlen q in
  if avail <=? 0 then (q, (0, Some errBufferFull))
  else if avail <? zlen p then (q ++ take (Z.to_nat avail) p, (avail, Some errBufferFull))
  else (q ++ p, (zlen p, None)).

(** Dequeue at most [n] bytes. *)
Definition spec_Read (q : bytes) (n : Z) : bytes * (bytes * option error) :=
  if zlen q =? 0 then (q, ([], Some errBufferEmpty))
  else (drop (Z.to_nat n) q, (take (Z.to_nat n) q, None)).

(** ** The interface *)

Class ByteQueue (Q : Type) := {
  q_Len : Q -> Z;
  q_Write : Q -> bytes -> option (Q * (Z * option error));
  q_Read : Q -> Z -> option (Q * (bytes * option error));
  q_ok : Q -> Prop;
  q_items : Q -> bytes;
  q_cap : Q -> Z
}.

Class ByteQueueLaws (Q : Type) `{ByteQueue Q} := {
  q_Len_ok q : q_ok q -> q_Len q = zlen (q_items q);
  q_bound q : q_ok q -> zlen (q_items q) <= q_cap q;
  q_Write_ok q p : q_ok q -> exists q', q_ok q' /\ q_cap q' = q_cap q /\
    q_items q' = (spec_Write (q_cap q) (q_items q) p).1 /\
    q_Write q p = Some (q', (spec_Write (q_cap q) (q_items q) p).2);
  q_Read_ok q n : q_ok q -> 0 <= n -> exists q', q_ok q' /\ q_cap q' = q_cap q /\
    q_items q' = (spec_Read (q_items q) n).1 /\
    q_Read q n = Some (q', (spec_Read (q_items q) n).2)
}.

(** ** Facts of the specification *)

Lemma spec_Write_fits cap q p :
  zlen q + zlen p <= cap -> zlen q < cap -> spec_Write cap q p = (q ++ p, (zlen p, None)).
Proof. intros. unfold spec_Write. by repeat (cmp; try lia). Qed.

(** In every case the queue holds what it held and the part of [p] that fits. *)
Lemma spec_Write_items cap q p :
  zlen q <= cap ->
  (spec_Write cap q p).1 = take (Z.to_nat cap) (q ++ p).
Proof.
  intros H. unfold spec_Write.
  destruct (Z.leb_spec (cap - zlen q) 0); [|cmp]; simpl; unfold zlen in *.
  - rewrite take_app_le by lia. by rewrite take_ge by lia.
  - rewrite take_app, (take_ge q) by lia. do 2 f_equal. lia.
  - symmetry. apply take_ge. rewrite length_app. lia.
Qed.

Lemma spec_Read_split q n :
  (spec_Read q n).2.1 ++ (spec_Read q n).1 = q.
Proof. unfold spec_Read. cmp; simpl; [done|]. apply take_drop. Qed.
