(* ===== verification/RingBuf.v ===== *)
(** * Ring: the ring buffer of [buffer.go], one operation at a time.

    Indices are free-running uint32 counters, masked at each access. The state
    is the Go struct; the operations return [None] where Go panics (an index
    out of range, as after [Free]). One goroutine at a time. *)
From S2P Require Import Prelude GoSlice Pool ByteQueue.

Record Ring := MkRing { rbuf : Slice; mask : Z; rhead : Z; wtail : Z }.

(** ** Operations *)

(** The smearing of [NewRing] that rounds a size up to a power of two. *)
Definition round_pow2 (size : Z) : Z :=
  let s := size - 1 in
  let s := Z.lor s (Z.shiftr s 1) in
  let s := Z.lor s (Z.shiftr s 2) in
  let s := Z.lor s (Z.shiftr s 4) in
  let s := Z.lor s (Z.shiftr s 8) in
  let s := Z.lor s (Z.shiftr s 16) in
  s + 1.

Definition NewRing (choice : nat) (P : Pools) (size : Z) : option (Ring * Pools) :=
  let size := if size <=? 0 then 4096 else size in
  let size := round_pow2 size in
  '(b, P') ← getBuf choice P size;
  Some (MkRing b (u32 (size - 1)) 0 0, P').

Definition Free (r : Ring) (P : Pools) : Ring * Pools :=
  if sl_is_nil (rbuf r) then (r, P)
  else (MkRing nil_slice (mask r) (rhead r) (wtail r), putBuf P (rbuf r)).

Definition Len (r : Ring) : Z := u32 (wtail r - rhead r).
Definition Cap (r : Ring) : Z := mask r.

(** [for i, b := range p { r.buf[(w+uint32(i))&r.mask] = b }] *)
Fixpoint put_loop (buf : Slice) (m w i : Z) (p : bytes) : option Slice :=
  match p with
  | [] => Some buf
  | b :: p' => buf' ← sl_set buf (Z.land (u32 (w + u32 i)) m) b;
               put_loop buf' m w (i + 1) p'
  end.

Definition Write (r : Ring) (p : bytes) : option (Ring * (Z * option error)) :=
  let w := wtail r in
  let rh := rhead r in
  let avail := mask r - u32 (w - rh) in
  if avail <=? 0 then Some (r, (0, Some errBufferFull))
  else
    let truncated := avail <? zlen p in
    let p := if truncated then take (Z.to_nat avail) p else p in
    buf ← put_loop (rbuf r) (mask r) w 0 p;
    Some (MkRing buf (mask r) rh (u32 (w + u32 (zlen p))),
          (zlen p, if truncated then Some errBufferFull else None)).

(** [for i := range p { p[i] = r.buf[(rh+uint32(i))&r.mask] }], [n] times from [i]. *)
Fixpoint get_loop (buf : Slice) (m rh i : Z) (n : nat) : option bytes :=
  match n with
  | O => Some []
  | S n' => b ← sl_get buf (Z.land (u32 (rh + u32 i)) m);
            l ← get_loop buf m rh (i + 1) n'; Some (b :: l)
  end.

(** [Read] into a buffer of length [plen]; the bytes copied are returned. *)
Definition Read (r : Ring) (plen : Z) : option (Ring * (bytes * option error)) :=
  let rh := rhead r in
  let w := wtail r in
  let avail := u32 (w - rh) in
  if avail =? 0 then Some (r, ([], Some errBufferEmpty))
  else
    let n := if avail <? plen then avail else plen in
    l ← get_loop (rbuf r) (mask r) rh 0 (Z.to_nat n);
    Some (MkRing (rbuf r) (mask r) (u32 (rh + u32 n)) w, (l, None)).

Definition WriteByte (r : Ring) (c : byte) : option (Ring * option error) :=
  let w := wtail r in
  let rh := rhead r in
  if mask r <=? u32 (w - rh) then Some (r, Some errBufferFull)
  else
    buf ← sl_set (rbuf r) (Z.land w (mask r)) c;
    Some (MkRing buf (mask r) rh (u32 (w + 1)), None).

Definition ReadByte (r : Ring) : option (Ring * (byte * option error)) :=
  let rh := rhead r in
  let w := wtail r in
  if w =? rh then Some (r, (0, Some errBufferEmpty))
  else
    b ← sl_get (rbuf r) (Z.land rh (mask r));
    Some (MkRing (rbuf r) (mask r) (u32 (rh + 1)) w, (b, None)).

(** [s[a:b]] for indices that Go checks. *)
Definition sl_sub (s : Slice) (a b : Z) : option bytes :=
  if (0 <=? a) && (a <=? b) && (b <=? sl_cap s)
  then Some (drop (Z.to_nat a) (take (Z.to_nat b) (sl_arr s))) else None.

Definition Peek (r : Ring) (n : Z) : option bytes :=
  let rh := rhead r in
  let w := wtail r in
  let avail := u32 (w - rh) in
  let n := if avail <? n then avail else n in
  if n =? 0 then Some []
  else
    let start := Z.land rh (mask r) in
    let end_ := u32 (start + u32 n) in
    if end_ <=? u32 (sl_len (rbuf r)) then sl_sub (rbuf r) start end_
    else sl_sub (rbuf r) start (u32 (sl_len (rbuf r))).

Definition Discard (r : Ring) (n : Z) : Ring :=
  if n <=? 0 then r
  else
    let rh := rhead r in
    let w := wtail r in
    let avail := u32 (w - rh) in
    let n := if avail <? n then avail else n in
    MkRing (rbuf r) (mask r) (u32 (rh + u32 n)) w.

Definition Reset (r : Ring) : Ring := MkRing (rbuf r) (mask r) 0 0.

Definition Bytes (r : Ring) : option bytes :=
  let l := Len r in
  if l =? 0 then Some [] else get_loop (rbuf r) (mask r) (rhead r) 0 (Z.to_nat l).

(** [chunkWriter] only forwards. *)
Definition chunkWriter_Write (cw : Ring) (p : bytes) := Write cw p.

(** ** Abstraction: the queued bytes *)

(** The [n] bytes of a circular array of [2^k] cells from index [from] on. *)
Definition view (arr : bytes) (k from : Z) (n : nat) : bytes :=
  (fun j => arr !!! Z.to_nat ((from + Z.of_nat j) mod 2 ^ k)) <$> seq 0 n.
#[global] Arguments view : simpl never.

Record ring_ok (k : Z) (r : Ring) : Prop := {
  ok_k : 0 <= k <= 32;
  ok_mask : mask r = 2 ^ k - 1;
  ok_len : sl_len (rbuf r) = 2 ^ k;
  ok_buf : sl_wf (rbuf r);
  ok_rhead : 0 <= rhead r < 2 ^ 32;
  ok_wtail : 0 <= wtail r < 2 ^ 32;
  ok_count : u32 (wtail r - rhead r) <= mask r
}.

Definition ring_wf (r : Ring) : Prop := exists k, ring_ok k r.

Definition contents (r : Ring) : bytes :=
  view (sl_arr (rbuf r)) (Z.log2 (mask r + 1)) (rhead r) (Z.to_nat (Len r)).

(** ** Views of the circular array *)

Section View.
  Context (k : Z) (Hk : 0 <= k <= 32).
  Implicit Types arr p : bytes.

Lemma land_index x : Z.land (u32 x) (2 ^ k - 1) = x mod 2 ^ k.
Proof using Hk.
  rewrite Z.sub_1_r, <- Z.ones_equiv, Z.land_ones by lia.
  apply Z.mod_mod_divide. exists (2 ^ (32 - k)).
  rewrite <- Z.pow_add_r by lia. f_equal. lia.
Qed.

Lemma index_range x : 0 <= x mod 2 ^ k < 2 ^ k.
Proof using Hk. apply Z.mod_pos_bound. lia. Qed.

Lemma length_view arr from n : length (view arr k from n) = n.
Proof using Type. unfold view. by rewrite length_fmap, length_seq. Qed.

Lemma view_lookup arr from n j :
  (j < n)%nat ->
  view arr k from n !! j = Some (arr !!! Z.to_nat ((from + Z.of_nat j) mod 2 ^ k)).
Proof using Type.
  intros H. unfold view. rewrite list_lookup_fmap, lookup_seq_lt by done. done.
Qed.

Lemma view_app arr from n m :
  view arr k from (n + m) = view arr k from n ++ view arr k (from + Z.of_nat n) m.
Proof using Type.
  unfold view. rewrite seq_app, fmap_app. f_equal.
  replace (0 + n)%nat with (n + 0)%nat by lia.
  rewrite <- (fmap_add_seq n 0 m), <- list_fmap_compose. apply list_fmap_ext. intros i x _. simpl. do 3 f_equal. lia.
Qed.

Lemma view_from arr from from' n :
  from mod 2 ^ k = from' mod 2 ^ k -> view arr k from n = view arr k from' n.
Proof using Type.
  intros H. unfold view. apply list_fmap_ext. intros i x _.
  by rewrite Zplus_mod, H, <- Zplus_mod.
Qed.

Lemma view_u32 arr from n : view arr k (u32 from) n = view arr k from n.
Proof using Hk.
  apply view_from. rewrite <- !land_index. unfold u32. by rewrite Z.mod_mod by lia.
Qed.

Lemma view_take arr from n m :
  (m <= n)%nat -> take m (view arr k from n) = view arr k from m.
Proof using Type.
  intros H. replace n with (m + (n - m))%nat by lia. rewrite view_app.
  apply take_app_length'. by rewrite length_view.
Qed.

Lemma view_drop arr from n m :
  (m <= n)%nat -> drop m (view arr k from n) = view arr k (from + Z.of_nat m) (n - m).
Proof using Type.
  intros H. replace n with (m + (n - m))%nat at 1 by lia. rewrite view_app.
  apply drop_app_length'. by rewrite length_view.
Qed.

  (** Writing the cell just past a view extends it. *)
Lemma view_insert arr from n b :
  2 ^ k <= zlen arr -> Z.of_nat n < 2 ^ k ->
  view (<[Z.to_nat ((from + Z.of_nat n) mod 2 ^ k) := b]> arr) k from (S n) =
  view arr k from n ++ [b].
Proof using Hk.
  intros Hl Hn. replace (S n) with (n + 1)%nat by lia. rewrite view_app. f_equal.
  - unfold view. apply list_fmap_ext. intros i x Hi.
    apply lookup_seq in Hi as [-> Hi]. apply list_lookup_total_insert_ne.
    intros E. apply Z2Nat.inj in E; try apply index_range.
    assert (Hd : (from + Z.of_nat n - (from + Z.of_nat (0 + i))) mod 2 ^ k = 0).
    { rewrite Zminus_mod, E, Z.sub_diag. by apply Z.mod_0_l; lia. }
    replace (from + Z.of_nat n - (from + Z.of_nat (0 + i))) with (Z.of_nat (n - i)) in Hd by lia.
    rewrite Z.mod_small in Hd; lia.
  - unfold view. simpl. rewrite Z.add_0_r. f_equal.
    apply list_lookup_total_insert_eq.
    pose proof (index_range (from + Z.of_nat n)). unfold zlen in Hl. lia.
Qed.
End View.

(** ** The two copy loops *)

Section Loops.
  Context (k : Z) (Hk : 0 <= k <= 32).

Lemma put_loop_ok p : forall buf from n w i,
  sl_len buf = 2 ^ k -> sl_wf buf -> Z.of_nat n + zlen p <= 2 ^ k ->
  (w + i) mod 2 ^ k = (from + Z.of_nat n) mod 2 ^ k ->
  exists buf', put_loop buf (2 ^ k - 1) w i p = Some buf' /\
    sl_len buf' = 2 ^ k /\ sl_cap buf' = sl_cap buf /\
    view (sl_arr buf') k from (n + length p) = view (sl_arr buf) k from n ++ p.
Proof using Hk.
  induction p as [|b p IH]; intros buf from n w i Hlen Hwf Hfit Hw.
  { exists buf. simpl. by rewrite Nat.add_0_r, app_nil_r. }
  rewrite zlen_cons in Hfit. pose proof (zlen_nonneg p).
  pose proof (index_range k Hk (from + Z.of_nat n)) as Hr.
  unfold sl_wf, sl_cap in Hwf.
  cbn [put_loop]. rewrite u32_add_r, land_index, Hw by done.
  rewrite sl_set_Some by lia. cbn.
  set (buf1 := MkSlice _ _).
  assert (Hv : view (sl_arr buf1) k from (S n) = view (sl_arr buf) k from n ++ [b])
    by (apply view_insert; done || lia).
  assert (Hc1 : sl_cap buf1 = sl_cap buf).
  { unfold buf1, sl_cap, zlen; simpl. by rewrite length_insert. }
  destruct (IH buf1 from (S n) w (i + 1)) as (buf' & -> & Hl' & Hc' & Hv').
  { done. }
  { unfold sl_wf. rewrite Hc1. unfold sl_cap; simpl. lia. }
  { lia. }
  { replace (w + (i + 1)) with (w + i + 1) by lia.
    rewrite <- Zplus_mod_idemp_l, Hw, Zplus_mod_idemp_l. f_equal. lia. }
  exists buf'. cbn [length]. rewrite Nat.add_succ_r, <- Nat.add_succ_l, Hv', Hv, <- app_assoc.
  split_and!; done || lia.
Qed.

Lemma get_loop_ok buf n : forall rh i,
  sl_len buf = 2 ^ k -> sl_wf buf ->
  get_loop buf (2 ^ k - 1) rh i n = Some (view (sl_arr buf) k (rh + i) n).
Proof using Hk.
  induction n as [|n IH]; intros rh i Hlen Hwf; [done|].
  pose proof (index_range k Hk (rh + i)) as Hr.
  cbn [get_loop]. rewrite u32_add_r, land_index by done.
  unfold sl_get. rewrite (proj2 (Z.leb_le _ _)), (proj2 (Z.ltb_lt _ _)) by lia. simpl.
  unfold sl_wf, sl_cap, zlen in Hwf.
  rewrite (list_lookup_lookup_total_lt (sl_arr buf)) by lia. simpl.
  rewrite IH by done. simpl.
  change (S n) with (1 + n)%nat. rewrite view_app. simpl. rewrite !Z.add_0_r.
  do 3 f_equal. lia.
Qed.
End Loops.

(** ** Counter arithmetic modulo [2^32] *)

Lemma u32_mod k x : 0 <= k <= 32 -> u32 x mod 2 ^ k = x mod 2 ^ k.
Proof.
  intros Hk. apply Z.mod_mod_divide. exists (2 ^ (32 - k)).
  rewrite <- Z.pow_add_r by lia. f_equal. lia.
Qed.

Lemma add_u32_mod k a b : 0 <= k <= 32 -> (a + u32 b) mod 2 ^ k = (a + b) mod 2 ^ k.
Proof.
  intros Hk. by rewrite <- Zplus_mod_idemp_r, u32_mod, Zplus_mod_idemp_r by done.
Qed.

Lemma u32_sub_r a b : u32 (a - u32 b) = u32 (a - b).
Proof. apply Zminus_mod_idemp_r. Qed.

(** The producer's counter moves away from the consumer's by what was written ... *)
Lemma counter_push w rh n :
  0 <= n -> u32 (w - rh) + n < 2 ^ 32 -> u32 (u32 (w + u32 n) - rh) = u32 (w - rh) + n.
Proof.
  intros Hn Hlt. pose proof (u32_range (w - rh)).
  rewrite u32_add_r, u32_sub_l. rewrite <- (u32_small (u32 (w - rh) + n)) by lia.
  rewrite u32_add_l. f_equal. lia.
Qed.

(** ... and the consumer's catches up by what was read. *)
Lemma counter_pop w rh n :
  0 <= n <= u32 (w - rh) -> u32 (w - u32 (rh + u32 n)) = u32 (w - rh) - n.
Proof.
  intros Hn. pose proof (u32_range (w - rh)).
  rewrite u32_add_r, u32_sub_r. rewrite <- (u32_small (u32 (w - rh) - n)) by lia.
  rewrite u32_sub_l. f_equal. lia.
Qed.

(** ** The operations on a well-formed ring *)

Section Ops.
  Context (k : Z) (r : Ring) (Hr : ring_ok k r).

Lemma mask_pow : mask r + 1 = 2 ^ k.
Proof using Hr. rewrite (ok_mask _ _ Hr). lia. Qed.

Lemma contents_view : contents r = view (sl_arr (rbuf r)) k (rhead r) (Z.to_nat (Len r)).
Proof using Hr.
  unfold contents. by rewrite mask_pow, Z.log2_pow2 by apply (ok_k _ _ Hr).
Qed.

Lemma Len_contents : Len r = zlen (contents r).
Proof using Hr.
  rewrite contents_view. unfold zlen. rewrite length_view.
  pose proof (u32_range (wtail r - rhead r)). unfold Len. lia.
Qed.

Lemma Len_bound : 0 <= Len r <= mask r.
Proof using Hr.
  split; [apply u32_range|apply (ok_count _ _ Hr)].
Qed.

Lemma mask_bound : mask r < 2 ^ 32.
Proof using Hr.
  rewrite (ok_mask _ _ Hr). destruct (ok_k _ _ Hr).
  pose proof (Z.pow_le_mono_r 2 k 32). lia.
Qed.

  (** Storing [p] past the tail and publishing the new tail queues [p]. *)
Lemma push_ok p :
  Len r + zlen p <= mask r ->
  exists buf, put_loop (rbuf r) (mask r) (wtail r) 0 p = Some buf /\
    let r' := MkRing buf (mask r) (rhead r) (u32 (wtail r + u32 (zlen p))) in
    ring_ok k r' /\ contents r' = contents r ++ p.
Proof using Hr.
  intros Hfit. pose proof Len_bound as HL. pose proof mask_bound as HM.
  pose proof (zlen_nonneg p). destruct Hr as [Hk Hm Hl Hb Hrh Hw Hc].
  destruct (put_loop_ok k Hk p (rbuf r) (rhead r) (Z.to_nat (Len r)) (wtail r) 0)
    as (buf & Hput & Hl' & Hc' & Hv); [done|done|lia| |].
  { rewrite Z2Nat.id by lia. unfold Len. rewrite add_u32_mod by done. f_equal. lia. }
  exists buf. rewrite Hm at 1. split; [done|]. intros r'.
  assert (HL' : Len r' = Len r + zlen p) by (apply (counter_push (wtail r) (rhead r)); unfold Len in *; lia).
  assert (Hok : ring_ok k r').
  { split; simpl; try done; try apply u32_range.
    - unfold sl_wf in *. rewrite Hc', Hl'. rewrite Hl in Hb. done.
    - change (Len r' <= mask r). lia. }
  split; [done|]. rewrite contents_view. unfold contents.
  replace (mask r' + 1) with (2 ^ k) by (symmetry; apply mask_pow).
  rewrite Z.log2_pow2 by lia. rewrite HL', Z2Nat.inj_add by lia.
  unfold zlen at 1. rewrite Nat2Z.id. done.
Qed.

  (** Reading [n] bytes from the head copies the oldest ones ... *)
Lemma peek_ok n :
  0 <= n <= Len r ->
  get_loop (rbuf r) (mask r) (rhead r) 0 (Z.to_nat n) =
  Some (take (Z.to_nat n) (contents r)).
Proof using Hr.
  intros Hn. rewrite (ok_mask _ _ Hr).
  rewrite (get_loop_ok k (ok_k _ _ Hr)) by apply Hr.
  rewrite contents_view, view_take by lia. by rewrite Z.add_0_r.
Qed.

  (** ... and moving the head past them removes them. *)
Lemma pop_ok n :
  0 <= n <= Len r ->
  let r' := MkRing (rbuf r) (mask r) (u32 (rhead r + u32 n)) (wtail r) in
  ring_ok k r' /\ contents r' = drop (Z.to_nat n) (contents r).
Proof using Hr.
  intros Hn r'. pose proof Len_bound as HL. pose proof mask_bound.
  assert (HL' : Len r' = Len r - n) by (by apply counter_pop).
  assert (Hok : ring_ok k r').
  { destruct Hr. split; simpl; try done; try apply u32_range.
    change (Len r' <= mask r). lia. }
  split; [done|].
  assert (Hc : contents r' = view (sl_arr (rbuf r)) k (rhead r')  (Z.to_nat (Len r'))).
  { unfold contents. replace (mask r' + 1) with (2 ^ k) by (symmetry; apply mask_pow).
    by rewrite Z.log2_pow2 by apply (ok_k _ _ Hr). }
  rewrite Hc, HL', contents_view, view_drop by lia. simpl.
  rewrite u32_add_r, view_u32 by apply Hr.
  rewrite Z2Nat.id by lia. f_equal. lia.
Qed.
End Ops.

(** The same facts with the size hidden. *)
Lemma ring_wf_bound r : ring_wf r -> zlen (contents r) <= Cap r.
Proof. intros [k H]. rewrite <- (Len_contents k r H). by destruct (Len_bound k r H). Qed.

Lemma push_wf r p :
  ring_wf r -> Len r + zlen p <= mask r ->
  exists buf, put_loop (rbuf r) (mask r) (wtail r) 0 p = Some buf /\
    let r' := MkRing buf (mask r) (rhead r) (u32 (wtail r + u32 (zlen p))) in
    ring_wf r' /\ contents r' = contents r ++ p.
Proof.
  intros [k H] Hfit. destruct (push_ok k r H p Hfit) as (buf & ? & ? & ?).
  exists buf. unfold ring_wf. eauto.
Qed.

Lemma pop_wf r n :
  ring_wf r -> 0 <= n <= Len r ->
  let r' := MkRing (rbuf r) (mask r) (u32 (rhead r + u32 n)) (wtail r) in
  ring_wf r' /\ contents r' = drop (Z.to_nat n) (contents r).
Proof. intros [k H] Hn. destruct (pop_ok k r H n Hn). unfold ring_wf. eauto. Qed.

Lemma Len_wf r : ring_wf r -> Len r = zlen (contents r).
Proof. intros [k H]. by eapply Len_contents. Qed.

(** ** Rounding up to a power of two *)

Lemma smear_bits a w i :
  0 <= w -> 0 <= i ->
  Z.testbit (Z.lor a (Z.shiftr a w)) i = Z.testbit a i || Z.testbit a (i + w).
Proof. intros. by rewrite Z.lor_spec, Z.shiftr_spec. Qed.

(** [topset m w a]: [a] has [w] set bits from position [m] downwards and none above. *)
Definition topset (m w a : Z) : Prop :=
  (forall i, m < i -> Z.testbit a i = false) /\
  (forall i, 0 <= i -> m - w < i <= m -> Z.testbit a i = true).

Lemma topset_double m w w' a :
  w' = 2 * w -> 0 <= m -> 0 <= w ->
  topset m w a -> topset m w' (Z.lor a (Z.shiftr a w)).
Proof.
  intros -> Hm Hw [Hhi Hlo]. split; intros i Hi.
  - rewrite smear_bits, !Hhi by lia. done.
  - intros Hi'. rewrite smear_bits by lia.
    destruct (Z_lt_le_dec (m - w) i); [by rewrite Hlo by lia|].
    rewrite (Hlo (i + w)) by lia. apply orb_true_r.
Qed.

Lemma topset_all m w a : 0 <= m < w -> topset m w a -> a = 2 ^ (m + 1) - 1.
Proof.
  intros Hm [Hhi Hlo]. rewrite Z.sub_1_r, <- Z.ones_equiv. apply Z.bits_inj'. intros i Hi.
  destruct (Z_lt_le_dec m i).
  - rewrite Hhi, Z.ones_spec_high; done || lia.
  - rewrite Hlo, Z.ones_spec_low; done || lia.
Qed.

Lemma smear_log2 a :
  0 < a < 2 ^ 32 -> round_pow2 (a + 1) = 2 ^ (Z.log2 a + 1).
Proof.
  intros Ha. unfold round_pow2. rewrite Z.add_simpl_r.
  assert (H0 : 0 <= Z.log2 a < 32).
  { split; [apply Z.log2_nonneg|]. apply Z.log2_lt_pow2; lia. }
  enough (topset (Z.log2 a) 1 a) as H1.
  { apply (topset_double _ _ 2), (topset_double _ _ 4), (topset_double _ _ 8),
      (topset_double _ _ 16), (topset_double _ _ 32) in H1; [|lia..].
    cbv zeta. rewrite (topset_all _ _ _ H0 H1). lia. }
  split; intros i Hi.
  - apply Z.bits_above_log2; lia.
  - intros ?. replace i with (Z.log2 a) by lia. apply Z.bit_log2. lia.
Qed.

(** The least power of two that is not below [size]. *)
Lemma round_pow2_ok size :
  1 <= size <= 2 ^ 32 ->
  exists k, 0 <= k <= 32 /\ round_pow2 size = 2 ^ k /\ size <= 2 ^ k /\
    (forall j, 0 <= j -> size <= 2 ^ j -> 2 ^ k <= 2 ^ j).
Proof.
  intros Hs. destruct (decide (size = 1)) as [->|Hne].
  { exists 0. split_and!; try done. }
  replace size with (size - 1 + 1) by lia. rewrite smear_log2 by lia.
  assert (Hl : 0 <= Z.log2 (size - 1) < 32).
  { split; [apply Z.log2_nonneg|]. apply Z.log2_lt_pow2; lia. }
  destruct (Z.log2_spec (size - 1)) as [Hlo Hhi]; [lia|].
  exists (Z.log2 (size - 1) + 1). split_and!; try lia.
  intros j Hj Hle. apply Z.pow_le_mono_r; [lia|].
  enough (Z.log2 (size - 1) < j) by lia. apply Z.log2_lt_pow2; lia.
Qed.

Lemma NewRing_ok choice P size :
  pools_wf P -> size <= 2 ^ 32 ->
  exists r P', NewRing choice P size = Some (r, P') /\ ring_wf r /\ contents r = [] /\
    Cap r = round_pow2 (if size <=? 0 then 4096 else size) - 1 /\ pools_wf P'.
Proof.
  intros HP Hs. unfold NewRing.
  set (sz := if size <=? 0 then 4096 else size).
  assert (Hsz : 1 <= sz <= 2 ^ 32) by (unfold sz; cmp; lia).
  destruct (round_pow2_ok sz Hsz) as (k & Hk & -> & _).
  assert (0 < 2 ^ k <= 2 ^ 32) by (split; [lia|apply Z.pow_le_mono_r; lia]).
  destruct (getBuf_ok choice P (2 ^ k) HP) as (s & P' & -> & Hl & _ & Hwf & HP'); [lia|].
  simpl. eexists _, P'. split; [done|]. rewrite u32_small by lia.
  assert (Hok : ring_ok k (MkRing s (2 ^ k - 1) 0 0)).
  { split; simpl; try done; lia || (change (u32 (0 - 0)) with 0; lia). }
  split_and!; try done. by exists k.
Qed.

(** ** The ring implements the queue contract *)

Lemma ring_Write_ok r p :
  ring_wf r -> exists r', ring_wf r' /\ Cap r' = Cap r /\
    contents r' = (spec_Write (Cap r) (contents r) p).1 /\
    Write r p = Some (r', (spec_Write (Cap r) (contents r) p).2).
Proof.
  intros Hr. unfold Write, spec_Write, Cap.
  fold (Len r). rewrite <- (Len_wf r Hr).
  destruct (Z.leb_spec (mask r - Len r) 0); [by exists r|].
  destruct (Z.ltb_spec (mask r - Len r) (zlen p)).
  - destruct (push_wf r (take (Z.to_nat (mask r - Len r)) p) Hr) as (buf & -> & ? & ?);
      rewrite zlen_take in * by lia; [lia|]. simpl. eauto.
  - destruct (push_wf r p Hr) as (buf & -> & ? & ?); [lia|]. simpl. eauto.
Qed.

Lemma ring_Read_ok r n :
  ring_wf r -> 0 <= n -> exists r', ring_wf r' /\ Cap r' = Cap r /\
    contents r' = (spec_Read (contents r) n).1 /\
    Read r n = Some (r', (spec_Read (contents r) n).2).
Proof.
  intros Hr Hn. pose proof (Len_wf r Hr) as HL. pose proof (zlen_nonneg (contents r)).
  unfold Read, spec_Read. fold (Len r). rewrite <- HL.
  destruct (Z.eqb_spec (Len r) 0); [by exists r|].
  set (m := if Len r <? n then Len r else n).
  assert (Hm : 0 <= m <= Len r) by (unfold m; cmp; lia).
  assert (Ht : take (Z.to_nat m) (contents r) = take (Z.to_nat n) (contents r) /\
               drop (Z.to_nat m) (contents r) = drop (Z.to_nat n) (contents r)).
  { unfold m, zlen in *. cmp; [|done]. rewrite !take_ge, !drop_ge; done || lia. }
  pose proof Hr as [k Hk]. rewrite (peek_ok k r Hk m Hm). simpl.
  destruct (pop_wf r m Hr Hm) as [? Hc]. destruct Ht as [-> Hd].
  eexists. split_and!; [done|done|by rewrite Hc|done].
Qed.

#[export] Instance Ring_ByteQueue : ByteQueue Ring := {
  q_Len := Len; q_Write := Write; q_Read := Read;
  q_ok := ring_wf; q_items := contents; q_cap := Cap
}.

#[export] Instance Ring_ByteQueueLaws : ByteQueueLaws Ring.
Proof.
  split; [apply Len_wf|apply ring_wf_bound|apply ring_Write_ok|apply ring_Read_ok].
Qed.

(** ** Runs of operations, against the specification *)

Inductive ring_op :=
  | OpWrite (p : bytes) | OpRead (n : Z) | OpWriteByte (c : byte) | OpReadByte
  | OpDiscard (n : Z) | OpReset | OpLen | OpBytes.

Inductive ring_out :=
  | OutN (n : Z) (e : option error) | OutData (l : bytes) (e : option error)
  | OutErr (e : option error) | OutByte (b : byte) (e : option error)
  | OutUnit.

(** One call on the ring: [None] when it panics. *)
Definition exec_ring (r : Ring) (o : ring_op) : option (Ring * ring_out) :=
  match o with
  | OpWrite p => '(r', (n, e)) ← Write r p; Some (r', OutN n e)
  | OpRead n => '(r', (l, e)) ← Read r n; Some (r', OutData l e)
  | OpWriteByte c => '(r', e) ← WriteByte r c; Some (r', OutErr e)
  | OpReadByte => '(r', (b, e)) ← ReadByte r; Some (r', OutByte b e)
  | OpDiscard n => Some (Discard r n, OutUnit)
  | OpReset => Some (Reset r, OutUnit)
  | OpLen => Some (r, OutN (Len r) None)
  | OpBytes => l ← Bytes r; Some (r, OutData l None)
  end.

(** The same call on the list of queued bytes. *)
Definition exec_spec (cap : Z) (q : bytes) (o : ring_op) : bytes * ring_out :=
  match o with
  | OpWrite p => let '(q', (n, e)) := spec_Write cap q p in (q', OutN n e)
  | OpRead n => let '(q', (l, e)) := spec_Read q n in (q', OutData l e)
  | OpWriteByte c =>
      if zlen q <? cap then (q ++ [c], OutErr None) else (q, OutErr (Some errBufferFull))
  | OpReadByte =>
      match q with [] => ([], OutByte 0 (Some errBufferEmpty)) | b :: q' => (q', OutByte b None) end
  | OpDiscard n => (drop (Z.to_nat n) q, OutUnit)
  | OpReset => ([], OutUnit)
  | OpLen => (q, OutN (zlen q) None)
  | OpBytes => (q, OutData q None)
  end.

Fixpoint run_ring (r : Ring) (os : list ring_op) : option (Ring * list ring_out) :=
  match os with
  | [] => Some (r, [])
  | o :: os' => '(r1, x) ← exec_ring r o; '(r2, xs) ← run_ring r1 os'; Some (r2, x :: xs)
  end.

Fixpoint run_spec (cap : Z) (q : bytes) (os : list ring_op) : bytes * list ring_out :=
  match os with
  | [] => (q, [])
  | o :: os' => let '(q1, x) := exec_spec cap q o in
                let '(q2, xs) := run_spec cap q1 os' in (q2, x :: xs)
  end.

(** A length passed to [Read] is that of a slice. *)
Definition op_ok (o : ring_op) : Prop := match o with OpRead n => 0 <= n | _ => True end.

Lemma ring_WriteByte_ok r c :
  ring_wf r -> exists r' e, WriteByte r c = Some (r', e) /\ ring_wf r' /\ Cap r' = Cap r /\
    (contents r', OutErr e) = exec_spec (Cap r) (contents r) (OpWriteByte c).
Proof.
  intros Hr. unfold WriteByte, exec_spec, Cap. fold (Len r). rewrite <- (Len_wf r Hr).
  destruct (Z.leb_spec (mask r) (Len r)), (Z.ltb_spec (Len r) (mask r)); try lia.
  { eauto 10. }
  destruct (push_wf r [c] Hr) as (buf & Hput & Hwf & Hc); [unfold zlen; simpl; lia|].
  cbn [put_loop] in Hput. rewrite Z.add_0_r in Hput.
  pose proof Hr as [k Hk]. rewrite (u32_small (wtail r)) in Hput by apply Hk.
  destruct (sl_set _ _ _) as [buf'|]; simplify_eq/=.
  eexists _, _. split_and!; [done|done|done|]. by f_equal.
Qed.

Lemma ring_ReadByte_ok r :
  ring_wf r -> exists r' b e, ReadByte r = Some (r', (b, e)) /\ ring_wf r' /\
    Cap r' = Cap r /\ (contents r', OutByte b e) = exec_spec (Cap r) (contents r) OpReadByte.
Proof.
  intros Hr. pose proof Hr as [k Hk]. pose proof (Len_wf r Hr) as HL.
  unfold ReadByte, exec_spec. destruct (Z.eqb_spec (wtail r) (rhead r)) as [E|E].
  - assert (H0 : Len r = 0) by (unfold Len; by rewrite E, Z.sub_diag).
    destruct (contents r) as [|? ?] eqn:Ec; [|unfold zlen in HL; simpl in HL; lia].
    eexists _, _, _. split_and!; try done. by rewrite Ec.
  - assert (H0 : 0 < Len r).
    { destruct (Len_bound k r Hk) as [H0 _]. apply Z.lt_eq_cases in H0 as [?|H0]; [done|].
      symmetry in H0. unfold Len, u32 in H0. apply Z.mod_divide in H0 as [q Hq]; [|lia].
      destruct Hk. lia. }
    pose proof (peek_ok k r Hk 1 ltac:(lia)) as Hp. destruct (pop_wf r 1 Hr ltac:(lia)) as [? Hd].
    change (Z.to_nat 1) with 1%nat in *. cbn [get_loop] in Hp.
    rewrite Z.add_0_r, (u32_small (rhead r)) in Hp by apply Hk.
    destruct (sl_get _ _) as [b|] eqn:Eg; simplify_eq/=.
    destruct (contents r) as [|b' l]; [done|]. simplify_eq/=.
    eexists _, _, _. split_and!; [done|done|done|].
    change (u32 1) with 1 in Hd. by rewrite Hd, drop_0.
Qed.

Lemma exec_refines r o :
  ring_wf r -> op_ok o ->
  exists r' x, exec_ring r o = Some (r', x) /\ ring_wf r' /\ Cap r' = Cap r /\
    exec_spec (Cap r) (contents r) o = (contents r', x).
Proof.
  intros Hr Ho. pose proof (Len_wf r Hr) as HL. pose proof Hr as [k Hk].
  destruct o as [p|n|c| |n| | |]; simpl.
  - destruct (ring_Write_ok r p Hr) as (r' & ? & ? & Hc & ->).
    destruct (spec_Write _ _ _) as [q' [m e]]. simpl in *. eauto 10 with congruence.
  - destruct (ring_Read_ok r n Hr Ho) as (r' & ? & ? & Hc & ->).
    destruct (spec_Read _ _) as [q' [m e]]. simpl in *. eauto 10 with congruence.
  - destruct (ring_WriteByte_ok r c Hr) as (r' & e & -> & ? & ? & Hs). simpl. eauto 10.
  - destruct (ring_ReadByte_ok r Hr) as (r' & b & e & -> & ? & ? & Hs). simpl. eauto 10.
  - eexists _, _. split; [done|]. unfold Discard. fold (Len r).
    destruct (Z.leb_spec n 0).
    { rewrite Z2Nat.nonpos by done. by rewrite drop_0. }
    destruct (Len_bound k r Hk).
    set (m := if Len r <? n then Len r else n).
    destruct (pop_wf r m Hr) as [? Hd]; [unfold m; cmp; lia|]. split_and!; [done|done|].
    rewrite Hd. f_equal. unfold m, zlen in *. cmp; [|done]. rewrite !drop_ge; done || lia.
  - eexists _, _. split; [done|]. split_and!; try done.
    exists k. destruct Hk. split; simpl; try done; change (u32 (0 - 0)) with 0; lia.
  - eexists _, _. split; [done|]. split_and!; try done. by rewrite HL.
  - destruct (Len_bound k r Hk). unfold Bytes.
    destruct (Z.eqb_spec (Len r) 0) as [E|E].
    + eexists _, _. split; [done|]. split_and!; try done. f_equal. f_equal.
      apply nil_length_inv. unfold zlen in HL. lia.
    + rewrite (peek_ok k r Hk) by lia. simpl. eexists _, _. split; [done|].
      split_and!; try done. f_equal. f_equal. symmetry. apply take_ge. unfold zlen in HL. lia.
Qed.

Lemma run_refines os : forall r, ring_wf r -> Forall op_ok os ->
  exists r' xs, run_ring r os = Some (r', xs) /\ ring_wf r' /\ Cap r' = Cap r /\
    run_spec (Cap r) (contents r) os = (contents r', xs).
Proof.
  induction os as [|o os IH]; intros r Hr Hos; simpl; [eauto 10|].
  apply Forall_cons_1 in Hos as [Ho Hos].
  destruct (exec_refines r o Hr Ho) as (r1 & x & -> & Hr1 & HC1 & ->). simpl.
  destruct (IH r1 Hr1 Hos) as (r2 & xs & -> & Hr2 & HC2 & Hs). simpl.
  rewrite HC1 in Hs. rewrite Hs. eexists _, _. split_and!; try done. congruence.
Qed.

(** The contiguous part of the queue, as far as the end of the array. *)
Lemma view_contiguous k arr from n :
  0 <= k <= 32 -> 0 <= from -> from mod 2 ^ k + Z.of_nat n <= 2 ^ k -> 2 ^ k <= zlen arr ->
  view arr k from n =
  drop (Z.to_nat (from mod 2 ^ k)) (take (Z.to_nat (from mod 2 ^ k + Z.of_nat n)) arr).
Proof.
  intros Hk Hf Hfit Hl. pose proof (index_range k Hk from) as Hr. apply list_eq. intros j.
  rewrite lookup_drop. destruct (decide (j < n)%nat) as [Hj|Hj].
  - rewrite view_lookup, lookup_take_lt by lia.
    rewrite <- Zplus_mod_idemp_l, Z.mod_small by lia.
    unfold zlen in Hl. rewrite list_lookup_lookup_total_lt by lia. f_equal. f_equal. lia.
  - rewrite !lookup_ge_None_2; [done| |]; rewrite ?length_view, ?length_take; lia.
Qed.

(** ** Properties *)

(** [NewRing] turns any requested size up to 2^32 into an empty ring whose
    array is the least power of two holding it (4096 for a size that is not
    positive), keeping one cell free: the usable capacity is that power minus one. *)
Theorem NewRing_correct choice P size :
  pools_wf P -> size <= 2 ^ 32 ->
  let want := if size <=? 0 then 4096 else size in
  exists r P' k, NewRing choice P size = Some (r, P') /\ ring_wf r /\ contents r = [] /\
    Cap r = 2 ^ k - 1 /\ want <= 2 ^ k /\ (forall j, 0 <= j -> want <= 2 ^ j -> 2 ^ k <= 2 ^ j).
Proof.
  intros HP Hs want. destruct (NewRing_ok choice P size HP Hs) as (r & P' & ? & ? & ? & HC & _).
  destruct (round_pow2_ok want) as (k & _ & Hk & ? & ?); [unfold want; cmp; lia|].
  exists r, P', k. split_and!; try done. rewrite HC. fold want. by rewrite Hk.
Qed.

Lemma NewRing_correct_witness :
  exists r P' k, NewRing 0 empty_pools 100 = Some (r, P') /\ ring_wf r /\ contents r = [] /\
    Cap r = 2 ^ k - 1 /\ 100 <= 2 ^ k /\ (forall j, 0 <= j -> 100 <= 2 ^ j -> 2 ^ k <= 2 ^ j).
Proof.
  exact (NewRing_correct 0 empty_pools 100 empty_pools_wf ltac:(lia)).
Defined.

(** C4: the ring buffer refines a bounded FIFO queue: from any well-formed state,
    every sequence of [Write], [Read], [WriteByte], [ReadByte], [Discard], [Reset],
    [Len] and [Bytes] calls runs without a panic and returns, call by call, exactly
    the results of the same calls on the list of queued bytes, across the
    wrap-around of the array and of the 32-bit counters. *)
Theorem ring_refines_queue r os :
  ring_wf r -> Forall op_ok os ->
  exists r' xs, run_ring r os = Some (r', xs) /\ ring_wf r' /\
    run_spec (Cap r) (contents r) os = (contents r', xs).
Proof.
  intros Hr Hos. destruct (run_refines os r Hr Hos) as (r' & xs & ? & ? & _ & ?). eauto.
Qed.

(** A ring of 8 cells whose counters are about to wrap around. *)
Definition wrap_ring : Ring := MkRing (MkSlice [1;2;3;4;5;6;7;8] 8) 7 (2 ^ 32 - 3) (2 ^ 32 - 1).

Lemma wrap_ring_wf : ring_wf wrap_ring.
Proof. exists 3. split; try done; unfold sl_wf, sl_cap, zlen; simpl; lia. Qed.

Lemma ring_refines_queue_witness :
  exists r' xs, run_ring wrap_ring [OpWrite [9;10;11]; OpWriteByte 12; OpRead 4; OpLen; OpBytes]
      = Some (r', xs) /\ ring_wf r' /\
    run_spec 7 [6; 7] [OpWrite [9;10;11]; OpWriteByte 12; OpRead 4; OpLen; OpBytes]
      = (contents r', xs).
Proof.
  apply (ring_refines_queue wrap_ring).
  - exact wrap_ring_wf.
  - repeat constructor; simpl; lia.
Defined.

(** On a ring of at most 2^30 cells, [Peek n] with [n >= 0] returns a prefix of the
    queued bytes without consuming any: the first [n] of them, or all, or the part up
    to the end of the array when the data wraps around; it is empty only when [n] is
    zero or the ring is empty. *)
Theorem Peek_prefix r n :
  ring_wf r -> 0 <= n -> mask r < 2 ^ 30 ->
  exists l, Peek r n = Some l /\ l = take (length l) (contents r) /\ zlen l <= n /\
    (l = [] -> n = 0 \/ contents r = []).
Proof.
  intros [k Hr] Hn Hm30. pose proof (Len_contents k r Hr) as HL.
  pose proof (Len_bound k r Hr) as HB. pose proof (mask_pow k r Hr) as Hp.
  unfold Peek. fold (Len r). set (m := if Len r <? n then Len r else n).
  assert (Hm : 0 <= m <= Len r /\ m <= n /\ (m = 0 -> n = 0 \/ Len r = 0))
    by (unfold m; cmp; lia).
  destruct Hm as (Hm & Hmn & Hm0). destruct (Z.eqb_spec m 0) as [E|E].
  { exists []. split_and!; [done|done|zl|]. intros _. destruct (Hm0 E) as [?|HL0]; [by left|].
    right. apply nil_length_inv. unfold zlen in HL. lia. }
  pose proof (ok_k _ _ Hr) as Hk. pose proof (index_range k Hk (rhead r)) as Hi.
  assert (Hst : Z.land (rhead r) (mask r) = rhead r mod 2 ^ k).
  { rewrite (ok_mask _ _ Hr), <- (u32_small (rhead r)) at 1 by apply Hr. by apply land_index. }
  rewrite Hst, (ok_len _ _ Hr), (u32_small m), (u32_small (2 ^ k)) by lia.
  rewrite u32_small by lia. pose proof (ok_buf _ _ Hr) as Hb. unfold sl_wf in Hb.
  rewrite (ok_len _ _ Hr) in Hb.
  (* the length delivered, in both branches *)
  set (d := if rhead r mod 2 ^ k + m <=? 2 ^ k then m else 2 ^ k - rhead r mod 2 ^ k).
  assert (Hd : 0 < d <= m /\ rhead r mod 2 ^ k + d <= 2 ^ k) by (unfold d; cmp; lia).
  exists (view (sl_arr (rbuf r)) k (rhead r) (Z.to_nat d)). split_and!.
  - rewrite view_contiguous by (apply Hr || unfold sl_cap in *; lia).
    rewrite Z2Nat.id by lia. unfold sl_sub, d.
    destruct (Z.leb_spec (rhead r mod 2 ^ k + m) (2 ^ k));
      repeat (cmp; try lia); simpl; do 3 f_equal; lia.
  - rewrite length_view, (contents_view k r Hr), view_take by lia. done.
  - unfold zlen. rewrite length_view. lia.
  - intros H0. apply (f_equal length) in H0. rewrite length_view in H0. simpl in H0. lia.
Qed.

Lemma Peek_prefix_witness :
  exists l, Peek wrap_ring 7 = Some l /\ l = take (length l) (contents wrap_ring) /\
    zlen l <= 7 /\ (l = [] -> 7 = 0 \/ contents wrap_ring = []).
Proof. apply (Peek_prefix wrap_ring 7); [exact wrap_ring_wf|lia|simpl; lia]. Defined.
