(* ===== verification/Spsc.v ===== *)
(** * Spsc: the ring of [buffer.go] between one writer and one reader goroutine.

    [RingBuf] runs one operation at a time. Here an operation is cut at its accesses to
    shared memory: the atomic load of each counter, each access to a cell of the array,
    the atomic store of a counter. A schedule lets the two goroutines call operations
    and take such steps in any order. Go's atomics are sequentially consistent, and that
    the plain accesses to the cells never race is part of what is proved. *)
From S2P Require Import Prelude GoSlice Pool ByteQueue RingBuf.

(** ** The two goroutines *)

Inductive pcall := CallWrite (p : bytes) | CallWriteByte (c : byte).
Inductive ccall := CallRead (plen : nat) | CallReadByte | CallDiscard (n : Z).

(** A returned call with its result. [seen] is what was queued when the call looked at
    the other side's counter; it is not part of the program's state. *)
Inductive event :=
  | DidWrite (p seen : bytes) (res : Z * option error)
  | DidWriteByte (c : byte) (seen : bytes) (err : option error)
  | DidRead (plen : nat) (seen : bytes) (res : bytes * option error)
  | DidReadByte (seen : bytes) (res : byte * option error)
  | DidDiscard (n : Z) (seen : bytes).

(** Where a writer stands in a call: before loading [wtail], before loading [rhead],
    before storing [p[i]] (or, with [i = len(p)], before publishing the new [wtail]). *)
Inductive producer :=
  | PIdle
  | PTail (call : pcall)
  | PHead (call : pcall) (w : Z)
  | PCopy (call : pcall) (w : Z) (p : bytes) (i : nat) (err : option error) (seen : bytes).

(** And a reader: before loading [rhead], [wtail], the [i]-th of [n] cells, or before
    publishing the new [rhead]; [acc] is what it has copied. *)
Inductive consumer :=
  | CIdle
  | CHead (call : ccall)
  | CTail (call : ccall) (rh : Z)
  | CCopy (call : ccall) (rh : Z) (n i : nat) (acc seen : bytes).

#[global] Instance pcall_eq_dec : EqDecision pcall.
Proof. solve_decision. Defined.

#[global] Instance ccall_eq_dec : EqDecision ccall.
Proof. solve_decision. Defined.

#[global] Instance producer_eq_dec : EqDecision producer.
Proof. solve_decision. Defined.

#[global] Instance consumer_eq_dec : EqDecision consumer.
Proof. solve_decision. Defined.

Inductive result (A : Type) := Next (a : A) | Stuck | Panic.
Arguments Next {A}.
Arguments Stuck {A}.
Arguments Panic {A}.

(** ** The writer's steps *)

(** The cell that the [i]-th store goes to. *)
Definition put_index (r : Ring) (call : pcall) (w : Z) (i : nat) : Z :=
  match call with
  | CallWrite _ => Z.land (u32 (w + u32 (Z.of_nat i))) (mask r)
  | CallWriteByte _ => Z.land w (mask r)
  end.

Definition store_wtail (r : Ring) (w : Z) : Ring := MkRing (rbuf r) (mask r) (rhead r) w.
Definition store_rhead (r : Ring) (rh : Z) : Ring := MkRing (rbuf r) (mask r) rh (wtail r).

Definition producer_step (r : Ring) (pr : producer) : result (Ring * producer * option event) :=
  match pr with
  | PIdle => Stuck
  | PTail call => Next (r, PHead call (wtail r), None)
  | PHead (CallWrite p) w =>
      let rh := rhead r in
      let avail := mask r - u32 (w - rh) in
      if avail <=? 0 then
        Next (r, PIdle, Some (DidWrite p (contents r) (0, Some errBufferFull)))
      else
        let truncated := avail <? zlen p in
        let p' := if truncated then take (Z.to_nat avail) p else p in
        Next (r, PCopy (CallWrite p) w p' 0 (if truncated then Some errBufferFull else None)
                       (contents r), None)
  | PHead (CallWriteByte c) w =>
      let rh := rhead r in
      if mask r <=? u32 (w - rh) then
        Next (r, PIdle, Some (DidWriteByte c (contents r) (Some errBufferFull)))
      else Next (r, PCopy (CallWriteByte c) w [c] 0 None (contents r), None)
  | PCopy call w p i err seen =>
      match p !! i with
      | Some b =>
          match sl_set (rbuf r) (put_index r call w i) b with
          | None => Panic
          | Some buf => Next (MkRing buf (mask r) (rhead r) (wtail r),
                              PCopy call w p (S i) err seen, None)
          end
      | None =>
          match call with
          | CallWrite p0 => Next (store_wtail r (u32 (w + u32 (zlen p))), PIdle,
                                  Some (DidWrite p0 seen (zlen p, err)))
          | CallWriteByte c => Next (store_wtail r (u32 (w + 1)), PIdle,
                                     Some (DidWriteByte c seen None))
          end
      end
  end.

(** ** The reader's steps *)

Definition get_index (r : Ring) (call : ccall) (rh : Z) (i : nat) : Z :=
  match call with
  | CallReadByte => Z.land rh (mask r)
  | _ => Z.land (u32 (rh + u32 (Z.of_nat i))) (mask r)
  end.

Definition consumer_step (r : Ring) (co : consumer) : result (Ring * consumer * option event) :=
  match co with
  | CIdle => Stuck
  | CHead (CallDiscard n) =>
      if n <=? 0 then Next (r, CIdle, Some (DidDiscard n (contents r)))
      else Next (r, CTail (CallDiscard n) (rhead r), None)
  | CHead call => Next (r, CTail call (rhead r), None)
  | CTail (CallRead plen) rh =>
      let w := wtail r in
      let avail := u32 (w - rh) in
      if avail =? 0 then Next (r, CIdle, Some (DidRead plen (contents r) ([], Some errBufferEmpty)))
      else
        let n := if avail <? Z.of_nat plen then Z.to_nat avail else plen in
        Next (r, CCopy (CallRead plen) rh n 0 [] (contents r), None)
  | CTail CallReadByte rh =>
      let w := wtail r in
      if w =? rh then Next (r, CIdle, Some (DidReadByte (contents r) (0, Some errBufferEmpty)))
      else Next (r, CCopy CallReadByte rh 1 0 [] (contents r), None)
  | CTail (CallDiscard n) rh =>
      let w := wtail r in
      let avail := u32 (w - rh) in
      let n' := if avail <? n then avail else n in
      Next (r, CCopy (CallDiscard n) rh (Z.to_nat n') (Z.to_nat n') [] (contents r), None)
  | CCopy call rh n i acc seen =>
      if (i <? n)%nat then
        match sl_get (rbuf r) (get_index r call rh i) with
        | None => Panic
        | Some b => Next (r, CCopy call rh n (S i) (acc ++ [b]) seen, None)
        end
      else
        let ev := match call with
                  | CallRead plen => DidRead plen seen (acc, None)
                  | CallReadByte => DidReadByte seen (List.hd 0 acc, None)
                  | CallDiscard m => DidDiscard m seen
                  end in
        Next (store_rhead r (u32 (rh + u32 (Z.of_nat n))), CIdle, Some ev)
  end.

(** ** Schedules *)

Record sys := Sys { ring : Ring; prod : producer; cons : consumer; log : list event }.

Inductive action := ProducerCalls (call : pcall) | ProducerSteps
  | ConsumerCalls (call : ccall) | ConsumerSteps.

Definition add_log (l : list event) (e : option event) : list event :=
  match e with Some e => l ++ [e] | None => l end.

Definition sstep (s : sys) (a : action) : result sys :=
  match a with
  | ProducerCalls call =>
      match prod s with PIdle => Next (Sys (ring s) (PTail call) (cons s) (log s)) | _ => Stuck end
  | ConsumerCalls call =>
      match cons s with CIdle => Next (Sys (ring s) (prod s) (CHead call) (log s)) | _ => Stuck end
  | ProducerSteps =>
      match producer_step (ring s) (prod s) with
      | Next (r, pr, e) => Next (Sys r pr (cons s) (add_log (log s) e))
      | Stuck => Stuck | Panic => Panic
      end
  | ConsumerSteps =>
      match consumer_step (ring s) (cons s) with
      | Next (r, co, e) => Next (Sys r (prod s) co (add_log (log s) e))
      | Stuck => Stuck | Panic => Panic
      end
  end.

(** A schedule that names an idle or a busy goroutine at the wrong moment wastes the
    turn; [None] is a run-time panic. *)
Fixpoint run (s : sys) (sched : list action) : option sys :=
  match sched with
  | [] => Some s
  | a :: sched' =>
      match sstep s a with
      | Next s' => run s' sched'
      | Stuck => run s sched'
      | Panic => None
      end
  end.

(** The cells the next step of each goroutine writes and reads. *)
Definition writes_cell (s : sys) : option Z :=
  match prod s with
  | PCopy call w p i _ _ => if (i <? length p)%nat then Some (put_index (ring s) call w i) else None
  | _ => None
  end.

Definition reads_cell (s : sys) : option Z :=
  match cons s with
  | CCopy call rh n i _ _ => if (i <? n)%nat then Some (get_index (ring s) call rh i) else None
  | _ => None
  end.

Definition race (s : sys) : bool :=
  match writes_cell s, reads_cell s with Some i, Some j => i =? j | _, _ => false end.

(** ** The specification: a FIFO and the moment each call looked at it *)

(** [allowed cap q e q']: the call's result is the one of the sequential specification
    on [seen]. Between that moment and its effect on [q] the other side may have taken
    bytes from the front (of a writer's [seen]) or added some at the end. *)
Inductive allowed (cap : Z) (q : bytes) : event -> bytes -> Prop :=
  | allow_write p seen taken : seen = taken ++ q ->
      let res := (spec_Write cap seen p).2 in
      zlen q + res.1 <= cap ->
      allowed cap q (DidWrite p seen res) (q ++ take (Z.to_nat res.1) p)
  | allow_write_byte c seen taken : seen = taken ++ q -> zlen seen < cap ->
      allowed cap q (DidWriteByte c seen None) (q ++ [c])
  | allow_byte_full c seen : seen = q -> cap <= zlen q ->
      allowed cap q (DidWriteByte c seen (Some errBufferFull)) q
  | allow_read plen seen added : q = seen ++ added ->
      let res := (spec_Read seen (Z.of_nat plen)).2 in
      allowed cap q (DidRead plen seen res) (drop (length res.1) q)
  | allow_read_byte b seen added : q = b :: seen ++ added ->
      allowed cap q (DidReadByte (b :: seen) (b, None)) (seen ++ added)
  | allow_byte_empty : q = [] -> allowed cap q (DidReadByte [] (0, Some errBufferEmpty)) q
  | allow_discard n seen added : q = seen ++ added ->
      allowed cap q (DidDiscard n seen) (drop (Nat.min (Z.to_nat n) (length seen)) q).

Inductive fifo (cap : Z) (q : bytes) : list event -> bytes -> Prop :=
  | fifo_nil : fifo cap q [] q
  | fifo_snoc l e q1 q2 : fifo cap q l q1 -> allowed cap q1 e q2 -> fifo cap q (l ++ [e]) q2.

(** What a call put in and what it took out. *)
Definition accepted (e : event) : bytes :=
  match e with
  | DidWrite p _ res => take (Z.to_nat res.1) p
  | DidWriteByte c _ None => [c]
  | _ => []
  end.

Definition removed (e : event) : bytes :=
  match e with
  | DidRead _ _ res => res.1
  | DidReadByte _ (b, None) => [b]
  | DidDiscard n seen => take (Z.to_nat n) seen
  | _ => []
  end.

(** ** The invariant *)

Definition queued (r : Ring) : nat := Z.to_nat (Len r).

(** Cells past the tail hold what the writer has stored so far, and room for the rest
    of its bytes stays reserved. *)
Definition producer_ok (k : Z) (r : Ring) (pr : producer) : Prop :=
  match pr with
  | PIdle | PTail _ => True
  | PHead _ w => w = wtail r
  | PCopy call w p i err seen =>
      w = wtail r /\ (i <= length p)%nat /\ Len r + zlen p <= mask r /\
      view (sl_arr (rbuf r)) k (rhead r) (queued r + i) = contents r ++ take i p /\
      (exists taken, seen = taken ++ contents r) /\
      match call with
      | CallWrite p0 => (zlen p, err) = (spec_Write (mask r) seen p0).2 /\ p = take (length p) p0
      | CallWriteByte c => p = [c] /\ zlen seen < mask r
      end
  end.

(** The reader has copied a prefix of the queue, whose front nobody else moves. *)
Definition consumer_ok (r : Ring) (co : consumer) : Prop :=
  match co with
  | CIdle | CHead _ => True
  | CTail _ rh => rh = rhead r
  | CCopy call rh n i acc seen =>
      rh = rhead r /\ (i <= n <= length seen)%nat /\
      (exists added, contents r = seen ++ added) /\
      match call with
      | CallRead plen => acc = take i seen /\ seen <> [] /\ n = Nat.min plen (length seen)
      | CallReadByte => acc = take i seen /\ n = 1%nat
      | CallDiscard m => i = n /\ n = Nat.min (Z.to_nat m) (length seen)
      end
  end.

Record sys_ok (k : Z) (s : sys) : Prop := {
  so_ring : ring_ok k (ring s);
  so_prod : producer_ok k (ring s) (prod s);
  so_cons : consumer_ok (ring s) (cons s)
}.

Section Steps.
  Context (k : Z).
  Implicit Types (r : Ring) (p seen : bytes).

Lemma queued_contents r : ring_ok k r -> queued r = length (contents r).
Proof using Type.
  intros Hr. unfold queued. rewrite (Len_contents k r Hr). unfold zlen. lia.
Qed.

(** The cells the two loops touch. *)
Lemma put_index_ok r call i p err seen :
  ring_ok k r -> producer_ok k r (PCopy call (wtail r) p i err seen) -> (i < length p)%nat ->
  put_index r call (wtail r) i = (rhead r + Z.of_nat (queued r + i)) mod 2 ^ k.
Proof using Type.
  intros Hr (_ & _ & _ & _ & _ & Hc) Hi. pose proof (ok_k _ _ Hr) as Hk.
  assert (E : put_index r call (wtail r) i = (wtail r + Z.of_nat i) mod 2 ^ k).
  { unfold put_index. rewrite (ok_mask _ _ Hr). destruct call as [p0|c].
    - by rewrite u32_add_r, land_index.
    - destruct Hc as [-> _]. simpl in Hi. replace i with 0%nat by lia. rewrite Z.add_0_r.
      rewrite <- land_index by done. by rewrite u32_small by apply (ok_wtail _ _ Hr). }
  rewrite E. unfold queued, Len. rewrite Nat2Z.inj_add, Z2Nat.id by apply u32_range.
  rewrite Z.add_assoc, <- (Zplus_mod_idemp_l (rhead r + _)), add_u32_mod by done.
  rewrite Zplus_mod_idemp_l. f_equal. lia.
Qed.

Lemma get_index_ok r call rh n i acc seen :
  ring_ok k r -> consumer_ok r (CCopy call rh n i acc seen) -> (i < n)%nat ->
  get_index r call rh i = (rhead r + Z.of_nat i) mod 2 ^ k.
Proof using Type.
  intros Hr (-> & _ & _ & Hc) Hi. pose proof (ok_k _ _ Hr) as Hk.
  unfold get_index. rewrite (ok_mask _ _ Hr). destruct call as [plen| |m].
  - by rewrite u32_add_r, land_index.
  - destruct Hc as [_ ->]. replace i with 0%nat by lia. rewrite Z.add_0_r.
    rewrite <- land_index by done. by rewrite u32_small by apply (ok_rhead _ _ Hr).
  - by rewrite u32_add_r, land_index.
Qed.

(** Storing a cell past the queue leaves the queue alone. *)
Lemma store_cell_ok r n b :
  ring_ok k r -> (queued r <= n)%nat -> Z.of_nat n <= mask r ->
  exists buf, sl_set (rbuf r) ((rhead r + Z.of_nat n) mod 2 ^ k) b = Some buf /\
    let r' := MkRing buf (mask r) (rhead r) (wtail r) in
    ring_ok k r' /\ contents r' = contents r /\
    view (sl_arr buf) k (rhead r) (S n) = view (sl_arr (rbuf r)) k (rhead r) n ++ [b].
Proof using Type.
  intros Hr Hq Hn. pose proof (index_range k (ok_k _ _ Hr) (rhead r + Z.of_nat n)) as Hi.
  rewrite sl_set_Some by (rewrite (ok_len _ _ Hr); lia). eexists. split; [done|]. intros r'.
  assert (Hbuf : sl_wf (rbuf r')).
  { pose proof (ok_buf _ _ Hr). unfold sl_wf, sl_cap, zlen in *. simpl. by rewrite length_insert. }
  assert (Hr' : ring_ok k r') by (destruct Hr; by split).
  assert (Hv : view (sl_arr (rbuf r')) k (rhead r) (S n) = view (sl_arr (rbuf r)) k (rhead r) n ++ [b]).
  { apply view_insert; [apply Hr| |rewrite (ok_mask _ _ Hr) in Hn; lia].
    pose proof (ok_buf _ _ Hr) as Hb. unfold sl_wf, sl_cap in Hb. rewrite (ok_len _ _ Hr) in Hb. lia. }
  split; [done|]. split; [|done].
  rewrite !(contents_view k) by done. change (Len r') with (Len r).
  fold (queued r). change (rhead r') with (rhead r).
  rewrite <- (view_take k (sl_arr (rbuf r')) (rhead r) (S n)) by lia. rewrite Hv.
  rewrite take_app_le by (rewrite length_view; lia). by rewrite view_take by lia.
Qed.

(** Publishing the tail appends the stored bytes to the queue. *)
Lemma publish_tail_ok r p :
  ring_ok k r -> Len r + zlen p <= mask r ->
  view (sl_arr (rbuf r)) k (rhead r) (queued r + length p) = contents r ++ p ->
  let r' := store_wtail r (u32 (wtail r + u32 (zlen p))) in
  ring_ok k r' /\ contents r' = contents r ++ p.
Proof using Type.
  intros Hr Hfit Hv r'. pose proof (Len_bound k r Hr). pose proof (mask_bound k r Hr).
  assert (HL : Len r' = Len r + zlen p).
  { apply (counter_push (wtail r) (rhead r)); [apply zlen_nonneg|]. fold (Len r). lia. }
  assert (Hr' : ring_ok k r').
  { destruct Hr. split; simpl; try done; [apply u32_range|]. change (Len r' <= mask r). lia. }
  split; [done|]. rewrite (contents_view k) by done. rewrite HL, <- Hv. unfold queued, zlen.
  f_equal. lia.
Qed.

(** What a writer relies on survives the reader's steps, and the other way round. *)
Lemma producer_ok_pop r n pr :
  ring_ok k r -> 0 <= n <= Len r -> producer_ok k r pr ->
  producer_ok k (store_rhead r (u32 (rhead r + u32 n))) pr.
Proof using Type.
  intros Hr Hn Hp. set (r' := store_rhead r (u32 (rhead r + u32 n))).
  destruct (pop_ok k r Hr n Hn) as [Hr' Hc].
  change (ring_ok k r') in Hr'. change (contents r' = drop (Z.to_nat n) (contents r)) in Hc.
  destruct pr as [|call|call w|call w p i err seen]; try done.
  destruct Hp as (Hw & Hi & Hfit & Hv & (tk & Hs) & Hcall).
  assert (HL : Len r' = Len r - n).
  { rewrite (Len_contents k _ Hr'), Hc, (Len_contents k _ Hr). unfold zlen.
    rewrite length_drop. pose proof (Len_contents k _ Hr) as E. unfold zlen in E. lia. }
  pose proof (ok_k _ _ Hr). pose proof (queued_contents r Hr) as Hq.
  split; [done|]. split; [done|]. split; [rewrite HL; simpl; lia|]. split; [|split; [|done]].
  - change (view (sl_arr (rbuf r)) k (u32 (rhead r + u32 n)) (queued r' + i) = contents r' ++ take i p).
    rewrite u32_add_r, view_u32, Hc by done.
    replace (rhead r + n) with (rhead r + Z.of_nat (Z.to_nat n)) by lia.
    replace (queued r' + i)%nat with (queued r + i - Z.to_nat n)%nat by (unfold queued; lia).
    rewrite <- view_drop by (unfold queued; lia). rewrite Hv. apply drop_app_le.
    rewrite <- Hq. unfold queued. lia.
  - exists (tk ++ take (Z.to_nat n) (contents r)). by rewrite Hs, Hc, <- app_assoc, take_drop.
Qed.

Lemma consumer_ok_keep r r' co :
  rhead r' = rhead r -> (exists l, contents r' = contents r ++ l) ->
  consumer_ok r co -> consumer_ok r' co.
Proof using Type.
  intros Hrh [l Hc]. destruct co as [|call|call rh|call rh n i acc seen]; simpl; rewrite ?Hrh; try done.
  intros (? & ? & (added & E) & ?). split_and!; try done; try lia.
  exists (added ++ l). by rewrite Hc, E, <- app_assoc.
Qed.
(** A step without a return leaves the queue alone; a return has an allowed effect. *)
Definition effect (cap : Z) (q : bytes) (e : option event) (q' : bytes) : Prop :=
  match e with None => q' = q | Some e => allowed cap q e q' end.

Lemma producer_head_ok r call :
  ring_ok k r ->
  exists pr e, producer_step r (PHead call (wtail r)) = Next (r, pr, e) /\
    producer_ok k r pr /\ effect (mask r) (contents r) e (contents r).
Proof using Type.
  intros Hr. pose proof (Len_contents k r Hr) as HL. pose proof (Len_bound k r Hr) as Hb.
  pose proof (queued_contents r Hr) as Hq.
  assert (Hv : forall p, view (sl_arr (rbuf r)) k (rhead r) (queued r + 0) = contents r ++ take 0 p).
  { intros p. rewrite Nat.add_0_r, app_nil_r. symmetry. by apply contents_view. }
  destruct call as [p|c]; cbn [producer_step]; fold (Len r).
  - destruct (Z.leb_spec (mask r - Len r) 0) as [Hfull|Hfree].
    + eexists _, _. split; [done|]. split; [done|]. simpl.
      assert (E : (spec_Write (mask r) (contents r) p).2 = (0, Some errBufferFull)).
      { unfold spec_Write. rewrite <- HL. by rewrite (proj2 (Z.leb_le _ _)). }
      rewrite <- E. pose proof (allow_write (mask r) (contents r) p (contents r) []) as A.
      rewrite E in *. cbn [fst] in A. rewrite take_0, app_nil_r in A. apply A; [done|lia].
    + eexists _, _. split; [done|]. split; [|done]. simpl.
      set (p' := if mask r - Len r <? zlen p then _ else p).
      assert (Hp' : zlen p' <= mask r - Len r /\ p' = take (length p') p /\
        (zlen p', if mask r - Len r <? zlen p then Some errBufferFull else None) =
        (spec_Write (mask r) (contents r) p).2).
      { unfold p', spec_Write. rewrite <- HL, (proj2 (Z.leb_gt (mask r - Len r) 0)) by done.
        destruct (Z.ltb_spec (mask r - Len r) (zlen p)).
        - rewrite zlen_take by lia. split_and!; [lia| |done].
          rewrite length_take, Nat.min_l by (unfold zlen in *; lia). done.
        - split_and!; [done| |done]. by rewrite firstn_all. }
      destruct Hp' as (? & ? & ?). split_and!; try done; [lia|lia|by exists []].
  - destruct (Z.leb_spec (mask r) (Len r)) as [Hfull|Hfree]; (eexists _, _; split; [done|]); (split; [|try done]).
    + done.
    + apply allow_byte_full; [done|lia].
    + split_and!; try done; [simpl; lia|cbn [zlen length]; zl|by exists []|lia].
Qed.

Lemma producer_copy_ok r call w p i err seen :
  ring_ok k r -> producer_ok k r (PCopy call w p i err seen) ->
  exists r' pr e, producer_step r (PCopy call w p i err seen) = Next (r', pr, e) /\
    ring_ok k r' /\ producer_ok k r' pr /\ mask r' = mask r /\ rhead r' = rhead r /\
    effect (mask r) (contents r) e (contents r') /\ exists l, contents r' = contents r ++ l.
Proof using Type.
  intros Hr Hp. pose proof Hp as (-> & Hi & Hfit & Hv & (tk & Hs) & Hcall). cbn [producer_step].
  destruct (p !! i) as [b|] eqn:Eb.
  - pose proof (lookup_lt_Some _ _ _ Eb) as Hlt.
    rewrite (put_index_ok r call i p err seen) by done.
    destruct (store_cell_ok r (queued r + i) b Hr) as (buf & -> & Hr' & Hc & Hv');
      [lia|unfold queued, zlen in *; pose proof (Len_bound k r Hr); lia|].
    eexists _, _, _. split; [done|]. split; [done|].
    split; [|split_and!; try done; exists []; by rewrite app_nil_r].
    split_and!; try done.
    + unfold queued. change (Len (MkRing buf _ _ _)) with (Len r). fold (queued r).
      rewrite Hc. cbn [rbuf rhead]. rewrite Nat.add_succ_r, Hv', Hv, <- app_assoc.
      by rewrite (take_S_r _ _ b).
    + exists tk. by rewrite Hc.
  - apply lookup_ge_None in Eb. replace i with (length p) in Hv by lia. rewrite firstn_all in Hv.
    destruct (publish_tail_ok r p Hr Hfit Hv) as [Hr' Hc].
    assert (Hcap : zlen (contents r) + zlen p <= mask r) by (by rewrite <- (Len_contents k r Hr)).
    destruct call as [p0|c]; eexists _, _, _; (split; [done|]).
    + destruct Hcall as [Eres Ep]. split_and!; try done; [|by exists p]. simpl. rewrite Eres, Hc.
      replace p with (take (Z.to_nat (spec_Write (mask r) seen p0).2.1) p0)
        by (rewrite <- Eres; cbn [fst]; unfold zlen; by rewrite Nat2Z.id).
      apply (allow_write _ _ _ _ tk Hs). by rewrite <- Eres.
    + destruct Hcall as [-> Hseen]. rewrite u32_add_r in Hr', Hc. change (zlen [c]) with 1 in *.
      split_and!; try done; [|by exists [c]]. simpl. rewrite Hc. by apply (allow_write_byte _ _ _ _ tk).
Qed.

Lemma producer_step_ok r pr :
  ring_ok k r -> producer_ok k r pr -> pr <> PIdle ->
  exists r' pr' e, producer_step r pr = Next (r', pr', e) /\
    ring_ok k r' /\ producer_ok k r' pr' /\ mask r' = mask r /\ rhead r' = rhead r /\
    effect (mask r) (contents r) e (contents r') /\ exists l, contents r' = contents r ++ l.
Proof using Type.
  intros Hr Hp Hne. assert (Hnil : exists l, contents r = contents r ++ l)
    by (exists []; by rewrite app_nil_r).
  destruct pr as [|call|call w|call w p i err seen]; [done| | |by apply producer_copy_ok].
  - eexists _, _, _. split; [done|]. split_and!; done.
  - simpl in Hp. subst w. destruct (producer_head_ok r call Hr) as (pr & e & -> & ? & ?).
    eexists _, _, _. split; [done|]. split_and!; done.
Qed.

Lemma consumer_tail_ok r call :
  ring_ok k r ->
  exists co e, consumer_step r (CTail call (rhead r)) = Next (r, co, e) /\
    consumer_ok r co /\ effect (mask r) (contents r) e (contents r).
Proof using Type.
  intros Hr. pose proof (Len_contents k r Hr) as HL. pose proof (Len_bound k r Hr) as Hb.
  assert (Hpre : exists added, contents r = contents r ++ added) by (exists []; by rewrite app_nil_r).
  assert (Hnil : Len r = 0 -> contents r = []) by (intros E; destruct (contents r); [done|zl]).
  destruct call as [plen| |n]; cbn [consumer_step]; fold (Len r).
  - destruct (Z.eqb_spec (Len r) 0) as [E|E]; (eexists _, _; split; [done|]); (split; [|try done]).
    + done.
    + specialize (Hnil E). simpl. pose proof (allow_read (mask r) (contents r) plen (contents r) []) as A.
      rewrite Hnil in *. by apply A.
    + assert (contents r <> []) by (destruct (contents r); [zl|done]).
      cmp; (split_and!; try done; unfold zlen in *; lia).
  - destruct (Z.eqb_spec (wtail r) (rhead r)) as [E|E]; (eexists _, _; split; [done|]); (split; [|try done]).
    + done.
    + assert (E0 : contents r = []) by (apply Hnil; unfold Len; by rewrite E, Z.sub_diag).
      rewrite E0. by apply allow_byte_empty.
    + assert (Len r <> 0).
      { unfold Len. intros E0. pose proof (ok_wtail _ _ Hr). pose proof (ok_rhead _ _ Hr).
        apply E. unfold u32 in E0. apply Z.mod_divide in E0 as [j Hj]; [|done].
        assert (j = 0) by lia. lia. }
      split_and!; try done; [lia|]. unfold zlen in HL. lia.
  - eexists _, _. split; [done|]. split; [|done].
    unfold zlen in HL. cmp; (split_and!; try done; lia).
Qed.

Lemma consumer_publish_ok r call n acc seen :
  ring_ok k r -> consumer_ok r (CCopy call (rhead r) n n acc seen) ->
  exists r' e, consumer_step r (CCopy call (rhead r) n n acc seen) = Next (r', CIdle, Some e) /\
    r' = store_rhead r (u32 (rhead r + u32 (Z.of_nat n))) /\ Z.of_nat n <= Len r /\
    ring_ok k r' /\ allowed (mask r) (contents r) e (contents r').
Proof using Type.
  intros Hr (_ & Hi & (added & Hs) & Hcall). cbn [consumer_step]. rewrite Nat.ltb_irrefl.
  assert (Hn : Z.of_nat n <= Len r).
  { rewrite (Len_contents k r Hr), Hs, zlen_app. unfold zlen. lia. }
  destruct (pop_ok k r Hr (Z.of_nat n)) as [Hr' Hc]; [lia|]. rewrite Nat2Z.id in Hc.
  eexists _, _. split; [done|]. split_and!; try done.
  change (allowed (mask r) (contents r) (match call with
    | CallRead plen => DidRead plen seen (acc, None)
    | CallReadByte => DidReadByte seen (List.hd 0 acc, None)
    | CallDiscard m => DidDiscard m seen end) (contents (MkRing (rbuf r) (mask r)
      (u32 (rhead r + u32 (Z.of_nat n))) (wtail r)))). rewrite Hc.
  destruct call as [plen| |m]; destruct Hcall as [Hacc Hcall].
  - destruct Hcall as [Hne ->].
    assert (E : (spec_Read seen (Z.of_nat plen)).2 = (acc, None)).
    { unfold spec_Read. destruct (Z.eqb_spec (zlen seen) 0); [destruct seen; [done|zl]|].
      cbn [snd]. rewrite Nat2Z.id, Hacc. f_equal. rewrite <- (firstn_all seen) at 1.
      by rewrite take_take. }
    rewrite <- E. replace (Nat.min plen (length seen)) with (length (spec_Read seen (Z.of_nat plen)).2.1)
      by (rewrite E, Hacc; cbn [fst]; rewrite length_take; lia).
    by apply (allow_read _ _ _ _ added).
  - subst n. destruct seen as [|b seen]; [simpl in *; lia|]. rewrite Hacc, Hs. simpl.
    rewrite drop_0. by apply allow_read_byte with (added := added).
  - rewrite Hcall. by apply (allow_discard _ _ _ _ added).
Qed.

Lemma consumer_step_ok r pr co :
  ring_ok k r -> producer_ok k r pr -> consumer_ok r co -> co <> CIdle ->
  exists r' co' e, consumer_step r co = Next (r', co', e) /\
    ring_ok k r' /\ producer_ok k r' pr /\ consumer_ok r' co' /\ mask r' = mask r /\
    effect (mask r) (contents r) e (contents r').
Proof using Type.
  intros Hr Hp Hc Hne. destruct co as [|call|call rh|call rh n i acc seen]; [done| | |].
  - destruct call as [plen| |n]; cbn [consumer_step]; [| |cmp]; (eexists _, _, _; split; [done|]);
      split_and!; try done.
    simpl. pose proof (allow_discard (mask r) (contents r) n [] (contents r) eq_refl) as A.
    simpl in A. rewrite Nat.min_0_r, drop_0 in A.
    pose proof (allow_discard (mask r) (contents r) n (contents r) []) as B.
    replace (Nat.min (Z.to_nat n) (length (contents r))) with 0%nat in B by lia.
    rewrite drop_0 in B. apply B. by rewrite app_nil_r.
  - simpl in Hc. subst rh. destruct (consumer_tail_ok r call Hr) as (co & e & -> & ? & ?).
    eexists _, _, _. split; [done|]. split_and!; done.
  - pose proof Hc as (-> & Hi & (added & Hs) & Hcall).
    destruct (decide (i < n)%nat) as [Hlt|Hge].
    + cbn [consumer_step]. rewrite (proj2 (Nat.ltb_lt _ _)) by done.
      rewrite (get_index_ok r call (rhead r) n i acc seen) by done.
      pose proof (index_range k (ok_k _ _ Hr) (rhead r + Z.of_nat i)) as Hx.
      unfold sl_get. rewrite (ok_len _ _ Hr), (proj2 (Z.leb_le _ _)), (proj2 (Z.ltb_lt _ _)) by lia.
      assert (Hb : seen !! i = Some (sl_arr (rbuf r) !!! Z.to_nat ((rhead r + Z.of_nat i) mod 2 ^ k))).
      { rewrite <- (lookup_app_l seen added) by lia. rewrite <- Hs, (contents_view k r Hr).
        rewrite view_lookup; [done|]. fold (queued r). rewrite (queued_contents r Hr), Hs, length_app. lia. }
      pose proof (ok_buf _ _ Hr) as Hwf. unfold sl_wf, sl_cap, zlen in Hwf. rewrite (ok_len _ _ Hr) in Hwf.
      cbn [andb]. rewrite (list_lookup_lookup_total_lt (sl_arr (rbuf r))) by lia.
      eexists _, _, _. split; [done|]. split_and!; try done.
      split; [done|]. split; [lia|]. split; [by exists added|].
      destruct call as [plen| |m]; [destruct Hcall as [-> ?]..|lia];
        (split; [by rewrite (take_S_r _ _ _ Hb)|done]).
    + replace i with n in * by lia.
      destruct (consumer_publish_ok r call n acc seen Hr Hc) as (r' & e & -> & -> & Hn & Hr' & Ha).
      eexists _, _, _. split; [done|]. split_and!; try done. apply producer_ok_pop; done || lia.
Qed.
End Steps.

(** ** Schedules *)

Lemma index_inj k from a b :
  0 <= k -> 0 <= a < 2 ^ k -> 0 <= b < 2 ^ k ->
  (from + a) mod 2 ^ k = (from + b) mod 2 ^ k -> a = b.
Proof.
  intros Hk Ha Hb E.
  assert (Hd : (a - b) mod 2 ^ k = 0).
  { replace (a - b) with ((from + a) - (from + b)) by lia.
    rewrite Zminus_mod, E, Z.sub_diag. apply Z.mod_0_l. lia. }
  apply Z.mod_divide in Hd as [j Hj]; [|lia].
  assert (j = 0) by nia. lia.
Qed.

Lemma sys_ok_no_race k s : sys_ok k s -> race s = false.
Proof.
  intros [Hr Hp Hc]. unfold race, writes_cell, reads_cell.
  destruct (prod s) as [|?|? ?|pc w p i err pseen]; try done.
  destruct (Nat.ltb_spec i (length p)) as [Hi|]; [|done].
  destruct (cons s) as [|?|? ?|cc rh n j acc seen]; try done.
  destruct (Nat.ltb_spec j n) as [Hj|]; [|done].
  assert (w = wtail (ring s)) as -> by apply Hp.
  rewrite (put_index_ok k (ring s) pc i p err pseen Hr Hp Hi).
  rewrite (get_index_ok k (ring s) cc rh n j acc seen Hr Hc Hj).
  apply Z.eqb_neq. intros E. apply index_inj in E; try apply Hr.
  - destruct Hc as (_ & Hjn & (added & Hs) & _).
    rewrite (queued_contents k _ Hr), Hs, length_app in E. lia.
  - destruct Hp as (_ & _ & Hfit & _). pose proof (ok_mask _ _ Hr).
    pose proof (Len_bound k _ Hr). unfold queued, zlen in *. lia.
  - destruct Hc as (_ & Hjn & (added & Hs) & _). pose proof (ok_mask _ _ Hr).
    pose proof (Len_bound k _ Hr). pose proof (Len_contents k _ Hr) as HL.
    rewrite Hs in HL. rewrite zlen_app in HL. pose proof (zlen_nonneg added). unfold zlen in *. lia.
Qed.

Lemma fifo_log cap q l q1 e q2 : fifo cap q l q1 -> effect cap q1 e q2 -> fifo cap q (add_log l e) q2.
Proof. intros Hl He. destruct e as [e|]; simpl in *; [by apply (fifo_snoc _ _ _ _ q1)|by subst]. Qed.

Lemma sstep_ok k cap q s a :
  sys_ok k s -> mask (ring s) = cap -> fifo cap q (log s) (contents (ring s)) ->
  match sstep s a with
  | Next s' => sys_ok k s' /\ mask (ring s') = cap /\ fifo cap q (log s') (contents (ring s'))
  | Stuck => True
  | Panic => False
  end.
Proof.
  intros [Hr Hp Hc] Hcap Hl. destruct a as [call| |call|]; cbn [sstep].
  - by destruct (prod s).
  - destruct (decide (prod s = PIdle)) as [->|Hne]; [done|].
    destruct (producer_step_ok k _ _ Hr Hp Hne) as (r' & pr & e & -> & Hr' & Hp' & Hm & Hh & He & Hx).
    split_and!; simpl; [split; simpl; try done|congruence|].
    + by apply (consumer_ok_keep (ring s)).
    + rewrite Hcap in He. by apply (fifo_log _ _ _ (contents (ring s))).
  - by destruct (cons s).
  - destruct (decide (cons s = CIdle)) as [->|Hne]; [done|].
    destruct (consumer_step_ok k _ _ _ Hr Hp Hc Hne) as (r' & co & e & -> & Hr' & Hp' & Hc' & Hm & He).
    split_and!; simpl; [by split|congruence|].
    rewrite Hcap in He. by apply (fifo_log _ _ _ (contents (ring s))).
Qed.

Lemma run_ok k cap q sched : forall s,
  sys_ok k s -> mask (ring s) = cap -> fifo cap q (log s) (contents (ring s)) ->
  exists s', run s sched = Some s' /\ sys_ok k s' /\ mask (ring s') = cap /\
    fifo cap q (log s') (contents (ring s')).
Proof.
  induction sched as [|a sched IH]; intros s Hs Hcap Hl; cbn [run]; [by exists s|].
  pose proof (sstep_ok k cap q s a Hs Hcap Hl) as H.
  destruct (sstep s a) as [s'| |]; [destruct H as (? & ? & ?)| |done]; by apply IH.
Qed.

Lemma take_app_drop {A} n (l l' : list A) : take n l ++ drop (length (take n l)) (l ++ l') = l ++ l'.
Proof.
  replace (l ++ l') with (take n l ++ drop n l ++ l') by by rewrite app_assoc, take_drop.
  by rewrite drop_app_length.
Qed.

(** Nothing is lost, made up or reordered along a FIFO run. *)
Lemma allowed_conserves cap q e q' : allowed cap q e q' -> q ++ accepted e = removed e ++ q'.
Proof.
  destruct 1 as [p seen tk Hs|c seen tk Hs ?|c seen ? ?|plen seen added Hs|b seen added Hs|?|n seen added Hs];
    simpl; rewrite ?app_nil_r; try done.
  - subst q res. unfold spec_Read. cmp; simpl; [done|]. by rewrite take_app_drop.
  - subst q. rewrite <- (take_app_drop (Z.to_nat n) seen added) at 1. rewrite length_take.
    done.
Qed.

Lemma fifo_conserves cap q l q' :
  fifo cap q l q' -> q ++ concat (accepted <$> l) = concat (removed <$> l) ++ q'.
Proof.
  induction 1 as [|l e q1 q2 _ IH He]; simpl; [by rewrite app_nil_r|].
  rewrite !fmap_app, !concat_app, app_assoc, IH, <- !app_assoc. f_equal. simpl.
  rewrite !app_nil_r. by apply allowed_conserves in He.
Qed.

(** Steps of its own that a call has left at most. *)
Definition producer_left (pr : producer) : nat :=
  match pr with
  | PIdle => 0
  | PTail call => 3 + match call with CallWrite p => length p | CallWriteByte _ => 1 end
  | PHead call _ => 2 + match call with CallWrite p => length p | CallWriteByte _ => 1 end
  | PCopy _ _ p i _ _ => 1 + (length p - i)
  end.

Definition call_length (call : ccall) : nat :=
  match call with CallRead plen => plen | CallReadByte => 1 | CallDiscard _ => 0 end.

Definition consumer_left (co : consumer) : nat :=
  match co with
  | CIdle => 0
  | CHead call => 3 + call_length call
  | CTail call _ => 2 + call_length call
  | CCopy _ _ n i _ _ => 1 + (n - i)
  end.

Lemma producer_step_left r pr r' pr' e :
  producer_step r pr = Next (r', pr', e) -> (producer_left pr' < producer_left pr)%nat.
Proof.
  destruct pr as [|call|[p|c] w|call w p i err seen]; cbn [producer_step]; try done.
  - intros [= <- <- <-]. simpl. lia.
  - destruct (_ <=? _); intros [= <- <- <-]; simpl; [lia|]. cmp; rewrite ?length_take; lia.
  - destruct (_ <=? _); intros [= <- <- <-]; simpl; lia.
  - destruct (p !! i) as [b|] eqn:E.
    + destruct (sl_set _ _ _); [|done]. intros [= <- <- <-]. simpl.
      apply lookup_lt_Some in E. lia.
    + destruct call; intros [= <- <- <-]; simpl; lia.
Qed.

Lemma consumer_step_left r co r' co' e :
  consumer_step r co = Next (r', co', e) -> (consumer_left co' < consumer_left co)%nat.
Proof.
  destruct co as [|[plen| |n]|[plen| |n] rh|call rh n i acc seen]; cbn [consumer_step]; try done.
  - intros [= <- <- <-]. simpl. lia.
  - intros [= <- <- <-]. simpl. lia.
  - destruct (_ <=? _); intros [= <- <- <-]; simpl; lia.
  - destruct (_ =? 0); intros [= <- <- <-]; simpl; [lia|]. cmp; lia.
  - destruct (_ =? _); intros [= <- <- <-]; simpl; lia.
  - intros [= <- <- <-]; simpl. lia.
  - destruct (Nat.ltb_spec i n).
    + destruct (sl_get _ _); [|done]. intros [= <- <- <-]. simpl. lia.
    + intros [= <- <- <-]. simpl. lia.
Qed.

Definition is_producer_step (a : action) : bool := match a with ProducerSteps => true | _ => false end.
Definition is_consumer_step (a : action) : bool := match a with ConsumerSteps => true | _ => false end.
Definition is_producer_call (a : action) : bool := match a with ProducerCalls _ => true | _ => false end.
Definition is_consumer_call (a : action) : bool := match a with ConsumerCalls _ => true | _ => false end.
Definition count (P : action -> bool) (l : list action) : nat := length (List.filter P l).

(** Along a schedule without new calls, steps of one's own use up the budget. *)
Lemma run_producer_left k cap q sched : forall s s',
  sys_ok k s -> mask (ring s) = cap -> fifo cap q (log s) (contents (ring s)) ->
  count is_producer_call sched = 0%nat -> run s sched = Some s' ->
  (producer_left (prod s') <= producer_left (prod s) - count is_producer_step sched)%nat.
Proof.
  induction sched as [|a sched IH]; intros s s' Hs Hcap Hl Hc; cbn [run].
  { intros [= <-]. unfold count. simpl. lia. }
  pose proof (sstep_ok k cap q s a Hs Hcap Hl) as Hok.
  destruct a as [call| |call|]; [discriminate Hc| | |]; cbn [sstep] in *.
  - destruct (decide (prod s = PIdle)) as [E|Hne].
    { rewrite E. cbn [producer_step]. intros Hrun. specialize (IH s s' Hs Hcap Hl Hc Hrun).
      rewrite E in IH. simpl in IH. lia. }
    destruct (producer_step (ring s) (prod s)) as [[[r pr] e]| |] eqn:E; [| |done].
    + intros Hrun. destruct Hok as (Hs' & Hcap' & Hl').
      specialize (IH _ _ Hs' Hcap' Hl' Hc Hrun). apply producer_step_left in E.
      unfold count in *. simpl in *. lia.
    + destruct Hs as [Hr Hp _].
      destruct (producer_step_ok k _ _ Hr Hp Hne) as (? & ? & ? & E' & _). congruence.
  - destruct (cons s) eqn:E; [destruct Hok as (Hs' & Hcap' & Hl')|..]; intros Hrun;
      (eapply IH in Hrun; [|done..]); done.
  - destruct (consumer_step (ring s) (cons s)) as [[[r co] e]| |] eqn:E; [| |done]; intros Hrun.
    + destruct Hok as (Hs' & Hcap' & Hl'). by specialize (IH _ _ Hs' Hcap' Hl' Hc Hrun).
    + by specialize (IH _ _ Hs Hcap Hl Hc Hrun).
Qed.

Lemma run_consumer_left k cap q sched : forall s s',
  sys_ok k s -> mask (ring s) = cap -> fifo cap q (log s) (contents (ring s)) ->
  count is_consumer_call sched = 0%nat -> run s sched = Some s' ->
  (consumer_left (cons s') <= consumer_left (cons s) - count is_consumer_step sched)%nat.
Proof.
  induction sched as [|a sched IH]; intros s s' Hs Hcap Hl Hc; cbn [run].
  { intros [= <-]. unfold count. simpl. lia. }
  pose proof (sstep_ok k cap q s a Hs Hcap Hl) as Hok.
  destruct a as [call| |call|]; [| |discriminate Hc|]; cbn [sstep] in *.
  - destruct (prod s) eqn:E; [destruct Hok as (Hs' & Hcap' & Hl')|..]; intros Hrun;
      (eapply IH in Hrun; [|done..]); done.
  - destruct (producer_step (ring s) (prod s)) as [[[r pr] e]| |] eqn:E; [| |done]; intros Hrun.
    + destruct Hok as (Hs' & Hcap' & Hl'). by specialize (IH _ _ Hs' Hcap' Hl' Hc Hrun).
    + by specialize (IH _ _ Hs Hcap Hl Hc Hrun).
  - destruct (decide (cons s = CIdle)) as [E|Hne].
    { rewrite E. cbn [consumer_step]. intros Hrun. specialize (IH s s' Hs Hcap Hl Hc Hrun).
      rewrite E in IH. simpl in IH. lia. }
    destruct (consumer_step (ring s) (cons s)) as [[[r co] e]| |] eqn:E; [| |done].
    + intros Hrun. destruct Hok as (Hs' & Hcap' & Hl').
      specialize (IH _ _ Hs' Hcap' Hl' Hc Hrun). apply consumer_step_left in E.
      unfold count in *. simpl in *. lia.
    + destruct Hs as [Hr Hp Hcs].
      destruct (consumer_step_ok k _ _ _ Hr Hp Hcs Hne) as (? & ? & ? & E' & _). congruence.
Qed.

(** ** Properties *)

Lemma start_ok k r : ring_ok k r -> sys_ok k (Sys r PIdle CIdle []).
Proof. by split. Qed.

(** C5: the ring between one writer and one reader goroutine. Whatever the schedule
    and wherever the 32-bit counters stand, nothing panics, the two goroutines never
    access the same cell at the same time, and the calls that have returned form a run
    of a FIFO of bounded capacity: each returned what the sequential operation returns
    on the queue as it was when the call looked at the other side's counter, and put
    in or took out exactly that. So what went in is what came out followed by what is
    queued. *)
Theorem ring_between_goroutines k r sched :
  ring_ok k r ->
  exists s, run (Sys r PIdle CIdle []) sched = Some s /\ ring_ok k (ring s) /\
    race s = false /\
    fifo (mask r) (contents r) (log s) (contents (ring s)) /\
    contents r ++ concat (accepted <$> log s) = concat (removed <$> log s) ++ contents (ring s).
Proof.
  intros Hr. destruct (run_ok k (mask r) (contents r) sched _ (start_ok k r Hr) eq_refl)
    as (s & E & Hs & _ & Hf); [apply fifo_nil|].
  exists s. split_and!; try done; [apply Hs|by apply (sys_ok_no_race k)|by apply (fifo_conserves (mask r))].
Qed.

Lemma ring_between_goroutines_witness :
  let r := MkRing (MkSlice [0; 0; 0; 0] 4) 3 (2 ^ 32 - 1) (2 ^ 32 - 1) in
  exists s, run (Sys r PIdle CIdle [])
      [ProducerCalls (CallWrite [1; 2; 3; 4]); ProducerSteps; ConsumerCalls (CallRead 2);
       ProducerSteps; ProducerSteps; ConsumerSteps; ProducerSteps; ProducerSteps; ProducerSteps;
       ConsumerSteps; ConsumerSteps; ProducerCalls (CallWriteByte 9); ProducerSteps;
       ConsumerSteps; ConsumerSteps; ProducerSteps] = Some s /\ ring_ok 2 (ring s) /\
    race s = false /\
    fifo 3 [] (log s) (contents (ring s)) /\
    contents r ++ concat (accepted <$> log s) = concat (removed <$> log s) ++ contents (ring s).
Proof.
  intros r. apply (ring_between_goroutines 2 r).
  split; try done; by_decide.
Defined.

(** The ring is wait-free. A call returns after a number of its own steps that
    depends only on its length, however the other goroutine is scheduled. *)
Theorem ring_calls_are_wait_free k r sched1 sched2 s1 s2 :
  ring_ok k r -> run (Sys r PIdle CIdle []) sched1 = Some s1 -> run s1 sched2 = Some s2 ->
  (count is_producer_call sched2 = 0%nat ->
   (producer_left (prod s1) <= count is_producer_step sched2)%nat -> prod s2 = PIdle) /\
  (count is_consumer_call sched2 = 0%nat ->
   (consumer_left (cons s1) <= count is_consumer_step sched2)%nat -> cons s2 = CIdle).
Proof.
  intros Hr E1 E2.
  destruct (run_ok k (mask r) (contents r) sched1 _ (start_ok k r Hr) eq_refl)
    as (s & E & Hs & Hm & Hf); [apply fifo_nil|].
  assert (s = s1) as -> by congruence. split; intros Hc Hle.
  - pose proof (run_producer_left k (mask r) (contents r) sched2 s1 s2 Hs Hm Hf Hc E2).
    destruct (prod s2); simpl in *; done || lia.
  - pose proof (run_consumer_left k (mask r) (contents r) sched2 s1 s2 Hs Hm Hf Hc E2).
    destruct (cons s2); simpl in *; done || lia.
Qed.

Lemma ring_calls_are_wait_free_witness :
  let r := MkRing (MkSlice [0; 0; 0; 0] 4) 3 5 5 in
  let sched1 := [ProducerCalls (CallWrite [1; 2]); ProducerSteps; ConsumerCalls (CallDiscard 3)] in
  let sched2 := [ProducerSteps; ConsumerSteps; ProducerSteps; ProducerSteps; ConsumerSteps;
                 ConsumerSteps; ProducerSteps] in
  exists s1 s2, run (Sys r PIdle CIdle []) sched1 = Some s1 /\ run s1 sched2 = Some s2 /\
    prod s2 = PIdle /\ cons s2 = CIdle.
Proof.
  intros r sched1 sched2.
  let x := eval vm_compute in (run (Sys r PIdle CIdle []) sched1) in
  lazymatch x with Some ?s1 =>
    let y := eval vm_compute in (run s1 sched2) in
    lazymatch y with Some ?s2 =>
      assert (E1 : run (Sys r PIdle CIdle []) sched1 = Some s1) by (vm_compute; reflexivity);
      assert (E2 : run s1 sched2 = Some s2) by (vm_compute; reflexivity);
      exists s1, s2
    end
  end.
  split; [exact E1|]. split; [exact E2|].
  assert (Hr : ring_ok 2 r) by (split; try done; by_decide).
  split; eapply (ring_calls_are_wait_free 2 r sched1 sched2 _ _ Hr E1 E2); by_decide.
Defined.
