(* ===== verification/StaticBuf.v ===== *)
(** * StaticBuffer: the bounded output buffer of [buffer.go].

    [limit = 0] means the capacity of the slice. [append] is Go's (see
    [GoSlice.sl_append]); that it never reallocates here is a theorem. *)
From S2P Require Import Prelude GoSlice Pool.

Record StaticBuffer := MkSB { sbuf : Slice; limit : Z }.

Section StaticBuffer.
  Context `{GrowPolicy}.

Definition NewStaticBuffer (choice : nat) (P : Pools) (size : Z) : option (StaticBuffer * Pools) :=
  '(b, P') ← getBuf choice P size;
  b ← sl_reslice b 0;
  Some (MkSB b size, P').

Definition Free (sb : StaticBuffer) (P : Pools) : StaticBuffer * Pools :=
  if sl_is_nil (sbuf sb) then (sb, P) else (MkSB nil_slice (limit sb), putBuf P (sbuf sb)).

(** [limit := sb.limit; if limit == 0 { limit = cap(sb.buf) }] *)
Definition effective_limit (sb : StaticBuffer) : Z :=
  if limit sb =? 0 then sl_cap (sbuf sb) else limit sb.

Definition Write (sb : StaticBuffer) (p : bytes) : StaticBuffer * (Z * option error) :=
  let avail := effective_limit sb - sl_len (sbuf sb) in
  if avail <=? 0 then (sb, (0, None))
  else
    let p := if avail <? zlen p then take (Z.to_nat avail) p else p in
    (MkSB (sl_append (sbuf sb) p) (limit sb), (zlen p, None)).

Definition WriteByte (sb : StaticBuffer) (c : byte) : StaticBuffer * option error :=
  if effective_limit sb <=? sl_len (sbuf sb) then (sb, Some errBufferFull)
  else (MkSB (sl_append (sbuf sb) [c]) (limit sb), None).

Definition Len (sb : StaticBuffer) : Z := sl_len (sbuf sb).
Definition Cap (sb : StaticBuffer) : Z :=
  if 0 <? limit sb then limit sb else sl_cap (sbuf sb).
Definition Bytes (sb : StaticBuffer) : bytes := sl_bytes (sbuf sb).

(** [sb.buf = sb.buf[:0]] is within any capacity. *)
Definition Reset (sb : StaticBuffer) : StaticBuffer :=
  MkSB (MkSlice (sl_arr (sbuf sb)) 0) (limit sb).

(** [copy] moves the tail to the front of the same array; a negative offset panics. *)
Definition Advance (sb : StaticBuffer) (n : Z) : option StaticBuffer :=
  if sl_len (sbuf sb) <=? n then Some (Reset sb)
  else if n <? 0 then None
  else
    let arr := write_at (sl_arr (sbuf sb)) 0 (drop (Z.to_nat n) (sl_bytes (sbuf sb))) in
    b ← sl_reslice (MkSlice arr (sl_len (sbuf sb))) (sl_len (sbuf sb) - n);
    Some (MkSB b (limit sb)).
End StaticBuffer.

(** ** Invariant: the limit is within the array *)

Definition sb_wf (sb : StaticBuffer) : Prop :=
  sl_wf (sbuf sb) /\ 0 <= limit sb <= sl_cap (sbuf sb) /\ sl_len (sbuf sb) <= Cap sb.

Section Lemmas.
  Context `{GrowPolicy}.
  Implicit Type sb : StaticBuffer.

Lemma effective_limit_Cap sb : sb_wf sb -> effective_limit sb = Cap sb.
Proof using Type. intros (_ & ? & _). unfold effective_limit, Cap. repeat (cmp; try lia). Qed.

Lemma Cap_le_cap sb : sb_wf sb -> 0 <= Cap sb <= sl_cap (sbuf sb).
Proof using Type. intros (? & ? & _). unfold Cap, sl_wf in *. cmp; lia. Qed.

Lemma Len_Bytes sb : sb_wf sb -> Len sb = zlen (Bytes sb).
Proof using Type. intros (? & _). symmetry. by apply sl_bytes_len. Qed.

Lemma append_wf sb p :
  sb_wf sb -> sl_len (sbuf sb) + zlen p <= Cap sb ->
  let sb' := MkSB (sl_append (sbuf sb) p) (limit sb) in
  sb_wf sb' /\ Bytes sb' = Bytes sb ++ p /\ sl_cap (sbuf sb') = sl_cap (sbuf sb).
Proof using Type.
  intros Hsb Hfit sb'. pose proof (Cap_le_cap sb Hsb). destruct Hsb as (Hwf & Hl & Hlen).
  assert (Hc : sl_cap (sbuf sb') = sl_cap (sbuf sb)) by (apply sl_append_cap; done || lia).
  split_and!; [|by apply sl_append_bytes|done]. split_and!.
  - by apply sl_append_wf.
  - simpl. lia.
  - rewrite Hc. simpl. lia.
  - unfold Cap. rewrite Hc. simpl. rewrite sl_append_len. done.
Qed.

Lemma sb_Write_ok sb p :
  sb_wf sb ->
  let '(sb', (n, e)) := Write sb p in
  sb_wf sb' /\ sl_cap (sbuf sb') = sl_cap (sbuf sb) /\ limit sb' = limit sb /\
  Bytes sb' = Bytes sb ++ take (Z.to_nat n) p /\
  n = Z.min (zlen p) (Cap sb - Len sb) /\ e = None.
Proof using Type.
  intros Hsb. unfold Write. rewrite effective_limit_Cap by done.
  change (sl_len (sbuf sb)) with (Len sb). pose proof (zlen_nonneg p).
  assert (Hle : Len sb <= Cap sb) by apply Hsb.
  destruct (Z.leb_spec (Cap sb - Len sb) 0).
  { split_and!; try done; [by rewrite app_nil_r|lia]. }
  set (q := if Cap sb - Len sb <? zlen p then _ else p).
  assert (Hq : zlen q = Z.min (zlen p) (Cap sb - Len sb)).
  { unfold q. cmp; [rewrite zlen_take by lia|]; lia. }
  destruct (append_wf sb q Hsb) as (? & Hb & ?); [unfold Len in *; lia|].
  split_and!; try done. rewrite Hb. f_equal. unfold q, zlen in *.
  cmp; [|by rewrite take_ge by lia]. rewrite length_take. f_equal. lia.
Qed.

Lemma sb_WriteByte_ok sb c :
  sb_wf sb ->
  let '(sb', e) := WriteByte sb c in
  sb_wf sb' /\ sl_cap (sbuf sb') = sl_cap (sbuf sb) /\ limit sb' = limit sb /\
  if Len sb <? Cap sb then Bytes sb' = Bytes sb ++ [c] /\ e = None
  else sb' = sb /\ e = Some errBufferFull.
Proof using Type.
  intros Hsb. unfold WriteByte. rewrite effective_limit_Cap by done.
  change (sl_len (sbuf sb)) with (Len sb).
  destruct (Z.leb_spec (Cap sb) (Len sb)), (Z.ltb_spec (Len sb) (Cap sb)); try lia; [done|].
  destruct (append_wf sb [c] Hsb) as (? & ? & ?); [unfold Len, zlen in *; simpl; lia|].
  done.
Qed.

Lemma Reset_ok sb : sb_wf sb -> sb_wf (Reset sb) /\ Bytes (Reset sb) = [].
Proof using Type.
  intros (Hwf & Hl & Hc). split; [|done]. unfold sl_wf in *.
  unfold sb_wf, sl_wf, Cap, sl_cap in *; simpl. split_and!; try lia; cmp; lia.
Qed.

Lemma Advance_ok sb n :
  sb_wf sb -> 0 <= n ->
  exists sb', Advance sb n = Some sb' /\ sb_wf sb' /\
    sl_cap (sbuf sb') = sl_cap (sbuf sb) /\ Bytes sb' = drop (Z.to_nat n) (Bytes sb).
Proof using Type.
  intros Hsb Hn. pose proof (Len_Bytes sb Hsb) as HL. unfold Len, Bytes in HL.
  pose proof (Cap_le_cap sb Hsb) as HC. unfold Advance.
  destruct (Z.leb_spec (sl_len (sbuf sb)) n).
  { eexists. split; [done|]. destruct (Reset_ok sb Hsb) as [? ->]. split_and!; [done|done|].
    symmetry. apply drop_ge. unfold Bytes, zlen in *. lia. }
  cmp; [lia|]. destruct Hsb as (Hwf & Hl & Hlen).
  set (d := drop (Z.to_nat n) (sl_bytes (sbuf sb))).
  assert (Hd : zlen d = sl_len (sbuf sb) - n) by (unfold d, zlen in *; rewrite length_drop; lia).
  unfold sl_wf in Hwf.
  assert (Hc : zlen (write_at (sl_arr (sbuf sb)) 0 d) = sl_cap (sbuf sb)).
  { unfold zlen at 1. rewrite length_write_at; unfold sl_cap in *; lia || done. }
  rewrite sl_reslice_Some by (unfold sl_cap; simpl; lia). simpl. eexists. split; [done|].
  split_and!; [|done|].
  - unfold sb_wf, sl_wf, Cap in *; unfold sl_cap at 1 2 3; simpl. rewrite Hc.
    split_and!; try lia; cmp; lia.
  - unfold Bytes, sl_bytes at 1, write_at; simpl. rewrite <- Hd. unfold zlen.
    rewrite Nat2Z.id. apply take_app_length.
Qed.
End Lemmas.

Lemma NewStaticBuffer_ok choice P size :
  pools_wf P -> 0 <= size ->
  exists sb P', NewStaticBuffer choice P size = Some (sb, P') /\ sb_wf sb /\ pools_wf P' /\
    Bytes sb = [] /\ Cap sb = (if size =? 0 then 4096 else size).
Proof.
  intros HP Hs. unfold NewStaticBuffer.
  destruct (getBuf_ok choice P size HP Hs) as (s & P' & -> & Hl & Hc & Hwf & HP'). simpl.
  unfold sl_wf in Hwf. rewrite sl_reslice_Some by lia. simpl. eexists _, P'. split; [done|].
  pose proof (size_class_ge size) as Hge. unfold sb_wf, sl_wf, Cap; unfold sl_cap in *; simpl.
  split_and!; try done; try lia; repeat (cmp; try lia).
  rewrite Hc. by replace size with 0 by lia.
Qed.

(** ** Properties *)

(** C28: a [StaticBuffer] never grows: whatever is written, its array keeps its
    capacity and its contents stay within [Cap]. [Write] keeps the prefix that fits
    and reports its length with a nil error, even when bytes were dropped;
    [WriteByte] reports [errBufferFull] exactly when the buffer is full;
    [Advance n] drops the first [n] bytes; all preserve the invariant. *)
Theorem StaticBuffer_bounded `{GrowPolicy} sb p c n :
  sb_wf sb -> 0 <= n ->
  (exists sb' k, Write sb p = (sb', (k, None)) /\ sb_wf sb' /\
     sl_cap (sbuf sb') = sl_cap (sbuf sb) /\
     Bytes sb' = take (Z.to_nat (Cap sb)) (Bytes sb ++ p) /\
     k = Z.min (zlen p) (Cap sb - Len sb)) /\
  (exists sb' e, WriteByte sb c = (sb', e) /\ sb_wf sb' /\
     sl_cap (sbuf sb') = sl_cap (sbuf sb) /\
     Bytes sb' = take (Z.to_nat (Cap sb)) (Bytes sb ++ [c]) /\
     (e = Some errBufferFull <-> Len sb = Cap sb)) /\
  (exists sb', Advance sb n = Some sb' /\ sb_wf sb' /\
     Bytes sb' = drop (Z.to_nat n) (Bytes sb)).
Proof.
  intros Hsb Hn. pose proof (Len_Bytes sb Hsb) as HL. pose proof (zlen_nonneg (Bytes sb)).
  assert (Hle : Len sb <= Cap sb) by apply Hsb. split_and!.
  - pose proof (sb_Write_ok sb p Hsb) as Hw. destruct (Write sb p) as [sb' [k e]].
    destruct Hw as (? & ? & _ & Hb & Hk & ->). exists sb', k. split_and!; try done.
    rewrite Hb, take_app, (take_ge (Bytes sb)) by (unfold zlen in *; lia). f_equal.
    rewrite Hk. unfold zlen in *. destruct (Z.min_spec (Z.of_nat (length p)) (Cap sb - Len sb))
      as [[? ->]|[? ->]]; [rewrite !take_ge by lia; done|f_equal; lia].
  - pose proof (sb_WriteByte_ok sb c Hsb) as Hw. destruct (WriteByte sb c) as [sb' e].
    destruct Hw as (? & ? & _ & Hb). exists sb', e. split_and!; try done.
    + destruct (Z.ltb_spec (Len sb) (Cap sb)); destruct Hb as [Hb _].
      * rewrite Hb, take_ge; [done|]. rewrite length_app. unfold zlen in *. simpl. lia.
      * rewrite Hb, take_app_le, take_ge by (unfold zlen in *; lia). done.
    + destruct (Z.ltb_spec (Len sb) (Cap sb)); destruct Hb as [_ ->]; split; done || lia.
  - destruct (Advance_ok sb n Hsb Hn) as (sb' & ? & ? & _ & ?). eauto.
Qed.

Lemma StaticBuffer_bounded_witness :
  let sb := MkSB (MkSlice [1; 2; 3; 4; 5; 6] 3) 4 in
  exists sb' k, Write (H := doubling) sb [7; 8; 9] = (sb', (k, None)) /\ sb_wf sb' /\
     sl_cap (sbuf sb') = 6 /\ Bytes sb' = [1; 2; 3; 7] /\ k = 1.
Proof.
  apply (StaticBuffer_bounded (H := doubling) (MkSB (MkSlice [1; 2; 3; 4; 5; 6] 3) 4) [7; 8; 9] 0 0); [|lia].
  unfold sb_wf, sl_wf, Cap, sl_cap, zlen; simpl; lia.
Defined.
