(* ===== verification/TelnetParser.v ===== *)
(** * TelnetParser: the parser of [parser.go].

    [Parse] walks over one chunk of input and fills a [ParseResult]. Its events
    do not own their bytes: a data event is a window of the caller's chunk, and
    a subnegotiation event is a prefix of the parser's one accumulation buffer,
    which a later subnegotiation of the same chunk overwrites. The model keeps
    both as windows, so that the aliasing is part of it; [data_bytes] and
    [sn_bytes] read them after the call, as [Conn] does. *)
From S2P Require Import Prelude Constants GoSlice StaticBuf.

(** ** Data *)

Inductive ParserState :=
  | StateData | StateIAC | StateNegotiation
  | StateSubnegotiation | StateSubnegotiationIAC | StateSubnegotiationOption.

#[global] Instance ParserState_eq_dec : EqDecision ParserState.
Proof. solve_decision. Defined.

(** The window [data[w_off : w_off+w_len]] of the chunk being parsed. *)
Record window := Win { w_off : Z; w_len : Z }.

Record DataEvent := MkDataEvent { de_Data : window; de_Length : Z }.

Record CommandEvent := MkCommandEvent { ce_Command : Z; ce_Option : Z }.

(** [se_Data] is the length of the window at the base of [snBuf]'s array. *)
Record SubnegotiationEvent := MkSNEvent { se_Option : Z; se_Data : Z; se_Length : Z }.

(** The counts [DataCount], [CmdCount], [SNCount] are the lengths of the lists:
    the array entries from the count on are stale and never read. *)
Record ParseResult := MkResult {
  DataEvents : list DataEvent;
  CommandEvents : list CommandEvent;
  SNEvents : list SubnegotiationEvent
}.

Definition maxDataEvents : nat := 64.
Definition maxCommandEvents : nat := 16.
Definition maxSNEvents : nat := 8.

Record Parser := MkParser {
  state : ParserState;
  cmd : Z;
  snOption : Z;
  snBuf : StaticBuffer;
  snEnabled : bool;
  binaryMode : Z
}.

(** ** Operations *)

(** [make([]byte, 0, 512)] *)
Definition NewParser : Parser :=
  MkParser StateData 0 0 (MkSB (MkSlice (replicate 512%nat 0) 0) 0) false 0.

Definition Reset (p : Parser) : Parser :=
  MkParser StateData 0 0 (StaticBuf.Reset (snBuf p)) false 0.

Definition IsBinary (p : Parser) : bool := negb (binaryMode p =? 0).

Definition set_state (p : Parser) (s : ParserState) : Parser :=
  MkParser s (cmd p) (snOption p) (snBuf p) (snEnabled p) (binaryMode p).
Definition set_cmd (p : Parser) (c : Z) : Parser :=
  MkParser (state p) c (snOption p) (snBuf p) (snEnabled p) (binaryMode p).
Definition set_snOption (p : Parser) (o : Z) : Parser :=
  MkParser (state p) (cmd p) o (snBuf p) (snEnabled p) (binaryMode p).
Definition set_snBuf (p : Parser) (b : StaticBuffer) : Parser :=
  MkParser (state p) (cmd p) (snOption p) b (snEnabled p) (binaryMode p).

(** A data event extends the last one when that ends where it starts (the code
    compares the addresses; within one chunk that is comparing offsets). *)
Definition appendData (r : ParseResult) (d : window) : ParseResult :=
  let push :=
    if bool_decide (length (DataEvents r) < maxDataEvents)%nat
    then MkResult (DataEvents r ++ [MkDataEvent d (w_len d)]) (CommandEvents r) (SNEvents r)
    else r in
  if w_len d =? 0 then r
  else match last (DataEvents r) with
  | Some e =>
      if (0 <? w_len (de_Data e)) && (w_off (de_Data e) + w_len (de_Data e) =? w_off d)
      then MkResult
             (removelast (DataEvents r) ++
              [MkDataEvent (Win (w_off (de_Data e)) (w_len (de_Data e) + w_len d))
                           (de_Length e + w_len d)])
             (CommandEvents r) (SNEvents r)
      else push
  | None => push
  end.

Definition appendCommand (r : ParseResult) (c option : Z) : ParseResult :=
  if bool_decide (length (CommandEvents r) < maxCommandEvents)%nat
  then MkResult (DataEvents r) (CommandEvents r ++ [MkCommandEvent c option]) (SNEvents r)
  else r.

Definition appendSubnegotiation (r : ParseResult) (option len : Z) : ParseResult :=
  if bool_decide (length (SNEvents r) < maxSNEvents)%nat
  then MkResult (DataEvents r) (CommandEvents r) (SNEvents r ++ [MkSNEvent option len len])
  else r.

(** The single-byte commands of the third case of [StateIAC]. *)
Definition single_byte_commands : list Z :=
  [CmdGA; CmdEL; CmdEC; CmdAYT; CmdAO; CmdIP; CmdBreak; CmdDM; CmdNOP; CmdEOR;
   CmdAbort; CmdSusp; CmdEOF].

Section Parse.
  Context `{GrowPolicy}.

(** The body of the loop for byte [b] at index [i]; the state is the parser,
    the result and the local [dataStart]. *)
Definition parse_byte (st : Parser * ParseResult * Z) (i : Z) (b : byte)
    : Parser * ParseResult * Z :=
  let '(p, r, dataStart) := st in
  match state p with
  | StateData =>
      if b =? CmdIAC then
        let r := if dataStart <? i then appendData r (Win dataStart (i - dataStart)) else r in
        (set_state p StateIAC, r, dataStart)
      else (p, r, dataStart)
  | StateIAC =>
      if b =? CmdIAC then
        (set_state p StateData, appendData r (Win i 1), i + 1)
      else if (b =? CmdWill) || (b =? CmdWont) || (b =? CmdDo) || (b =? CmdDont) then
        (set_state (set_cmd p b) StateNegotiation, r, dataStart)
      else if b =? CmdSB then
        (set_state (set_snBuf p (StaticBuf.Reset (snBuf p))) StateSubnegotiationOption, r, dataStart)
      else if existsb (Z.eqb b) single_byte_commands then
        (set_state p StateData, r, i + 1)
      else (set_state p StateData, r, i + 1)
  | StateNegotiation =>
      (set_state p StateData, appendCommand r (cmd p) b, i + 1)
  | StateSubnegotiationOption =>
      (set_state (set_snOption p b) StateSubnegotiation, r, dataStart)
  | StateSubnegotiation =>
      if b =? CmdIAC then (set_state p StateSubnegotiationIAC, r, dataStart)
      else (set_snBuf p (WriteByte (snBuf p) b).1, r, dataStart)
  | StateSubnegotiationIAC =>
      if b =? CmdSE then
        (set_state p StateData,
         appendSubnegotiation r (snOption p) (StaticBuf.Len (snBuf p)), i + 1)
      else
        let sb := (WriteByte (snBuf p) CmdIAC).1 in
        let sb := (WriteByte sb b).1 in
        (set_state (set_snBuf p sb) StateSubnegotiation, r, dataStart)
  end.

Fixpoint parse_loop (st : Parser * ParseResult * Z) (i : Z) (data : bytes)
    : Parser * ParseResult * Z :=
  match data with
  | [] => st
  | b :: data' => parse_loop (parse_byte st i b) (i + 1) data'
  end.

(** The result argument is reused: its counts are reset first. *)
Definition Parse (p : Parser) (data : bytes) (result : ParseResult) : Parser * ParseResult :=
  let result := MkResult [] [] [] in
  let '(p, r, dataStart) := parse_loop (p, result, 0) 0 data in
  let r := if bool_decide (state p = StateData) && (dataStart <? zlen data)
           then appendData r (Win dataStart (zlen data - dataStart)) else r in
  (p, r).
End Parse.

(** ** Reading the events after the call *)

Definition win_bytes (data : bytes) (w : window) : bytes :=
  take (Z.to_nat (w_len w)) (drop (Z.to_nat (w_off w)) data).

(** The plain data of a parsed chunk, event by event. *)
Definition data_bytes (data : bytes) (r : ParseResult) : list bytes :=
  (fun e => win_bytes data (de_Data e)) <$> DataEvents r.

(** What the subnegotiation events show once the chunk is parsed. *)
Definition sn_bytes (p : Parser) (r : ParseResult) : list (Z * bytes) :=
  (fun e => (se_Option e, take (Z.to_nat (se_Data e)) (sl_arr (sbuf (snBuf p))))) <$> SNEvents r.

Definition empty_result : ParseResult := MkResult [] [] [].
