(* ===== verification/ParserSpec.v ===== *)
(** * ParserSpec: what [Parse] computes.

    The specification is a decoder of the byte stream that knows nothing of
    chunks, buffers or event arrays: it consumes one byte at a time and says
    what that byte completes. [Parse_simulates] relates the parser to it, with
    the event limits, the coalescing and the sharing of the subnegotiation
    buffer made explicit. *)
From S2P Require Import Prelude Constants GoSlice StaticBuf TelnetParser.

(** ** The stream decoder *)

Inductive dstate :=
  | DData | DIAC | DNeg (c : Z) | DSubOpt
  | DSub (o : Z) (acc : bytes) | DSubIAC (o : Z) (acc : bytes).

Inductive dout :=
  | ONone | OData (b : byte) | OCmd (c o : Z) | OSub (o : Z) (payload : bytes).

(** The accumulation buffer keeps [cap] bytes and ignores the rest. *)
Definition keep (cap : Z) (acc : bytes) (b : byte) : bytes :=
  if zlen acc <? cap then acc ++ [b] else acc.

Definition is_negotiation (b : byte) : bool :=
  (b =? CmdWill) || (b =? CmdWont) || (b =? CmdDo) || (b =? CmdDont).

Definition decode1 (cap : Z) (d : dstate) (b : byte) : dstate * dout :=
  match d with
  | DData => if b =? CmdIAC then (DIAC, ONone) else (DData, OData b)
  | DIAC =>
      if b =? CmdIAC then (DData, OData b)
      else if is_negotiation b then (DNeg b, ONone)
      else if b =? CmdSB then (DSubOpt, ONone)
      else (DData, ONone)
  | DNeg c => (DData, OCmd c b)
  | DSubOpt => (DSub b [], ONone)
  | DSub o acc =>
      if b =? CmdIAC then (DSubIAC o acc, ONone) else (DSub o (keep cap acc b), ONone)
  | DSubIAC o acc =>
      if b =? CmdSE then (DData, OSub o acc)
      else (DSub o (keep cap (keep cap acc CmdIAC) b), ONone)
  end.

Fixpoint decode (cap : Z) (d : dstate) (l : bytes) : dstate * list dout :=
  match l with
  | [] => (d, [])
  | b :: l' => let '(d1, o) := decode1 cap d b in
               let '(d2, os) := decode cap d1 l' in (d2, o :: os)
  end.

(** ** What the outputs amount to *)

Definition out_data (os : list dout) : bytes :=
  os ≫= (fun o => match o with OData b => [b] | _ => [] end).
Definition out_cmds (os : list dout) : list CommandEvent :=
  os ≫= (fun o => match o with OCmd c x => [MkCommandEvent c x] | _ => [] end).
Definition out_subs (os : list dout) : list (Z * bytes) :=
  os ≫= (fun o => match o with OSub x l => [(x, l)] | _ => [] end).

(** The maximal runs of consecutive data bytes; the flag tells whether the last
    run is still open. *)
Definition run_step (rs : list bytes * bool) (o : dout) : list bytes * bool :=
  match o with
  | OData b =>
      (match rs.2, last rs.1 with
       | true, Some l => removelast rs.1 ++ [l ++ [b]]
       | _, _ => rs.1 ++ [[b]]
       end, true)
  | _ => (rs.1, false)
  end.

Definition out_runs (os : list dout) : list bytes := (foldl run_step ([], false) os).1.

(** A buffer that held [old] and is filled again from its start with [new]. *)
Definition overlay (old new : bytes) : bytes :=
  take (length old) (new ++ drop (length new) old).

(** What the events of completed subnegotiations show after the later ones, and
    the pending one, went through the same buffer. *)
Fixpoint shown (subs : list (Z * bytes)) (pending : bytes) : list (Z * bytes) :=
  match subs with
  | [] => []
  | (o, l) :: subs' =>
      (o, foldl overlay l (subs'.*2 ++ [pending])) :: shown subs' pending
  end.

Definition pending (d : dstate) : bytes :=
  match d with DSub _ acc | DSubIAC _ acc => acc | _ => [] end.

(** ** Abstraction *)

Definition alpha (p : Parser) : dstate :=
  match state p with
  | StateData => DData
  | StateIAC => DIAC
  | StateNegotiation => DNeg (cmd p)
  | StateSubnegotiationOption => DSubOpt
  | StateSubnegotiation => DSub (snOption p) (Bytes (snBuf p))
  | StateSubnegotiationIAC => DSubIAC (snOption p) (Bytes (snBuf p))
  end.

(** The parser's invariant: the buffer is well formed, and empty where the
    decoder has no accumulator. *)
Definition parser_wf (p : Parser) : Prop :=
  sb_wf (snBuf p) /\ (state p = StateSubnegotiationOption -> Bytes (snBuf p) = []).

Definition sn_cap (p : Parser) : Z := Cap (snBuf p).

(** ** Lists cut to a capacity *)

Lemma take_snoc_lt {A} n (l : list A) x :
  (length l < n)%nat -> take n (l ++ [x]) = take n l ++ [x].
Proof. intros. rewrite !take_ge; rewrite ?length_app; simpl; done || lia. Qed.

Lemma take_snoc_ge {A} n (l : list A) x :
  (n <= length l)%nat -> take n (l ++ [x]) = take n l.
Proof. intros. by rewrite take_app_le. Qed.

(** Appending while there is room, to a list that was built the same way. *)
Lemma capped_snoc {A} n (l : list A) x :
  (if bool_decide (length (take n l) < n)%nat then take n l ++ [x] else take n l)
  = take n (l ++ [x]).
Proof.
  case_bool_decide as H; rewrite length_take in H.
  - rewrite take_snoc_lt; [done|lia].
  - rewrite take_snoc_ge; [done|lia].
Qed.

(** ** The decoder *)

Lemma decode_app cap d a b :
  decode cap d (a ++ b) =
  let '(d1, os1) := decode cap d a in
  let '(d2, os2) := decode cap d1 b in (d2, os1 ++ os2).
Proof.
  revert d. induction a as [|x a IH]; intros d; simpl; [by destruct (decode cap d b)|].
  destruct (decode1 cap d x) as [d1 o]. rewrite IH. destruct (decode cap d1 a) as [d2 os].
  by destruct (decode cap d2 b).
Qed.

Lemma decode1_data cap d b x : (decode1 cap d b).2 = OData x -> x = b.
Proof.
  destruct d; simpl; intros H; repeat (case_match; simplify_eq/=); done.
Qed.

Lemma out_data_app a b : out_data (a ++ b) = out_data a ++ out_data b.
Proof. apply bind_app. Qed.
Lemma out_cmds_app a b : out_cmds (a ++ b) = out_cmds a ++ out_cmds b.
Proof. apply bind_app. Qed.
Lemma out_subs_app a b : out_subs (a ++ b) = out_subs a ++ out_subs b.
Proof. apply bind_app. Qed.
#[export] Hint Rewrite out_data_app out_cmds_app out_subs_app : telnet.

(** ** Data events: appending windows *)

Implicit Types (ws : list DataEvent) (rs : list bytes).

Definition contig ws (off : Z) : bool :=
  match last ws with
  | Some e => (0 <? w_len (de_Data e)) && (w_off (de_Data e) + w_len (de_Data e) =? off)
  | None => false
  end.

Lemma contig_snoc ws o n k off :
  0 < n -> contig (ws ++ [MkDataEvent (Win o n) k]) off = (o + n =? off).
Proof. intros. unfold contig. rewrite last_snoc. simpl. by rewrite (proj2 (Z.ltb_lt _ _)). Qed.

Lemma contig_inv ws off :
  contig ws off = true ->
  exists ws0 o n k, ws = ws0 ++ [MkDataEvent (Win o n) k] /\ 0 < n /\ o + n = off.
Proof.
  unfold contig. destruct ws as [|[[o n] k] ws0 _] using rev_ind; [done|].
  rewrite last_snoc. simpl. intros H. apply andb_true_iff in H as [?%Z.ltb_lt ?%Z.eqb_eq].
  eauto 10.
Qed.

Definition events (r : ParseResult) (d : window) : list DataEvent :=
  DataEvents (appendData r d).

Lemma events_nil r o : events r (Win o 0) = DataEvents r.
Proof. done. Qed.

Lemma events_contig r ws o n k m :
  DataEvents r = ws ++ [MkDataEvent (Win o n) k] -> 0 < n -> 0 < m ->
  events r (Win (o + n) m) = ws ++ [MkDataEvent (Win o (n + m)) (k + m)].
Proof.
  intros Hr Hn Hm. unfold events, appendData. rewrite Hr, last_snoc. simpl.
  rewrite (proj2 (Z.eqb_neq _ _)), (proj2 (Z.ltb_lt _ _)), Z.eqb_refl by lia. simpl.
  by rewrite removelast_last.
Qed.

Lemma events_new r o m :
  0 < m -> contig (DataEvents r) o = false ->
  events r (Win o m) =
  if bool_decide (length (DataEvents r) < maxDataEvents)%nat
  then DataEvents r ++ [MkDataEvent (Win o m) m] else DataEvents r.
Proof.
  intros Hm. unfold events, appendData, contig. simpl.
  rewrite (proj2 (Z.eqb_neq _ _)) by lia.
  destruct (last (DataEvents r)) as [e|]; [intros ->|intros _]; by case_bool_decide.
Qed.

(** Appending a window is appending it piece by piece. *)
Lemma events_split r o n m :
  0 < n -> 0 < m -> contig (DataEvents r) (o + n) = false ->
  events r (Win o (n + m)) = events (appendData r (Win o n)) (Win (o + n) m).
Proof.
  intros Hn Hm Hc. destruct (contig (DataEvents r) o) eqn:E.
  - apply contig_inv in E as (ws0 & o' & n' & k & E & ? & <-).
    rewrite (events_contig _ _ _ _ _ (n + m) E) by lia.
    rewrite <- Z.add_assoc, (events_contig _ ws0 o' (n' + n) (k + n)) by
      (done || lia || by apply events_contig).
    by rewrite !Z.add_assoc.
  - pose proof (events_new r o n Hn E) as E1. rewrite events_new by (done || lia).
    case_bool_decide as Hlen.
    + by rewrite (events_contig _ (DataEvents r) o n n) by done.
    + unfold events in E1. rewrite events_new by (rewrite ?E1; done).
      rewrite E1, bool_decide_false by done. done.
Qed.

(** ** Data events against runs of data bytes *)

(** A stored event is a non-empty window of the first [i] bytes. *)
Definition ev_wf (i : Z) (e : DataEvent) : Prop :=
  0 < w_len (de_Data e) /\ 0 <= w_off (de_Data e) /\
  w_off (de_Data e) + w_len (de_Data e) <= i /\ de_Length e = w_len (de_Data e).

(** The events [ws] stored after [i] bytes of [data], the runs they stand for. *)
Record runs_rel (data : bytes) ws (st : list bytes * bool) (i : Z) : Prop := {
  rr_bytes : (fun e => win_bytes data (de_Data e)) <$> ws = take maxDataEvents st.1;
  rr_wf : Forall (ev_wf i) ws;
  rr_open : contig ws i = st.2 && bool_decide (length st.1 <= maxDataEvents)%nat;
  rr_some : st.2 = true -> st.1 <> []
}.

Lemma runs_rel_length data ws st i :
  runs_rel data ws st i -> length ws = Nat.min maxDataEvents (length st.1).
Proof.
  intros [H _ _ _]. apply (f_equal length) in H. by rewrite length_fmap, length_take in H.
Qed.

Lemma ends_before ws i j : Forall (ev_wf i) ws -> i < j -> contig ws j = false.
Proof.
  intros Hwf Hij. destruct (contig ws j) eqn:E; [|done].
  apply contig_inv in E as (ws0 & o & n & k & -> & ? & ?).
  apply Forall_app in Hwf as [_ Hwf]. apply Forall_cons_1 in Hwf as [Hwf _].
  unfold ev_wf in Hwf. simpl in Hwf. lia.
Qed.

Lemma ends_weaken ws i j : i <= j -> Forall (ev_wf i) ws -> Forall (ev_wf j) ws.
Proof. intros Hij H. eapply Forall_impl; [exact H|]. unfold ev_wf. intros e. lia. Qed.

Lemma ev_wf_snoc i ws o n : 0 < n -> 0 <= o -> o + n <= i ->
  Forall (ev_wf i) ws -> Forall (ev_wf i) (ws ++ [MkDataEvent (Win o n) n]).
Proof.
  intros. apply Forall_app. split; [done|]. constructor; [|constructor].
  unfold ev_wf. simpl. lia.
Qed.

(** A byte that is no data closes the run. *)
Lemma runs_rel_skip data ws st i o :
  (forall b, o <> OData b) -> runs_rel data ws st i -> runs_rel data ws (run_step st o) (i + 1).
Proof.
  intros Ho [Hb Hwf Hopen Hs]. replace (run_step st o) with (st.1, false).
  2: { destruct o; try done. by destruct (Ho b). }
  split; simpl; [done| |by apply (ends_before _ i); [done|lia]|done].
  apply (ends_weaken _ i); [lia|done].
Qed.

Lemma win_bytes_extend data o n b :
  0 <= o -> 0 <= n -> data !! Z.to_nat (o + n) = Some b ->
  win_bytes data (Win o (n + 1)) = win_bytes data (Win o n) ++ [b].
Proof.
  intros Ho Hn Hb. unfold win_bytes; simpl. rewrite Z2Nat.inj_add by lia.
  rewrite (Nat.add_comm (Z.to_nat n)). change (Z.to_nat 1 + Z.to_nat n)%nat with (S (Z.to_nat n)).
  apply take_S_r. rewrite lookup_drop, <- Z2Nat.inj_add by lia. done.
Qed.

Lemma win_bytes_one data i b :
  0 <= i -> data !! Z.to_nat i = Some b -> win_bytes data (Win i 1) = [b].
Proof.
  intros Hi Hb. change 1 with (0 + 1). rewrite (win_bytes_extend _ _ _ b); try lia; [done|].
  by rewrite Z.add_0_r.
Qed.

Lemma snoc_not_nil {A} (l : list A) x : l ++ [x] <> [].
Proof. by destruct l. Qed.

Section Emit.
  Context (data : bytes) (r : ParseResult) (rs : list bytes) (op : bool) (i : Z) (b : byte).
  Context (Hi : 0 <= i) (Hb : data !! Z.to_nat i = Some b).
  Context (HR : runs_rel data (DataEvents r) (rs, op) i).

  (** A data byte extends the open run ... *)
Lemma emit_extend :
  contig (DataEvents r) i = true ->
  runs_rel data (events r (Win i 1)) (run_step (rs, op) (OData b)) (i + 1).
Proof using Hi Hb HR.
  intros Hc. pose proof (runs_rel_length _ _ _ _ HR) as Hlen.
  destruct HR as [Hbytes Hwf Hopen Hsome]; cbn [fst snd] in *. rewrite Hc in Hopen.
  symmetry in Hopen. apply andb_true_iff in Hopen as [Hop Hle%bool_decide_eq_true].
  destruct rs as [|l rs0 _] using rev_ind; [by destruct (Hsome Hop)|].
  apply contig_inv in Hc as (ws0 & o & n & k & E & Hn & Hon).
  rewrite <- Hon. rewrite (events_contig r ws0 o n k 1 E) by lia. rewrite E in *.
  apply Forall_app in Hwf as [Hwf0 [Hwf1 _]%Forall_cons_1].
  unfold ev_wf in Hwf1. cbn [de_Data de_Length w_off w_len] in Hwf1.
  replace k with n by lia. rewrite take_ge, fmap_app in Hbytes by lia.
  apply app_inj_2 in Hbytes as [Hb0 Hb1]; [|done]. injection Hb1 as Hb1.
  unfold run_step; cbn [fst snd]. rewrite Hop, last_snoc, removelast_last.
  rewrite length_app in Hle. simpl in Hle.
  split; cbn [fst snd].
  - rewrite take_ge by (rewrite length_app; simpl; lia). rewrite fmap_app, Hb0.
    f_equal. simpl. f_equal. rewrite (win_bytes_extend _ _ _ b), <- Hb1; [done|lia..|].
    by rewrite Hon.
  - apply ev_wf_snoc; try lia. apply (ends_weaken _ i); [lia|done].
  - rewrite contig_snoc by lia. rewrite (proj2 (Z.eqb_eq _ _)) by lia. symmetry.
    apply bool_decide_eq_true. rewrite length_app. simpl. lia.
  - intros _. apply snoc_not_nil.
Qed.

  (** ... or starts one, if a slot is left ... *)
Lemma emit_start :
  contig (DataEvents r) i = false -> (length (DataEvents r) < maxDataEvents)%nat ->
  runs_rel data (events r (Win i 1)) (run_step (rs, op) (OData b)) (i + 1).
Proof using Hi Hb HR.
  intros Hc Hlt. pose proof (runs_rel_length _ _ _ _ HR) as Hlen.
  destruct HR as [Hbytes Hwf Hopen Hsome]; cbn [fst snd] in *. rewrite Hc in Hopen.
  rewrite events_new, bool_decide_eq_true_2 by (done || lia).
  replace (run_step (rs, op) (OData b)) with (rs ++ [[b]], true).
  2: { unfold run_step; cbn [fst snd]. destruct op; [|done]. symmetry in Hopen.
       simpl in Hopen. apply bool_decide_eq_false in Hopen. lia. }
  split; cbn [fst snd].
  - rewrite take_snoc_lt, <- Hbytes, fmap_app by lia. f_equal. simpl.
    by rewrite (win_bytes_one _ _ b).
  - apply ev_wf_snoc; try lia. apply (ends_weaken _ i); [lia|done].
  - rewrite contig_snoc by lia. rewrite Z.eqb_refl. symmetry.
    apply bool_decide_eq_true. rewrite length_app. simpl. lia.
  - intros _. apply snoc_not_nil.
Qed.

  (** Past the limit the stored runs stay as they are. *)
Lemma run_step_full :
  (maxDataEvents <= length rs)%nat ->
  (op = true -> (maxDataEvents < length rs)%nat) ->
  exists rs', run_step (rs, op) (OData b) = (rs', true) /\ take maxDataEvents rs' = take maxDataEvents rs /\ (maxDataEvents < length rs')%nat.
Proof using Type.
  clear HR. intros Hfull Hop. unfold run_step; cbn [fst snd].
  assert (Hpush : take maxDataEvents (rs ++ [[b]]) = take maxDataEvents rs /\ (maxDataEvents < length (rs ++ [[b]]))%nat).
  { rewrite take_snoc_ge, length_app by done. simpl. split; [done|lia]. }
  destruct op; [|eauto]. destruct rs as [|l rs0 _] using rev_ind; [eauto|].
  specialize (Hop eq_refl). rewrite length_app in *. simpl in *.
  rewrite last_snoc, removelast_last. eexists. split; [done|].
  rewrite !take_snoc_ge, length_app by lia. simpl. split; [done|lia].
Qed.

  (** ... and is lost otherwise. *)
Lemma emit_lost :
  contig (DataEvents r) i = false -> (maxDataEvents <= length (DataEvents r))%nat ->
  runs_rel data (events r (Win i 1)) (run_step (rs, op) (OData b)) (i + 1).
Proof using Hi Hb HR.
  intros Hc Hge. pose proof (runs_rel_length _ _ _ _ HR) as Hlen.
  destruct HR as [Hbytes Hwf Hopen Hsome]; cbn [fst snd] in *. rewrite Hc in Hopen.
  rewrite events_new, bool_decide_eq_false_2 by (done || lia).
  destruct run_step_full as (rs' & -> & Ht & Hl); [lia| |].
  { intros ->. symmetry in Hopen. simpl in Hopen. apply bool_decide_eq_false in Hopen. lia. }
  split; cbn [fst snd].
  - by rewrite Ht.
  - apply (ends_weaken _ i); [lia|done].
  - rewrite bool_decide_eq_false_2 by lia. by apply (ends_before _ i); [done|lia].
  - intros _ ->. simpl in Hl. lia.
Qed.

Lemma runs_rel_emit :
  runs_rel data (events r (Win i 1)) (run_step (rs, op) (OData b)) (i + 1).
Proof using Hi Hb HR.
  destruct (contig (DataEvents r) i) eqn:Hc; [by apply emit_extend|].
  destruct (decide (length (DataEvents r) < maxDataEvents)%nat).
  - by apply emit_start.
  - apply emit_lost; [done|lia].
Qed.
End Emit.

(** ** The shared subnegotiation buffer *)

Lemma length_overlay old new : length (overlay old new) = length old.
Proof. unfold overlay. rewrite length_take, length_app, length_drop. lia. Qed.

Lemma overlay_nil old : overlay old [] = old.
Proof. unfold overlay. rewrite drop_0. simpl. by apply take_ge. Qed.

Lemma overlay_lookup old new j :
  overlay old new !! j =
  if decide (j < length old)%nat
  then (if decide (j < length new)%nat then new !! j else old !! j) else None.
Proof.
  unfold overlay. case_decide.
  - rewrite lookup_take_lt by done. case_decide.
    + by rewrite lookup_app_l.
    + rewrite lookup_app_r, lookup_drop by lia. f_equal. lia.
  - rewrite lookup_take_ge; [done|lia].
Qed.

(** One more byte in the buffer shows through the older windows that reach it. *)
Lemma overlay_snoc old new b : overlay old (new ++ [b]) = <[length new := b]> (overlay old new).
Proof.
  apply list_eq. intros j. rewrite overlay_lookup, length_app. simpl.
  destruct (decide (j = length new)) as [->|Hne].
  - destruct (decide (length new < length old)%nat).
    + rewrite list_lookup_insert_eq by (rewrite length_overlay; lia).
      rewrite decide_True by lia. by rewrite lookup_app_r, Nat.sub_diag by lia.
    + rewrite list_insert_ge by (rewrite length_overlay; lia).
      rewrite overlay_lookup, decide_False by lia. done.
  - rewrite list_lookup_insert_ne, overlay_lookup by done. case_decide; [|done].
    destruct (decide (j < length new)%nat).
    + rewrite decide_True, lookup_app_l by lia. done.
    + rewrite decide_False by lia. done.
Qed.

Lemma shown_snoc_byte subs acc b :
  shown subs (acc ++ [b]) =
  (fun x => (x.1, <[length acc := b]> x.2)) <$> shown subs acc.
Proof.
  induction subs as [|[o l] subs IH]; [done|]. cbn [shown fmap list_fmap].
  rewrite IH. f_equal. by rewrite !foldl_app; cbn [foldl]; rewrite overlay_snoc.
Qed.

(** Completing the pending subnegotiation changes nothing yet. *)
Lemma shown_complete subs o acc :
  shown (subs ++ [(o, acc)]) [] = shown subs acc ++ [(o, acc)].
Proof.
  induction subs as [|[o' l] subs IH]; cbn [shown app fmap list_fmap foldl].
  - by rewrite overlay_nil.
  - rewrite IH. f_equal. rewrite fmap_app. simpl.
    by rewrite !foldl_app; simpl; rewrite overlay_nil.
Qed.

Lemma length_shown subs acc : length (shown subs acc) = length subs.
Proof. induction subs as [|[o l] subs IH]; simpl; [done|]. by rewrite IH. Qed.

Section Simulation.
  Context `{GrowPolicy}.

  (** *** Effects of one byte on the buffer *)

Definition buf_arr (p : Parser) : bytes := sl_arr (sbuf (snBuf p)).

Lemma WriteByte_keep sb b :
  sb_wf sb ->
  let sb' := (WriteByte sb b).1 in
  sb_wf sb' /\ Cap sb' = Cap sb /\ Bytes sb' = keep (Cap sb) (Bytes sb) b /\
  length (sl_arr (sbuf sb')) = length (sl_arr (sbuf sb)).
Proof using Type.
  intros Hsb. pose proof (sb_WriteByte_ok sb b Hsb) as Hw.
  destruct (WriteByte sb b) as [sb' e]; cbn [fst] in *. destruct Hw as (? & Hc & Hl & Hb).
  split_and!; [done|by unfold Cap; rewrite Hc, Hl| |].
  - unfold keep. rewrite <- Len_Bytes by done. cmp; destruct Hb as [-> _]; done.
  - unfold sl_cap, zlen in Hc. lia.
Qed.

  (** A stored byte overwrites one cell of the array. *)
Lemma WriteByte_arr sb b :
  sb_wf sb -> zlen (Bytes sb) < Cap sb ->
  sl_arr (sbuf (WriteByte sb b).1) = <[length (Bytes sb) := b]> (sl_arr (sbuf sb)).
Proof using Type.
  intros Hsb Hlt. pose proof (Len_Bytes sb Hsb) as HL. pose proof (Cap_le_cap sb Hsb).
  unfold Len in HL. unfold WriteByte. rewrite effective_limit_Cap, HL by done.
  cmp; [lia|]. simpl. unfold sl_append. rewrite HL. unfold zlen at 2; simpl.
  cmp; [|lia]. simpl. unfold write_at, zlen. rewrite Nat2Z.id. symmetry.
  rewrite insert_take_drop by (unfold sl_cap, zlen in *; lia).
  simpl. by rewrite Nat.add_comm.
Qed.

Definition views (arr : bytes) (r : ParseResult) : list (Z * bytes) :=
  (fun e => (se_Option e, take (Z.to_nat (se_Data e)) arr)) <$> SNEvents r.

  (** Storing a byte, as the windows of completed events see it. *)
Lemma views_WriteByte sb b r subs :
  sb_wf sb ->
  views (sl_arr (sbuf sb)) r = take maxSNEvents (shown subs (Bytes sb)) ->
  views (sl_arr (sbuf (WriteByte sb b).1)) r =
  take maxSNEvents (shown subs (Bytes (WriteByte sb b).1)).
Proof using Type.
  intros Hsb Hv. destruct (WriteByte_keep sb b Hsb) as (_ & _ & -> & _). unfold keep.
  destruct (Z.ltb_spec (zlen (Bytes sb)) (Cap sb)) as [Hlt|Hge].
  - rewrite WriteByte_arr, shown_snoc_byte, <- fmap_take, <- Hv by done.
    unfold views. rewrite <- list_fmap_compose. apply list_fmap_ext. intros j e _. simpl.
    by rewrite take_insert_all.
  - unfold WriteByte. rewrite effective_limit_Cap by done.
    rewrite <- Len_Bytes in Hge by done. unfold Len in Hge. cmp; [done|lia].
Qed.

  (** *** The invariant of the loop *)

  (** The result as if the pending data were appended already. *)
Definition flush (p : Parser) (r : ParseResult) (ds i : Z) : ParseResult :=
  match state p with StateData => appendData r (Win ds (i - ds)) | _ => r end.

  (** The stored events end where the pending data starts. *)
Definition ends_ok (st : Parser * ParseResult * Z) (i : Z) : Prop :=
  state st.1.1 = StateData -> 0 <= st.2 <= i /\ Forall (ev_wf st.2) (DataEvents st.1.2).

  (** After the first [i] bytes of [data], with the outputs [os] so far. *)
Record inv (cap : Z) (data : bytes) (st : Parser * ParseResult * Z) (i : Z)
    (d : dstate) (os : list dout) : Prop := {
  inv_wf : parser_wf st.1.1;
  inv_cap : sn_cap st.1.1 = cap;
  inv_alpha : alpha st.1.1 = d;
  inv_ends : ends_ok st i;
  inv_runs : runs_rel data (DataEvents (flush st.1.1 st.1.2 st.2 i))
               (foldl run_step ([], false) os) i;
  inv_cmds : CommandEvents st.1.2 = take maxCommandEvents (out_cmds os);
  inv_subs : views (buf_arr st.1.1) st.1.2 =
             take maxSNEvents (shown (out_subs os) (pending d));
  inv_lens : Forall (fun e => se_Length e = se_Data e) (SNEvents st.1.2)
}.

Lemma step_parser p r ds i b :
  parser_wf p ->
  let '(p', _, _) := parse_byte (p, r, ds) i b in
  parser_wf p' /\ sn_cap p' = sn_cap p /\
  alpha p' = (decode1 (sn_cap p) (alpha p) b).1.
Proof using Type.
  intros [Hsb Ho]. destruct p as [s c o sb en bm]; unfold parser_wf, sn_cap in *; simpl in *.
  pose proof (WriteByte_keep sb b Hsb) as (Hw1 & Hc1 & Hb1 & _).
  pose proof (WriteByte_keep sb CmdIAC Hsb) as (Hw2 & Hc2 & Hb2 & _).
  pose proof (WriteByte_keep _ b Hw2) as (Hw3 & Hc3 & Hb3 & _).
  pose proof (Reset_ok sb Hsb) as [Hr1 Hr2].
  assert (Hr3 : Cap (StaticBuf.Reset sb) = Cap sb) by done.
  destruct s; unfold alpha; simpl; unfold is_negotiation; split_byte; simpl;
    rewrite ?Hb3, ?Hb2, ?Hb1, ?Hc3, ?Hc2, ?Hc1, ?Ho by done; split_and!; try done.
Qed.

  (** The data events after one byte. *)
Lemma step_flush p r ds i b :
  0 <= i -> (state p = StateData -> 0 <= ds <= i /\ Forall (ev_wf ds) (DataEvents r)) ->
  let '(p', r', ds') := parse_byte (p, r, ds) i b in
  DataEvents (flush p' r' ds' (i + 1)) =
  match (decode1 (sn_cap p) (alpha p) b).2 with
  | OData _ => events (flush p r ds i) (Win i 1)
  | _ => DataEvents (flush p r ds i)
  end.
Proof using Type.
  intros Hi Hds. destruct p as [s c o sb en bm]; simpl in *.
  assert (Hz : forall r0, DataEvents (appendData r0 (Win (i + 1) (i + 1 - (i + 1)))) = DataEvents r0)
    by (intros; by rewrite Z.sub_diag).
  destruct s; unfold alpha, flush; simpl; unfold is_negotiation; split_byte; simpl;
    rewrite ?Hz; try done; try (unfold appendCommand, appendSubnegotiation; by split_byte).
  - destruct (Z.ltb_spec ds i); [done|]. destruct Hds as [? _]; [done|].
    by replace (i - ds) with 0 by lia.
  - destruct Hds as [? Hwf]; [done|]. destruct (decide (ds = i)) as [->|].
    { by rewrite Z.sub_diag, Z.add_simpl_l. }
    replace (i + 1 - ds) with (i - ds + 1) by lia. fold (events r (Win ds (i - ds + 1))).
    rewrite events_split; [|lia|lia|apply (ends_before _ ds); [done|lia]].
    by replace (ds + (i - ds)) with i by lia.
Qed.

Lemma appendData_others r d :
  CommandEvents (appendData r d) = CommandEvents r /\ SNEvents (appendData r d) = SNEvents r.
Proof using Type.
  unfold appendData. cmp; [done|]. destruct (last _); split_byte; done.
Qed.

Lemma appendData_cmds r d : CommandEvents (appendData r d) = CommandEvents r.
Proof using Type. apply appendData_others. Qed.
Lemma appendData_subs r d : SNEvents (appendData r d) = SNEvents r.
Proof using Type. apply appendData_others. Qed.

  (** The command events after one byte. *)
Lemma step_cmds p r ds i b :
  let '(p', r', ds') := parse_byte (p, r, ds) i b in
  CommandEvents r' =
  match (decode1 (sn_cap p) (alpha p) b).2 with
  | OCmd c x => CommandEvents (appendCommand r c x)
  | _ => CommandEvents r
  end.
Proof using Type.
  destruct p as [s c o sb en bm].
  destruct s; unfold alpha; simpl; unfold is_negotiation; split_byte; simpl;
    rewrite ?appendData_cmds; try done;
    unfold appendSubnegotiation; by split_byte.
Qed.

  (** The subnegotiation events and the shared buffer after one byte. *)
Lemma step_subs p r ds i b subs :
  parser_wf p ->
  views (buf_arr p) r = take maxSNEvents (shown subs (pending (alpha p))) ->
  let '(p', r', ds') := parse_byte (p, r, ds) i b in
  let '(d', out) := decode1 (sn_cap p) (alpha p) b in
  views (buf_arr p') r' = take maxSNEvents (shown (subs ++ out_subs [out]) (pending d')).
Proof using Type.
  intros [Hsb Ho]. destruct p as [s c o sb en bm]; unfold sn_cap, buf_arr in *; simpl in *.
  pose proof (WriteByte_keep sb b Hsb) as (_ & _ & Hb1 & _).
  pose proof (WriteByte_keep sb CmdIAC Hsb) as (Hw2 & Hc2 & Hb2 & _).
  pose proof (WriteByte_keep _ b Hw2) as (_ & _ & Hb3 & _).
  assert (Hv : forall r0 d, views (sl_arr (sbuf sb)) (appendData r0 d) = views (sl_arr (sbuf sb)) r0)
    by (intros; unfold views; by rewrite appendData_subs).
  destruct s; unfold alpha; simpl; intros Hviews; unfold is_negotiation; split_byte; simpl;
    rewrite ?app_nil_r, ?Hv; try done.
  - unfold appendCommand. split_byte; done.
  - rewrite <- Hb1. by apply views_WriteByte.
  - rewrite shown_complete, <- capped_snoc, <- Hviews. unfold appendSubnegotiation, views.
    rewrite length_fmap. case_bool_decide; simpl; [|done].
    rewrite fmap_app. simpl. unfold StaticBuf.Len, Bytes, sl_bytes. done.
  - rewrite <- Hb2, <- Hc2, <- Hb3. apply views_WriteByte; [done|]. by apply views_WriteByte.
Qed.

Lemma step_lens p r ds i b :
  Forall (fun e => se_Length e = se_Data e) (SNEvents r) ->
  let '(p', r', ds') := parse_byte (p, r, ds) i b in
  Forall (fun e => se_Length e = se_Data e) (SNEvents r').
Proof using Type.
  intros Hl. destruct p as [s c o sb en bm].
  destruct s; simpl; split_byte; simpl; rewrite ?appendData_subs; try done;
    unfold appendCommand, appendSubnegotiation; split_byte; simpl; try done.
  apply Forall_app. split; [done|]. by repeat constructor.
Qed.

  (** Where the pending data starts, and that no event reaches past it. *)
Lemma step_start p r ds i b :
  0 <= i -> (state p = StateData -> 0 <= ds <= i) ->
  let '(p', r', ds') := parse_byte (p, r, ds) i b in
  state p' = StateData -> 0 <= ds' <= i + 1 /\ (state p <> StateData -> ds' = i + 1).
Proof using Type.
  intros Hi Hds. destruct p as [s c o sb en bm]; simpl in *.
  destruct s; simpl; split_byte; simpl; intros; try done; try lia.
  split; [|done]. assert (0 <= ds <= i) by (by apply Hds). lia.
Qed.

Lemma step_ends p r ds i b st data :
  0 <= i -> ends_ok (p, r, ds) i ->
  (let '(p', r', ds') := parse_byte (p, r, ds) i b in
   runs_rel data (DataEvents (flush p' r' ds' (i + 1))) st (i + 1)) ->
  ends_ok (parse_byte (p, r, ds) i b) (i + 1).
Proof using Type.
  intros Hi Hends Hruns. unfold ends_ok in *; simpl in Hends.
  pose proof (step_start p r ds i b Hi (fun E => proj1 (Hends E))) as Hst.
  destruct (parse_byte (p, r, ds) i b) as [[p' r'] ds'] eqn:Eb; cbn [fst snd] in *.
  intros E. destruct (Hst E) as [Hds Hds']. split; [done|].
  destruct (decide (state p = StateData)) as [Ed|Ed].
  - destruct (Hends Ed) as [_ Hwf]. destruct p as [s c o sb en bm]; simpl in *; subst s.
    simpl in Eb. destruct (b =? CmdIAC); by simplify_eq.
  - specialize (Hds' Ed). subst ds'. destruct Hruns as [_ Hwf _ _].
    unfold flush in Hwf. rewrite E, Z.sub_diag in Hwf. done.
Qed.

  (** *** The loop *)

Lemma step_inv cap data p r ds i d os b :
  0 <= i -> data !! Z.to_nat i = Some b -> inv cap data (p, r, ds) i d os ->
  inv cap data (parse_byte (p, r, ds) i b) (i + 1)
      (decode1 cap d b).1 (os ++ [(decode1 cap d b).2]).
Proof using Type.
  intros Hi Hb [Hwf Hcap Hal Hends Hruns Hcmds Hsubs Hlens]; cbn [fst snd] in *.
  pose proof (step_parser p r ds i b Hwf) as Hp.
  pose proof (step_flush p r ds i b Hi Hends) as Hf.
  pose proof (step_cmds p r ds i b) as Hc.
  rewrite <- Hal in Hsubs. pose proof (step_subs p r ds i b _ Hwf Hsubs) as Hs.
  pose proof (step_lens p r ds i b Hlens) as Hl.
  pose proof (step_ends p r ds i b) as He.
  rewrite Hal, Hcap in *. destruct (parse_byte (p, r, ds) i b) as [[p' r'] ds'].
  destruct (decode1 cap d b) as [d' o] eqn:Ed; cbn [fst snd] in *. destruct Hp as (? & ? & ?).
  assert (Hruns' : runs_rel data (DataEvents (flush p' r' ds' (i + 1)))
            (foldl run_step ([], false) (os ++ [o])) (i + 1)).
  { rewrite foldl_snoc, Hf. destruct (foldl run_step ([], false) os) as [rs op].
    destruct o as [|x|c x|x l]; try (by apply runs_rel_skip).
    assert (x = b) as -> by (apply (decode1_data cap d); by rewrite Ed).
    by apply runs_rel_emit. }
  split; cbn [fst snd]; try done.
  - by eapply He.
  - rewrite out_cmds_app, Hc. destruct o as [|x|c x|x l]; simpl;
      rewrite ?app_nil_r; try done.
    unfold appendCommand. rewrite <- capped_snoc, <- Hcmds. by case_bool_decide.
  - by rewrite out_subs_app.
Qed.

Lemma loop_inv cap data rest : forall pre st d os,
  data = pre ++ rest -> inv cap data st (zlen pre) d os ->
  let '(d', os') := decode cap d rest in
  inv cap data (parse_loop st (zlen pre) rest) (zlen data) d' (os ++ os').
Proof using Type.
  induction rest as [|b rest IH]; intros pre [[p r] ds] d os -> Hinv; simpl.
  { rewrite app_nil_r in *. by rewrite app_nil_r. }
  pose proof (step_inv cap (pre ++ b :: rest) p r ds (zlen pre) d os b (zlen_nonneg pre)) as Hstep.
  specialize (Hstep ltac:(unfold zlen; by rewrite Nat2Z.id, list_lookup_middle) Hinv).
  destruct (decode1 cap d b) as [d1 o]; cbn [fst snd] in Hstep.
  assert (Hz : zlen (pre ++ [b]) = zlen pre + 1) by (rewrite zlen_app; zl).
  rewrite <- Hz in Hstep.
  specialize (IH (pre ++ [b]) _ d1 (os ++ [o]) ltac:(by rewrite <- app_assoc) Hstep).
  destruct (decode cap d1 rest) as [d2 os']. rewrite <- app_assoc, Hz in IH.
  exact IH.
Qed.

Lemma inv_init data p :
  parser_wf p -> inv (sn_cap p) data (p, empty_result, 0) 0 (alpha p) [].
Proof using Type.
  intros Hwf. split; cbn [fst snd]; try done.
  unfold flush. rewrite Z.sub_diag. by destruct (state p).
Qed.

  (** [Parse] computes the runs, commands and subnegotiations of the decoder. *)
Lemma Parse_simulates p data result :
  parser_wf p ->
  let '(p', r) := Parse p data result in
  let '(d', os) := decode (sn_cap p) (alpha p) data in
  parser_wf p' /\ sn_cap p' = sn_cap p /\ alpha p' = d' /\
  data_bytes data r = take maxDataEvents (out_runs os) /\
  CommandEvents r = take maxCommandEvents (out_cmds os) /\
  sn_bytes p' r = take maxSNEvents (shown (out_subs os) (pending d')) /\
  Forall (ev_wf (zlen data)) (DataEvents r) /\
  Forall (fun e => se_Length e = se_Data e) (SNEvents r).
Proof using Type.
  intros Hwf. unfold Parse.
  pose proof (loop_inv (sn_cap p) data data [] (p, empty_result, 0) (alpha p) [] eq_refl
    (inv_init data p Hwf)) as Hinv.
  change (zlen []) with 0 in Hinv. unfold empty_result in Hinv.
  destruct (decode (sn_cap p) (alpha p) data) as [d' os].
  destruct (parse_loop _ 0 data) as [[p' r] ds].
  destruct Hinv as [? ? ? Hends Hruns Hcmds Hsubs Hlens]; cbn [fst snd] in *.
  set (r' := if bool_decide (state p' = StateData) && (ds <? zlen data) then _ else r).
  assert (Hr' : DataEvents r' = DataEvents (flush p' r ds (zlen data)) /\
    CommandEvents r' = CommandEvents r /\ SNEvents r' = SNEvents r).
  { unfold r', flush. destruct (decide (state p' = StateData)) as [E|E].
    - rewrite bool_decide_eq_true_2, E by done. simpl. cmp.
      + rewrite appendData_cmds, appendData_subs. done.
      + destruct (Hends E) as [? _]; cbn [fst snd] in *.
        by replace (zlen data - ds) with 0 by lia.
    - rewrite bool_decide_eq_false_2 by done. by destruct (state p'). }
  destruct Hr' as (Hd & Hc & Hs). destruct Hruns as [Hb Hev _ _].
  unfold data_bytes, sn_bytes. rewrite Hd, Hc, Hs. split_and!; done.
Qed.
End Simulation.
