(* ===== verification/ParserProps.v ===== *)
(** * ParserProps: the properties of [Parse], from its simulation of the decoder. *)
From S2P Require Import Prelude Constants GoSlice StaticBuf TelnetParser ParserSpec.

(** ** Outputs *)

Lemma concat_snoc {A} (ls : list (list A)) l : concat (ls ++ [l]) = concat ls ++ l.
Proof. by rewrite concat_app; simpl; rewrite app_nil_r. Qed.

Lemma run_step_data os : forall rs op,
  (op = true -> rs <> []) ->
  concat (foldl run_step (rs, op) os).1 = concat rs ++ out_data os.
Proof.
  induction os as [|o os IH]; intros rs op Hop; simpl; [by rewrite app_nil_r|].
  change (out_data (o :: os)) with
    ((match o with OData b => [b] | _ => [] end) ++ out_data os).
  destruct o as [|b|c x|x l]; simpl; try (by rewrite IH).
  unfold run_step at 1; cbn [fst snd].
  destruct op; [destruct rs as [|l rs _] using rev_ind; [by destruct (Hop eq_refl)|]|].
  1: rewrite last_snoc, removelast_last.
  all: rewrite IH by (intros _; apply snoc_not_nil); rewrite ?concat_snoc; simpl;
    by rewrite <- ?app_assoc.
Qed.

(** The runs are the data bytes, cut where something else came between. *)
Lemma concat_out_runs os : concat (out_runs os) = out_data os.
Proof. unfold out_runs. by rewrite run_step_data. Qed.

Lemma run_step_count os : forall rs op,
  (op = true -> rs <> []) ->
  (2 * length (foldl run_step (rs, op) os).1 <=
   2 * length rs + length os + (if op then 0 else 1))%nat.
Proof.
  induction os as [|o os IH]; intros rs op Hop; cbn [foldl length].
  { simpl. destruct op; lia. }
  destruct o as [|b|c x|x l]; unfold run_step at 2; cbn [fst snd];
    try (pose proof (IH rs false ltac:(done)); destruct op; simpl in *; lia).
  destruct op; [destruct rs as [|l rs _] using rev_ind; [by destruct (Hop eq_refl)|]|].
  - rewrite last_snoc, removelast_last.
    pose proof (IH (rs ++ [l ++ [b]]) true (fun _ => snoc_not_nil _ _)) as Hn.
    rewrite !length_app in *. simpl in *. lia.
  - pose proof (IH (rs ++ [[b]]) true (fun _ => snoc_not_nil _ _)) as Hn.
    rewrite length_app in Hn. simpl in *. lia.
Qed.

Lemma length_decode cap l : forall d, length (decode cap d l).2 = length l.
Proof.
  induction l as [|b l IH]; intros d; simpl; [done|].
  destruct (decode1 cap d b) as [d1 o]. specialize (IH d1).
  destruct (decode cap d1 l) as [d2 os]. simpl in *. by rewrite IH.
Qed.

(** The text is no longer than the chunk. *)
Lemma length_out_data os : (length (out_data os) <= length os)%nat.
Proof.
  induction os as [|o os IH]; [done|]. change (o :: os) with ([o] ++ os).
  rewrite out_data_app, !length_app. destruct o; simpl; lia.
Qed.

(** How many bytes of the current command, of the current subnegotiation, are in. *)
Definition cmd_progress (d : dstate) : nat :=
  match d with DIAC => 1 | DNeg _ => 2 | _ => 0 end.
Definition sub_progress (d : dstate) : nat :=
  match d with DIAC => 1 | DSubOpt => 2 | DSub _ _ => 3 | DSubIAC _ _ => 4 | _ => 0 end.

Lemma decode_counts cap l : forall d,
  let '(d', os) := decode cap d l in
  (3 * length (out_cmds os) + cmd_progress d' <= length l + cmd_progress d)%nat /\
  (5 * length (out_subs os) + sub_progress d' <= length l + sub_progress d)%nat.
Proof.
  induction l as [|b l IH]; intros d; simpl; [lia|].
  destruct (decode1 cap d b) as [d1 o] eqn:E. specialize (IH d1).
  destruct (decode cap d1 l) as [d2 os].
  assert (H1 : (3 * length (out_cmds [o]) + cmd_progress d1 <= 1 + cmd_progress d)%nat /\
               (5 * length (out_subs [o]) + sub_progress d1 <= 1 + sub_progress d)%nat).
  { destruct d; simpl in E;
      repeat match type of E with context [if ?c then _ else _] => destruct c end;
      injection E as <- <-; simpl; lia. }
  change (o :: os) with ([o] ++ os). rewrite out_cmds_app, out_subs_app, !length_app. lia.
Qed.

Lemma NewParser_wf : parser_wf NewParser.
Proof. split; [|done]. unfold sb_wf, sl_wf, Cap, sl_cap; vm_compute; naive_solver. Qed.

(** ** Properties *)

Section Props.
  Context `{GrowPolicy}.

(** C2: [Parse] implements the chunk-free decoder. From any well-formed parser
    state, with whatever partial sequence is pending, parsing a chunk leaves the
    parser in the state the decoder reaches; the data events are, in order, the
    maximal runs of plain data bytes (the first 64), the command events the
    completed negotiations (the first 16), and the subnegotiation events the
    completed subnegotiations (the first 8), each showing its payload as the later
    subnegotiations of the chunk have overwritten it in the shared buffer. Every
    event is a valid window of the right length. *)
Theorem Parse_refines_decoder p data result :
  parser_wf p ->
  let '(p', r) := Parse p data result in
  let '(d', os) := decode (sn_cap p) (alpha p) data in
  parser_wf p' /\ sn_cap p' = sn_cap p /\ alpha p' = d' /\
  data_bytes data r = take 64 (out_runs os) /\
  CommandEvents r = take 16 (out_cmds os) /\
  sn_bytes p' r = take 8 (shown (out_subs os) (pending d')) /\
  Forall (ev_wf (zlen data)) (DataEvents r) /\
  Forall (fun e => se_Length e = se_Data e) (SNEvents r).
Proof. apply Parse_simulates. Qed.

(** The stream seen through the events of one call that overflowed no array. *)
Lemma Parse_complete p data result :
  parser_wf p ->
  let '(p', r) := Parse p data result in
  let '(d', os) := decode (sn_cap p) (alpha p) data in
  parser_wf p' /\ sn_cap p' = sn_cap p /\ alpha p' = d' /\
  ((length (DataEvents r) < 64)%nat -> concat (data_bytes data r) = out_data os) /\
  ((length (CommandEvents r) < 16)%nat -> CommandEvents r = out_cmds os) /\
  ((length (SNEvents r) < 8)%nat -> sn_bytes p' r = shown (out_subs os) (pending d')).
Proof.
  intros Hwf. pose proof (Parse_simulates p data result Hwf) as Hs.
  destruct (Parse p data result) as [p' r]. destruct (decode _ _ _) as [d' os].
  destruct Hs as (? & ? & ? & Hd & Hc & Hsn & _). split_and!; try done.
  - intros Hlt. rewrite Hd, take_ge; [apply concat_out_runs|].
    apply (f_equal length) in Hd. unfold data_bytes, maxDataEvents in *.
    rewrite length_fmap, length_take in Hd. lia.
  - intros Hlt. rewrite Hc, take_ge; [done|].
    apply (f_equal length) in Hc. unfold maxCommandEvents in *. rewrite length_take in Hc. lia.
  - intros Hlt. rewrite Hsn, take_ge; [done|].
    apply (f_equal length) in Hsn. unfold sn_bytes, maxSNEvents in *.
    rewrite length_fmap, length_take in Hsn. lia.
Qed.

(** Every run of data after the first needs an IAC before it. *)
Fixpoint iac_count (data : bytes) : nat :=
  match data with [] => 0%nat | b :: data' => ((if (b =? CmdIAC)%Z then 1 else 0) + iac_count data')%nat end.

Lemma run_step_iac cap data : forall d rs op,
  (op = true -> rs <> [] /\ d = DData) ->
  (length (foldl run_step (rs, op) (decode cap d data).2).1 <=
   length rs + iac_count data + (if op then 0 else 1))%nat.
Proof.
  induction data as [|b data IH]; intros d rs op Hop; cbn [decode iac_count]; [simpl; destruct op; lia|].
  destruct (decode1 cap d b) as [d1 o] eqn:E1. specialize (IH d1).
  destruct (decode cap d1 data) as [d2 os]. cbn [snd foldl] in *.
  assert (Hnone : (forall x, o <> OData x) -> (op = true -> b = CmdIAC) ->
    (length (foldl run_step (run_step (rs, op) o) os).1 <=
     length rs + ((if (b =? CmdIAC)%Z then 1 else 0) + iac_count data) + (if op then 0 else 1))%nat).
  { intros Ho Hb. replace (run_step (rs, op) o) with (rs, false) by (destruct o; try done; by destruct (Ho b0)).
    specialize (IH rs false ltac:(done)). cbn iota in IH. destruct op; [rewrite (Hb eq_refl), Z.eqb_refl|destruct (b =? CmdIAC)]; lia. }
  destruct o as [|x|? ?|? ?]; try (apply Hnone; [done|intros Hp; destruct (Hop Hp) as [_ ->]; simpl in E1;
    by destruct (Z.eqb_spec b CmdIAC)]). clear Hnone.
  assert (Hd1 : d1 = DData /\ (d <> DData -> b = CmdIAC)).
  { destruct d; simpl in E1; repeat match type of E1 with context [if ?k =? ?m then _ else _] => destruct (Z.eqb_spec k m) end;
      try destruct (is_negotiation b); simplify_eq; split; done || congruence. }
  destruct Hd1 as [-> Hb]. unfold run_step at 2. cbn [fst snd]. destruct op.
  - destruct (Hop eq_refl) as [Hne ->]. destruct rs as [|l rs _] using rev_ind; [done|].
    rewrite last_snoc, removelast_last. specialize (IH (rs ++ [l ++ [x]]) true ltac:(split; [apply snoc_not_nil|done])).
    rewrite !length_app in *. simpl in *. lia.
  - specialize (IH (rs ++ [[x]]) true ltac:(split; [apply snoc_not_nil|done])). rewrite length_app in IH. simpl in IH. lia.
Qed.

(** A chunk whose data cannot fill the event array: at most 128 bytes, or at most 63 of
    them IAC. *)
Definition fits_events (data : bytes) : Prop := zlen data <= 128 \/ (iac_count data <= 63)%nat.

(** The plain data of such a chunk is complete. *)
Lemma Parse_fitting_data p data result :
  parser_wf p -> fits_events data ->
  concat (data_bytes data (Parse p data result).2) = out_data (decode (sn_cap p) (alpha p) data).2.
Proof.
  intros Hwf Hn. pose proof (Parse_simulates p data result Hwf) as Hs.
  destruct (Parse p data result) as [p' r].
  pose proof (length_decode (sn_cap p) data (alpha p)) as Hlen.
  pose proof (run_step_iac (sn_cap p) data (alpha p) [] false ltac:(done)) as Hi.
  destruct (decode _ _ _) as [d' os]. cbn [snd] in *. destruct Hs as (_ & _ & _ & -> & _).
  assert (Hr := run_step_count os [] false ltac:(done)). simpl in Hr, Hi. fold (out_runs os) in Hr, Hi.
  unfold fits_events, zlen, maxDataEvents in *. rewrite take_ge by lia. apply concat_out_runs.
Qed.

(** The commands of a stream of bytes are about options. *)
Lemma decode_cmds_options cap l : forall d,
  wf_bytes l -> Forall (fun ce => is_byte (ce_Option ce)) (out_cmds (decode cap d l).2).
Proof.
  induction l as [|b l IH]; intros d Hl; simpl; [by constructor|].
  apply Forall_cons_1 in Hl as [Hb Hl]. specialize (IH (decode1 cap d b).1 Hl).
  destruct (decode1 cap d b) as [d1 o] eqn:E. cbn [fst] in IH.
  destruct (decode cap d1 l) as [d2 os]. cbn [snd] in *.
  change (o :: os) with ([o] ++ os). rewrite out_cmds_app. apply Forall_app. split; [|done].
  destruct d; simpl in E;
    repeat match type of E with context [if ?c then _ else _] => destruct c end;
    injection E as <- <-; unfold out_cmds; simpl; first [apply Forall_nil_2 | by apply Forall_singleton].
Qed.

(** No event is lost on short chunks, whatever state the parser is in: up to
    128 bytes every plain data byte is delivered, up to 48 bytes every negotiation
    command, and up to 40 bytes every subnegotiation has its event. *)
Theorem Parse_short_chunk_lossless p data result :
  parser_wf p ->
  let '(p', r) := Parse p data result in
  let '(_, os) := decode (sn_cap p) (alpha p) data in
  (zlen data <= 128 -> concat (data_bytes data r) = out_data os) /\
  (zlen data <= 48 -> CommandEvents r = out_cmds os) /\
  (zlen data <= 40 -> length (SNEvents r) = length (out_subs os)).
Proof.
  intros Hwf. pose proof (Parse_simulates p data result Hwf) as Hs.
  destruct (Parse p data result) as [p' r].
  pose proof (decode_counts (sn_cap p) data (alpha p)) as Hcnt.
  pose proof (length_decode (sn_cap p) data (alpha p)) as Hlen.
  destruct (decode _ _ _) as [d' os]. cbn [snd] in Hlen.
  destruct Hs as (_ & _ & _ & Hd & Hc & Hsn & _). destruct Hcnt as [Hc1 Hc2].
  assert (Hr := run_step_count os [] false ltac:(done)). simpl in Hr. fold (out_runs os) in Hr.
  assert (Hp : (cmd_progress (alpha p) <= 2 /\ sub_progress (alpha p) <= 4)%nat)
    by (destruct (alpha p); simpl; lia).
  unfold zlen, maxDataEvents, maxCommandEvents, maxSNEvents in *. split_and!; intros Hn.
  - rewrite Hd, take_ge by lia. apply concat_out_runs.
  - rewrite Hc. apply take_ge. lia.
  - apply (f_equal length) in Hsn. unfold sn_bytes in Hsn.
    rewrite length_fmap, length_take, length_shown in Hsn. lia.
Qed.

(** Feeding the chunks of a stream one after the other, as [Conn] does. *)
Fixpoint feed (p : Parser) (chunks : list bytes) : Parser * list (bytes * ParseResult) :=
  match chunks with
  | [] => (p, [])
  | c :: cs => let '(p1, r) := Parse p c empty_result in
               let '(p2, rs) := feed p1 cs in (p2, (c, r) :: rs)
  end.

(** No event array was filled up. *)
Definition not_full (r : ParseResult) : Prop :=
  (length (DataEvents r) < 64)%nat /\ (length (CommandEvents r) < 16)%nat.

Definition fed_data (rs : list (bytes * ParseResult)) : bytes :=
  concat ((fun cr => concat (data_bytes cr.1 cr.2)) <$> rs).
Definition fed_cmds (rs : list (bytes * ParseResult)) : list CommandEvent :=
  concat ((fun cr => CommandEvents cr.2) <$> rs).

Lemma feed_decode chunks : forall p,
  parser_wf p ->
  let '(p', rs) := feed p chunks in
  let '(d', os) := decode (sn_cap p) (alpha p) (concat chunks) in
  alpha p' = d' /\
  (Forall (fun cr => not_full cr.2) rs ->
   fed_data rs = out_data os /\ fed_cmds rs = out_cmds os).
Proof.
  induction chunks as [|c cs IH]; intros p Hwf; [done|].
  cbn [feed concat]. pose proof (Parse_complete p c empty_result Hwf) as Hs.
  rewrite decode_app. destruct (Parse p c empty_result) as [p1 r].
  destruct (decode _ _ c) as [d1 os1]. destruct Hs as (Hwf1 & Hcap & <- & Hd & Hc & _).
  specialize (IH p1 Hwf1). rewrite Hcap in IH. destruct (feed p1 cs) as [p2 rs].
  destruct (decode _ _ (concat cs)) as [d2 os2]. destruct IH as [Ha IH].
  split; [done|]. intros Hall. apply Forall_cons_1 in Hall as [[Hf1 Hf2] Hall].
  destruct (IH Hall) as [IHd IHc]. unfold fed_data, fed_cmds in *. cbn [fmap list_fmap concat].
  cbn [fst snd] in *. rewrite IHd, IHc, (Hd Hf1), (Hc Hf2), out_data_app, out_cmds_app. done.
Qed.

(** C21: how the stream is cut into chunks does not matter. Two ways of feeding the
    same bytes to the same parser, cut anywhere (also inside an escape, a command
    or a subnegotiation), leave the parser in the same state. When no call, in either way,
    fills its event arrays (each gives less than 64 runs of data and less than 16 commands;
    beyond that the code drops events), they deliver the same data bytes and the same
    commands. *)
Theorem Parse_chunking_irrelevant p chunks1 chunks2 :
  parser_wf p -> concat chunks1 = concat chunks2 ->
  let '(p1, rs1) := feed p chunks1 in
  let '(p2, rs2) := feed p chunks2 in
  alpha p1 = alpha p2 /\
  (Forall (fun cr => not_full cr.2) rs1 -> Forall (fun cr => not_full cr.2) rs2 ->
   fed_data rs1 = fed_data rs2 /\ fed_cmds rs1 = fed_cmds rs2).
Proof.
  intros Hwf Heq. pose proof (feed_decode chunks1 p Hwf) as H1.
  pose proof (feed_decode chunks2 p Hwf) as H2. rewrite Heq in H1.
  destruct (feed p chunks1) as [p1 rs1], (feed p chunks2) as [p2 rs2].
  destruct (decode _ _ _) as [d os]. destruct H1 as [-> H1], H2 as [-> H2].
  split; [done|]. intros F1 F2.
  destruct (H1 F1) as [-> ->], (H2 F2) as [-> ->]. done.
Qed.

(** [Reset] makes a used parser as good as a new one: although it keeps the old
    bytes in its buffer, it parses every chunk with the same data, commands,
    subnegotiations and final state as [NewParser]. *)
Theorem Reset_like_new p data result1 result2 :
  parser_wf p -> sn_cap p = 512 ->
  let '(p1, r1) := Parse (Reset p) data result1 in
  let '(p2, r2) := Parse NewParser data result2 in
  alpha p1 = alpha p2 /\ data_bytes data r1 = data_bytes data r2 /\
  CommandEvents r1 = CommandEvents r2 /\ sn_bytes p1 r1 = sn_bytes p2 r2.
Proof.
  intros [Hsb _] Hcap. destruct (Reset_ok (snBuf p) Hsb) as [Hr1 Hr2].
  assert (H1 : parser_wf (Reset p)) by done.
  pose proof (Parse_simulates (Reset p) data result1 H1) as Hs1.
  pose proof (Parse_simulates NewParser data result2 NewParser_wf) as Hs2.
  change (sn_cap (Reset p)) with (sn_cap p) in Hs1. rewrite Hcap in Hs1.
  change (sn_cap NewParser) with 512 in Hs2.
  destruct (Parse (Reset p) data result1) as [p1 r1], (Parse NewParser data result2) as [p2 r2].
  change (alpha NewParser) with DData in Hs2. change (alpha (Reset p)) with DData in Hs1.
  destruct (decode 512 DData data) as [d os].
  destruct Hs1 as (_ & _ & -> & -> & -> & -> & _), Hs2 as (_ & _ & -> & -> & -> & -> & _).
  done.
Qed.
End Props.

(** ** Witnesses *)

(** "hi", the end of a NAWS report, an escaped IAC, IAC DO ECHO. *)
Definition sample_chunk : bytes := [104; 105; 255; 250; 31; 0; 80; 0; 24; 255; 240; 255; 255; 255; 253; 1].

Lemma Parse_refines_decoder_witness :
  let '(p', r) := Parse (H := doubling) NewParser sample_chunk empty_result in
  let '(d', os) := decode 512 DData sample_chunk in
  parser_wf p' /\ sn_cap p' = 512 /\ alpha p' = d' /\
  data_bytes sample_chunk r = take 64 (out_runs os) /\
  CommandEvents r = take 16 (out_cmds os) /\
  sn_bytes p' r = take 8 (shown (out_subs os) (pending d')) /\
  Forall (ev_wf (zlen sample_chunk)) (DataEvents r) /\
  Forall (fun e => se_Length e = se_Data e) (SNEvents r).
Proof. exact (Parse_refines_decoder (H := doubling) NewParser sample_chunk empty_result NewParser_wf). Defined.

Lemma Parse_short_chunk_lossless_witness :
  let '(p', r) := Parse (H := doubling) NewParser sample_chunk empty_result in
  let '(_, os) := decode 512 DData sample_chunk in
  (zlen sample_chunk <= 128 -> concat (data_bytes sample_chunk r) = out_data os) /\
  (zlen sample_chunk <= 48 -> CommandEvents r = out_cmds os) /\
  (zlen sample_chunk <= 40 -> length (SNEvents r) = length (out_subs os)).
Proof. exact (Parse_short_chunk_lossless (H := doubling) NewParser sample_chunk empty_result NewParser_wf). Defined.

Lemma Parse_chunking_irrelevant_witness :
  let '(p1, rs1) := feed (H := doubling) NewParser [[104; 255]; [255; 255]; [253; 1; 105]] in
  let '(p2, rs2) := feed (H := doubling) NewParser [[104; 255; 255; 255; 253]; [1; 105]] in
  alpha p1 = alpha p2 /\
  (Forall (fun cr => not_full cr.2) rs1 -> Forall (fun cr => not_full cr.2) rs2 ->
   fed_data rs1 = fed_data rs2 /\ fed_cmds rs1 = fed_cmds rs2).
Proof.
  exact (Parse_chunking_irrelevant (H := doubling) NewParser [[104; 255]; [255; 255]; [253; 1; 105]]
    [[104; 255; 255; 255; 253]; [1; 105]] NewParser_wf eq_refl).
Defined.

(** A parser stopped inside a subnegotiation. *)
Definition dirty_parser : Parser :=
  MkParser StateSubnegotiation CmdWill 31
    (MkSB (MkSlice (replicate 512%nat 9) 3) 0) false 0.

Lemma dirty_parser_wf : parser_wf dirty_parser.
Proof. split; [|done]. unfold sb_wf, sl_wf, Cap, sl_cap; vm_compute; naive_solver. Qed.

Lemma Reset_like_new_witness :
  let '(p1, r1) := Parse (H := doubling) (Reset dirty_parser) sample_chunk empty_result in
  let '(p2, r2) := Parse (H := doubling) NewParser sample_chunk empty_result in
  alpha p1 = alpha p2 /\ data_bytes sample_chunk r1 = data_bytes sample_chunk r2 /\
  CommandEvents r1 = CommandEvents r2 /\ sn_bytes p1 r1 = sn_bytes p2 r2.
Proof.
  exact (Reset_like_new (H := doubling) dirty_parser sample_chunk empty_result empty_result
    dirty_parser_wf eq_refl).
Defined.
