(* ===== verification/Wire.v ===== *)
(** * Wire: the encoders of [parser.go], and that [Parse] reads back what they write. *)
From S2P Require Import Prelude Constants GoSlice StaticBuf TelnetParser ParserSpec ParserProps.

(** ** Encoders

    The destination is the list of the bytes of [dst]; an index out of range
    panics ([None]). *)

Definition set_at (dst : bytes) (n : Z) (b : byte) : option bytes :=
  if (0 <=? n) && (n <? zlen dst) then Some (<[Z.to_nat n := b]> dst) else None.

(** [required++] once per byte and once more per IAC. *)
Fixpoint required_size (required : Z) (src : bytes) : Z :=
  match src with
  | [] => required
  | b :: src' => required_size (if b =? CmdIAC then required + 1 + 1 else required + 1) src'
  end.

(** The copy loop shared by the two escaping encoders. *)
Fixpoint escape_loop (dst : bytes) (n : Z) (src : bytes) : option (bytes * Z) :=
  match src with
  | [] => Some (dst, n)
  | b :: src' =>
      dst ← set_at dst n b;
      if b =? CmdIAC then dst ← set_at dst (n + 1) CmdIAC; escape_loop dst (n + 1 + 1) src'
      else escape_loop dst (n + 1) src'
  end.

(** [required := len(src)], plus one for every IAC in [src]. *)
Definition escape_required (src : bytes) : Z :=
  foldl (fun required b => if b =? CmdIAC then required + 1 else required) (zlen src) src.

Definition EscapeIAC (dst src : bytes) : option (bytes * Z) :=
  let required := escape_required src in
  if zlen dst <? required then Some (dst, - required)
  else escape_loop dst 0 src.

Definition BuildCommand (dst : bytes) (c opt : Z) : option (bytes * Z) :=
  if zlen dst <? 3 then Some (dst, -3)
  else
    dst ← set_at dst 0 CmdIAC;
    dst ← set_at dst 1 c;
    dst ← set_at dst 2 opt;
    Some (dst, 3).

Definition BuildSubnegotiation (dst : bytes) (opt : Z) (data : bytes) : option (bytes * Z) :=
  let required := required_size 3 data + 2 in
  if zlen dst <? required then Some (dst, - required)
  else
    dst ← set_at dst 0 CmdIAC;
    dst ← set_at dst 1 CmdSB;
    dst ← set_at dst 2 opt;
    '(dst, n) ← escape_loop dst 3 data;
    dst ← set_at dst n CmdIAC;
    dst ← set_at dst (n + 1) CmdSE;
    Some (dst, n + 1 + 1).

(** ** Specification: the wire forms *)

Definition escape (l : bytes) : bytes :=
  l ≫= (fun b => if b =? CmdIAC then [CmdIAC; CmdIAC] else [b]).

Definition wire_command (c opt : Z) : bytes := [CmdIAC; c; opt].
Definition wire_sub (opt : Z) (l : bytes) : bytes :=
  [CmdIAC; CmdSB; opt] ++ escape l ++ [CmdIAC; CmdSE].

(** What a peer sends: text, negotiation commands, subnegotiations. *)
Inductive item := IText (l : bytes) | ICommand (c opt : Z) | ISub (opt : Z) (l : bytes).

Definition wire_item (x : item) : bytes :=
  match x with
  | IText l => escape l
  | ICommand c o => wire_command c o
  | ISub o l => wire_sub o l
  end.
Definition wire (xs : list item) : bytes := xs ≫= wire_item.

Definition item_ok (x : item) : Prop :=
  match x with ICommand c _ => is_negotiation c = true | _ => True end.

Definition texts (xs : list item) : bytes :=
  xs ≫= (fun x => match x with IText l => l | _ => [] end).
Definition commands (xs : list item) : list CommandEvent :=
  xs ≫= (fun x => match x with ICommand c o => [MkCommandEvent c o] | _ => [] end).
Definition subs (xs : list item) : list (Z * bytes) :=
  xs ≫= (fun x => match x with ISub o l => [(o, l)] | _ => [] end).

(** ** The encoders write the wire forms *)

Lemma escape_cons b l :
  escape (b :: l) = (if b =? CmdIAC then [CmdIAC; CmdIAC] else [b]) ++ escape l.
Proof. done. Qed.

Lemma escape_app a b : escape (a ++ b) = escape a ++ escape b.
Proof. apply bind_app. Qed.

Lemma escape_no_IAC l : CmdIAC ∉ l -> escape l = l.
Proof.
  induction l as [|b l IH]; [done|]. intros Hn. apply not_elem_of_cons in Hn as [Hb Hl].
  rewrite escape_cons, IH by done. by cmp; [subst b|].
Qed.

Lemma escape_required_ok l : escape_required l = zlen (escape l).
Proof.
  unfold escape_required.
  enough (forall a, foldl (fun r b => if b =? CmdIAC then r + 1 else r) (a + zlen l) l
                    = a + zlen (escape l)) as Hg by exact (Hg 0).
  induction l as [|b l IH]; intros a; cbn [foldl]; [done|].
  rewrite escape_cons, zlen_app, zlen_cons. cmp.
  - replace (a + (1 + zlen l) + 1) with (a + 2 + zlen l) by lia. rewrite IH. zl.
  - replace (a + (1 + zlen l)) with (a + 1 + zlen l) by lia. rewrite IH. zl.
Qed.

Lemma required_size_ok l : forall a, required_size a l = a + zlen (escape l).
Proof.
  induction l as [|b l IH]; intros a; cbn [required_size]; [zl|].
  rewrite IH, escape_cons, zlen_app. cmp; zl.
Qed.

Lemma set_at_split pre x post b :
  set_at (pre ++ x :: post) (zlen pre) b = Some (pre ++ b :: post).
Proof.
  unfold set_at. pose proof (zlen_nonneg pre). pose proof (zlen_nonneg post).
  rewrite zlen_app, zlen_cons, (proj2 (Z.leb_le _ _)), (proj2 (Z.ltb_lt _ _)) by lia.
  simpl. unfold zlen. rewrite Nat2Z.id, insert_app_r_alt, Nat.sub_diag by done. done.
Qed.

(** Writing into a destination that is long enough replaces its next bytes. *)
Lemma escape_loop_ok src : forall pre post,
  zlen (escape src) <= zlen post ->
  escape_loop (pre ++ post) (zlen pre) src =
  Some (pre ++ escape src ++ drop (length (escape src)) post, zlen pre + zlen (escape src)).
Proof.
  induction src as [|b src IH]; intros pre post Hlen.
  { cbn [escape_loop]. do 2 f_equal. unfold escape, zlen; simpl. lia. }
  rewrite escape_cons, zlen_app in Hlen. pose proof (zlen_nonneg (escape src)).
  cbn [escape_loop]. destruct post as [|x post].
  { exfalso. revert Hlen. cmp; zl. }
  rewrite set_at_split. cbn [mbind option_bind].
  assert (Hz : forall y, zlen pre + 1 = zlen (pre ++ [y])) by (intros; by rewrite zlen_app).
  assert (Hc : forall (l : bytes) y k, l ++ y :: k = (l ++ [y]) ++ k)
    by (intros; by rewrite <- app_assoc).
  rewrite escape_cons. destruct (Z.eqb_spec b CmdIAC) as [->|Hne].
  - destruct post as [|x2 post]; [exfalso; zl|].
    rewrite (Hz CmdIAC), (Hc pre CmdIAC (x2 :: post)), set_at_split. cbn [mbind option_bind].
    rewrite (Hc (pre ++ [CmdIAC]) CmdIAC post). replace (zlen (pre ++ [CmdIAC]) + 1) with
      (zlen ((pre ++ [CmdIAC]) ++ [CmdIAC])) by (by rewrite zlen_app).
    rewrite IH by zl. rewrite <- !app_assoc, !zlen_app. f_equal. f_equal. zl.
  - rewrite (Hz b), (Hc pre b post), IH by zl.
    rewrite <- !app_assoc, !zlen_app. f_equal. f_equal. zl.
Qed.

Lemma EscapeIAC_ok dst src :
  let e := escape src in
  EscapeIAC dst src =
  Some (if zlen dst <? zlen e then (dst, - zlen e) else (e ++ drop (length e) dst, zlen e)).
Proof.
  intros e. unfold EscapeIAC. rewrite escape_required_ok. fold e. cmp; [done|].
  change 0 with (@zlen Z []). change dst with ([] ++ dst) at 1.
  by rewrite escape_loop_ok by done.
Qed.

Lemma length_wire_sub opt l : zlen (wire_sub opt l) = 5 + zlen (escape l).
Proof. unfold wire_sub. rewrite !zlen_app, !zlen_cons, zlen_nil. lia. Qed.

(** The trailer, once the payload is written. *)
Lemma set_two pre x y post a b :
  (dst ← set_at (pre ++ x :: y :: post) (zlen pre) a;
   dst ← set_at dst (zlen pre + 1) b; Some (dst, zlen pre + 1 + 1)) =
  Some (pre ++ a :: b :: post, zlen pre + 2).
Proof.
  rewrite set_at_split. cbn [mbind option_bind].
  replace (pre ++ a :: y :: post) with ((pre ++ [a]) ++ y :: post) by (by rewrite <- app_assoc).
  replace (zlen pre + 1) with (zlen (pre ++ [a])) by (by rewrite zlen_app).
  rewrite set_at_split. cbn [mbind option_bind]. rewrite <- app_assoc. f_equal. f_equal.
  rewrite zlen_app. zl.
Qed.

Lemma BuildSubnegotiation_ok dst opt l :
  let w := wire_sub opt l in
  BuildSubnegotiation dst opt l =
  Some (if zlen dst <? zlen w then (dst, - zlen w) else (w ++ drop (length w) dst, zlen w)).
Proof.
  intros w. unfold BuildSubnegotiation. rewrite required_size_ok.
  pose proof (length_wire_sub opt l) as Hw. fold w in Hw.
  replace (3 + zlen (escape l) + 2) with (zlen w) by lia.
  pose proof (zlen_nonneg (escape l)) as He.
  destruct (Z.ltb_spec (zlen dst) (zlen w)) as [|Hge]; [done|].
  destruct dst as [|x1 [|x2 [|x3 dst]]]; try (exfalso; zl).
  pose proof (set_at_split [] x1 (x2 :: x3 :: dst) CmdIAC) as E1.
  pose proof (set_at_split [CmdIAC] x2 (x3 :: dst) CmdSB) as E2.
  pose proof (set_at_split [CmdIAC; CmdSB] x3 dst opt) as E3.
  cbn [app] in E1, E2, E3. change (zlen []) with 0 in E1. change (zlen [CmdIAC]) with 1 in E2.
  change (zlen [CmdIAC; CmdSB]) with 2 in E3.
  rewrite E1. cbn [mbind option_bind]. rewrite E2. cbn [mbind option_bind].
  rewrite E3. cbn [mbind option_bind].
  rewrite (zlen_cons x1), (zlen_cons x2), (zlen_cons x3) in Hge.
  change 3 with (zlen [CmdIAC; CmdSB; opt]).
  change (CmdIAC :: CmdSB :: opt :: dst) with ([CmdIAC; CmdSB; opt] ++ dst).
  rewrite escape_loop_ok by lia. cbn [mbind option_bind].
  destruct (drop (length (escape l)) dst) as [|y1 [|y2 post]] eqn:Ed;
    try (exfalso; apply (f_equal length) in Ed; rewrite length_drop in Ed; zl).
  rewrite app_assoc, <- zlen_app, set_two. f_equal. f_equal; [|rewrite zlen_app, Hw; zl].
  unfold w, wire_sub. rewrite <- !app_assoc. do 2 f_equal.
  rewrite !length_app. cbn [length]. cbn [app]. do 2 f_equal.
  change (post = drop (length (escape l) + 2) dst). by rewrite <- drop_drop, Ed.
Qed.

(** ** The decoder on wire forms *)

Section Decode.
  Context (cap : Z) (Hcap : 0 <= cap).

Lemma decode_cons d b l :
  decode cap d (b :: l) =
  let '(d1, o) := decode1 cap d b in let '(d2, os) := decode cap d1 l in (d2, o :: os).
Proof using Type. done. Qed.

  (** Escaped text is plain data. *)
Lemma decode_text l :
  let '(d, os) := decode cap DData (escape l) in
  d = DData /\ out_data os = l /\ out_cmds os = [] /\ out_subs os = [].
Proof using Type.
  induction l as [|b l IH]; [done|]. rewrite escape_cons, decode_app.
  assert (H1 : exists os1, decode cap DData (if b =? CmdIAC then [CmdIAC; CmdIAC] else [b])
      = (DData, os1) /\ out_data os1 = [b] /\ out_cmds os1 = [] /\ out_subs os1 = []).
  { destruct (Z.eqb_spec b CmdIAC) as [->|Hne]; simpl.
    - by exists [ONone; OData CmdIAC].
    - rewrite (proj2 (Z.eqb_neq _ _)) by done. by exists [OData b]. }
  destruct H1 as (os1 & -> & Hd1 & Hc1 & Hs1).
  destruct (decode cap DData (escape l)) as [d os]. destruct IH as (-> & Hd & Hc & Hs).
  rewrite out_data_app, out_cmds_app, out_subs_app, Hd1, Hc1, Hs1, Hd, Hc, Hs. done.
Qed.

Lemma decode_command c o :
  is_negotiation c = true -> decode cap DData (wire_command c o) = (DData, [ONone; ONone; OCmd c o]).
Proof using Type.
  intros Hn. unfold wire_command. simpl.
  assert (Hc : (c =? CmdIAC) = false).
  { destruct (Z.eqb_spec c CmdIAC) as [->|]; done. }
  by rewrite Hc, Hn.
Qed.

Lemma keep_take l b : keep cap (take (Z.to_nat cap) l) b = take (Z.to_nat cap) (l ++ [b]).
Proof using Hcap.
  unfold keep, zlen. rewrite length_take. cmp.
  - rewrite take_snoc_lt; [done|lia].
  - rewrite take_snoc_ge; [done|lia].
Qed.

  (** An escaped payload arrives with its IACs still doubled, cut to the buffer. *)
Lemma decode_payload o l : forall acc,
  exists os,
    decode cap (DSub o (take (Z.to_nat cap) acc)) (escape l ++ [CmdIAC; CmdSE]) =
    (DData, os ++ [OSub o (take (Z.to_nat cap) (acc ++ escape l))]) /\
    out_data os = [] /\ out_cmds os = [] /\ out_subs os = [].
Proof using Hcap.
  induction l as [|b l IH]; intros acc.
  { exists [ONone]. by rewrite app_nil_r. }
  rewrite escape_cons. destruct (Z.eqb_spec b CmdIAC) as [->|Hne].
  - destruct (IH ((acc ++ [CmdIAC]) ++ [CmdIAC])) as (os & E & Hd & Hc & Hs).
    exists (ONone :: ONone :: os). rewrite <- app_assoc. cbn [app]. rewrite decode_cons.
    cbn [decode1]. rewrite Z.eqb_refl, decode_cons. cbn [decode1].
    change (CmdIAC =? CmdSE) with false. cbn iota. rewrite !keep_take, E.
    rewrite <- !app_assoc. done.
  - destruct (IH (acc ++ [b])) as (os & E & Hd & Hc & Hs).
    exists (ONone :: os). rewrite <- app_assoc. cbn [app]. rewrite decode_cons. cbn [decode1].
    rewrite (proj2 (Z.eqb_neq _ _)), keep_take, E, <- app_assoc by done. done.
Qed.

Lemma decode_sub o l :
  exists os, decode cap DData (wire_sub o l) =
    (DData, os ++ [OSub o (take (Z.to_nat cap) (escape l))]) /\
    out_data os = [] /\ out_cmds os = [] /\ out_subs os = [].
Proof using Hcap.
  destruct (decode_payload o l []) as (os & E & Hd & Hc & Hs).
  exists (ONone :: ONone :: ONone :: os). unfold wire_sub. cbn [app]. rewrite !decode_cons.
  cbn [decode1]. rewrite !Z.eqb_refl. cbn [decode1].
  rewrite take_nil in E. cbn [app] in E. simpl. by rewrite E.
Qed.

  (** The subnegotiations of a sequence of items, as the buffer keeps them. *)
Definition kept (xs : list (Z * bytes)) : list (Z * bytes) :=
  (fun x => (x.1, take (Z.to_nat cap) (escape x.2))) <$> xs.

Lemma decode_wire xs :
  Forall item_ok xs ->
  let '(d, os) := decode cap DData (wire xs) in
  d = DData /\ out_data os = texts xs /\ out_cmds os = commands xs /\
  out_subs os = kept (subs xs).
Proof using Hcap.
  induction xs as [|x xs IH]; intros Hok; [done|]. apply Forall_cons_1 in Hok as [Hx Hok].
  specialize (IH Hok). change (wire (x :: xs)) with (wire_item x ++ wire xs).
  rewrite decode_app. assert (H1 : let '(d, os) := decode cap DData (wire_item x) in
    d = DData /\ out_data os = texts [x] /\ out_cmds os = commands [x] /\
    out_subs os = kept (subs [x])).
  { destruct x as [l|c o|o l]; cbn [wire_item].
    - pose proof (decode_text l) as Ht. destruct (decode cap DData (escape l)) as [d os].
      unfold texts, commands, subs, kept; simpl. by rewrite app_nil_r.
    - by rewrite decode_command.
    - destruct (decode_sub o l) as (os & -> & Hd & Hc & Hs).
      rewrite out_data_app, out_cmds_app, out_subs_app, Hd, Hc, Hs. done. }
  destruct (decode cap DData (wire_item x)) as [d1 os1]. destruct H1 as (-> & Hd1 & Hc1 & Hs1).
  destruct (decode cap DData (wire xs)) as [d2 os2]. destruct IH as (-> & Hd2 & Hc2 & Hs2).
  rewrite out_data_app, out_cmds_app, out_subs_app, Hd1, Hc1, Hs1, Hd2, Hc2, Hs2.
  change (x :: xs) with ([x] ++ xs). unfold texts, commands, subs, kept.
  rewrite !bind_app, fmap_app. done.
Qed.
End Decode.

Lemma BuildCommand_ok dst c opt :
  BuildCommand dst c opt =
  Some (if zlen dst <? 3 then (dst, -3) else (wire_command c opt ++ drop 3 dst, 3)).
Proof.
  unfold BuildCommand. cmp; [done|].
  destruct dst as [|x1 [|x2 [|x3 dst]]]; try (exfalso; zl).
  pose proof (set_at_split [] x1 (x2 :: x3 :: dst) CmdIAC) as E1.
  pose proof (set_at_split [CmdIAC] x2 (x3 :: dst) c) as E2.
  pose proof (set_at_split [CmdIAC; c] x3 dst opt) as E3.
  cbn [app] in E1, E2, E3. change (zlen []) with 0 in E1. change (zlen [CmdIAC]) with 1 in E2.
  change (zlen [CmdIAC; c]) with 2 in E3.
  rewrite E1. cbn [mbind option_bind]. rewrite E2. cbn [mbind option_bind].
  by rewrite E3.
Qed.

Lemma length_escape_le l : (length l <= length (escape l))%nat.
Proof.
  induction l as [|b l IH]; [done|]. rewrite escape_cons, length_app. cmp; simpl; lia.
Qed.

Lemma length_escape_IAC l : CmdIAC ∈ l -> (length l < length (escape l))%nat.
Proof.
  induction l as [|b l IH]; [by intros ?%not_elem_of_nil|]. rewrite escape_cons, length_app.
  pose proof (length_escape_le l). intros [<-|Hin]%elem_of_cons.
  - rewrite Z.eqb_refl. simpl. lia.
  - specialize (IH Hin). cmp; simpl; lia.
Qed.

(** A payload survives exactly when it holds no IAC. *)
Lemma kept_same cap l :
  zlen l < cap -> (take (Z.to_nat cap) (escape l) = l <-> CmdIAC ∉ l).
Proof.
  intros Hl. unfold zlen in Hl. split.
  - intros E Hin. apply length_escape_IAC in Hin.
    apply (f_equal length) in E. rewrite length_take in E. lia.
  - intros Hn. rewrite escape_no_IAC by done. apply take_ge. lia.
Qed.

(** ** Properties *)

(** C32: the three encoders never panic and are all-or-nothing: a destination that is
    too short is left untouched and the required size is returned negated; otherwise
    exactly the wire form (IAC doubled in text and payload; IAC command option; IAC SB
    option payload IAC SE) is written at its start, nothing after it changes, and its
    length is returned. *)
Theorem encoders_correct dst src c opt :
  let put w := Some (if zlen dst <? zlen w then (dst, - zlen w)
                     else (w ++ drop (length w) dst, zlen w)) in
  EscapeIAC dst src = put (escape src) /\
  BuildCommand dst c opt = put (wire_command c opt) /\
  BuildSubnegotiation dst opt src = put (wire_sub opt src).
Proof.
  split_and!; [apply EscapeIAC_ok|apply BuildCommand_ok|apply BuildSubnegotiation_ok].
Qed.

Section Roundtrip.
  Context `{GrowPolicy}.

Lemma sn_cap_nonneg p : parser_wf p -> 0 <= sn_cap p.
Proof using Type. intros [Hsb _]. by destruct (Cap_le_cap _ Hsb). Qed.

  (** One call on the wire form of a sequence of items. *)
Lemma Parse_wire p xs result :
  parser_wf p -> alpha p = DData -> Forall item_ok xs ->
  let '(p', r) := Parse p (wire xs) result in
  alpha p' = DData /\
  ((length (DataEvents r) < 64)%nat -> concat (data_bytes (wire xs) r) = texts xs) /\
  ((length (CommandEvents r) < 16)%nat -> CommandEvents r = commands xs) /\
  sn_bytes p' r = take 8 (shown (kept (sn_cap p) (subs xs)) []).
Proof using Type.
  intros Hwf Hd Hok. pose proof (Parse_complete p (wire xs) result Hwf) as Hc.
  pose proof (Parse_simulates p (wire xs) result Hwf) as Hs.
  pose proof (decode_wire (sn_cap p) (sn_cap_nonneg p Hwf) xs Hok) as Hw.
  rewrite Hd in *. destruct (Parse p (wire xs) result) as [p' r].
  destruct (decode _ _ _) as [d os]. destruct Hw as (-> & <- & <- & <-).
  destruct Hc as (_ & _ & ? & ? & ? & _), Hs as (_ & _ & _ & _ & _ & ? & _).
  split_and!; done.
Qed.

(** Reading back what the encoders write. A parser that expects data, given the
    wire form of any sequence of texts, negotiation commands and subnegotiations, is
    again expecting data and delivers exactly the concatenated text and exactly the
    commands, in order (as long as the event arrays are not full), and a lone
    subnegotiation whose payload is free of IAC and fits the buffer arrives intact. *)
Theorem Parse_wire_roundtrip p xs result :
  parser_wf p -> alpha p = DData -> Forall item_ok xs ->
  let '(p', r) := Parse p (wire xs) result in
  alpha p' = DData /\
  ((length (DataEvents r) < 64)%nat -> concat (data_bytes (wire xs) r) = texts xs) /\
  ((length (CommandEvents r) < 16)%nat -> CommandEvents r = commands xs) /\
  (forall o l, subs xs = [(o, l)] -> CmdIAC ∉ l -> zlen l <= sn_cap p ->
     sn_bytes p' r = [(o, l)]).
Proof.
  intros Hwf Hd Hok. pose proof (Parse_wire p xs result Hwf Hd Hok) as Hp.
  destruct (Parse p (wire xs) result) as [p' r]. destruct Hp as (? & ? & ? & Hsn).
  split_and!; try done. intros o l Hs Hn Hl. rewrite Hsn, Hs.
  simpl. rewrite overlay_nil, escape_no_IAC by done. rewrite take_ge; [done|].
  unfold zlen in Hl. lia.
Qed.

(** IAC bytes inside a subnegotiation are not unescaped. The payload delivered for
    a subnegotiation is the escaped form cut to the buffer, so a payload shorter than
    the buffer comes back as it was sent if and only if it holds no byte 255. *)
Theorem subnegotiation_IAC_stays_doubled p o l result :
  parser_wf p -> alpha p = DData ->
  let '(p', r) := Parse p (wire_sub o l) result in
  sn_bytes p' r = [(o, take (Z.to_nat (sn_cap p)) (escape l))] /\
  (zlen l < sn_cap p -> (sn_bytes p' r = [(o, l)] <-> CmdIAC ∉ l)).
Proof.
  intros Hwf Hd. pose proof (Parse_wire p [ISub o l] result Hwf Hd ltac:(by repeat constructor)) as Hp.
  unfold wire in Hp. simpl in Hp. rewrite app_nil_r in Hp.
  change (CmdIAC :: CmdSB :: o :: escape l ++ [CmdIAC; CmdSE]) with (wire_sub o l) in Hp.
  destruct (Parse p (wire_sub o l) result) as [p' r]. destruct Hp as (_ & _ & _ & Hsn).
  rewrite overlay_nil in Hsn. rewrite Hsn. split; [done|]. intros Hl.
  rewrite <- (kept_same (sn_cap p)) by done. split; [by intros [= ->]|by intros ->].
Qed.

(** Two subnegotiations that arrive in one chunk share the buffer: the first
    event shows its payload overwritten from the start by the second one's, so unless
    the second agrees with it on the common length the first is corrupted; only the
    last event of a chunk is reliable. *)
Theorem subnegotiations_of_one_chunk_overlap p o1 l1 o2 l2 result :
  parser_wf p -> alpha p = DData -> CmdIAC ∉ l1 -> CmdIAC ∉ l2 ->
  zlen l1 <= sn_cap p -> zlen l2 <= sn_cap p ->
  let '(p', r) := Parse p (wire_sub o1 l1 ++ wire_sub o2 l2) result in
  sn_bytes p' r = [(o1, overlay l1 l2); (o2, l2)].
Proof.
  intros Hwf Hd H1 H2 Hl1 Hl2.
  pose proof (Parse_wire p [ISub o1 l1; ISub o2 l2] result Hwf Hd ltac:(by repeat constructor)) as Hp.
  change (wire [ISub o1 l1; ISub o2 l2]) with (wire_sub o1 l1 ++ wire_sub o2 l2 ++ []) in Hp.
  rewrite app_nil_r in Hp. destruct (Parse _ _ _) as [p' r]. destruct Hp as (_ & _ & _ & ->).
  simpl. rewrite !overlay_nil, !escape_no_IAC by done. unfold zlen in *.
  rewrite !take_ge by lia. done.
Qed.
End Roundtrip.

(** ** Witnesses *)

Lemma Parse_wire_roundtrip_witness :
  let xs := [IText [104; 255; 105]; ICommand CmdWill OptEcho; ISub OptNAWS [0; 80; 0; 24]; IText [33]] in
  let '(p', r) := Parse (H := doubling) NewParser (wire xs) empty_result in
  alpha p' = DData /\
  ((length (DataEvents r) < 64)%nat -> concat (data_bytes (wire xs) r) = texts xs) /\
  ((length (CommandEvents r) < 16)%nat -> CommandEvents r = commands xs) /\
  (forall o l, subs xs = [(o, l)] -> CmdIAC ∉ l -> zlen l <= 512 -> sn_bytes p' r = [(o, l)]).
Proof.
  exact (Parse_wire_roundtrip (H := doubling) NewParser
    [IText [104; 255; 105]; ICommand CmdWill OptEcho; ISub OptNAWS [0; 80; 0; 24]; IText [33]]
    empty_result NewParser_wf eq_refl ltac:(by repeat constructor)).
Defined.

(** A window 255 columns wide. *)
Lemma subnegotiation_IAC_stays_doubled_witness :
  let '(p', r) := Parse (H := doubling) NewParser (wire_sub OptNAWS [0; 255; 0; 24]) empty_result in
  sn_bytes p' r = [(OptNAWS, [0; 255; 255; 0; 24])] /\
  (4 < 512 -> (sn_bytes p' r = [(OptNAWS, [0; 255; 0; 24])] <-> CmdIAC ∉ [0; 255; 0; 24])).
Proof.
  exact (subnegotiation_IAC_stays_doubled (H := doubling) NewParser OptNAWS [0; 255; 0; 24]
    empty_result NewParser_wf eq_refl).
Defined.

(** A NAWS report and a terminal type sent back to back. *)
Lemma subnegotiations_of_one_chunk_overlap_witness :
  let '(p', r) := Parse (H := doubling) NewParser
    (wire_sub OptNAWS [0; 80; 0; 24] ++ wire_sub OptTerminalType [0; 118; 116]) empty_result in
  sn_bytes p' r = [(OptNAWS, [0; 118; 116; 24]); (OptTerminalType, [0; 118; 116])].
Proof.
  apply (subnegotiations_of_one_chunk_overlap (H := doubling) NewParser OptNAWS [0; 80; 0; 24]
    OptTerminalType [0; 118; 116] empty_result NewParser_wf eq_refl);
    by_decide.
Defined.
