(* ===== verification/Options.v ===== *)
(** * Options: the option negotiation of [options.go].

    Each side of an option is a uint32 cell that the code loads and stores
    atomically; one handler call is one transition here. *)
From S2P Require Import Prelude Constants.

(** ** States *)

Definition OptDisabled : Z := QNo.
Definition OptEnabled : Z := QYes.
Definition OptWantNo : Z := QWantNo.
Definition OptWantYes : Z := QWantYes.
Definition OptWantNoOpp : Z := QOpposite.
Definition OptWantYesOpp : Z := 5.

(** The state of one option for both sides. *)
Record Option := MkOption { us : Z; him : Z }.

Definition NewOption : Option := MkOption 0 0.
Definition Option_Reset (o : Option) : Option := MkOption OptDisabled OptDisabled.

(** [OptionState] is a uint8. *)
Definition Us (o : Option) : Z := u8 (us o).
Definition Him (o : Option) : Z := u8 (him o).

Definition IsEnabled (o : Option) : bool := (Us o =? OptEnabled) || (Him o =? OptEnabled).
Definition IsNegotiating (o : Option) : bool :=
  (Us o =? OptWantNo) || (Us o =? OptWantYes) || (Him o =? OptWantNo) || (Him o =? OptWantYes).

Definition store_us (o : Option) (s : Z) : Option := MkOption s (him o).
Definition store_him (o : Option) (s : Z) : Option := MkOption (us o) s.

(** ** Handlers of peer commands: the new option, the response (0 for none) and
    whether the state changed *)

Definition handleWill (opt : Option) : Option * (Z * bool) :=
  if Him opt =? OptDisabled then (store_him opt OptEnabled, (CmdDo, true))
  else if Him opt =? OptEnabled then (opt, (0, false))
  else if Him opt =? OptWantNo then (store_him opt OptDisabled, (CmdDont, true))
  else if Him opt =? OptWantYes then (store_him opt OptEnabled, (0, true))
  else (opt, (0, false)).

Definition handleWont (opt : Option) : Option * (Z * bool) :=
  if Him opt =? OptDisabled then (opt, (0, false))
  else if Him opt =? OptEnabled then (store_him opt OptDisabled, (CmdDont, true))
  else if Him opt =? OptWantNo then (store_him opt OptDisabled, (0, true))
  else if Him opt =? OptWantYes then (store_him opt OptDisabled, (0, true))
  else (opt, (0, false)).

Definition handleDo (opt : Option) : Option * (Z * bool) :=
  if Us opt =? OptDisabled then (store_us opt OptEnabled, (CmdWill, true))
  else if Us opt =? OptEnabled then (opt, (0, false))
  else if Us opt =? OptWantNo then (store_us opt OptDisabled, (CmdWont, true))
  else if Us opt =? OptWantYes then (store_us opt OptEnabled, (0, true))
  else (opt, (0, false)).

Definition handleDont (opt : Option) : Option * (Z * bool) :=
  if Us opt =? OptDisabled then (opt, (0, false))
  else if Us opt =? OptEnabled then (store_us opt OptDisabled, (CmdWont, true))
  else if Us opt =? OptWantNo then (store_us opt OptDisabled, (0, true))
  else if Us opt =? OptWantYes then (store_us opt OptDisabled, (0, true))
  else (opt, (0, false)).

(** ** The negotiator: [options [256]*Option], where a pointer may be nil *)

Record Negotiator := MkNegotiator { options : list (option Option) }.

Definition NewNegotiator : Negotiator := MkNegotiator (replicate 256%nat (Some NewOption)).

Definition Reset (n : Negotiator) : Negotiator :=
  MkNegotiator (option_map Option_Reset <$> options n).

(** [n.options[option]]: a uint8 index is always in range. *)
Definition Get (n : Negotiator) (opt : Z) : option Option :=
  match options n !! Z.to_nat opt with Some p => p | None => None end.

(** The pointer is shared: storing through it updates the array's option. *)
Definition set_option (n : Negotiator) (opt : Z) (o : Option) : Negotiator :=
  MkNegotiator (<[Z.to_nat opt := Some o]> (options n)).

Definition Handle (n : Negotiator) (command opt : Z) : Negotiator * (Z * bool) :=
  match Get n opt with
  | None => (n, (0, false))
  | Some o =>
      let run (h : Option -> Option * (Z * bool)) :=
        let '(o', res) := h o in (set_option n opt o', res) in
      if command =? CmdWill then run handleWill
      else if command =? CmdWont then run handleWont
      else if command =? CmdDo then run handleDo
      else if command =? CmdDont then run handleDont
      else (n, (0, false))
  end.

Definition RequestEnable (n : Negotiator) (opt : Z) : Negotiator * Z :=
  match Get n opt with
  | None => (n, 0)
  | Some o => if Us o =? OptDisabled
              then (set_option n opt (store_us o OptWantYes), CmdWill) else (n, 0)
  end.

Definition RequestDisable (n : Negotiator) (opt : Z) : Negotiator * Z :=
  match Get n opt with
  | None => (n, 0)
  | Some o => if Us o =? OptEnabled
              then (set_option n opt (store_us o OptWantNo), CmdWont) else (n, 0)
  end.

Definition RequestPeerEnable (n : Negotiator) (opt : Z) : Negotiator * Z :=
  match Get n opt with
  | None => (n, 0)
  | Some o => if Him o =? OptDisabled
              then (set_option n opt (store_him o OptWantYes), CmdDo) else (n, 0)
  end.

Definition RequestPeerDisable (n : Negotiator) (opt : Z) : Negotiator * Z :=
  match Get n opt with
  | None => (n, 0)
  | Some o => if Him o =? OptEnabled
              then (set_option n opt (store_him o OptWantNo), CmdDont) else (n, 0)
  end.

(** ** Invariant: 256 options, none nil, every side in one of the four states *)

Definition is_opt (z : Z) : Prop := 0 <= z < 256.
Definition side_ok (s : Z) : Prop :=
  s = OptDisabled \/ s = OptEnabled \/ s = OptWantNo \/ s = OptWantYes.
Definition option_ok (o : Option) : Prop := side_ok (us o) /\ side_ok (him o).

Definition neg_wf (n : Negotiator) : Prop :=
  length (options n) = 256%nat /\
  forall opt, is_opt opt -> exists o, Get n opt = Some o /\ option_ok o.

Definition us_of (n : Negotiator) (opt : Z) : Z :=
  match Get n opt with Some o => us o | None => OptDisabled end.
Definition him_of (n : Negotiator) (opt : Z) : Z :=
  match Get n opt with Some o => him o | None => OptDisabled end.

(** ** Lemmas *)

Lemma side_ok_u8 s : side_ok s -> u8 s = s.
Proof. by intros [->|[->|[->| ->]]]. Qed.

Lemma Get_set_eq n opt o :
  length (options n) = 256%nat -> is_opt opt -> Get (set_option n opt o) opt = Some o.
Proof.
  intros Hl Ho. unfold Get, set_option, is_opt in *; simpl.
  rewrite list_lookup_insert_eq by lia. done.
Qed.

Lemma Get_set_ne n opt opt' o :
  is_opt opt -> is_opt opt' -> opt <> opt' -> Get (set_option n opt o) opt' = Get n opt'.
Proof.
  intros. unfold Get, set_option, is_opt in *; simpl.
  rewrite list_lookup_insert_ne by lia. done.
Qed.

Lemma set_option_wf n opt o :
  neg_wf n -> is_opt opt -> option_ok o -> neg_wf (set_option n opt o).
Proof.
  intros [Hl Hn] Ho Hok. split; [by unfold set_option; simpl; rewrite length_insert|].
  intros opt' Ho'. destruct (decide (opt = opt')) as [<-|Hne].
  - exists o. by rewrite Get_set_eq.
  - rewrite Get_set_ne by done. by apply Hn.
Qed.

Lemma NewNegotiator_Get opt : is_opt opt -> Get NewNegotiator opt = Some NewOption.
Proof.
  intros Ho. unfold Get, NewNegotiator, is_opt in *. cbn [options].
  rewrite lookup_replicate_2 by lia. done.
Qed.

Lemma NewNegotiator_wf : neg_wf NewNegotiator.
Proof.
  split; [done|]. intros opt Ho. exists NewOption. rewrite NewNegotiator_Get by done.
  split; [done|]. split; by left.
Qed.

Lemma Reset_Get n opt : Get (Reset n) opt = Option_Reset <$> Get n opt.
Proof.
  unfold Get, Reset. cbn [options]. rewrite list_lookup_fmap.
  by destruct (options n !! Z.to_nat opt).
Qed.

Lemma Reset_wf n : neg_wf n -> neg_wf (Reset n).
Proof.
  intros [Hl Hn]. split; [by unfold Reset; simpl; rewrite length_fmap|].
  intros opt Ho. destruct (Hn opt Ho) as (o & E & _). rewrite Reset_Get, E.
  eexists. split; [done|]. split; by left.
Qed.

Lemma neg_wf_Get n opt : neg_wf n -> is_opt opt -> Get n opt = Some (MkOption (us_of n opt) (him_of n opt)).
Proof.
  intros [_ Hn] Ho. destruct (Hn opt Ho) as ([u h] & E & _). unfold us_of, him_of. by rewrite E.
Qed.

Lemma neg_wf_sides n opt :
  neg_wf n -> is_opt opt -> side_ok (us_of n opt) /\ side_ok (him_of n opt).
Proof.
  intros [_ Hn] Ho. destruct (Hn opt Ho) as (o & E & Hok). unfold us_of, him_of. by rewrite E.
Qed.

(** ** One side of an option as a state machine *)

(** [SUs] is our side, [SHim] the peer's, as this negotiator tracks it. *)
Inductive side := SUs | SHim.
#[global] Instance side_eq_dec : EqDecision side.
Proof. solve_decision. Defined.

Definition flip (sd : side) : side := match sd with SUs => SHim | SHim => SUs end.

Definition cell (n : Negotiator) (sd : side) (opt : Z) : Z :=
  match sd with SUs => us_of n opt | SHim => him_of n opt end.

(** The command with which a negotiator speaks about a side; what it says about
    its own side the peer hears about the other's. *)
Definition say (sd : side) (en : bool) : Z :=
  match sd, en with
  | SUs, true => CmdWill | SUs, false => CmdWont
  | SHim, true => CmdDo | SHim, false => CmdDont
  end.

(** The reply to hearing that the side should be enabled or disabled. *)
Definition side_recv (en : bool) (s : Z) : Z * option bool :=
  if en then
    if s =? OptDisabled then (OptEnabled, Some true)
    else if s =? OptEnabled then (OptEnabled, None)
    else if s =? OptWantNo then (OptDisabled, Some false)
    else (OptEnabled, None)
  else
    if s =? OptDisabled then (OptDisabled, None)
    else if s =? OptEnabled then (OptDisabled, Some false)
    else (OptDisabled, None).

(** The message of a local request. *)
Definition side_request (en : bool) (s : Z) : Z * option bool :=
  if en then if s =? OptDisabled then (OptWantYes, Some true) else (s, None)
  else if s =? OptEnabled then (OptWantNo, Some false) else (s, None).

Definition Request (sd : side) (en : bool) : Negotiator -> Z -> Negotiator * Z :=
  match sd, en with
  | SUs, true => RequestEnable | SUs, false => RequestDisable
  | SHim, true => RequestPeerEnable | SHim, false => RequestPeerDisable
  end.

Definition message (sd : side) (rep : option bool) : Z :=
  match rep with Some en => say sd en | None => 0 end.

(** [n'] is [n] with one cell set. *)
Record cell_set (n n' : Negotiator) (sd : side) (opt s : Z) : Prop := {
  cs_wf : neg_wf n';
  cs_eq : cell n' sd opt = s;
  cs_ne sd' opt' : is_opt opt' -> (sd', opt') <> (sd, opt) -> cell n' sd' opt' = cell n sd' opt'
}.

Lemma set_option_cell n opt o sd s :
  neg_wf n -> is_opt opt -> option_ok o ->
  (match sd with SUs => us o | SHim => him o end) = s ->
  (match sd with SUs => him o | SHim => us o end) = cell n (flip sd) opt ->
  cell_set n (set_option n opt o) sd opt s.
Proof.
  intros Hn Ho Hok Hs Hf. split; [by apply set_option_wf| |].
  - destruct Hn as [Hl _]. destruct sd; simpl; unfold us_of, him_of; by rewrite Get_set_eq.
  - intros sd' opt' Ho' Hne. destruct (decide (opt = opt')) as [<-|Hne'].
    + assert (Hsd : sd' = flip sd) by (destruct sd, sd'; done || by destruct Hne).
      rewrite Hsd, <- Hf. destruct Hn as [Hl _].
      destruct sd; simpl; unfold us_of, him_of; by rewrite Get_set_eq.
    + destruct sd'; simpl; unfold us_of, him_of; by rewrite Get_set_ne.
Qed.

Lemma cell_set_refl n sd opt : neg_wf n -> cell_set n n sd opt (cell n sd opt).
Proof. by split. Qed.

(** Destruct the four states a well-formed side can be in. *)
Ltac side_cases H := destruct H as [H|[H|[H|H]]]; rewrite H in *.

Definition handler (sd : side) (en : bool) : Option -> Option * (Z * bool) :=
  match sd, en with
  | SHim, true => handleWill | SHim, false => handleWont
  | SUs, true => handleDo | SUs, false => handleDont
  end.

Lemma Handle_dispatch n sd en opt o :
  Get n opt = Some o ->
  Handle n (say (flip sd) en) opt =
  let '(o', res) := handler sd en o in (set_option n opt o', res).
Proof. intros E. unfold Handle. rewrite E. by destruct sd, en. Qed.

(** Each handler is the state machine of its side. *)
Lemma handler_side sd en u h :
  side_ok u -> side_ok h ->
  let s := match sd with SUs => u | SHim => h end in
  let '(s', rep) := side_recv en s in
  handler sd en (MkOption u h) =
  (match sd with SUs => MkOption s' h | SHim => MkOption u s' end,
   (message sd rep, negb (s' =? s))) /\ side_ok s'.
Proof.
  intros Hu Hh. destruct sd; [side_cases Hu|side_cases Hh]; destruct en;
    (split; [reflexivity|unfold side_ok; auto]).
Qed.

Lemma Handle_side n sd en opt :
  neg_wf n -> is_opt opt ->
  let s := cell n sd opt in
  let '(s', rep) := side_recv en s in
  exists n', Handle n (say (flip sd) en) opt = (n', (message sd rep, negb (s' =? s))) /\
    cell_set n n' sd opt s'.
Proof.
  intros Hn Ho s. pose proof (neg_wf_Get n opt Hn Ho) as HG.
  destruct (neg_wf_sides n opt Hn Ho) as [Hu Hh].
  rewrite (Handle_dispatch _ _ _ _ _ HG).
  pose proof (handler_side sd en _ _ Hu Hh) as Hh'.
  replace s with (match sd with SUs => us_of n opt | SHim => him_of n opt end) by by destruct sd.
  cbv zeta in Hh'. destruct (side_recv _ _) as [s' rep]. destruct Hh' as [-> Hs'].
  eexists. split; [reflexivity|]. apply set_option_cell; try done; by destruct sd.
Qed.

Lemma Request_side n sd en opt :
  neg_wf n -> is_opt opt ->
  let s := cell n sd opt in
  let '(s', rep) := side_request en s in
  exists n', Request sd en n opt = (n', message sd rep) /\ cell_set n n' sd opt s'.
Proof.
  intros Hn Ho s. pose proof (neg_wf_Get n opt Hn Ho) as HG.
  destruct (neg_wf_sides n opt Hn Ho) as [Hu Hh].
  assert (Hs : side_ok s) by (by destruct sd).
  unfold side_request. destruct sd, en; cbn [Request cell] in *;
    unfold RequestEnable, RequestDisable, RequestPeerEnable, RequestPeerDisable, Us, Him;
    rewrite HG; cbn [us him]; rewrite side_ok_u8 by done; subst s; cmp;
    (eexists; split; [reflexivity|]);
    try (by apply cell_set_refl); apply set_option_cell; try done; split; simpl; try done;
    unfold side_ok; auto.
Qed.

(** ** The Q method of RFC 1143, one side *)

(** The flag of the two waiting states is the queue bit (OPPOSITE). *)
Inductive rfc_state := NO | YES | WANTNO (opposite : bool) | WANTYES (opposite : bool).

#[global] Instance rfc_state_eq_dec : EqDecision rfc_state.
Proof. solve_decision. Defined.

(** RFC 1143, section 7, for a party that agrees to whatever it is offered:
    what to become and what to send on hearing WILL/DO ([true]) or WONT/DONT. *)
Definition rfc_recv (en : bool) (q : rfc_state) : rfc_state * option bool :=
  match en, q with
  | true, NO => (YES, Some true)
  | true, YES => (YES, None)
  | true, WANTNO false => (NO, None)
  | true, WANTNO true => (YES, None)
  | true, WANTYES false => (YES, None)
  | true, WANTYES true => (WANTNO false, Some false)
  | false, NO => (NO, None)
  | false, YES => (NO, Some false)
  | false, WANTNO false => (NO, None)
  | false, WANTNO true => (WANTYES false, Some true)
  | false, WANTYES _ => (NO, None)
  end.

(** The states of the code are those with an empty queue. *)
Definition code_of (q : rfc_state) : Z :=
  match q with
  | NO => OptDisabled | YES => OptEnabled
  | WANTNO false => OptWantNo | WANTYES false => OptWantYes
  | WANTNO true => OptWantNoOpp | WANTYES true => OptWantYesOpp
  end.

(** ** Sequences of calls *)

Inductive neg_op := NHandle (command opt : Z) | NRequest (sd : side) (en : bool) (opt : Z) | NReset.

Definition neg_exec (n : Negotiator) (o : neg_op) : Negotiator :=
  match o with
  | NHandle c opt => (Handle n c opt).1
  | NRequest sd en opt => (Request sd en n opt).1
  | NReset => Reset n
  end.

Definition neg_op_ok (o : neg_op) : Prop :=
  match o with NHandle _ opt | NRequest _ _ opt => is_opt opt | NReset => True end.

Lemma Handle_other n c opt :
  (forall sd en, c <> say sd en) -> Handle n c opt = (n, (0, false)).
Proof.
  intros Hc. unfold Handle. destruct (Get n opt) as [o|]; [|done].
  pose proof (Hc SUs true). pose proof (Hc SUs false).
  pose proof (Hc SHim true). pose proof (Hc SHim false). simpl in *.
  by repeat (cmp; [done|]).
Qed.

(** Every command is one of the four, about some side, or none. *)
Lemma say_dec c : (exists sd en, c = say (flip sd) en) \/ (forall sd en, c <> say sd en).
Proof.
  destruct (decide (c = say SUs true)) as [->|]; [left; by exists SHim, true|].
  destruct (decide (c = say SUs false)) as [->|]; [left; by exists SHim, false|].
  destruct (decide (c = say SHim true)) as [->|]; [left; by exists SUs, true|].
  destruct (decide (c = say SHim false)) as [->|]; [left; by exists SUs, false|].
  right. by intros [] [].
Qed.

Lemma Handle_wf n c opt : neg_wf n -> is_opt opt -> neg_wf (Handle n c opt).1.
Proof.
  intros Hn Ho. destruct (say_dec c) as [(sd & en & ->)|Hc]; [|by rewrite Handle_other].
  pose proof (Handle_side n sd en opt Hn Ho) as Hs. cbv zeta in Hs.
  destruct (side_recv _ _) as [s' rep]. destruct Hs as (n' & -> & Hset). apply Hset.
Qed.

Lemma neg_exec_wf n o : neg_wf n -> neg_op_ok o -> neg_wf (neg_exec n o).
Proof.
  intros Hn Ho. destruct o as [c opt|sd en opt|]; simpl in *.
  - by apply Handle_wf.
  - pose proof (Request_side n sd en opt Hn Ho) as Hs. cbv zeta in Hs.
    destruct (side_request _ _) as [s' rep]. destruct Hs as (n' & -> & Hset). apply Hset.
  - by apply Reset_wf.
Qed.

(** ** Properties *)

(** C31: whatever sequence of peer commands (known or not), local requests and resets a
    negotiator goes through, for whatever options, none of its 256 options is ever nil
    and each side of each is disabled, enabled, or waiting for the answer to one
    request: the two OPPOSITE states that the code declares are unreachable. *)
Theorem Negotiator_states os opt :
  Forall neg_op_ok os -> is_opt opt ->
  let n := foldl neg_exec NewNegotiator os in
  exists o, Get n opt = Some o /\ option_ok o /\
    us o <> OptWantNoOpp /\ us o <> OptWantYesOpp /\
    him o <> OptWantNoOpp /\ him o <> OptWantYesOpp.
Proof.
  intros Hos Hopt n. assert (Hn : neg_wf n).
  { unfold n. generalize NewNegotiator_wf. generalize NewNegotiator.
    induction Hos as [|o os Ho Hos IH]; intros m Hm; simpl; [done|].
    apply IH. by apply neg_exec_wf. }
  destruct Hn as [_ Hn]. destruct (Hn opt Hopt) as (o & E & Hok). exists o.
  destruct Hok as [Hu Hh]. split; [done|]. split; [done|].
  side_cases Hu; side_cases Hh; vm_compute; split_and!; done.
Qed.

Lemma Negotiator_states_witness :
  let n := foldl neg_exec NewNegotiator
    [NRequest SUs true OptEcho; NHandle CmdDo OptEcho; NHandle 77 OptEcho; NRequest SUs false OptEcho] in
  exists o, Get n OptEcho = Some o /\ option_ok o /\
    us o <> OptWantNoOpp /\ us o <> OptWantYesOpp /\
    him o <> OptWantNoOpp /\ him o <> OptWantYesOpp.
Proof.
  apply (Negotiator_states [NRequest SUs true OptEcho; NHandle CmdDo OptEcho;
    NHandle 77 OptEcho; NRequest SUs false OptEcho]); [|unfold is_opt, OptEcho; lia].
  repeat constructor; unfold is_opt, OptEcho; simpl; lia.
Defined.

(** One call of [Handle] touches at most the one side of the one option that the
    command is about. It reports a change exactly when that side's state changed, it
    answers only when it changed, and an answer is a command about the same side. *)
Theorem Handle_effect n command opt :
  neg_wf n -> is_opt opt ->
  let '(n', (response, changed)) := Handle n command opt in
  neg_wf n' /\
  (changed = false -> response = 0 /\ forall sd opt', is_opt opt' -> cell n' sd opt' = cell n sd opt') /\
  (changed = true -> exists sd en, command = say (flip sd) en /\
     cell n' sd opt <> cell n sd opt /\
     (response = 0 \/ exists en', response = say sd en') /\
     forall sd' opt', is_opt opt' -> (sd', opt') <> (sd, opt) -> cell n' sd' opt' = cell n sd' opt').
Proof.
  intros Hn Ho. destruct (say_dec command) as [(sd & en & ->)|Hc]; [|by rewrite Handle_other].
  pose proof (Handle_side n sd en opt Hn Ho) as Hs.
  assert (Hok : side_ok (cell n sd opt)) by (destruct (neg_wf_sides n opt Hn Ho); by destruct sd).
  cbv zeta in Hs. destruct (side_recv en (cell n sd opt)) as [s' rep] eqn:Er.
  destruct Hs as (n' & -> & [Hwf Heq Hne]). split; [done|].
  destruct (Z.eqb_spec s' (cell n sd opt)) as [E|E]; split; try done; intros _.
  - split.
    + unfold side_recv in Er. side_cases Hok; destruct en; vm_compute in Er, E; simplify_eq; done || lia.
    + intros sd' opt' Ho'. destruct (decide ((sd', opt') = (sd, opt))) as [[= -> ->]|].
      * congruence.
      * by apply Hne.
  - exists sd, en. split_and!; [done|congruence| |done].
    destruct rep as [en'|]; [right; by exists en'|by left].
Qed.

Lemma Handle_effect_witness :
  let '(n', (response, changed)) := Handle NewNegotiator CmdWill OptEcho in
  neg_wf n' /\
  (changed = false -> response = 0 /\
     forall sd opt', is_opt opt' -> cell n' sd opt' = cell NewNegotiator sd opt') /\
  (changed = true -> exists sd en, CmdWill = say (flip sd) en /\
     cell n' sd OptEcho <> cell NewNegotiator sd OptEcho /\
     (response = 0 \/ exists en', response = say sd en') /\
     forall sd' opt', is_opt opt' -> (sd', opt') <> (sd, OptEcho) ->
       cell n' sd' opt' = cell NewNegotiator sd' opt').
Proof.
  apply (Handle_effect NewNegotiator CmdWill OptEcho NewNegotiator_wf).
  unfold is_opt, OptEcho; lia.
Defined.

(** C30: the handlers follow the table of RFC 1143 (for a party that agrees to every
    offer and never queues a request): from each state with an empty queue the new
    state is the RFC's, and the answer is the RFC's except in one case. Hearing an
    acceptance while waiting for a refusal, where the RFC says to send nothing, the
    code sends a refusal. *)
Theorem handlers_follow_rfc1143 n sd en opt q q' rep :
  neg_wf n -> is_opt opt -> cell n sd opt = code_of q -> rfc_recv en q = (q', rep) ->
  let '(n', (response, _)) := Handle n (say (flip sd) en) opt in
  cell n' sd opt = code_of q' /\
  response = (if bool_decide (q = WANTNO false /\ en = true) then say sd false
              else message sd rep).
Proof.
  intros Hn Ho Hq Hr. pose proof (Handle_side n sd en opt Hn Ho) as Hs.
  assert (Hok : side_ok (cell n sd opt)) by (destruct (neg_wf_sides n opt Hn Ho); by destruct sd).
  cbv zeta in Hs. destruct (side_recv en (cell n sd opt)) as [s' rep'] eqn:Er.
  destruct Hs as (n' & -> & [_ -> _]). rewrite Hq in *.
  destruct q as [| |[]|[]]; try (exfalso; vm_compute in Hok; destruct Hok as [H|[H|[H|H]]]; discriminate H);
    destruct en; vm_compute in Er; simpl in Hr; simplify_eq; by destruct sd.
Qed.

(** Our request to disable crosses the peer's acceptance. *)
Definition disabling : Negotiator :=
  (RequestDisable (Handle NewNegotiator CmdDo OptEcho).1 OptEcho).1.

Lemma handlers_follow_rfc1143_witness :
  let '(n', (response, _)) := Handle disabling CmdDo OptEcho in
  cell n' SUs OptEcho = OptDisabled /\ response = CmdWont.
Proof.
  assert (Hn : neg_wf disabling).
  { apply (neg_exec_wf _ (NRequest SUs false OptEcho)); [|unfold neg_op_ok, is_opt, OptEcho; lia].
    apply (neg_exec_wf _ (NHandle CmdDo OptEcho)); [apply NewNegotiator_wf|].
    unfold neg_op_ok, is_opt, OptEcho; lia. }
  apply (handlers_follow_rfc1143 disabling SUs true OptEcho (WANTNO false) NO None Hn);
    [unfold is_opt, OptEcho; lia|reflexivity|reflexivity].
Defined.
