(* ===== verification/QMethod.v ===== *)
(** * QMethod: two negotiators talking to each other.

    Two [Negotiator]s are joined by two FIFO channels of (command, option) pairs,
    as two connections of this library are by TCP. Either side may issue local
    requests at any time, and handles the peer's commands in order, sending its
    responses back. The theorems are what RFC 1143 wants of the method: the two
    sides agree whenever nothing is in flight, and negotiation cannot loop. *)
From stdpp Require Import relations.
From S2P Require Import Prelude Constants Options.

(** ** The system *)

Record sys := Sys {
  nA : Negotiator; nB : Negotiator;
  ab : list (Z * Z); ba : list (Z * Z)
}.

Definition swap (s : sys) : sys := Sys (nB s) (nA s) (ba s) (ab s).

(** Response 0 means that nothing is sent. *)
Definition send (ch : list (Z * Z)) (c opt : Z) : list (Z * Z) :=
  if c =? 0 then ch else ch ++ [(c, opt)].

(** A local request of party A. *)
Inductive request : sys -> sys -> Prop :=
  | request_A s sd en opt n' c :
      is_opt opt -> Request sd en (nA s) opt = (n', c) ->
      request s (Sys n' (nB s) (send (ab s) c opt) (ba s)).

(** Party A handles the next command from party B. *)
Inductive deliver : sys -> sys -> Prop :=
  | deliver_A s c opt rest n' resp changed :
      ba s = (c, opt) :: rest -> Handle (nA s) c opt = (n', (resp, changed)) ->
      deliver s (Sys n' (nB s) (send (ab s) resp opt) rest).

(** Either party moves. *)
Definition request_step (s s' : sys) : Prop := request s s' \/ request (swap s) (swap s').
Definition deliver_step (s s' : sys) : Prop := deliver s s' \/ deliver (swap s) (swap s').
Definition step (s s' : sys) : Prop := request_step s s' \/ deliver_step s s'.

Definition initial : sys := Sys NewNegotiator NewNegotiator [] [].
Definition reachable (s : sys) : Prop := rtc step initial s.

(** ** One link: a side of an option, as its owner and its peer see it

    [heard sd c]: what the command [c] says about the speaker's side [sd]. *)

Definition heard (sd : side) (c : Z) : option bool :=
  if c =? say sd true then Some true else if c =? say sd false then Some false else None.

Definition msgs (sd : side) (opt : Z) (ch : list (Z * Z)) : list bool :=
  omap (fun m => if m.2 =? opt then heard sd m.1 else None) ch.

Abbreviation link := (Z * Z * list bool * list bool)%type (only parsing).

Definition link_of (s : sys) (sd : side) (opt : Z) : link :=
  (cell (nA s) sd opt, cell (nB s) (flip sd) opt, msgs sd opt (ab s), msgs (flip sd) opt (ba s)).

(** The configurations a link can be in, each with the number of deliveries it can
    still cause. *)
Definition link_table : list (link * nat) :=
  [ (OptDisabled, OptDisabled, [], [], 0%nat);
    (OptEnabled, OptEnabled, [], [], 0%nat);
    (OptDisabled, OptWantNo, [false], [], 1%nat);
    (OptDisabled, OptWantYes, [], [true], 2%nat);
    (OptEnabled, OptWantNo, [], [false], 2%nat);
    (OptEnabled, OptWantYes, [true], [], 1%nat);
    (OptWantNo, OptDisabled, [], [false], 1%nat);
    (OptWantNo, OptEnabled, [false], [], 2%nat);
    (OptWantYes, OptDisabled, [true], [], 2%nat);
    (OptWantYes, OptEnabled, [], [true], 1%nat);
    (OptWantNo, OptWantNo, [false], [false], 2%nat);
    (OptWantNo, OptWantYes, [], [false; true], 3%nat);
    (OptWantNo, OptWantYes, [true; false], [], 3%nat);
    (OptWantYes, OptWantNo, [], [true; false], 3%nat);
    (OptWantYes, OptWantNo, [false; true], [], 3%nat);
    (OptWantYes, OptWantYes, [true], [true], 2%nat) ].

Definition links : list link := link_table.*1.

Definition weight (x : link) : nat :=
  match list_find (fun y => y.1 = x) link_table with Some (_, y) => y.2 | None => 0%nat end.

(** ** The transitions of a link *)

Definition mirror (x : link) : link := let '(a, b, q, r) := x in (b, a, r, q).

Definition option_list {A} (o : option A) : list A := match o with Some x => [x] | None => [] end.

Definition link_deliver (x : link) : option link :=
  match x with
  | (a, b, q, m :: r) =>
      let '(a', rep) := side_recv m a in Some (a', b, q ++ option_list rep, r)
  | _ => None
  end.

Definition link_request (en : bool) (x : link) : link :=
  let '(a, b, q, r) := x in
  let '(a', rep) := side_request en a in (a', b, q ++ option_list rep, r).

(** Check a statement on every row of the table, by computation. *)
Ltac by_rows :=
  unfold links, link_table; cbn [fmap list_fmap fst];
  repeat (apply Forall_cons_2; [cbn -[links weight]; first [by_decide | done | intros; by_decide]|]);
  apply Forall_nil_2.

Lemma links_mirror x : x ∈ links -> mirror x ∈ links /\ weight (mirror x) = weight x.
Proof.
  revert x. apply Forall_forall. by_rows.
Qed.

Lemma links_deliver x x' :
  x ∈ links -> link_deliver x = Some x' -> x' ∈ links /\ (weight x' < weight x)%nat.
Proof.
  intros Hx. revert x'. revert x Hx.
  assert (H : Forall (fun x => match link_deliver x with
    | Some x' => x' ∈ links /\ (weight x' < weight x)%nat | None => True end) links) by by_rows.
  intros x Hx x' E. rewrite Forall_forall in H. specialize (H x Hx). by rewrite E in H.
Qed.

Lemma links_request x en : x ∈ links -> link_request en x ∈ links.
Proof.
  assert (H : Forall (fun x => link_request true x ∈ links /\ link_request false x ∈ links) links)
    by by_rows.
  intros Hx. rewrite Forall_forall in H. destruct (H x Hx). by destruct en.
Qed.

(** Nothing in flight: both sides agree on enabled or disabled. *)
Lemma links_quiet a b :
  (a, b, [], []) ∈ links -> a = b /\ (a = OptDisabled \/ a = OptEnabled).
Proof.
  assert (H : Forall (fun '(a, b, q, r) => q = [] /\ r = [] ->
    a = b /\ (a = OptDisabled \/ a = OptEnabled)) links) by by_rows.
  intros Hx. rewrite Forall_forall in H. by apply (H _ Hx).
Qed.

(** An acceptance never meets a side that waits for a refusal. *)
Lemma links_no_conflict a b q r : (a, b, q, true :: r) ∈ links -> a <> OptWantNo.
Proof.
  assert (H : Forall (fun '(a, b, q, r) => head r = Some true -> a <> OptWantNo) links)
    by by_rows.
  intros Hx. rewrite Forall_forall in H. by apply (H _ Hx).
Qed.

Lemma weight_le x : x ∈ links -> (weight x <= 3)%nat.
Proof. revert x. apply Forall_forall. by_rows. Qed.

(** ** Channels *)

Lemma heard_say sd en : heard sd (say sd en) = Some en.
Proof. by destruct sd, en. Qed.

Lemma heard_say_flip sd en : heard sd (say (flip sd) en) = None.
Proof. by destruct sd, en. Qed.

Lemma flip_flip sd : flip (flip sd) = sd.
Proof. by destruct sd. Qed.

Lemma heard_say_other sd sd' en : sd <> sd' -> heard sd' (say sd en) = None.
Proof. by destruct sd, sd', en. Qed.

Lemma say_nonzero sd en : say sd en <> 0.
Proof. by destruct sd, en. Qed.

Lemma msgs_app sd opt c1 c2 : msgs sd opt (c1 ++ c2) = msgs sd opt c1 ++ msgs sd opt c2.
Proof. apply omap_app. Qed.

(** Sending a reply about [(sd, opt)] is visible on that link only. *)
Lemma msgs_send_same sd opt ch rep :
  msgs sd opt (send ch (message sd rep) opt) = msgs sd opt ch ++ option_list rep.
Proof.
  unfold send. destruct rep as [en|]; simpl; [|by rewrite app_nil_r].
  rewrite (proj2 (Z.eqb_neq _ _)) by apply say_nonzero. rewrite msgs_app. f_equal.
  unfold msgs; simpl. by rewrite Z.eqb_refl, heard_say.
Qed.

Lemma msgs_send_other sd opt sd' opt' ch rep :
  (sd', opt') <> (sd, opt) -> msgs sd' opt' (send ch (message sd rep) opt) = msgs sd' opt' ch.
Proof.
  intros Hne. unfold send. destruct rep as [en|]; simpl; [|done].
  rewrite (proj2 (Z.eqb_neq _ _)) by apply say_nonzero.
  rewrite msgs_app. unfold msgs at 2; simpl. destruct (Z.eqb_spec opt opt') as [->|].
  - rewrite heard_say_other by congruence. by rewrite app_nil_r.
  - by rewrite app_nil_r.
Qed.

(** ** The invariant *)

(** A message is about some side of an existing option. *)
Definition msg_ok (m : Z * Z) : Prop := is_opt m.2 /\ exists sd en, m.1 = say (flip sd) en.

Record sys_ok (s : sys) : Prop := {
  so_A : neg_wf (nA s);
  so_B : neg_wf (nB s);
  so_ab : Forall msg_ok (ab s);
  so_ba : Forall msg_ok (ba s);
  so_links sd opt : is_opt opt -> link_of s sd opt ∈ links
}.

Lemma swap_swap s : swap (swap s) = s.
Proof. by destruct s. Qed.

Lemma link_of_swap s sd opt : link_of (swap s) sd opt = mirror (link_of s (flip sd) opt).
Proof. unfold link_of; simpl. by rewrite flip_flip. Qed.

Lemma sys_ok_swap s : sys_ok s -> sys_ok (swap s).
Proof.
  intros [HA HB Hab Hba Hl]. split; try done. intros sd opt Ho. rewrite link_of_swap.
  by apply links_mirror, Hl.
Qed.

Lemma send_ok ch sd rep opt :
  is_opt opt -> Forall msg_ok ch -> Forall msg_ok (send ch (message sd rep) opt).
Proof.
  intros Ho Hch. unfold send. destruct rep as [en|]; simpl; [|done]. cmp; [done|].
  apply Forall_app. split; [done|]. constructor; [|done]. split; [done|].
  exists (flip sd), en. by rewrite flip_flip.
Qed.

Lemma initial_ok : sys_ok initial.
Proof.
  split; try apply NewNegotiator_wf; try done. intros sd opt Ho.
  unfold link_of, initial. cbn [nA nB ab ba].
  assert (Hc : forall sd', cell NewNegotiator sd' opt = OptDisabled).
  { intros []; simpl; unfold us_of, him_of; by rewrite NewNegotiator_Get. }
  rewrite !Hc. by_decide.
Qed.

Lemma cell_ok n sd opt : neg_wf n -> is_opt opt -> side_ok (cell n sd opt).
Proof. intros Hn Ho. destruct (neg_wf_sides n opt Hn Ho). by destruct sd. Qed.

(** Every link after a move of A: the one moved, and the others. *)
Lemma request_links s s' :
  sys_ok s -> request s s' ->
  neg_wf (nA s') /\ nB s' = nB s /\ Forall msg_ok (ab s') /\ ba s' = ba s /\
  exists sd opt en, link_of s' sd opt = link_request en (link_of s sd opt) /\
    forall sd' opt', is_opt opt' -> (sd', opt') <> (sd, opt) -> link_of s' sd' opt' = link_of s sd' opt'.
Proof.
  intros [HA HB Hab Hba Hl] Hr. destruct Hr as [s sd en opt n' c Ho Hreq].
  pose proof (Request_side (nA s) sd en opt HA Ho) as Hs. cbv zeta in Hs.
  destruct (side_request en (cell (nA s) sd opt)) as [a' rep] eqn:Er.
  destruct Hs as (n1 & E & [Hwf Heq Hne]). rewrite E in Hreq. simplify_eq.
  split; [done|]. split; [done|]. split; [by apply send_ok|]. split; [done|].
  exists sd, opt, en. unfold link_of; simpl. split.
  - rewrite Er, msgs_send_same. done.
  - intros sd' opt' Ho' Hd. by rewrite msgs_send_other, Hne.
Qed.

Lemma deliver_links s s' :
  sys_ok s -> deliver s s' ->
  neg_wf (nA s') /\ nB s' = nB s /\ Forall msg_ok (ab s') /\ Forall msg_ok (ba s') /\
  exists sd opt, is_opt opt /\ link_deliver (link_of s sd opt) = Some (link_of s' sd opt) /\
    forall sd' opt', is_opt opt' -> (sd', opt') <> (sd, opt) -> link_of s' sd' opt' = link_of s sd' opt'.
Proof.
  intros [HA HB Hab Hba Hl] Hd. destruct Hd as [s c opt rest n' resp changed E HH].
  rewrite E in Hba. apply Forall_cons_1 in Hba as [[Ho (sd & en & Hc)] Hrest].
  simpl in Ho, Hc. subst c.
  pose proof (Handle_side (nA s) sd en opt HA Ho) as Hs. cbv zeta in Hs.
  destruct (side_recv en (cell (nA s) sd opt)) as [a' rep] eqn:Er.
  destruct Hs as (n1 & E1 & [Hwf Heq Hne]). rewrite E1 in HH. simplify_eq.
  split; [done|]. split; [done|]. split; [by apply send_ok|]. split; [done|].
  exists sd, opt. split; [done|]. unfold link_of; simpl. rewrite E. split.
  - unfold msgs at 2; simpl. rewrite Z.eqb_refl, heard_say, Er, msgs_send_same. done.
  - intros sd' opt' Ho' Hd. rewrite msgs_send_other, Hne by done. f_equal.
    unfold msgs; simpl. destruct (Z.eqb_spec opt opt') as [->|]; [|done].
    rewrite heard_say_other; [done|]. intros Hf. apply Hd. f_equal.
    apply (f_equal flip) in Hf. by rewrite !flip_flip in Hf.
Qed.

Lemma request_ok s s' : sys_ok s -> request s s' -> sys_ok s'.
Proof.
  intros Hok Hr. destruct (request_links s s' Hok Hr) as (? & HnB & ? & Hba & sd & opt & en & Hl & Hne).
  destruct Hok as [_ HB _ Hba' Hlinks]. split; try done; [by rewrite HnB|by rewrite Hba|].
  intros sd' opt' Ho'. destruct (decide ((sd', opt') = (sd, opt))) as [[= -> ->]|Hd].
  - rewrite Hl. by apply links_request, Hlinks.
  - rewrite Hne by done. by apply Hlinks.
Qed.

Lemma deliver_ok s s' : sys_ok s -> deliver s s' -> sys_ok s'.
Proof.
  intros Hok Hr. destruct (deliver_links s s' Hok Hr) as (? & HnB & ? & Hba & sd & opt & Ho & Hl & Hne).
  destruct Hok as [_ HB _ _ Hlinks]. split; try done; [by rewrite HnB|].
  intros sd' opt' Ho'. destruct (decide ((sd', opt') = (sd, opt))) as [[= -> ->]|Hd].
  - by eapply links_deliver; [apply Hlinks|].
  - rewrite Hne by done. by apply Hlinks.
Qed.

Lemma deliver_step_ok s s' : sys_ok s -> deliver_step s s' -> sys_ok s'.
Proof.
  intros Hok [Hd|Hd]; [by eapply deliver_ok|].
  rewrite <- (swap_swap s'). apply sys_ok_swap. eapply deliver_ok; [|exact Hd].
  by apply sys_ok_swap.
Qed.

Lemma step_ok s s' : sys_ok s -> step s s' -> sys_ok s'.
Proof.
  intros Hok [[Hr|Hr]|Hd]; [by eapply request_ok| |by eapply deliver_step_ok].
  rewrite <- (swap_swap s'). apply sys_ok_swap. eapply request_ok; [|exact Hr].
  by apply sys_ok_swap.
Qed.

Lemma rtc_ok s s' : sys_ok s -> rtc step s s' -> sys_ok s'.
Proof. intros Hok Hr. induction Hr; [done|]. eauto using step_ok. Qed.

Lemma reachable_ok s : reachable s -> sys_ok s.
Proof. apply rtc_ok, initial_ok. Qed.

(** ** Termination: the total weight of the links *)

Definition all_links : list (side * Z) :=
  ((fun o => (SUs, Z.of_nat o)) <$> seq 0 256) ++ ((fun o => (SHim, Z.of_nat o)) <$> seq 0 256).

Definition total_weight (s : sys) : nat :=
  sum_list_with (fun k => weight (link_of s k.1 k.2)) all_links.

Lemma elem_of_all_links sd opt : (sd, opt) ∈ all_links <-> is_opt opt.
Proof.
  unfold all_links, is_opt. rewrite elem_of_app, !list_elem_of_fmap. split.
  - intros [(o & [= -> ->] & Ho)|(o & [= -> ->] & Ho)]; rewrite elem_of_seq in Ho; lia.
  - intros Ho. assert (Z.to_nat opt ∈ seq 0 256) by (rewrite elem_of_seq; lia).
    destruct sd; [left|right]; exists (Z.to_nat opt); (split; [f_equal; lia|done]).
Qed.

Lemma NoDup_all_links : NoDup all_links.
Proof.
  apply NoDup_app. split_and!.
  - apply NoDup_fmap_2; [intros ?? [=]; lia|]. apply NoDup_seq.
  - intros k Hk Hk'. apply list_elem_of_fmap in Hk as (? & -> & _).
    apply list_elem_of_fmap in Hk' as (? & [=] & _).
  - apply NoDup_fmap_2; [intros ?? [=]; lia|]. apply NoDup_seq.
Qed.

(** A sum changes by exactly what one of its distinct terms changes by. *)
Lemma sum_change {A} (f g : A -> nat) l k :
  NoDup l -> k ∈ l -> (forall k', k' ∈ l -> k' <> k -> g k' = f k') ->
  (sum_list_with g l + f k = sum_list_with f l + g k)%nat.
Proof.
  induction 1 as [|x l Hx Hnd IH]; intros Hk Hoth; [by apply elem_of_nil in Hk|].
  apply elem_of_cons in Hk as [->|Hk]; simpl.
  - assert (sum_list_with g l = sum_list_with f l); [|lia].
    clear IH. assert (Hs : forall y, y ∈ l -> g y = f y).
    { intros y Hy. apply Hoth; [by apply elem_of_cons; right|]. by intros ->. }
    clear -Hs. induction l as [|z l IH]; simpl; [done|].
    rewrite Hs by (apply elem_of_cons; by left). rewrite IH; [done|].
    intros; apply Hs, elem_of_cons; by right.
  - assert (x <> k) by (intros ->; done).
    rewrite (Hoth x) by (done || (apply elem_of_cons; by left)).
    assert (sum_list_with g l + f k = sum_list_with f l + g k)%nat; [|lia].
    apply IH; [done|]. intros; apply Hoth; [apply elem_of_cons; by right|done].
Qed.

Lemma sum_bound {A} (f : A -> nat) l n :
  (forall k, k ∈ l -> (f k <= n)%nat) -> (sum_list_with f l <= n * length l)%nat.
Proof.
  induction l as [|x l IH]; intros H; simpl; [lia|].
  specialize (H x (list_elem_of_here _ _)) as Hx.
  assert (sum_list_with f l <= n * length l)%nat; [|lia].
  apply IH. intros; apply H, elem_of_cons; by right.
Qed.

Lemma total_weight_bound s : sys_ok s -> (total_weight s <= 1536)%nat.
Proof.
  intros Hok. change 1536%nat with (3 * length all_links)%nat. apply sum_bound.
  intros [sd opt] Hk. apply elem_of_all_links in Hk. apply weight_le. by apply so_links.
Qed.

Lemma deliver_weight s s' :
  sys_ok s -> deliver s s' -> (total_weight s' < total_weight s)%nat.
Proof.
  intros Hok Hd. destruct (deliver_links s s' Hok Hd) as (_ & _ & _ & _ & sd & opt & Ho & Hl & Hne).
  destruct (links_deliver _ _ (so_links _ Hok sd opt Ho) Hl) as [_ Hw].
  pose proof (sum_change (fun k => weight (link_of s k.1 k.2)) (fun k => weight (link_of s' k.1 k.2))
    all_links (sd, opt) NoDup_all_links) as Hs.
  cbn [fst snd] in Hs. unfold total_weight. rewrite elem_of_all_links in Hs.
  specialize (Hs Ho). assert (Hs' := Hs ltac:(intros [sd' opt'] Hk Hk';
    apply elem_of_all_links in Hk; cbn [fst snd]; by rewrite Hne)). lia.
Qed.

Lemma total_weight_swap s : sys_ok s -> total_weight (swap s) = total_weight s.
Proof.
  intros Hok. unfold total_weight, all_links. rewrite !sum_list_with_app.
  assert (Hh : forall sd, sum_list_with (fun k => weight (link_of (swap s) k.1 k.2))
      ((fun o => (sd, Z.of_nat o)) <$> seq 0 256) =
    sum_list_with (fun k => weight (link_of s k.1 k.2))
      ((fun o => (flip sd, Z.of_nat o)) <$> seq 0 256)).
  { intros sd. assert (Hin : forall o, o ∈ seq 0 256 -> is_opt (Z.of_nat o))
      by (intros o; rewrite elem_of_seq; unfold is_opt; lia).
    revert Hin. generalize (seq 0 256) as l. induction l as [|o l IH]; intros Hin; [done|].
    cbn [fmap list_fmap sum_list_with fst snd]. rewrite IH by (intros; apply Hin, elem_of_cons; by right). f_equal.
    rewrite link_of_swap. apply links_mirror, so_links; [done|].
    apply Hin, elem_of_cons; by left. }
  rewrite !Hh. cbn [flip]. lia.
Qed.

Lemma deliver_step_weight s s' :
  sys_ok s -> deliver_step s s' -> (total_weight s' < total_weight s)%nat.
Proof.
  intros Hok Hd. pose proof (deliver_step_ok s s' Hok Hd) as Hok'.
  destruct Hd as [Hd|Hd]; [by apply deliver_weight|].
  rewrite <- (total_weight_swap s), <- (total_weight_swap s') by done.
  apply deliver_weight; [by apply sys_ok_swap|done].
Qed.

Lemma deliver_nsteps n s s' :
  sys_ok s -> nsteps deliver_step n s s' -> (n + total_weight s' <= total_weight s)%nat.
Proof.
  intros Hok Hn. induction Hn as [|n s1 s2 s3 Hd _ IH]; [lia|].
  pose proof (deliver_step_weight _ _ Hok Hd).
  specialize (IH (deliver_step_ok _ _ Hok Hd)). lia.
Qed.

Lemma deliver_A_progress s c opt rest : ba s = (c, opt) :: rest -> exists s', deliver s s'.
Proof.
  intros E. destruct (Handle (nA s) c opt) as [n' [resp changed]] eqn:Eh.
  eexists. by eapply deliver_A.
Qed.

(** A message in flight can be delivered. *)
Lemma deliver_progress s : (exists s', deliver_step s s') \/ ab s = [] /\ ba s = [].
Proof.
  destruct (ba s) as [|[c opt] rest] eqn:E.
  - destruct (ab s) as [|[c opt] rest] eqn:E'; [by right|]. left.
    destruct (deliver_A_progress (swap s) c opt rest E') as [s' Hs].
    exists (swap s'). right. by rewrite swap_swap.
  - left. destruct (deliver_A_progress s c opt rest E) as [s' Hs]. exists s'. by left.
Qed.

Lemma deliver_drains s :
  sys_ok s -> exists s', rtc deliver_step s s' /\ ab s' = [] /\ ba s' = [].
Proof.
  remember (total_weight s) as w eqn:Ew. revert s Ew.
  induction w as [w IH] using lt_wf_ind. intros s -> Hok.
  destruct (deliver_progress s) as [[s1 Hd]|?]; [|by exists s].
  destruct (IH _ (deliver_step_weight _ _ Hok Hd) s1 eq_refl (deliver_step_ok _ _ Hok Hd))
    as (s' & Hr & ?). exists s'. split; [|done]. by eapply rtc_l.
Qed.

(** ** Claims *)

(** C9: two negotiators joined by FIFO channels agree: in every state reachable by
    any interleaving of local requests and deliveries, once nothing is in flight,
    each side of every option is at rest at both parties and has the same value at
    both: A's own side is what B records of its peer, and conversely. *)
Theorem negotiators_agree s opt :
  reachable s -> is_opt opt -> ab s = [] -> ba s = [] ->
  exists oA oB, Get (nA s) opt = Some oA /\ Get (nB s) opt = Some oB /\
    Us oA = Him oB /\ Him oA = Us oB /\ IsNegotiating oA = false /\ IsNegotiating oB = false.
Proof.
  intros Hr Ho Hab Hba. apply reachable_ok in Hr.
  pose proof (so_links s Hr SUs opt Ho) as H1. pose proof (so_links s Hr SHim opt Ho) as H2.
  unfold link_of in H1, H2. rewrite Hab, Hba in H1, H2.
  apply links_quiet in H1 as [E1 D1]. apply links_quiet in H2 as [E2 D2].
  eexists _, _. rewrite !neg_wf_Get by (done || apply Hr). split; [done|]. split; [done|].
  unfold Us, Him, IsNegotiating. simpl in *. rewrite <- E1, <- E2. repeat split; try done.
  all: by destruct D1 as [->| ->], D2 as [->| ->].
Qed.

(** C8: negotiation cannot loop. From any reachable state, whatever the order of
    deliveries, at most 1536 commands are handled before both channels are empty (3
    for each of the two sides of the 256 options); some order of deliveries does
    empty them, and delivery is only ever stuck when they are. *)
Theorem negotiation_terminates s :
  reachable s ->
  (forall n s', nsteps deliver_step n s s' -> (n <= 1536)%nat) /\
  (exists s', rtc deliver_step s s' /\ ab s' = [] /\ ba s' = []) /\
  (forall s', rtc deliver_step s s' -> (forall s'', ~ deliver_step s' s'') ->
     ab s' = [] /\ ba s' = []).
Proof.
  intros Hr. apply reachable_ok in Hr. split; [|split].
  - intros n s' Hn. pose proof (deliver_nsteps _ _ _ Hr Hn).
    pose proof (total_weight_bound s Hr). lia.
  - by apply deliver_drains.
  - intros s' _ Hstuck. destruct (deliver_progress s') as [[s'' Hd]|?]; [|done].
    by destruct (Hstuck s'').
Qed.

(** The branch in which this library departs from RFC 1143 is dead between two
    of its negotiators: a side on which A awaits the confirmation of a refusal
    (want-no) never meets an acceptance from B, in any reachable state. *)
Theorem conflict_branch_unreachable s sd opt rest :
  reachable s -> is_opt opt -> ba s = (say (flip sd) true, opt) :: rest ->
  cell (nA s) sd opt <> OptWantNo.
Proof.
  intros Hr Ho E. apply reachable_ok in Hr. pose proof (so_links s Hr sd opt Ho) as Hl.
  unfold link_of in Hl. rewrite E in Hl. unfold msgs at 2 in Hl. simpl in Hl.
  rewrite Z.eqb_refl, heard_say in Hl. by apply links_no_conflict in Hl.
Qed.

(** Executable deliveries, for concrete runs. *)
Definition deliver_to_A (s : sys) : sys :=
  match ba s with
  | (c, opt) :: rest =>
      let '(n', (resp, _)) := Handle (nA s) c opt in
      Sys n' (nB s) (send (ab s) resp opt) rest
  | [] => s
  end.

Definition deliver_to_B (s : sys) : sys := swap (deliver_to_A (swap s)).

Definition request_by_A (sd : side) (en : bool) (opt : Z) (s : sys) : sys :=
  let '(n', c) := Request sd en (nA s) opt in Sys n' (nB s) (send (ab s) c opt) (ba s).

Lemma deliver_to_A_step s : ba s <> [] -> deliver s (deliver_to_A s).
Proof.
  intros Hne. unfold deliver_to_A. destruct (ba s) as [|[c opt] rest] eqn:E; [done|].
  destruct (Handle (nA s) c opt) as [n' [resp changed]] eqn:Eh. by eapply deliver_A.
Qed.

Lemma deliver_to_B_step s : ab s <> [] -> deliver_step s (deliver_to_B s).
Proof.
  intros Hne. right. unfold deliver_to_B. rewrite swap_swap. by apply deliver_to_A_step.
Qed.

Lemma request_by_A_step sd en opt s : is_opt opt -> request s (request_by_A sd en opt s).
Proof.
  intros Ho. unfold request_by_A. destruct (Request sd en (nA s) opt) as [n' c] eqn:E.
  by eapply request_A.
Qed.

(** Two commands sent past the negotiator, as [SendCommand] does. *)
Definition raw_start : sys := Sys NewNegotiator NewNegotiator [(CmdWill, OptEcho); (CmdWont, OptEcho)] [].

(** One round: both commands handled by B, both replies by A. *)
Definition raw_round (s : sys) : sys :=
  deliver_to_A (deliver_to_A (deliver_to_B (deliver_to_B s))).

Lemma raw_round_cycle : raw_round raw_start = raw_start.
Proof. by vm_compute. Qed.

Lemma raw_round_steps : nsteps deliver_step 4 raw_start (raw_round raw_start).
Proof.
  eapply nsteps_l; [by apply deliver_to_B_step|].
  eapply nsteps_l; [by apply deliver_to_B_step|].
  eapply nsteps_l; [left; by apply deliver_to_A_step|].
  apply nsteps_once. left. by apply deliver_to_A_step.
Qed.

(** The bound holds only for commands that go through the negotiator. After a
    WILL and a WONT sent with neither party's state recording them (as a direct
    [SendCommand] does), the two negotiators answer each other for ever: every
    fourth delivery brings the initial state back. *)
Theorem raw_commands_loop k : nsteps deliver_step (k * 4) raw_start raw_start.
Proof.
  induction k as [|k IH]; [apply nsteps_O|].
  replace (S k * 4)%nat with (4 + k * 4)%nat by lia.
  eapply nsteps_trans; [|exact IH]. rewrite <- raw_round_cycle at 2. apply raw_round_steps.
Qed.

(** A run for the witnesses: A asks to enable ECHO, B accepts, A hears of it. *)
Definition run1 : sys := request_by_A SUs true OptEcho initial.
Definition run3 : sys := deliver_to_A (deliver_to_B run1).

Lemma run1_reachable : reachable run1.
Proof. apply rtc_once. left; left. by apply request_by_A_step. Qed.

Lemma run3_reachable : reachable run3.
Proof.
  eapply rtc_r; [eapply rtc_r; [apply run1_reachable|]|].
  - right. by apply deliver_to_B_step.
  - right; left. by apply deliver_to_A_step.
Qed.

Lemma negotiators_agree_witness :
  reachable run3 /\ cell (nA run3) SUs OptEcho = OptEnabled /\
  exists oA oB, Get (nA run3) OptEcho = Some oA /\ Get (nB run3) OptEcho = Some oB /\
    Us oA = Him oB /\ Him oA = Us oB /\ IsNegotiating oA = false /\ IsNegotiating oB = false.
Proof.
  split; [apply run3_reachable|]. split; [by vm_compute|].
  apply negotiators_agree; [apply run3_reachable|done|by vm_compute|by vm_compute].
Defined.

Lemma negotiation_terminates_witness :
  reachable run1 /\ ab run1 <> [] /\ exists s', rtc deliver_step run1 s' /\ ab s' = [] /\ ba s' = [].
Proof.
  split; [apply run1_reachable|]. split; [by vm_compute|].
  apply (negotiation_terminates run1 run1_reachable).
Defined.

Lemma conflict_branch_unreachable_witness :
  ba (deliver_to_B run1) = [(CmdDo, OptEcho)] /\ cell (nA (deliver_to_B run1)) SUs OptEcho <> OptWantNo.
Proof.
  split; [by vm_compute|]. apply (conflict_branch_unreachable _ SUs OptEcho []).
  - eapply rtc_r; [apply run1_reachable|]. right. by apply deliver_to_B_step.
  - done.
  - by vm_compute.
Defined.
