(* ===== verification/NetConn.v ===== *)
(** * NetConn: the interface of the network connection.

    [net.Conn] is an interface of Go's standard library. What [Conn] uses of it
    are [Read], [Write] and [Close]; the laws are what the documentation of
    [io.Reader] and [io.Writer] promises of every implementation. Two ghost
    functions name the bytes that the peer will get and those it will have sent. *)
From S2P Require Import Prelude.

Class NetConn (N : Type) := {
  (** [Read] into a buffer of the given length: the bytes read, and the error *)
  net_Read : N -> Z -> N * (bytes * option error);
  net_Write : N -> bytes -> N * (Z * option error);
  net_Close : N -> N * option error
}.

Class NetConnLaws (N : Type) `{NetConn N} := {
  net_sent : N -> bytes;
  net_incoming : N -> bytes;
  (** [Read] reads up to [sz] bytes of the stream. *)
  net_Read_ok n sz : 0 <= sz ->
    let '(n', (data, e)) := net_Read n sz in
    zlen data <= sz /\ wf_bytes data /\
    net_incoming n = data ++ net_incoming n' /\ net_sent n' = net_sent n;
  (** [Write] writes a prefix, and returns an error when it is not all of it. *)
  net_Write_ok n p :
    let '(n', (k, e)) := net_Write n p in
    0 <= k <= zlen p /\ (k < zlen p -> e <> None) /\
    net_sent n' = net_sent n ++ take (Z.to_nat k) p /\ net_incoming n' = net_incoming n
}.

(** ** A scripted connection, for concrete runs

    [script] holds the arrivals, each at most one [Read]'s result, then EOF;
    [room] bounds the bytes that can still be written. *)

Record ScriptConn := Script { script : list (list Z); log : list Z; room : Z }.

Definition script_Read (n : ScriptConn) (sz : Z) : ScriptConn * (bytes * option error) :=
  match script n with
  | [] => (n, ([], Some EOF))
  | l :: ls =>
      let k := Z.to_nat sz in
      let data := (fun b => b mod 256) <$> take k l in
      let left := match drop k l with [] => ls | r => r :: ls end in
      (Script left (log n) (room n), (data, None))
  end.

Definition script_Write (n : ScriptConn) (p : bytes) : ScriptConn * (Z * option error) :=
  if zlen p <=? room n
  then (Script (script n) (log n ++ p) (room n - zlen p), (zlen p, None))
  else
    let k := Z.max 0 (room n) in
    (Script (script n) (log n ++ take (Z.to_nat k) p) 0, (k, Some (NetError 1))).

#[export] Instance ScriptConn_NetConn : NetConn ScriptConn := {
  net_Read := script_Read;
  net_Write := script_Write;
  net_Close n := (n, None)
}.

#[export] Instance ScriptConn_Laws : NetConnLaws ScriptConn.
Proof.
  refine {| net_sent := log; net_incoming n := (fun b => b mod 256) <$> concat (script n) |}.
  - intros [s l r] sz Hsz. unfold net_Read, ScriptConn_NetConn, script_Read; simpl.
    destruct s as [|x s]; simpl.
    { split; [zl|]. split; [by apply Forall_nil_2|]. done. }
    split_and!; [| | |done].
    + unfold zlen. rewrite length_fmap, length_take. lia.
    + apply Forall_fmap, Forall_true. intros b. unfold is_byte; simpl.
      apply Z.mod_pos_bound; lia.
    + rewrite <- fmap_app. f_equal. rewrite <- (take_drop (Z.to_nat sz) x) at 1.
      rewrite <- app_assoc. f_equal. by destruct (drop (Z.to_nat sz) x).
  - intros [s l r] p. unfold net_Write, ScriptConn_NetConn, script_Write; simpl.
    destruct (Z.leb_spec (zlen p) r); simpl.
    + split_and!; [apply zlen_nonneg|lia|lia| |done]. by rewrite take_ge by zl.
    + pose proof (zlen_nonneg p). split_and!; try done; lia.
Defined.
