(* ===== verification/TelnetConn.v ===== *)
(** * TelnetConn: the connection of [conn.go].

    One goroutine's view of a [Conn]: the mutexes are held for the whole of an
    operation, so that its effect is one transition. Operations return [None]
    where Go panics. The input queue is any [ByteQueue] (the package's is
    [Ring]), the network any [NetConn]. *)
From S2P Require Import Prelude Constants GoSlice Pool ByteQueue RingBuf StaticBuf TelnetParser Options NetConn.

(** ** Data *)

(** [EventHandler] tells whether a handler was given; what it does is the user's code. *)
Record Config := MkConfig {
  EnableBinary : bool; EnableEcho : bool; EnableSGA : bool; EnableNAWS : bool;
  EnableTType : bool; EnableTermSpeed : bool; EnableNewEnviron : bool;
  EnableCharset : bool; EnableMCCP2 : bool; EnableMCCP3 : bool; EnableMSDP : bool;
  EnableGMCP : bool; EnableMSSP : bool; EnableMCP : bool;
  TerminalTypeName : bytes; TerminalWidth : Z; TerminalHeight : Z;
  ReadBufferSize : Z; WriteBufferSize : Z;
  EventHandler : bool; LineMode : bool
}.

(** The metrics, each a uint64 counter. *)
Record ConnStats := MkStats {
  BytesRead : Z; BytesWritten : Z; CommandsRecv : Z; CommandsSent : Z;
  OptionsNegotiated : Z; Subnegotiations : Z; Errors : Z
}.

Inductive event_type := eventData | eventCommand | eventSubnegotiation | eventError.

(** [ev_data] is the length of a window of the parser's subnegotiation buffer:
    the queued event does not own its bytes. *)
Record event := MkEvent { ev_typ : event_type; ev_cmd : Z; ev_option : Z; ev_data : Z }.

(** A nil channel is [None]; [eventDone] holds whether the channel was closed;
    [termType] is [None] until a string is stored. *)
Record Conn (N Q : Type) := MkConn {
  netConn : N; config : Config;
  parser : Parser; parseResult : ParseResult; negotiator : Negotiator;
  readBuf : Q; readScratch : Slice;
  writeBuf : StaticBuffer;
  events : option (list event); eventDone : option bool;
  closed : bool; readLineCR : bool;
  termType : option (list Z); termWidth : Z; termHeight : Z;
  stats : ConnStats
}.
#[global] Arguments MkConn {N Q}.
#[global] Arguments netConn {N Q}. #[global] Arguments config {N Q}.
#[global] Arguments parser {N Q}. #[global] Arguments parseResult {N Q}.
#[global] Arguments negotiator {N Q}. #[global] Arguments readBuf {N Q}.
#[global] Arguments readScratch {N Q}. #[global] Arguments writeBuf {N Q}.
#[global] Arguments events {N Q}. #[global] Arguments eventDone {N Q}.
#[global] Arguments closed {N Q}.
#[global] Arguments readLineCR {N Q}. #[global] Arguments termType {N Q}.
#[global] Arguments termWidth {N Q}. #[global] Arguments termHeight {N Q}.
#[global] Arguments stats {N Q}.

(** ** Field updates *)

Definition stats_update (s : ConnStats) (read written sent negotiated subneg : Z) : ConnStats :=
  MkStats (u64 (BytesRead s + read)) (u64 (BytesWritten s + written)) (CommandsRecv s)
          (u64 (CommandsSent s + sent)) (u64 (OptionsNegotiated s + negotiated))
          (u64 (Subnegotiations s + subneg)) (Errors s).

Section Setters.
  Context {N Q : Type}.
  Implicit Type c : Conn N Q.

Definition set_netConn c n : Conn N Q :=
  MkConn n (config c) (parser c) (parseResult c) (negotiator c) (readBuf c) (readScratch c)
    (writeBuf c) (events c) (eventDone c) (closed c) (readLineCR c) (termType c) (termWidth c) (termHeight c) (stats c).
Definition set_parse c p r : Conn N Q :=
  MkConn (netConn c) (config c) p r (negotiator c) (readBuf c) (readScratch c)
    (writeBuf c) (events c) (eventDone c) (closed c) (readLineCR c) (termType c) (termWidth c) (termHeight c) (stats c).
Definition set_negotiator c n : Conn N Q :=
  MkConn (netConn c) (config c) (parser c) (parseResult c) n (readBuf c) (readScratch c)
    (writeBuf c) (events c) (eventDone c) (closed c) (readLineCR c) (termType c) (termWidth c) (termHeight c) (stats c).
Definition set_readBuf c q : Conn N Q :=
  MkConn (netConn c) (config c) (parser c) (parseResult c) (negotiator c) q (readScratch c)
    (writeBuf c) (events c) (eventDone c) (closed c) (readLineCR c) (termType c) (termWidth c) (termHeight c) (stats c).
Definition set_readScratch c s : Conn N Q :=
  MkConn (netConn c) (config c) (parser c) (parseResult c) (negotiator c) (readBuf c) s
    (writeBuf c) (events c) (eventDone c) (closed c) (readLineCR c) (termType c) (termWidth c) (termHeight c) (stats c).
Definition set_writeBuf c w : Conn N Q :=
  MkConn (netConn c) (config c) (parser c) (parseResult c) (negotiator c) (readBuf c) (readScratch c)
    w (events c) (eventDone c) (closed c) (readLineCR c) (termType c) (termWidth c) (termHeight c) (stats c).
Definition set_events c e : Conn N Q :=
  MkConn (netConn c) (config c) (parser c) (parseResult c) (negotiator c) (readBuf c) (readScratch c)
    (writeBuf c) e (eventDone c) (closed c) (readLineCR c) (termType c) (termWidth c) (termHeight c) (stats c).
Definition set_eventDone c d : Conn N Q :=
  MkConn (netConn c) (config c) (parser c) (parseResult c) (negotiator c) (readBuf c) (readScratch c)
    (writeBuf c) (events c) d (closed c) (readLineCR c) (termType c) (termWidth c) (termHeight c) (stats c).
Definition set_closed c b : Conn N Q :=
  MkConn (netConn c) (config c) (parser c) (parseResult c) (negotiator c) (readBuf c) (readScratch c)
    (writeBuf c) (events c) (eventDone c) b (readLineCR c) (termType c) (termWidth c) (termHeight c) (stats c).
Definition set_readLineCR c b : Conn N Q :=
  MkConn (netConn c) (config c) (parser c) (parseResult c) (negotiator c) (readBuf c) (readScratch c)
    (writeBuf c) (events c) (eventDone c) (closed c) b (termType c) (termWidth c) (termHeight c) (stats c).
Definition set_terminal c t w h : Conn N Q :=
  MkConn (netConn c) (config c) (parser c) (parseResult c) (negotiator c) (readBuf c) (readScratch c)
    (writeBuf c) (events c) (eventDone c) (closed c) (readLineCR c) t w h (stats c).
Definition set_stats c s : Conn N Q :=
  MkConn (netConn c) (config c) (parser c) (parseResult c) (negotiator c) (readBuf c) (readScratch c)
    (writeBuf c) (events c) (eventDone c) (closed c) (readLineCR c) (termType c) (termWidth c) (termHeight c) s.
End Setters.

(** ** Options by configuration *)

Definition isOptionSupported (opt : Z) : bool :=
  existsb (Z.eqb opt)
    [OptBinary; OptEcho; OptSGA; OptNAWS; OptTerminalType; OptTermSpeed; OptNewEnviron;
     OptCharset; OptMCCP2; OptMCCP3; OptMSDP; OptGMCP; OptMSSP; OptMCP].

Definition isOptionEnabledLocally (cfg : Config) (opt : Z) : bool :=
  if opt =? OptBinary then EnableBinary cfg
  else if opt =? OptEcho then EnableEcho cfg
  else if opt =? OptSGA then EnableSGA cfg
  else if opt =? OptNAWS then EnableNAWS cfg
  else if opt =? OptTerminalType then EnableTType cfg
  else if opt =? OptTermSpeed then EnableTermSpeed cfg
  else if opt =? OptNewEnviron then EnableNewEnviron cfg
  else if opt =? OptCharset then EnableCharset cfg
  else if opt =? OptMCCP2 then EnableMCCP2 cfg
  else if opt =? OptMCCP3 then EnableMCCP3 cfg
  else if opt =? OptMSDP then EnableMSDP cfg
  else if opt =? OptGMCP then EnableGMCP cfg
  else if opt =? OptMSSP then EnableMSSP cfg
  else if opt =? OptMCP then EnableMCP cfg
  else false.

Section Conn.
  Context {N Q : Type} `{NetConn N} `{GrowPolicy}.
  Implicit Type c : Conn N Q.

(** ** Writing *)

(** [c.writeBuf.buf = append(c.writeBuf.buf, p...)], its length and its capacity *)
Definition w_append c (p : bytes) : Conn N Q :=
  set_writeBuf c (MkSB (sl_append (sbuf (writeBuf c)) p) (limit (writeBuf c))).
Definition w_len c : Z := sl_len (sbuf (writeBuf c)).
Definition w_cap c : Z := sl_cap (sbuf (writeBuf c)).

Definition flushLocked c : Conn N Q * option error :=
  if w_len c =? 0 then (c, None)
  else
    let '(nc, (n, err)) := net_Write (netConn c) (sl_bytes (sbuf (writeBuf c))) in
    let c := set_netConn c nc in
    let c := if 0 <? n then set_stats c (stats_update (stats c) 0 n 0 0 0) else c in
    match err with
    | Some e => (c, Some e)
    | None => (set_writeBuf c (MkSB (MkSlice (sl_arr (sbuf (writeBuf c))) 0) (limit (writeBuf c))), None)
    end.

Definition Flush c : Conn N Q * option error := flushLocked c.

(** The loop of [Write]: [n] counts the bytes consumed. *)
Fixpoint write_loop c (n : Z) (p : bytes) : Conn N Q * (Z * option error) :=
  match p with
  | [] => (c, (n, None))
  | b :: p' =>
      let '(c, ferr) := if w_cap c <=? w_len c then flushLocked c else (c, None) in
      match ferr with
      | Some e => (c, (n, Some e))
      | None =>
          let c := w_append c [b] in
          let c := if b =? CmdIAC then w_append c [CmdIAC] else c in
          write_loop c (n + 1) p'
      end
  end.

Definition Write c (p : bytes) : Conn N Q * (Z * option error) :=
  if closed c then (c, (0, Some ErrConnClosed))
  else
    let needsEscape := existsb (fun b => b =? CmdIAC) p in
    if negb needsEscape && (w_len c + zlen p <=? w_cap c)
    then (w_append c p, (zlen p, None))
    else write_loop c 0 p.

Definition WriteByte c (b : byte) : Conn N Q * option error :=
  let '(c, (_, err)) := Write c [b] in (c, err).
Definition WriteString c (s : bytes) : Conn N Q * (Z * option error) := Write c s.

Definition SendCommand c (command opt : Z) : Conn N Q * option error :=
  if closed c then (c, Some ErrConnClosed)
  else
    let '(c, ferr) := if w_cap c <? w_len c + 3 then flushLocked c else (c, None) in
    match ferr with
    | Some e => (c, Some e)
    | None =>
        let c := w_append c [CmdIAC; command; opt] in
        (set_stats c (stats_update (stats c) 0 0 1 0 0), None)
    end.

(** [required := 3 + len(data) + 2], and one more for each IAC. *)
Definition sn_required (data : bytes) : Z :=
  foldl (fun required b => if b =? CmdIAC then required + 1 else required)
        (3 + zlen data + 2) data.

Definition sn_append c (b : byte) : Conn N Q :=
  let c := w_append c [b] in if b =? CmdIAC then w_append c [CmdIAC] else c.

Definition SendSubnegotiation c (opt : Z) (data : bytes) : Conn N Q * option error :=
  if closed c then (c, Some ErrConnClosed)
  else
    let '(c, ferr) := if w_cap c <? w_len c + sn_required data then flushLocked c else (c, None) in
    match ferr with
    | Some e => (c, Some e)
    | None =>
        let c := w_append c [CmdIAC; CmdSB; opt] in
        let c := foldl sn_append c data in
        (w_append c [CmdIAC; CmdSE], None)
    end.

Definition SendNAWS c (width height : Z) : Conn N Q * option error :=
  SendSubnegotiation c OptNAWS
    [u8 (Z.shiftr width 8); u8 width; u8 (Z.shiftr height 8); u8 height].

Definition SendTType c (term : bytes) : Conn N Q * option error :=
  SendSubnegotiation c OptTerminalType (0 :: term).

(** [if enabled { c.SendCommand(CmdWill, opt) }]: the error is ignored. *)
Definition offer (enabled : bool) (opt : Z) c : Conn N Q :=
  if enabled then (SendCommand c CmdWill opt).1 else c.

Definition negotiateInitial c : Conn N Q :=
  let cfg := config c in
  let c := offer (EnableBinary cfg) OptBinary c in
  let c := offer (EnableSGA cfg) OptSGA c in
  let c := offer (EnableEcho cfg) OptEcho c in
  let c := offer (EnableNAWS cfg) OptNAWS c in
  let c := if EnableNAWS cfg then (SendNAWS c (TerminalWidth cfg) (TerminalHeight cfg)).1 else c in
  let c := offer (EnableTType cfg) OptTerminalType c in
  let c := offer (EnableTermSpeed cfg) OptTermSpeed c in
  let c := offer (EnableNewEnviron cfg) OptNewEnviron c in
  let c := offer (EnableCharset cfg) OptCharset c in
  let c := offer (EnableMCCP2 cfg) OptMCCP2 c in
  let c := offer (EnableMCCP3 cfg) OptMCCP3 c in
  let c := offer (EnableMSDP cfg) OptMSDP c in
  let c := offer (EnableGMCP cfg) OptGMCP c in
  let c := offer (EnableMSSP cfg) OptMSSP c in
  let c := offer (EnableMCP cfg) OptMCP c in
  (Flush c).1.

(** ** Events: a channel of 256 *)

Definition event_cap : nat := 256.

(** When the channel is full the oldest event is dropped. (The dispatcher is the
    other end: see [dispatch].) *)
Definition pushEvent c (e : event) : Conn N Q :=
  if closed c then c
  else match events c with
  | None => c
  | Some es =>
      if bool_decide (length es < event_cap)%nat then set_events c (Some (es ++ [e]))
      else match es with
           | _ :: es' => set_events c (Some (es' ++ [e]))
           | [] => c
           end
  end.

(** The calls the dispatcher makes. *)
Inductive handler_call :=
  | OnData (data : list Z)
  | OnCommand (command option : Z)
  | OnSubnegotiation (option : Z) (data : list Z)
  | OnError (msg : list Z).

(** One iteration of [eventDispatcher] that receives an event. The data is read
    through the event's window when the handler runs. *)
Definition dispatch c : option (Conn N Q * handler_call) :=
  match events c with
  | Some (e :: es) =>
      let data := take (Z.to_nat (ev_data e)) (sl_arr (sbuf (snBuf (parser c)))) in
      Some (set_events c (Some es),
            match ev_typ e with
            | eventData => OnData data
            | eventCommand => OnCommand (ev_cmd e) (ev_option e)
            | eventSubnegotiation => OnSubnegotiation (ev_option e) data
            | eventError => OnError data
            end)
  | _ => None
  end.

(** The adapter: callbacks on a world [W], each of which may be nil. *)
Record EventHandlerFunc (W : Type) := MkHandler {
  DataFunc : option (list Z -> W -> W);
  CmdFunc : option (Z -> Z -> W -> W);
  SNFunc : option (Z -> list Z -> W -> W);
  ErrFunc : option (list Z -> W -> W)
}.
#[global] Arguments MkHandler {W}. #[global] Arguments DataFunc {W}. #[global] Arguments CmdFunc {W}.
#[global] Arguments SNFunc {W}. #[global] Arguments ErrFunc {W}.

Definition handler_On {W} (f : EventHandlerFunc W) (call : handler_call) (w : W) : W :=
  match call with
  | OnData data => if DataFunc f is Some g then g data w else w
  | OnCommand command opt => if CmdFunc f is Some g then g command opt w else w
  | OnSubnegotiation opt data => if SNFunc f is Some g then g opt data w else w
  | OnError msg => if ErrFunc f is Some g then g msg w else w
  end.

(** ** Processing input *)

(** [uint16(hi)<<8 | uint16(lo)] *)
Definition be16 (hi lo : byte) : Z := Z.lor (u16 (Z.shiftl hi 8)) lo.

Definition handleSubnegotiation c (opt : Z) (data : bytes) : Conn N Q :=
  if opt =? OptTerminalType then
    match data with
    | b :: rest =>
        if (1 <? zlen data) && (b =? 0)
        then set_terminal c (Some rest) (termWidth c) (termHeight c) else c
    | [] => c
    end
  else if opt =? OptNAWS then
    match data with
    | d0 :: d1 :: d2 :: d3 :: _ => set_terminal c (termType c) (be16 d0 d1) (be16 d2 d3)
    | _ => c
    end
  else c.

(** The body of the loop over command events. *)
Definition process_command c (ce : CommandEvent) : Conn N Q :=
  let command := ce_Command ce in
  let opt := ce_Option ce in
  let ev := MkEvent eventCommand command opt 0 in
  if (command =? CmdDo) && negb (isOptionEnabledLocally (config c) opt) then
    pushEvent (SendCommand c CmdWont opt).1 ev
  else if (command =? CmdWill) && negb (isOptionSupported opt) then
    pushEvent (SendCommand c CmdDont opt).1 ev
  else
    let '(n, (resp, changed)) := Handle (negotiator c) command opt in
    let c := set_negotiator c n in
    let c := if negb (resp =? 0) then (SendCommand c resp opt).1 else c in
    let c := if changed then set_stats c (stats_update (stats c) 0 0 0 1 0) else c in
    pushEvent c ev.

(** The body of the loop over subnegotiation events. *)
Definition process_sn c (sn : SubnegotiationEvent) : Conn N Q :=
  let data := take (Z.to_nat (se_Data sn)) (sl_arr (sbuf (snBuf (parser c)))) in
  let c := set_stats c (stats_update (stats c) 0 0 0 0 1) in
  let c := handleSubnegotiation c (se_Option sn) data in
  pushEvent c (MkEvent eventSubnegotiation 0 (se_Option sn) (se_Data sn)).

Section Reading.
  Context `{ByteQueue Q}.

(** The loop over data events: what does not fit the queue is dropped. *)
Fixpoint process_data c (data : bytes) (evs : list DataEvent) : option (Conn N Q) :=
  match evs with
  | [] => Some c
  | ev :: evs' =>
      if 0 <? de_Length ev then
        '(q, _) ← q_Write (readBuf c) (win_bytes data (de_Data ev));
        process_data (set_readBuf c q) data evs'
      else process_data c data evs'
  end.

Definition processReadLocked c (data : bytes) : option (Conn N Q) :=
  let '(p, r) := Parse (parser c) data (parseResult c) in
  let c := set_parse c p r in
  c ← process_data c data (DataEvents r);
  let c := foldl process_command c (CommandEvents r) in
  let c := foldl process_sn c (SNEvents r) in
  Some c.

Definition read_queue c (plen : Z) : option (Conn N Q * (bytes * option error)) :=
  '(q, res) ← q_Read (readBuf c) plen; Some (set_readBuf c q, res).

(** [readLocked] into a buffer of length [plen]: the bytes copied and the error.
    Every path through the body of the code's loop returns. *)
Definition readLocked c (plen : Z) : option (Conn N Q * (bytes * option error)) :=
  if 0 <? q_Len (readBuf c) then read_queue c plen
  else
    let '(nc, (data, err)) := net_Read (netConn c) (sl_len (readScratch c)) in
    let c := set_netConn c nc in
    let c := set_readScratch c
               (MkSlice (write_at (sl_arr (readScratch c)) 0 data) (sl_len (readScratch c))) in
    c ← (if 0 <? zlen data then
           processReadLocked (set_stats c (stats_update (stats c) (zlen data) 0 0 0 0)) data
         else Some c);
    match err with
    | Some e =>
        if 0 <? q_Len (readBuf c) then read_queue c plen
        else if errors_Is e EOF then Some (c, ([], Some EOF))
        else Some (c, ([], Some e))
    | None =>
        if zlen data =? 0 then Some (c, ([], None))
        else if 0 <? q_Len (readBuf c) then read_queue c plen
        else Some (c, ([], None))
    end.

Definition Read c (plen : Z) : option (Conn N Q * (bytes * option error)) :=
  if closed c then Some (c, ([], Some ErrConnClosed)) else readLocked c plen.

(** The index of the first line feed. *)
Fixpoint find_lf (buf : bytes) : option nat :=
  match buf with
  | [] => None
  | b :: buf' => if b =? 10 then Some 0%nat else S <$> find_lf buf'
  end.

(** One iteration of [ReadLine]'s loop: the line so far, or the values returned. *)
Definition ReadLine_iter c (line : bytes) : option (Conn N Q * (bytes + (bytes * option error))) :=
  '(c, (buf, err)) ← readLocked c 1024;
  match find_lf buf with
  | Some i =>
      let '(end_, line) :=
        if (0 <? Z.of_nat i) && bool_decide (buf !! (i - 1)%nat = Some 13) then ((i - 1)%nat, line)
        else if (Z.of_nat i =? 0) && readLineCR c then
          (i, if 0 <? zlen line then take (length line - 1) line else line)
        else (i, line) in
      let line := line ++ take end_ buf in
      c ← (if Z.of_nat i + 1 <? zlen buf
           then '(q, _) ← q_Write (readBuf c) (drop (i + 1) buf); Some (set_readBuf c q)
           else Some c);
      Some (set_readLineCR c false, inr (line, None))
  | None =>
      let '(c, line) :=
        if 0 <? zlen buf
        then (set_readLineCR c (bool_decide (last buf = Some 13)), line ++ buf)
        else (set_readLineCR c false, line) in
      match err with
      | Some e => Some (c, inr (line, Some e))
      | None => Some (c, inl line)
      end
  end.

(** The outcome of a bounded number of iterations. *)
Inductive line_outcome :=
  | LineDone (c : Conn N Q) (line : list Z) (err : option error)
  | LinePanic
  | LineRunning (c : Conn N Q) (line : list Z).

Fixpoint ReadLine_loop (fuel : nat) c (line : bytes) : line_outcome :=
  match fuel with
  | O => LineRunning c line
  | S fuel' =>
      match ReadLine_iter c line with
      | None => LinePanic
      | Some (c', inl line') => ReadLine_loop fuel' c' line'
      | Some (c', inr (line', err)) => LineDone c' line' err
      end
  end.

Definition ReadLine (fuel : nat) c : line_outcome := ReadLine_loop fuel c [].
End Reading.

Definition TerminalType c : bytes := default [] (termType c).
Definition TerminalSize c : Z * Z := (u16 (termWidth c), u16 (termHeight c)).
Definition Stats c : ConnStats := stats c.
End Conn.

(** ** Construction and closing: the queue is a [Ring] *)

Section Lifecycle.
  Context {N : Type} `{NetConn N} `{GrowPolicy}.

(** The three buffers come from the pools: [choices] are those of [sync.Pool]. *)
Definition NewConn (choices : nat * nat * nat) (P : Pools) (nc : N) (cfg : Config)
    : option (Conn N Ring * Pools) :=
  let rsize := if ReadBufferSize cfg <=? 0 then 64 * 1024 else ReadBufferSize cfg in
  let wsize := if WriteBufferSize cfg <=? 0 then 64 * 1024 else WriteBufferSize cfg in
  let cfg :=
    MkConfig (EnableBinary cfg) (EnableEcho cfg) (EnableSGA cfg) (EnableNAWS cfg)
      (EnableTType cfg) (EnableTermSpeed cfg) (EnableNewEnviron cfg) (EnableCharset cfg)
      (EnableMCCP2 cfg) (EnableMCCP3 cfg) (EnableMSDP cfg) (EnableGMCP cfg) (EnableMSSP cfg)
      (EnableMCP cfg) (TerminalTypeName cfg) (TerminalWidth cfg) (TerminalHeight cfg)
      rsize wsize (EventHandler cfg) (LineMode cfg) in
  '(ring, P) ← NewRing choices.1.1 P (ReadBufferSize cfg);
  '(scratch, P) ← getBuf choices.1.2 P (ReadBufferSize cfg);
  '(wb, P) ← getBuf choices.2 P (WriteBufferSize cfg);
  let c :=
    MkConn nc cfg NewParser empty_result NewNegotiator ring scratch
      (MkSB (MkSlice (sl_arr wb) 0) 0)
      (if EventHandler cfg then Some [] else None) (if EventHandler cfg then Some false else None)
      false false None 0 0 (MkStats 0 0 0 0 0 0 0) in
  Some (negotiateInitial c, P).

(** [Close], when no other goroutine is inside [Read] or [Write] and the dispatcher is in
    its [select]: told by [eventDone] it returns, and [eventWg.Wait()] with it. ([ConnShared]
    has the steps of [Close] and of the dispatcher.) *)
Definition stop_dispatcher (c : Conn N Ring) : Conn N Ring :=
  if eventDone c is Some _ then set_eventDone c (Some true) else c.

Definition Close (c : Conn N Ring) (P : Pools) : Conn N Ring * Pools * option error :=
  if closed c then (c, P, Some ErrConnClosed)
  else
    let c := set_closed c true in
    let c := (Flush c).1 in
    let c := stop_dispatcher c in
    let '(q, P) := RingBuf.Free (readBuf c) P in
    let c := set_readBuf c q in
    let '(w, P) := StaticBuf.Free (writeBuf c) P in
    let c := set_writeBuf c w in
    let P := putBuf P (readScratch c) in
    let '(nc, err) := net_Close (netConn c) in
    (set_netConn c nc, P, err).
End Lifecycle.
