(* ===== verification/ConnWriter.v ===== *)
(** * ConnWriter: what a connection sends.

    The abstract state of the sending side is one byte string: what the network
    took, followed by what the buffer holds ([out]). Every sending operation
    appends the wire form of what it was given; an error tells that a flush failed,
    and then exactly which bytes will be sent twice. *)
From stdpp Require Import relations.
From S2P Require Import Prelude Constants GoSlice Pool ByteQueue RingBuf StaticBuf TelnetParser ParserSpec ParserProps Wire Options NetConn TelnetConn.

(** Of a connection, [stop_dispatcher] changes the channel only. *)
Lemma stop_dispatcher_is {N} `{NetConn N} (c : Conn N Ring) :
  stop_dispatcher c = set_eventDone c (if eventDone c is Some _ then Some true else None).
Proof. unfold stop_dispatcher. destruct c as [? ? ? ? ? ? ? ? ? []]; done. Qed.

Section Writer.
  Context {N Q : Type} `{NetConnLaws N} `{GrowPolicy}.
  Implicit Type c : Conn N Q.

Definition w_bytes c : bytes := sl_bytes (sbuf (writeBuf c)).
Definition out c : bytes := net_sent (netConn c) ++ w_bytes c.
Definition wr_wf c : Prop := sl_wf (sbuf (writeBuf c)).

(** The network has seen writes only. *)
Definition net_writes : N -> N -> Prop := rtc (fun n n' => exists p, n' = (net_Write n p).1).

(** What sending never touches. *)
Record frame c c' : Prop := {
  fr_config : config c' = config c;
  fr_parser : parser c' = parser c;
  fr_parseResult : parseResult c' = parseResult c;
  fr_negotiator : negotiator c' = negotiator c;
  fr_readBuf : readBuf c' = readBuf c;
  fr_readScratch : readScratch c' = readScratch c;
  fr_events : events c' = events c /\ eventDone c' = eventDone c;
  fr_closed : closed c' = closed c;
  fr_readLineCR : readLineCR c' = readLineCR c;
  fr_terminal : termType c' = termType c /\ termWidth c' = termWidth c /\ termHeight c' = termHeight c;
  fr_incoming : net_incoming (netConn c') = net_incoming (netConn c);
  fr_net : net_writes (netConn c) (netConn c')
}.

#[export] Instance frame_preorder : PreOrder frame.
Proof using Type.
  split; [by split|]. intros c1 c2 c3 [] []. split; try congruence; [intuition congruence..|].
  by etrans.
Qed.

(** After a failed flush: the network took [s] and then [k] of the bytes that are
    still in the buffer. *)
Definition resend (total : bytes) c' : Prop :=
  exists s k, s ++ w_bytes c' = total /\ 0 <= k <= zlen (w_bytes c') /\
    net_sent (netConn c') = s ++ take (Z.to_nat k) (w_bytes c').

Record sends c c' (e : option error) (l : bytes) : Prop := {
  sd_frame : frame c c';
  sd_wf : wr_wf c';
  sd_out : match e with None => out c' = out c ++ l | Some _ => resend (out c ++ l) c' end
}.

Lemma sends_trans c c1 c2 e l1 l2 :
  sends c c1 None l1 -> sends c1 c2 e l2 -> sends c c2 e (l1 ++ l2).
Proof using Type.
  intros [F1 _ O1] [F2 W2 O2]. split; [by etrans|done|].
  rewrite app_assoc, <- O1. done.
Qed.

Lemma sends_refl c : wr_wf c -> sends c c None [].
Proof using Type. intros Hc. split; [done|done|]. by rewrite app_nil_r. Qed.

(** Statistics are not part of the stream. *)
Lemma sends_set_stats c c' e l s : sends c c' e l -> sends c (set_stats c' s) e l.
Proof using Type. intros [[] W O]. split; [by split|done|]. by destruct e. Qed.

Lemma w_append_ok c p : wr_wf c -> sends c (w_append c p) None p.
Proof using Type.
  intros Hc. split; [done| |].
  - unfold wr_wf. simpl. by apply sl_append_wf.
  - unfold out, w_bytes. simpl. by rewrite sl_append_bytes, app_assoc.
Qed.

Lemma flushLocked_ok c :
  wr_wf c -> let '(c', e) := flushLocked c in
  sends c c' e [] /\ (e = None -> w_bytes c' = []) /\ w_cap c' = w_cap c.
Proof using Type.
  intros Hc. pose proof (sl_bytes_len _ Hc) as Hl. unfold flushLocked, w_len.
  destruct (Z.eqb_spec (sl_len (sbuf (writeBuf c))) 0) as [E|E].
  { split; [by apply sends_refl|]. split; [|done]. intros _. unfold w_bytes, sl_bytes. by rewrite E. }
  pose proof (net_Write_ok (netConn c) (sl_bytes (sbuf (writeBuf c)))) as Hw.
  destruct (net_Write _ _) as [nc [k err]] eqn:Ew. destruct Hw as (Hk & Hshort & Hsent & Hin).
  assert (Hnet : net_writes (netConn c) nc).
  { apply rtc_once. exists (sl_bytes (sbuf (writeBuf c))). by rewrite Ew. }
  assert (Hf : forall c', frame c c' ->
    frame c (if 0 <? k then set_stats c' (stats_update (stats c') 0 k 0 0 0) else c')).
  { intros c' []. by destruct (0 <? k). }
  destruct err as [e|].
  - split; [|by destruct (0 <? k)]. split; [by apply Hf; split|by destruct (0 <? k)|].
    exists (net_sent (netConn c)), k. rewrite app_nil_r. by destruct (0 <? k).
  - assert (Hk' : k = zlen (w_bytes c)).
    { destruct (Z.eq_dec k (zlen (w_bytes c))); [done|]. destruct Hshort; [|done].
      fold (w_bytes c) in *. lia. }
    fold (w_bytes c) in Hsent. rewrite Hk', take_ge in Hsent by zl.
    split; [|by destruct (0 <? k)]. split; [by destruct (0 <? k)| |].
    + unfold wr_wf, sl_wf in *. destruct (0 <? k); simpl; unfold sl_cap in *; simpl; lia.
    + rewrite app_nil_r. unfold out. rewrite <- Hsent.
      destruct (0 <? k); simpl; by rewrite app_nil_r.
Qed.

(** [if <no room> { flush }], as the senders begin. *)
Lemma maybe_flush_ok (b : bool) c :
  wr_wf c -> let '(c', e) := if b then flushLocked c else (c, None) in sends c c' e [].
Proof using Type.
  intros Hc. pose proof (flushLocked_ok c Hc) as Hf.
  destruct b; [|by apply sends_refl]. destruct (flushLocked c). apply Hf.
Qed.

Lemma write_loop_ok p : forall c n,
  wr_wf c -> let '(c', (m, e)) := write_loop c n p in
  sends c c' e (escape (take (Z.to_nat (m - n)) p)) /\ n <= m <= n + zlen p /\
  match e with None => m = n + zlen p | Some _ => m < n + zlen p end.
Proof using Type.
  induction p as [|b p IH]; intros c n Hc; cbn [write_loop].
  { rewrite take_nil. split; [by apply sends_refl|]. zl. }
  pose proof (maybe_flush_ok (w_cap c <=? w_len c) c Hc) as Hf.
  destruct (if w_cap c <=? w_len c then _ else _) as [c1 [e|]].
  { rewrite Z.sub_diag. split; [done|]. zl. }
  pose proof (w_append_ok c1 [b] (sd_wf _ _ _ _ Hf)) as Ha.
  set (c2 := if b =? CmdIAC then _ else _).
  assert (H2 : sends c1 c2 None (if b =? CmdIAC then [CmdIAC; CmdIAC] else [b])).
  { unfold c2. destruct (Z.eqb_spec b CmdIAC) as [->|]; [|done].
    apply (sends_trans _ _ _ _ _ _ Ha), w_append_ok, Ha. }
  pose proof (IH c2 (n + 1) (sd_wf _ _ _ _ H2)) as Hl.
  destruct (write_loop c2 (n + 1) p) as [c3 [m e]]. destruct Hl as (Hs & Hm & He).
  rewrite zlen_cons. split; [|destruct e; lia].
  replace (Z.to_nat (m - n)) with (S (Z.to_nat (m - (n + 1)))) by lia.
  rewrite firstn_cons, escape_cons. rewrite <- (app_nil_l (_ ++ _)).
  eapply sends_trans; [exact Hf|]. by eapply sends_trans.
Qed.

Lemma needsEscape_spec p : existsb (fun b => b =? CmdIAC) p = true <-> CmdIAC ∈ p.
Proof using Type.
  rewrite existsb_exists. split.
  - intros (x & Hx & E). apply list_elem_of_In. by apply Z.eqb_eq in E as <-.
  - intros Hin. exists CmdIAC. split; [by apply list_elem_of_In|done].
Qed.

Lemma Write_ok c p :
  wr_wf c -> closed c = false -> let '(c', (n, e)) := Write c p in
  sends c c' e (escape (take (Z.to_nat n) p)) /\ 0 <= n <= zlen p /\
  match e with None => n = zlen p | Some _ => n < zlen p end.
Proof using Type.
  intros Hc Ho. unfold Write. rewrite Ho. destruct (_ && _) eqn:E.
  - apply andb_prop in E as [E _]. apply negb_true_iff in E.
    assert (Hn : CmdIAC ∉ p) by (rewrite <- needsEscape_spec; congruence).
    unfold zlen. rewrite Nat2Z.id, firstn_all, escape_no_IAC by done.
    split; [by apply w_append_ok|]. lia.
  - pose proof (write_loop_ok p c 0 Hc) as Hl. destruct (write_loop c 0 p) as [c' [n e]].
    by rewrite Z.sub_0_r in Hl.
Qed.

Lemma SendCommand_ok c command opt :
  wr_wf c -> closed c = false -> let '(c', e) := SendCommand c command opt in
  sends c c' e (if e is None then wire_command command opt else []).
Proof using Type.
  intros Hc Ho. unfold SendCommand. rewrite Ho.
  pose proof (maybe_flush_ok (w_cap c <? w_len c + 3) c Hc) as Hf.
  destruct (if w_cap c <? w_len c + 3 then _ else _) as [c1 [e|]]; [done|].
  apply sends_set_stats. change (wire_command command opt) with ([] ++ wire_command command opt).
  eapply sends_trans; [done|]. apply w_append_ok, Hf.
Qed.

Lemma sn_append_ok l : forall c, wr_wf c -> sends c (foldl sn_append c l) None (escape l).
Proof using Type.
  induction l as [|b l IH]; intros c Hc; [by apply sends_refl|].
  rewrite escape_cons. cbn [foldl].
  assert (Hs : sends c (sn_append c b) None (if b =? CmdIAC then [CmdIAC; CmdIAC] else [b])).
  { unfold sn_append. pose proof (w_append_ok c [b] Hc) as Ha.
    destruct (Z.eqb_spec b CmdIAC) as [->|]; [|done].
    apply (sends_trans _ _ _ _ _ _ Ha), w_append_ok, Ha. }
  eapply sends_trans; [exact Hs|]. apply IH, Hs.
Qed.

Lemma SendSubnegotiation_ok c opt data :
  wr_wf c -> closed c = false -> let '(c', e) := SendSubnegotiation c opt data in
  sends c c' e (if e is None then wire_sub opt data else []).
Proof using Type.
  intros Hc Ho. unfold SendSubnegotiation. rewrite Ho.
  pose proof (maybe_flush_ok (w_cap c <? w_len c + sn_required data) c Hc) as Hf.
  destruct (if w_cap c <? w_len c + sn_required data then _ else _) as [c1 [e|]]; [done|].
  pose proof (w_append_ok c1 [CmdIAC; CmdSB; opt] (sd_wf _ _ _ _ Hf)) as Hs1.
  pose proof (sn_append_ok data _ (sd_wf _ _ _ _ Hs1)) as Hs2.
  pose proof (w_append_ok _ [CmdIAC; CmdSE] (sd_wf _ _ _ _ Hs2)) as Hs3.
  change (wire_sub opt data) with ([] ++ [CmdIAC; CmdSB; opt] ++ escape data ++ [CmdIAC; CmdSE]).
  eapply sends_trans; [done|]. eapply sends_trans; [done|]. by eapply sends_trans.
Qed.

(** ** Sequences of sending operations *)

Inductive send_op :=
  | SWrite (p : list Z) | SWriteByte (b : Z) | SWriteString (s : list Z)
  | SCommand (command opt : Z) | SSubnegotiation (opt : Z) (data : list Z)
  | SNAWS (w h : Z) | STType (term : list Z) | SFlush.

Definition exec_send c (o : send_op) : Conn N Q * option error :=
  match o with
  | SWrite p => let '(c, (_, e)) := Write c p in (c, e)
  | SWriteByte b => WriteByte c b
  | SWriteString s => let '(c, (_, e)) := WriteString c s in (c, e)
  | SCommand k opt => SendCommand c k opt
  | SSubnegotiation opt data => SendSubnegotiation c opt data
  | SNAWS w h => SendNAWS c w h
  | STType t => SendTType c t
  | SFlush => Flush c
  end.

(** What each operation puts on the stream. *)
Definition send_items (o : send_op) : list item :=
  match o with
  | SWrite p | SWriteString p => [IText p]
  | SWriteByte b => [IText [b]]
  | SCommand k opt => [ICommand k opt]
  | SSubnegotiation opt data => [ISub opt data]
  | SNAWS w h => [ISub OptNAWS [u8 (Z.shiftr w 8); u8 w; u8 (Z.shiftr h 8); u8 h]]
  | STType t => [ISub OptTerminalType (0 :: t)]
  | SFlush => []
  end.

(** Run a sequence up to the first error. *)
Fixpoint exec_sends c (os : list send_op) : Conn N Q * option error :=
  match os with
  | [] => (c, None)
  | o :: os' =>
      match exec_send c o with
      | (c', None) => exec_sends c' os'
      | (c', Some e) => (c', Some e)
      end
  end.

Lemma Write_sends c p c' n :
  wr_wf c -> closed c = false -> Write c p = (c', (n, None)) -> sends c c' None (escape p).
Proof using Type.
  intros Hc Ho E. pose proof (Write_ok c p Hc Ho) as Hw. rewrite E in Hw.
  destruct Hw as (Hs & Hn & ->). by rewrite take_ge in Hs by zl.
Qed.

Lemma exec_send_ok c o c' :
  wr_wf c -> closed c = false -> exec_send c o = (c', None) ->
  sends c c' None (wire (send_items o)).
Proof using Type.
  intros Hc Ho E. assert (Hsub : forall opt data, SendSubnegotiation c opt data = (c', None) ->
    sends c c' None (wire [ISub opt data])).
  { intros opt data Hs. pose proof (SendSubnegotiation_ok c opt data Hc Ho) as Hk.
    rewrite Hs in Hk. unfold wire. cbn [mbind list_bind]. by rewrite app_nil_r. }
  assert (Hw : forall p n, Write c p = (c', (n, None)) -> sends c c' None (wire [IText p])).
  { intros p n Hw. unfold wire. cbn [mbind list_bind]. rewrite app_nil_r. by eapply Write_sends. }
  destruct o as [p|b|s|k opt|opt data|w h|t|]; cbn [exec_send send_items] in *.
  - destruct (Write c p) as [c1 [n e]] eqn:Ew. simplify_eq. by eapply Hw.
  - unfold WriteByte in E. destruct (Write c [b]) as [c1 [n e]] eqn:Ew. simplify_eq. by eapply Hw.
  - unfold WriteString in E. destruct (Write c s) as [c1 [n e]] eqn:Ew. simplify_eq. by eapply Hw.
  - pose proof (SendCommand_ok c k opt Hc Ho) as Hk. rewrite E in Hk.
    unfold wire. cbn [mbind list_bind]. by rewrite app_nil_r.
  - by apply Hsub.
  - by apply Hsub.
  - by apply Hsub.
  - pose proof (flushLocked_ok c Hc) as Hf. unfold Flush in E. rewrite E in Hf. apply Hf.
Qed.

Lemma exec_sends_ok os : forall c c',
  wr_wf c -> closed c = false -> exec_sends c os = (c', None) ->
  sends c c' None (wire (os ≫= send_items)).
Proof using Type.
  induction os as [|o os IH]; intros c c' Hc Ho E; cbn [exec_sends] in E.
  { simplify_eq. by apply sends_refl. }
  destruct (exec_send c o) as [c1 [e|]] eqn:E1; [done|].
  pose proof (exec_send_ok c o c1 Hc Ho E1) as Hs.
  cbn [mbind list_bind]. unfold wire. rewrite bind_app.
  eapply sends_trans; [exact Hs|]. apply IH; [apply Hs| |done].
  destruct Hs as [[] _ _]. congruence.
Qed.
End Writer.

(** ** Properties *)

Section Props.
  Context {N Q : Type} `{NetConnLaws N} `{GrowPolicy}.
  Implicit Type c : Conn N Q.

(** C3: what one side sends the other receives. After any sequence of [Write],
    [WriteByte], [WriteString], [SendCommand], [SendSubnegotiation], [SendNAWS],
    [SendTType] and [Flush] calls on an open connection that reported no error, followed by
    a successful [Flush], the network has taken exactly the pending bytes and the wire forms
    of the calls, in order, and nothing stays buffered. Let the commands among them be WILL,
    WONT, DO and DONT. Then a peer's parser at rest (between sequences) that is fed the new
    bytes in chunks is at rest again; and when no chunk fills the parser's event arrays
    (each gives less than 64 runs of data and less than 16 commands; beyond that the code
    drops events) it delivers exactly the text written and the commands sent, in order. *)
Theorem sent_items_arrive c os c1 c2 p chunks :
  wr_wf c -> closed c = false ->
  exec_sends c os = (c1, None) -> Flush c1 = (c2, None) ->
  let xs := os ≫= send_items in
  net_sent (netConn c2) = out c ++ wire xs /\ w_bytes c2 = [] /\ frame c c2 /\
  (parser_wf p -> alpha p = DData -> Forall item_ok xs -> concat chunks = wire xs ->
   let '(p', rs) := feed p chunks in
   alpha p' = DData /\
   (Forall (fun cr => not_full cr.2) rs ->
    fed_data rs = texts xs /\ fed_cmds rs = commands xs)).
Proof.
  intros Hc Ho E1 E2 xs. pose proof (exec_sends_ok os c c1 Hc Ho E1) as Hs.
  pose proof (flushLocked_ok c1 (sd_wf _ _ _ _ Hs)) as Hf. unfold Flush in E2. rewrite E2 in Hf.
  destruct Hf as (Hf & Hb & _). pose proof (sends_trans _ _ _ _ _ _ Hs Hf) as [F _ O].
  specialize (Hb eq_refl). rewrite app_nil_r in O. unfold out at 1 in O.
  rewrite Hb, app_nil_r in O. split; [done|]. split; [done|]. split; [done|].
  intros Hp Ha Hok Hch. pose proof (feed_decode chunks p Hp) as Hd. rewrite Hch, Ha in Hd.
  pose proof (decode_wire (sn_cap p) (sn_cap_nonneg p Hp) xs Hok) as Hw.
  destruct (feed p chunks) as [p' rs]. destruct (decode _ _ _) as [d os'].
  destruct Hw as (-> & <- & <- & _). done.
Qed.

(** C23: [Write] accounts for every byte. It reports the number [n] of bytes of [p] it
    consumed, all of them exactly when the error is nil; then the stream (network and
    buffer) has grown by the escaped form of [p]. When a flush fails in between, the
    stream is that of the first [n] bytes except that the part of the buffer the
    network took before failing stays in the buffer, to be sent a second time. *)
Theorem Write_accounts_for_every_byte c p :
  wr_wf c -> closed c = false ->
  exists c' n e, Write c p = (c', (n, e)) /\ wr_wf c' /\ frame c c' /\ 0 <= n <= zlen p /\
    (e = None <-> n = zlen p) /\
    (e = None -> out c' = out c ++ escape p) /\
    (e <> None -> exists s k, s ++ w_bytes c' = out c ++ escape (take (Z.to_nat n) p) /\
       0 <= k <= zlen (w_bytes c') /\
       out c' = s ++ take (Z.to_nat k) (w_bytes c') ++ w_bytes c').
Proof.
  intros Hc Ho. pose proof (Write_ok c p Hc Ho) as Hw.
  destruct (Write c p) as [c' [n e]]. destruct Hw as ([F W O] & Hn & He).
  exists c', n, e. split_and!; try done; try lia.
  - destruct e; split; done || lia.
  - intros ->. subst n. by rewrite take_ge in O by zl.
  - intros Hne. destruct e; [|done]. destruct O as (s & k & E & Hk & Hsent).
    exists s, k. split_and!; try done; try lia. unfold out. by rewrite Hsent, <- app_assoc.
Qed.

(** The output buffer is not bounded by its configured size: when a single cell is
    free, writing one IAC byte appends two without a second check, and the array is
    replaced by a larger one (which the pools will not take back). *)
Theorem Write_can_outgrow_buffer c :
  wr_wf c -> closed c = false -> w_len c = w_cap c - 1 ->
  exists c', Write c [CmdIAC] = (c', (1, None)) /\ w_cap c < w_cap c' /\
    netConn c' = netConn c /\ out c' = out c ++ [CmdIAC; CmdIAC].
Proof.
  intros Hc Ho Hl.
  set (c1 := w_append (w_append c [CmdIAC]) [CmdIAC]).
  assert (E : Write c [CmdIAC] = (c1, (1, None))).
  { unfold Write. rewrite Ho. cbn [existsb]. rewrite Z.eqb_refl. simpl.
    by destruct (Z.leb_spec (w_cap c) (w_len c)); [lia|]. }
  pose proof (w_append_ok c [CmdIAC] Hc) as H1'.
  pose proof (w_append_ok _ [CmdIAC] (sd_wf _ _ _ _ H1')) as H2'.
  pose proof (sd_out _ _ _ _ (sends_trans _ _ _ _ _ _ H1' H2')) as HO.
  exists c1. split_and!; [done| |done|done].
  pose proof (sd_wf _ _ _ _ H2') as Hwf. unfold wr_wf, sl_wf in Hwf.
  unfold w_len, w_cap in *. fold c1 in Hwf.
  assert (sl_len (sbuf (writeBuf c1)) = sl_len (sbuf (writeBuf c)) + 2); [|lia].
  unfold c1, w_append. simpl. rewrite !sl_append_len. unfold zlen; simpl. lia.
Qed.
End Props.

(** ** A concrete connection for the witnesses *)

#[local] Existing Instance doubling.

Definition plain_config : Config :=
  MkConfig false true true false false false false false false false false false false false
    [] 80 24 64 16 true false.

(** A connection over a scripted network that takes [room] bytes. *)
Definition script_conn (arrivals : list bytes) (room : Z) (written : bytes)
    : Conn ScriptConn RingBuf.Ring :=
  MkConn (Script arrivals [] room) plain_config NewParser empty_result NewNegotiator
    (RingBuf.MkRing (MkSlice (replicate 64%nat 0) 64) 63 0 0) (MkSlice (replicate 64%nat 0) 64)
    (MkSB (MkSlice (written ++ replicate (16 - length written) 0) (zlen written)) 0)
    (Some []) (Some false) false false None 0 0 (MkStats 0 0 0 0 0 0 0).

Lemma script_conn_wr_wf arrivals room written :
  (length written <= 16)%nat -> wr_wf (script_conn arrivals room written).
Proof.
  intros Hw. unfold wr_wf, script_conn, sl_wf, sl_cap, zlen; simpl.
  rewrite length_app, length_replicate. lia.
Qed.

Definition witness_ops : list send_op :=
  [SWrite [104; 255; 105]; SCommand CmdWill OptEcho; SNAWS 80 24; SWriteByte 33; SWrite [1;2;3;4;5;6]].
Definition witness_c1 := (exec_sends (script_conn [] 1000 [7]) witness_ops).1.

Lemma sent_items_arrive_witness :
  exists c2, Flush witness_c1 = (c2, None) /\
  net_sent (netConn c2) = 7 :: wire (witness_ops ≫= send_items) /\
  fed_data (feed NewParser [take 7 (wire (witness_ops ≫= send_items));
                            drop 7 (wire (witness_ops ≫= send_items))]).2
    = [104; 255; 105; 33; 1; 2; 3; 4; 5; 6].
Proof.
  exists (Flush witness_c1).1. split; [by vm_compute|].
  assert (E1 : exec_sends (script_conn [] 1000 [7]) witness_ops = (witness_c1, None)) by by vm_compute.
  assert (E2 : Flush witness_c1 = ((Flush witness_c1).1, None)) by by vm_compute.
  destruct (sent_items_arrive _ _ _ _ NewParser
    [take 7 (wire (witness_ops ≫= send_items)); drop 7 (wire (witness_ops ≫= send_items))]
    (script_conn_wr_wf [] 1000 [7] ltac:(simpl; lia)) eq_refl E1 E2) as (Hs & _ & _ & Hf).
  split; [exact Hs|].
  specialize (Hf NewParser_wf eq_refl ltac:(by repeat constructor) ltac:(by vm_compute)).
  revert Hf. destruct (feed _ _) as [p' rs] eqn:Ef. intros [_ Hf]. simpl.
  apply (f_equal snd) in Ef. simpl in Ef. subst rs.
  rewrite (proj1 (Hf ltac:(unfold not_full; by_decide))). by vm_compute.
Defined.

Lemma Write_accounts_for_every_byte_witness :
  let c := script_conn [] 5 [1; 2; 3; 4; 5; 6; 7; 8; 9; 10] in
  exists c' n e, Write c [65; 66; 67; 68; 69; 70; 71; 72] = (c', (n, e)) /\ n = 6 /\
    e = Some (NetError 1) /\
    out c' = [1; 2; 3; 4; 5] ++ [1; 2; 3; 4; 5; 6; 7; 8; 9; 10; 65; 66; 67; 68; 69; 70].
Proof.
  intros c.
  destruct (Write_accounts_for_every_byte c [65; 66; 67; 68; 69; 70; 71; 72]
    (script_conn_wr_wf [] 5 [1; 2; 3; 4; 5; 6; 7; 8; 9; 10] ltac:(simpl; lia)) eq_refl) as (c' & n & e & E & _).
  exists c', n, e. split; [exact E|]. vm_compute in E. simplify_eq. by vm_compute.
Defined.

Lemma Write_can_outgrow_buffer_witness :
  exists c', Write (script_conn [] 100 (replicate 15%nat 1)) [CmdIAC] = (c', (1, None)) /\
    16 < w_cap c' /\ log (netConn c') = [] /\ out c' = replicate 15%nat 1 ++ [255; 255].
Proof.
  destruct (Write_can_outgrow_buffer (script_conn [] 100 (replicate 15%nat 1))
    (script_conn_wr_wf [] 100 (replicate 15%nat 1) ltac:(simpl; lia)) eq_refl eq_refl) as (c' & E & Hc & Hn & Ho).
  exists c'. split; [exact E|]. split; [exact Hc|]. split; [by rewrite Hn|]. by rewrite Ho.
Defined.
