(* ===== verification/ConnReader.v ===== *)
(** * ConnReader: what a connection receives.

    The queue between the parser and the caller is any [ByteQueue]; the theorems
    use its laws only. [ahead] is the text still to be read: what is queued, then
    what the decoder makes of the bytes the network has not delivered yet. *)
From stdpp Require Import relations.
From S2P Require Import Prelude Constants GoSlice Pool ByteQueue RingBuf StaticBuf TelnetParser ParserSpec ParserProps Options NetConn TelnetConn ConnWriter.

Section Reader.
  Context {N Q : Type} `{NetConnLaws N} `{GrowPolicy} `{ByteQueueLaws Q}.
  Implicit Type c : Conn N Q.

(** ** Invariant *)

Record conn_ok c : Prop := {
  ok_wr : wr_wf c;
  ok_parser : parser_wf (parser c);
  ok_queue : q_ok (readBuf c);
  ok_neg : neg_wf (negotiator c);
  ok_scratch : sl_wf (readScratch c);
  ok_events : match events c with Some es => (length es <= event_cap)%nat | None => True end
}.

(** What processing the commands and subnegotiations of a chunk leaves alone. *)
Record keeps c c' : Prop := {
  kp_config : config c' = config c;
  kp_parser : parser c' = parser c;
  kp_readBuf : readBuf c' = readBuf c;
  kp_scratch : readScratch c' = readScratch c;
  kp_closed : closed c' = closed c;
  kp_CR : readLineCR c' = readLineCR c;
  kp_incoming : net_incoming (netConn c') = net_incoming (netConn c);
  kp_net : net_writes (netConn c) (netConn c');
  kp_ok : conn_ok c -> conn_ok c'
}.

#[export] Instance keeps_preorder : PreOrder keeps.
Proof using Type.
  split; [by split|]. intros c1 c2 c3 [] []. split; try congruence; [by etrans|auto].
Qed.

Lemma frame_keeps c c' : frame c c' -> (wr_wf c -> wr_wf c') -> keeps c c'.
Proof using Type.
  intros [] Hw. split; try done. intros []. split; try congruence; [by apply Hw|].
  by destruct fr_events as [-> _].
Qed.

Lemma SendCommand_keeps c k opt : wr_wf c -> keeps c (SendCommand c k opt).1.
Proof using Type.
  intros Hc. destruct (closed c) eqn:Ho.
  { unfold SendCommand. by rewrite Ho. }
  pose proof (SendCommand_ok c k opt Hc Ho) as Hs.
  destruct (SendCommand c k opt) as [c' e]. by apply frame_keeps; [apply Hs|intros _; apply Hs].
Qed.

Lemma pushEvent_keeps c e : keeps c (pushEvent c e).
Proof using Type.
  unfold pushEvent. destruct (closed c); [done|]. destruct (events c) as [es|] eqn:E; [|done].
  destruct (bool_decide_reflect (length es < event_cap)%nat) as [Hl|Hl].
  - split; try done. intros []. split; try done. simpl. rewrite length_app. simpl. lia.
  - destruct es as [|e0 es]; [done|]. split; try done. intros [].
    rewrite E in *. split; try done. simpl in *. rewrite length_app. simpl. lia.
Qed.

Lemma set_stats_keeps c s : keeps c (set_stats c s).
Proof using Type. split; try done. intros []. by split. Qed.

Lemma set_negotiator_keeps c n : neg_wf n -> keeps c (set_negotiator c n).
Proof using Type. intros Hn. split; try done. intros []. by split. Qed.

Lemma process_command_keeps c ce :
  conn_ok c -> is_byte (ce_Option ce) -> keeps c (process_command c ce).
Proof using Type.
  intros Hc Ho. unfold process_command.
  destruct (_ && _); [etrans; [apply SendCommand_keeps, Hc|apply pushEvent_keeps]|].
  destruct (_ && _); [etrans; [apply SendCommand_keeps, Hc|apply pushEvent_keeps]|].
  pose proof (Handle_wf (negotiator c) (ce_Command ce) (ce_Option ce) (ok_neg _ Hc) Ho) as Hn.
  destruct (Handle _ _ _) as [n [resp changed]].
  pose proof (set_negotiator_keeps c n Hn) as K1.
  assert (K2 : keeps c (if negb (resp =? 0) then (SendCommand (set_negotiator c n) resp (ce_Option ce)).1
                        else set_negotiator c n)).
  { destruct (negb _); [|exact K1]. etrans; [exact K1|]. apply SendCommand_keeps, Hc. }
  etrans; [exact K2|]. etrans; [|apply pushEvent_keeps].
  destruct changed; [apply set_stats_keeps|done].
Qed.

Lemma handleSubnegotiation_keeps c opt data : keeps c (handleSubnegotiation c opt data).
Proof using Type.
  assert (Ht : forall t w h, keeps c (set_terminal c t w h))
    by (intros; split; try done; intros []; by split).
  unfold handleSubnegotiation. destruct (opt =? OptTerminalType); [|destruct (opt =? OptNAWS); [|done]].
  - destruct data; [done|]. destruct (_ && _); [apply Ht|done].
  - destruct data as [|? [|? [|? [|? ?]]]]; try done; apply Ht.
Qed.

Lemma process_sn_keeps c sn : keeps c (process_sn c sn).
Proof using Type.
  unfold process_sn. etrans; [|apply pushEvent_keeps].
  etrans; [|apply handleSubnegotiation_keeps]. apply set_stats_keeps.
Qed.

Lemma foldl_keeps {A} (f : Conn N Q -> A -> Conn N Q) (P : A -> Prop) l :
  (forall c a, conn_ok c -> P a -> keeps c (f c a)) ->
  forall c, conn_ok c -> Forall P l -> keeps c (foldl f c l).
Proof using Type.
  intros Hf. induction l as [|a l IH]; intros c Hc Hl; [done|].
  apply Forall_cons_1 in Hl as [Ha Hl]. cbn [foldl].
  etrans; [by apply Hf|]. apply IH; [|done]. by apply Hf.
Qed.

(** ** Queueing the data of a chunk *)

Lemma set_readBuf_ok c q : conn_ok c -> q_ok q -> conn_ok (set_readBuf c q).
Proof using Type. intros [] Hq. by split. Qed.

Lemma set_readBuf_twice c q q' : set_readBuf (set_readBuf c q) q' = set_readBuf c q'.
Proof using Type. done. Qed.

Lemma take_app_cap {A} n (a b : list A) : take n (take n a ++ b) = take n (a ++ b).
Proof using Type.
  rewrite !take_app, take_take, Nat.min_id, length_take. f_equal.
  destruct (decide (length a <= n)%nat); f_equal; [f_equal; lia|].
  replace (n - length a)%nat with 0%nat by lia.
  by replace (n - (n `min` length a))%nat with 0%nat by lia.
Qed.

Lemma process_data_ok c data evs n :
  conn_ok c -> Forall (ev_wf n) evs ->
  exists q, process_data c data evs = Some (set_readBuf c q) /\ q_ok q /\
    q_cap q = q_cap (readBuf c) /\
    q_items q = take (Z.to_nat (q_cap (readBuf c)))
      (q_items (readBuf c) ++ concat ((fun e => win_bytes data (de_Data e)) <$> evs)).
Proof using Type*.
  revert c. induction evs as [|ev evs IH]; intros c Hc Hevs; cbn [process_data].
  { exists (readBuf c). split; [by destruct c|]. split; [apply Hc|]. split; [done|].
    simpl. rewrite app_nil_r, take_ge; [done|]. pose proof (q_bound _ (ok_queue _ Hc)). zl. }
  apply Forall_cons_1 in Hevs as [(Hpos & _ & _ & Hlen) Hevs].
  destruct (Z.ltb_spec 0 (de_Length ev)); [|lia].
  destruct (q_Write_ok (readBuf c) (win_bytes data (de_Data ev)) (ok_queue _ Hc))
    as (q & Hq & Hcap & Hit & ->). cbn [mbind option_bind].
  destruct (spec_Write _ _ _) as [q0 [k e]] eqn:Es. cbn [snd].
  destruct (IH (set_readBuf c q)) as (q' & E & Hq' & Hcap' & Hit'); [by apply set_readBuf_ok|done|].
  exists q'. rewrite set_readBuf_twice in E. split; [done|]. split; [done|].
  cbn [readBuf set_readBuf] in *. split; [congruence|].
  rewrite Hit', Hcap, Hit. cbn [fst]. pose proof (q_bound _ (ok_queue _ Hc)) as Hb.
  pose proof (spec_Write_items _ _ (win_bytes data (de_Data ev)) Hb) as Hi.
  rewrite Es in Hi. cbn [fst] in Hi. rewrite Hi, take_app_cap. cbn [fmap list_fmap concat].
  by rewrite app_assoc.
Qed.

(** ** One chunk *)

(** The decoder run on the bytes still to come, and the text ahead of the caller. *)
Definition decoded c (l : bytes) : dstate * list dout := decode (sn_cap (parser c)) (alpha (parser c)) l.
Definition ahead c : bytes := q_items (readBuf c) ++ out_data (decoded c (net_incoming (netConn c))).2.

(** The text in the data events of a chunk. *)
Definition event_data c (data : bytes) : bytes :=
  concat (data_bytes data (Parse (parser c) data empty_result).2).

(** What reading never changes. *)
Record same_setup c c' : Prop := {
  ss_config : config c' = config c;
  ss_closed : closed c' = closed c;
  ss_CR : readLineCR c' = readLineCR c;
  ss_scratch : sl_len (readScratch c') = sl_len (readScratch c);
  ss_cap : q_cap (readBuf c') = q_cap (readBuf c);
  ss_sn_cap : sn_cap (parser c') = sn_cap (parser c)
}.

#[export] Instance same_setup_preorder : PreOrder same_setup.
Proof using Type. split; [by split|]. intros c1 c2 c3 [] []. split; congruence. Qed.

Record processed c (data : bytes) c' : Prop := {
  pr_ok : conn_ok c';
  pr_setup : same_setup c c';
  pr_incoming : net_incoming (netConn c') = net_incoming (netConn c);
  pr_net : net_writes (netConn c) (netConn c');
  pr_alpha : alpha (parser c') = (decoded c data).1;
  pr_items : q_items (readBuf c') =
    take (Z.to_nat (q_cap (readBuf c))) (q_items (readBuf c) ++ event_data c data)
}.

Lemma processReadLocked_ok c data :
  conn_ok c -> wf_bytes data -> exists c', processReadLocked c data = Some c' /\ processed c data c'.
Proof using Type*.
  intros Hc Hd. unfold processReadLocked.
  change (Parse (parser c) data (parseResult c)) with (Parse (parser c) data empty_result).
  pose proof (Parse_simulates (parser c) data empty_result (ok_parser _ Hc)) as Hs.
  pose proof (decode_cmds_options (sn_cap (parser c)) data (alpha (parser c)) Hd) as Hopt.
  destruct (Parse (parser c) data empty_result) as [p r] eqn:Ep.
  fold (decoded c data) in *. destruct (decoded c data) as [d os] eqn:Ed.
  destruct Hs as (Hwf & Hcap & Ha & _ & Hcmd & _ & Hev & _). cbn [snd] in Hopt.
  set (c1 := set_parse c p r). assert (Hc1 : conn_ok c1) by (destruct Hc; by split).
  destruct (process_data_ok c1 data (DataEvents r) _ Hc1 Hev) as (q & E & Hq & Hqc & Hit).
  rewrite E. cbn [mbind option_bind]. set (c2 := set_readBuf c1 q).
  assert (Hc2 : conn_ok c2) by (by apply set_readBuf_ok).
  pose proof (foldl_keeps process_command _ (CommandEvents r) process_command_keeps c2 Hc2) as K3.
  specialize (K3 ltac:(rewrite Hcmd; by apply Forall_take)).
  set (c3 := foldl process_command c2 (CommandEvents r)) in *.
  pose proof (foldl_keeps process_sn (fun _ => True) (SNEvents r)
    (fun c a _ _ => process_sn_keeps c a) c3 (kp_ok _ _ K3 Hc2)) as K4.
  specialize (K4 ltac:(by apply Forall_true)).
  set (c4 := foldl process_sn c3 (SNEvents r)) in *.
  exists c4. split; [done|]. destruct (transitivity K3 K4) as [? Kp Kb Ks ? ? ? Kn Kok].
  split; [by apply Kok| |done|done| |].
  - split; try done; [by rewrite Ks|by rewrite Kb|by rewrite Kp].
  - rewrite Kp, Ed. exact Ha.
  - rewrite Kb. unfold event_data. rewrite Ep. exact Hit.
Qed.

(** ** One read *)

(** The chunk a read of the network would bring, and the queue it would leave. *)
Definition arrival c : N * (bytes * option error) :=
  net_Read (netConn c) (sl_len (readScratch c)).
Definition fetched c : bytes :=
  if 0 <? zlen (q_items (readBuf c)) then q_items (readBuf c)
  else take (Z.to_nat (q_cap (readBuf c))) (event_data c (arrival c).2.1).

(** The error of a read that finds the queue empty. *)
Definition read_error (e : option error) : option error :=
  if e is Some e then Some (if errors_Is e EOF then EOF else e) else None.

Definition lossless c : Prop :=
  q_items (readBuf c) = [] ->
  event_data c (arrival c).2.1 = out_data (decoded c (arrival c).2.1).2 /\
  zlen (event_data c (arrival c).2.1) <= q_cap (readBuf c).

Record read_result c (plen : Z) c' (bs : bytes) (e : option error) : Prop := {
  rr_ok : conn_ok c';
  rr_setup : same_setup c c';
  rr_out : bs = take (Z.to_nat plen) (fetched c);
  rr_items : q_items (readBuf c') = drop (Z.to_nat plen) (fetched c);
  rr_error : e = if 0 <? zlen (fetched c) then None else read_error (arrival c).2.2;
  rr_ahead : lossless c -> ahead c = bs ++ ahead c';
  rr_stream : q_items (readBuf c) = [] ->
    net_incoming (netConn c) = (arrival c).2.1 ++ net_incoming (netConn c') /\
    alpha (parser c') = (decoded c (arrival c).2.1).1;
  rr_net : net_writes (if 0 <? zlen (q_items (readBuf c)) then netConn c else (arrival c).1) (netConn c')
}.

Lemma read_queue_ok c plen :
  conn_ok c -> 0 <= plen -> 0 < zlen (q_items (readBuf c)) ->
  exists q, read_queue c plen =
      Some (set_readBuf c q, (take (Z.to_nat plen) (q_items (readBuf c)), None)) /\
    q_ok q /\ q_cap q = q_cap (readBuf c) /\ q_items q = drop (Z.to_nat plen) (q_items (readBuf c)).
Proof using Type*.
  intros Hc Hp Hne. destruct (q_Read_ok (readBuf c) plen (ok_queue _ Hc) Hp) as (q & Hq & Hcap & Hit & E).
  unfold spec_Read in *. destruct (Z.eqb_spec (zlen (q_items (readBuf c))) 0); [lia|]. simpl in *.
  exists q. unfold read_queue. by rewrite E.
Qed.

Lemma event_data_nil c : event_data c [] = [].
Proof using Type. unfold event_data, Parse. simpl. by rewrite andb_false_r. Qed.

(** The connection once a chunk from the network is processed. *)
Lemma fetch_ok c nc data err :
  conn_ok c -> q_items (readBuf c) = [] -> arrival c = (nc, (data, err)) ->
  exists c', (if 0 <? zlen data then
      processReadLocked
        (set_stats (set_readScratch (set_netConn c nc)
             (MkSlice (write_at (sl_arr (readScratch (set_netConn c nc))) 0 data)
                (sl_len (readScratch (set_netConn c nc)))))
           (stats_update (stats c) (zlen data) 0 0 0 0)) data
    else Some (set_readScratch (set_netConn c nc)
             (MkSlice (write_at (sl_arr (readScratch (set_netConn c nc))) 0 data)
                (sl_len (readScratch (set_netConn c nc)))))) = Some c' /\
    conn_ok c' /\ same_setup c c' /\ q_items (readBuf c') = fetched c /\
    net_incoming (netConn c) = data ++ net_incoming (netConn c') /\
    alpha (parser c') = (decoded c data).1 /\ net_writes nc (netConn c').
Proof using Type*.
  intros Hc Hemp E. unfold arrival in E.
  pose proof (net_Read_ok (netConn c) (sl_len (readScratch c)) (proj1 (ok_scratch _ Hc))) as Hr.
  rewrite E in Hr. destruct Hr as (Hl & Hwf & Hin & Hsent).
  set (c1 := set_readScratch _ _).
  assert (Hc1 : conn_ok c1).
  { destruct Hc. unfold c1. split; try done. unfold sl_wf, sl_cap in *. simpl.
    unfold zlen at 1. rewrite length_write_at by (unfold zlen in *; lia). done. }
  assert (Hs1 : same_setup c c1) by done.
  assert (Hf : fetched c = take (Z.to_nat (q_cap (readBuf c))) (event_data c data)).
  { unfold fetched, arrival. by rewrite Hemp, E. }
  destruct (Z.ltb_spec 0 (zlen data)) as [Hpos|Hpos].
  - set (c2 := set_stats c1 _). assert (Hc2 : conn_ok c2) by (destruct Hc1; by split).
    destruct (processReadLocked_ok c2 data Hc2 Hwf) as (c' & -> & [Hok Hss Hi Hn Ha Hit]).
    exists c'. split; [done|]. split; [done|]. split; [transitivity c1; [exact Hs1|transitivity c2; [done|exact Hss]]|].
    split; [|split; [by rewrite Hi|split; done]]. rewrite Hit, Hf. unfold c2. simpl. by rewrite Hemp.
  - assert (data = []) as -> by (destruct data; [done|zl]).
    exists c1. split; [done|]. split; [done|]. split; [done|].
    split; [|split_and!; done]. rewrite Hf, event_data_nil, take_nil. done.
Qed.

Lemma fetch_ahead c data c' :
  q_items (readBuf c) = [] -> (arrival c).2.1 = data -> lossless c ->
  same_setup c c' -> q_items (readBuf c') = fetched c ->
  net_incoming (netConn c) = data ++ net_incoming (netConn c') ->
  alpha (parser c') = (decoded c data).1 -> ahead c' = ahead c.
Proof using Type*.
  intros Hemp <- Hll Hss Hit Hin Ha. destruct (Hll Hemp) as [Hd Hfit].
  unfold ahead. rewrite Hit, Hemp, Hin. unfold decoded in *.
  rewrite decode_app. rewrite (ss_sn_cap _ _ Hss), Ha.
  destruct (decode (sn_cap (parser c)) (alpha (parser c)) (arrival c).2.1) as [d os].
  cbn [fst snd] in *. destruct (decode _ d _) as [d' os']. cbn [snd].
  rewrite out_data_app, <- Hd. cbn [app]. f_equal. unfold fetched. rewrite Hemp. simpl.
  apply take_ge. zl.
Qed.

(** [readLocked] when the queue holds text: the network is not touched. *)
Lemma read_queued c plen :
  conn_ok c -> 0 <= plen -> 0 < zlen (q_items (readBuf c)) ->
  exists c' bs e, read_queue c plen = Some (c', (bs, e)) /\ read_result c plen c' bs e.
Proof using Type*.
  intros Hc Hp Hne.
  assert (Hf : fetched c = q_items (readBuf c)).
  { unfold fetched. by rewrite (proj2 (Z.ltb_lt _ _)). }
  destruct (read_queue_ok c plen Hc Hp Hne) as (q & -> & Hq & Hcap & Hit).
  eexists _, _, _. split; [by rewrite <- Hf|]. rewrite <- Hf in Hit.
  split; [by apply set_readBuf_ok|by split|by rewrite Hf|done|by rewrite Hf, (proj2 (Z.ltb_lt _ _))| | |];
    [|intros E0; rewrite E0 in Hne; done|by rewrite (proj2 (Z.ltb_lt _ _))].
  intros _. unfold ahead. cbn [readBuf set_readBuf]. rewrite Hit, app_assoc.
  by rewrite take_drop, Hf.
Qed.

(** What the rest of [readLocked] may rely on once a chunk was fetched into [c1]. *)
Record chunk_read c c1 : Prop := {
  cr_ok : conn_ok c1;
  cr_setup : same_setup c c1;
  cr_empty : q_items (readBuf c) = [];
  cr_items : q_items (readBuf c1) = fetched c;
  cr_ahead : lossless c -> ahead c1 = ahead c;
  cr_stream : net_incoming (netConn c) = (arrival c).2.1 ++ net_incoming (netConn c1) /\
    alpha (parser c1) = (decoded c (arrival c).2.1).1;
  cr_net : net_writes (arrival c).1 (netConn c1);
}.

(** The fetched text is handed over. *)
Lemma read_fetched c c1 plen :
  chunk_read c c1 -> 0 <= plen -> 0 < zlen (fetched c) ->
  exists c' bs e, read_queue c1 plen = Some (c', (bs, e)) /\ read_result c plen c' bs e.
Proof using Type*.
  intros [Hc1 Hss Hnil Hit Hah Hst Hnw] Hp Hpos. rewrite <- Hit in Hpos.
  destruct (read_queue_ok c1 plen Hc1 Hp Hpos) as (q & -> & Hq & Hcap & Hq').
  eexists _, _, _. split; [done|]. rewrite Hit in *.
  split; [by apply set_readBuf_ok| |done|done|by rewrite (proj2 (Z.ltb_lt _ _))| |done|by rewrite Hnil].
  - etrans; [exact Hss|]. by split.
  - intros Hll. rewrite <- (Hah Hll). unfold ahead. cbn [readBuf set_readBuf].
    by rewrite Hq', app_assoc, take_drop, Hit.
Qed.

(** The chunk held no text. *)
Lemma read_nothing c c1 plen e :
  chunk_read c c1 -> zlen (fetched c) <= 0 -> e = read_error (arrival c).2.2 ->
  read_result c plen c1 [] e.
Proof using Type*.
  intros [Hc1 Hss Hnil Hit Hah Hst Hnw] Hz0 ->.
  assert (Hf0 : fetched c = []) by (destruct (fetched c); [done|zl]).
  split; try done; rewrite ?Hf0, ?take_nil, ?drop_nil; try done.
  - congruence.
  - intros Hll. by rewrite Hah.
  - by rewrite Hnil.
Qed.

Lemma readLocked_ok c plen :
  conn_ok c -> 0 <= plen ->
  exists c' bs e, readLocked c plen = Some (c', (bs, e)) /\ read_result c plen c' bs e.
Proof using Type*.
  intros Hc Hp. unfold readLocked. rewrite (q_Len_ok _ (ok_queue _ Hc)).
  destruct (Z.ltb_spec 0 (zlen (q_items (readBuf c)))) as [Hne|Hemp]; [by apply read_queued|].
  assert (Hnil : q_items (readBuf c) = []) by (destruct (q_items (readBuf c)); [done|zl]).
  fold (arrival c). destruct (arrival c) as [nc [data err]] eqn:Ea.
  destruct (fetch_ok c nc data err Hc Hnil Ea) as (c1 & E & Hc1 & Hss & Hit & Hin & Ha & Hnw).
  match goal with |- context [mbind _ ?X] => replace X with (Some c1) by (symmetry; exact E) end.
  cbn [mbind option_bind]. clear E. rewrite (q_Len_ok _ (ok_queue _ Hc1)), Hit.
  assert (Hck : chunk_read c c1).
  { split; rewrite ?Ea; try done. intros Hll. apply (fetch_ahead c data c1); by rewrite ?Ea. }
  pose proof (fun e => read_nothing c c1 plen e Hck) as Hz0. rewrite Ea in Hz0. cbn [fst snd] in Hz0.
  destruct err as [e|]; [|destruct (Z.eqb_spec (zlen data) 0) as [Hz|Hz]].
  - destruct (Z.ltb_spec 0 (zlen (fetched c))) as [Hpos|Hle]; [by apply read_fetched|].
    destruct (errors_Is e EOF) eqn:Ee; eexists _, _, _; (split; [done|]); apply Hz0;
      [done|simpl; by rewrite Ee|done|simpl; by rewrite Ee].
  - eexists _, _, _. split; [done|]. apply Hz0; [|done].
    destruct data; [|zl]. unfold fetched. rewrite Hnil, Ea. cbn [fst snd].
    by rewrite event_data_nil, take_nil.
  - destruct (Z.ltb_spec 0 (zlen (fetched c))) as [Hpos|Hle]; [by apply read_fetched|].
    eexists _, _, _. split; [done|]. by apply Hz0.
Qed.

(** ** Sequences of reads *)

Fixpoint read_many c (plens : list Z) : option (Conn N Q * list (bytes * option error)) :=
  match plens with
  | [] => Some (c, [])
  | n :: ns => '(c1, r) ← Read c n; '(c2, rs) ← read_many c1 ns; Some (c2, r :: rs)
  end.

(** No read of the run drops data. *)
Fixpoint lossless_run c (plens : list Z) : Prop :=
  match plens with
  | [] => True
  | n :: ns => lossless c /\ match Read c n with Some (c1, _) => lossless_run c1 ns | None => True end
  end.

(** Read buffers that cannot lose data, whatever arrives. *)
Definition small c : Prop :=
  sl_len (readScratch c) <= 128 /\ sl_len (readScratch c) <= q_cap (readBuf c).

Lemma decoded_short c data : (length (out_data (decoded c data).2) <= length data)%nat.
Proof using Type.
  unfold decoded. rewrite <- (length_decode (sn_cap (parser c)) data (alpha (parser c))). apply length_out_data.
Qed.

Lemma fitting_lossless c :
  conn_ok c -> fits_events (arrival c).2.1 -> zlen (arrival c).2.1 <= q_cap (readBuf c) -> lossless c.
Proof using Type*.
  intros Hc Hfit Hcap Hemp. set (data := (arrival c).2.1) in *.
  assert (E : event_data c data = out_data (decoded c data).2)
    by (apply Parse_fitting_data; [apply Hc|done]).
  split; [done|]. rewrite E. pose proof (decoded_short c data). zl.
Qed.

Lemma small_lossless c : conn_ok c -> small c -> lossless c.
Proof using Type*.
  intros Hc [H128 Hcap]. unfold arrival.
  pose proof (net_Read_ok (netConn c) (sl_len (readScratch c)) (proj1 (ok_scratch _ Hc))) as Hr.
  fold (arrival c) in Hr. destruct (arrival c) as [nc [data e]] eqn:Ea. destruct Hr as (Hl & _).
  apply fitting_lossless; rewrite ?Ea; done || (cbn [fst snd]; (lia || (left; lia))).
Qed.

Lemma small_setup c c' : same_setup c c' -> small c -> small c'.
Proof using Type. intros [] []. split; congruence. Qed.

Lemma Read_open c plen : closed c = false -> Read c plen = readLocked c plen.
Proof using Type. unfold Read. by intros ->. Qed.

Lemma read_many_ok plens : forall c,
  conn_ok c -> closed c = false -> Forall (fun n => 0 <= n) plens ->
  exists c' rs, read_many c plens = Some (c', rs) /\ conn_ok c' /\
    Forall2 (fun r n => zlen r.1 <= n) rs plens /\
    (small c \/ lossless_run c plens -> ahead c = concat rs.*1 ++ ahead c').
Proof using Type*.
  induction plens as [|n ns IH]; intros c Hc Ho Hn; cbn [read_many lossless_run].
  { exists c, []. split_and!; try done. }
  apply Forall_cons_1 in Hn as [Hn Hns]. rewrite Read_open by done.
  destruct (readLocked_ok c n Hc Hn) as (c1 & bs & e & E & [Hc1 Hss Hbs Hit He Hah _ _]).
  rewrite E. cbn [mbind option_bind].
  destruct (IH c1 Hc1 ltac:(by rewrite (ss_closed _ _ Hss)) Hns) as (c2 & rs & -> & Hc2 & Hf & Hah2).
  cbn [mbind option_bind]. eexists _, _. split; [done|]. split; [done|]. split.
  - constructor; [|done]. rewrite Hbs. simpl. unfold zlen. rewrite length_take. lia.
  - intros Hll. cbn [fmap list_fmap concat fst]. rewrite <- app_assoc, <- Hah2.
    + apply Hah. destruct Hll as [?|[? _]]; [by apply small_lossless|done].
    + destruct Hll as [Hs|[_ ?]]; [left; by eapply small_setup|by right].
Qed.

(** ** Chunks of plain text *)

Lemma decode_plain cap l : CmdIAC ∉ l -> decode cap DData l = (DData, OData <$> l).
Proof using Type.
  induction l as [|b l IH]; [done|]. intros [Hb Hl]%not_elem_of_cons. simpl.
  rewrite (proj2 (Z.eqb_neq _ _)) by done. by rewrite IH.
Qed.

Lemma out_runs_plain l : l <> [] -> out_runs (OData <$> l) = [l].
Proof using Type.
  destruct l as [|b l]; [done|]. intros _. unfold out_runs.
  change (foldl run_step ([], false) (OData <$> b :: l)) with (foldl run_step ([[b]], true) (OData <$> l)).
  assert (Hg : forall k acc, foldl run_step ([acc], true) (OData <$> k) = ([acc ++ k], true)).
  { induction k as [|x k IH]; intros acc; [by rewrite app_nil_r|].
    cbn [fmap list_fmap foldl]. change (run_step ([acc], true) (OData x)) with ([acc ++ [x]], true).
    rewrite IH. by rewrite <- app_assoc. }
  by rewrite Hg.
Qed.

Lemma event_data_plain c l :
  conn_ok c -> alpha (parser c) = DData -> CmdIAC ∉ l -> event_data c l = l.
Proof using Type*.
  intros Hc Ha Hl. destruct (decide (l = [])) as [->|Hne]; [apply event_data_nil|].
  unfold event_data. pose proof (Parse_simulates (parser c) l empty_result (ok_parser _ Hc)) as Hs.
  rewrite Ha, decode_plain in Hs by done. destruct (Parse _ _ _) as [p r].
  destruct Hs as (_ & _ & _ & Hd & _). cbn [snd]. rewrite Hd, out_runs_plain by done.
  cbn. by rewrite app_nil_r.
Qed.
End Reader.

(** ** Properties *)

Section Props.
  Context {N Q : Type} `{NetConnLaws N} `{GrowPolicy} `{ByteQueueLaws Q}.
  Implicit Type c : Conn N Q.

(** C1: [Read] delivers the decoded stream. Any sequence of reads on an open
    connection runs without a panic, each returning at most the bytes asked for, and,
    when no chunk loses data (see [lossless]; a read buffer of at most 128 bytes
    whose ring holds a whole chunk never does, whatever arrives), the bytes returned,
    in order, are exactly the next text bytes that the TELNET decoder finds in the
    network's byte stream: nothing lost, repeated, reordered or left escaped. *)
Theorem Read_delivers_stream c plens :
  conn_ok c -> closed c = false -> Forall (fun n => 0 <= n) plens ->
  exists c' rs, read_many c plens = Some (c', rs) /\ conn_ok c' /\
    Forall2 (fun r n => zlen r.1 <= n) rs plens /\
    (small c \/ lossless_run c plens -> ahead c = concat rs.*1 ++ ahead c').
Proof. apply read_many_ok. Qed.

(** C35: the branches of [Read]. Queued text is returned without touching the network or
    the parser, even when the network has failed. With an empty queue one chunk is
    fetched; its text is returned first, and an error only when the chunk brought
    none: any error that wraps EOF comes out as [EOF], others unchanged. Without
    error and text (a chunk of commands only) the result is zero bytes and no error. *)
Theorem Read_branches c plen :
  conn_ok c -> 0 <= plen ->
  (closed c = true -> Read c plen = Some (c, ([], Some ErrConnClosed))) /\
  (closed c = false -> exists c' bs e, Read c plen = Some (c', (bs, e)) /\
     bs = take (Z.to_nat plen) (fetched c) /\ q_items (readBuf c') = drop (Z.to_nat plen) (fetched c) /\
     (q_items (readBuf c) <> [] -> netConn c' = netConn c /\ parser c' = parser c /\ e = None) /\
     (fetched c <> [] -> e = None) /\
     (fetched c = [] -> forall err, (arrival c).2.2 = Some err -> q_items (readBuf c) = [] ->
        e = Some (if errors_Is err EOF then EOF else err)) /\
     (fetched c = [] -> (arrival c).2.2 = None -> bs = [] /\ e = None)).
Proof.
  intros Hc Hp. split; [by unfold Read; intros ->|]. intros Ho. rewrite Read_open by done.
  destruct (readLocked_ok c plen Hc Hp) as (c' & bs & e & E & [_ _ Hbs Hit He _ Hst _]).
  assert (Hpos : fetched c <> [] -> (0 <? zlen (fetched c)) = true).
  { intros Hne. apply Z.ltb_lt. destruct (fetched c); [done|zl]. }
  exists c', bs, e. split_and!; try done.
  - intros Hq. assert (Hlt : 0 < zlen (q_items (readBuf c)))
      by (destruct (q_items (readBuf c)); [done|zl]).
    unfold readLocked in E. rewrite (q_Len_ok _ (ok_queue _ Hc)), (proj2 (Z.ltb_lt _ _)) in E by done.
    destruct (read_queue_ok c plen Hc Hp Hlt) as (q & Eq & _). rewrite Eq in E. by simplify_eq.
  - intros Hne. by rewrite He, Hpos.
  - intros Hf err Ee _. by rewrite He, Hf, Ee.
  - intros Hf Ee. rewrite Hbs, He, Hf, Ee. by rewrite take_nil.
Qed.

(** A chunk that fills the read buffer loses its last byte when the ring, which
    keeps one cell free, has exactly the buffer's size (as for every size that is a
    power of two, the default included): of [q_cap + 1] bytes of plain text that
    arrive at once only the first [q_cap] are ever returned, and no error tells. *)
Theorem full_chunk_loses_last_byte c plen nc data :
  conn_ok c -> closed c = false -> 0 <= plen -> 0 < q_cap (readBuf c) ->
  q_items (readBuf c) = [] -> alpha (parser c) = DData ->
  arrival c = (nc, (data, None)) -> zlen data = q_cap (readBuf c) + 1 -> CmdIAC ∉ data ->
  exists c' bs, Read c plen = Some (c', (bs, None)) /\ alpha (parser c') = DData /\
    net_incoming (netConn c) = data ++ net_incoming (netConn c') /\
    bs ++ q_items (readBuf c') = removelast data.
Proof.
  intros Hc Ho Hp Hpos Hemp Ha Ea Hl Hn.
  assert (Hf : fetched c = removelast data).
  { unfold fetched. rewrite Hemp, Ea. simpl. rewrite event_data_plain by done.
    destruct data as [|b l _] using rev_ind; [zl|]. rewrite removelast_last.
    rewrite zlen_app in Hl. apply take_app_length'. zl. }
  rewrite Read_open by done.
  destruct (readLocked_ok c plen Hc Hp) as (c' & bs & e & E & [_ _ Hbs Hit He _ Hst _]).
  exists c', bs. rewrite E. assert (Hlen : zlen (fetched c) = q_cap (readBuf c)).
  { rewrite Hf. destruct data as [|b l _] using rev_ind; [zl|]. rewrite removelast_last.
    rewrite zlen_app in Hl. zl. }
  rewrite (proj2 (Z.ltb_lt _ _)) in He by lia. split; [by rewrite He|].
  rewrite Hbs, Hit, take_drop. split; [|split; [|done]].
  - rewrite Ea in Hst. destruct (Hst Hemp) as [_ ->]. unfold decoded. by rewrite Ha, decode_plain.
  - rewrite Ea in Hst. by apply Hst.
Qed.
End Props.

(** ** Witnesses *)

#[local] Existing Instance doubling.

(** A connection over a scripted network: a read buffer of [2 ^ k] or fewer bytes, a
    ring of [2 ^ k] cells holding [q]. *)
Definition net_conn (arrivals : list bytes) (k size : Z) (q : bytes) : Conn ScriptConn Ring :=
  MkConn (Script arrivals [] 1000) plain_config NewParser empty_result NewNegotiator
    (MkRing (MkSlice (q ++ replicate (Z.to_nat (2 ^ k) - length q) 0) (2 ^ k)) (2 ^ k - 1) 0 (zlen q))
    (MkSlice (replicate (Z.to_nat size) 0) size)
    (MkSB (MkSlice (replicate 64%nat 0) 0) 0)
    (Some []) (Some false) false false None 0 0 (MkStats 0 0 0 0 0 0 0).

Lemma net_conn_ok arrivals k size q :
  0 <= k <= 16 -> 0 <= size -> zlen q < 2 ^ k -> conn_ok (net_conn arrivals k size q).
Proof.
  intros Hk Hs Hq. pose proof (zlen_nonneg q). assert (2 ^ k <= 2 ^ 16) by (apply Z.pow_le_mono_r; lia).
  unfold net_conn. split; cbn [writeBuf parser readBuf negotiator readScratch events].
  - unfold wr_wf, sl_wf, sl_cap, zlen; simpl; lia.
  - apply NewParser_wf.
  - exists k. split; simpl; try lia.
    + unfold sl_wf, sl_cap. cbn [sl_len sl_arr]. unfold zlen in *.
      rewrite length_app, length_replicate. lia.
    + rewrite u32_small by lia. lia.
  - apply NewNegotiator_wf.
  - unfold sl_wf, sl_cap, zlen; simpl. rewrite length_replicate. lia.
  - simpl. lia.
Qed.

(** "he", then a command, an escaped 255 cut in two, and "!". *)
Definition mixed_conn : Conn ScriptConn Ring :=
  net_conn [[104; 101; 255; 253; 1; 255]; [255; 33]] 6 63 [].

Lemma Read_delivers_stream_witness :
  exists c' rs, read_many mixed_conn [1; 5; 5; 5] = Some (c', rs) /\
    concat rs.*1 = [104; 101; 255; 33] /\ [104; 101; 255; 33] = concat rs.*1 ++ ahead c'.
Proof.
  destruct (Read_delivers_stream mixed_conn [1; 5; 5; 5]
    (net_conn_ok _ 6 63 [] ltac:(lia) ltac:(lia) ltac:(by vm_compute)) eq_refl
    ltac:(repeat constructor; lia)) as (c' & rs & E & _ & _ & Ha).
  exists c', rs. split; [exact E|].
  assert (Hs : small mixed_conn) by (split; by vm_compute).
  split; [|rewrite <- (Ha (or_introl Hs)); by vm_compute].
  assert (Hc : (fun x => concat x.2.*1) <$> read_many mixed_conn [1; 5; 5; 5] = Some [104; 101; 255; 33])
    by by vm_compute.
  rewrite E in Hc. by injection Hc.
Defined.

Lemma Read_branches_witness :
  exists c' bs e, Read (net_conn [] 6 63 []) 10 = Some (c', (bs, e)) /\ e = Some EOF.
Proof.
  destruct (proj2 (Read_branches (net_conn [] 6 63 []) 10
    (net_conn_ok [] 6 63 [] ltac:(lia) ltac:(lia) ltac:(by vm_compute)) ltac:(lia)) eq_refl)
    as (c' & bs & e & E & _ & _ & _ & _ & He & _).
  exists c', bs, e. split; [exact E|].
  by rewrite (He ltac:(by vm_compute) EOF ltac:(by vm_compute) ltac:(by vm_compute)).
Defined.

(** A ring of 8 cells and a read buffer of 8 bytes. *)
Lemma full_chunk_loses_last_byte_witness :
  exists c' bs, Read (net_conn [[1; 2; 3; 4; 5; 6; 7; 8; 9]] 3 8 []) 100 = Some (c', (bs, None)) /\
    net_incoming (netConn c') = [9] /\ bs ++ contents (readBuf c') = [1; 2; 3; 4; 5; 6; 7].
Proof.
  destruct (full_chunk_loses_last_byte (net_conn [[1; 2; 3; 4; 5; 6; 7; 8; 9]] 3 8 []) 100
    (Script [[9]] [] 1000) [1; 2; 3; 4; 5; 6; 7; 8]
    (net_conn_ok _ 3 8 [] ltac:(lia) ltac:(lia) ltac:(by vm_compute)) eq_refl ltac:(lia)
    ltac:(by vm_compute) ltac:(by vm_compute) ltac:(by vm_compute) ltac:(by vm_compute)
    ltac:(by vm_compute) ltac:(by_decide)) as (c' & bs & E & _ & Hin & Hb).
  exists c', bs. split; [exact E|]. split; [|exact Hb].
  change (net_incoming (netConn (net_conn [[1; 2; 3; 4; 5; 6; 7; 8; 9]] 3 8 [])))
    with ([1; 2; 3; 4; 5; 6; 7; 8] ++ [9]) in Hin. by apply app_inv_head in Hin.
Defined.
