(* ===== verification/ConnLine.v ===== *)
(** * ConnLine: [ReadLine].

    What a call returns is stated in terms of the successive reads it makes
    ([reads]); when it returns is a theorem of its own, with a bound on the
    number of iterations. *)
From stdpp Require Import relations.
From S2P Require Import Prelude Constants GoSlice Pool ByteQueue RingBuf StaticBuf TelnetParser ParserSpec ParserProps Options NetConn TelnetConn ConnWriter ConnReader.

(** A line without the carriage return that ends it. *)
Definition strip_cr (l : bytes) : bytes := if decide (last l = Some 13) then removelast l else l.

Lemma strip_cr_snoc l b : strip_cr (l ++ [b]) = if b =? 13 then l else l ++ [b].
Proof.
  unfold strip_cr. rewrite last_snoc, removelast_last.
  destruct (Z.eqb_spec b 13) as [->|Hb]; [done|]. rewrite decide_False; congruence.
Qed.

Lemma find_lf_split pre rest : 10 ∉ pre -> find_lf (pre ++ 10 :: rest) = Some (length pre).
Proof.
  induction pre as [|b pre IH]; [done|]. intros [Hb Hp]%not_elem_of_cons. simpl.
  rewrite (proj2 (Z.eqb_neq _ _)), IH by done. done.
Qed.

Lemma find_lf_lt l i : find_lf l = Some i -> (i < length l)%nat.
Proof.
  revert i. induction l as [|b l IH]; intros i E; [done|]. simpl in *. destruct (b =? 10); [simplify_eq; lia|].
  destruct (find_lf l) as [k|]; simplify_eq/=. specialize (IH k eq_refl). lia.
Qed.

Lemma find_lf_None l : 10 ∉ l -> find_lf l = None.
Proof.
  induction l as [|b l IH]; [done|]. intros [Hb Hl]%not_elem_of_cons. simpl.
  by rewrite (proj2 (Z.eqb_neq _ _)), IH.
Qed.

Section Line.
  Context {N Q : Type} `{NetConnLaws N} `{GrowPolicy} `{ByteQueueLaws Q}.
  Implicit Type c : Conn N Q.

(** [reads c bs c']: the next reads of [ReadLine] return the chunks [bs], none
    empty, without an error. *)
Inductive reads : Conn N Q -> list bytes -> Conn N Q -> Prop :=
  | reads_nil c : reads c [] c
  | reads_cons c c1 b bs c' :
      readLocked c 1024 = Some (c1, (b, None)) -> b <> [] ->
      reads (set_readLineCR c1 (bool_decide (last b = Some 13))) bs c' ->
      reads c (b :: bs) c'.

Lemma set_readLineCR_ok c b : conn_ok c -> conn_ok (set_readLineCR c b).
Proof using Type. intros []. by split. Qed.

Lemma readLocked_read c plen c' bs e :
  conn_ok c -> 0 <= plen -> readLocked c plen = Some (c', (bs, e)) -> read_result c plen c' bs e.
Proof using Type*.
  intros Hc Hp E. destruct (readLocked_ok c plen Hc Hp) as (c1 & bs1 & e1 & E1 & Hr).
  rewrite E in E1. by simplify_eq.
Qed.

(** The iteration that meets the line feed. *)
Lemma ReadLine_iter_found c line c1 pre rest e :
  conn_ok c -> readLocked c 1024 = Some (c1, (pre ++ 10 :: rest, e)) -> 10 ∉ pre ->
  (line <> [] -> pre = [] -> readLineCR c = bool_decide (last line = Some 13)) ->
  exists q, q_ok q /\ q_cap q = q_cap (readBuf c1) /\
    q_items q = take (Z.to_nat (q_cap (readBuf c1))) (q_items (readBuf c1) ++ rest) /\
    ReadLine_iter c line =
      Some (set_readLineCR (set_readBuf c1 q) false, inr (strip_cr (line ++ pre), None)).
Proof using Type*.
  intros Hc E Hpre Hcr. pose proof (readLocked_read c 1024 c1 _ e Hc ltac:(lia) E) as [Hc1 Hss _ _ _ _ _ _].
  unfold ReadLine_iter. rewrite E. cbn [mbind option_bind]. rewrite find_lf_split by done.
  rewrite (ss_CR _ _ Hss).
  set (choice := if _ && bool_decide _ then _ else _).
  assert (Hline : choice.2 ++ take choice.1 (pre ++ 10 :: rest) = strip_cr (line ++ pre)).
  { unfold choice. destruct pre as [|b pre _] using rev_ind.
    - simpl. destruct line as [|b line _] using rev_ind; [by destruct (readLineCR c)|].
      rewrite Hcr by (done || by destruct line). rewrite app_nil_r, strip_cr_snoc, last_snoc.
      destruct (Z.eqb_spec b 13) as [->|Hb].
      + rewrite bool_decide_true by done. simpl. rewrite (proj2 (Z.ltb_lt _ _)) by (rewrite zlen_app; zl).
        rewrite length_app, app_nil_r. simpl. by rewrite Nat.add_sub, take_app_length.
      + rewrite bool_decide_false by congruence. simpl. by rewrite app_nil_r.
    - rewrite app_assoc, strip_cr_snoc, length_app. simpl length.
      rewrite Nat.add_sub. rewrite <- app_assoc. cbn [app].
      rewrite (proj2 (Z.ltb_lt _ _)) by lia. rewrite list_lookup_middle by done.
      rewrite (proj2 (Z.eqb_neq _ _)) by lia. cbn [andb].
      destruct (Z.eqb_spec b 13) as [->|Hb].
      + rewrite bool_decide_true by done. simpl. by rewrite take_app_length.
      + rewrite bool_decide_false by congruence. simpl. rewrite <- app_assoc. f_equal.
        change (b :: 10 :: rest) with ([b] ++ 10 :: rest). rewrite app_assoc.
        apply take_app_length'. rewrite length_app. simpl. lia. }
  destruct choice as [end_ line']. cbn [fst snd] in Hline. rewrite Hline.
  assert (Hdrop : drop (length pre + 1) (pre ++ 10 :: rest) = rest).
  { change (10 :: rest) with ([10] ++ rest). rewrite app_assoc.
    apply drop_app_length'. rewrite length_app. simpl. lia. }
  rewrite Hdrop. rewrite zlen_app, zlen_cons.
  destruct (Z.ltb_spec (Z.of_nat (length pre) + 1) (zlen pre + (1 + zlen rest))) as [Hr|Hr].
  - destruct (q_Write_ok (readBuf c1) rest (ok_queue _ Hc1)) as (q & Hq & Hcap & Hit & ->).
    exists q. cbn [mbind option_bind]. destruct (spec_Write _ _ _) as [q0 [k err]] eqn:Es.
    cbn [mbind option_bind snd fst] in *. split; [done|]. split; [done|]. split; [|done].
    rewrite Hit. pose proof (spec_Write_items _ _ rest (q_bound _ (ok_queue _ Hc1))) as Hi.
    by rewrite Es in Hi.
  - assert (rest = []) as -> by (destruct rest; [done|zl]).
    exists (readBuf c1). split; [apply Hc1|]. split; [done|]. split; [|by destruct c1].
    rewrite app_nil_r, take_ge; [done|]. pose proof (q_bound _ (ok_queue _ Hc1)). zl.
Qed.

(** An iteration that reads some text without a line feed. *)
Lemma ReadLine_iter_more c line c1 b :
  readLocked c 1024 = Some (c1, (b, None)) -> b <> [] -> 10 ∉ b ->
  ReadLine_iter c line =
    Some (set_readLineCR c1 (bool_decide (last b = Some 13)), inl (line ++ b)).
Proof using Type.
  intros E Hb Hn. unfold ReadLine_iter. rewrite E. cbn [mbind option_bind].
  rewrite find_lf_None by done. rewrite (proj2 (Z.ltb_lt _ _)); [done|].
  destruct b; [done|zl].
Qed.

Lemma reads_ok c bs c' : reads c bs c' -> conn_ok c -> conn_ok c'.
Proof using Type*.
  induction 1 as [c|c c1 b bs c' E Hb _ IH]; [done|]. intros Hc. apply IH, set_readLineCR_ok.
  by destruct (readLocked_read c 1024 c1 b None Hc ltac:(lia) E).
Qed.

(** The flag is the last byte read being a carriage return. *)
Lemma reads_CR c bs c' line :
  reads c bs c' -> (line <> [] -> readLineCR c = bool_decide (last line = Some 13)) ->
  line ++ concat bs <> [] -> readLineCR c' = bool_decide (last (line ++ concat bs) = Some 13).
Proof using Type.
  intros Hr. revert line. induction Hr as [c|c c1 b bs c' E Hb Hr IH]; intros line Hcr Hne.
  { simpl in *. rewrite app_nil_r in *. by apply Hcr. }
  cbn [concat]. rewrite app_assoc. apply IH.
  - intros _. cbn [set_readLineCR readLineCR].
    destruct b as [|x b _] using rev_ind; [done|]. by rewrite app_assoc, !last_snoc.
  - destruct b; [done|]. by destruct line.
Qed.

Lemma ReadLine_loop_reads c bs c1 k :
  reads c bs c1 -> 10 ∉ concat bs ->
  forall line, ReadLine_loop (length bs + k) c line = ReadLine_loop k c1 (line ++ concat bs).
Proof using Type.
  induction 1 as [c|c c1 b bs c' E Hb _ IH]; intros Hn line; cbn [length concat Nat.add].
  { by rewrite app_nil_r. }
  cbn [concat] in Hn. apply not_elem_of_app in Hn as [Hnb Hn]. cbn [ReadLine_loop].
  by rewrite (ReadLine_iter_more c line c1 b), IH, app_assoc.
Qed.

Lemma fetched_bound c :
  conn_ok c -> (length (fetched c) <= Z.to_nat (q_cap (readBuf c)))%nat.
Proof using Type*.
  intros Hc. unfold fetched. pose proof (q_bound _ (ok_queue _ Hc)). cmp.
  - zl.
  - rewrite length_take. lia.
Qed.

(** ** Termination *)

(** Every iteration returns, or consumes queued text, or takes a step of the network. *)
Section Termination.
  Context (measure : N -> nat).
  Context (Hread : forall n sz, 0 < sz -> let '(n', (data, e)) := net_Read n sz in
    (data <> [] \/ e = None -> measure n' < measure n)%nat).
  Context (Hwrite : forall n p, (measure (net_Write n p).1 <= measure n)%nat).

Lemma writes_measure n n' : net_writes n n' -> (measure n' <= measure n)%nat.
Proof using Hwrite.
  induction 1 as [|n1 n2 n3 [p ->] _ IH]; [done|]. specialize (Hwrite n1 p). lia.
Qed.

Definition potential c : nat :=
  measure (netConn c) * S (Z.to_nat (q_cap (readBuf c))) + length (q_items (readBuf c)).

(** Fetching from the network makes progress unless it fails with nothing to show. *)
Lemma arrival_progress c plen c1 bs e :
  0 < sl_len (readScratch c) -> read_result c plen c1 bs e ->
  zlen (q_items (readBuf c)) <= 0 -> bs <> [] \/ e = None ->
  (measure (arrival c).1 < measure (netConn c))%nat.
Proof using Type*.
  intros Hsz [_ _ Hbs _ He _ _ _] Hq Hprog.
  specialize (Hread (netConn c) _ Hsz). fold (arrival c) in Hread.
  destruct (arrival c) as [nc [data err]] eqn:Ea. apply Hread.
  destruct data as [|x data]; [right|by left].
  assert (Hf : fetched c = []).
  { unfold fetched. rewrite (proj2 (Z.ltb_ge _ _)), Ea by done. cbn [fst snd].
    by rewrite event_data_nil, take_nil. }
  rewrite Hf in Hbs, He. rewrite take_nil in Hbs. destruct Hprog as [|Hprog]; [done|].
  simpl in He. rewrite Hprog in He. by destruct err.
Qed.

(** A read that returns text or no error lowers the potential, by what it returns. *)
Lemma read_lowers_potential c plen c1 bs e :
  conn_ok c -> 0 < sl_len (readScratch c) -> 0 < plen -> read_result c plen c1 bs e ->
  bs <> [] \/ e = None -> (potential c1 + Nat.max 1 (length bs) <= potential c)%nat.
Proof using Type*.
  intros Hc Hsz Hp Hr Hprog. pose proof (fetched_bound c Hc) as Hfb.
  pose proof (arrival_progress c plen c1 bs e Hsz Hr) as Hfetch.
  destruct Hr as [_ Hss Hbs Hit _ _ _ Hnet]. apply writes_measure in Hnet.
  assert (Hlen : length bs = min (Z.to_nat plen) (length (fetched c))) by by rewrite Hbs, length_take.
  unfold potential. rewrite Hit, (ss_cap _ _ Hss), length_drop, Hlen.
  destruct (Z.ltb_spec 0 (zlen (q_items (readBuf c)))) as [Hq|Hq].
  - assert (Hf : fetched c = q_items (readBuf c))
      by (unfold fetched; by rewrite (proj2 (Z.ltb_lt _ _))).
    rewrite Hf. unfold zlen in Hq.
    assert (measure (netConn c1) * S (Z.to_nat (q_cap (readBuf c))) <=
            measure (netConn c) * S (Z.to_nat (q_cap (readBuf c))))%nat
      by (by apply Nat.mul_le_mono_r). lia.
  - specialize (Hfetch Hq Hprog).
    assert (S (measure (netConn c1)) * S (Z.to_nat (q_cap (readBuf c))) <=
            measure (netConn c) * S (Z.to_nat (q_cap (readBuf c))))%nat
      by (apply Nat.mul_le_mono_r; lia). lia.
Qed.

(** What an iteration or a call leaves behind. *)
Record line_step c c' : Prop := {
  lp_ok : conn_ok c';
  lp_scratch : sl_len (readScratch c') = sl_len (readScratch c)
}.

(** Putting back what follows the line feed undoes less than the read did. *)
Lemma put_back c c1 bs i :
  conn_ok c -> 0 < sl_len (readScratch c) -> read_result c 1024 c1 bs None -> (i < length bs)%nat ->
  exists c2, (if Z.of_nat i + 1 <? zlen bs
     then '(q, _) ← q_Write (readBuf c1) (drop (i + 1) bs); Some (set_readBuf c1 q)
     else Some c1) = Some c2 /\ line_step c c2 /\ (potential c2 < potential c)%nat.
Proof using Type*.
  intros Hc Hsz Hr Hi.
  pose proof (read_lowers_potential c 1024 c1 bs None Hc Hsz ltac:(lia) Hr (or_intror eq_refl)) as Hpot.
  destruct Hr as [Hc1 Hss _ _ _ _ _ _]. destruct (Z.of_nat i + 1 <? zlen bs).
  - destruct (q_Write_ok (readBuf c1) (drop (i + 1) bs) (ok_queue _ Hc1)) as (q & Hq & Hcap & Hit & ->).
    destruct (spec_Write _ _ _) as [q0 [k err]] eqn:Es. cbn [mbind option_bind snd fst] in *.
    eexists. split; [done|]. split; [split; [by apply set_readBuf_ok|apply Hss]|].
    pose proof (spec_Write_items _ _ (drop (i + 1) bs) (q_bound _ (ok_queue _ Hc1))) as Hi'.
    rewrite Es in Hi'. cbn [fst] in Hi'. unfold potential in *. cbn [readBuf netConn set_readBuf].
    rewrite Hcap, Hit, Hi', length_take, length_app, length_drop. lia.
  - exists c1. split; [done|]. split; [split; [done|apply Hss]|lia].
Qed.

Lemma ReadLine_iter_step c line :
  conn_ok c -> 0 < sl_len (readScratch c) ->
  exists c' res, ReadLine_iter c line = Some (c', res) /\ line_step c c' /\
    (match res with inl _ => True | inr r => r.2 = None end -> (potential c' < potential c)%nat).
Proof using Type*.
  intros Hc Hsz. destruct (readLocked_ok c 1024 Hc ltac:(lia)) as (c1 & bs & e & E & Hr).
  pose proof (read_lowers_potential c 1024 c1 bs e Hc Hsz ltac:(lia) Hr) as Hpot.
  assert (Hset : forall b, line_step c (set_readLineCR c1 b)).
  { intros b. split; [apply set_readLineCR_ok, (rr_ok _ _ _ _ _ Hr)|apply (rr_setup _ _ _ _ _ Hr)]. }
  assert (He : 0 < zlen bs -> e = None).
  { intros Hb. rewrite (rr_error _ _ _ _ _ Hr), (proj2 (Z.ltb_lt _ _)); [done|].
    rewrite (rr_out _ _ _ _ _ Hr) in Hb. unfold zlen in *. rewrite length_take in Hb. lia. }
  unfold ReadLine_iter. rewrite E. cbn [mbind option_bind]. destruct (find_lf bs) as [i|] eqn:Ei.
  { assert (Hi : (i < length bs)%nat) by by apply find_lf_lt. rewrite He in Hr by (unfold zlen; lia).
    destruct (put_back c c1 bs i Hc Hsz Hr Hi) as (c2 & E2 & [Hok2 Hs2] & Hp2).
    destruct (if _ && bool_decide _ then _ else _) as [end_ line']. rewrite E2. cbn [mbind option_bind].
    eexists _, _. split; [done|]. split; [split; [by apply set_readLineCR_ok|done]|]. intros _. exact Hp2. }
  destruct (Z.ltb_spec 0 (zlen bs)) as [Hb|Hb]; [rewrite He by done|destruct e as [e|]];
    eexists _, _; (split; [done|]); (split; [apply Hset|]); try done;
    intros _; specialize (Hpot ltac:(right; done || by apply He)); change (potential (set_readLineCR c1 ?b)) with (potential c1); lia.
Qed.

(** A call ends; one that returns a line has made progress. *)
Lemma ReadLine_loop_done fuel : forall c line,
  conn_ok c -> 0 < sl_len (readScratch c) -> (potential c < fuel)%nat ->
  exists c' l e, ReadLine_loop fuel c line = LineDone c' l e /\ line_step c c' /\
    (e = None -> potential c' < potential c)%nat.
Proof using Type*.
  induction fuel as [|fuel IH]; intros c line Hc Hsz Hf; [lia|]. cbn [ReadLine_loop].
  destruct (ReadLine_iter_step c line Hc Hsz) as (c' & [line'|[l e]] & -> & [Hc' Hs'] & Hp); [|by exists c', l, e].
  specialize (Hp I). destruct (IH c' line' Hc') as (c2 & l & e & -> & [Hc2 Hs2] & Hp2); [by rewrite Hs'|lia|].
  exists c2, l, e. split; [done|]. split; [split; [done|congruence]|]. intros He. specialize (Hp2 He). lia.
Qed.
End Termination.
End Line.

(** ** Properties *)

Section Props.
  Context {N Q : Type} `{NetConnLaws N} `{GrowPolicy} `{ByteQueueLaws Q}.
  Implicit Type c : Conn N Q.

(** [ReadLine] returns the line. Whatever reads it takes ([bs], each non-empty, the
    last holding the first line feed), it returns all the text before the line feed
    without one carriage return at its end, also when CR and LF came in different
    reads, and puts what followed the line feed back at the end of the queue. *)
Theorem ReadLine_returns_line c bs c1 c2 pre rest e fuel :
  conn_ok c -> reads c bs c1 -> 10 ∉ concat bs ->
  readLocked c1 1024 = Some (c2, (pre ++ 10 :: rest, e)) -> 10 ∉ pre ->
  (length bs < fuel)%nat ->
  exists q, ReadLine fuel c =
      LineDone (set_readLineCR (set_readBuf c2 q) false) (strip_cr (concat bs ++ pre)) None /\
    q_ok q /\ q_items q = take (Z.to_nat (q_cap (readBuf c2))) (q_items (readBuf c2) ++ rest).
Proof.
  intros Hc Hr Hbs E Hpre Hf. unfold ReadLine.
  replace fuel with (length bs + S (fuel - S (length bs)))%nat by lia.
  rewrite (ReadLine_loop_reads c bs c1) by done. cbn [app ReadLine_loop].
  pose proof (reads_ok _ _ _ Hr Hc) as Hc1.
  destruct (ReadLine_iter_found c1 (concat bs) c2 pre rest e Hc1 E Hpre) as (q & Hq & _ & Hit & ->).
  - intros Hne _. by apply (reads_CR c bs c1 []).
  - by exists q.
Qed.

(** Text queued behind the line is kept in order only up to 1024 bytes. When the
    queue holds [pre], a line feed and [tail], the call returns [pre] (without its
    final CR) and never touches the network, but the part of [tail] that fell within
    the first 1024 bytes is put behind the rest: the queue is unchanged exactly up to
    a rotation, and in order when the whole queue fits one read. *)
Theorem ReadLine_rotates_queue c pre tail fuel :
  conn_ok c -> q_items (readBuf c) = pre ++ 10 :: tail -> 10 ∉ pre ->
  (length pre < 1024)%nat -> (0 < fuel)%nat ->
  let k := (1023 - length pre)%nat in
  exists c', ReadLine fuel c = LineDone c' (strip_cr pre) None /\ conn_ok c' /\
    netConn c' = netConn c /\ parser c' = parser c /\
    q_items (readBuf c') = drop k tail ++ take k tail /\
    ((length tail <= k)%nat -> q_items (readBuf c') = tail).
Proof.
  intros Hc Hq Hpre Hlen Hfuel k.
  assert (Hpos : 0 < zlen (q_items (readBuf c))) by (rewrite Hq, zlen_app, zlen_cons; zl).
  destruct (read_queue_ok c 1024 Hc ltac:(lia) Hpos) as (q1 & E & Hq1 & Hcap & Hit).
  assert (El : readLocked c 1024 = Some (set_readBuf c q1, (pre ++ 10 :: take k tail, None))).
  { unfold readLocked. rewrite (q_Len_ok _ (ok_queue _ Hc)), (proj2 (Z.ltb_lt _ _)), E, Hq by done.
    rewrite take_app, (take_ge pre) by lia. change (Z.to_nat 1024) with 1024%nat.
    replace (1024 - length pre)%nat with (S k) by (unfold k; lia). done. }
  destruct fuel as [|fuel]; [lia|].
  destruct (ReadLine_iter_found c [] _ _ _ _ Hc El Hpre ltac:(done)) as (q & Hqok & _ & Hqi & Ei).
  cbn [app readBuf set_readBuf] in *.
  assert (Hres : q_items q = drop k tail ++ take k tail).
  { rewrite Hqi, Hit, Hq, drop_app, drop_ge by (change (Z.to_nat 1024) with 1024%nat; lia).
    change (Z.to_nat 1024) with 1024%nat.
    replace (1024 - length pre)%nat with (S k) by (unfold k; lia). cbn [app drop].
    apply take_ge. pose proof (q_bound _ (ok_queue _ Hc)) as Hb. rewrite Hq in Hb.
    rewrite zlen_app, zlen_cons in Hb. rewrite length_app, length_take, length_drop.
    unfold zlen in Hb. lia. }
  eexists. unfold ReadLine. cbn [ReadLine_loop]. rewrite Ei, set_readBuf_twice. split; [done|].
  split; [by apply set_readLineCR_ok, set_readBuf_ok|]. split_and!; try done.
  intros Hk. cbn [readBuf set_readBuf set_readLineCR]. by rewrite Hres, drop_ge, take_ge.
Qed.

(** C22: [ReadLine] returns. On a network that cannot deliver for ever (a measure falls
    with every read that brings bytes or no error, and does not grow with writes), a
    call on any connection in a good state ends without a panic, after at most
    [potential c + 1] iterations: each one returns, or shortens the queue, or makes
    the network progress. *)
Theorem ReadLine_terminates (measure : N -> nat) c :
  (forall n sz, 0 < sz -> let '(n', (data, e)) := net_Read n sz in
     (data <> [] \/ e = None -> measure n' < measure n)%nat) ->
  (forall n p, (measure (net_Write n p).1 <= measure n)%nat) ->
  conn_ok c -> 0 < sl_len (readScratch c) ->
  exists c' l e, ReadLine (S (potential measure c)) c = LineDone c' l e /\ conn_ok c'.
Proof.
  intros Hr Hw Hc Hsz.
  destruct (ReadLine_loop_done measure Hr Hw (S (potential measure c)) c []) as (c' & l & e & E & [Hc' _] & _);
    [done|done|lia|]. by exists c', l, e.
Qed.
End Props.

(** ** Witnesses *)

#[local] Existing Instance doubling.

(** "ab\r" and "\nc" arrive in two pieces. *)
Definition split_line : Conn ScriptConn Ring := net_conn [[97; 98; 13]; [10; 99]] 6 64 [].

Definition after_read (c : Conn ScriptConn Ring) : Conn ScriptConn Ring :=
  match readLocked c 1024 with Some (c', _) => c' | None => c end.

Definition split_line1 := set_readLineCR (after_read split_line) true.

Lemma ReadLine_returns_line_witness :
  exists c' , ReadLine 2 split_line = LineDone c' [97; 98] None /\ contents (readBuf c') = [99].
Proof.
  assert (E1 : readLocked split_line 1024 = Some (after_read split_line, ([97; 98; 13], None)))
    by (vm_compute; reflexivity).
  assert (E2 : readLocked split_line1 1024 = Some (after_read split_line1, ([] ++ 10 :: [99], None)))
    by (vm_compute; reflexivity).
  assert (Hr : reads split_line [[97; 98; 13]] split_line1).
  { eapply reads_cons; [exact E1|done|]. apply reads_nil. }
  destruct (ReadLine_returns_line split_line [[97; 98; 13]] split_line1 _ [] [99] None 2%nat
    (net_conn_ok [[97; 98; 13]; [10; 99]] 6 64 [] ltac:(lia) ltac:(lia) ltac:(by vm_compute)) Hr
    ltac:(by_decide) E2 ltac:(by_decide) ltac:(simpl; lia)) as (q & E & _ & Hit).
  eexists. split; [exact E|]. cbn [set_readLineCR set_readBuf readBuf].
  change (q_items q) with (contents q) in Hit. rewrite Hit. by vm_compute.
Defined.

(** 1030 bytes queued: a line of 3, 1020 others, then 5 more. *)
Definition long_queue : bytes := [97; 98; 13] ++ 10 :: (replicate 1020%nat 1 ++ [2; 3; 4; 5; 6]).

Lemma ReadLine_rotates_queue_witness :
  exists c', ReadLine 1 (net_conn [] 11 64 long_queue) = LineDone c' [97; 98] None /\
    contents (readBuf c') = [2; 3; 4; 5; 6] ++ replicate 1020%nat 1.
Proof.
  assert (Hq : q_items (readBuf (net_conn [] 11 64 long_queue)) =
    [97; 98; 13] ++ 10 :: (replicate 1020%nat 1 ++ [2; 3; 4; 5; 6])) by by vm_compute.
  destruct (ReadLine_rotates_queue (net_conn [] 11 64 long_queue) [97; 98; 13]
    (replicate 1020%nat 1 ++ [2; 3; 4; 5; 6]) 1
    (net_conn_ok [] 11 64 long_queue ltac:(lia) ltac:(lia) ltac:(by vm_compute)) Hq ltac:(by_decide)
    ltac:(simpl; lia) ltac:(lia)) as (c' & E & _ & _ & _ & Hit & _).
  exists c'. split; [exact E|]. change (q_items (readBuf c')) with (contents (readBuf c')) in Hit.
  rewrite Hit. by vm_compute.
Defined.

(** What is left of a script. *)
Definition script_size (n : ScriptConn) : nat := sum_list_with (fun l => S (length l)) (script n).

Lemma ReadLine_terminates_witness :
  exists c' l e, ReadLine (S (potential script_size split_line)) split_line = LineDone c' l e /\
    conn_ok c'.
Proof.
  apply (ReadLine_terminates script_size split_line).
  - intros [s l r] sz Hsz. unfold net_Read, ScriptConn_NetConn, script_Read, script_size; simpl.
    destruct s as [|x s]; simpl; [by intros [|]|]. intros _.
    pose proof (take_drop (Z.to_nat sz) x) as Hx. apply (f_equal length) in Hx.
    rewrite length_app in Hx. destruct (drop (Z.to_nat sz) x) as [|y r'] eqn:Ed; [lia|].
    simpl in *. assert (length (take (Z.to_nat sz) x) <> 0)%nat; [|lia].
    rewrite length_take. destruct x; [by rewrite drop_nil in Ed|simpl; lia].
  - intros [s l r] p. unfold net_Write, ScriptConn_NetConn, script_Write, script_size; simpl.
    by destruct (zlen p <=? r).
  - apply net_conn_ok; [lia|lia|by vm_compute].
  - simpl. lia.
Defined.
