(* ===== verification/LineStream.v ===== *)
(** * LineStream: successive [ReadLine] calls give the lines of the stream.

    The network is one that ends ([ends]: it cannot deliver for ever), and the conversation
    is [calm]: an error comes only when nothing more will, and no read brings more than
    1024 bytes (the size of [ReadLine]'s buffer) or can fill the parser's event array. *)
From S2P Require Import Prelude Constants GoSlice ByteQueue RingBuf StaticBuf TelnetParser ParserSpec ParserProps Wire.
From S2P Require Import Options NetConn TelnetConn ConnWriter ConnReader ConnLine.

(** ** Cutting at line feeds *)

Fixpoint cut (text : bytes) : option (bytes * bytes) :=
  match text with
  | [] => None
  | b :: text' => if b =? 10 then Some ([], text') else '(pre, rest) ← cut text'; Some (b :: pre, rest)
  end.

(** The first [k] lines of a text, each with whether a line feed ended it, and the rest. *)
Fixpoint text_lines (k : nat) (text : bytes) : list (bytes * bool) * bytes :=
  match k with
  | O => ([], text)
  | S k' =>
      match cut text with
      | Some (pre, rest) => let '(ls, r) := text_lines k' rest in ((pre, true) :: ls, r)
      | None => let '(ls, r) := text_lines k' [] in ((text, false) :: ls, r)
      end
  end.

Lemma cut_Some text pre rest : cut text = Some (pre, rest) -> text = pre ++ 10 :: rest /\ 10 ∉ pre.
Proof.
  revert pre. induction text as [|b text IH]; intros pre E; [done|]. cbn [cut] in E.
  destruct (Z.eqb_spec b 10) as [->|Hb]; [simplify_eq; split; [done|apply not_elem_of_nil]|].
  destruct (cut text) as [[pre' rest']|]; [|done]. cbn in E. simplify_eq.
  destruct (IH pre' eq_refl) as [-> Hn]. split; [done|]. rewrite not_elem_of_cons. split; [congruence|done].
Qed.

Lemma cut_None text : cut text = None -> 10 ∉ text.
Proof.
  induction text as [|b text IH]; intros E; [apply not_elem_of_nil|]. cbn [cut] in E.
  destruct (Z.eqb_spec b 10) as [->|Hb]; [done|]. destruct (cut text) as [[]|]; [done|].
  rewrite not_elem_of_cons. split; [congruence|auto].
Qed.

Lemma cut_app pre rest : 10 ∉ pre -> cut (pre ++ 10 :: rest) = Some (pre, rest).
Proof.
  induction pre as [|b pre IH]; intros Hn; [done|]. apply not_elem_of_cons in Hn as [Hb Hn].
  cbn [app cut]. rewrite (proj2 (Z.eqb_neq b 10)) by congruence. by rewrite IH.
Qed.

Lemma cut_not text : 10 ∉ text -> cut text = None.
Proof.
  intros Hn. destruct (cut text) as [[pre rest]|] eqn:E; [|done]. apply cut_Some in E as [-> _].
  destruct Hn. apply elem_of_app. right. by apply elem_of_cons; left.
Qed.

(** A line as [ReadLine] returns it: without the carriage return before its line feed,
    which stays only when a read without text came between the two. *)
Definition returned (r : bytes * option error) (piece : bytes * bool) : Prop :=
  if piece.2 then r.2 = None /\ (r.1 = strip_cr piece.1 \/ r.1 = piece.1)
  else r.2 <> None /\ r.1 = piece.1.

Section Stream.
  Context {N Q : Type} `{NetConnLaws N} `{GrowPolicy} `{ByteQueueLaws Q}.
  Implicit Type c : Conn N Q.

(** ** The network *)

(** A network that ends: it does not deliver for ever, and writing to it brings nothing. *)
Record ends (measure : N -> nat) : Prop := {
  en_read n sz : 0 < sz -> let '(n', (data, e)) := net_Read n sz in
    (data <> [] \/ e = None -> measure n' < measure n)%nat;
  en_write n p : (measure (net_Write n p).1 <= measure n)%nat
}.

(** A chunk whose text fits the buffer of [ReadLine] and whose runs fit the parser's array. *)
Definition chunk_fits (data : bytes) : Prop := zlen data <= 1024 /\ fits_events data.

(** A conversation in which every read of [sz] bytes brings such a chunk, and an error only
    when nothing more will come, whatever is written meanwhile. [good] are the states of the
    network that it goes through. *)
Record orderly (sz : Z) (good : N -> Prop) : Prop := {
  or_read n : good n -> let '(n', (data, e)) := net_Read n sz in
    good n' /\ chunk_fits data /\ (e <> None -> net_incoming n' = []);
  or_write n p : good n -> good (net_Write n p).1
}.

Definition calm (sz : Z) (n : N) : Prop := exists good, orderly sz good /\ good n.

Lemma calm_read sz n : calm sz n ->
  let '(n', (data, e)) := net_Read n sz in calm sz n' /\ chunk_fits data /\ (e <> None -> net_incoming n' = []).
Proof using Type.
  intros (good & Ho & Hg). pose proof (or_read _ _ Ho n Hg) as Hr.
  destruct (net_Read n sz) as [n' [data e]]. destruct Hr as (Hg' & Hr). split; [by exists good|done].
Qed.

Lemma calm_writes sz n n' : net_writes n n' -> calm sz n -> calm sz n'.
Proof using Type.
  induction 1 as [|n1 n2 n3 [p ->] _ IH]; [done|]. intros (good & Ho & Hg). apply IH.
  exists good. split; [done|by apply (or_write _ _ Ho)].
Qed.

(** With a read buffer of at most 128 bytes the chunks always fit, by the contract of
    [net.Conn] alone. *)
Lemma short_reads_calm sz :
  0 <= sz <= 128 ->
  (forall n, let '(n', (_, e)) := net_Read n sz in e <> None -> net_incoming n' = []) ->
  forall n, calm sz n.
Proof using Type*.
  intros Hsz He n. exists (fun _ => True). split; [|done]. split; [|done]. intros n1 _.
  pose proof (net_Read_ok n1 sz (proj1 Hsz)) as Hr. specialize (He n1).
  destruct (net_Read n1 sz) as [n' [data e]]. destruct Hr as (Hl & _).
  split; [done|]. split; [|done]. split; [lia|left; lia].
Qed.

(** The states between calls. *)
Record line_state c : Prop := {
  ls_ok : conn_ok c;
  ls_scratch : 0 < sl_len (readScratch c);
  ls_cap : 1024 <= q_cap (readBuf c);
  ls_queue : (length (q_items (readBuf c)) <= 1024)%nat;
  ls_calm : calm (sl_len (readScratch c)) (netConn c)
}.

Lemma read_calm c plen c1 bs e :
  calm (sl_len (readScratch c)) (netConn c) -> read_result c plen c1 bs e ->
  calm (sl_len (readScratch c1)) (netConn c1).
Proof using Type*.
  intros Hcalm [_ Hss _ _ _ _ _ Hnet]. rewrite (ss_scratch _ _ Hss). apply (calm_writes _ _ _ Hnet).
  destruct (0 <? _); [done|]. pose proof (calm_read _ _ Hcalm) as Hr. fold (arrival c) in Hr.
  by destruct (arrival c) as [nc [data e']], Hr.
Qed.

(** What one read does in such a state: it empties the queue. *)
Lemma line_read c plen :
  line_state c -> 1024 <= plen ->
  exists c1 bs e, readLocked c plen = Some (c1, (bs, e)) /\ read_result c plen c1 bs e /\
    q_items (readBuf c1) = [] /\ (length bs <= 1024)%nat /\ zlen bs <= q_cap (readBuf c1) /\
    ahead c = bs ++ ahead c1 /\ (e <> None -> bs = [] /\ ahead c1 = []).
Proof using Type*.
  intros [Hc Hsz Hcap Hq Hcalm] Hp. destruct (readLocked_ok c plen Hc ltac:(lia)) as (c1 & bs & e & E & Hr).
  exists c1, bs, e. split; [done|]. split; [done|].
  apply calm_read in Hcalm. fold (arrival c) in Hcalm.
  assert (Hs : chunk_fits (arrival c).2.1) by by destruct (arrival c) as [? []], Hcalm as (_ & ? & _).
  destruct Hs as [Hs Hfit]. pose proof (fitting_lossless c Hc Hfit ltac:(lia)) as Hll. pose proof (fetched_bound c Hc) as Hfb.
  assert (Hf : (length (fetched c) <= 1024)%nat).
  { unfold fetched. destruct (0 <? zlen (q_items (readBuf c))) eqn:Ez; [done|].
    apply Z.ltb_ge in Ez. destruct Hll as [-> _]; [by destruct (q_items (readBuf c)); [|zl]|].
    rewrite length_take. pose proof (decoded_short c (arrival c).2.1). unfold zlen in Hs. lia. }
  destruct Hr as [Hc1 Hss Hbs Hit He Hah Hst _].
  rewrite take_ge in Hbs by lia. rewrite drop_ge in Hit by lia. subst bs.
  split_and!; [done|done|rewrite (ss_cap _ _ Hss); zl|by apply Hah|].
  intros Hne. rewrite He in Hne. destruct (Z.ltb_spec 0 (zlen (fetched c))) as [|Hle]; [done|].
  assert (Hnil : fetched c = []) by (destruct (fetched c); [done|zl]). split; [done|].
  assert (Hqn : q_items (readBuf c) = []).
  { unfold fetched in Hnil. destruct (0 <? zlen (q_items (readBuf c))) eqn:Ez; [done|].
    apply Z.ltb_ge in Ez. by destruct (q_items (readBuf c)); [|zl]. }
  destruct (Hst Hqn) as [Hin _].
  pose proof (net_Read_ok (netConn c) (sl_len (readScratch c)) ltac:(lia)) as Hro.
  fold (arrival c) in Hro. destruct (arrival c) as [nc [data err]]. destruct Hro as (_ & _ & Hin' & _).
  destruct Hcalm as (_ & _ & Hend).
  cbn [fst snd] in *. rewrite Hin' in Hin. apply app_inv_head in Hin. unfold ahead.
  rewrite Hit, <- Hin, Hend; [done|]. by destruct err.
Qed.

(** *** Carriage return and line feed together

    Whether [ReadLine] drops the carriage return of a CR LF depends on how the bytes
    arrive: it does when the network never returns nothing without an error, and when no
    piece of the stream between the CR and the LF is without text. *)
Definition brisk : Prop :=
  forall n sz, 0 < sz -> (net_Read n sz).2.1 = [] -> (net_Read n sz).2.2 <> None.

(** If a line feed is the next text, any piece of what comes brings text. *)
Definition lf_at_once (cap : Z) (d : dstate) (raw : bytes) : Prop :=
  head (out_data (decode cap d raw).2) = Some 10 ->
  forall r1 r2, raw = r1 ++ r2 -> r1 <> [] -> out_data (decode cap d r1).2 <> [].

(** ... wherever the text so far ends in a carriage return. *)
Definition crlf_together (cap : Z) (d : dstate) (raw : bytes) : Prop :=
  forall r1 r2, raw = r1 ++ r2 -> last (out_data (decode cap d r1).2) = Some 13 ->
    lf_at_once cap (decode cap d r1).1 r2.

Definition next_lf_at_once c : Prop :=
  lf_at_once (sn_cap (parser c)) (alpha (parser c)) (net_incoming (netConn c)).

Record tight c : Prop := {
  ti_brisk : brisk;
  ti_stream : crlf_together (sn_cap (parser c)) (alpha (parser c)) (net_incoming (netConn c));
  ti_queue : last (q_items (readBuf c)) = Some 13 -> next_lf_at_once c
}.

Lemma out_data_decode_app cap d a b :
  out_data (decode cap d (a ++ b)).2 = out_data (decode cap d a).2 ++ out_data (decode cap (decode cap d a).1 b).2.
Proof using Type.
  rewrite decode_app. destruct (decode cap d a) as [d1 os1]. cbn [fst snd].
  destruct (decode cap d1 b) as [d2 os2]. cbn [snd]. apply out_data_app.
Qed.

Lemma last_app_some {A} (l k : list A) x : last k = Some x -> last (l ++ k) = Some x.
Proof using Type. intros E. by rewrite last_app, E. Qed.

Lemma crlf_together_drop cap d r1 r2 :
  crlf_together cap d (r1 ++ r2) -> crlf_together cap (decode cap d r1).1 r2.
Proof using Type.
  intros Ht a b E Hl. assert (Hd : (decode cap d (r1 ++ a)).1 = (decode cap (decode cap d r1).1 a).1).
  { rewrite decode_app. destruct (decode cap d r1) as [d1 o1]. cbn [fst]. by destruct (decode cap d1 a). }
  rewrite <- Hd. apply Ht; [by rewrite E, app_assoc|]. rewrite out_data_decode_app. by apply last_app_some.
Qed.

(** A read of queued text leaves the network and the parser alone. *)
Lemma queued_read c plen c1 bs e :
  conn_ok c -> 0 <= plen -> q_items (readBuf c) <> [] -> readLocked c plen = Some (c1, (bs, e)) ->
  parser c1 = parser c /\ netConn c1 = netConn c /\ e = None.
Proof using Type*.
  intros Hc Hp Hq E. assert (Hlt : 0 < zlen (q_items (readBuf c)))
    by (destruct (q_items (readBuf c)); [done|zl]).
  unfold readLocked in E. rewrite (q_Len_ok _ (ok_queue _ Hc)), (proj2 (Z.ltb_lt _ _)) in E by done.
  destruct (read_queue_ok c plen Hc Hp Hlt) as (q & Eq & _). rewrite Eq in E. by simplify_eq.
Qed.

(** The text of a fetched chunk is what the read returns. *)
Lemma fetched_text c c1 bs plen e :
  read_result c plen c1 bs e -> q_items (readBuf c) = [] -> q_items (readBuf c1) = [] ->
  ahead c = bs ++ ahead c1 -> bs = out_data (decoded c (arrival c).2.1).2.
Proof using Type.
  intros Hr Hq Hq1 Hah. destruct (rr_stream _ _ _ _ _ Hr Hq) as [Hin Ha].
  unfold ahead, decoded in *. rewrite Hq, Hq1, Hin, out_data_decode_app, Ha in Hah. cbn [app] in Hah.
  rewrite (ss_sn_cap _ _ (rr_setup _ _ _ _ _ Hr)) in Hah. by apply app_inv_tail in Hah.
Qed.

Lemma tight_read c plen c1 bs e :
  line_state c -> 0 <= plen -> tight c -> readLocked c plen = Some (c1, (bs, e)) ->
  read_result c plen c1 bs e -> q_items (readBuf c1) = [] -> ahead c = bs ++ ahead c1 ->
  tight c1 /\ (last bs = Some 13 -> next_lf_at_once c1).
Proof using Type*.
  intros Hl Hp [Hb Ht Hq] E Hr Hq1 Hah. pose proof (ls_ok _ Hl) as Hc.
  destruct (decide (q_items (readBuf c) = [])) as [Hqn|Hqn].
  - destruct (rr_stream _ _ _ _ _ Hr Hqn) as [Hin Ha]. pose proof (fetched_text c c1 bs plen e Hr Hqn Hq1 Hah) as Hbs.
    unfold decoded in *. rewrite Hin in Ht. rewrite <- (ss_sn_cap _ _ (rr_setup _ _ _ _ _ Hr)) in *.
    split; [split; [done| |by rewrite Hq1]|].
    + rewrite Ha. by apply crlf_together_drop.
    + intros Hlast. unfold next_lf_at_once. rewrite Ha. apply (Ht _ _ eq_refl). by rewrite <- Hbs.
  - destruct (queued_read c plen c1 bs e Hc Hp Hqn E) as (Ep & En & _).
    assert (Hbs : bs = q_items (readBuf c)).
    { unfold ahead, decoded in Hah. rewrite Ep, En, Hq1 in Hah. cbn [app] in Hah. by apply app_inv_tail in Hah. }
    split; [split; [done|by rewrite Ep, En|by rewrite Hq1]|].
    unfold next_lf_at_once in *. rewrite Ep, En, Hbs. exact Hq.
Qed.

(** A read without text and without error: the line feed is not next. *)
Lemma read_without_text c plen c1 :
  line_state c -> 0 <= plen -> tight c -> next_lf_at_once c -> readLocked c plen = Some (c1, ([], None)) ->
  read_result c plen c1 [] None -> q_items (readBuf c1) = [] -> ahead c = ahead c1 -> head (ahead c) <> Some 10.
Proof using Type*.
  intros Hl Hp [Hb _ _] Hlf E Hr Hq1 Hah Hh. pose proof (ls_ok _ Hl) as Hc.
  destruct (decide (q_items (readBuf c) = [])) as [Hqn|Hqn].
  - destruct (rr_stream _ _ _ _ _ Hr Hqn) as [Hin _]. pose proof (fetched_text c c1 [] plen None Hr Hqn Hq1 Hah) as Hbs.
    pose proof (rr_error _ _ _ _ _ Hr) as He. specialize (Hb (netConn c) (sl_len (readScratch c)) (ls_scratch _ Hl)).
    fold (arrival c) in Hb. unfold ahead in Hh. rewrite Hqn in Hh. cbn [app] in Hh.
    destruct (decide ((arrival c).2.1 = [])) as [Hd|Hd]; [|by apply (Hlf Hh _ _ Hin Hd)].
    destruct (Z.ltb_spec 0 (zlen (fetched c))) as [Hf|Hf].
    + unfold fetched in Hf. rewrite Hqn, Hd, event_data_nil, take_nil in Hf. done.
    + specialize (Hb Hd). by destruct (arrival c).2.2.
  - destruct (queued_read c plen c1 [] None Hc Hp Hqn E) as (Ep & En & _).
    unfold ahead, decoded in Hah. rewrite Ep, En, Hq1 in Hah. cbn [app] in Hah.
    by apply (app_inv_tail _ (q_items (readBuf c)) []) in Hah.
Qed.

(** The iteration that meets the line feed at the start of a read whose predecessor did
    not end in a carriage return. *)
Lemma ReadLine_iter_lf c line c1 rest e :
  conn_ok c -> readLocked c 1024 = Some (c1, (10 :: rest, e)) -> readLineCR c = false ->
  exists q, q_ok q /\ q_cap q = q_cap (readBuf c1) /\
    q_items q = take (Z.to_nat (q_cap (readBuf c1))) (q_items (readBuf c1) ++ rest) /\
    ReadLine_iter c line = Some (set_readLineCR (set_readBuf c1 q) false, inr (line, None)).
Proof using Type*.
  intros Hc E Hcr.
  destruct (ReadLine_iter_found c [] c1 [] rest e Hc E ltac:(apply not_elem_of_nil) ltac:(done))
    as (q & Hq & Hcap & Hit & Ei).
  exists q. split; [done|]. split; [done|]. split; [done|].
  pose proof (readLocked_read c 1024 c1 _ e Hc ltac:(lia) E) as [_ Hss _ _ _ _ _ _].
  revert Ei. unfold ReadLine_iter. rewrite E. cbn [mbind option_bind find_lf]. change (10 =? 10) with true. cbn iota.
  rewrite (ss_CR _ _ Hss), Hcr. change (Z.of_nat 0) with 0. change (0 <? 0) with false. rewrite andb_false_r. cbn [andb].
  assert (Hsame : forall (c2 c3 : Conn N Q) (l l' : bytes) (o : option error),
    Some (c2, inr (l, o) : bytes + (bytes * option error)) = Some (c3, inr ([], None)) -> l' = line ->
    Some (c2, inr (l', o) : bytes + (bytes * option error)) = Some (c3, inr (line, None)))
    by (intros; congruence).
  destruct (0 + 1 <? zlen _); cbn [mbind option_bind].
  - destruct (q_Write _ _) as [[q1 r]|]; cbn [mbind option_bind]; [|done].
    intros Ei. eapply Hsame; [exact Ei|]. apply app_nil_r.
  - intros Ei. eapply Hsame; [exact Ei|]. apply app_nil_r.
Qed.

(** ** A call *)

Lemma line_state_after c c1 q b :
  line_state c -> conn_ok c1 -> same_setup c c1 -> calm (sl_len (readScratch c1)) (netConn c1) -> q_ok q -> q_cap q = q_cap (readBuf c1) ->
  (length (q_items q) <= 1024)%nat -> line_state (set_readLineCR (set_readBuf c1 q) b).
Proof using Type.
  intros [] Hc1 Hss Hcalm Hq Hcap Hlen.
  split; [by apply set_readLineCR_ok, set_readBuf_ok|..]; simpl; [| |done|done].
  - by rewrite (ss_scratch _ _ Hss).
  - by rewrite Hcap, (ss_cap _ _ Hss).
Qed.

(** The flag never claims a carriage return that is not there. *)
Definition flag_ok c (line : bytes) : Prop := line <> [] -> readLineCR c = true -> last line = Some 13.

(** If a carriage return is the last of the line so far, then either the flag says so or
    the line feed does not come next. *)
Definition exact_ok c (line : bytes) : Prop :=
  tight c /\ (last line = Some 13 -> (readLineCR c = true /\ next_lf_at_once c) \/ head (ahead c) <> Some 10).

(** The iteration that meets the line feed. *)
Lemma line_found c line c1 pre rest e :
  line_state c -> flag_ok c line -> readLocked c 1024 = Some (c1, (pre ++ 10 :: rest, e)) ->
  read_result c 1024 c1 (pre ++ 10 :: rest) e -> q_items (readBuf c1) = [] -> 10 ∉ pre ->
  (length (pre ++ 10%Z :: rest) <= 1024)%nat -> zlen (pre ++ 10 :: rest) <= q_cap (readBuf c1) ->
  ahead c = (pre ++ 10 :: rest) ++ ahead c1 ->
  exists c' l', ReadLine_iter c line = Some (c', inr (l', None)) /\ line_state c' /\
    ahead c' = rest ++ ahead c1 /\ (l' = strip_cr (line ++ pre) \/ l' = line ++ pre) /\
    (exact_ok c line -> l' = strip_cr (line ++ pre) /\ tight c').
Proof using Type*.
  intros Hls Hflag E Hr Hq0 Hpre Hb1 Hb2 Hah. pose proof (ls_ok _ Hls) as Hc.
  assert (Hi : exists q l', q_ok q /\ q_cap q = q_cap (readBuf c1) /\
    q_items q = take (Z.to_nat (q_cap (readBuf c1))) (q_items (readBuf c1) ++ rest) /\
    ReadLine_iter c line = Some (set_readLineCR (set_readBuf c1 q) false, inr (l', None)) /\
    (l' = strip_cr (line ++ pre) \/ l' = line ++ pre) /\ (exact_ok c line -> l' = strip_cr (line ++ pre))).
  { destruct (decide (pre = [] /\ readLineCR c = false)) as [[-> Hcr]|Hcase].
    - destruct (ReadLine_iter_lf c line c1 rest e Hc E Hcr) as (q & Hq & Hqc & Hit & Hi).
      exists q, line. rewrite app_nil_r. split_and!; try done; [by right|]. intros [_ Hx].
      unfold strip_cr. destruct (decide (last line = Some 13)) as [Hlast|]; [|done].
      destruct (Hx Hlast) as [[Hcr' _]|Hh]; [congruence|]. by rewrite Hah in Hh.
    - destruct (ReadLine_iter_found c line c1 pre rest e Hc E Hpre) as (q & Hq & Hqc & Hit & Hi).
      + intros Hne Hp. destruct (readLineCR c) eqn:Ecr; [|by destruct Hcase].
        by rewrite bool_decide_true by auto.
      + exists q, (strip_cr (line ++ pre)). split_and!; try done. by left. }
  destruct Hi as (q & l' & Hq & Hqc & Hit & -> & Hl' & Hx). rewrite Hq0 in Hit. cbn [app] in Hit.
  pose proof Hb1 as Hb1'. rewrite length_app in Hb1'. simpl in Hb1'.
  rewrite zlen_app, zlen_cons in Hb2. pose proof (zlen_nonneg pre).
  rewrite take_ge in Hit by (unfold zlen in *; lia).
  eexists _, l'. split; [done|]. split; [|split; [|split; [done|]]].
  - apply (line_state_after c); try done;
      [apply (rr_ok _ _ _ _ _ Hr)|apply (rr_setup _ _ _ _ _ Hr)|exact (read_calm c 1024 c1 _ e (ls_calm _ Hls) Hr)|].
    rewrite Hit. lia.
  - unfold ahead. simpl. by rewrite Hit, Hq0.
  - intros Hex. split; [by apply Hx|]. destruct Hex as [Ht _].
    destruct (tight_read c 1024 c1 _ e Hls ltac:(lia) Ht E Hr Hq0 Hah) as [[Hb Hst _] Hnext].
    split; [done|done|]. cbn [readBuf set_readLineCR set_readBuf]. rewrite Hit. intros Hlast.
    apply Hnext. change (pre ++ 10 :: rest) with (pre ++ [10] ++ rest). by do 2 apply last_app_some.
Qed.

(** The iteration that does not. *)
Lemma exact_more c line c1 bs :
  line_state c -> exact_ok c line -> readLocked c 1024 = Some (c1, (bs, None)) ->
  read_result c 1024 c1 bs None -> q_items (readBuf c1) = [] -> ahead c = bs ++ ahead c1 ->
  exact_ok (set_readLineCR c1 (if decide (bs = []) then false else bool_decide (last bs = Some 13))) (line ++ bs).
Proof using Type*.
  intros Hls [Ht Hx] E Hr Hq0 Hah.
  destruct (tight_read c 1024 c1 bs None Hls ltac:(lia) Ht E Hr Hq0 Hah) as [[Hb Hst Hqt] Hnext].
  split; [by split|]. destruct (decide (bs = [])) as [->|Hne].
  - rewrite app_nil_r. intros Hlast. right. change (ahead (set_readLineCR c1 false)) with (ahead c1).
    cbn [app] in Hah. destruct (Hx Hlast) as [[_ Hlf]|Hh]; [|by rewrite <- Hah]. rewrite <- Hah.
    by eapply (read_without_text c 1024 c1 Hls ltac:(lia) Ht).
  - intros Hlast. left. assert (Hl : last bs = Some 13).
    { rewrite last_app in Hlast. destruct (last bs) eqn:El; [done|]. by apply last_None in El. }
    split; [|by apply Hnext]. simpl. by apply bool_decide_eq_true.
Qed.

Context (measure : N -> nat) (Hnet : ends measure).

(** A loop of [ReadLine] that has [line] so far. *)
Lemma ReadLine_loop_stream fuel : forall c line,
  line_state c -> flag_ok c line -> 10 ∉ line -> (potential measure c < fuel)%nat ->
  exists c' l e, ReadLine_loop fuel c line = LineDone c' l e /\ line_state c' /\
    match cut (ahead c) with
    | Some (pre, rest) => returned (l, e) (line ++ pre, true) /\ ahead c' = rest /\
        (exact_ok c line -> l = strip_cr (line ++ pre) /\ tight c')
    | None => returned (l, e) (line ++ ahead c, false) /\ ahead c' = []
    end.
Proof using Type*.
  induction fuel as [|fuel IH]; intros c line Hls Hflag Hline Hf; [lia|]. cbn [ReadLine_loop].
  pose proof Hls as [Hc Hsz Hcap Hqlen Hcalm].
  destruct (line_read c 1024 Hls ltac:(lia)) as (c1 & bs & e & E & Hr & Hq0 & Hb1 & Hb2 & Hah & Hend).
  pose proof (read_lowers_potential measure (en_read _ Hnet) (en_write _ Hnet) c 1024 c1 bs e Hc Hsz ltac:(lia) Hr) as Hpot.
  pose proof (rr_ok _ _ _ _ _ Hr) as Hc1. pose proof (rr_setup _ _ _ _ _ Hr) as Hss.
  destruct (cut bs) as [[pre rest]|] eqn:Ecut.
  { apply cut_Some in Ecut as [-> Hpre].
    destruct (line_found c line c1 pre rest e Hls Hflag E Hr Hq0 Hpre Hb1 Hb2 Hah) as (c' & l' & -> & Hls' & Hah' & Hl' & Hx).
    rewrite Hah, <- app_assoc. cbn [app]. rewrite cut_app by done. exists c', l', None. done. }
  apply cut_None in Ecut.
  assert (Hnext : forall b, line_state (set_readLineCR c1 b)).
  { intros b. replace (set_readLineCR c1 b) with (set_readLineCR (set_readBuf c1 (readBuf c1)) b) by (by destruct c1).
    apply (line_state_after c); try done; [apply (read_calm c 1024 c1 bs e Hcalm Hr)|apply Hc1|]. rewrite Hq0. simpl. lia. }
  assert (Hline' : 10 ∉ line ++ bs) by (rewrite elem_of_app; tauto).
  assert (Hcut : cut (ahead c) = '(pre, rest) ← cut (ahead c1); Some (bs ++ pre, rest)).
  { rewrite Hah. destruct (cut (ahead c1)) as [[pre rest]|] eqn:E1; cbn.
    - apply cut_Some in E1 as [-> Hn]. rewrite app_assoc, cut_app; [done|]. rewrite elem_of_app. tauto.
    - apply cut_None in E1. apply cut_not. rewrite elem_of_app. tauto. }
  set (c2 := set_readLineCR c1 (if decide (bs = []) then false else bool_decide (last bs = Some 13))).
  assert (Hit : ReadLine_iter c line = Some (c2, if e is Some e then inr (line ++ bs, Some e) else inl (line ++ bs))).
  { unfold c2. destruct (decide (bs = [])) as [->|Hne].
    - unfold ReadLine_iter. rewrite E. cbn. rewrite app_nil_r. by destruct e.
    - destruct e; [by destruct Hend|]. by apply ReadLine_iter_more. }
  rewrite Hit. clear Hit. destruct e as [e|].
  { destruct Hend as [-> Hnil]; [done|]. rewrite Hcut, Hah, Hnil. cbn.
    eexists _, _, _. split; [done|]. rewrite !app_nil_r. split; [apply Hnext|]. done. }
  assert (Hfl : flag_ok c2 (line ++ bs)).
  { unfold flag_ok, c2. simpl. destruct (decide (bs = [])); [done|]. intros _ Hlast%bool_decide_eq_true.
    by rewrite last_app, Hlast. }
  destruct (IH c2 (line ++ bs) (Hnext _) Hfl Hline') as (c' & l & e' & -> & Hls' & Hres).
  { change (potential measure c2) with (potential measure c1). specialize (Hpot (or_intror eq_refl)). lia. }
  exists c', l, e'. split; [done|]. split; [done|]. change (ahead c2) with (ahead c1) in Hres.
  rewrite Hcut, Hah. destruct (cut (ahead c1)) as [[pre rest]|]; cbn; rewrite app_assoc; [|done].
  destruct Hres as (Hret & Hrest & Hex). split; [done|]. split; [done|]. intros Hx. apply Hex. by apply (exact_more c).
Qed.

(** [k] calls, each with as much fuel as it can need. *)
Fixpoint read_lines (k : nat) c : option (Conn N Q * list (bytes * option error)) :=
  match k with
  | O => Some (c, [])
  | S k' =>
      match ReadLine (S (potential measure c)) c with
      | LineDone c l e => '(c, rs) ← read_lines k' c; Some (c, (l, e) :: rs)
      | _ => None
      end
  end.

Lemma read_lines_ok k : forall c,
  line_state c ->
  exists c' rs, read_lines k c = Some (c', rs) /\ line_state c' /\
    let '(ls, rest) := text_lines k (ahead c) in
    Forall2 returned rs ls /\ ahead c' = rest /\
    (tight c \/ ahead c = [] -> Forall2 (fun r piece => piece.2 = true -> r.1 = strip_cr piece.1) rs ls).
Proof using Type*.
  induction k as [|k IH]; intros c Hc; cbn [read_lines text_lines].
  { exists c, []. by split_and!. }
  destruct (ReadLine_loop_stream (S (potential measure c)) c [] Hc) as (c1 & l & e & E & Hc1 & Hr);
    [by intros []|apply not_elem_of_nil|lia|].
  unfold ReadLine. rewrite E. destruct (IH c1 Hc1) as (c2 & rs & -> & Hc2 & Hrest). cbn [mbind option_bind].
  exists c2, ((l, e) :: rs). split; [done|]. split; [done|].
  destruct (cut (ahead c)) as [[pre rest]|] eqn:Ecut; cbn [app] in Hr.
  - destruct Hr as (Hl & Ha & Hx). rewrite Ha in Hrest. destruct (text_lines k rest).
    destruct Hrest as (Hf & Hrem & Ht). split; [by constructor|]. split; [done|]. intros Hd.
    destruct Hd as [Hd|Hd]; [|by rewrite Hd in Ecut]. destruct Hx as [Hx1 Hx2]; [by split|].
    constructor; [done|]. apply Ht. by left.
  - destruct Hr as [Hl Ha]. rewrite Ha in Hrest. destruct (text_lines k []).
    destruct Hrest as (Hf & Hrem & Ht). split; [by constructor|]. split; [done|]. intros _.
    constructor; [done|]. apply Ht. by right.
Qed.

(** C6: [ReadLine] follows the stream, in calm conversations: as long as no read of the
    network brings more than [ReadLine]'s buffer of 1024 bytes can hold (beyond it text is
    reordered, [ReadLine_rotates_queue]) nor, if it brings more than 128 bytes, more than 63
    IACs (beyond which the parser may drop runs), and the network fails only at its end;
    always so, but for the last, with a read buffer of at most 128 bytes
    ([short_reads_calm]). The network ends; the connection is in a good state, with a
    read buffer that is not empty, a ring of at least 1024 bytes and at most 1024 bytes in
    it. Then [k] successive calls return, without a panic or a hang, the next [k] lines of
    the text that the TELNET decoder finds in the queue and in the network stream, wherever
    the stream is cut into such reads: each line without its line feed and (but where a read
    without text came between the two) the carriage return before it, and then what is left
    together with an error; and exactly the rest of the text is still ahead. Where the
    network does not return nothing, and nothing but text comes between CR and LF, the
    carriage return is always gone. *)
Theorem ReadLine_follows_stream c k :
  line_state c ->
  exists c' rs, read_lines k c = Some (c', rs) /\ line_state c' /\
    let '(ls, rest) := text_lines k (ahead c) in
    Forall2 returned rs ls /\ ahead c' = rest /\
    (tight c -> Forall2 (fun r piece => piece.2 = true -> r.1 = strip_cr piece.1) rs ls).
Proof using Type*.
  intros Hc. destruct (read_lines_ok k c Hc) as (c' & rs & E & Hc' & Hr).
  exists c', rs. split; [done|]. split; [done|]. destruct (text_lines k (ahead c)).
  destruct Hr as (? & ? & Hx). split_and!; [done|done|]. intros Ht. apply Hx. by left.
Qed.
End Stream.

(** ** Streams of whole writes

    No text between CR and LF is lost when no write ends in a carriage return, whatever
    commands come between the writes. *)

Lemma escape_split t : forall a b, escape t = a ++ b ->
  (exists t1 t2, t = t1 ++ t2 /\ a = escape t1 /\ b = escape t2) \/
  (exists t1 t2, t = t1 ++ CmdIAC :: t2 /\ a = escape t1 ++ [CmdIAC] /\ b = CmdIAC :: escape t2).
Proof.
  induction t as [|x t IH]; intros a b E.
  { left. exists [], []. symmetry in E. by apply app_eq_nil in E as [-> ->]. }
  destruct a as [|y a]; [left; by exists [], (x :: t)|]. rewrite escape_cons in E.
  assert (Hn : forall y0 r, (if x =? CmdIAC then [CmdIAC; CmdIAC] else [x]) = [y0] ++ r -> escape t = a ++ b -> r = [] -> y = y0 ->
    (exists t1 t2, x :: t = t1 ++ t2 /\ y :: a = escape t1 /\ b = escape t2) \/
    (exists t1 t2, x :: t = t1 ++ CmdIAC :: t2 /\ y :: a = escape t1 ++ [CmdIAC] /\ b = CmdIAC :: escape t2)).
  { intros y0 r Ex E' -> ->. destruct (IH a b E') as [(t1 & t2 & -> & -> & ->)|(t1 & t2 & -> & -> & ->)];
      [left|right]; exists (x :: t1), t2; by rewrite escape_cons, Ex. }
  destruct (Z.eqb_spec x CmdIAC) as [->|Hx]; [|by injection E as -> E; eapply Hn].
  cbn [app] in E. injection E as <- E. destruct a as [|z a]; [right; by exists [], t|]. injection E as <- E.
  destruct (IH a b E) as [(t1 & t2 & -> & -> & ->)|(t1 & t2 & -> & -> & ->)];
    [left|right]; exists (CmdIAC :: t1), t2; (split; [done|]); by rewrite (escape_cons CmdIAC t1).
Qed.

Definition no_final_cr (x : item) : Prop := match x with IText t => last t <> Some 13 | _ => True end.

Lemma lf_at_once_cons cap b l : b <> CmdIAC -> lf_at_once cap DData (b :: l).
Proof.
  intros Hb _ [|x r1] r2 E; [done|]. injection E as <- _. intros _. simpl.
  rewrite (proj2 (Z.eqb_neq _ _)) by done. by destruct (decode cap DData r1).
Qed.

Lemma items_together cap xs :
  0 <= cap -> Forall item_ok xs -> Forall no_final_cr xs -> crlf_together cap DData (wire xs).
Proof.
  intros Hcap Hok. induction Hok as [|x xs Hx Hok IH]; intros Hcr r1 r2 E Hl.
  { unfold wire in E. symmetry in E. simpl in E. apply app_eq_nil in E as [-> _]. done. }
  apply Forall_cons_1 in Hcr as [Hcx Hcr]. change (wire (x :: xs)) with (wire_item x ++ wire xs) in E.
  pose proof (decode_wire cap Hcap [x] ltac:(by apply Forall_singleton)) as Hd.
  unfold wire in Hd. cbn [mbind list_bind] in Hd. rewrite app_nil_r in Hd.
  assert (Ht : texts [x] = match x with IText t => t | _ => [] end).
  { unfold texts. cbn [mbind list_bind]. by rewrite app_nil_r. }
  apply eq_sym, app_eq_app in E as (k & [(-> & E)|(E & ->)]).
  - revert Hl. rewrite decode_app. destruct (decode cap DData (wire_item x)) as [d os]. destruct Hd as (-> & Hd & _).
    specialize (IH Hcr k r2 E). destruct (decode cap DData k) as [d2 os2]. cbn [fst snd] in *.
    rewrite out_data_app, Hd, Ht, last_app. destruct (last (out_data os2)) as [z|]; [exact IH|].
    intros Hl. destruct x; simpl in *; done.
  - assert (Hpre : exists l', (match x with IText t => t | _ => [] end) = out_data (decode cap DData r1).2 ++ l').
    { rewrite <- Ht. rewrite E, decode_app in Hd. destruct (decode cap DData r1) as [d1 o1].
      destruct (decode cap d1 k) as [d2 o2]. destruct Hd as (_ & <- & _). rewrite out_data_app. by eexists. }
    destruct x as [t|c o|o l]; [|destruct Hpre as [l' Hp]; symmetry in Hp; apply app_eq_nil in Hp as [Hp _];
      by rewrite Hp in Hl..].
    clear Hd Ht Hpre. cbn [wire_item] in E. apply escape_split in E as [(t1 & t2 & -> & -> & ->)|(t1 & t2 & -> & -> & ->)].
    + pose proof (decode_text cap t1) as Hd. destruct (decode cap DData (escape t1)) as [d os].
      destruct Hd as (-> & Hd & _). cbn [fst snd] in *. rewrite Hd in Hl.
      destruct t2 as [|b t2]; [by rewrite app_nil_r in Hcx|]. rewrite escape_cons.
      destruct (Z.eqb_spec b CmdIAC) as [->|Hb]; [|by apply lf_at_once_cons].
      intros Hh. cbn in Hh. by destruct (decode cap DData (escape t2 ++ wire xs)).
    + rewrite decode_app. pose proof (decode_text cap t1) as Hd. destruct (decode cap DData (escape t1)) as [d os].
      destruct Hd as (-> & _). cbn [fst]. intros Hh. cbn in Hh. by destruct (decode cap DData (escape t2 ++ wire xs)).
Qed.

(** Nor when no write begins with a line feed. *)
Definition no_initial_lf (x : item) : Prop := match x with IText t => head t <> Some 10 | _ => True end.

Lemma texts_no_lf xs : Forall no_initial_lf xs -> head (texts xs) <> Some 10.
Proof.
  induction 1 as [|x xs Hx _ IH]; [done|]. change (texts (x :: xs)) with (texts ([x] ++ xs)).
  unfold texts in *. rewrite bind_app. cbn [mbind list_bind]. rewrite app_nil_r.
  destruct x as [[|b t]|c o|o l]; done.
Qed.

(** The decoder after part of an item. *)
Lemma decode_rest cap d r k d' os xs :
  decode cap d (r ++ k) = (d', os) ->
  exists os2, decode cap (decode cap d r).1 k = (d', os2) /\
    out_data os = out_data (decode cap d r).2 ++ out_data os2 /\
    out_data (decode cap (decode cap d r).1 (k ++ xs)).2 = out_data os2 ++ out_data (decode cap d' xs).2.
Proof.
  rewrite decode_app. destruct (decode cap d r) as [d1 o1]. cbn [fst snd].
  destruct (decode cap d1 k) as [d2 o2] eqn:E2. intros [= <- <-]. exists o2.
  rewrite out_data_decode_app, E2. split_and!; [done|apply out_data_app|done].
Qed.

Lemma items_together_lf cap xs :
  0 <= cap -> Forall item_ok xs -> Forall no_initial_lf xs ->
  forall r1 r2, wire xs = r1 ++ r2 -> lf_at_once cap (decode cap DData r1).1 r2.
Proof.
  intros Hcap Hok. induction Hok as [|x xs Hx Hok IH]; intros Hlf r1 r2 E.
  { unfold wire in E. symmetry in E. simpl in E. apply app_eq_nil in E as [-> ->]. by intros Hh. }
  apply Forall_cons_1 in Hlf as [Hlx Hlf]. change (wire (x :: xs)) with (wire_item x ++ wire xs) in E.
  pose proof (decode_wire cap Hcap [x] ltac:(by apply Forall_singleton)) as Hd.
  unfold wire in Hd. cbn [mbind list_bind] in Hd. rewrite app_nil_r in Hd.
  pose proof (decode_wire cap Hcap xs Hok) as Hw. pose proof (texts_no_lf xs Hlf) as Hno.
  apply eq_sym, app_eq_app in E as (k & [(-> & E)|(E & ->)]).
  - rewrite decode_app. destruct (decode cap DData (wire_item x)) as [d os]. destruct Hd as (-> & _).
    specialize (IH Hlf k r2 E). by destruct (decode cap DData k).
  - rewrite E in Hd. destruct (decode cap DData (r1 ++ k)) as [d os] eqn:Ed. destruct Hd as (-> & Ht & _).
    destruct (decode_rest cap DData r1 k DData os (wire xs) Ed) as (os2 & Ek & Hos & Hrest).
    destruct (decode cap DData (wire xs)) as [dx ox]. destruct Hw as (_ & Hox & _). cbn [snd] in Hrest. rewrite Hox in Hrest.
    destruct (decide (out_data os2 = [])) as [Hnil|Hnil].
    { intros Hh. by rewrite Hrest, Hnil in Hh. }
    destruct x as [t|c o|o l]; [|rewrite Hos in Ht; apply app_eq_nil in Ht as [_ ?]; done..].
    clear Ht Hos Hrest Ed. cbn [wire_item] in E.
    apply escape_split in E as [(t1 & t2 & -> & -> & ->)|(t1 & t2 & -> & -> & ->)].
    + pose proof (decode_text cap t1) as Hd. destruct (decode cap DData (escape t1)) as [d1 os1].
      destruct Hd as (-> & _). cbn [fst] in *. destruct t2 as [|b t2]; [by simplify_eq/=|]. rewrite escape_cons.
      destruct (Z.eqb_spec b CmdIAC) as [->|Hb]; [|by apply lf_at_once_cons].
      intros Hh. cbn in Hh. by destruct (decode cap DData (escape t2 ++ wire xs)).
    + rewrite decode_app. pose proof (decode_text cap t1) as Hd. destruct (decode cap DData (escape t1)) as [d1 os1].
      destruct Hd as (-> & _). cbn [fst]. intros Hh. cbn in Hh. by destruct (decode cap DData (escape t2 ++ wire xs)).
Qed.

(** Either way, the two bytes of a line's ending stay together. *)
Definition clean_endings (xs : list item) : Prop := Forall no_final_cr xs \/ Forall no_initial_lf xs.

(** So a fresh connection to a peer that sends such items is in the good case. *)
Lemma fresh_tight {N Q} `{NetConnLaws N} `{ByteQueueLaws Q} (c : Conn N Q) xs :
  brisk (N := N) -> q_items (readBuf c) = [] -> alpha (parser c) = DData -> 0 <= sn_cap (parser c) ->
  net_incoming (netConn c) = wire xs -> Forall item_ok xs -> clean_endings xs -> tight c.
Proof.
  intros Hb Hq Ha Hcap Hin Hok Hcr. split; [done| |by rewrite Hq].
  rewrite Ha, Hin. destruct Hcr; [by apply items_together|]. intros r1 r2 E _. by apply (items_together_lf _ xs).
Qed.

(** ** A network with a window of 128 bytes *)

Record WindowConn := Window { pending : list Z; sent : list Z }.

#[export] Instance WindowConn_NetConn : NetConn WindowConn := {
  net_Read n sz :=
    match pending n with
    | [] => (n, ([], Some EOF))
    | _ => let k := Z.to_nat (Z.min sz 128) in
           (Window (drop k (pending n)) (sent n), ((fun b => b mod 256) <$> take k (pending n), None))
    end;
  net_Write n p := (Window (pending n) (sent n ++ p), (zlen p, None));
  net_Close n := (n, None)
}.

#[export] Instance WindowConn_Laws : NetConnLaws WindowConn.
Proof.
  refine {| net_sent := sent; net_incoming n := (fun b => b mod 256) <$> pending n |}.
  - intros [l s] sz Hsz. unfold net_Read, WindowConn_NetConn. cbn [pending sent].
    destruct l as [|b l]; [split_and!; [done|constructor|done|done]|]. set (k := Z.to_nat (Z.min sz 128)).
    split_and!; [| |cbn [pending]; by rewrite <- fmap_app, take_drop|done].
    + unfold zlen. rewrite length_fmap, length_take. lia.
    + apply Forall_fmap, Forall_true. intros x. unfold is_byte; simpl. apply Z.mod_pos_bound; lia.
  - intros [l s] p. unfold net_Write, WindowConn_NetConn. cbn [pending sent].
    split_and!; [apply zlen_nonneg|lia|lia| |done]. by rewrite take_ge by zl.
Defined.

Definition window_measure (n : WindowConn) : nat := length (pending n).

Lemma window_ends : ends window_measure.
Proof.
  split; [|done].
  intros [[|b l] s] sz Hsz; unfold net_Read, WindowConn_NetConn, window_measure; cbn [pending sent]; [by intros [?|?]|].
  intros _. rewrite length_drop. simpl. lia.
Qed.

(** Whatever the size of the read, the window brings at most 128 bytes. *)
Lemma window_calm sz n : calm sz n.
Proof.
  exists (fun _ => True). split; [|done]. split; [|done]. intros [l s] _.
  destruct l as [|b l]; unfold net_Read, WindowConn_NetConn; cbn [pending sent].
  - split; [done|]. split; [split; [done|left; done]|done].
  - split; [done|]. split; [|done].
    assert (Hl : zlen ((fun b => b mod 256) <$> take (Z.to_nat (Z.min sz 128)) (b :: l)) <= 128); [|split; [lia|by left]].
    unfold zlen. rewrite length_fmap, length_take. lia.
Qed.

#[local] Existing Instance doubling.

(** [size] is the length of the read buffer; the ring has 2048 cells. *)
Definition window_conn (l : bytes) (size : Z) : Conn WindowConn Ring :=
  MkConn (Window l []) plain_config NewParser empty_result NewNegotiator
    (MkRing (MkSlice (replicate 2048%nat 0) 2048) 2047 0 0) (MkSlice (replicate (Z.to_nat size) 0) size)
    (MkSB (MkSlice (replicate 64%nat 0) 0) 0)
    (Some []) (Some false) false false None 0 0 (MkStats 0 0 0 0 0 0 0).

Lemma window_conn_state l size : 0 < size -> line_state (window_conn l size).
Proof.
  intros Hs. unfold window_conn. split; cbn [readScratch sl_len readBuf]; [|done|by vm_compute|simpl; lia|apply window_calm].
  split; cbn [writeBuf parser readBuf negotiator readScratch events].
  - unfold wr_wf, sl_wf, sl_cap, zlen; simpl; lia.
  - apply NewParser_wf.
  - exists 11. split; simpl; try lia; try by rewrite u32_small. unfold sl_wf, sl_cap, zlen. simpl. lia.
  - apply NewNegotiator_wf.
  - unfold sl_wf, sl_cap, zlen. simpl. rewrite length_replicate. lia.
  - simpl. lia.
Qed.

Lemma window_brisk : brisk (N := WindowConn).
Proof.
  intros [[|b l] s] sz Hsz; unfold net_Read, WindowConn_NetConn; cbn [pending sent fst snd]; [done|].
  intros E. apply fmap_nil_inv in E. replace (Z.to_nat (Z.min sz 128)) with (S (Z.to_nat (Z.min sz 128 - 1))) in E by lia.
  done.
Qed.

(** "hi", a command, an empty line and "bye", in reads of three bytes. *)
Lemma ReadLine_follows_stream_witness :
  let c := window_conn [104; 105; 13; 10; 255; 251; 1; 10; 98; 121; 101] 3 in
  exists c' rs, read_lines window_measure 3 c = Some (c', rs) /\
    rs.*1 = [[104; 105]; []; [98; 121; 101]] /\ ahead c' = [].
Proof.
  intros c.
  destruct (ReadLine_follows_stream window_measure window_ends c 3
    (window_conn_state _ 3 ltac:(lia))) as (c' & rs & E & _ & Hr).
  assert (Ht : text_lines 3 (ahead c) =
    ([([104; 105; 13], true); ([], true); ([98; 121; 101], false)], [])) by by vm_compute.
  assert (Htight : tight c).
  { apply (fresh_tight c [IText [104; 105; 13; 10]; ICommand 251 1; IText [10; 98; 121; 101]] window_brisk);
      [done|done|by vm_compute|by vm_compute|by repeat constructor|by left; repeat constructor]. }
  rewrite Ht in Hr. destruct Hr as (Hf & Ha & Hx). specialize (Hx Htight).
  exists c', rs. split; [exact E|]. split; [|exact Ha]. clear E. pose proof (Forall2_length _ _ _ Hf) as Hlen.
  destruct rs as [|r1 [|r2 [|r3 [|r4 rs]]]]; try discriminate Hlen.
  apply Forall2_cons in Hf as [_ Hf], Hx as [X1 Hx]. apply Forall2_cons in Hf as [_ Hf], Hx as [X2 _].
  apply Forall2_cons in Hf as [R3 _].
  specialize (X1 eq_refl). specialize (X2 eq_refl). destruct R3 as [_ R3].
  destruct r1, r2, r3. vm_compute in X1, X2, R3. cbn. congruence.
Defined.

(** The exception: the carriage return and the line feed came in different reads and
    between them one that brought only a command; the carriage return is kept. *)
Lemma ReadLine_keeps_CR :
  match ReadLine 10 (net_conn [[104; 105; 13]; [255; 241]; [10]] 6 64 []) with
  | LineDone _ l _ => l = [104; 105; 13]
  | _ => False
  end.
Proof. by vm_compute. Qed.
