(* ===== verification/ConnSession.v ===== *)
(** * ConnSession: the life of a connection.

    Construction and the initial offers, the answers to the peer's commands, the
    terminal data, the event queue and the end. *)
From stdpp Require Import relations.
From S2P Require Import Prelude Constants GoSlice Pool ByteQueue RingBuf StaticBuf TelnetParser ParserSpec ParserProps Wire Options NetConn TelnetConn ConnWriter ConnReader.

Section Session.
  Context {N Q : Type} `{NetConnLaws N} `{GrowPolicy}.
  Implicit Type c : Conn N Q.

(** ** Sending into a buffer that has room: the network is not used *)

Record buffered c c' (l : bytes) : Prop := {
  bf_frame : frame c c';
  bf_net : netConn c' = netConn c;
  bf_wf : wr_wf c';
  bf_bytes : w_bytes c' = w_bytes c ++ l;
  bf_cap : w_cap c' = w_cap c
}.

Lemma buffered_refl c : wr_wf c -> buffered c c [].
Proof using Type*. intros Hc. split; try done. by rewrite app_nil_r. Qed.

Lemma buffered_trans c1 c2 c3 l1 l2 :
  buffered c1 c2 l1 -> buffered c2 c3 l2 -> buffered c1 c3 (l1 ++ l2).
Proof using Type*.
  intros [F1 N1 W1 B1 C1] [F2 N2 W2 B2 C2]. split; try congruence; [by etrans|].
  by rewrite B2, B1, app_assoc.
Qed.

Lemma buffered_set_stats c c' l s : buffered c c' l -> buffered c (set_stats c' s) l.
Proof using Type*. intros [F ? ? ? ?]. split; try done. destruct F. by split. Qed.

Lemma w_len_bytes c : wr_wf c -> w_len c = zlen (w_bytes c).
Proof using Type*. intros Hc. symmetry. by apply sl_bytes_len. Qed.

Lemma buffered_len c c' l : wr_wf c -> buffered c c' l -> w_len c' = w_len c + zlen l.
Proof using Type*.
  intros Hc [_ _ W B _]. by rewrite !w_len_bytes, B, zlen_app by done.
Qed.

Lemma w_append_buffered c l :
  wr_wf c -> w_len c + zlen l <= w_cap c -> buffered c (w_append c l) l.
Proof using Type*.
  intros Hc Hl. pose proof (w_append_ok c l Hc) as [F W _]. split; try done.
  - unfold w_bytes. simpl. by apply sl_append_bytes.
  - unfold w_cap. simpl. by apply sl_append_cap.
Qed.

Lemma SendCommand_buffered c k opt :
  wr_wf c -> closed c = false -> w_len c + 3 <= w_cap c ->
  buffered c (SendCommand c k opt).1 (wire_command k opt).
Proof using Type*.
  intros Hc Ho Hl. unfold SendCommand. rewrite Ho, (proj2 (Z.ltb_ge _ _)) by done.
  apply buffered_set_stats. by apply w_append_buffered.
Qed.

Lemma sn_required_ok data : sn_required data = 5 + zlen (escape data).
Proof using Type.
  unfold sn_required.
  assert (Hg : forall l a, foldl (fun required b => if b =? CmdIAC then required + 1 else required) a l
    = a + zlen (escape l) - zlen l).
  { induction l as [|b l IH]; intros a; cbn [foldl]; [unfold escape, zlen; simpl; lia|].
    rewrite IH, escape_cons, zlen_app, zlen_cons. destruct (b =? CmdIAC); unfold zlen; simpl; lia. }
  rewrite Hg. lia.
Qed.

Lemma sn_append_buffered l : forall c,
  wr_wf c -> w_len c + zlen (escape l) <= w_cap c -> buffered c (foldl sn_append c l) (escape l).
Proof using Type*.
  induction l as [|b l IH]; intros c Hc Hl; [by apply buffered_refl|].
  rewrite escape_cons in *. rewrite zlen_app in Hl. pose proof (zlen_nonneg (escape l)). cbn [foldl].
  assert (Hs : buffered c (sn_append c b) (if b =? CmdIAC then [CmdIAC; CmdIAC] else [b])).
  { unfold sn_append. destruct (Z.eqb_spec b CmdIAC) as [->|].
    - rewrite !zlen_cons, zlen_nil in Hl.
      pose proof (w_append_buffered c [CmdIAC] Hc) as H1'. unfold zlen at 1 in H1'. simpl in H1'.
      specialize (H1' ltac:(lia)). pose proof (buffered_len _ _ _ Hc H1') as Hlen.
      apply (buffered_trans _ _ _ _ _ H1'), w_append_buffered; [apply H1'|].
      rewrite Hlen, (bf_cap _ _ _ H1'). unfold zlen; simpl. lia.
    - apply w_append_buffered; [done|]. lia. }
  apply (buffered_trans _ _ _ _ _ Hs), IH; [apply Hs|].
  rewrite (buffered_len _ _ _ Hc Hs), (bf_cap _ _ _ Hs). lia.
Qed.

Lemma SendSubnegotiation_buffered c opt data :
  wr_wf c -> closed c = false -> w_len c + zlen (wire_sub opt data) <= w_cap c ->
  buffered c (SendSubnegotiation c opt data).1 (wire_sub opt data).
Proof using Type*.
  intros Hc Ho. rewrite length_wire_sub. intros Hl. pose proof (zlen_nonneg (escape data)).
  unfold SendSubnegotiation. rewrite Ho, sn_required_ok, (proj2 (Z.ltb_ge _ _)) by lia. cbn [fst].
  assert (H1' : buffered c (w_append c [CmdIAC; CmdSB; opt]) [CmdIAC; CmdSB; opt])
    by (apply w_append_buffered; [done|unfold zlen in *; simpl; lia]).
  pose proof (buffered_len _ _ _ Hc H1') as L1. change (zlen [CmdIAC; CmdSB; opt]) with 3 in L1.
  pose proof (sn_append_buffered data _ (bf_wf _ _ _ H1')) as H2'.
  rewrite (bf_cap _ _ _ H1'), L1 in H2'. specialize (H2' ltac:(lia)).
  pose proof (buffered_len _ _ _ (bf_wf _ _ _ H1') H2') as L2.
  apply (buffered_trans _ _ _ _ _ H1'), (buffered_trans _ _ _ _ _ H2'), w_append_buffered; [apply H2'|].
  rewrite L2, L1, (bf_cap _ _ _ H2'), (bf_cap _ _ _ H1').
  change (zlen [CmdIAC; CmdSE]) with 2. lia.
Qed.

(** ** The initial offers *)

Definition offer_items (enabled : bool) (opt : Z) : list item :=
  if enabled then [ICommand CmdWill opt] else [].

Definition naws_data (w h : Z) : bytes := [u8 (Z.shiftr w 8); u8 w; u8 (Z.shiftr h 8); u8 h].

Definition initial_items (cfg : Config) : list item :=
  offer_items (EnableBinary cfg) OptBinary ++
  offer_items (EnableSGA cfg) OptSGA ++
  offer_items (EnableEcho cfg) OptEcho ++
  offer_items (EnableNAWS cfg) OptNAWS ++
  (if EnableNAWS cfg then [ISub OptNAWS (naws_data (TerminalWidth cfg) (TerminalHeight cfg))] else []) ++
  offer_items (EnableTType cfg) OptTerminalType ++
  offer_items (EnableTermSpeed cfg) OptTermSpeed ++
  offer_items (EnableNewEnviron cfg) OptNewEnviron ++
  offer_items (EnableCharset cfg) OptCharset ++
  offer_items (EnableMCCP2 cfg) OptMCCP2 ++
  offer_items (EnableMCCP3 cfg) OptMCCP3 ++
  offer_items (EnableMSDP cfg) OptMSDP ++
  offer_items (EnableGMCP cfg) OptGMCP ++
  offer_items (EnableMSSP cfg) OptMSSP ++
  offer_items (EnableMCP cfg) OptMCP.

(** A step that buffers the items [xs], which take at most 13 bytes. *)
Definition buffers (f : Conn N Q -> Conn N Q) (xs : list item) : Prop :=
  zlen (wire xs) <= 13 /\
  forall c, wr_wf c -> closed c = false -> w_len c + 13 <= w_cap c -> buffered c (f c) (wire xs).

Lemma offer_buffers enabled opt : buffers (offer enabled opt) (offer_items enabled opt).
Proof using Type*.
  unfold buffers, offer, offer_items. destruct enabled; (split; [by vm_compute|]); intros c Hc Ho Hl.
  - apply SendCommand_buffered; done || lia.
  - by apply buffered_refl.
Qed.

Lemma naws_buffers (enabled : bool) w h :
  buffers (fun c => if enabled then (SendNAWS c w h).1 else c)
          (if enabled then [ISub OptNAWS (naws_data w h)] else []).
Proof using Type*.
  assert (Hlen : zlen (wire_sub OptNAWS (naws_data w h)) <= 13).
  { rewrite length_wire_sub. unfold naws_data, escape. simpl.
    unfold zlen. rewrite !length_app. repeat (case_match; simpl); lia. }
  unfold buffers. destruct enabled; unfold wire; cbn [mbind list_bind wire_item];
    rewrite ?app_nil_r; (split; [done|]); intros c Hc Ho Hl.
  - apply SendSubnegotiation_buffered; done || (unfold naws_data in *; lia).
  - by apply buffered_refl.
Qed.

Fixpoint run_steps (fs : list (Conn N Q -> Conn N Q)) c : Conn N Q :=
  match fs with [] => c | f :: fs' => run_steps fs' (f c) end.

Lemma run_steps_buffered fs xss :
  Forall2 buffers fs xss -> forall c,
  wr_wf c -> closed c = false -> w_len c + 13 * zlen fs <= w_cap c ->
  buffered c (run_steps fs c) (wire (concat xss)).
Proof using Type*.
  induction 1 as [|f xs fs xss [Hlen Hf] _ IH]; intros c Hc Ho Hl; [by apply buffered_refl|].
  rewrite zlen_cons in Hl. pose proof (zlen_nonneg fs). cbn [run_steps concat].
  assert (Hb : buffered c (f c) (wire xs)) by (apply Hf; done || lia).
  unfold wire. rewrite bind_app. apply (buffered_trans _ _ _ _ _ Hb), IH.
  - apply Hb.
  - destruct Hb as [[] _ _ _ _]. congruence.
  - rewrite (buffered_len _ _ _ Hc Hb), (bf_cap _ _ _ Hb). lia.
Qed.

(** The offers up to the flush. *)
Lemma negotiateInitial_buffered c :
  wr_wf c -> closed c = false -> w_len c + 195 <= w_cap c ->
  exists c1, buffered c c1 (wire (initial_items (config c))) /\
    negotiateInitial c = (Flush c1).1.
Proof using Type*.
  intros Hc Ho Hl. set (cfg := config c).
  assert (Hs : Forall2 buffers
    [offer (EnableBinary cfg) OptBinary; offer (EnableSGA cfg) OptSGA;
     offer (EnableEcho cfg) OptEcho; offer (EnableNAWS cfg) OptNAWS;
     (fun c => if EnableNAWS cfg then (SendNAWS c (TerminalWidth cfg) (TerminalHeight cfg)).1 else c);
     offer (EnableTType cfg) OptTerminalType; offer (EnableTermSpeed cfg) OptTermSpeed;
     offer (EnableNewEnviron cfg) OptNewEnviron; offer (EnableCharset cfg) OptCharset;
     offer (EnableMCCP2 cfg) OptMCCP2; offer (EnableMCCP3 cfg) OptMCCP3;
     offer (EnableMSDP cfg) OptMSDP; offer (EnableGMCP cfg) OptGMCP;
     offer (EnableMSSP cfg) OptMSSP; offer (EnableMCP cfg) OptMCP]
    [_; _; _; _; _; _; _; _; _; _; _; _; _; _; _])
    by (repeat (constructor; [apply offer_buffers || apply naws_buffers|]); constructor).
  pose proof (run_steps_buffered _ _ Hs c Hc Ho ltac:(unfold zlen; simpl; lia)) as Hb.
  eexists. split; [|reflexivity]. cbn [concat] in Hb. rewrite app_nil_r in Hb. exact Hb.
Qed.

(** ** Answers to commands *)

(** The new negotiator and the answer (0 for none) to one command. *)
Definition reply (cfg : Config) (n : Negotiator) (ce : CommandEvent) : Negotiator * Z :=
  if (ce_Command ce =? CmdDo) && negb (isOptionEnabledLocally cfg (ce_Option ce)) then (n, CmdWont)
  else if (ce_Command ce =? CmdWill) && negb (isOptionSupported (ce_Option ce)) then (n, CmdDont)
  else let '(n', (resp, _)) := Handle n (ce_Command ce) (ce_Option ce) in (n', resp).

Definition answer_items (resp opt : Z) : list item :=
  if resp =? 0 then [] else [ICommand resp opt].

Fixpoint replies (cfg : Config) (n : Negotiator) (ces : list CommandEvent) : Negotiator * list item :=
  match ces with
  | [] => (n, [])
  | ce :: ces' =>
      let '(n1, resp) := reply cfg n ce in
      let '(n2, xs) := replies cfg n1 ces' in (n2, answer_items resp (ce_Option ce) ++ xs)
  end.

(** What answering changes of the connection, besides statistics and events. *)
Record answered c c' (n : Negotiator) (xs : list item) : Prop := {
  an_negotiator : negotiator c' = n;
  an_config : config c' = config c;
  an_closed : closed c' = closed c;
  an_net : netConn c' = netConn c;
  an_wf : wr_wf c';
  an_bytes : w_bytes c' = w_bytes c ++ wire xs;
  an_cap : w_cap c' = w_cap c
}.

Lemma pushEvent_answered c c' n xs e : answered c c' n xs -> answered c (pushEvent c' e) n xs.
Proof using Type*.
  intros Ha. unfold pushEvent. destruct (closed c'); [done|].
  destruct (events c') as [es|]; [|done]. destruct Ha.
  case_bool_decide; [by split|]. destruct es; by split.
Qed.

Lemma SendCommand_answered c k opt n :
  wr_wf c -> closed c = false -> w_len c + 3 <= w_cap c -> negotiator c = n ->
  answered c (SendCommand c k opt).1 n [ICommand k opt].
Proof using Type*.
  intros Hc Ho Hl <-. destruct (SendCommand_buffered c k opt Hc Ho Hl) as [[] ? ? Hb ?].
  by split.
Qed.

Lemma process_command_answered c ce :
  wr_wf c -> closed c = false -> w_len c + 3 <= w_cap c ->
  let '(n, resp) := reply (config c) (negotiator c) ce in
  answered c (process_command c ce) n (answer_items resp (ce_Option ce)).
Proof using Type*.
  intros Hc Ho Hl. unfold reply, process_command.
  destruct (_ && _); [by apply pushEvent_answered, SendCommand_answered|].
  destruct (_ && _); [by apply pushEvent_answered, SendCommand_answered|].
  destruct (Handle _ _ _) as [n [resp changed]]. apply pushEvent_answered.
  assert (Ha : answered c (if negb (resp =? 0)
      then (SendCommand (set_negotiator c n) resp (ce_Option ce)).1 else set_negotiator c n)
      n (answer_items resp (ce_Option ce))).
  { unfold answer_items. destruct (resp =? 0); simpl.
    - split; try done. unfold w_bytes; simpl. by rewrite app_nil_r.
    - destruct (SendCommand_answered (set_negotiator c n) resp (ce_Option ce) n Hc Ho Hl eq_refl).
      by split. }
  destruct changed; [|done]. destruct Ha. by split.
Qed.

Lemma answered_len c c' n xs : wr_wf c -> answered c c' n xs -> w_len c' = w_len c + zlen (wire xs).
Proof using Type*. intros Hc []. by rewrite !w_len_bytes, an_bytes0, zlen_app by done. Qed.

Lemma answer_items_len resp opt : zlen (wire (answer_items resp opt)) <= 3.
Proof using Type. unfold answer_items. destruct (resp =? 0); unfold wire, zlen; simpl; lia. Qed.

Lemma process_commands_answered ces : forall c,
  wr_wf c -> closed c = false -> w_len c + 3 * zlen ces <= w_cap c ->
  let '(n, xs) := replies (config c) (negotiator c) ces in
  answered c (foldl process_command c ces) n xs.
Proof using Type*.
  induction ces as [|ce ces IH]; intros c Hc Ho Hl; cbn [replies foldl].
  { split; try done. unfold wire. by rewrite app_nil_r. }
  rewrite zlen_cons in Hl. pose proof (zlen_nonneg ces).
  pose proof (process_command_answered c ce Hc Ho ltac:(lia)) as Ha.
  destruct (reply (config c) (negotiator c) ce) as [n1 resp]. pose proof Ha as [En Ec Eo Et Ew Eb Ek].
  pose proof (answer_items_len resp (ce_Option ce)).
  specialize (IH (process_command c ce) Ew ltac:(congruence)).
  rewrite (answered_len _ _ _ _ Hc Ha), Ek, En, Ec in IH. specialize (IH ltac:(lia)).
  destruct (replies (config c) n1 ces) as [n2 xs]. destruct IH. split; try congruence.
  unfold wire in *. by rewrite bind_app, an_bytes0, Eb, app_assoc.
Qed.

(** The negotiator's part holds whatever the network and the buffer do. *)
Lemma process_command_negotiator c ce :
  wr_wf c -> negotiator (process_command c ce) = (reply (config c) (negotiator c) ce).1 /\
    config (process_command c ce) = config c /\ wr_wf (process_command c ce).
Proof using Type*.
  intros Hc.
  assert (Hp : forall c' e, negotiator (pushEvent c' e) = negotiator c' /\
    config (pushEvent c' e) = config c' /\ writeBuf (pushEvent c' e) = writeBuf c').
  { intros c' e. unfold pushEvent. destruct (closed c'); [done|].
    destruct (events c') as [es|]; [|done]. case_bool_decide; [done|]. by destruct es. }
  assert (Hs : forall c' k o, wr_wf c' -> negotiator (SendCommand c' k o).1 = negotiator c' /\
    config (SendCommand c' k o).1 = config c' /\ wr_wf (SendCommand c' k o).1).
  { intros c' k o Hc'. destruct (closed c') eqn:Ho; [unfold SendCommand; by rewrite Ho|].
    pose proof (SendCommand_ok c' k o Hc' Ho) as Hk. destruct (SendCommand c' k o) as [c1 e].
    destruct Hk as [[] ? _]. done. }
  unfold reply, process_command.
  assert (Hps : forall k e, negotiator (pushEvent (SendCommand c k (ce_Option ce)).1 e) = negotiator c /\
    config (pushEvent (SendCommand c k (ce_Option ce)).1 e) = config c /\
    wr_wf (pushEvent (SendCommand c k (ce_Option ce)).1 e)).
  { intros k e. destruct (Hp (SendCommand c k (ce_Option ce)).1 e) as (-> & -> & E).
    unfold wr_wf. rewrite E. by apply Hs. }
  destruct (_ && _); [apply Hps|]. destruct (_ && _); [apply Hps|].
  destruct (Handle _ _ _) as [n [resp changed]].
  set (c1 := if negb (resp =? 0) then _ else _).
  assert (H1' : negotiator c1 = n /\ config c1 = config c /\ wr_wf c1).
  { unfold c1. destruct (negb _); [|done].
    destruct (Hs (set_negotiator c n) resp (ce_Option ce) Hc) as (-> & -> & ?). done. }
  destruct H1' as (E1 & E2 & E3). set (ev := MkEvent _ _ _ _).
  destruct (Hp (if changed then set_stats c1 (stats_update (stats c1) 0 0 0 1 0) else c1) ev)
    as (-> & -> & E). unfold wr_wf. rewrite E. by destruct changed.
Qed.

Lemma process_sn_rest c sn :
  negotiator (process_sn c sn) = negotiator c /\ netConn (process_sn c sn) = netConn c /\
  writeBuf (process_sn c sn) = writeBuf c /\ config (process_sn c sn) = config c.
Proof using Type*.
  unfold process_sn, pushEvent, handleSubnegotiation.
  repeat (case_match; simpl in *; try done).
Qed.

Lemma process_sns_rest sns : forall c,
  negotiator (foldl process_sn c sns) = negotiator c /\ netConn (foldl process_sn c sns) = netConn c /\
  writeBuf (foldl process_sn c sns) = writeBuf c /\ config (foldl process_sn c sns) = config c.
Proof using Type*.
  induction sns as [|sn sns IH]; intros c; cbn [foldl]; [done|].
  destruct (IH (process_sn c sn)) as (-> & -> & -> & ->). apply process_sn_rest.
Qed.

(** ** Options by permission *)

(** A negotiator that has enabled nothing its owner did not allow. *)
Definition permitted (cfg : Config) (n : Negotiator) : Prop :=
  neg_wf n /\
  forall opt, is_opt opt ->
    (us_of n opt <> OptDisabled -> isOptionEnabledLocally cfg opt = true) /\
    (him_of n opt <> OptDisabled -> isOptionSupported opt = true).

(** An answer its owner allows. *)
Definition allowed_answer (cfg : Config) (resp opt : Z) : Prop :=
  (resp = CmdWill -> isOptionEnabledLocally cfg opt = true) /\
  (resp = CmdDo -> isOptionSupported opt = true).

(** Hearing about the side [sd] touches that cell only; it is left disabled, or was
    enabled before, or the command is the acceptance of a request or an offer. *)
Lemma side_recv_enables en s s' rep :
  side_ok s -> side_recv en s = (s', rep) ->
  (s' <> OptDisabled -> s <> OptDisabled \/ en = true) /\
  (rep = Some true -> en = true).
Proof using Type.
  unfold side_ok, side_recv. intros Hs E. destruct en; [by split; auto|].
  destruct Hs as [->|[->|[->| ->]]]; vm_compute in E; by simplify_eq.
Qed.

Lemma reply_permitted cfg n ce :
  permitted cfg n -> is_byte (ce_Option ce) ->
  let '(n', resp) := reply cfg n ce in permitted cfg n' /\ allowed_answer cfg resp (ce_Option ce).
Proof using Type.
  intros [Hn Hp] Ho. unfold reply.
  destruct (_ && negb (isOptionEnabledLocally _ _)) eqn:Edo; [by split; [split|split]|].
  destruct (_ && negb (isOptionSupported _)) eqn:Ewill; [by split; [split|split]|].
  destruct (say_dec (ce_Command ce)) as [(sd & en & Ec)|Hc];
    [|rewrite Handle_other by done; split; [done|by split]].
  rewrite Ec in *. pose proof (Handle_side n sd en (ce_Option ce) Hn Ho) as Hs. cbv zeta in Hs.
  assert (Hok : side_ok (cell n sd (ce_Option ce)))
    by (destruct (neg_wf_sides n (ce_Option ce) Hn Ho); by destruct sd).
  pose proof (side_recv_enables en (cell n sd (ce_Option ce))) as He.
  destruct (side_recv en (cell n sd (ce_Option ce))) as [s' rep].
  destruct (He s' rep Hok eq_refl) as [He1 He2]. destruct Hs as (n' & -> & [Hwf Heq Hne]).
  assert (Hg : en = true -> match sd with
    | SUs => isOptionEnabledLocally cfg (ce_Option ce) = true
    | SHim => isOptionSupported (ce_Option ce) = true end).
  { intros ->. destruct sd; simpl in Edo, Ewill; by apply negb_false_iff. }
  split; [split; [done|]|].
  - assert (Hcell : forall sd' opt, is_opt opt -> cell n' sd' opt <> OptDisabled ->
      match sd' with SUs => isOptionEnabledLocally cfg opt = true
                   | SHim => isOptionSupported opt = true end).
    { intros sd' opt Hopt Hcl. destruct (decide ((sd', opt) = (sd, ce_Option ce))) as [[= -> ->]|Hd].
      - rewrite Heq in Hcl. destruct (He1 Hcl) as [Hold|]; [|by apply Hg].
        destruct (Hp _ Ho). destruct sd; auto.
      - rewrite Hne in Hcl by done. destruct (Hp _ Hopt). destruct sd'; auto. }
    intros opt Hopt. split; [apply (Hcell SUs opt Hopt)|apply (Hcell SHim opt Hopt)].
  - destruct rep as [en'|]; [|by split]. unfold allowed_answer, message.
    destruct en'; [|by destruct sd]. specialize (Hg (He2 eq_refl)). by destruct sd.
Qed.

Lemma replies_permitted cfg ces : forall n,
  permitted cfg n -> Forall (fun ce => is_byte (ce_Option ce)) ces ->
  permitted cfg (replies cfg n ces).1 /\
  Forall (fun x => exists resp opt, x = ICommand resp opt /\ allowed_answer cfg resp opt)
    (replies cfg n ces).2.
Proof using Type.
  induction ces as [|ce ces IH]; intros n Hn Hc; cbn [replies]; [by split|].
  apply Forall_cons_1 in Hc as [Ho Hc]. pose proof (reply_permitted cfg n ce Hn Ho) as Hr.
  destruct (reply cfg n ce) as [n1 resp]. destruct Hr as [Hn1 Ha].
  specialize (IH n1 Hn1 Hc). destruct (replies cfg n1 ces) as [n2 xs]. cbn [fst snd] in *.
  destruct IH as [? ?]. split; [done|]. apply Forall_app. split; [|done].
  unfold answer_items. destruct (resp =? 0); constructor; eauto.
Qed.

(** ** A chunk *)

Section Chunk.
  Context `{ByteQueueLaws Q}.

(** The commands of a chunk that reach the negotiator: the first sixteen. *)
Definition chunk_commands c (data : bytes) : list CommandEvent := take 16 (out_cmds (decoded c data).2).

Lemma process_commands_negotiator ces : forall c,
  wr_wf c ->
  negotiator (foldl process_command c ces) = (replies (config c) (negotiator c) ces).1 /\
  config (foldl process_command c ces) = config c.
Proof using Type*.
  induction ces as [|ce ces IH]; intros c Hc; cbn [foldl replies]; [done|].
  destruct (process_command_negotiator c ce Hc) as (E1 & E2 & E3).
  destruct (IH _ E3) as [-> ->]. rewrite E1, E2.
  destruct (reply (config c) (negotiator c) ce) as [n1 resp]. cbn [fst].
  by destruct (replies (config c) n1 ces).
Qed.

(** The phases of processing a chunk. *)
Lemma processReadLocked_phases c data :
  conn_ok c -> exists p r q,
    Parse (parser c) data empty_result = (p, r) /\
    CommandEvents r = chunk_commands c data /\
    processReadLocked c data = Some (foldl process_sn
      (foldl process_command (set_readBuf (set_parse c p r) q) (chunk_commands c data)) (SNEvents r)).
Proof using Type*.
  intros Hc. unfold processReadLocked.
  change (Parse (parser c) data (parseResult c)) with (Parse (parser c) data empty_result).
  pose proof (Parse_simulates (parser c) data empty_result (ok_parser _ Hc)) as Hs.
  destruct (Parse (parser c) data empty_result) as [p r] eqn:Ep.
  fold (decoded c data) in Hs. unfold chunk_commands. destruct (decoded c data) as [d os].
  destruct Hs as (Hwf & _ & _ & _ & Hcmd & _ & Hev & _).
  assert (Hc1 : conn_ok (set_parse c p r)) by (destruct Hc; by split).
  destruct (process_data_ok _ data (DataEvents r) _ Hc1 Hev) as (q & E & _).
  exists p, r, q. split; [done|]. cbn [snd]. unfold maxCommandEvents in Hcmd.
  split; [done|]. by rewrite E, <- Hcmd.
Qed.

Lemma processReadLocked_negotiator c data c' :
  conn_ok c -> processReadLocked c data = Some c' ->
  negotiator c' = (replies (config c) (negotiator c) (chunk_commands c data)).1 /\
  config c' = config c.
Proof using Type*.
  intros Hc E. destruct (processReadLocked_phases c data Hc) as (p & r & q & _ & _ & E').
  rewrite E in E'. simplify_eq. set (c1 := set_readBuf (set_parse c p r) q).
  destruct (process_sns_rest (SNEvents r) (foldl process_command c1 (chunk_commands c data)))
    as (-> & _ & _ & ->).
  by destruct (process_commands_negotiator (chunk_commands c data) c1 (ok_wr _ Hc)) as [-> ->].
Qed.

Lemma chunk_commands_options c data :
  wf_bytes data -> Forall (fun ce => is_byte (ce_Option ce)) (chunk_commands c data).
Proof using Type. intros Hd. by apply Forall_take, decode_cmds_options. Qed.

(** Processing a sequence of chunks. *)
Fixpoint process_many c (chunks : list bytes) : option (Conn N Q) :=
  match chunks with [] => Some c | d :: ds => c1 ← processReadLocked c d; process_many c1 ds end.
End Chunk.
End Session.
