(* ===== verification/ConnTalk.v ===== *)
(** * ConnTalk: a conversation over a connection.

    On a network that takes what it is given ([reliable]) no sending operation fails, and
    what a connection sends on its own account, in answer to the peer's commands, is a
    sequence of whole commands that its owner allows. So the stream of a program that
    reads lines and writes texts is the sequence of its texts with such answers between
    them. *)
From stdpp Require Import relations.
From S2P Require Import Prelude Constants GoSlice ByteQueue RingBuf StaticBuf TelnetParser ParserSpec ParserProps Wire.
From S2P Require Import Options NetConn TelnetConn ConnWriter ConnReader ConnLine ConnSession LineStream.

(** An answer to a command. *)
Definition answer (cfg : Config) (x : item) : Prop :=
  exists resp opt, x = ICommand resp opt /\ is_negotiation resp = true /\ allowed_answer cfg resp opt.

Lemma texts_app xs ys : texts (xs ++ ys) = texts xs ++ texts ys.
Proof. apply bind_app. Qed.

Lemma subs_app xs ys : subs (xs ++ ys) = subs xs ++ subs ys.
Proof. apply bind_app. Qed.

Lemma wire_app xs ys : wire (xs ++ ys) = wire xs ++ wire ys.
Proof. apply bind_app. Qed.

Lemma wire_one x : wire [x] = wire_item x.
Proof. unfold wire. cbn [mbind list_bind]. apply app_nil_r. Qed.

#[export] Hint Rewrite texts_app subs_app wire_app : telnet.

(** [xs] is [ys] with answers somewhere between. *)
Inductive with_answers (cfg : Config) : list item -> list item -> Prop :=
  | wa_nil : with_answers cfg [] []
  | wa_own y ys xs : with_answers cfg ys xs -> with_answers cfg (y :: ys) (y :: xs)
  | wa_answer x ys xs : answer cfg x -> with_answers cfg ys xs -> with_answers cfg ys (x :: xs).

Lemma with_answers_app cfg ys1 xs1 ys2 xs2 :
  with_answers cfg ys1 xs1 -> with_answers cfg ys2 xs2 -> with_answers cfg (ys1 ++ ys2) (xs1 ++ xs2).
Proof. intros Hw Hw2. induction Hw; [done|by apply wa_own|by apply wa_answer]. Qed.

Lemma with_answers_refl cfg ys : with_answers cfg ys ys.
Proof. induction ys; by constructor. Qed.

Lemma answers_with cfg xs : Forall (answer cfg) xs -> with_answers cfg [] xs.
Proof. induction 1; by constructor. Qed.

(** A peer sees the same texts and subnegotiations. *)
Lemma with_answers_texts cfg ys xs : with_answers cfg ys xs -> texts xs = texts ys /\ subs xs = subs ys.
Proof.
  induction 1 as [|y ys xs _ [IHt IHs]|x ys xs Hx _ [IHt IHs]]; [done| |].
  - change (y :: xs) with ([y] ++ xs). change (y :: ys) with ([y] ++ ys).
    by rewrite !texts_app, !subs_app, IHt, IHs.
  - destruct Hx as (resp & opt & -> & _). by rewrite <- IHt, <- IHs.
Qed.

Lemma with_answers_ok cfg ys xs : with_answers cfg ys xs -> Forall item_ok ys -> Forall item_ok xs.
Proof.
  induction 1 as [|y ys xs _ IH|x ys xs Hx _ IH]; intros Hok; [done| |].
  - apply Forall_cons_1 in Hok as [? ?]. constructor; auto.
  - constructor; [|auto]. by destruct Hx as (resp & opt & -> & ? & _).
Qed.

Lemma reply_negotiation cfg n ce :
  neg_wf n -> is_byte (ce_Option ce) ->
  (reply cfg n ce).2 = 0 \/ is_negotiation (reply cfg n ce).2 = true.
Proof.
  intros Hn Ho. unfold reply. destruct (_ && _); [by right|]. destruct (_ && _); [by right|].
  destruct (say_dec (ce_Command ce)) as [(sd & en & ->)|Hc]; [|rewrite Handle_other by done; by left].
  pose proof (Handle_side n sd en (ce_Option ce) Hn Ho) as Hs. cbv zeta in Hs.
  destruct (side_recv _ _) as [s' rep]. destruct Hs as (n' & -> & _). cbn [snd].
  destruct rep as [[]|]; [right|right|by left]; by destruct sd.
Qed.

Lemma replies_answer cfg ces : forall n,
  permitted cfg n -> Forall (fun ce => is_byte (ce_Option ce)) ces ->
  permitted cfg (replies cfg n ces).1 /\ Forall (answer cfg) (replies cfg n ces).2.
Proof.
  induction ces as [|ce ces IH]; intros n Hn Hc; cbn [replies]; [by split|].
  apply Forall_cons_1 in Hc as [Ho Hc]. pose proof (reply_permitted cfg n ce Hn Ho) as Hr.
  pose proof (reply_negotiation cfg n ce (proj1 Hn) Ho) as Hneg.
  destruct (reply cfg n ce) as [n1 resp]. destruct Hr as [Hn1 Ha]. cbn [snd] in Hneg.
  specialize (IH n1 Hn1 Hc). destruct (replies cfg n1 ces) as [n2 xs]. cbn [fst snd] in *.
  destruct IH as [? ?]. split; [done|]. apply Forall_app. split; [|done].
  unfold answer_items. destruct (Z.eqb_spec resp 0); repeat constructor.
  destruct Hneg; [done|]. by exists resp, (ce_Option ce).
Qed.

Section Talk.
  Context {N Q : Type} `{NetConnLaws N} `{GrowPolicy} `{ByteQueueLaws Q}.
  Implicit Type c : Conn N Q.

(** The network takes everything. *)
Definition reliable : Prop := forall n p, (net_Write n p).2 = (zlen p, None).

Context (Hrel : reliable).

(** ** Sending does not fail *)

Lemma flushLocked_reliable c : (flushLocked c).2 = None.
Proof using Type*.
  unfold flushLocked. destruct (w_len c =? 0); [done|].
  pose proof (Hrel (netConn c) (sl_bytes (sbuf (writeBuf c)))) as Hw.
  destruct (net_Write _ _) as [nc [k e]]. by simplify_eq/=.
Qed.

Lemma maybe_flush_reliable (b : bool) c : (if b then flushLocked c else (c, None)).2 = None.
Proof using Type*. destruct b; [apply flushLocked_reliable|done]. Qed.

Lemma write_loop_reliable p : forall c n, (write_loop c n p).2.2 = None.
Proof using Type*.
  induction p as [|b p IH]; intros c n; cbn [write_loop]; [done|].
  pose proof (maybe_flush_reliable (w_cap c <=? w_len c) c) as Hf.
  destruct (if w_cap c <=? w_len c then _ else _) as [c1 e]. simplify_eq/=. apply IH.
Qed.

Lemma Write_reliable c p : closed c = false -> (Write c p).2.2 = None.
Proof using Type*.
  intros Ho. unfold Write. rewrite Ho. destruct (_ && _); [done|]. apply write_loop_reliable.
Qed.

Lemma SendCommand_reliable c k opt : closed c = false -> (SendCommand c k opt).2 = None.
Proof using Type*.
  intros Ho. unfold SendCommand. rewrite Ho. pose proof (maybe_flush_reliable (w_cap c <? w_len c + 3) c) as Hf.
  destruct (if w_cap c <? w_len c + 3 then _ else _) as [c1 e]. by simplify_eq/=.
Qed.

Lemma SendSubnegotiation_reliable c opt data : closed c = false -> (SendSubnegotiation c opt data).2 = None.
Proof using Type*.
  intros Ho. unfold SendSubnegotiation. rewrite Ho.
  pose proof (maybe_flush_reliable (w_cap c <? w_len c + sn_required data) c) as Hf.
  destruct (if w_cap c <? w_len c + sn_required data then _ else _) as [c1 e]. by simplify_eq/=.
Qed.

Lemma exec_send_reliable c o : closed c = false -> (exec_send c o).2 = None.
Proof using Type*.
  intros Ho.
  assert (Hw : forall p, (let '(c', (_, e)) := Write c p in (c', e) : Conn N Q * option error).2 = None).
  { intros p. pose proof (Write_reliable c p Ho) as Hw. by destruct (Write c p) as [c' [n e]]. }
  destruct o; cbn [exec_send]; try apply Hw; try (by apply SendSubnegotiation_reliable).
  - by apply SendCommand_reliable.
  - apply flushLocked_reliable.
Qed.

(** ** What reading sends *)

(** The states of a conversation, and what one step of it adds to the stream. *)
Record talking c : Prop := {
  tk_ok : conn_ok c;
  tk_open : closed c = false;
  tk_permitted : permitted (config c) (negotiator c)
}.

Record said c c' (xs : list item) : Prop := {
  sa_talking : talking c';
  sa_config : config c' = config c;
  sa_out : out c' = out c ++ wire xs
}.

Lemma said_refl c : talking c -> said c c [].
Proof using Type. intros Hc. split; [done|done|]. unfold wire. by rewrite app_nil_r. Qed.

Lemma said_trans c1 c2 c3 xs ys : said c1 c2 xs -> said c2 c3 ys -> said c1 c3 (xs ++ ys).
Proof using Type.
  intros [_ C1 O1] [T2 C2 O2]. split; [done|congruence|]. by rewrite O2, O1, wire_app, app_assoc.
Qed.

(** Steps that send nothing and leave the configuration and the negotiator. *)
Lemma said_silent c c' :
  talking c -> conn_ok c' -> closed c' = closed c -> config c' = config c ->
  negotiator c' = negotiator c -> writeBuf c' = writeBuf c ->
  net_sent (netConn c') = net_sent (netConn c) -> said c c' [].
Proof using Type.
  intros [Hc Ho Hp] Hc' Eo Ec En Ew Es. split; [split; [done|congruence|by rewrite Ec, En]|done|].
  unfold out, w_bytes. rewrite Ew, Es. unfold wire. by rewrite app_nil_r.
Qed.

Lemma sends_appends c c' xs : sends c c' None (wire xs) -> out c' = out c ++ wire xs.
Proof using Type. by intros []. Qed.

Lemma SendCommand_out c k opt :
  wr_wf c -> closed c = false -> out (SendCommand c k opt).1 = out c ++ wire [ICommand k opt].
Proof using Type*.
  intros Hc Ho. pose proof (SendCommand_reliable c k opt Ho) as He.
  pose proof (SendCommand_ok c k opt Hc Ho) as Hs.
  destruct (SendCommand c k opt) as [c' e]. cbn [fst snd] in *. subst e. apply sends_appends. by rewrite wire_one.
Qed.

Lemma pushEvent_out c e : out (pushEvent c e) = out c.
Proof using Type.
  unfold pushEvent. destruct (closed c); [done|]. destruct (events c) as [es|]; [|done].
  case_bool_decide; [done|]. by destruct es.
Qed.

Lemma process_command_out c ce :
  wr_wf c -> closed c = false ->
  out (process_command c ce) =
    out c ++ wire (answer_items (reply (config c) (negotiator c) ce).2 (ce_Option ce)).
Proof using Type*.
  intros Hc Ho. unfold reply, process_command.
  destruct (_ && _); [by rewrite pushEvent_out, SendCommand_out|].
  destruct (_ && _); [by rewrite pushEvent_out, SendCommand_out|].
  destruct (Handle _ _ _) as [n [resp changed]]. cbn [snd].
  rewrite pushEvent_out. set (c1 := if negb (resp =? 0) then _ else _).
  replace (out (if changed then _ else c1)) with (out c1) by (by destruct changed).
  unfold c1, answer_items. destruct (Z.eqb_spec resp 0); cbn [negb].
  - unfold wire. by rewrite app_nil_r.
  - change (out c) with (out (set_negotiator c n)). by apply SendCommand_out.
Qed.

Lemma process_command_closed c ce : wr_wf c -> closed (process_command c ce) = closed c.
Proof using Type*.
  intros Hc.
  assert (Hs : forall c1 k ev, wr_wf c1 -> closed (pushEvent (SendCommand c1 k (ce_Option ce)).1 ev) = closed c1).
  { intros c1 k ev Hc1. rewrite (kp_closed _ _ (pushEvent_keeps _ _)). by apply SendCommand_keeps. }
  unfold process_command. destruct (_ && _); [by apply Hs|]. destruct (_ && _); [by apply Hs|].
  destruct (Handle _ _ _) as [n [resp changed]]. rewrite (kp_closed _ _ (pushEvent_keeps _ _)).
  assert (Hn : closed (if negb (resp =? 0) then (SendCommand (set_negotiator c n) resp (ce_Option ce)).1
                       else set_negotiator c n) = closed c).
  { destruct (negb _); [|done]. by rewrite (kp_closed _ _ (SendCommand_keeps (set_negotiator c n) _ _ Hc)). }
  by destruct changed.
Qed.

Lemma process_commands_out ces : forall c,
  wr_wf c -> closed c = false ->
  out (foldl process_command c ces) = out c ++ wire (replies (config c) (negotiator c) ces).2.
Proof using Type*.
  induction ces as [|ce ces IH]; intros c Hc Ho; cbn [foldl replies].
  { unfold wire. by rewrite app_nil_r. }
  destruct (process_command_negotiator c ce Hc) as (En & Ec & Hw).
  rewrite IH, process_command_out, Ec, En; [|done|done|done|by rewrite process_command_closed].
  destruct (reply (config c) (negotiator c) ce) as [n1 resp]. cbn [fst snd].
  destruct (replies (config c) n1 ces) as [n2 xs]. cbn [snd]. by rewrite wire_app, app_assoc.
Qed.

(** A chunk: the answers to the commands in it. *)
Lemma processReadLocked_said c data c' :
  talking c -> wf_bytes data -> processReadLocked c data = Some c' ->
  exists xs, said c c' xs /\ Forall (answer (config c)) xs.
Proof using Type*.
  intros [Hc Ho Hp] Hd E. destruct (processReadLocked_ok c data Hc Hd) as (c1 & E1 & Hpr).
  rewrite E in E1. simplify_eq. destruct Hpr as [Hok Hss _ _ _ _].
  destruct (processReadLocked_negotiator c data c1 Hc E) as [En Ec].
  pose proof (chunk_commands_options c data Hd) as Hb.
  destruct (replies_answer (config c) _ _ Hp Hb) as [Hp' Ha].
  exists (replies (config c) (negotiator c) (chunk_commands c data)).2. split; [|done].
  split; [split; [done|by rewrite (ss_closed _ _ Hss)|by rewrite Ec, En]|done|].
  destruct (processReadLocked_phases c data Hc) as (p & r & q & Ep & _ & E2).
  rewrite E in E2. simplify_eq. set (c1 := set_readBuf (set_parse c p r) q).
  destruct (process_sns_rest (SNEvents r) (foldl process_command c1 (chunk_commands c data)))
    as (_ & Enet & Ew & _).
  unfold out, w_bytes. rewrite Enet, Ew.
  by apply (process_commands_out (chunk_commands c data) c1); [apply Hc|].
Qed.

Lemma set_readBuf_said c q : talking c -> q_ok q -> said c (set_readBuf c q) [].
Proof using Type. intros Hc Hq. apply said_silent; try done. apply set_readBuf_ok; [apply Hc|done]. Qed.

(** A read of the network, and what the code does with the bytes it brings. *)
Lemma fetch_said c nc data err c1 :
  talking c -> arrival c = (nc, (data, err)) ->
  (if 0 <? zlen data then
      processReadLocked
        (set_stats (set_readScratch (set_netConn c nc)
             (MkSlice (write_at (sl_arr (readScratch (set_netConn c nc))) 0 data)
                (sl_len (readScratch (set_netConn c nc)))))
           (stats_update (stats c) (zlen data) 0 0 0 0)) data
    else Some (set_readScratch (set_netConn c nc)
             (MkSlice (write_at (sl_arr (readScratch (set_netConn c nc))) 0 data)
                (sl_len (readScratch (set_netConn c nc)))))) = Some c1 ->
  exists xs, said c c1 xs /\ Forall (answer (config c)) xs.
Proof using Type*.
  intros Hc Ea E. unfold arrival in Ea. pose proof (tk_ok _ Hc) as Hok.
  pose proof (net_Read_ok (netConn c) (sl_len (readScratch c)) (proj1 (ok_scratch _ Hok))) as Hr.
  rewrite Ea in Hr. destruct Hr as (Hl & Hwf & Hin & Hsent). set (c0 := set_readScratch _ _) in E.
  assert (Hs0 : forall c2, c2 = c0 \/ (exists s, c2 = set_stats c0 s) -> said c c2 []).
  { assert (Hok0 : conn_ok c0).
    { destruct Hok. split; try done. unfold c0, sl_wf, sl_cap in *. simpl.
      unfold zlen at 1. rewrite length_write_at by (unfold zlen in *; lia). done. }
    intros c2 [->|[s ->]]; apply said_silent; try done. by destruct Hok0. }
  destruct (0 <? zlen data).
  - pose proof (Hs0 _ (or_intror (ex_intro _ (stats_update (stats c) (zlen data) 0 0 0 0) eq_refl))) as Hs.
    destruct (processReadLocked_said _ data c1 (sa_talking _ _ _ Hs) Hwf E) as (xs & Hx & Ha).
    exists xs. split; [|done]. by apply (said_trans _ _ _ _ _ Hs).
  - simplify_eq. exists []. split; [|done]. apply Hs0. by left.
Qed.

Lemma read_queue_said c plen c' r :
  talking c -> 0 <= plen -> 0 < q_Len (readBuf c) -> read_queue c plen = Some (c', r) -> said c c' [].
Proof using Type*.
  intros Hc Hp Hne E. rewrite (q_Len_ok _ (ok_queue _ (tk_ok _ Hc))) in Hne.
  destruct (read_queue_ok c plen (tk_ok _ Hc) Hp Hne) as (q & E' & Hq & _ & _).
  rewrite E in E'. simplify_eq. by apply set_readBuf_said.
Qed.

Lemma readLocked_said c plen c' r :
  talking c -> 0 <= plen -> readLocked c plen = Some (c', r) ->
  exists xs, said c c' xs /\ Forall (answer (config c)) xs.
Proof using Type*.
  intros Hc Hp. unfold readLocked. destruct (Z.ltb_spec 0 (q_Len (readBuf c))) as [Hq|Hq].
  { intros E. exists []. split; [|done]. by eapply read_queue_said. }
  fold (arrival c). destruct (arrival c) as [nc [data err]] eqn:Ea.
  match goal with |- context [mbind _ ?X] => destruct X as [c1|] eqn:E1 end;
    cbn [mbind option_bind]; [|done].
  destruct (fetch_said c nc data err c1 Hc Ea E1) as (xs & Hs & Ha). intros E. exists xs. split; [|done].
  assert (Hq1 : forall c2 r2, (if 0 <? q_Len (readBuf c1) then read_queue c1 plen
      else Some (c1, r2)) = Some (c2, r) -> said c c2 xs).
  { intros c2 r2. destruct (Z.ltb_spec 0 (q_Len (readBuf c1))); intros E2; [|by simplify_eq].
    rewrite <- (app_nil_r xs). eapply said_trans; [exact Hs|]. eapply read_queue_said; [apply Hs|done|done|done]. }
  destruct err as [e|].
  - destruct (errors_Is e EOF); by eapply Hq1.
  - destruct (zlen data =? 0); [by simplify_eq|]. by eapply Hq1.
Qed.

Lemma set_readLineCR_said c b : talking c -> said c (set_readLineCR c b) [].
Proof using Type. intros Hc. apply said_silent; try done. apply set_readLineCR_ok, Hc. Qed.

Lemma ReadLine_iter_said c line c' res :
  talking c -> ReadLine_iter c line = Some (c', res) ->
  exists xs, said c c' xs /\ Forall (answer (config c)) xs.
Proof using Type*.
  intros Hc. unfold ReadLine_iter. destruct (readLocked c 1024) as [[c1 [buf err]]|] eqn:E1; [|done].
  destruct (readLocked_said c 1024 c1 _ Hc ltac:(lia) E1) as (xs & Hs & Ha).
  cbn [mbind option_bind]. intros E. exists xs. split; [|done].
  rewrite <- (app_nil_r xs). eapply said_trans; [exact Hs|]. apply sa_talking in Hs.
  destruct (find_lf buf) as [i|].
  - destruct (if _ && bool_decide _ then _ else _) as [end_ line'].
    destruct (Z.of_nat i + 1 <? zlen buf); cbn [mbind option_bind] in E; [|simplify_eq; by apply set_readLineCR_said].
    destruct (q_Write_ok (readBuf c1) (drop (i + 1) buf) (ok_queue _ (tk_ok _ Hs))) as (q & Hq & _ & _ & Eq).
    rewrite Eq in E. cbn [mbind option_bind] in E. simplify_eq.
    pose proof (set_readBuf_said c1 q Hs Hq) as Hq1. apply (said_trans _ _ _ _ _ Hq1), set_readLineCR_said, Hq1.
  - destruct (0 <? zlen buf), err; simplify_eq; by apply set_readLineCR_said.
Qed.

Lemma ReadLine_said fuel : forall c line c' l e,
  talking c -> ReadLine_loop fuel c line = LineDone c' l e ->
  exists xs, said c c' xs /\ Forall (answer (config c)) xs.
Proof using Type*.
  induction fuel as [|fuel IH]; intros c line c' l e Hc E; cbn [ReadLine_loop] in E; [done|].
  destruct (ReadLine_iter c line) as [[c1 [line1|[line1 e1]]]|] eqn:E1; [| |done];
    destruct (ReadLine_iter_said c line c1 _ Hc E1) as (xs & Hs & Ha).
  - destruct (IH _ _ _ _ _ (sa_talking _ _ _ Hs) E) as (ys & Hs2 & Ha2).
    exists (xs ++ ys). split; [by eapply said_trans|]. rewrite (sa_config _ _ _ Hs) in Ha2. by apply Forall_app.
  - simplify_eq. by exists xs.
Qed.

(** More fuel changes nothing. *)
Lemma ReadLine_loop_more fuel fuel' : forall c line c' l e,
  (fuel <= fuel')%nat -> ReadLine_loop fuel c line = LineDone c' l e -> ReadLine_loop fuel' c line = LineDone c' l e.
Proof using Type.
  revert fuel'. induction fuel as [|fuel IH]; intros [|fuel'] c line c' l e Hf E; [done|done|lia|].
  cbn [ReadLine_loop] in *. destruct (ReadLine_iter c line) as [[c1 [line1|[]]]|]; [|done|done].
  apply IH; [lia|done].
Qed.

(** ** The steps of a conversation *)

(** A step that sends: it appends [xs] and touches nothing that reading uses. *)
Record speaks c c' (xs : list item) : Prop := {
  sk_said : said c c' xs;
  sk_frame : frame c c'
}.

Lemma speaks_trans c1 c2 c3 xs ys : speaks c1 c2 xs -> speaks c2 c3 ys -> speaks c1 c3 (xs ++ ys).
Proof using Type. intros [S1 F1] [S2 F2]. split; [by eapply said_trans|by etrans]. Qed.

Lemma speaks_refl c : talking c -> speaks c c [].
Proof using Type. intros Hc. split; [by apply said_refl|done]. Qed.

Lemma sends_speaks c c' xs : talking c -> sends c c' None (wire xs) -> speaks c c' xs.
Proof using Type.
  intros [Hc Ho Hp] [F W O]. split; [|done]. split; [split| |done].
  - by apply (kp_ok _ _ (frame_keeps _ _ F (fun _ => W)) Hc).
  - by rewrite (fr_closed _ _ F).
  - by rewrite (fr_config _ _ F), (fr_negotiator _ _ F).
  - apply F.
Qed.

Lemma Write_speaks c p : talking c -> speaks c (Write c p).1 [IText p].
Proof using Type*.
  intros Hc. pose proof (Write_reliable c p (tk_open _ Hc)) as He.
  destruct (Write c p) as [c' [n e]] eqn:E. cbn [fst snd] in *. subst e.
  apply sends_speaks; [done|]. rewrite wire_one. eapply Write_sends; [apply Hc|apply Hc|exact E].
Qed.

Lemma SendSubnegotiation_speaks c opt data :
  talking c -> speaks c (SendSubnegotiation c opt data).1 [ISub opt data].
Proof using Type*.
  intros Hc. pose proof (SendSubnegotiation_reliable c opt data (tk_open _ Hc)) as He.
  pose proof (SendSubnegotiation_ok c opt data (ok_wr _ (tk_ok _ Hc)) (tk_open _ Hc)) as Hs.
  destruct (SendSubnegotiation c opt data) as [c' e]. cbn [fst snd] in *. subst e.
  apply sends_speaks; [done|]. by rewrite wire_one.
Qed.

(** A flush leaves nothing behind. *)
Lemma Flush_speaks c : talking c -> speaks c (Flush c).1 [] /\ w_bytes (Flush c).1 = [].
Proof using Type*.
  intros Hc. pose proof (flushLocked_reliable c) as He.
  pose proof (flushLocked_ok c (ok_wr _ (tk_ok _ Hc))) as Hf. unfold Flush.
  destruct (flushLocked c) as [c' e]. cbn [fst snd] in *. subst e. destruct Hf as (Hs & Hw & _).
  split; [by apply sends_speaks|by apply Hw].
Qed.

Lemma speaks_line_state c c' xs : speaks c c' xs -> line_state c -> line_state c'.
Proof using Type.
  intros [[[Hok _ _] _ _] [_ _ _ _ Hb Hs _ _ _ _ _ Hn]] [].
  split; [done|by rewrite Hs|by rewrite Hb|by rewrite Hb|]. rewrite Hs. by eapply calm_writes.
Qed.

Lemma speaks_ahead c c' xs : speaks c c' xs -> ahead c' = ahead c.
Proof using Type.
  intros [_ [_ Hp _ _ Hb _ _ _ _ _ Hin _]]. unfold ahead, decoded. by rewrite Hb, Hp, Hin.
Qed.

Lemma speaks_tight c c' xs : speaks c c' xs -> tight c -> tight c'.
Proof using Type.
  intros [_ [_ Hp _ _ Hb _ _ _ _ _ Hin _]] [Hbr Hs Hq].
  split; [done|by rewrite Hp, Hin|]. unfold next_lf_at_once in *. by rewrite Hb, Hp, Hin.
Qed.

(** *** Listening *)

Context (measure : N -> nat) (Hnet : ends measure).

(** What a call of [ReadLine] returns of the text [a] ahead, and what it leaves. *)
Definition line_of (a l : bytes) (e : option error) (rest : bytes) : Prop :=
  match cut a with
  | Some (pre, r) => e = None /\ (l = strip_cr pre \/ l = pre) /\ rest = r
  | None => e <> None /\ l = a /\ rest = []
  end.

(** Sending brings nothing nearer to its end. *)
Lemma frame_potential c c' : frame c c' -> (potential measure c' <= potential measure c)%nat.
Proof using Hnet.
  intros [_ _ _ _ Hb _ _ _ _ _ _ Hn]. apply (writes_measure measure (en_write _ Hnet)) in Hn.
  unfold potential. rewrite Hb. by apply Nat.add_le_mono_r, Nat.mul_le_mono_r.
Qed.

(** [ReadLine] returns, and meanwhile the connection sends answers only; in a calm
    conversation what it returns is the next line. *)
Lemma ReadLine_talks c :
  talking c -> 0 < sl_len (readScratch c) ->
  exists c' l e xs,
    (forall fuel, (potential measure c < fuel)%nat -> ReadLine fuel c = LineDone c' l e) /\
    said c c' xs /\ Forall (answer (config c)) xs /\ 0 < sl_len (readScratch c') /\
    (e = None -> potential measure c' < potential measure c)%nat /\
    (line_state c -> line_state c' /\ line_of (ahead c) l e (ahead c') /\
     (tight c -> match cut (ahead c) with Some (pre, _) => l = strip_cr pre /\ tight c' | None => True end)).
Proof using Type*.
  intros Hc Hsz.
  destruct (ReadLine_loop_done measure (en_read _ Hnet) (en_write _ Hnet) (S (potential measure c)) c [] (tk_ok _ Hc) Hsz
    ltac:(lia)) as (c' & l & e & E & [_ Hsz'] & Hpot).
  destruct (ReadLine_said _ _ _ _ _ _ Hc E) as (xs & Hs & Ha).
  exists c', l, e, xs. split_and!; try done; [|by rewrite Hsz'|].
  - intros fuel Hf. by apply (ReadLine_loop_more (S (potential measure c))).
  - intros Hl. destruct (ReadLine_loop_stream measure Hnet (S (potential measure c)) c [] Hl) as (c2 & l2 & e2 & E2 & Hl' & Hr);
      [by intros []|apply not_elem_of_nil|lia|]. rewrite E in E2. injection E2 as <- <- <-.
    split; [done|]. split.
    + unfold line_of, returned in *. destruct (cut (ahead c)) as [[pre r]|]; cbn in Hr; [|by destruct Hr as [[? ?] ?]].
      by destruct Hr as ([? ?] & ? & _).
    + intros Ht. destruct (cut (ahead c)) as [[pre r]|]; [|done]. destruct Hr as (_ & _ & Hx). apply Hx. by split.
Qed.
End Talk.

(** ** The end of a conversation *)

Section Closing.
  Context {N : Type} `{NetConnLaws N} `{GrowPolicy}.

(** [Close] sends what is still buffered, then closes the network connection, whose
    error it returns. *)
Lemma Close_sends_rest (Hrel : reliable) (c : Conn N Ring) P :
  talking c -> exists c' P' nc,
    Close c P = (c', P', (net_Close nc).2) /\ net_sent nc = out c /\
    netConn c' = (net_Close nc).1 /\ closed c' = true.
Proof using Type*.
  intros Hc. unfold Close. rewrite (tk_open _ Hc). set (c1 := set_closed c true).
  pose proof (flushLocked_reliable Hrel c1) as He.
  pose proof (flushLocked_ok c1 (ok_wr _ (tk_ok _ Hc))) as Hf. unfold Flush.
  destruct (flushLocked c1) as [c2 e]. cbn [fst snd] in *. subst e. rewrite stop_dispatcher_is.
  destruct Hf as ([F _ O] & Hw & _). specialize (Hw eq_refl).
  destruct (RingBuf.Free _ P) as [q P1]. destruct (StaticBuf.Free _ P1) as [w P2]. cbn [fst snd].
  destruct (net_Close _) as [nc err] eqn:En. cbn in En.
  eexists _, _, (netConn c2). cbn. rewrite En. split_and!; [done| |done|exact (fr_closed _ _ F)].
  rewrite app_nil_r in O. change (out c1) with (out c) in O. rewrite <- O. unfold out. by rewrite Hw, app_nil_r.
Qed.
End Closing.
