(* ===== verification/ConnProps.v ===== *)
(** * ConnProps: the properties of a connection's life.

    The lemmas are in [ConnSession], [ConnReader] and [ConnWriter]. *)
From stdpp Require Import relations.
From S2P Require Import Prelude Constants GoSlice Pool ByteQueue RingBuf StaticBuf TelnetParser ParserSpec ParserProps Wire Options NetConn TelnetConn ConnWriter ConnReader ConnSession LineStream ConnTalk.

(** ** Construction *)

Section Construction.
  Context {N : Type} `{NetConnLaws N} `{GrowPolicy}.

(** One [Write] with all the offers, none when nothing is enabled. *)
Definition offered (nc : N) (cfg : Config) : N :=
  if zlen (wire (initial_items cfg)) =? 0 then nc else (net_Write nc (wire (initial_items cfg))).1.

Lemma offered_writes nc cfg : net_writes nc (offered nc cfg).
Proof using Type*. unfold offered. destruct (_ =? 0); [done|]. by apply rtc_once; eexists. Qed.

Lemma flush_net {Q} (c : Conn N Q) :
  wr_wf c -> netConn (flushLocked c).1 =
    if zlen (w_bytes c) =? 0 then netConn c else (net_Write (netConn c) (w_bytes c)).1.
Proof using Type*.
  intros Hc. unfold flushLocked. rewrite w_len_bytes by done.
  destruct (zlen (w_bytes c) =? 0); [done|]. fold (w_bytes c).
  destruct (net_Write _ _) as [nc [k [e|]]]; by destruct (0 <? k).
Qed.

Lemma NewConn_ok choices P nc cfg :
  pools_wf P -> ReadBufferSize cfg <= 2 ^ 32 ->
  let rsize := if ReadBufferSize cfg <=? 0 then 64 * 1024 else ReadBufferSize cfg in
  exists c P', NewConn choices P nc cfg = Some (c, P') /\ pools_wf P' /\
    conn_ok c /\ closed c = false /\ negotiator c = NewNegotiator /\ parser c = NewParser /\
    (forall opt, isOptionEnabledLocally (config c) opt = isOptionEnabledLocally cfg opt) /\
    q_items (readBuf c) = [] /\ sl_len (readScratch c) = rsize /\
    q_cap (readBuf c) = round_pow2 rsize - 1 /\ netConn c = offered nc cfg /\
    exists c1, (Flush c1).1 = c /\ wr_wf c1 /\ out c1 = net_sent nc ++ wire (initial_items cfg).
Proof using Type*.
  intros HP Hmax rsize. unfold NewConn. cbn [ReadBufferSize WriteBufferSize].
  set (wsize := if WriteBufferSize cfg <=? 0 then _ else _). fold rsize.
  assert (Hr : 0 < rsize <= 2 ^ 32) by (unfold rsize; cmp; lia).
  assert (Hw : 0 < wsize) by (unfold wsize; cmp; lia).
  destruct (NewRing_ok choices.1.1 P rsize HP ltac:(lia)) as (ring & P1 & E1 & Hring & Hnil & Hcap & HP1).
  rewrite E1. cbn [mbind option_bind].
  destruct (getBuf_ok choices.1.2 P1 rsize HP1 ltac:(lia)) as (scr & P2 & E2 & Hsl & _ & Hswf & HP2).
  rewrite E2. cbn [mbind option_bind].
  destruct (getBuf_ok choices.2 P2 wsize HP2 ltac:(lia)) as (wb & P3 & E3 & _ & Hwc & _ & HP3).
  rewrite E3. cbn [mbind option_bind]. set (c0 := MkConn _ _ _ _ _ _ _ _ _ _ _ _ _ _ _ _).
  assert (H4k : 4096 <= sl_cap wb).
  { rewrite Hwc. unfold size_class. repeat (cmp; try lia). }
  assert (Hc0 : conn_ok c0).
  { split; cbn; [|apply NewParser_wf|done|apply NewNegotiator_wf|done|].
    - unfold wr_wf, sl_wf, sl_cap in *. cbn. lia.
    - destruct (EventHandler cfg); simpl; [lia|done]. }
  destruct (negotiateInitial_buffered c0 (ok_wr _ Hc0) eq_refl) as (c1 & Hb & ->).
  { unfold w_len, w_cap, sl_cap in *. cbn. lia. }
  pose proof (flushLocked_ok c1 (bf_wf _ _ _ Hb)) as Hf. pose proof (flush_net c1 (bf_wf _ _ _ Hb)) as Hn.
  unfold Flush. destruct (flushLocked c1) as [c2 e] eqn:Efl. cbn [fst] in *.
  destruct Hf as ([F2 W2 _] & _). pose proof (transitivity (bf_frame _ _ _ Hb) F2) as F.
  exists c2, P3. split; [done|]. split; [done|].
  split; [by apply (kp_ok _ _ (frame_keeps _ _ F (fun _ => W2)) Hc0)|].
  rewrite (bf_bytes _ _ _ Hb), (bf_net _ _ _ Hb) in Hn.
  destruct F as [Fc Fp _ Fn Fr Fs _ Fo _ _ _ _]. rewrite Fo, Fn, Fp, Fr, Fs, Fc. cbn.
  split_and!; try done.
  - rewrite Hcap. by rewrite (proj2 (Z.leb_gt _ _)) by lia.
  - exists c1. rewrite Efl. split_and!; [done|apply Hb|].
    unfold out. by rewrite (bf_net _ _ _ Hb), (bf_bytes _ _ _ Hb).
Qed.

Lemma permitted_new cfg : permitted cfg NewNegotiator.
Proof using Type.
  split; [apply NewNegotiator_wf|]. intros opt Ho. unfold us_of, him_of.
  rewrite NewNegotiator_Get by done. by split.
Qed.
End Construction.

(** C29: [NewConn] never panics (for a read buffer of at most 4 GiB) and yields a
    connection in a good state: open, an empty queue, a fresh parser and negotiator,
    a read buffer of the configured size (64 KiB for a size that is not positive) and a
    ring of the least power of two that holds it, less one cell. All the configured
    offers, in the fixed order and with the window size after that of NAWS, reach the
    network as a single write; and none of them is recorded in the negotiator. *)
Theorem NewConn_correct {N : Type} `{NetConnLaws N} `{GrowPolicy} choices P (nc : N) cfg :
  pools_wf P -> ReadBufferSize cfg <= 2 ^ 32 ->
  let rsize := if ReadBufferSize cfg <=? 0 then 64 * 1024 else ReadBufferSize cfg in
  exists c P', NewConn choices P nc cfg = Some (c, P') /\ pools_wf P' /\
    conn_ok c /\ closed c = false /\ negotiator c = NewNegotiator /\ parser c = NewParser /\
    q_items (readBuf c) = [] /\ sl_len (readScratch c) = rsize /\
    (exists k, q_cap (readBuf c) = 2 ^ k - 1 /\ rsize <= 2 ^ k /\
       (forall j, 0 <= j -> rsize <= 2 ^ j -> 2 ^ k <= 2 ^ j)) /\
    netConn c = offered nc cfg.
Proof.
  intros HP Hmax rsize. destruct (NewConn_ok choices P nc cfg HP Hmax)
    as (c & P' & E & HP' & Hc & Ho & Hn & Hp & _ & Hq & Hs & Hk & Hnet & _). fold rsize in Hs, Hk.
  exists c, P'. split_and!; try done.
  destruct (round_pow2_ok rsize) as (k & _ & Ek & ? & ?); [unfold rsize; cmp; lia|].
  exists k. rewrite Hk, Ek. done.
Qed.

Section Chunks.
  Context {N Q : Type} `{NetConnLaws N} `{GrowPolicy} `{ByteQueueLaws Q}.
  Implicit Type c : Conn N Q.

(** Any number of chunks: what is sent meanwhile is answers. *)
Lemma process_many_said (Hrel : reliable (N:=N)) chunks : forall c c',
  talking c -> Forall wf_bytes chunks -> process_many c chunks = Some c' ->
  exists xs, said c c' xs /\ Forall (answer (config c)) xs.
Proof using Type*.
  induction chunks as [|d ds IH]; intros c c' Hc Hch; cbn [process_many].
  { intros [= <-]. exists []. by split; [apply said_refl|]. }
  apply Forall_cons_1 in Hch as [Hd Hds].
  destruct (processReadLocked c d) as [c1|] eqn:E; [|done]. cbn [mbind option_bind]. intros E2.
  destruct (processReadLocked_said Hrel c d c1 Hc Hd E) as (xs & S1 & A1).
  destruct (IH c1 c' (sa_talking _ _ _ S1) Hds E2) as (ys & S2 & A2).
  exists (xs ++ ys). split; [by eapply said_trans|]. rewrite (sa_config _ _ _ S1) in A2. by apply Forall_app_2.
Qed.

(** C18: a connection only ever enables and answers what its owner allows. From a
    negotiator that has enabled nothing else (as a new one), any sequence of chunks of
    arbitrary bytes is processed without a panic, and afterwards every option enabled or
    being enabled on our side is one the configuration enables, and every one on the
    peer's side is one the library knows. What an open connection on a network that takes
    every write appends to its output meanwhile is a sequence of whole commands [WILL],
    [WONT], [DO] and [DONT] (the answers), in which a [WILL] is for an option the
    configuration enables and a [DO] for one the library knows: everything else is
    refused. *)
Theorem only_permitted_options c chunks :
  conn_ok c -> permitted (config c) (negotiator c) -> Forall wf_bytes chunks ->
  exists c', process_many c chunks = Some c' /\ conn_ok c' /\ config c' = config c /\
    permitted (config c) (negotiator c') /\
    (closed c = false -> reliable (N:=N) ->
       exists xs, out c' = out c ++ wire xs /\
         Forall (fun x => exists resp opt, x = ICommand resp opt /\ is_negotiation resp = true /\
                   allowed_answer (config c) resp opt) xs).
Proof.
  intros Hc Hp Hch.
  assert (Hrun : exists c', process_many c chunks = Some c' /\ conn_ok c' /\ config c' = config c /\
    permitted (config c) (negotiator c')).
  { revert c Hc Hp. induction Hch as [|d ds Hd Hds IH]; intros c Hc Hp; cbn [process_many]; [by exists c|].
    destruct (processReadLocked_ok c d Hc Hd) as (c1 & E & Hpr). rewrite E. cbn [mbind option_bind].
    destruct (processReadLocked_negotiator c d c1 Hc E) as [En Ec].
    destruct (IH c1 (pr_ok _ _ _ Hpr)) as (c' & E' & Hc' & Ec' & Hp').
    { rewrite Ec, En. apply replies_permitted; [done|by apply chunk_commands_options]. }
    exists c'. rewrite Ec in *. split_and!; done. }
  destruct Hrun as (c' & E & Hc' & Ec & Hp'). exists c'. split_and!; try done. intros Ho Hrel.
  by destruct (process_many_said Hrel chunks c c') as (xs & [_ _ Hout] & Ha); [split|..]; eauto.
Qed.

(** Commands are answered into the output buffer. Processing a chunk while the
    buffer has room for sixteen answers appends exactly the answers, in order (a
    refusal for what the configuration rules out, the negotiator's answer for the
    rest), brings the negotiator to the state the commands call for, and does not
    touch the network: the peer gets no answer before the next flush. *)
Theorem answers_wait_in_the_buffer c data :
  conn_ok c -> closed c = false -> wf_bytes data -> w_len c + 48 <= w_cap c ->
  let '(n, xs) := replies (config c) (negotiator c) (chunk_commands c data) in
  exists c', processReadLocked c data = Some c' /\
    negotiator c' = n /\ netConn c' = netConn c /\ w_bytes c' = w_bytes c ++ wire xs.
Proof.
  intros Hc Ho Hd Hl. destruct (processReadLocked_phases c data Hc) as (p & r & q & _ & _ & E).
  set (c1 := set_readBuf (set_parse c p r) q) in E.
  assert (Hlen : zlen (chunk_commands c data) <= 16)
    by (unfold chunk_commands, zlen; rewrite length_take; lia).
  pose proof (process_commands_answered (chunk_commands c data) c1 (ok_wr _ Hc) Ho) as Ha.
  change (w_len c1) with (w_len c) in Ha. change (w_cap c1) with (w_cap c) in Ha.
  specialize (Ha ltac:(lia)). change (config c1) with (config c) in Ha.
  change (negotiator c1) with (negotiator c) in Ha.
  destruct (replies _ _ _) as [n xs]. destruct Ha as [En _ _ Et _ Eb _].
  eexists. split; [exact E|].
  destruct (process_sns_rest (SNEvents r) (foldl process_command c1 (chunk_commands c data)))
    as (-> & -> & Ew & _). split; [done|]. split; [done|].
  unfold w_bytes in *. by rewrite Ew, Eb.
Qed.

(** Because the initial offers bypass the negotiator, the peer's acceptance of one is
    taken for a request and answered with a second WILL: for every enabled option, DO
    on a fresh negotiator appends IAC WILL to the output. *)
Theorem acceptance_of_offer_is_answered c opt :
  conn_ok c -> closed c = false -> w_len c + 48 <= w_cap c -> is_opt opt ->
  negotiator c = NewNegotiator -> alpha (parser c) = DData ->
  isOptionEnabledLocally (config c) opt = true ->
  exists c', processReadLocked c (wire_command CmdDo opt) = Some c' /\
    us_of (negotiator c') opt = OptEnabled /\
    w_bytes c' = w_bytes c ++ wire_command CmdWill opt.
Proof.
  intros Hc Ho Hl Hopt Hn Ha He. destruct (processReadLocked_phases c (wire_command CmdDo opt) Hc)
    as (p & r & q & _ & _ & E).
  assert (Hcmds : chunk_commands c (wire_command CmdDo opt) = [MkCommandEvent CmdDo opt])
    by (unfold chunk_commands, decoded; by rewrite Ha, decode_command).
  rewrite Hcmds in E. set (c1 := set_readBuf (set_parse c p r) q) in E.
  pose proof (process_commands_answered [MkCommandEvent CmdDo opt] c1 (ok_wr _ Hc) Ho) as Han.
  change (w_len c1) with (w_len c) in Han. change (w_cap c1) with (w_cap c) in Han.
  specialize (Han ltac:(unfold zlen; simpl; lia)). change (config c1) with (config c) in Han.
  change (negotiator c1) with (negotiator c) in Han. cbn [replies] in Han. unfold reply in Han.
  cbn [ce_Command ce_Option] in Han. rewrite He, Hn, andb_false_r in Han.
  change (CmdDo =? CmdWill) with false in Han. cbn [andb] in Han.
  pose proof (Handle_side NewNegotiator SUs true opt NewNegotiator_wf Hopt) as Hs. cbv zeta in Hs.
  assert (Hcell : cell NewNegotiator SUs opt = OptDisabled)
    by (simpl; unfold us_of; by rewrite NewNegotiator_Get).
  rewrite Hcell in Hs. change (say (flip SUs) true) with CmdDo in Hs.
  cbn [side_recv] in Hs. rewrite Z.eqb_refl in Hs. destruct Hs as (n' & Eh & [_ Heq _]).
  rewrite Eh in Han. destruct Han as [En _ _ _ _ Eb _].
  eexists. split; [exact E|].
  destruct (process_sns_rest (SNEvents r) (foldl process_command c1 [MkCommandEvent CmdDo opt]))
    as (-> & _ & Ew & _). rewrite En. split; [exact Heq|].
  unfold w_bytes in *. rewrite Ew, Eb. done.
Qed.

Lemma process_command_parser c ce : wr_wf c -> parser (process_command c ce) = parser c.
Proof using Type*.
  intros Hc.
  assert (Hs : forall c1 k ev, wr_wf c1 -> parser (pushEvent (SendCommand c1 k (ce_Option ce)).1 ev) = parser c1).
  { intros c1 k ev Hc1. rewrite (kp_parser _ _ (pushEvent_keeps _ _)). by apply SendCommand_keeps. }
  unfold process_command. destruct (_ && _); [by apply Hs|]. destruct (_ && _); [by apply Hs|].
  destruct (Handle _ _ _) as [n [resp changed]]. rewrite (kp_parser _ _ (pushEvent_keeps _ _)).
  assert (Hn : parser (if negb (resp =? 0) then (SendCommand (set_negotiator c n) resp (ce_Option ce)).1
                       else set_negotiator c n) = parser c).
  { destruct (negb _); [|done]. by rewrite (kp_parser _ _ (SendCommand_keeps (set_negotiator c n) _ _ Hc)). }
  by destruct changed.
Qed.

(** A chunk with one subnegotiation among texts and commands. *)
Lemma process_sub_chunk c xs o l :
  conn_ok c -> alpha (parser c) = DData -> Forall item_ok xs -> subs xs = [(o, l)] ->
  exists c2 e, processReadLocked c (wire xs) = Some (process_sn c2 e) /\
    se_Option e = o /\
    take (Z.to_nat (se_Data e)) (sl_arr (sbuf (snBuf (parser c2)))) =
      take (Z.to_nat (sn_cap (parser c))) (escape l).
Proof using Type*.
  intros Hc Ha Hok Hxs. destruct (processReadLocked_phases c (wire xs) Hc) as (p & r & q & Ep & _ & E).
  pose proof (Parse_wire (parser c) xs empty_result (ok_parser _ Hc) Ha Hok) as Hp.
  rewrite Ep in Hp. destruct Hp as (_ & _ & _ & Hsn).
  set (c1 := set_readBuf (set_parse c p r) q) in E.
  assert (Hk : parser (foldl process_command c1 (chunk_commands c (wire xs))) = p).
  { generalize (chunk_commands c (wire xs)). intros ces.
    assert (Hw : wr_wf c1) by apply (ok_wr _ Hc). change p with (parser c1). clearbody c1. clear E Ep Hsn.
    revert c1 Hw. induction ces as [|ce ces IH]; intros c1 Hw; cbn [foldl]; [done|].
    rewrite IH by (by apply process_command_negotiator).
    by apply process_command_parser. }
  rewrite Hxs in Hsn. cbn [kept app fmap list_fmap shown fst snd foldl take] in Hsn. rewrite overlay_nil in Hsn.
  unfold sn_bytes in Hsn. destruct (SNEvents r) as [|e [|e' es]]; simplify_eq/=.
  eexists _, e. split; [exact E|]. rewrite Hk. by split.
Qed.

Lemma pushEvent_terminal c e :
  termType (pushEvent c e) = termType c /\ termWidth (pushEvent c e) = termWidth c /\
  termHeight (pushEvent c e) = termHeight c.
Proof using Type.
  unfold pushEvent. destruct (closed c); [done|]. destruct (events c) as [es|]; [|done].
  case_bool_decide; [done|]. by destruct es.
Qed.

Lemma be16_bytes w : 0 <= w < 2 ^ 16 -> be16 (u8 (Z.shiftr w 8)) (u8 w) = w.
Proof using Type.
  intros Hw. unfold be16, u8, u16. apply Z.bits_inj'. intros n Hn. rewrite Z.lor_spec.
  destruct (Z.lt_ge_cases n 8).
  - rewrite !Z.mod_pow2_bits_low by lia. by rewrite Z.shiftl_spec_low.
  - rewrite (Z.mod_pow2_bits_high w) by lia. rewrite orb_false_r.
    destruct (Z.lt_ge_cases n 16).
    + rewrite Z.mod_pow2_bits_low, Z.shiftl_spec by lia. rewrite Z.mod_pow2_bits_low by lia.
      rewrite Z.shiftr_spec by lia. f_equal. lia.
    + rewrite Z.mod_pow2_bits_high by lia. rewrite <- (Z.mod_small w (2 ^ 16)) by lia.
      by rewrite Z.mod_pow2_bits_high by lia.
Qed.

(** The payload of a window size as the parser keeps it decides the size stored. *)
Lemma process_naws c xs l d0 d1 d2 d3 rest :
  conn_ok c -> alpha (parser c) = DData -> Forall item_ok xs -> subs xs = [(OptNAWS, l)] ->
  take (Z.to_nat (sn_cap (parser c))) (escape l) = d0 :: d1 :: d2 :: d3 :: rest ->
  exists c', processReadLocked c (wire xs) = Some c' /\
    TerminalSize c' = (u16 (be16 d0 d1), u16 (be16 d2 d3)).
Proof using Type*.
  intros Hc Ha Hok Hxs Hl. destruct (process_sub_chunk c xs OptNAWS l Hc Ha Hok Hxs) as (c2 & e & E & Eo & Ed).
  eexists. split; [exact E|]. unfold process_sn. rewrite Ed, Hl, Eo. unfold TerminalSize.
  match goal with |- context [pushEvent ?c1 ?ev] =>
    destruct (pushEvent_terminal c1 ev) as (_ & -> & ->) end. done.
Qed.

Lemma process_ttype c xs term :
  conn_ok c -> alpha (parser c) = DData -> Forall item_ok xs -> subs xs = [(OptTerminalType, 0 :: term)] ->
  term <> [] -> CmdIAC ∉ term -> zlen term < sn_cap (parser c) ->
  exists c', processReadLocked c (wire xs) = Some c' /\ TerminalType c' = term.
Proof using Type*.
  intros Hc Ha Hok Hxs Hne Hn Hl.
  destruct (process_sub_chunk c xs OptTerminalType (0 :: term) Hc Ha Hok Hxs) as (c2 & e & E & Eo & Ed).
  eexists. split; [exact E|]. unfold process_sn.
  rewrite Ed, escape_no_IAC, take_ge, Eo by (by (apply not_elem_of_cons; split) || (unfold zlen in *; simpl; lia)).
  unfold TerminalType.
  match goal with |- context [pushEvent ?c1 ?ev] =>
    destruct (pushEvent_terminal c1 ev) as (-> & _ & _) end.
  unfold handleSubnegotiation. rewrite Z.eqb_refl, zlen_cons, (proj2 (Z.ltb_lt _ _)); [done|].
  destruct term; [done|zl].
Qed.

Lemma SendSubnegotiation_sent c c1 o l :
  wr_wf c -> closed c = false -> SendSubnegotiation c o l = (c1, None) ->
  out c1 = out c ++ wire_item (ISub o l).
Proof using Type*.
  intros Hw Ho E. pose proof (SendSubnegotiation_ok c o l Hw Ho) as Hk. rewrite E in Hk. apply Hk.
Qed.

Lemma one_sub xs ys o l :
  Forall item_ok (xs ++ ys) -> subs (xs ++ ys) = [] ->
  Forall item_ok (xs ++ ISub o l :: ys) /\ subs (xs ++ ISub o l :: ys) = [(o, l)].
Proof using Type.
  intros [Hx Hy]%Forall_app Hs. rewrite subs_app in Hs. apply app_eq_nil in Hs as [Sx Sy].
  split; [by apply Forall_app_2; [|constructor]|].
  change (ISub o l :: ys) with ([ISub o l] ++ ys). by rewrite !subs_app, Sx, Sy.
Qed.

(** C33: a window size and a terminal type sent by [SendNAWS] and [SendTType] arrive. When
    the sending operation of an open connection reports no error, its output has grown by
    one subnegotiation; and another connection, whose parser is at rest (between
    sequences), that processes in one chunk any texts and WILL, WONT, DO, DONT commands
    with that one subnegotiation among them stores exactly the width and height sent,
    when none of their four bytes is 255 and the parser's buffer has four bytes; and
    exactly the type sent, when it is not empty, holds no byte 255 and is shorter than
    the parser's buffer. *)
Theorem terminal_data_arrives (s c : Conn N Q) :
  wr_wf s -> closed s = false -> conn_ok c -> alpha (parser c) = DData ->
  (forall s1 w h, SendNAWS s w h = (s1, None) -> 0 <= w < 2 ^ 16 -> 0 <= h < 2 ^ 16 ->
     CmdIAC ∉ naws_data w h -> 4 <= sn_cap (parser c) ->
     exists x, out s1 = out s ++ wire_item x /\
       forall xs ys, Forall item_ok (xs ++ ys) -> subs (xs ++ ys) = [] ->
       exists c', processReadLocked c (wire (xs ++ x :: ys)) = Some c' /\ TerminalSize c' = (w, h)) /\
  (forall s1 term, SendTType s term = (s1, None) ->
     term <> [] -> CmdIAC ∉ term -> zlen term < sn_cap (parser c) ->
     exists x, out s1 = out s ++ wire_item x /\
       forall xs ys, Forall item_ok (xs ++ ys) -> subs (xs ++ ys) = [] ->
       exists c', processReadLocked c (wire (xs ++ x :: ys)) = Some c' /\ TerminalType c' = term).
Proof.
  intros Hs Hos Hc Ha. split.
  - intros s1 w h E Hw Hh Hn Hcap. exists (ISub OptNAWS (naws_data w h)).
    split; [by apply (SendSubnegotiation_sent s s1)|]. intros xs ys Hok Hxs.
    destruct (one_sub xs ys OptNAWS (naws_data w h) Hok Hxs) as [Hok' Hsub].
    destruct (process_naws c _ (naws_data w h) (u8 (Z.shiftr w 8)) (u8 w) (u8 (Z.shiftr h 8)) (u8 h) []
      Hc Ha Hok' Hsub) as (c' & E' & Et).
    { rewrite escape_no_IAC by done. apply take_ge. unfold naws_data; simpl. lia. }
    exists c'. split; [done|]. rewrite Et, !be16_bytes by done. unfold u16. by rewrite !Z.mod_small by done.
  - intros s1 term E Hne Hn Hl. exists (ISub OptTerminalType (0 :: term)).
    split; [by apply (SendSubnegotiation_sent s s1)|]. intros xs ys Hok Hxs.
    destruct (one_sub xs ys OptTerminalType (0 :: term) Hok Hxs) as [Hok' Hsub]. by apply process_ttype.
Qed.

Lemma wire_sub_one o l : wire [ISub o l] = wire_sub o l.
Proof using Type. apply wire_one. Qed.

(** A window size with a byte 255 is misread, since the receiver does not undo the
    doubling of that byte: a width of 255 and any height [256 * h1 + h0] arrive as the
    width 255 and the height [255 * 256 + h1]. *)
Theorem NAWS_255_misread c h1 h0 :
  conn_ok c -> alpha (parser c) = DData -> 4 <= sn_cap (parser c) -> is_byte h1 -> is_byte h0 ->
  exists c', processReadLocked c (wire_sub OptNAWS (naws_data 255 (256 * h1 + h0))) = Some c' /\
    TerminalSize c' = (255, 255 * 256 + h1).
Proof.
  intros Hc Ha Hcap H1' H0'. unfold is_byte in *.
  assert (Hu : forall a b, 0 <= a < 256 -> 0 <= b < 256 ->
    u8 (Z.shiftr (256 * a + b) 8) = a /\ u8 (256 * a + b) = b).
  { intros a b Hla Hlb. rewrite Z.shiftr_div_pow2 by lia. unfold u8. change (2 ^ 8) with 256.
    rewrite (Z.mul_comm 256), Z.div_add_l, Z.div_small, Z.add_0_r, Z.mod_small by lia.
    by rewrite Z.add_comm, Z.mod_add, Z.mod_small by lia. }
  destruct (Hu h1 h0) as [Eh1 Eh0]; [done|done|].
  assert (Hf : exists rest, take (Z.to_nat (sn_cap (parser c))) (escape (naws_data 255 (256 * h1 + h0)))
    = 0 :: 255 :: 255 :: h1 :: rest).
  { unfold naws_data. rewrite Eh1, Eh0. change (u8 (Z.shiftr 255 8)) with 0. change (u8 255) with 255.
    rewrite !escape_cons. change (0 =? CmdIAC) with false. change (255 =? CmdIAC) with true.
    replace (Z.to_nat (sn_cap (parser c))) with (4 + (Z.to_nat (sn_cap (parser c)) - 4))%nat by lia.
    destruct (Z.eqb_spec h1 CmdIAC) as [->|]; eexists; reflexivity. }
  destruct Hf as [rest Hf]. rewrite <- wire_sub_one.
  destruct (process_naws c [ISub OptNAWS _] _ _ _ _ _ _ Hc Ha ltac:(by repeat constructor) eq_refl Hf) as (c' & E & Et).
  exists c'. split; [exact E|]. rewrite Et. change (u16 (be16 0 255)) with 255. f_equal.
  destruct (Hu 255 h1) as [Ea Eb]; [lia|done|].
  pose proof (be16_bytes (256 * 255 + h1) ltac:(lia)) as Hbe. rewrite Ea, Eb in Hbe.
  rewrite Hbe. unfold u16. rewrite Z.mod_small; lia.
Qed.

(** The event channel keeps the latest 256 events. Pushing any events onto an open
    connection whose channel holds [q] never blocks, and leaves the last 256 of [q] and
    the new events, in order: the oldest are dropped. *)
Theorem event_queue_keeps_latest c q es :
  closed c = false -> events c = Some q -> (length q <= event_cap)%nat ->
  events (foldl pushEvent c es) = Some (drop (length (q ++ es) - event_cap) (q ++ es)).
Proof.
  revert c q. induction es as [|e es IH]; intros c q Ho Hq Hl; cbn [foldl].
  { rewrite app_nil_r. replace (length q - event_cap)%nat with 0%nat by lia. by rewrite drop_0. }
  assert (Hp : exists q', events (pushEvent c e) = Some q' /\ closed (pushEvent c e) = false /\
    (length q' <= event_cap)%nat /\ q' = drop (length (q ++ [e]) - event_cap) (q ++ [e])).
  { unfold pushEvent. rewrite Ho, Hq. case_bool_decide as Hlt.
    - eexists. split; [done|]. rewrite length_app. simpl. split; [done|]. split; [lia|].
      by replace (length q + 1 - event_cap)%nat with 0%nat by lia.
    - destruct q as [|e0 q]; [by destruct Hlt; unfold event_cap; simpl; lia|].
      simpl in Hl, Hlt. eexists. split; [done|]. split; [done|]. cbn [app].
      rewrite length_app. simpl. rewrite length_app. simpl. split; [lia|].
      by replace (length q + 1 - 255)%nat with 1%nat by (unfold event_cap in *; lia). }
  destruct Hp as (q' & E & Ho' & Hl' & ->). rewrite (IH _ _ Ho' E Hl').
  f_equal. rewrite <- (drop_app_le _ es) by lia.
  rewrite drop_drop, <- app_assoc. f_equal. rewrite !length_app, length_drop.
  rewrite !length_app. simpl. lia.
Qed.
End Chunks.

(** ** Closing *)

Section Closing.
  Context {N : Type} `{NetConnLaws N} `{GrowPolicy}.
  Implicit Type c : Conn N Ring.

(** Reading a freed ring that still counts queued bytes. *)
Lemma Read_freed r n : 0 < RingBuf.Len r -> 0 < n -> rbuf r = nil_slice -> RingBuf.Read r n = None.
Proof using Type.
  intros Hl Hn Hnil. unfold RingBuf.Read. fold (RingBuf.Len r). rewrite (proj2 (Z.eqb_neq _ _)) by lia.
  set (m := if RingBuf.Len r <? n then RingBuf.Len r else n).
  assert (0 < m) by (unfold m; cmp; lia). destruct (Z.to_nat m) as [|k] eqn:E; [lia|].
  cbn [get_loop]. rewrite Hnil. unfold sl_get. cbn [sl_len nil_slice].
  by destruct (0 <=? _) eqn:E1, (_ <? 0) eqn:E2; try (exfalso; apply Z.leb_le in E1; apply Z.ltb_lt in E2; lia).
Qed.

Lemma ReadLine_freed c fuel :
  0 < RingBuf.Len (readBuf c) -> rbuf (readBuf c) = nil_slice -> ReadLine (S fuel) c = LinePanic.
Proof using Type.
  intros Hl Hnil. unfold ReadLine. cbn [ReadLine_loop]. unfold ReadLine_iter.
  assert (E : readLocked c 1024 = None); [|by rewrite E].
  unfold readLocked. change (q_Len (readBuf c)) with (RingBuf.Len (readBuf c)).
  rewrite (proj2 (Z.ltb_lt 0 (RingBuf.Len (readBuf c)))) by done. unfold read_queue.
  change (q_Read (readBuf c) 1024) with (RingBuf.Read (readBuf c) 1024).
  by rewrite Read_freed.
Qed.

(** C34: [Close] of an open connection flushes the output, closes the channel that stops
    the dispatcher (if there is one), returns the three buffers to the pools and closes the
    network connection. Afterwards every [Read], [Write], [SendCommand] and
    [SendSubnegotiation] is refused with [ErrConnClosed] and changes nothing, and so is a
    second [Close]: no buffer is released twice. [ReadLine] alone does not look at the flag:
    if text was still queued, it panics on the freed ring. *)
Theorem Close_once c P n p k opt fuel :
  conn_ok c -> closed c = false -> 0 < w_cap c -> 0 < n ->
  let c1 := (Flush (set_closed c true)).1 in
  exists c' P', Close c P = (c', P', (net_Close (netConn c1)).2) /\
    netConn c' = (net_Close (netConn c1)).1 /\
    eventDone c' = (if eventDone c is Some _ then Some true else None) /\
    P' = putBuf (putBuf (putBuf P (rbuf (readBuf c))) (sbuf (writeBuf c1))) (readScratch c) /\
    Read c' n = Some (c', ([], Some ErrConnClosed)) /\
    Write c' p = (c', (0, Some ErrConnClosed)) /\
    SendCommand c' k opt = (c', Some ErrConnClosed) /\
    SendSubnegotiation c' opt p = (c', Some ErrConnClosed) /\
    (forall P'', Close c' P'' = (c', P'', Some ErrConnClosed)) /\
    (q_items (readBuf c) <> [] -> ReadLine (S fuel) c' = LinePanic).
Proof.
  intros Hc Ho Hcap Hn c1.
  pose proof (flushLocked_ok (set_closed c true) (ok_wr _ Hc)) as Hf. unfold Flush in c1.
  assert (Hfr : frame (set_closed c true) c1 /\ w_cap c1 = w_cap c).
  { unfold c1. destruct (flushLocked _) as [c2 e]. destruct Hf as ([F _ _] & _ & Hw). done. }
  destruct Hfr as [[Fc Fp _ _ Fr Fs [_ Fd] Fcl _ _ _ _] Hwc]. cbn [eventDone set_closed] in Fd.
  assert (Hring : RingBuf.Free (readBuf c) P =
    (MkRing nil_slice (mask (readBuf c)) (rhead (readBuf c)) (wtail (readBuf c)), putBuf P (rbuf (readBuf c)))).
  { unfold RingBuf.Free, sl_is_nil. destruct (ok_queue _ Hc) as [kk Hk].
    pose proof (ok_buf _ _ Hk) as Hb. unfold sl_wf in Hb.
    pose proof (ok_len _ _ Hk). pose proof (ok_k _ _ Hk). assert (0 < 2 ^ kk) by (apply Z.pow_pos_nonneg; lia).
    rewrite (proj2 (Z.eqb_neq _ _)); [done|]. lia. }
  unfold Close. rewrite Ho. fold c1. unfold Flush. fold c1. rewrite stop_dispatcher_is.
  cbn [readBuf set_eventDone]. rewrite Fr. cbn [readBuf set_closed]. rewrite Hring.
  unfold StaticBuf.Free, sl_is_nil. cbn [writeBuf set_readBuf set_eventDone].
  rewrite (proj2 (Z.eqb_neq _ _)) by (unfold w_cap in *; lia).
  cbn [netConn set_writeBuf set_readBuf set_eventDone readScratch]. rewrite Fs.
  destruct (net_Close (netConn c1)) as [nc err]. eexists _, _. split; [done|].
  assert (Hcl : closed c1 = true) by done. split; [done|]. split; [cbn; by rewrite Fd|].
  split_and!; try done; try (unfold Read, Write, SendCommand, SendSubnegotiation, Close; cbn; by rewrite Hcl).
  intros Hq. apply ReadLine_freed; [|done].
  change (0 < q_Len (readBuf c)). rewrite (q_Len_ok _ (ok_queue _ Hc)).
  destruct (q_items (readBuf c)); [done|zl].
Qed.
End Closing.

(** ** Witnesses *)

#[local] Existing Instance doubling.

Lemma NewConn_correct_witness :
  exists c P', NewConn (0, 0, 0)%nat empty_pools (Script [] [] 100) plain_config = Some (c, P') /\
    conn_ok c /\ log (netConn c) = [255; 251; 3; 255; 251; 1] /\ q_cap (readBuf c) = 63.
Proof.
  destruct (NewConn_correct (0, 0, 0)%nat empty_pools (Script [] [] 100) plain_config
    empty_pools_wf ltac:(by vm_compute))
    as (c & P' & E & _ & Hc & _ & _ & _ & _ & _ & (k & Hk & Hge & Hle) & Hn).
  exists c, P'. split; [exact E|]. split; [exact Hc|]. split; [rewrite Hn; by vm_compute|].
  change (if _ <=? 0 then _ else _) with 64 in Hge, Hle. rewrite Hk.
  specialize (Hle 6 ltac:(lia) ltac:(lia)). lia.
Defined.

(** DO ECHO (enabled), DO NAWS (not), WILL 99 (unknown), WILL SGA. *)
Definition four_commands : bytes :=
  [255; 253; 1; 255; 253; 31; 255; 251; 99; 255; 251; 3].
Definition wit_conn : Conn ScriptConn Ring := net_conn [] 6 64 [].

Lemma wit_conn_ok : conn_ok wit_conn.
Proof. by apply net_conn_ok; [lia|lia|vm_compute]. Qed.

Lemma four_commands_bytes : wf_bytes four_commands.
Proof. repeat (constructor; [unfold is_byte; lia|]); constructor. Qed.

(** The same connection, on a network that takes every write. *)
Definition open_conn : Conn WindowConn Ring :=
  let c := wit_conn in
  MkConn (Window [] []) (config c) (parser c) (parseResult c) (negotiator c) (readBuf c) (readScratch c)
    (writeBuf c) (events c) (eventDone c) (closed c) (readLineCR c) (termType c) (termWidth c) (termHeight c) (stats c).

Lemma only_permitted_options_witness :
  exists c' xs, process_many open_conn [four_commands] = Some c' /\
    us_of (negotiator c') OptEcho = OptEnabled /\ us_of (negotiator c') OptNAWS = OptDisabled /\
    out c' = wire xs /\
    Forall (fun x => exists resp opt, x = ICommand resp opt /\ is_negotiation resp = true /\
              allowed_answer (config open_conn) resp opt) xs.
Proof.
  assert (Hok : conn_ok open_conn) by (destruct wit_conn_ok; by split).
  destruct (only_permitted_options open_conn [four_commands] Hok (permitted_new _)
    ltac:(constructor; [apply four_commands_bytes|constructor])) as (c' & E & _ & _ & [_ Hp] & Ha).
  destruct (Ha eq_refl ltac:(done)) as (xs & Ho & Hxs). exists c', xs. split; [exact E|].
  assert (Hc : (fun c => us_of (negotiator c) OptEcho) <$> process_many open_conn [four_commands]
    = Some OptEnabled) by by vm_compute.
  rewrite E in Hc. split; [by injection Hc|]. split; [|by split; [rewrite Ho|]].
  destruct (decide (us_of (negotiator c') OptNAWS = OptDisabled)) as [|Hne]; [done|].
  destruct (Hp OptNAWS ltac:(unfold is_opt, OptNAWS; lia)) as [Hu _]. by specialize (Hu Hne).
Defined.

Lemma answers_wait_in_the_buffer_witness :
  exists c', processReadLocked wit_conn four_commands = Some c' /\ netConn c' = netConn wit_conn /\
    w_bytes c' = [255; 251; 1; 255; 252; 31; 255; 254; 99; 255; 253; 3].
Proof.
  pose proof (answers_wait_in_the_buffer wit_conn four_commands wit_conn_ok eq_refl
    four_commands_bytes ltac:(by vm_compute)) as Ha.
  destruct (replies _ _ _) as [n xs] eqn:Er. destruct Ha as (c' & E & _ & Hn & Hb).
  exists c'. split; [exact E|]. split; [exact Hn|]. rewrite Hb.
  apply (f_equal snd) in Er. vm_compute in Er. subst xs. by vm_compute.
Defined.

Lemma acceptance_of_offer_is_answered_witness :
  exists c', processReadLocked wit_conn (wire_command CmdDo OptSGA) = Some c' /\
    us_of (negotiator c') OptSGA = OptEnabled /\ w_bytes c' = w_bytes wit_conn ++ [255; 251; 3].
Proof.
  apply (acceptance_of_offer_is_answered wit_conn OptSGA wit_conn_ok eq_refl);
    [by vm_compute|unfold is_opt, OptSGA; lia|done|done|done].
Defined.

Lemma terminal_data_arrives_witness :
  let s1 := (SendNAWS wit_conn 300 50).1 in
  exists x, out s1 = out wit_conn ++ wire_item x /\
    exists c', processReadLocked wit_conn (wire [IText [104; 105]; x; ICommand CmdWill OptEcho]) = Some c' /\
      TerminalSize c' = (300, 50).
Proof.
  intros s1. destruct (terminal_data_arrives wit_conn wit_conn (ok_wr _ wit_conn_ok) eq_refl wit_conn_ok eq_refl)
    as [Hn _].
  assert (E : SendNAWS wit_conn 300 50 = (s1, None)) by by vm_compute.
  destruct (Hn s1 300 50 E ltac:(lia) ltac:(lia) ltac:(by_decide) ltac:(by vm_compute)) as (x & Ho & Hx).
  exists x. split; [exact Ho|].
  exact (Hx [IText [104; 105]] [ICommand CmdWill OptEcho] ltac:(by repeat constructor) eq_refl).
Defined.

Lemma NAWS_255_misread_witness :
  exists c', processReadLocked wit_conn (wire_sub OptNAWS (naws_data 255 24)) = Some c' /\
    TerminalSize c' = (255, 65280).
Proof.
  exact (NAWS_255_misread wit_conn 0 24 wit_conn_ok eq_refl ltac:(by vm_compute)
    ltac:(unfold is_byte; lia) ltac:(unfold is_byte; lia)).
Defined.

Definition numbered (n : nat) : event := MkEvent eventCommand CmdWill (Z.of_nat n) 0.

Lemma event_queue_keeps_latest_witness :
  events (foldl pushEvent wit_conn (numbered <$> seq 0 300)) = Some (numbered <$> seq 44 256).
Proof.
  rewrite (event_queue_keeps_latest wit_conn [] (numbered <$> seq 0 300));
    [by vm_compute|done|done|simpl; lia].
Defined.

Lemma Close_once_witness :
  exists c' P', Close (net_conn [] 6 64 [104; 105]) empty_pools = (c', P', None) /\
    Read c' 10 = Some (c', ([], Some ErrConnClosed)) /\ ReadLine 5 c' = LinePanic.
Proof.
  destruct (Close_once (net_conn [] 6 64 [104; 105]) empty_pools 10 [] 0 0 4
    (net_conn_ok [] 6 64 [104; 105] ltac:(lia) ltac:(lia) ltac:(by vm_compute)) eq_refl
    ltac:(by vm_compute) ltac:(lia)) as (c' & P' & E & _ & _ & _ & Hr & _ & _ & _ & _ & Hl).
  exists c', P'. split; [exact E|]. split; [exact Hr|]. apply Hl. by vm_compute.
Defined.
