(* ===== verification/ConnShared.v ===== *)
(** * ConnShared: one connection and the goroutines that use it.

    [TelnetConn] runs one operation at a time. Here the goroutines of a program call the
    operations of one [Conn] in any order: each operation is cut at its accesses to
    state that goroutines share, that is, the flag [closed], the two mutexes, the calls
    of [net.Conn], the channel of events and the dispatcher. What runs under a mutex on
    the state that the mutex guards is one step, and that step is the code of
    [TelnetConn]. [ReadLine] is left out: it takes no lock. *)
From S2P Require Import Prelude Constants GoSlice Pool ByteQueue RingBuf StaticBuf TelnetParser Options.
From S2P Require Import NetConn TelnetConn Wire ConnWriter.

(** ** Goroutines *)

Inductive tid := Dispatcher | User (i : nat).

#[global] Instance tid_eq_dec : EqDecision tid.
Proof. solve_decision. Defined.

Inductive call := CallSend (o : send_op) | CallRead (plen : nat) | CallClose.

(** Inside a sending operation: before it loads [closed], before [writeMu.Lock()],
    before its body, before [Unlock] with the result. *)
Inductive send_stage := SCheck | SLock | SBody | SUnlock (e : option error).

(** What a [Read] still has to do with the chunk it parsed. [TPushFull] stands between
    the two [select]s of [pushEvent]. *)
Inductive task :=
  | TCommand (ce : CommandEvent) | TReply (st : send_stage) (command opt : Z) | TNegotiated
  | TPush (e : event) | TPushFull (e : event) | TSub (sn : SubnegotiationEvent).

(** Inside [Close], after the compare-and-swap. *)
Inductive close_stage :=
  | KFlush (st : send_stage) | KDone | KWait | KReadLock | KFreeRead | KReadUnlock
  | KWriteLock | KFreeWrite | KWriteUnlock | KPut | KNet.

(** Where a goroutine stands. *)
Inductive pc :=
  | Idle
  | Sending (st : send_stage) (o : send_op)
  | ReadEnter (plen : Z) | ReadLock (plen : Z) | ReadLocked (plen : Z) | ReadNet (plen : Z)
  | ReadTasks (plen nr : Z) (err : option error) (todo : list task)
  | ReadUnlock (res : bytes * option error)
  | CloseEnter | Closing (k : close_stage).

(** The event dispatcher: none, in its [select], in a call of the handler (which may
    itself use the connection), or returned. *)
Inductive dispatcher := DNone | DSelect | DHandler (h : handler_call) (p : pc) | DExited.

Inductive ret :=
  | DidSend (o : send_op) (e : option error)
  | DidRead (res : bytes * option error)
  | DidClose (e : option error) | DidNotClose.

#[global] Instance send_op_eq_dec : EqDecision send_op.
Proof. solve_decision. Defined.

#[global] Instance ret_eq_dec : EqDecision ret.
Proof. solve_decision. Defined.

(** The fields after [panicked] are not part of the program's state: the goroutine whose
    [Close] won, whether the output buffer was freed, the sending operations in the
    order in which their bodies ran (until then), and the calls that returned. *)
Record world (N : Type) := World {
  conn : Conn N Ring; pools : Pools;
  readMu : option tid; writeMu : option tid;
  users : list pc; disp : dispatcher; panicked : bool;
  won : option tid; freed : bool;
  order : list (tid * send_op * option error); results : list (tid * ret)
}.
Arguments World {N}.
Arguments conn {N}.
Arguments pools {N}.
Arguments readMu {N}.
Arguments writeMu {N}.
Arguments users {N}.
Arguments disp {N}.
Arguments panicked {N}.
Arguments won {N}.
Arguments freed {N}.
Arguments order {N}.
Arguments results {N}.

Section Shared.
  Context {N : Type} `{NetConn N} `{GrowPolicy}.
  Implicit Types (w : world N) (c : Conn N Ring) (t : tid).

Definition set_conn w c : world N :=
  World c (pools w) (readMu w) (writeMu w) (users w) (disp w) (panicked w)
    (won w) (freed w) (order w) (results w).
Definition set_pools w P : world N :=
  World (conn w) P (readMu w) (writeMu w) (users w) (disp w) (panicked w)
    (won w) (freed w) (order w) (results w).
Definition set_readMu w (o : option tid) : world N :=
  World (conn w) (pools w) o (writeMu w) (users w) (disp w) (panicked w)
    (won w) (freed w) (order w) (results w).
Definition set_writeMu w (o : option tid) : world N :=
  World (conn w) (pools w) (readMu w) o (users w) (disp w) (panicked w)
    (won w) (freed w) (order w) (results w).
Definition set_users w (l : list pc) : world N :=
  World (conn w) (pools w) (readMu w) (writeMu w) l (disp w) (panicked w)
    (won w) (freed w) (order w) (results w).
Definition set_disp w (d : dispatcher) : world N :=
  World (conn w) (pools w) (readMu w) (writeMu w) (users w) d (panicked w)
    (won w) (freed w) (order w) (results w).
Definition panic w : world N :=
  World (conn w) (pools w) (readMu w) (writeMu w) (users w) (disp w) true
    (won w) (freed w) (order w) (results w).
Definition set_won w t : world N :=
  World (conn w) (pools w) (readMu w) (writeMu w) (users w) (disp w) (panicked w)
    (Some t) (freed w) (order w) (results w).
Definition set_freed w : world N :=
  World (conn w) (pools w) (readMu w) (writeMu w) (users w) (disp w) (panicked w)
    (won w) true (order w) (results w).
Definition add_order w t (o : send_op) (e : option error) : world N :=
  World (conn w) (pools w) (readMu w) (writeMu w) (users w) (disp w) (panicked w)
    (won w) (freed w) (if freed w then order w else order w ++ [(t, o, e)]) (results w).
Definition add_result w t (r : ret) : world N :=
  World (conn w) (pools w) (readMu w) (writeMu w) (users w) (disp w) (panicked w)
    (won w) (freed w) (order w) (results w ++ [(t, r)]).

Definition get_pc w t : option pc :=
  match t with
  | User i => users w !! i
  | Dispatcher => match disp w with DHandler _ p => Some p | _ => None end
  end.

Definition set_pc w t (p : pc) : world N :=
  World (conn w) (pools w) (readMu w) (writeMu w)
    (match t with User i => <[i := p]> (users w) | Dispatcher => users w end)
    (match t, disp w with Dispatcher, DHandler h _ => DHandler h p | _, d => d end)
    (panicked w) (won w) (freed w) (order w) (results w).

(** A call returns. *)
Definition return_ w t (r : ret) : world N := set_pc (add_result w t r) t Idle.

(** [mu.Lock()]: [None] while another goroutine holds the lock. *)
Definition lock_read w t : option (world N) :=
  match readMu w with None => Some (set_readMu w (Some t)) | Some _ => None end.
Definition lock_write w t : option (world N) :=
  match writeMu w with None => Some (set_writeMu w (Some t)) | Some _ => None end.

(** ** Sending *)

(** All sending operations but [Flush] load the flag first. *)
Definition checks (o : send_op) : bool := match o with SFlush => false | _ => true end.

(** What is left of the operation once it has found the flag clear. *)
Definition send_body c (o : send_op) : Conn N Ring * option error :=
  let '(c', e) := exec_send (set_closed c false) o in (set_closed c' (closed c), e).

(** One step of a sending operation: the next stage, or what it returns. *)
Definition send_step w t (st : send_stage) (o : send_op)
    : option (world N * (send_stage + option error)) :=
  match st with
  | SCheck =>
      if checks o && closed (conn w) then Some (w, inr (Some ErrConnClosed)) else Some (w, inl SLock)
  | SLock => w ← lock_write w t; Some (w, inl SBody)
  | SBody =>
      let '(c, e) := send_body (conn w) o in
      Some (add_order (set_conn w c) t o e, inl (SUnlock e))
  | SUnlock e => Some (set_writeMu w None, inr e)
  end.

(** ** Reading *)

(** The sending that a reader does, in its place in [todo]. *)
Definition task_step w t (plen nr : Z) (err : option error) (todo : list task) : option (world N) :=
  let c := conn w in
  let goto w todo := set_pc w t (ReadTasks plen nr err todo) in
  match todo with
  | [] => None
  | TCommand ce :: todo =>
      let command := ce_Command ce in
      let opt := ce_Option ce in
      let ev := MkEvent eventCommand command opt 0 in
      if (command =? CmdDo) && negb (isOptionEnabledLocally (config c) opt) then
        Some (goto w (TReply SCheck CmdWont opt :: TPush ev :: todo))
      else if (command =? CmdWill) && negb (isOptionSupported opt) then
        Some (goto w (TReply SCheck CmdDont opt :: TPush ev :: todo))
      else
        let '(n, (resp, changed)) := Handle (negotiator c) command opt in
        Some (goto (set_conn w (set_negotiator c n))
          ((if negb (resp =? 0) then [TReply SCheck resp opt] else []) ++
           (if changed then [TNegotiated] else []) ++ TPush ev :: todo))
  | TReply st command opt :: todo =>
      '(w, r) ← send_step w t st (SCommand command opt);
      Some (goto w (match r with inl st => TReply st command opt :: todo | inr _ => todo end))
  | TNegotiated :: todo =>
      Some (goto (set_conn w (set_stats c (stats_update (stats c) 0 0 0 1 0))) todo)
  | TPush e :: todo =>
      if closed c then Some (goto w todo)
      else match events c with
      | None => Some (goto w todo)
      | Some es =>
          if bool_decide (length es < event_cap)%nat
          then Some (goto (set_conn w (set_events c (Some (es ++ [e])))) todo)
          else Some (goto w (TPushFull e :: todo))
      end
  | TPushFull e :: todo =>
      match events c with
      | Some (_ :: es) => Some (goto (set_conn w (set_events c (Some (es ++ [e])))) todo)
      | _ => Some (goto w todo)
      end
  | TSub sn :: todo =>
      let data := take (Z.to_nat (se_Data sn)) (sl_arr (sbuf (snBuf (parser c)))) in
      let c := set_stats c (stats_update (stats c) 0 0 0 0 1) in
      let c := handleSubnegotiation c (se_Option sn) data in
      Some (goto (set_conn w c) (TPush (MkEvent eventSubnegotiation 0 (se_Option sn) (se_Data sn)) :: todo))
  end.

(** [c.readBuf.Read(p)], and then the deferred [Unlock]. *)
Definition take_queued w t (plen : Z) : world N :=
  match read_queue (conn w) plen with
  | None => panic w
  | Some (c, res) => set_pc (set_conn w c) t (ReadUnlock res)
  end.

(** [net.Conn.Read] returns: the chunk is parsed and its text queued. *)
Definition net_returns w t (plen : Z) : world N :=
  let c := conn w in
  let '(nc, (data, err)) := net_Read (netConn c) (sl_len (readScratch c)) in
  let c := set_netConn c nc in
  let c := set_readScratch c
             (MkSlice (write_at (sl_arr (readScratch c)) 0 data) (sl_len (readScratch c))) in
  if 0 <? zlen data then
    let c := set_stats c (stats_update (stats c) (zlen data) 0 0 0 0) in
    let '(p, r) := Parse (parser c) data (parseResult c) in
    let c := set_parse c p r in
    match process_data c data (DataEvents r) with
    | None => panic w
    | Some c => set_pc (set_conn w c) t
        (ReadTasks plen (zlen data) err ((TCommand <$> CommandEvents r) ++ (TSub <$> SNEvents r)))
    end
  else set_pc (set_conn w c) t (ReadTasks plen 0 err []).

(** The rest of [readLocked]. *)
Definition read_finish w t (plen nr : Z) (err : option error) : world N :=
  match err with
  | Some e =>
      if 0 <? q_Len (readBuf (conn w)) then take_queued w t plen
      else if errors_Is e EOF then set_pc w t (ReadUnlock ([], Some EOF))
      else set_pc w t (ReadUnlock ([], Some e))
  | None =>
      if nr =? 0 then set_pc w t (ReadUnlock ([], None))
      else if 0 <? q_Len (readBuf (conn w)) then take_queued w t plen
      else set_pc w t (ReadUnlock ([], None))
  end.

(** ** Closing *)

Definition close_step w t (k : close_stage) : option (world N) :=
  let c := conn w in
  let goto w k := set_pc w t (Closing k) in
  match k with
  | KFlush st =>
      '(w, r) ← send_step w t st SFlush;
      Some (goto w (match r with inl st => KFlush st | inr _ => KDone end))
  | KDone =>
      if eventDone c is Some _ then Some (goto (set_conn w (set_eventDone c (Some true))) KWait)
      else Some (goto w KReadLock)
  | KWait => if disp w is DExited then Some (goto w KReadLock) else None
  | KReadLock => w ← lock_read w t; Some (goto w KFreeRead)
  | KFreeRead =>
      let '(q, P) := RingBuf.Free (readBuf c) (pools w) in
      Some (goto (set_pools (set_conn w (set_readBuf c q)) P) KReadUnlock)
  | KReadUnlock => Some (goto (set_readMu w None) KWriteLock)
  | KWriteLock => w ← lock_write w t; Some (goto w KFreeWrite)
  | KFreeWrite =>
      let '(b, P) := StaticBuf.Free (writeBuf c) (pools w) in
      Some (goto (set_freed (set_pools (set_conn w (set_writeBuf c b)) P)) KWriteUnlock)
  | KWriteUnlock => Some (goto (set_writeMu w None) KPut)
  | KPut => Some (goto (set_pools w (putBuf (pools w) (readScratch c))) KNet)
  | KNet =>
      let '(nc, err) := net_Close (netConn c) in
      Some (return_ (set_conn w (set_netConn c nc)) t (DidClose err))
  end.

(** ** One step of a goroutine; [None] where it is blocked, or waits for the network *)

Definition pc_step w t (p : pc) : option (world N) :=
  let c := conn w in
  match p with
  | Idle => None
  | Sending st o =>
      '(w, r) ← send_step w t st o;
      Some (match r with inl st => set_pc w t (Sending st o) | inr e => return_ w t (DidSend o e) end)
  | ReadEnter plen =>
      Some (if closed c then return_ w t (DidRead ([], Some ErrConnClosed))
            else set_pc w t (ReadLock plen))
  | ReadLock plen => w ← lock_read w t; Some (set_pc w t (ReadLocked plen))
  | ReadLocked plen =>
      Some (if 0 <? q_Len (readBuf c) then take_queued w t plen else set_pc w t (ReadNet plen))
  | ReadNet _ => None
  | ReadTasks plen nr err [] => Some (read_finish w t plen nr err)
  | ReadTasks plen nr err todo => task_step w t plen nr err todo
  | ReadUnlock res => Some (return_ (set_readMu w None) t (DidRead res))
  | CloseEnter =>
      Some (if closed c then return_ w t DidNotClose
            else set_pc (set_won (set_conn w (set_closed c true)) t) t (Closing (KFlush SLock)))
  | Closing k => close_step w t k
  end.

(** ** The system *)

Inductive label :=
  | Spawn | Call (t : tid) (a : call) | Step (t : tid) | NetReturns (t : tid)
  | DispatcherReceives | HandlerReturns | DispatcherStops.

Definition enter (a : call) : pc :=
  match a with
  | CallSend o => Sending SCheck o
  | CallRead plen => ReadEnter (Z.of_nat plen)
  | CallClose => CloseEnter
  end.

Definition wstep w (l : label) : option (world N) :=
  if panicked w then None else
  match l with
  | Spawn => Some (set_users w (users w ++ [Idle]))
  | Call t a => if get_pc w t is Some Idle then Some (set_pc w t (enter a)) else None
  | Step t => p ← get_pc w t; pc_step w t p
  | NetReturns t => if get_pc w t is Some (ReadNet plen) then Some (net_returns w t plen) else None
  | DispatcherReceives =>
      match disp w with
      | DSelect => '(c, h) ← dispatch (conn w); Some (set_disp (set_conn w c) (DHandler h Idle))
      | _ => None
      end
  | HandlerReturns =>
      match disp w with DHandler _ Idle => Some (set_disp w DSelect) | _ => None end
  | DispatcherStops =>
      match disp w with
      | DSelect => if eventDone (conn w) is Some true then Some (set_disp w DExited) else None
      | _ => None
      end
  end.

Fixpoint wrun w (ls : list label) : option (world N) :=
  match ls with [] => Some w | l :: ls' => w' ← wstep w l; wrun w' ls' end.

(** A connection as [NewConn] returns it, with the dispatcher running. *)
Definition start c (P : Pools) : world N :=
  World c P None None [] (if eventDone c is Some _ then DSelect else DNone) false
    None false [] [].
End Shared.

Definition reachable {N} `{NetConn N} `{GrowPolicy} (c : Conn N Ring) (P : Pools) (w : world N) : Prop :=
  exists ls, wrun (start c P) ls = Some w.
