(* ===== verification/ConnSharedProps.v ===== *)
(** * ConnSharedProps: what holds of a connection that goroutines share.

    The locks guard what they should and are never waited for in vain; the bytes of
    concurrent senders do not mix; [Close] against the other operations, also behind a
    [Read] that waits for the network; and what a server needs of its connections. *)
From stdpp Require Import relations.
From S2P Require Import Prelude Constants GoSlice Pool ByteQueue RingBuf StaticBuf TelnetParser Options.
From S2P Require Import ParserSpec Wire NetConn TelnetConn ConnWriter ConnReader ConnShared.

(** ** Who holds which lock *)

Definition stage_holds (st : send_stage) : bool :=
  match st with SBody | SUnlock _ => true | _ => false end.

Definition holds_write (p : pc) : bool :=
  match p with
  | Sending st _ | ReadTasks _ _ _ (TReply st _ _ :: _) | Closing (KFlush st) => stage_holds st
  | Closing KFreeWrite | Closing KWriteUnlock => true
  | _ => false
  end.

Definition holds_read (p : pc) : bool :=
  match p with
  | ReadLocked _ | ReadNet _ | ReadTasks _ _ _ _ | ReadUnlock _ => true
  | Closing KFreeRead | Closing KReadUnlock => true
  | _ => false
  end.

(** The replies that a reader has not come to have not begun. *)
Definition not_begun (a : task) : Prop := match a with TReply st _ _ => st = SCheck | _ => True end.

Definition pc_ok (p : pc) : Prop :=
  match p with
  | ReadEnter plen | ReadLock plen | ReadLocked plen | ReadNet plen => 0 <= plen
  | ReadTasks plen _ _ todo => 0 <= plen /\ match todo with [] => True | _ :: l => Forall not_begun l end
  | _ => True
  end.

(** What a step of [t] may do to a lock: nothing, take it or release it. *)
Definition lock_moves (t : tid) (o o' : option tid) (h h' : bool) : Prop :=
  (o' = o /\ h' = h) \/ (o = None /\ o' = Some t /\ h = false /\ h' = true) \/
  (h = true /\ o' = None /\ h' = false).

Definition lock_ok {N} (w : world N) (o : option tid) (holds : pc -> bool) : Prop :=
  forall t, o = Some t <-> exists p, get_pc w t = Some p /\ holds p = true.

Section Locks.
  Context {N : Type} `{NetConn N} `{GrowPolicy}.
  Implicit Types (w : world N) (t : tid) (p : pc).

Lemma get_set_pc w t p p' t' :
  get_pc w t = Some p -> get_pc (set_pc w t p') t' = if decide (t' = t) then Some p' else get_pc w t'.
Proof using Type.
  intros Hp. destruct t as [|i], t' as [|j]; simpl in *; repeat case_decide; simplify_eq; try done.
  - by destruct (disp w).
  - rewrite list_lookup_insert_eq; [done|]. by eapply lookup_lt_Some.
  - rewrite list_lookup_insert_ne; [done|]. congruence.
Qed.

(** The goroutine [t] went from [p] to [p']. *)
Record moves w t p w' p' : Prop := {
  mv_ok : pc_ok p';
  mv_pc t' : get_pc w' t' = if decide (t' = t) then Some p' else get_pc w t';
  mv_write : lock_moves t (writeMu w) (writeMu w') (holds_write p) (holds_write p');
  mv_read : lock_moves t (readMu w) (readMu w') (holds_read p) (holds_read p')
}.

Lemma moves_same w t p w' :
  pc_ok p -> get_pc w t = Some p -> (forall t', get_pc w' t' = get_pc w t') ->
  writeMu w' = writeMu w -> readMu w' = readMu w -> moves w t p w' p.
Proof using Type.
  intros Hok Hp Hpc Hw Hr. split; [done| |by left|by left].
  intros t'. rewrite Hpc. case_decide; [by subst|done].
Qed.

Lemma moves_to w t p w1 p' :
  get_pc w t = Some p -> pc_ok p' -> (forall t', get_pc w1 t' = get_pc w t') ->
  lock_moves t (writeMu w) (writeMu w1) (holds_write p) (holds_write p') ->
  lock_moves t (readMu w) (readMu w1) (holds_read p) (holds_read p') ->
  moves w t p (set_pc w1 t p') p'.
Proof using Type.
  intros Hp Hok Hpc Hw Hr. split; [done| |done|done].
  intros t'. rewrite (get_set_pc w1 t p); [|by rewrite Hpc]. by rewrite Hpc.
Qed.

(** One stage of a sending operation. *)
Lemma send_step_locks w t st o w1 r :
  send_step w t st o = Some (w1, r) ->
  (forall t', get_pc w1 t' = get_pc w t') /\ readMu w1 = readMu w /\
  lock_moves t (writeMu w) (writeMu w1) (stage_holds st)
    (match r with inl st => stage_holds st | inr _ => false end) /\
  (forall st', r = inl st' -> st' <> SCheck).
Proof using Type.
  intros E. destruct st; cbn [send_step] in E.
  - destruct (_ && _); simplify_eq; split_and!; try done; try (by left); by intros ? [= <-].
  - unfold lock_write in E. destruct (writeMu w) eqn:Ew; [done|]. simplify_eq/=.
    split_and!; try done; [right; by left|by intros ? [= <-]].
  - destruct (send_body (conn w) o) as [c e]. simplify_eq/=.
    split_and!; try done; [by left|by intros ? [= <-]].
  - simplify_eq/=. split_and!; try done. by right; right.
Qed.

Lemma take_queued_moves w t p w1 plen :
  get_pc w t = Some p -> pc_ok p -> holds_write p = false -> holds_read p = true ->
  (forall t', get_pc w1 t' = get_pc w t') -> writeMu w1 = writeMu w -> readMu w1 = readMu w ->
  exists p', moves w t p (take_queued w1 t plen) p'.
Proof using Type.
  intros Hp Hok Hw Hr Hpc Ew Er. unfold take_queued.
  destruct (read_queue _ _) as [[c res]|]; eexists.
  - apply moves_to; try done; left; simpl; by rewrite ?Ew, ?Er, ?Hw, ?Hr.
  - by apply moves_same.
Qed.

(** The step of a goroutine, seen from the locks. *)
Ltac goto_tac := eexists; apply moves_to; try done; by left.

Lemma todo_ok (todo : list task) :
  Forall not_begun todo -> match todo with [] => True | _ :: l => Forall not_begun l end.
Proof using Type. by intros []. Qed.

Lemma idle_head (plen nr : Z) err todo :
  Forall not_begun todo -> holds_write (ReadTasks plen nr err todo) = false.
Proof using Type. intros Hf. destruct Hf as [|[] ? Hx]; try done. simpl in *. by subst. Qed.

Lemma task_step_moves w t plen nr err todo w' :
  get_pc w t = Some (ReadTasks plen nr err todo) -> pc_ok (ReadTasks plen nr err todo) ->
  task_step w t plen nr err todo = Some w' ->
  exists p', moves w t (ReadTasks plen nr err todo) w' p'.
Proof using Type.
  intros Hp [Hplen Hok] E. destruct todo as [|a todo]; [done|].
  assert (Hgo : forall todo' w1, Forall not_begun todo' -> (forall t', get_pc w1 t' = get_pc w t') ->
    writeMu w1 = writeMu w -> readMu w1 = readMu w ->
    match a with TReply st _ _ => stage_holds st | _ => false end = false ->
    moves w t (ReadTasks plen nr err (a :: todo))
      (set_pc w1 t (ReadTasks plen nr err todo')) (ReadTasks plen nr err todo')).
  { intros todo' w1 Hf Hpc Hw Hr Ha. apply moves_to; try done.
    - by split; [|apply todo_ok].
    - left. split; [done|]. rewrite idle_head by done. by destruct a.
    - by left. }
  destruct a as [ce|st command opt| |e|e|sn]; cbn [task_step] in E.
  - destruct (_ && _); [|destruct (_ && _)].
    1-2: simplify_eq; eexists; apply Hgo; try done; by repeat constructor.
    destruct (Handle _ _ _) as [n [resp changed]]. simplify_eq. eexists. apply Hgo; try done.
    apply Forall_app_2; [by destruct (negb _); repeat constructor|].
    by apply Forall_app_2; [destruct changed; repeat constructor|constructor].
  - destruct (send_step w t st (SCommand command opt)) as [[w1 r]|] eqn:Es; [|done]. simplify_eq/=.
    destruct (send_step_locks _ _ _ _ _ _ Es) as (Hpc & Hr & Hl & Hst).
    destruct r as [st'|e]; eexists.
    + apply moves_to; try done. by left.
    + apply moves_to; try done; [by split; [|apply todo_ok]|rewrite (idle_head plen nr err todo) by done; exact Hl|by left].
  - simplify_eq. eexists. by apply Hgo.
  - destruct (closed _); [simplify_eq; eexists; by apply Hgo|].
    destruct (events _) as [es|]; [|simplify_eq; eexists; by apply Hgo].
    case_bool_decide; simplify_eq; eexists; apply Hgo; try done. by constructor.
  - destruct (events _) as [[|? es]|]; simplify_eq; eexists; by apply Hgo.
  - simplify_eq. eexists. apply Hgo; try done. by constructor.
Qed.

Lemma close_step_moves w t k w' :
  get_pc w t = Some (Closing k) -> close_step w t k = Some w' ->
  exists p', moves w t (Closing k) w' p'.
Proof using Type.
  intros Hp E. destruct k; cbn [close_step] in E.
  - destruct (send_step w t st SFlush) as [[w1 r]|] eqn:Es; [|done]. simplify_eq/=.
    destruct (send_step_locks _ _ _ _ _ _ Es) as (Hpc & Hr & Hl & Hst).
    destruct r; eexists; apply moves_to; try done; by left.
  - destruct (eventDone _); simplify_eq; goto_tac.
  - destruct (disp w); simplify_eq; goto_tac.
  - unfold lock_read in E. destruct (readMu w) eqn:Er; [done|]. simplify_eq/=.
    eexists. apply moves_to; try done; [by left|]. right. left. by rewrite Er.
  - destruct (RingBuf.Free _ _). simplify_eq. goto_tac.
  - simplify_eq. eexists. apply moves_to; try done; [by left|]. by right; right.
  - unfold lock_write in E. destruct (writeMu w) eqn:Er; [done|]. simplify_eq/=.
    eexists. apply moves_to; try done; [|by left]. right. left. by rewrite Er.
  - destruct (StaticBuf.Free _ _). simplify_eq. goto_tac.
  - simplify_eq. eexists. apply moves_to; try done; [|by left]. by right; right.
  - simplify_eq. goto_tac.
  - destruct (net_Close _). simplify_eq. goto_tac.
Qed.

Lemma pc_step_moves w t p w' :
  get_pc w t = Some p -> pc_ok p -> pc_step w t p = Some w' -> exists p', moves w t p w' p'.
Proof using Type.
  intros Hp Hok E. destruct p as [|st o|plen|plen|plen|plen|plen nr err todo|res| |k]; cbn [pc_step] in E.
  - done.
  - destruct (send_step w t st o) as [[w1 r]|] eqn:Es; [|done]. simplify_eq/=.
    destruct (send_step_locks _ _ _ _ _ _ Es) as (Hpc & Hr & Hl & Hst).
    destruct r; eexists; apply moves_to; try done; by left.
  - destruct (closed _); simplify_eq; goto_tac.
  - unfold lock_read in E. destruct (readMu w) eqn:Er; [done|]. simplify_eq/=.
    eexists. apply moves_to; try done; [by left|]. right. left. by rewrite Er.
  - destruct (0 <? _); simplify_eq; [by eapply take_queued_moves|goto_tac].
  - done.
  - destruct todo as [|a todo]; [|by eapply task_step_moves].
    simplify_eq. unfold read_finish. destruct err as [e|].
    + destruct (0 <? _); [by eapply take_queued_moves|]. destruct (errors_Is e EOF); goto_tac.
    + destruct (nr =? 0); [goto_tac|]. destruct (0 <? _); [by eapply take_queued_moves|goto_tac].
  - simplify_eq. eexists. apply moves_to; try done; [by left|]. by right; right.
  - destruct (closed _); simplify_eq; goto_tac.
  - by eapply close_step_moves.
Qed.

(** ** The locks in every reachable state *)

Record locks_ok w : Prop := {
  lk_pc t p : get_pc w t = Some p -> pc_ok p;
  lk_write : lock_ok w (writeMu w) holds_write;
  lk_read : lock_ok w (readMu w) holds_read
}.

Lemma lock_ok_moves w w' t p p' o o' (holds : pc -> bool) :
  lock_ok w o holds -> get_pc w t = Some p ->
  (forall t', get_pc w' t' = if decide (t' = t) then Some p' else get_pc w t') ->
  lock_moves t o o' (holds p) (holds p') -> lock_ok w' o' holds.
Proof using Type.
  intros Hok Hp Hpc Hl t'. rewrite Hpc.
  assert (Hme : o = Some t <-> holds p = true).
  { rewrite (Hok t). split; [|eauto]. intros (q & Hq & Hh). by simplify_eq. }
  assert (Hth : t' <> t -> o = Some t' <-> exists q, get_pc w t' = Some q /\ holds q = true) by (intros _; apply Hok).
  destruct Hl as [(-> & E)|[(-> & -> & E & E')|(E & -> & E')]]; case_decide as Ht; subst; try (by apply Hth).
  - rewrite Hme, <- E. split; [by eauto|]. by intros (q & [= <-] & ?).
  - split; [by eauto|done].
  - rewrite <- Hth by done. split; congruence.
  - split; [done|]. intros (q & [= <-] & ?). congruence.
  - rewrite <- Hth by done. split; [done|]. apply Hme in E. congruence.
Qed.

Lemma moves_locks w t p w' p' :
  locks_ok w -> get_pc w t = Some p -> moves w t p w' p' -> locks_ok w'.
Proof using Type.
  intros [Hpc Hw Hr] Hp [Mok Mpc Mw Mr]. split.
  - intros t' q. rewrite Mpc. case_decide; [by intros [= <-]|]. apply Hpc.
  - by eapply lock_ok_moves.
  - by eapply lock_ok_moves.
Qed.

(** A step that leaves the goroutines that run an operation where they are. *)
Lemma locks_ok_same w w' :
  locks_ok w -> writeMu w' = writeMu w -> readMu w' = readMu w ->
  (forall t p, p <> Idle -> get_pc w' t = Some p <-> get_pc w t = Some p) -> locks_ok w'.
Proof using Type.
  intros [Hpc Hw Hr] Ew Er Hsame.
  assert (Hl : forall o (holds : pc -> bool), holds Idle = false -> lock_ok w o holds -> lock_ok w' o holds).
  { intros o holds Hi Hok t. rewrite (Hok t).
    split; intros (q & Hq & Hh); exists q; (split; [|done]); apply Hsame; congruence || done. }
  split; [|rewrite Ew; by apply Hl|rewrite Er; by apply Hl].
  intros t p Hp. assert (Hne : p = Idle \/ p <> Idle) by (destruct p; first [by left|by right]).
  destruct Hne as [->|Hne]; [done|]. apply Hsame in Hp; eauto.
Qed.

(** The goroutine that a step belongs to. *)
Definition actor (l : label) : option tid :=
  match l with Call t _ | Step t | NetReturns t => Some t | _ => None end.

Lemma wstep_moves w l w' :
  wstep w l = Some w' -> locks_ok w ->
  (exists t p p', actor l = Some t /\ get_pc w t = Some p /\ moves w t p w' p') \/
  (writeMu w' = writeMu w /\ readMu w' = readMu w /\
   forall t p, p <> Idle -> get_pc w' t = Some p <-> get_pc w t = Some p).
Proof using Type.
  intros E Hl. unfold wstep in E. destruct (panicked w); [done|].
  destruct l as [|t a|t|t| | |].
  - right. simplify_eq. split_and!; [done|done|]. intros [|i] p Hp; [done|]. simpl.
    rewrite lookup_app. destruct (users w !! i) eqn:Ei; [done|].
    rewrite list_lookup_singleton. split; [|done]. destruct (_ - _)%nat; [by intros [= <-]|done].
  - left. destruct (get_pc w t) as [[]|] eqn:Hp; simplify_eq. eexists t, _, _. do 2 (split; [done|]).
    apply moves_to; try done; [|by destruct a; left|by destruct a; left].
    destruct a; simpl; try done. lia.
  - left. destruct (get_pc w t) as [p|] eqn:Hp; [|done]. cbn [mbind option_bind] in E.
    destruct (pc_step_moves w t p w' Hp (lk_pc _ Hl _ _ Hp) E) as (p' & Hm). eauto 7.
  - left. destruct (get_pc w t) as [[| | | | |plen| | | |]|] eqn:Hp; simplify_eq.
    pose proof (lk_pc _ Hl _ _ Hp) as Hok. simpl in Hok.
    unfold net_returns. destruct (net_Read _ _) as [nc [data err]]. destruct (0 <? zlen data).
    + destruct (Parse _ _ _) as [q r]. destruct (process_data _ _ _) as [c|].
      * eexists t, _, _. do 2 (split; [done|]). apply moves_to; try done; [|left|by left].
        -- split; [done|]. apply todo_ok, Forall_app_2; apply Forall_fmap, Forall_true; done.
        -- split; [done|]. apply idle_head, Forall_app_2; apply Forall_fmap, Forall_true; done.
      * eexists t, _, _. do 2 (split; [done|]). by apply moves_same.
    + eexists t, _, _. do 2 (split; [done|]). by apply moves_to; [| | |left|left].
  - right. destruct (disp w) eqn:Ed; try done. destruct (dispatch _) as [[c h]|]; simplify_eq/=.
    split_and!; try done. intros [|i] p Hp; simpl; [|done]. rewrite Ed. split; [|done]. congruence.
  - right. destruct (disp w) as [| |h []|] eqn:Ed; simplify_eq/=.
    split_and!; try done. intros [|i] p Hp; simpl; [|done]. rewrite Ed. split; [done|]. congruence.
  - right. destruct (disp w) eqn:Ed; try done. destruct (eventDone (conn w)) as [[]|]; simplify_eq/=.
    split_and!; try done. intros [|i] p Hp; simpl; [|done]. by rewrite Ed.
Qed.

Lemma wstep_locks w l w' : wstep w l = Some w' -> locks_ok w -> locks_ok w'.
Proof using Type.
  intros E Hl. destruct (wstep_moves w l w' E Hl) as [(t & p & p' & _ & Hp & Hm)|(Hw & Hr & Hs)].
  - by eapply moves_locks.
  - by eapply locks_ok_same.
Qed.

Lemma start_locks c P : locks_ok (start c P).
Proof using Type.
  assert (Hn : forall t p, get_pc (start c P) t <> Some p).
  { intros [|i] p; simpl; [by destruct (eventDone c)|done]. }
  split; [by intros t p []%Hn|..]; intros t; (split; [done|]); by intros (p & []%Hn & _).
Qed.

(** Rule induction over runs. *)
Lemma run_ind (Inv : world N -> Prop) c P :
  Inv (start c P) -> (forall w l w', Inv w -> wstep w l = Some w' -> Inv w') ->
  forall w, reachable c P w -> Inv w.
Proof using Type.
  intros H0' Hstep w [ls E]. revert E. generalize (start c P), H0'. clear H0'.
  induction ls as [|l ls IH]; intros w0 Hw0 E; cbn [wrun] in E; [by simplify_eq|].
  destruct (wstep w0 l) as [w1|] eqn:E1; [|done]. eapply IH; [|exact E]. by eapply Hstep.
Qed.

Lemma reachable_locks c P w : reachable c P w -> locks_ok w.
Proof using Type. apply run_ind; [apply start_locks|]. intros w0 l w1 Hl E. by eapply wstep_locks. Qed.
End Locks.

(** ** What a step does to the connection *)

Section Effects.
  Context {N : Type} `{NetConnLaws N} `{GrowPolicy}.
  Implicit Types (w : world N) (t : tid) (c : Conn N Ring).

(** What reading and dispatching may change. *)
Record reads c c' : Prop := {
  rd_writeBuf : writeBuf c' = writeBuf c;
  rd_closed : closed c' = closed c;
  rd_done : eventDone c' = eventDone c;
  rd_sent : net_sent (netConn c') = net_sent (netConn c);
  rd_scratch : sl_len (readScratch c') = sl_len (readScratch c);
  rd_ring : ring_wf (readBuf c) -> ring_wf (readBuf c');
  rd_nil : rbuf (readBuf c) = nil_slice -> rbuf (readBuf c') = nil_slice
}.

#[export] Instance reads_preorder : PreOrder reads.
Proof using Type.
  split; [by split|]. intros c1 c2 c3 [] []. split; try congruence; try tauto.
Qed.

Lemma ring_Write_keeps r p r' x :
  RingBuf.Write r p = Some (r', x) ->
  (ring_wf r -> ring_wf r') /\ (rbuf r = nil_slice -> rbuf r' = nil_slice).
Proof using Type.
  intros E. split.
  - intros Hr. destruct (ring_Write_ok r p Hr) as (r1 & Hok & _ & _ & E1).
    change (q_Write r p) with (RingBuf.Write r p) in E1. rewrite E1 in E. by simplify_eq.
  - intros Hnil. unfold RingBuf.Write in E. destruct (_ <=? 0); [by simplify_eq|].
    rewrite Hnil in E. destruct (if _ <? zlen p then _ else _) as [|b l]; simpl in E; [by simplify_eq|].
    unfold sl_set in E. simpl in E. by destruct (0 <=? _) eqn:E1, (_ <? 0) eqn:E2; simpl in E;
      try (apply Z.leb_le in E1; apply Z.ltb_lt in E2; lia).
Qed.

Lemma ring_Read_keeps r n r' x :
  0 <= n -> RingBuf.Read r n = Some (r', x) -> (ring_wf r -> ring_wf r') /\ rbuf r' = rbuf r.
Proof using Type.
  intros Hn E. split.
  - intros Hr. destruct (ring_Read_ok r n Hr Hn) as (r1 & Hok & _ & _ & E1).
    change (q_Read r n) with (RingBuf.Read r n) in E1. rewrite E1 in E. by simplify_eq.
  - unfold RingBuf.Read in E. destruct (_ =? 0); [by simplify_eq|].
    destruct (get_loop _ _ _ _ _); simpl in E; by simplify_eq.
Qed.

Lemma set_readBuf_reads c q :
  (ring_wf (readBuf c) -> ring_wf q) -> (rbuf (readBuf c) = nil_slice -> rbuf q = nil_slice) ->
  reads c (set_readBuf c q).
Proof using Type. by split. Qed.

Lemma process_data_reads data evs : forall c c',
  process_data c data evs = Some c' -> reads c c'.
Proof using Type.
  induction evs as [|ev evs IH]; intros c c' E; cbn [process_data] in E; [by simplify_eq|].
  destruct (0 <? de_Length ev); [|by apply IH].
  destruct (q_Write (readBuf c) _) as [[q x]|] eqn:Eq; [|done]. apply ring_Write_keeps in Eq as [Hw Hn].
  etrans; [apply (set_readBuf_reads c q); done|]. by apply IH.
Qed.

Lemma process_data_total data evs : forall c,
  ring_wf (readBuf c) -> is_Some (process_data c data evs).
Proof using Type.
  induction evs as [|ev evs IH]; intros c Hc; cbn [process_data]; [done|].
  destruct (0 <? de_Length ev); [|by apply IH].
  destruct (ring_Write_ok (readBuf c) (win_bytes data (de_Data ev)) Hc) as (q & Hq & _ & _ & E).
  change (q_Write (readBuf c)) with (RingBuf.Write (readBuf c)). rewrite E. by apply IH.
Qed.

Lemma read_queue_reads c plen c' res :
  0 <= plen -> read_queue c plen = Some (c', res) -> reads c c'.
Proof using Type.
  intros Hp E. unfold read_queue in E. destruct (q_Read (readBuf c) plen) as [[q x]|] eqn:Eq; [|done].
  simplify_eq/=. destruct (ring_Read_keeps _ _ _ _ Hp Eq) as [Hw Hn].
  apply set_readBuf_reads; [done|congruence].
Qed.

Lemma read_queue_total c plen :
  0 <= plen -> ring_wf (readBuf c) -> is_Some (read_queue c plen).
Proof using Type.
  intros Hp Hc. unfold read_queue. destruct (ring_Read_ok (readBuf c) plen Hc Hp) as (q & Hq & _ & _ & E).
  change (q_Read (readBuf c)) with (RingBuf.Read (readBuf c)). by rewrite E.
Qed.

Lemma handleSubnegotiation_reads c opt data : reads c (handleSubnegotiation c opt data).
Proof using Type.
  assert (Ht : forall s a b, reads c (set_terminal c s a b)) by done.
  unfold handleSubnegotiation. destruct (opt =? OptTerminalType); [|destruct (opt =? OptNAWS); [|done]].
  - destruct data; [done|]. destruct (_ && _); [apply Ht|done].
  - destruct data as [|? [|? [|? [|? ?]]]]; try done; apply Ht.
Qed.

Lemma net_Read_reads c nc data err arr :
  0 <= sl_len (readScratch c) -> net_Read (netConn c) (sl_len (readScratch c)) = (nc, (data, err)) ->
  reads c (set_readScratch (set_netConn c nc) (MkSlice arr (sl_len (readScratch c)))).
Proof using Type.
  intros Hs E. pose proof (net_Read_ok (netConn c) _ Hs) as Hr. rewrite E in Hr.
  destruct Hr as (_ & _ & _ & Hr). by split.
Qed.

(** A sending operation, error or not. *)
Lemma exec_send_frame c o :
  wr_wf c -> closed c = false -> frame c (exec_send c o).1 /\ wr_wf (exec_send c o).1.
Proof using Type.
  intros Hc Ho. assert (Hs : exists l, sends c (exec_send c o).1 (exec_send c o).2 l); [|by destruct Hs as (? & [])].
  destruct o as [p|b|s|k opt|opt data|x y|l|]; cbn [exec_send].
  - pose proof (Write_ok c p Hc Ho) as Hw. destruct (Write c p) as [c1 [n e]]. eexists. apply Hw.
  - unfold WriteByte. pose proof (Write_ok c [b] Hc Ho) as Hw.
    destruct (Write c [b]) as [c1 [n e]]. eexists. apply Hw.
  - unfold WriteString. pose proof (Write_ok c s Hc Ho) as Hw.
    destruct (Write c s) as [c1 [n e]]. eexists. apply Hw.
  - pose proof (SendCommand_ok c k opt Hc Ho) as Hw. destruct (SendCommand _ _ _). eauto.
  - pose proof (SendSubnegotiation_ok c opt data Hc Ho) as Hw. destruct (SendSubnegotiation _ _ _). eauto.
  - unfold SendNAWS. match goal with |- context [SendSubnegotiation c ?p ?d] =>
      pose proof (SendSubnegotiation_ok c p d Hc Ho) as Hw end. destruct (SendSubnegotiation _ _ _). eauto.
  - unfold SendTType. match goal with |- context [SendSubnegotiation c ?p ?d] =>
      pose proof (SendSubnegotiation_ok c p d Hc Ho) as Hw end. destruct (SendSubnegotiation _ _ _). eauto.
  - unfold Flush. pose proof (flushLocked_ok c Hc) as Hw. destruct (flushLocked c). exists []. apply Hw.
Qed.

(** Its body. *)
Lemma send_body_ok c o :
  wr_wf c -> let '(c', e) := send_body c o in
  frame c c' /\ wr_wf c' /\
  (e = None -> out c' = out c ++ wire (send_items o) /\ (o = SFlush -> w_bytes c' = [])).
Proof using Type.
  intros Hc. unfold send_body. set (c0 := set_closed c false).
  destruct (exec_send_frame c0 o Hc eq_refl) as [F W].
  destruct (exec_send c0 o) as [c' e] eqn:Ee. simpl in F, W. destruct F. simpl in *. split_and!; [by split|done|].
  intros ->. pose proof (exec_send_ok c0 o c' Hc eq_refl Ee) as [_ _ O]. split; [exact O|].
  intros ->. pose proof (flushLocked_ok c0 Hc) as Hf. unfold exec_send, Flush in Ee. rewrite Ee in Hf.
  by apply Hf.
Qed.

(** The ways in which a step changes the connection. *)
Inductive change w w' : Prop :=
  | ch_reads :
      reads (conn w) (conn w') -> won w' = won w -> freed w' = freed w -> order w' = order w ->
      change w w'
  | ch_send t o c e :
      send_body (conn w) o = (c, e) -> conn w' = c -> won w' = won w -> freed w' = freed w ->
      order w' = (if freed w then order w else order w ++ [(t, o, e)]) -> change w w'
  | ch_close t :
      closed (conn w) = false -> conn w' = set_closed (conn w) true -> won w' = Some t ->
      freed w' = freed w -> order w' = order w -> change w w'
  | ch_done t :
      get_pc w t = Some (Closing KDone) -> eventDone (conn w) <> None ->
      conn w' = set_eventDone (conn w) (Some true) ->
      won w' = won w -> freed w' = freed w -> order w' = order w -> change w w'
  | ch_free_read t :
      get_pc w t = Some (Closing KFreeRead) ->
      conn w' = set_readBuf (conn w) (RingBuf.Free (readBuf (conn w)) (pools w)).1 ->
      won w' = won w -> freed w' = freed w -> order w' = order w -> change w w'
  | ch_free_write t :
      get_pc w t = Some (Closing KFreeWrite) ->
      conn w' = set_writeBuf (conn w) (StaticBuf.Free (writeBuf (conn w)) (pools w)).1 ->
      won w' = won w -> freed w' = true -> order w' = order w -> change w w'
  | ch_net :
      conn w' = set_netConn (conn w) (net_Close (netConn (conn w))).1 ->
      won w' = won w -> freed w' = freed w -> order w' = order w -> change w w'.

Lemma change_same w w' :
  conn w' = conn w -> won w' = won w -> freed w' = freed w -> order w' = order w -> change w w'.
Proof using Type. intros E. intros. apply ch_reads; [by rewrite E|done..]. Qed.

(** Only these fields matter. *)
Lemma change_proper w w1 w2 :
  change w w1 -> conn w2 = conn w1 -> won w2 = won w1 -> freed w2 = freed w1 -> order w2 = order w1 ->
  change w w2.
Proof using Type.
  intros Hc Ec Ew Ef Eo. destruct Hc; rewrite <- ?Ec, <- ?Ew, <- ?Ef, <- ?Eo in *;
    [by eapply ch_reads|by eapply ch_send|by eapply ch_close|by eapply ch_done|by eapply ch_free_read
    |by eapply ch_free_write|by eapply ch_net].
Qed.

Lemma send_step_change w t st o w1 r : send_step w t st o = Some (w1, r) -> change w w1.
Proof using Type.
  intros E. destruct st; cbn [send_step] in E.
  - destruct (_ && _); simplify_eq; by apply change_same.
  - unfold lock_write in E. destruct (writeMu w); [done|]. simplify_eq/=. by apply change_same.
  - destruct (send_body (conn w) o) as [c e] eqn:Eb. simplify_eq/=. by eapply ch_send.
  - simplify_eq/=. by apply change_same.
Qed.

Lemma take_queued_change w w1 t plen :
  0 <= plen -> reads (conn w) (conn w1) -> won w1 = won w -> freed w1 = freed w ->
  order w1 = order w -> change w (take_queued w1 t plen).
Proof using Type.
  intros Hp Hr Ew Ef Eo. unfold take_queued.
  destruct (read_queue (conn w1) plen) as [[c res]|] eqn:E; [|by apply ch_reads].
  apply ch_reads; try done. simpl. etrans; [exact Hr|]. by eapply read_queue_reads.
Qed.

Lemma task_step_change w t plen nr err todo w' :
  task_step w t plen nr err todo = Some w' -> change w w'.
Proof using Type.
  intros E. destruct todo as [|[ce|st command opt| |e|e|sn] todo]; cbn [task_step] in E; [done|..].
  - destruct (_ && _); [simplify_eq; by apply change_same|].
    destruct (_ && _); [simplify_eq; by apply change_same|].
    destruct (Handle _ _ _) as [n [resp changed]]. simplify_eq. by apply ch_reads.
  - destruct (send_step w t st (SCommand command opt)) as [[w1 r]|] eqn:Es; [|done]. simplify_eq/=.
    by eapply change_proper; [by eapply send_step_change|..].
  - simplify_eq. by apply ch_reads.
  - destruct (closed _); [simplify_eq; by apply change_same|].
    destruct (events _) as [es|] eqn:Ee; [|simplify_eq; by apply change_same].
    case_bool_decide; simplify_eq; [|by apply change_same].
    by apply ch_reads.
  - destruct (events _) as [[|? es]|] eqn:Ee; simplify_eq; try by apply change_same.
    by apply ch_reads.
  - simplify_eq. apply ch_reads; try done. simpl.
    etrans; [|apply handleSubnegotiation_reads]. by split.
Qed.

Lemma close_step_change w t k w' :
  get_pc w t = Some (Closing k) -> close_step w t k = Some w' -> change w w'.
Proof using Type.
  intros Hp E. destruct k; cbn [close_step] in E.
  - destruct (send_step w t st SFlush) as [[w1 r]|] eqn:Es; [|done]. simplify_eq/=.
    by eapply change_proper; [by eapply send_step_change|..].
  - destruct (eventDone _) eqn:Ee; simplify_eq; [|by apply change_same]. eapply ch_done; try done. by rewrite Ee.
  - destruct (disp w); simplify_eq; by apply change_same.
  - unfold lock_read in E. destruct (readMu w); [done|]. simplify_eq/=. by apply change_same.
  - destruct (RingBuf.Free _ _) as [q P] eqn:Ef. simplify_eq.
    eapply ch_free_read; try done. simpl. by rewrite Ef.
  - simplify_eq. by apply change_same.
  - unfold lock_write in E. destruct (writeMu w); [done|]. simplify_eq/=. by apply change_same.
  - destruct (StaticBuf.Free _ _) as [b P] eqn:Ef. simplify_eq.
    eapply ch_free_write; try done. simpl. by rewrite Ef.
  - simplify_eq. by apply change_same.
  - simplify_eq. by apply change_same.
  - destruct (net_Close _) as [nc err] eqn:En. simplify_eq. apply ch_net; try done. simpl. by rewrite En.
Qed.

Lemma pc_step_change w t p w' :
  get_pc w t = Some p -> pc_ok p -> pc_step w t p = Some w' -> change w w'.
Proof using Type.
  intros Hp Hok E. destruct p as [|st o|plen|plen|plen|plen|plen nr err todo|res| |k]; cbn [pc_step] in E.
  - done.
  - destruct (send_step w t st o) as [[w1 r]|] eqn:Es; [|done]. simplify_eq/=.
    eapply change_proper; [by eapply send_step_change|..]; by destruct r.
  - destruct (closed _); simplify_eq; by apply change_same.
  - unfold lock_read in E. destruct (readMu w); [done|]. simplify_eq/=. by apply change_same.
  - destruct (0 <? _); simplify_eq; [by apply take_queued_change|by apply change_same].
  - done.
  - destruct todo as [|a todo]; [|by eapply task_step_change]. destruct Hok as [Hok _].
    simplify_eq. unfold read_finish. destruct err as [e|].
    + destruct (0 <? _); [by apply take_queued_change|]. destruct (errors_Is e EOF); by apply change_same.
    + destruct (nr =? 0); [by apply change_same|].
      destruct (0 <? _); [by apply take_queued_change|by apply change_same].
  - simplify_eq. by apply change_same.
  - destruct (closed _) eqn:Ec; simplify_eq; [by apply change_same|]. by eapply ch_close.
  - by eapply close_step_change.
Qed.

Lemma net_returns_change w t plen :
  0 <= sl_len (readScratch (conn w)) -> change w (net_returns w t plen).
Proof using Type.
  intros Hs. unfold net_returns. destruct (net_Read _ _) as [nc [data err]] eqn:En.
  pose proof (fun arr => net_Read_reads (conn w) nc data err arr Hs En) as Hr.
  destruct (0 <? zlen data); [|by apply ch_reads; [apply Hr|..]].
  destruct (Parse _ _ _) as [q r]. destruct (process_data _ _ _) as [c|] eqn:Ed; [|by apply change_same].
  apply ch_reads; try done. simpl. apply process_data_reads in Ed.
  etrans; [|exact Ed]. etrans; [apply Hr|]. by split.
Qed.

Lemma wstep_change w l w' :
  wstep w l = Some w' -> locks_ok w -> 0 <= sl_len (readScratch (conn w)) -> change w w'.
Proof using Type.
  intros E Hl Hs. unfold wstep in E. destruct (panicked w); [done|].
  destruct l as [|t a|t|t| | |].
  - simplify_eq. by apply change_same.
  - destruct (get_pc w t) as [[]|]; simplify_eq. by apply change_same.
  - destruct (get_pc w t) as [p|] eqn:Hp; [|done]. eapply pc_step_change; [done| |done].
    by eapply lk_pc.
  - destruct (get_pc w t) as [[]|]; simplify_eq. by apply net_returns_change.
  - destruct (disp w); try done. destruct (dispatch (conn w)) as [[c h]|] eqn:Ed; simplify_eq/=.
    unfold dispatch in Ed. destruct (events (conn w)) as [[|e es]|] eqn:Ee; simplify_eq.
    by apply ch_reads.
  - destruct (disp w) as [| |? []|]; simplify_eq. by apply change_same.
  - destruct (disp w); try done. destruct (eventDone _) as [[]|]; simplify_eq. by apply change_same.
Qed.
End Effects.

(** ** The stream of concurrent senders *)

Section Stream.
  Context {N : Type} `{NetConnLaws N} `{GrowPolicy}.
  (** Closing a network connection sends nothing. *)
  Context (net_Close_sent : forall n : N, net_sent (net_Close n).1 = net_sent n).
  Implicit Types (w : world N) (t : tid) (c : Conn N Ring).

Lemma net_writes_sent n n' : net_writes n n' -> exists l, net_sent n' = net_sent n ++ l.
Proof using Type.
  induction 1 as [n|n n1 n2 [p ->] _ [l IH]]; [exists []; by rewrite app_nil_r|].
  pose proof (net_Write_ok n p) as Hw. destruct (net_Write n p) as [n1 [k e]]. destruct Hw as (_ & _ & Hs & _).
  simpl in IH. rewrite IH, Hs, <- app_assoc. by eexists.
Qed.

(** What holds of the connection whatever happens. *)
Record conn_inv w : Prop := {
  ci_locks : locks_ok w;
  ci_wr : wr_wf (conn w);
  ci_scratch : 0 <= sl_len (readScratch (conn w))
}.

Lemma send_body_frame c o c' e :
  wr_wf c -> send_body c o = (c', e) -> frame c c' /\ wr_wf c' /\
  (e = None -> out c' = out c ++ wire (send_items o) /\ (o = SFlush -> w_bytes c' = [])).
Proof using Type. intros Hc E. pose proof (send_body_ok c o Hc) as Hs. by rewrite E in Hs. Qed.

Lemma change_inv w w' :
  change w w' -> wr_wf (conn w) -> 0 <= sl_len (readScratch (conn w)) ->
  wr_wf (conn w') /\ 0 <= sl_len (readScratch (conn w')).
Proof using Type.
  intros Hch Hw Hs. destruct Hch as [[] _ _ _|t o c e E -> _ _ _|t _ -> _ _ _|t _ Hdn -> _ _ _|t _ -> _ _ _|t _ -> _ _ _| -> _ _ _];
    try done.
  - unfold wr_wf in *. split; congruence.
  - destruct (send_body_frame _ _ _ _ Hw E) as ([] & Hwf & _). split; congruence.
  - split; [|done]. unfold wr_wf, StaticBuf.Free. by destruct (sl_is_nil _).
Qed.

Lemma wstep_inv w l w' : wstep w l = Some w' -> conn_inv w -> conn_inv w' /\ change w w'.
Proof using Type.
  intros E [Hl Hw Hs]. pose proof (wstep_change w l w' E Hl Hs) as Hch.
  destruct (change_inv w w' Hch Hw Hs). split; [|done]. split; [by eapply wstep_locks|done|done].
Qed.

Lemma change_sent w w' :
  change w w' -> wr_wf (conn w) ->
  exists l, net_sent (netConn (conn w')) = net_sent (netConn (conn w)) ++ l.
Proof using net_Close_sent.
  intros Hch Hw. assert (Hsame : forall x y : bytes, x = y -> exists l, x = y ++ l).
  { intros x y ->. exists []. by rewrite app_nil_r. }
  destruct Hch as [[] _ _ _|t o c e E -> _ _ _|t _ -> _ _ _|t _ Hdn -> _ _ _|t _ -> _ _ _|t _ -> _ _ _| -> _ _ _];
    try (by apply Hsame).
  - destruct (send_body_frame _ _ _ _ Hw E) as ([] & _). by apply net_writes_sent.
  - apply Hsame, net_Close_sent.
Qed.

Definition items_of (l : list (tid * send_op * option error)) : list item :=
  l ≫= (fun x => send_items x.1.2).

Definition no_error (x : tid * send_op * option error) : Prop := x.2 = None.

Record stream_ok (before : bytes) w : Prop := {
  st_out : freed w = false -> out (conn w) = before ++ wire (items_of (order w));
  st_flushed pre t post : order w = pre ++ (t, SFlush, None) :: post ->
    exists rest, net_sent (netConn (conn w)) = before ++ wire (items_of pre) ++ rest
}.

Lemma stream_same before w w' :
  stream_ok before w -> order w' = order w ->
  (freed w' = false -> freed w = false /\ out (conn w') = out (conn w)) ->
  (exists l, net_sent (netConn (conn w')) = net_sent (netConn (conn w)) ++ l) -> stream_ok before w'.
Proof using Type.
  intros [So Sf] Eo Ef [l El]. split.
  - intros Hf. destruct (Ef Hf) as [Hf' ->]. rewrite Eo. by apply So.
  - intros pre t post E. rewrite Eo in E. destruct (Sf pre t post E) as [rest Er].
    exists (rest ++ l). by rewrite El, Er, <- !app_assoc.
Qed.

Lemma items_of_app l k : items_of (l ++ k) = items_of l ++ items_of k.
Proof using Type. apply bind_app. Qed.

(** A sending operation runs its body. *)
Lemma stream_send before w w' t o :
  stream_ok before w -> wr_wf (conn w) -> freed w = false ->
  send_body (conn w) o = (conn w', None) -> freed w' = freed w ->
  order w' = order w ++ [(t, o, None)] ->
  (exists l, net_sent (netConn (conn w')) = net_sent (netConn (conn w)) ++ l) -> stream_ok before w'.
Proof using Type.
  intros [So Sf] Hw Hf E Ef Eo [l El].
  destruct (send_body_frame _ _ _ _ Hw E) as (_ & _ & Hout). destruct (Hout eq_refl) as [Ho Hb].
  rewrite So in Ho by done. split.
  - intros _. rewrite Ho, Eo, items_of_app. unfold wire at 3. rewrite bind_app, app_assoc.
    unfold items_of at 3. cbn [mbind list_bind fst snd]. by rewrite app_nil_r.
  - intros pre t' post Es. rewrite Eo in Es.
    destruct post as [|x post _] using rev_ind.
    + apply app_inj_tail in Es as [<- [= <- ->]]. exists [].
      unfold out in Ho at 1. rewrite Hb, app_nil_r in Ho by done.
      rewrite Ho, app_nil_r. cbn [send_items]. by rewrite app_nil_r.
    + rewrite app_comm_cons, app_assoc in Es. apply app_inj_tail in Es as [Es _].
      destruct (Sf _ _ _ Es) as [rest Er]. exists (rest ++ l). by rewrite El, Er, <- !app_assoc.
Qed.

Lemma change_stream before w w' :
  change w w' -> conn_inv w -> (Forall no_error (order w) -> stream_ok before w) ->
  Forall no_error (order w') -> stream_ok before w'.
Proof using net_Close_sent.
  intros Hch Hi Hs Hok. pose proof (change_sent w w' Hch (ci_wr _ Hi)) as Hsent.
  destruct Hch as [[] _ Ef Eo|t o c e E Ec _ Ef Eo|t _ Ec _ Ef Eo|t _ _ Ec _ Ef Eo|t _ Ec _ Ef Eo|t _ Ec _ Ef Eo|Ec _ Ef Eo].
  - apply (stream_same before w); [rewrite Eo in Hok; auto|done| |done].
    intros Hf. split; [congruence|]. unfold out, w_bytes. congruence.
  - destruct (freed w) eqn:Efr.
    + apply (stream_same before w); [rewrite Eo in Hok; auto|done|congruence|done].
    + rewrite Eo in Hok. apply Forall_app in Hok as [Hok Hx]. apply Forall_cons in Hx as [Hx _].
      unfold no_error in Hx. simpl in Hx. subst e c.
      eapply stream_send; eauto using ci_wr.
  - apply (stream_same before w); [rewrite Eo in Hok; auto|done| |done].
    intros Hf. rewrite Ec. split; [congruence|done].
  - apply (stream_same before w); [rewrite Eo in Hok; auto|done| |done].
    intros Hf. rewrite Ec. split; [congruence|done].
  - apply (stream_same before w); [rewrite Eo in Hok; auto|done| |done].
    intros Hf. rewrite Ec. split; [congruence|done].
  - apply (stream_same before w); [rewrite Eo in Hok; auto|done|congruence|done].
  - apply (stream_same before w); [rewrite Eo in Hok; auto|done| |done].
    intros Hf. rewrite Ec. split; [congruence|]. unfold out, w_bytes. simpl. by rewrite net_Close_sent.
Qed.

Lemma reachable_stream c P w :
  wr_wf c -> 0 <= sl_len (readScratch c) -> reachable c P w ->
  conn_inv w /\ (Forall no_error (order w) -> stream_ok (out c) w).
Proof using net_Close_sent.
  intros Hc Hs. revert w. apply run_ind.
  - split; [by split; [apply start_locks|..]|]. intros _. split; simpl.
    + intros _. by rewrite app_nil_r.
    + intros pre t post E. by destruct pre.
  - intros w l w' [Hi Hst] E. destruct (wstep_inv w l w' E Hi) as [Hi' Hch].
    split; [done|]. by eapply change_stream.
Qed.
End Stream.

(** ** Closing *)

Section Closes.
  Context {N : Type} `{NetConnLaws N} `{GrowPolicy}.
  Implicit Types (w : world N) (t : tid) (p : pc).

Definition did_close (x : tid * ret) : Prop := match x.2 with DidClose _ => True | _ => False end.

(** A step that has nothing to do with closing. *)
Record quiet w w' : Prop := {
  qu_pc t k : get_pc w' t = Some (Closing k) -> get_pc w t = Some (Closing k);
  qu_results : exists l, results w' = results w ++ l /\ Forall (fun x => ~ did_close x) l;
  qu_won : won w' = won w;
  qu_freed : freed w' = freed w;
  qu_order : exists l, order w' = order w ++ l;
  qu_closed : wr_wf (conn w) -> closed (conn w') = closed (conn w);
  qu_eventDone : wr_wf (conn w) -> eventDone (conn w') = eventDone (conn w);
  qu_disp : disp w' = DNone <-> disp w = DNone
}.

#[export] Instance quiet_refl : Reflexive quiet.
Proof using Type*. intros w. split; try done; exists []; by rewrite app_nil_r. Qed.

Lemma pc_after_set w t p' t' q :
  get_pc (set_pc w t p') t' = Some q -> (t' = t /\ q = p') \/ get_pc w t' = Some q.
Proof using Type.
  destruct t as [|i], t' as [|j]; simpl; try (by right); try (destruct (disp w); naive_solver).
  intros E. apply list_lookup_insert_Some in E as [(-> & <- & _)|(_ & E)]; [by left|by right].
Qed.

Lemma quiet_set_pc w w1 t p' :
  quiet w w1 -> (forall k, p' <> Closing k) -> quiet w (set_pc w1 t p').
Proof using Type*.
  intros [] Hp. split; try done.
  - intros t' k E. apply pc_after_set in E as [[-> <-]|E]; [by destruct (Hp k)|auto].
  - rewrite <- qu_disp0. simpl. by destruct t, (disp w1).
Qed.

Lemma quiet_conn w c : closed c = closed (conn w) -> eventDone c = eventDone (conn w) -> quiet w (set_conn w c).
Proof using Type*. intros E Ed. split; try done; exists []; by rewrite app_nil_r. Qed.

Lemma quiet_return w w1 t r :
  quiet w w1 -> ~ did_close (t, r) -> quiet w (return_ w1 t r).
Proof using Type*.
  intros Hq Hr. apply quiet_set_pc; [|done]. destruct Hq as [? (l & E & Hl)]. split; try done.
  exists (l ++ [(t, r)]). simpl. rewrite E, <- app_assoc. split; [done|]. by apply Forall_app_2; [|constructor].
Qed.

Lemma send_step_quiet w t st o w1 r : send_step w t st o = Some (w1, r) -> quiet w w1.
Proof using Type*.
  intros E. destruct st; cbn [send_step] in E.
  - by destruct (_ && _); simplify_eq.
  - unfold lock_write in E. destruct (writeMu w); [done|]. simplify_eq/=.
    split; try done; exists []; by rewrite app_nil_r.
  - destruct (send_body (conn w) o) as [c e] eqn:Eb. simplify_eq/=. split; try done.
    + exists []. by rewrite app_nil_r.
    + simpl. destruct (freed w); [exists []; by rewrite app_nil_r|by eexists].
    + intros Hw. by destruct (send_body_frame _ _ _ _ Hw Eb) as ([] & _).
    + intros Hw. destruct (send_body_frame _ _ _ _ Hw Eb) as (F & _). apply (fr_events _ _ F).
  - simplify_eq/=. split; try done; exists []; by rewrite app_nil_r.
Qed.

Lemma quiet_panic w : quiet w (panic w).
Proof using Type*. split; try done; exists []; by rewrite app_nil_r. Qed.

Lemma take_queued_quiet w w1 t plen : 0 <= plen ->
  quiet w w1 -> conn w1 = conn w -> quiet w (take_queued w1 t plen).
Proof using Type*.
  intros Hp Hq Ec. unfold take_queued. destruct (read_queue _ _) as [[c res]|] eqn:E.
  - apply quiet_set_pc; [|done]. apply read_queue_reads in E as []; [|done]. destruct Hq; split; try done.
    all: intros _; simpl; congruence.
  - by destruct Hq; split.
Qed.

Lemma task_step_quiet w t plen nr err todo w' :
  task_step w t plen nr err todo = Some w' -> quiet w w'.
Proof using Type*.
  intros E.
  assert (Hgo : forall w1 todo', quiet w w1 -> quiet w (set_pc w1 t (ReadTasks plen nr err todo')))
    by (intros; by apply quiet_set_pc).
  destruct todo as [|[ce|st command opt| |e|e|sn] todo]; cbn [task_step] in E; [done|..].
  - destruct (_ && _); [simplify_eq; by apply Hgo|]. destruct (_ && _); [simplify_eq; by apply Hgo|].
    destruct (Handle _ _ _) as [n [resp changed]]. simplify_eq. by apply Hgo, quiet_conn.
  - destruct (send_step w t st (SCommand command opt)) as [[w1 r]|] eqn:Es; [|done]. simplify_eq/=.
    by apply Hgo, (send_step_quiet _ _ _ _ _ _ Es).
  - simplify_eq. by apply Hgo, quiet_conn.
  - destruct (closed _); [simplify_eq; by apply Hgo|].
    destruct (events _) as [es|]; [|simplify_eq; by apply Hgo].
    case_bool_decide; simplify_eq; [by apply Hgo, quiet_conn|by apply Hgo].
  - destruct (events _) as [[|? es]|]; simplify_eq; [by apply Hgo|by apply Hgo, quiet_conn|by apply Hgo].
  - simplify_eq. match goal with |- context [handleSubnegotiation ?c ?o ?d] =>
      destruct (handleSubnegotiation_reads c o d) end. by apply Hgo, quiet_conn.
Qed.

Lemma read_finish_quiet w t plen nr err : 0 <= plen -> quiet w (read_finish w t plen nr err).
Proof using Type*.
  intros Hp. unfold read_finish.
  destruct err as [e|]; [destruct (0 <? _); [|destruct (errors_Is e EOF)]
                        |destruct (nr =? 0); [|destruct (0 <? _)]];
    first [by apply take_queued_quiet|by apply quiet_set_pc].
Qed.

Lemma pc_step_quiet w t p w' :
  pc_ok p -> (forall k, p <> Closing k) -> p <> CloseEnter -> pc_step w t p = Some w' -> quiet w w'.
Proof using Type*.
  intros Hok Hk He E. destruct p as [|st o|plen|plen|plen|plen|plen nr err todo|res| |k]; cbn [pc_step] in E; try done.
  - destruct (send_step w t st o) as [[w1 r]|] eqn:Es; [|done]. simplify_eq/=.
    apply send_step_quiet in Es. destruct r; [by apply quiet_set_pc|by apply quiet_return; [|intros []]].
  - destruct (closed _); simplify_eq; [by apply quiet_return; [|intros []]|by apply quiet_set_pc].
  - unfold lock_read in E. destruct (readMu w); [done|]. simplify_eq/=. apply quiet_set_pc; [|done].
    split; try done; exists []; by rewrite app_nil_r.
  - destruct (0 <? _); simplify_eq; [by apply take_queued_quiet|by apply quiet_set_pc].
  - destruct todo as [|a todo]; [|by eapply task_step_quiet]. simplify_eq. by apply read_finish_quiet, Hok.
  - simplify_eq. apply quiet_return; [|by intros []]. split; try done; exists []; by rewrite app_nil_r.
  - by destruct (Hk k).
Qed.

#[export] Instance did_close_dec x : Decision (did_close x).
Proof. unfold did_close. destruct x.2; apply _. Defined.

Lemma wstep_quiet w l w' :
  wstep w l = Some w' -> locks_ok w -> 0 <= sl_len (readScratch (conn w)) ->
  quiet w w' \/
  (exists t, get_pc w t = Some CloseEnter /\ closed (conn w) = false /\
     w' = set_pc (set_won (set_conn w (set_closed (conn w) true)) t) t (Closing (KFlush SLock))) \/
  (exists t k, get_pc w t = Some (Closing k) /\ close_step w t k = Some w').
Proof using Type*.
  intros E Hl Hs. unfold wstep in E. destruct (panicked w); [done|].
  assert (Hn : forall A (l : list A), exists k, l = l ++ k) by (intros A k; exists []; by rewrite app_nil_r).
  assert (Hnr : forall l : list (tid * ret), exists k, l = l ++ k /\ Forall (fun x => ~ did_close x) k)
    by (intros k; exists []; by rewrite app_nil_r).
  destruct l as [|t a|t|t| | |].
  - left. simplify_eq. split; try done. intros [|i] k E; [done|]. simpl in *.
    apply lookup_app_Some in E as [E|[_ E]]; [done|]. by apply list_lookup_singleton_Some in E as [_ ?].
  - left. destruct (get_pc w t) as [[]|]; simplify_eq. by apply quiet_set_pc; [|destruct a].
  - destruct (get_pc w t) as [p|] eqn:Hp; [|done]. cbn [mbind option_bind] in E.
    destruct p as [| | | | | | | | |k] eqn:Ep; try (left; eapply pc_step_quiet; [by eapply lk_pc|done|done|done]).
    + cbn [pc_step] in E. destruct (closed (conn w)) eqn:Ec; simplify_eq.
      * left. by apply quiet_return; [|intros []].
      * right; left. by exists t.
    + right; right. by exists t, k.
  - left. destruct (get_pc w t) as [[]|]; simplify_eq. unfold net_returns.
    destruct (net_Read _ _) as [nc [data err]] eqn:En. destruct (0 <? zlen data).
    + destruct (Parse _ _ _) as [q r]. destruct (process_data _ _ _) as [c|] eqn:Ed; [|apply quiet_panic].
      apply quiet_set_pc; [|done]. apply process_data_reads in Ed as []. by apply quiet_conn.
    + apply quiet_set_pc; [|done]. by apply quiet_conn.
  - left. destruct (disp w) eqn:Edp; try done. destruct (dispatch (conn w)) as [[c h]|] eqn:Ed; simplify_eq/=.
    assert (closed c = closed (conn w) /\ eventDone c = eventDone (conn w)) as [? ?]
      by (unfold dispatch in Ed; by destruct (events _) as [[]|]; simplify_eq).
    split; try done; [|simpl; rewrite Edp; by split]. intros [|i] k Hk; simpl in *; [congruence|done].
  - left. destruct (disp w) as [| |? []|] eqn:Edp; simplify_eq.
    split; try done; [|simpl; rewrite Edp; by split]. intros [|i] k Hk; simpl in *; done.
  - left. destruct (disp w) eqn:Edp; try done. destruct (eventDone _) as [[]|] eqn:Ee; simplify_eq.
    split; try done; [|simpl; rewrite Edp; by split]. intros [|i] k Hk; simpl in *; done.
Qed.

(** ** The invariant of [Close] *)

Definition stage_flushed (k : close_stage) : bool :=
  match k with KFlush (SUnlock _) => true | KFlush _ => false | _ => true end.
Definition stage_freed (k : close_stage) : bool :=
  match k with KWriteUnlock | KPut | KNet => true | _ => false end.

Definition flushed_by w t : Prop := exists e, (t, SFlush, e) ∈ order w.

Record close_inv w : Prop := {
  k_won : won w = None <-> closed (conn w) = false;
  k_open : won w = None -> freed w = false;
  k_disp : eventDone (conn w) = None <-> disp w = DNone;
  k_at t k : get_pc w t = Some (Closing k) ->
    won w = Some t /\ freed w = stage_freed k /\ (stage_flushed k = true -> flushed_by w t) /\
    (k = KWait -> eventDone (conn w) = Some true /\ disp w <> DNone);
  k_done t e : (t, DidClose e) ∈ results w ->
    won w = Some t /\ freed w = true /\ flushed_by w t /\ forall t' k, get_pc w t' <> Some (Closing k);
  k_once : (length (filter did_close (results w)) <= 1)%nat
}.

Lemma change_done w w' :
  change w w' -> wr_wf (conn w) -> eventDone (conn w') = None <-> eventDone (conn w) = None.
Proof using Type*.
  intros Hch Hw. destruct Hch as [[] _ _ _|t o c e E -> _ _ _|t _ -> _ _ _|t _ Hdn -> _ _ _|t _ -> _ _ _|t _ -> _ _ _| -> _ _ _];
    try done; [by rewrite rd_done0|]. destruct (send_body_frame _ _ _ _ Hw E) as (F & _).
  by destruct (fr_events _ _ F) as [_ ->].
Qed.

Lemma flushed_by_app w w' t : (exists l, order w' = order w ++ l) -> flushed_by w t -> flushed_by w' t.
Proof using Type*. intros [l E] [e He]. exists e. rewrite E. by apply elem_of_app; left. Qed.

Lemma quiet_close_inv w w' :
  quiet w w' -> change w w' -> wr_wf (conn w) -> close_inv w -> close_inv w'.
Proof using Type*.
  intros [Qpc (l & Er & Hl) Qwon Qfreed Qord Qcl Qev Qd] Hch Hw [K1 K2 K3 K4 K5 K6]. split.
  - by rewrite Qwon, Qcl.
  - by rewrite Qwon, Qfreed.
  - by rewrite (change_done w w' Hch Hw), Qd.
  - intros t k Hp. apply Qpc, K4 in Hp as (? & ? & ? & Hwait). rewrite Qwon, Qfreed, (Qev Hw), Qd.
    split_and!; try done. intros Hf. by eapply flushed_by_app; [|auto].
  - intros t e Hin. rewrite Er in Hin. apply elem_of_app in Hin as [Hin|Hin].
    + apply K5 in Hin as (? & ? & ? & Hno). rewrite Qwon, Qfreed. split_and!; try done.
      * by eapply flushed_by_app.
      * intros t' k Hp. by eapply Hno, Qpc.
    + rewrite Forall_forall in Hl. by destruct (Hl _ Hin).
  - rewrite Er, filter_app, length_app. assert (filter did_close l = []) as ->; [|simpl; lia].
    clear -Hl. induction Hl as [|x l Hx _ IH]; [done|]. by rewrite filter_cons_False.
Qed.

Lemma disp_set_pc w t p' : disp (set_pc w t p') = DNone <-> disp w = DNone.
Proof using Type*. simpl. by destruct t, (disp w). Qed.

(** [Close] goes from one stage to the next. *)
Lemma advance w w1 t k k' :
  close_inv w -> get_pc w t = Some (Closing k) -> (forall t', get_pc w1 t' = get_pc w t') ->
  results w1 = results w -> won w1 = won w -> closed (conn w1) = closed (conn w) ->
  (eventDone (conn w1) = None <-> eventDone (conn w) = None) -> disp w1 = disp w ->
  freed w1 = stage_freed k' -> (stage_flushed k' = true -> flushed_by w1 t) ->
  (k' = KWait -> eventDone (conn w1) = Some true /\ disp w <> DNone) ->
  close_inv (set_pc w1 t (Closing k')).
Proof using Type*.
  intros [K1 K2 K3 K4 K5 K6] Hp Hpc Er Ew Ec Ee Ed Ef Hfl Hwait.
  destruct (K4 t k Hp) as (Hwon & _). split.
  - simpl. by rewrite Ew, Ec.
  - simpl. rewrite Ew, Hwon. done.
  - rewrite disp_set_pc, Ed. simpl. by rewrite Ee.
  - intros t' q Hq. rewrite (get_set_pc w1 t (Closing k)) in Hq by by rewrite Hpc. case_decide as Ht.
    + subst t'. simplify_eq. rewrite disp_set_pc, Ed. simpl. rewrite Ew. split_and!; auto.
    + rewrite Hpc in Hq. destruct (K4 t' q Hq) as (Hwon' & _). congruence.
  - intros t' e Hin. simpl in Hin. rewrite Er in Hin. destruct (K5 t' e Hin) as (_ & _ & _ & Hno).
    by destruct (Hno t k).
  - simpl. by rewrite Er.
Qed.

Lemma enter_close w t :
  close_inv w -> get_pc w t = Some CloseEnter -> closed (conn w) = false ->
  close_inv (set_pc (set_won (set_conn w (set_closed (conn w) true)) t) t (Closing (KFlush SLock))).
Proof using Type*.
  intros [K1 K2 K3 K4 K5 K6] Hp Hc. apply K1 in Hc as Hw.
  split; try done.
  - by rewrite disp_set_pc.
  - intros t' q Hq. apply pc_after_set in Hq as [[-> [= ->]]|Hq].
    + split_and!; try done. by apply K2.
    + destruct (K4 t' q Hq) as (? & _). congruence.
  - intros t' e Hin. destruct (K5 t' e Hin) as (? & _). congruence.
Qed.

Lemma send_flush w t st w1 r :
  send_step w t st SFlush = Some (w1, r) -> freed w = false -> wr_wf (conn w) ->
  (forall t', get_pc w1 t' = get_pc w t') /\ results w1 = results w /\ won w1 = won w /\
  closed (conn w1) = closed (conn w) /\ (eventDone (conn w1) = None <-> eventDone (conn w) = None) /\
  disp w1 = disp w /\ freed w1 = false /\ (flushed_by w t -> flushed_by w1 t) /\
  match r with
  | inl (SUnlock _) => flushed_by w1 t
  | inl _ => True
  | inr _ => exists e, st = SUnlock e
  end.
Proof using Type*.
  intros E Hf Hw. destruct st; cbn [send_step] in E.
  - by simplify_eq/=.
  - unfold lock_write in E. destruct (writeMu w); [done|]. by simplify_eq/=.
  - destruct (send_body (conn w) SFlush) as [c e] eqn:Eb. simplify_eq/=.
    destruct (send_body_frame _ _ _ _ Hw Eb) as (F & _).
    assert (Hfl : flushed_by (add_order (set_conn w c) t SFlush e) t).
    { exists e. simpl. rewrite Hf. apply elem_of_app; right. by apply list_elem_of_singleton. }
    split_and!; try done; [apply F|by destruct (fr_events _ _ F) as [_ ->]].
  - simplify_eq/=. split_and!; try done. by eexists.
Qed.

Lemma close_step_inv w t k w' :
  close_inv w -> wr_wf (conn w) -> get_pc w t = Some (Closing k) -> close_step w t k = Some w' ->
  close_inv w'.
Proof using Type*.
  intros K Hw Hp E. destruct (k_at w K t k Hp) as (Hwon & Hfr & Hfl & Hwait).
  assert (Hgo : forall w1 k', (forall t', get_pc w1 t' = get_pc w t') ->
    results w1 = results w -> won w1 = won w -> closed (conn w1) = closed (conn w) ->
    (eventDone (conn w1) = None <-> eventDone (conn w) = None) -> disp w1 = disp w ->
    order w1 = order w -> freed w1 = stage_freed k' -> stage_flushed k = true ->
    (k' = KWait -> eventDone (conn w1) = Some true /\ disp w <> DNone) -> close_inv (set_pc w1 t (Closing k'))).
  { intros w1 k' E1 E2 E3 E4 E5 E6 E7 E8 E9 E10. eapply advance; eauto.
    intros _. eapply flushed_by_app; [|by apply Hfl]. exists []. by rewrite E7, app_nil_r. }
  destruct k; cbn [close_step] in E; simpl in Hfr.
  - destruct (send_step w t st SFlush) as [[w1 r]|] eqn:Es; [|done]. simplify_eq/=.
    destruct (send_flush w t st w1 r Es Hfr Hw) as (E1 & E2 & E3 & E4 & E5 & E6 & E7 & E8 & Er).
    eapply advance; eauto; [by destruct r| |by destruct r].
    destruct r as [[]|]; try done. intros _. destruct Er as [e' ->]. by apply E8, Hfl.
  - destruct (eventDone _) eqn:Ee; simplify_eq; [|by apply Hgo].
    apply Hgo; try done.
    intros _. split; [done|]. intros Hd. apply (k_disp w K) in Hd. congruence.
  - assert (Some (set_pc w t (Closing KReadLock)) = Some w') as [= <-] by by destruct (disp w). by apply Hgo.
  - unfold lock_read in E. destruct (readMu w); [done|]. simplify_eq/=. by apply Hgo.
  - destruct (RingBuf.Free _ _). simplify_eq. by apply Hgo.
  - simplify_eq. by apply Hgo.
  - unfold lock_write in E. destruct (writeMu w); [done|]. simplify_eq/=. by apply Hgo.
  - destruct (StaticBuf.Free _ _). simplify_eq. by apply Hgo.
  - simplify_eq. by apply Hgo.
  - simplify_eq. by apply Hgo.
  - destruct (net_Close _) as [nc err]. simplify_eq. destruct K as [K1 K2 K3 K4 K5 K6].
    set (w1 := add_result (set_conn w (set_netConn (conn w) nc)) t (DidClose err)).
    assert (Hno : forall t' q, get_pc (set_pc w1 t Idle) t' <> Some (Closing q)).
    { intros t' q Hq. rewrite (get_set_pc w1 t (Closing KNet)) in Hq by done. case_decide as Ht; [done|].
      destruct (K4 t' q Hq) as (? & _). congruence. }
    assert (Hnone : filter did_close (results w) = []).
    { destruct (filter did_close (results w)) as [|[t' x] l] eqn:Ef; [done|].
      assert (Hin : (t', x) ∈ filter did_close (results w)) by (rewrite Ef; by left).
      apply list_elem_of_filter in Hin as [Hd Hin]. destruct x as [| |e|]; try done.
      destruct (K5 t' e Hin) as (_ & _ & _ & Hn). by destruct (Hn t KNet). }
    split; try done.
    + unfold return_. rewrite disp_set_pc. exact K3.
    + intros t' q Hq. by destruct (Hno t' q).
    + intros t' e Hin. change (results _) with (results w ++ [(t, DidClose err)]) in Hin.
      apply elem_of_app in Hin as [Hin|Hin].
      * destruct (K5 t' e Hin) as (_ & _ & _ & Hn). by destruct (Hn t KNet).
      * apply list_elem_of_singleton in Hin as [= -> ->]. split_and!; try done. by apply Hfl.
    + change (results _) with (results w ++ [(t, DidClose err)]).
      rewrite filter_app, Hnone. pose proof (length_filter did_close [(t, DidClose err)]). simpl in *. lia.
Qed.

Lemma start_close_inv c P : closed c = false -> close_inv (start c P).
Proof using Type*.
  intros Hc. assert (Hn : forall t p, get_pc (start c P) t <> Some p).
  { intros [|i] p; simpl; [by destruct (eventDone c)|done]. }
  split; try done.
  - simpl. destruct (eventDone c); by split.
  - by intros t k []%Hn.
  - intros t e Hin. by apply elem_of_nil in Hin.
  - simpl. lia.
Qed.

Lemma wstep_close_inv w l w' :
  wstep w l = Some w' -> conn_inv w -> close_inv w -> close_inv w'.
Proof using Type*.
  intros E Hi K. destruct (wstep_inv w l w' E Hi) as [_ Hch]. destruct Hi as [Hl Hw Hs].
  destruct (wstep_quiet w l w' E Hl Hs) as [Hq|[(t & Hp & Hc & ->)|(t & k & Hp & Ek)]].
  - by eapply quiet_close_inv.
  - by apply enter_close.
  - by eapply close_step_inv.
Qed.

(** ** Panics *)

(** Inside [readLocked]. *)
Definition reading (p : pc) : bool :=
  match p with ReadLocked _ | ReadNet _ | ReadTasks _ _ _ _ => true | _ => false end.

Lemma send_step_panicked w t st o w1 r :
  send_step w t st o = Some (w1, r) -> panicked w1 = panicked w.
Proof using Type*.
  intros E. destruct st; cbn [send_step] in E.
  - by destruct (_ && _); simplify_eq.
  - unfold lock_write in E. destruct (writeMu w); [done|]. by simplify_eq/=.
  - destruct (send_body (conn w) o). by simplify_eq/=.
  - by simplify_eq/=.
Qed.

Lemma task_step_panicked w t plen nr err todo w' :
  task_step w t plen nr err todo = Some w' -> panicked w' = panicked w.
Proof using Type*.
  intros E. destruct todo as [|[ce|st command opt| |e|e|sn] todo]; cbn [task_step] in E; [done|..].
  - destruct (_ && _); [by simplify_eq|]. destruct (_ && _); [by simplify_eq|].
    destruct (Handle _ _ _) as [n [resp changed]]. by simplify_eq.
  - destruct (send_step w t st (SCommand command opt)) as [[w1 r]|] eqn:Es; [|done]. simplify_eq/=.
    by eapply send_step_panicked.
  - by simplify_eq.
  - destruct (closed _); [by simplify_eq|]. destruct (events _); [|by simplify_eq].
    case_bool_decide; by simplify_eq.
  - by destruct (events _) as [[]|]; simplify_eq.
  - by simplify_eq.
Qed.

Lemma close_step_panicked w t k w' : close_step w t k = Some w' -> panicked w' = panicked w.
Proof using Type*.
  intros E. destruct k; cbn [close_step] in E.
  - destruct (send_step w t st SFlush) as [[w1 r]|] eqn:Es; [|done]. simplify_eq/=.
    by eapply send_step_panicked.
  - by destruct (eventDone _); simplify_eq.
  - assert (Some (set_pc w t (Closing KReadLock)) = Some w') as [= <-] by by destruct (disp w). done.
  - unfold lock_read in E. destruct (readMu w); [done|]. by simplify_eq/=.
  - destruct (RingBuf.Free _ _). by simplify_eq.
  - by simplify_eq.
  - unfold lock_write in E. destruct (writeMu w); [done|]. by simplify_eq/=.
  - destruct (StaticBuf.Free _ _). by simplify_eq.
  - by simplify_eq.
  - by simplify_eq.
  - destruct (net_Close _). by simplify_eq.
Qed.

Lemma take_queued_panics w t plen :
  panicked w = false -> panicked (take_queued w t plen) = true -> 0 <= plen ->
  take_queued w t plen = panic w /\ ~ ring_wf (readBuf (conn w)).
Proof using Type*.
  intros Hw. unfold take_queued. destruct (read_queue _ _) as [[c res]|] eqn:E; simpl; [congruence|].
  intros _ Hp. split; [done|]. intros Hr. destruct (read_queue_total _ _ Hp Hr) as [? E']. congruence.
Qed.

Lemma pc_step_panics w t p w' :
  panicked w = false -> pc_ok p -> pc_step w t p = Some w' -> panicked w' = true ->
  w' = panic w /\ ~ ring_wf (readBuf (conn w)) /\ reading p = true.
Proof using Type*.
  intros Hw Hok E Hp. destruct p as [|st o|plen|plen|plen|plen|plen nr err todo|res| |k]; cbn [pc_step] in E.
  - done.
  - destruct (send_step w t st o) as [[w1 r]|] eqn:Es; [|done]. apply send_step_panicked in Es.
    destruct r; simplify_eq/=; congruence.
  - destruct (closed _); simplify_eq/=; congruence.
  - unfold lock_read in E. destruct (readMu w); [done|]. simplify_eq/=; congruence.
  - destruct (0 <? _); simplify_eq/=; [|congruence].
    by destruct (take_queued_panics w t plen Hw Hp Hok) as [-> ?].
  - done.
  - destruct todo as [|a todo]; [|apply task_step_panicked in E; congruence].
    destruct Hok as [Hok _]. simplify_eq. unfold read_finish in *.
    destruct err as [e|]; [destruct (0 <? _); [|destruct (errors_Is e EOF)]
                          |destruct (nr =? 0); [|destruct (0 <? _)]]; simpl in Hp; try congruence;
      by destruct (take_queued_panics w t plen Hw Hp Hok) as [-> ?].
  - simplify_eq/=; congruence.
  - destruct (closed _); simplify_eq/=; congruence.
  - apply close_step_panicked in E. congruence.
Qed.

(** Only a reader panics, and only over a broken ring. *)
Lemma wstep_panics w l w' :
  wstep w l = Some w' -> locks_ok w -> panicked w' = true ->
  w' = panic w /\ ~ ring_wf (readBuf (conn w)) /\ exists t p, get_pc w t = Some p /\ reading p = true.
Proof using Type*.
  intros E Hl Hp. unfold wstep in E. destruct (panicked w) eqn:Hw; [done|].
  destruct l as [|t a|t|t| | |].
  - simplify_eq/=. congruence.
  - destruct (get_pc w t) as [[]|]; simplify_eq/=. congruence.
  - destruct (get_pc w t) as [p|] eqn:Hpc; [|done]. cbn [mbind option_bind] in E.
    destruct (pc_step_panics w t p w' Hw (lk_pc _ Hl _ _ Hpc) E Hp) as (? & ? & ?). eauto 6.
  - destruct (get_pc w t) as [[| | | | |plen| | | |]|] eqn:Hpc; simplify_eq. unfold net_returns in *.
    destruct (net_Read _ _) as [nc [data err]]. destruct (0 <? zlen data); [|simpl in Hp; congruence].
    destruct (Parse _ _ _) as [q r]. destruct (process_data _ _ _) as [c|] eqn:Ed; [simpl in Hp; congruence|].
    split; [done|]. split; [|by eexists _, _].
    intros Hr. match type of Ed with process_data ?c _ _ = _ =>
      destruct (process_data_total data (DataEvents r) c Hr) as [? E'] end. congruence.
  - destruct (disp w); try done. destruct (dispatch (conn w)) as [[c h]|]; simplify_eq/=. congruence.
  - destruct (disp w) as [| |? []|]; simplify_eq/=. congruence.
  - destruct (disp w); try done. destruct (eventDone _) as [[]|]; simplify_eq/=. congruence.
Qed.

Definition ring_inv w : Prop :=
  (ring_wf (readBuf (conn w)) \/ (rbuf (readBuf (conn w)) = nil_slice /\ closed (conn w) = true)) /\
  (panicked w = true ->
     rbuf (readBuf (conn w)) = nil_slice /\ closed (conn w) = true /\
     exists t p, get_pc w t = Some p /\ reading p = true).

Lemma change_ring w w' :
  change w w' -> wr_wf (conn w) -> close_inv w ->
  ring_wf (readBuf (conn w)) \/ (rbuf (readBuf (conn w)) = nil_slice /\ closed (conn w) = true) ->
  ring_wf (readBuf (conn w')) \/ (rbuf (readBuf (conn w')) = nil_slice /\ closed (conn w') = true).
Proof using Type*.
  intros Hch Hw K Hr.
  destruct Hch as [[] _ _ _|t o c e E -> _ _ _|t _ -> _ _ _|t _ Hdn -> _ _ _|t Hp -> _ _ _|t _ -> _ _ _| -> _ _ _]; try done.
  - destruct Hr as [Hr|[Hr Hc]]; [left; auto|right; split; [auto|congruence]].
  - destruct (send_body_frame _ _ _ _ Hw E) as ([] & _). destruct Hr as [Hr|[Hr Hc]]; [left|right]; try congruence.
    split; congruence.
  - destruct Hr as [Hr|[Hr Hc]]; [by left|by right].
  - destruct (k_at w K t _ Hp) as (Hwon & _).
    assert (Hcl : closed (conn w) = true).
    { destruct (closed (conn w)) eqn:Ec; [done|]. apply (k_won w K) in Ec. congruence. }
    unfold RingBuf.Free. destruct (sl_is_nil _); [done|]. by right.
Qed.

Lemma wstep_ring w l w' :
  wstep w l = Some w' -> conn_inv w -> close_inv w -> ring_inv w -> ring_inv w'.
Proof using Type*.
  intros E Hi K [Hr _]. destruct (wstep_inv w l w' E Hi) as [_ Hch].
  split; [by eapply change_ring; [exact Hch|apply Hi|..]|].
  intros Hp. destruct (wstep_panics w l w' E (ci_locks _ Hi) Hp) as (-> & Hn & t & p & Hpc & Hre).
  destruct Hr as [Hr|[Hr Hc]]; [done|]. split_and!; [done|done|by exists t, p].
Qed.

Record safe w : Prop := {
  sf_conn : conn_inv w;
  sf_close : close_inv w;
  sf_ring : ring_inv w
}.

Lemma reachable_safe c P w :
  wr_wf c -> 0 <= sl_len (readScratch c) -> ring_wf (readBuf c) -> closed c = false ->
  reachable c P w -> safe w.
Proof using Type*.
  intros Hc Hs Hr Ho. revert w. apply run_ind.
  - split; [by split; [apply start_locks|..]|by apply start_close_inv|by split; [left|]].
  - intros w l w' [Hi K R] E. destruct (wstep_inv w l w' E Hi) as [Hi' _].
    split; [done|by eapply wstep_close_inv|by eapply wstep_ring].
Qed.

(** ** Waiting *)

Definition waits_write (p : pc) : bool :=
  match p with
  | Sending SLock _ | ReadTasks _ _ _ (TReply SLock _ _ :: _) | Closing (KFlush SLock) => true
  | Closing KWriteLock => true
  | _ => false
  end.
Definition waits_read (p : pc) : bool :=
  match p with ReadLock _ | Closing KReadLock => true | _ => false end.

(** The dispatcher's handler closes the connection and waits for the dispatcher. *)
Definition self_closing w : Prop := exists h, disp w = DHandler h (Closing KWait).

(** What [t] waits for will come: it can step, or it waits for the network, or, in the
    end, for a goroutine, or code of the event handler, of which this holds. *)
Inductive served w : tid -> Prop :=
  | served_runs t : is_Some (wstep w (Step t)) -> served w t
  | served_network t plen : get_pc w t = Some (ReadNet plen) -> served w t
  | served_writeMu t t' p :
      get_pc w t = Some p -> waits_write p = true -> writeMu w = Some t' -> served w t' -> served w t
  | served_readMu t t' p :
      get_pc w t = Some p -> waits_read p = true -> readMu w = Some t' -> served w t' -> served w t
  | served_dispatcher t :
      get_pc w t = Some (Closing KWait) -> disp w = DSelect -> eventDone (conn w) = Some true -> served w t
  | served_handler t h : get_pc w t = Some (Closing KWait) -> disp w = DHandler h Idle -> served w t
  | served_call t h p :
      get_pc w t = Some (Closing KWait) -> disp w = DHandler h p -> served w Dispatcher -> served w t.

Lemma send_step_blocked w t st o :
  send_step w t st o = None -> st = SLock /\ exists t', writeMu w = Some t'.
Proof using Type*.
  intros E. destruct st; cbn [send_step] in E.
  - by destruct (_ && _).
  - split; [done|]. unfold lock_write in E. destruct (writeMu w); [by eexists|done].
  - by destruct (send_body _ _).
  - done.
Qed.

Lemma blocked w t p :
  panicked w = false -> get_pc w t = Some p -> wstep w (Step t) = None ->
  p = Idle \/ (exists plen, p = ReadNet plen) \/
  (waits_write p = true /\ exists t', writeMu w = Some t') \/
  (waits_read p = true /\ exists t', readMu w = Some t') \/
  (p = Closing KWait /\ disp w <> DExited).
Proof using Type*.
  intros Hw Hp E. unfold wstep in E. rewrite Hw, Hp in E. cbn [mbind option_bind] in E.
  destruct p as [|st o|plen|plen|plen|plen|plen nr err todo|res| |k]; cbn [pc_step] in E; try done.
  - by left.
  - destruct (send_step w t st o) as [[w1 r]|] eqn:Es; [done|].
    destruct (send_step_blocked _ _ _ _ Es) as [-> ?]. do 2 right. by left.
  - unfold lock_read in E. destruct (readMu w); [|done]. do 3 right. left. eauto.
  - right; left. by eexists.
  - destruct todo as [|[ce|st command opt| |e|e|sn] todo]; cbn [task_step] in E; try done.
    + destruct (_ && _); [done|]. destruct (_ && _); [done|]. by destruct (Handle _ _ _) as [? []].
    + destruct (send_step w t st (SCommand command opt)) as [[w1 r]|] eqn:Es; [done|].
      destruct (send_step_blocked _ _ _ _ Es) as [-> ?]. do 2 right. by left.
    + destruct (closed _); [done|]. destruct (events _); [by case_bool_decide|done].
    + by destruct (events _) as [[]|].
  - destruct k; cbn [close_step] in E; try done.
    + destruct (send_step w t st SFlush) as [[w1 r]|] eqn:Es; [done|].
      destruct (send_step_blocked _ _ _ _ Es) as [-> ?]. do 2 right. by left.
    + by destruct (eventDone _).
    + do 4 right. split; [done|]. intros Hd. by rewrite Hd in E.
    + unfold lock_read in E. destruct (readMu w); [|done]. do 3 right. left. eauto.
    + by destruct (RingBuf.Free _ _).
    + unfold lock_write in E. destruct (writeMu w); [|done]. do 2 right. left. eauto.
    + by destruct (StaticBuf.Free _ _).
    + by destruct (net_Close _).
Qed.

Lemma runs_or_blocked w t : is_Some (wstep w (Step t)) \/ wstep w (Step t) = None.
Proof using Type*. destruct (wstep w (Step t)); [by left|by right]. Qed.

Lemma writer_served w t : safe w -> panicked w = false -> writeMu w = Some t -> served w t.
Proof using Type*.
  intros [[Hl _ _] _ _] Hw Ho. apply (lk_write _ Hl) in Ho as (p & Hp & Hh).
  destruct (runs_or_blocked w t) as [?|E]; [by apply served_runs|].
  destruct (blocked w t p Hw Hp E) as [->|[(? & ->)|[(Hx & _)|[(Hx & _)|(-> & _)]]]]; try done.
  - destruct p as [|[]| | | | |? ? ? [|[| [] | | | |]]| | |[[]| | | | | | | | | |]]; done.
  - destruct p as [|[]| | | | |? ? ? [|[| [] | | | |]]| | |[[]| | | | | | | | | |]]; done.
Qed.

Lemma reader_served w t : safe w -> panicked w = false -> readMu w = Some t -> served w t.
Proof using Type*.
  intros Hs Hw Ho. pose proof (ci_locks _ (sf_conn _ Hs)) as Hl.
  apply (lk_read _ Hl) in Ho as (p & Hp & Hh).
  destruct (runs_or_blocked w t) as [?|E]; [by apply served_runs|].
  destruct (blocked w t p Hw Hp E) as [->|[(? & ->)|[(Hx & t' & Ht)|[(Hx & _)|(-> & _)]]]]; try done.
  - by eapply served_network.
  - eapply served_writeMu; eauto. by apply writer_served.
  - by destruct p as [| | | | | | | | |[]].
Qed.

(** Whatever a goroutine waits for, unless it is [Close] waiting for the dispatcher. *)
Lemma goroutine_served w t p :
  safe w -> panicked w = false -> get_pc w t = Some p -> p <> Idle -> p <> Closing KWait -> served w t.
Proof using Type*.
  intros Hs Hw Hp Hi Hk. destruct (runs_or_blocked w t) as [?|E]; [by apply served_runs|].
  destruct (blocked w t p Hw Hp E) as [->|[(? & ->)|[(Hx & t' & Ht)|[(Hx & t' & Ht)|(-> & _)]]]]; try done.
  - by eapply served_network.
  - eapply served_writeMu; eauto. by apply writer_served.
  - eapply served_readMu; eauto. by apply reader_served.
Qed.

Lemma close_served w t :
  safe w -> panicked w = false -> ~ self_closing w -> get_pc w t = Some (Closing KWait) -> served w t.
Proof using Type*.
  intros Hs Hw Hn Hp. destruct (k_at _ (sf_close _ Hs) t _ Hp) as (_ & _ & _ & Hwait).
  destruct (Hwait eq_refl) as [He Hd]. destruct (disp w) as [| |h p|] eqn:Ed; [done| | |].
  - by apply served_dispatcher.
  - assert (p = Idle \/ p <> Idle) as [->|Hi] by (destruct p; first [by left|by right]).
    + by eapply served_handler.
    + eapply served_call; [done..|]. eapply goroutine_served; eauto; [by simpl; rewrite Ed|].
      intros ->. apply Hn. by exists h.
  - apply served_runs. unfold wstep. rewrite Hw, Hp. simpl. by rewrite Ed.
Qed.

Lemma self_closing_step w l w' :
  wstep w l = Some w' -> locks_ok w -> self_closing w -> self_closing w'.
Proof using Type*.
  intros E Hl [h Hd]. assert (Hp : get_pc w Dispatcher = Some (Closing KWait)) by (simpl; by rewrite Hd).
  assert (Hp' : get_pc w' Dispatcher = Some (Closing KWait)).
  { destruct (wstep_moves w l w' E Hl) as [(t & p & p' & Ha & Hpt & Hm)|(_ & _ & Hs)].
    - rewrite (mv_pc _ _ _ _ _ Hm). case_decide as Ht; [|done]. subst t. exfalso.
      unfold wstep in E. destruct (panicked w); [done|].
      destruct l; simplify_eq/=; rewrite Hd in E; simpl in E; [done| |done]. by rewrite Hd in E.
    - by apply Hs. }
  simpl in Hp'. destruct (disp w') as [| |h' q|] eqn:Ed; simplify_eq. by exists h'.
Qed.

Lemma self_closing_run ls : forall w w',
  wrun w ls = Some w' -> safe w -> self_closing w -> safe w' /\ self_closing w'.
Proof using Type*.
  induction ls as [|l ls IH]; intros w w' E Hs Hc; cbn [wrun] in E; [by simplify_eq|].
  destruct (wstep w l) as [w1|] eqn:E1; [|done]. destruct Hs as [Hi K R].
  destruct (wstep_inv w l w1 E1 Hi) as [Hi' _]. apply (IH w1 w' E).
  - split; [done|by eapply wstep_close_inv|by eapply wstep_ring].
  - by eapply self_closing_step; [|apply Hi|].
Qed.
End Closes.

(** ** The sends that returned *)

Section Sent.
  Context {N : Type} `{NetConn N} `{GrowPolicy}.
  Implicit Types (w : world N) (t : tid) (p : pc).

Definition is_send (p : pc) : bool := match p with Sending _ _ => true | _ => false end.

(** A step that ends no sending call and gets none past its body. *)
Record no_send w w' : Prop := {
  ns_pc t e o : get_pc w' t = Some (Sending (SUnlock e) o) -> get_pc w t = Some (Sending (SUnlock e) o);
  ns_results t o e : (t, DidSend o e) ∈ results w' -> (t, DidSend o e) ∈ results w;
  ns_order : exists l, order w' = order w ++ l;
  ns_freed : freed w' = false -> freed w = false
}.

Lemma no_send_same w w' :
  (forall t p, p <> Idle -> get_pc w' t = Some p -> get_pc w t = Some p) -> results w' = results w -> order w' = order w ->
  freed w' = freed w -> no_send w w'.
Proof using Type.
  intros Hp Er Eo Ef. split; [intros t e o; by apply Hp|by rewrite Er| |by rewrite Ef].
  exists []. by rewrite app_nil_r.
Qed.

Lemma no_send_set_pc w w1 t p' :
  no_send w w1 -> (forall e o, p' <> Sending (SUnlock e) o) -> no_send w (set_pc w1 t p').
Proof using Type.
  intros [] Hp. split; try done. intros t' e o E. apply pc_after_set in E as [[-> <-]|E]; [by destruct (Hp e o)|auto].
Qed.

Lemma no_send_return w w1 t r :
  no_send w w1 -> (forall o e, r <> DidSend o e) -> no_send w (return_ w1 t r).
Proof using Type.
  intros Hn Hr. apply no_send_set_pc; [|done]. destruct Hn as [Ha Hb Hc Hd]. split; try done.
  intros t' o e Hin. apply elem_of_app in Hin as [Hin|Hin]; [by apply Hb|].
  apply list_elem_of_singleton in Hin. simplify_eq. by destruct (Hr o e).
Qed.

Ltac no_send_tac :=
  repeat first
    [ apply no_send_return; [|done] | apply no_send_set_pc; [|done] | by apply no_send_same | done ].

Lemma send_step_no_send w t st o w1 r : send_step w t st o = Some (w1, r) -> no_send w w1.
Proof using Type.
  intros E. destruct st; cbn [send_step] in E.
  - destruct (_ && _); simplify_eq; no_send_tac.
  - unfold lock_write in E. destruct (writeMu w); [done|]. simplify_eq/=. no_send_tac.
  - destruct (send_body (conn w) o). simplify_eq/=. split; try done. simpl.
    destruct (freed w); [exists []; by rewrite app_nil_r|by eexists].
  - simplify_eq/=. no_send_tac.
Qed.

Lemma take_queued_no_send w t plen : no_send w (take_queued w t plen).
Proof using Type. unfold take_queued. destruct (read_queue _ _) as [[]|]; no_send_tac. Qed.

Lemma task_step_no_send w t plen nr err todo w' :
  task_step w t plen nr err todo = Some w' -> no_send w w'.
Proof using Type.
  intros E. destruct todo as [|[ce|st command opt| |e|e|sn] todo]; cbn [task_step] in E; [done|..].
  - destruct (_ && _); [simplify_eq; no_send_tac|]. destruct (_ && _); [simplify_eq; no_send_tac|].
    destruct (Handle _ _ _) as [n [resp changed]]. simplify_eq. no_send_tac.
  - destruct (send_step w t st (SCommand command opt)) as [[w1 r]|] eqn:Es; [|done]. simplify_eq/=.
    apply no_send_set_pc; [by eapply send_step_no_send|done].
  - simplify_eq. no_send_tac.
  - destruct (closed _); [simplify_eq; no_send_tac|]. destruct (events _); [|simplify_eq; no_send_tac].
    case_bool_decide; simplify_eq; no_send_tac.
  - destruct (events _) as [[]|]; simplify_eq; no_send_tac.
  - simplify_eq. no_send_tac.
Qed.

Lemma close_step_no_send w t k w' : close_step w t k = Some w' -> no_send w w'.
Proof using Type.
  intros E. destruct k; cbn [close_step] in E.
  - destruct (send_step w t st SFlush) as [[w1 r]|] eqn:Es; [|done]. simplify_eq/=.
    apply no_send_set_pc; [by eapply send_step_no_send|done].
  - destruct (eventDone _); simplify_eq; no_send_tac.
  - assert (Some (set_pc w t (Closing KReadLock)) = Some w') as [= <-] by by destruct (disp w). no_send_tac.
  - unfold lock_read in E. destruct (readMu w); [done|]. simplify_eq/=. no_send_tac.
  - destruct (RingBuf.Free _ _). simplify_eq. no_send_tac.
  - simplify_eq. no_send_tac.
  - unfold lock_write in E. destruct (writeMu w); [done|]. simplify_eq/=. no_send_tac.
  - destruct (StaticBuf.Free _ _). simplify_eq. apply no_send_set_pc; [|done].
    split; try done. exists []. by rewrite app_nil_r.
  - simplify_eq. no_send_tac.
  - simplify_eq. no_send_tac.
  - destruct (net_Close _). simplify_eq. no_send_tac.
Qed.

Lemma pc_step_no_send w t p w' : is_send p = false -> pc_step w t p = Some w' -> no_send w w'.
Proof using Type.
  intros Hp E. destruct p as [|st o|plen|plen|plen|plen|plen nr err todo|res| |k]; cbn [pc_step] in E; try done.
  - destruct (closed _); simplify_eq; no_send_tac.
  - unfold lock_read in E. destruct (readMu w); [done|]. simplify_eq/=. no_send_tac.
  - destruct (0 <? _); simplify_eq; [apply take_queued_no_send|no_send_tac].
  - destruct todo as [|a todo]; [|by eapply task_step_no_send]. simplify_eq. unfold read_finish.
    destruct err as [e|]; [destruct (0 <? _); [|destruct (errors_Is e EOF)]
                          |destruct (nr =? 0); [|destruct (0 <? _)]];
      first [apply take_queued_no_send|no_send_tac].
  - simplify_eq. no_send_tac.
  - destruct (closed _); simplify_eq; no_send_tac.
  - by eapply close_step_no_send.
Qed.

(** The sends that are past their body, and those that returned without an error, are in
    the order. *)
Definition sent_inv w : Prop := freed w = false ->
  (forall t e o, get_pc w t = Some (Sending (SUnlock e) o) -> (t, o, e) ∈ order w) /\
  (forall t o, (t, DidSend o None) ∈ results w -> (t, o, None) ∈ order w).

Lemma no_send_inv w w' : no_send w w' -> sent_inv w -> sent_inv w'.
Proof using Type.
  intros [Hp Hr [l Eo] Hf] Hs Hf'. destruct (Hs (Hf Hf')) as [Ha Hb]. rewrite Eo.
  split; intros; apply elem_of_app; left; auto.
Qed.

Lemma sending_inv w t st o w1 r w' :
  get_pc w t = Some (Sending st o) -> send_step w t st o = Some (w1, r) ->
  w' = match r with inl st => set_pc w1 t (Sending st o) | inr e => return_ w1 t (DidSend o e) end ->
  sent_inv w -> sent_inv w'.
Proof using Type.
  intros Hp E -> Hs. destruct st; cbn [send_step] in E.
  - destruct (_ && _); simplify_eq; [|eapply no_send_inv; [no_send_tac|exact Hs]].
    intros Hf. simpl in Hf |- *. destruct (Hs Hf) as [Ha Hb]. split.
    + intros t' e' o' Hq. apply pc_after_set in Hq as [[_ ?]|Hq]; [done|by apply Ha].
    + intros t' o' Hin. apply elem_of_app in Hin as [Hin|Hin]; [by apply Hb|].
      by apply list_elem_of_singleton in Hin.
  - unfold lock_write in E. destruct (writeMu w); [done|]. simplify_eq/=.
    eapply no_send_inv; [no_send_tac|exact Hs].
  - destruct (send_body (conn w) o) as [c e]. simplify_eq/=. intros Hf. simpl in Hf |- *.
    destruct (Hs Hf) as [Ha Hb]. rewrite Hf. split.
    + intros t' e' o' Hq. apply elem_of_app. apply pc_after_set in Hq as [[-> [= -> ->]]|Hq].
      * right. by apply list_elem_of_singleton.
      * left. by apply Ha.
    + intros t' o' Hin. apply elem_of_app. left. by apply Hb.
  - simplify_eq/=. intros Hf. simpl in Hf |- *. destruct (Hs Hf) as [Ha Hb]. split.
    + intros t' e' o' Hq. apply pc_after_set in Hq as [[_ ?]|Hq]; [done|by apply Ha].
    + intros t' o' Hin. apply elem_of_app in Hin as [Hin|Hin]; [by apply Hb|].
      apply list_elem_of_singleton in Hin. simplify_eq. by apply Ha.
Qed.

Lemma wstep_sent w l w' : wstep w l = Some w' -> sent_inv w -> sent_inv w'.
Proof using Type.
  intros E Hs. unfold wstep in E. destruct (panicked w); [done|].
  destruct l as [|t a|t|t| | |].
  - simplify_eq. eapply no_send_inv; [|exact Hs]. apply no_send_same; try done.
    intros [|i] p Hp; [done|]. simpl. intros Hq. apply lookup_app_Some in Hq as [Hq|[_ Hq]]; [done|].
    apply list_lookup_singleton_Some in Hq as [_ <-]. done.
  - destruct (get_pc w t) as [[]|]; simplify_eq. eapply no_send_inv; [|exact Hs].
    apply no_send_set_pc; [by apply no_send_same|by destruct a].
  - destruct (get_pc w t) as [p|] eqn:Hp; [|done]. cbn [mbind option_bind] in E.
    destruct (is_send p) eqn:Ep; [|eapply no_send_inv; [by eapply pc_step_no_send|exact Hs]].
    destruct p as [|st o| | | | | | | |]; try done. cbn [pc_step] in E.
    destruct (send_step w t st o) as [[w1 r]|] eqn:Es; [|done]. simplify_eq/=. by eapply sending_inv.
  - destruct (get_pc w t) as [[]|]; simplify_eq. eapply no_send_inv; [|exact Hs]. unfold net_returns.
    destruct (net_Read _ _) as [nc [data err]]. destruct (0 <? zlen data); [|no_send_tac].
    destruct (Parse _ _ _). destruct (process_data _ _ _); no_send_tac.
  - destruct (disp w) eqn:Ed; try done. destruct (dispatch _) as [[c h]|]; simplify_eq/=.
    eapply no_send_inv; [|exact Hs]. apply no_send_same; try done. intros [|i] p Hp; simpl; [|done]. congruence.
  - destruct (disp w) as [| |? []|] eqn:Ed; simplify_eq. eapply no_send_inv; [|exact Hs].
    apply no_send_same; try done. by intros [|i] p Hp.
  - destruct (disp w) eqn:Ed; try done. destruct (eventDone _) as [[]|]; simplify_eq.
    eapply no_send_inv; [|exact Hs]. apply no_send_same; try done. by intros [|i] p Hp.
Qed.

Lemma reachable_sent c P w : reachable c P w -> sent_inv w.
Proof using Type.
  apply run_ind; [|intros; by eapply wstep_sent].
  intros _. split; [|intros t o Hin; by apply elem_of_nil in Hin].
  intros [|i] e o; simpl; [by destruct (eventDone c)|done].
Qed.
End Sent.

(** ** What a server needs of its connections *)

Section Served.
  Context {N : Type} `{NetConn N} `{GrowPolicy}.
  Implicit Types (w : world N) (t : tid) (c : Conn N Ring).

(** The pools stay well formed, and the flag is never cleared. *)
Record lasting w w' : Prop := {
  la_pools : pools_wf (pools w) -> pools_wf (pools w');
  la_closed : closed (conn w) = true -> closed (conn w') = true
}.

#[export] Instance lasting_refl : Reflexive lasting.
Proof using Type. by intros w. Qed.

Lemma lasting_conn w w' : pools w' = pools w -> closed (conn w') = closed (conn w) -> lasting w w'.
Proof using Type. intros Ep Ec. by split; rewrite ?Ep, ?Ec. Qed.

Lemma lasting_trans w w1 w2 : lasting w w1 -> lasting w1 w2 -> lasting w w2.
Proof using Type. intros [] []. split; auto. Qed.

Lemma handleSubnegotiation_closed c opt data : closed (handleSubnegotiation c opt data) = closed c.
Proof using Type.
  unfold handleSubnegotiation. destruct (opt =? OptTerminalType); [|destruct (opt =? OptNAWS); [|done]].
  - destruct data; [done|]. by destruct (_ && _).
  - by destruct data as [|? [|? [|? [|? ?]]]].
Qed.

Lemma process_data_closed data evs : forall c c',
  process_data c data evs = Some c' -> closed c' = closed c.
Proof using Type.
  induction evs as [|ev evs IH]; intros c c' E; cbn [process_data] in E; [by simplify_eq|].
  destruct (0 <? de_Length ev); [|by apply IH].
  destruct (q_Write (readBuf c) _) as [[q x]|]; [|done]. by rewrite (IH _ _ E).
Qed.

Lemma send_step_lasting w t st o w1 r : send_step w t st o = Some (w1, r) -> lasting w w1.
Proof using Type.
  intros E. destruct st; cbn [send_step] in E.
  - destruct (_ && _); by simplify_eq.
  - unfold lock_write in E. destruct (writeMu w); [done|]. by simplify_eq/=.
  - unfold send_body in E. destruct (exec_send _ o) as [c e]. simplify_eq/=. by apply lasting_conn.
  - by simplify_eq/=.
Qed.

Lemma take_queued_lasting w t plen : lasting w (take_queued w t plen).
Proof using Type.
  unfold take_queued, read_queue. destruct (q_Read _ _) as [[q [n bs]]|]; by apply lasting_conn.
Qed.

Lemma task_step_lasting w t plen nr err todo w' :
  task_step w t plen nr err todo = Some w' -> lasting w w'.
Proof using Type.
  intros E. destruct todo as [|[ce|st command opt| |e|e|sn] todo]; cbn [task_step] in E; [done|..].
  - destruct (_ && _); [by simplify_eq|]. destruct (_ && _); [by simplify_eq|].
    destruct (Handle _ _ _) as [n [resp changed]]. simplify_eq. by apply lasting_conn.
  - destruct (send_step w t st (SCommand command opt)) as [[w1 r]|] eqn:Es; [|done]. simplify_eq/=.
    eapply lasting_trans; [by eapply send_step_lasting|]. by apply lasting_conn.
  - simplify_eq. by apply lasting_conn.
  - destruct (closed _); [by simplify_eq|]. destruct (events _); [|by simplify_eq].
    case_bool_decide; simplify_eq; by apply lasting_conn.
  - destruct (events _) as [[|? es]|]; simplify_eq; by apply lasting_conn.
  - simplify_eq. apply lasting_conn; [done|]. simpl. by rewrite handleSubnegotiation_closed.
Qed.

Lemma close_step_lasting w t k w' : close_step w t k = Some w' -> lasting w w'.
Proof using Type.
  intros E. destruct k; cbn [close_step] in E.
  - destruct (send_step w t st SFlush) as [[w1 r]|] eqn:Es; [|done]. simplify_eq/=.
    eapply lasting_trans; [by eapply send_step_lasting|]. by apply lasting_conn.
  - destruct (eventDone _); simplify_eq; by apply lasting_conn.
  - destruct (disp w); simplify_eq; by apply lasting_conn.
  - unfold lock_read in E. destruct (readMu w); [done|]. simplify_eq/=. by apply lasting_conn.
  - unfold RingBuf.Free in E. destruct (sl_is_nil _); simplify_eq; split; simpl; auto with telnet.
  - simplify_eq. by apply lasting_conn.
  - unfold lock_write in E. destruct (writeMu w); [done|]. simplify_eq/=. by apply lasting_conn.
  - unfold StaticBuf.Free in E. destruct (sl_is_nil _); simplify_eq; split; simpl; auto with telnet.
  - simplify_eq. by apply lasting_conn.
  - simplify_eq. split; simpl; auto with telnet.
  - destruct (net_Close _). simplify_eq. by apply lasting_conn.
Qed.

Lemma net_returns_lasting w t plen : lasting w (net_returns w t plen).
Proof using Type.
  unfold net_returns. destruct (net_Read _ _) as [nc [data err]]. destruct (0 <? zlen data); [|by apply lasting_conn].
  destruct (Parse _ _ _) as [q r]. destruct (process_data _ _ _) as [c|] eqn:Ed; [|by apply lasting_conn].
  apply lasting_conn; [done|]. simpl. by rewrite (process_data_closed _ _ _ _ Ed).
Qed.

Lemma pc_step_lasting w t p w' : pc_step w t p = Some w' -> lasting w w'.
Proof using Type.
  intros E. destruct p as [|st o|plen|plen|plen|plen|plen nr err todo|res| |k]; cbn [pc_step] in E.
  - done.
  - destruct (send_step w t st o) as [[w1 r]|] eqn:Es; [|done]. simplify_eq/=.
    eapply lasting_trans; [by eapply send_step_lasting|]. destruct r; by apply lasting_conn.
  - destruct (closed _); simplify_eq; by apply lasting_conn.
  - unfold lock_read in E. destruct (readMu w); [done|]. simplify_eq/=. by apply lasting_conn.
  - destruct (0 <? _); simplify_eq; [apply take_queued_lasting|by apply lasting_conn].
  - done.
  - destruct todo as [|a todo]; [|by eapply task_step_lasting]. simplify_eq. unfold read_finish.
    destruct err as [e|].
    + destruct (0 <? _); [apply take_queued_lasting|]. destruct (errors_Is e EOF); by apply lasting_conn.
    + destruct (nr =? 0); [by apply lasting_conn|].
      destruct (0 <? _); [apply take_queued_lasting|by apply lasting_conn].
  - simplify_eq. by apply lasting_conn.
  - destruct (closed _) eqn:Ec; simplify_eq; [by apply lasting_conn|]. by split.
  - by eapply close_step_lasting.
Qed.

Lemma wstep_lasting w l w' : wstep w l = Some w' -> lasting w w'.
Proof using Type.
  intros E. unfold wstep in E. destruct (panicked w); [done|]. destruct l as [|t a|t|t| | |].
  - by simplify_eq.
  - destruct (get_pc w t) as [[]|]; simplify_eq. by apply lasting_conn.
  - destruct (get_pc w t) as [p|]; [|done]. by eapply pc_step_lasting.
  - destruct (get_pc w t) as [[]|]; simplify_eq. apply net_returns_lasting.
  - destruct (disp w); try done. destruct (dispatch (conn w)) as [[c h]|] eqn:Ed; simplify_eq/=.
    apply lasting_conn; [done|]. unfold dispatch in Ed. by destruct (events (conn w)) as [[|e es]|]; simplify_eq.
  - destruct (disp w) as [| |? []|]; simplify_eq. by apply lasting_conn.
  - destruct (disp w); try done. destruct (eventDone _) as [[]|]; simplify_eq. by apply lasting_conn.
Qed.

(** A goroutine that has called [Close] has it closed by its first step. *)
Definition closes_or_closed w t : Prop := closed (conn w) = true \/ get_pc w t = Some CloseEnter.

Lemma wstep_closes w t l w' :
  locks_ok w -> wstep w l = Some w' -> closes_or_closed w t -> closes_or_closed w' t.
Proof using Type.
  intros Hl E [Hc|Hp]; [left; by apply (wstep_lasting w l w' E)|].
  destruct (wstep_moves w l w' E Hl) as [(u & p & p' & Ea & Hu & Hm)|(_ & _ & Hs)]; [|by right; apply Hs].
  destruct (decide (t = u)) as [<-|Hne]; [|right; by rewrite (mv_pc _ _ _ _ _ Hm), decide_False].
  left. unfold wstep in E. destruct (panicked w); [done|]. destruct l as [|t' a|t'|t'| | |]; simplify_eq/=.
  - by rewrite Hp in E.
  - rewrite Hp in E. cbn [mbind option_bind pc_step] in E. destruct (closed (conn w)) eqn:Ec; by simplify_eq/=.
  - by rewrite Hp in E.
Qed.

(** ** A [Close] behind a reader *)

(** The stages of [Close] up to [c.readMu.Lock()]. *)
Definition before_readMu (k : close_stage) : bool :=
  match k with KFlush _ | KDone | KWait | KReadLock => true | _ => false end.

(** The goroutine [u] closes while [t] waits for the network inside [Read]. *)
Definition close_behind w (t u : tid) : Prop :=
  (exists plen, get_pc w t = Some (ReadNet plen)) /\
  exists k, get_pc w u = Some (Closing k) /\ before_readMu k = true.

Lemma close_step_behind w u k w' :
  readMu w <> None -> before_readMu k = true -> get_pc w u = Some (Closing k) -> close_step w u k = Some w' ->
  exists k', get_pc w' u = Some (Closing k') /\ before_readMu k' = true.
Proof using Type.
  intros Hm Hk Hp E.
  assert (Hgo : forall w1 k', (forall t', get_pc w1 t' = get_pc w t') -> before_readMu k' = true ->
    exists k2, get_pc (set_pc w1 u (Closing k')) u = Some (Closing k2) /\ before_readMu k2 = true).
  { intros w1 k' Hpc Hk'. exists k'. split; [|done].
    rewrite (get_set_pc w1 u (Closing k)) by by rewrite Hpc. by rewrite decide_True. }
  destruct k; try done; cbn [close_step] in E.
  - destruct (send_step w u st SFlush) as [[w1 r]|] eqn:Es; [|done]. simplify_eq/=.
    destruct (send_step_locks _ _ _ _ _ _ Es) as (Hpc & _). destruct r; by apply Hgo.
  - destruct (eventDone _); simplify_eq; by apply Hgo.
  - destruct (disp w); simplify_eq; by apply Hgo.
  - unfold lock_read in E. by destruct (readMu w).
Qed.

Lemma wstep_close_behind w l w' t u :
  locks_ok w -> l <> NetReturns t -> wstep w l = Some w' -> close_behind w t u -> close_behind w' t u.
Proof using Type.
  intros Hl Hn E [(plen & Ht) (k & Hu & Hk)].
  assert (Hm : readMu w <> None).
  { intros Hm. assert (readMu w = Some t); [|congruence]. apply (lk_read _ Hl). by exists (ReadNet plen). }
  destruct (wstep_moves w l w' E Hl) as [(v & p & p' & Ea & Hv & Hmv)|(_ & _ & Hs)].
  - destruct (decide (v = t)) as [->|Hvt].
    { unfold wstep in E. destruct (panicked w); [done|].
      destruct l as [|t' a|t'|t'| | |]; simplify_eq/=; by rewrite Ht in E. }
    split; [exists plen; by rewrite (mv_pc _ _ _ _ _ Hmv), decide_False|].
    destruct (decide (v = u)) as [->|Hvu].
    + apply (close_step_behind w u k w'); [done..|]. unfold wstep in E. destruct (panicked w); [done|].
      destruct l as [|t' a|t'|t'| | |]; simplify_eq/=; by rewrite Hu in E.
    + exists k. by rewrite (mv_pc _ _ _ _ _ Hmv), decide_False.
  - split; [exists plen; by apply Hs|]. exists k. split; [by apply Hs|done].
Qed.
End Served.
