(* ===== verification/ConnAlone.v ===== *)
(** * ConnAlone: a call that nothing disturbs is the operation of [TelnetConn].

    The steps of [ConnShared], run by one goroutine while the others stand still, add up
    to the transitions of [TelnetConn]: the two models are of the same code. *)
From S2P Require Import Prelude Constants GoSlice Pool ByteQueue RingBuf StaticBuf TelnetParser Options.
From S2P Require Import NetConn TelnetConn ConnWriter ConnShared ConnSharedProps.

Section Alone.
  Context {N : Type} `{NetConnLaws N} `{GrowPolicy}.
  Implicit Types (w : world N) (t : tid) (c : Conn N Ring).

(** ** Runs of one goroutine *)

(** What the operations see of a state. *)
Definition view w : Conn N Ring * Pools * (option tid * option tid) * list (tid * ret) :=
  (conn w, pools w, (readMu w, writeMu w), results w).

(** [t] alone can go from [p] to [p']. *)
Definition alone t w p w' p' : Prop :=
  get_pc w t = Some p /\ get_pc w' t = Some p' /\ panicked w' = false /\
  (t <> Dispatcher -> disp w' = disp w) /\
  exists ls, Forall (fun l => actor l = Some t) ls /\ wrun w ls = Some w'.

Definition reach t v p v' p' : Prop :=
  forall w, view w = v -> get_pc w t = Some p -> panicked w = false ->
  exists w', view w' = v' /\ alone t w p w' p'.

Lemma wrun_app w ls ks : wrun w (ls ++ ks) = w' ← wrun w ls; wrun w' ks.
Proof using Type.
  revert w. induction ls as [|l ls IH]; intros w; [done|]. cbn [app wrun].
  destruct (wstep w l); [apply IH|done].
Qed.

Lemma reach_refl t v p : reach t v p v p.
Proof using Type. intros w Hv Hp Hw. exists w. split; [done|]. split_and!; try done. by exists []. Qed.

Lemma alone_trans t w p w1 p1 w2 p2 : alone t w p w1 p1 -> alone t w1 p1 w2 p2 -> alone t w p w2 p2.
Proof using Type.
  intros (Hp & _ & _ & Hd & ls & Hls & E) (_ & Hp2 & Hw2 & Hd2 & ks & Hks & E2).
  split_and!; try done.
  - intros Ht. by rewrite Hd2, Hd.
  - exists (ls ++ ks). split; [by apply Forall_app|]. by rewrite wrun_app, E.
Qed.

Lemma reach_trans t v p v1 p1 v2 p2 : reach t v p v1 p1 -> reach t v1 p1 v2 p2 -> reach t v p v2 p2.
Proof using Type.
  intros Ha Hb w Hv Hp Hw. destruct (Ha w Hv Hp Hw) as (w1 & Hv1 & Ha1).
  assert (Hp1 := Ha1). destruct Hp1 as (_ & Hp1 & Hw1 & _).
  destruct (Hb w1 Hv1 Hp1 Hw1) as (w2 & Hv2 & Ha2). exists w2. split; [done|]. by eapply alone_trans.
Qed.

Lemma wrun_one w l w' : wstep w l = Some w' -> wrun w [l] = Some w'.
Proof using Type. intros E. simpl. by rewrite E. Qed.

(** One step to [p'], where [w1] is the state but for that. *)
Lemma alone_step t w p w1 p' l :
  actor l = Some t -> wstep w l = Some (set_pc w1 t p') -> get_pc w t = Some p ->
  (forall t', get_pc w1 t' = get_pc w t') -> panicked w1 = false -> disp w1 = disp w ->
  alone t w p (set_pc w1 t p') p'.
Proof using Type.
  intros Ha E Hp Hpc Hw Hd. split_and!; try done.
  - rewrite (get_set_pc w1 t p) by by rewrite Hpc. by rewrite decide_True.
  - intros Ht. simpl. by destruct t.
  - exists [l]. split; [by repeat constructor|by apply wrun_one].
Qed.

Lemma reach_step t v p v' p' :
  (forall w, view w = v -> exists w1, pc_step w t p = Some (set_pc w1 t p') /\ view w1 = v' /\
     (forall t', get_pc w1 t' = get_pc w t') /\ panicked w1 = panicked w /\ disp w1 = disp w) ->
  reach t v p v' p'.
Proof using Type.
  intros Hs w Hv Hp Hw. destruct (Hs w Hv) as (w1 & E & Hv1 & Hpc & Hpa & Hd).
  exists (set_pc w1 t p'). split; [exact Hv1|].
  apply alone_step with (l := Step t); try done; [|congruence]. unfold wstep. by rewrite Hw, Hp.
Qed.

(** ** Sending *)

(** The three places where a goroutine is inside a sending operation: the call itself, a
    reply, the flush of [Close]. [fin] and [ex] tell what follows. *)
Record context t (o : send_op) (f : send_stage -> pc) (fin : option error -> pc)
    (ex : option error -> list (tid * ret)) : Prop := {
  cx_step w st w1 st' : send_step w t st o = Some (w1, inl st') ->
    pc_step w t (f st) = Some (set_pc w1 t (f st'));
  cx_end w st w1 e : send_step w t st o = Some (w1, inr e) ->
    exists w2, pc_step w t (f st) = Some (set_pc w2 t (fin e)) /\
      view w2 = (conn w1, pools w1, (readMu w1, writeMu w1), results w1 ++ ex e) /\
      (forall t', get_pc w2 t' = get_pc w1 t') /\ panicked w2 = panicked w1 /\ disp w2 = disp w1
}.

Lemma context_call t o : context t o (fun st => Sending st o) (fun _ => Idle) (fun e => [(t, DidSend o e)]).
Proof using Type.
  split; intros w st w1 r E; cbn [pc_step]; rewrite E; [done|].
  exists (add_result w1 t (DidSend o r)). by split_and!.
Qed.

Lemma context_reply t plen nr err command opt todo :
  context t (SCommand command opt) (fun st => ReadTasks plen nr err (TReply st command opt :: todo))
    (fun _ => ReadTasks plen nr err todo) (fun _ => []).
Proof using Type.
  split; intros w st w1 r E; cbn [pc_step task_step]; rewrite E; [done|].
  exists w1. split_and!; try done. unfold view. by rewrite app_nil_r.
Qed.

Lemma context_flush t :
  context t SFlush (fun st => Closing (KFlush st)) (fun _ => Closing KDone) (fun _ => []).
Proof using Type.
  split; intros w st w1 r E; cbn [pc_step close_step]; rewrite E; [done|].
  exists w1. split_and!; try done. unfold view. by rewrite app_nil_r.
Qed.

(** From the lock on. *)
Lemma send_alone t o f fin ex c P rm rs :
  context t o f fin ex ->
  reach t (c, P, (rm, None), rs) (f SLock)
    ((send_body c o).1, P, (rm, None), rs ++ ex (send_body c o).2) (fin (send_body c o).2).
Proof using Type.
  intros [Hstep Hend]. destruct (send_body c o) as [c' e] eqn:Eb. simpl.
  apply reach_trans with (v1 := (c, P, (rm, Some t), rs)) (p1 := f SBody).
  { apply reach_step. intros w [= Ec EP Er Ew Ers]. exists (set_writeMu w (Some t)).
    split_and!; try done; [|unfold view; simpl; congruence].
    apply Hstep. cbn [send_step]. unfold lock_write. by rewrite Ew. }
  apply reach_trans with (v1 := (c', P, (rm, Some t), rs)) (p1 := f (SUnlock e)).
  { apply reach_step. intros w [= Ec EP Er Ew Ers]. exists (add_order (set_conn w c') t o e).
    split_and!; try done; [|unfold view; simpl; congruence].
    apply Hstep. cbn [send_step]. by rewrite Ec, Eb. }
  apply reach_step. intros w [= Ec EP Er Ew Ers].
  destruct (Hend w (SUnlock e) (set_writeMu w None) e eq_refl) as (w2 & E & Hv & Hpc & Hpa & Hd).
  exists w2. split_and!; try done. rewrite Hv. simpl. congruence.
Qed.

Lemma set_closed_same c b : closed c = b -> set_closed c b = c.
Proof using Type. intros <-. by destruct c. Qed.

Lemma send_body_open c o : wr_wf c -> closed c = false -> send_body c o = exec_send c o.
Proof using Type*.
  intros Hw Hc. pose proof (send_body_ok c o Hw) as Hs. unfold send_body in *.
  rewrite (set_closed_same c false Hc) in *. destruct (exec_send c o) as [c' e] eqn:E.
  assert (Hc' : closed c' = closed c).
  { destruct (exec_send_frame c o Hw Hc) as [F _]. rewrite E in F. apply F. }
  by rewrite set_closed_same.
Qed.

Lemma flush_body c : send_body c SFlush = Flush c.
Proof using Type*.
  unfold send_body, exec_send, Flush, flushLocked, w_len. simpl.
  destruct (_ =? 0); [by destruct c|].
  destruct (net_Write _ _) as [nc [n [e|]]]; destruct (0 <? n); by destruct c.
Qed.

Lemma send_closed c o : checks o = true -> closed c = true -> exec_send c o = (c, Some ErrConnClosed).
Proof using Type*.
  intros Ho Hc. destruct o; try done; cbn [exec_send];
    unfold WriteByte, WriteString, SendNAWS, SendTType, Write, SendCommand, SendSubnegotiation; by rewrite Hc.
Qed.

(** From the check of the flag on. *)
Lemma send_call_alone t o f fin ex c P rm rs :
  wr_wf c -> context t o f fin ex ->
  reach t (c, P, (rm, None), rs) (f SCheck)
    ((exec_send c o).1, P, (rm, None), rs ++ ex (exec_send c o).2) (fin (exec_send c o).2).
Proof using Type*.
  intros Hw Hcx. destruct (checks o && closed c) eqn:Ech.
  - apply andb_prop in Ech as [Ho Hc]. rewrite (send_closed c o Ho Hc).
    apply reach_step. intros w [= Ec EP Er Ew Ers].
    destruct (cx_end _ _ _ _ _ Hcx w SCheck w (Some ErrConnClosed)) as (w2 & E & Hv & ? & ? & ?).
    { cbn [send_step]. by rewrite Ec, Ho, Hc. }
    exists w2. split_and!; try done. rewrite Hv. simpl. congruence.
  - apply reach_trans with (v1 := (c, P, (rm, None), rs)) (p1 := f SLock).
    { apply reach_step. intros w [= Ec EP Er Ew Ers]. exists w. split_and!; try done; [|unfold view; congruence].
      apply (cx_step _ _ _ _ _ Hcx). cbn [send_step]. by rewrite Ec, Ech. }
    assert (E : send_body c o = exec_send c o).
    { apply andb_false_iff in Ech as [Ho|Hc]; [|by apply send_body_open].
      destruct o; try done. apply flush_body. }
    rewrite <- E. by apply send_alone.
Qed.

(** ** The tasks of a reader *)

Lemma push_alone t plen nr err e todo c P rm rs :
  reach t (c, P, (rm, None), rs) (ReadTasks plen nr err (TPush e :: todo))
    (pushEvent c e, P, (rm, None), rs) (ReadTasks plen nr err todo).
Proof using Type*.
  unfold pushEvent. destruct (closed c) eqn:Ec.
  { apply reach_step. intros w [= Ew]. exists w. split_and!; try done; [|unfold view; congruence].
    cbn [pc_step task_step]. by rewrite Ew, Ec. }
  destruct (events c) as [es|] eqn:Ee.
  2:{ apply reach_step. intros w [= Ew]. exists w. split_and!; try done; [|unfold view; congruence].
      cbn [pc_step task_step]. by rewrite Ew, Ec, Ee. }
  case_bool_decide as Hl.
  { apply reach_step. intros w [= Ew]. exists (set_conn w (set_events c (Some (es ++ [e])))).
    split_and!; try done; [|unfold view; simpl; congruence].
    cbn [pc_step task_step]. rewrite Ew, Ec, Ee. by rewrite bool_decide_true. }
  apply reach_trans with (v1 := (c, P, (rm, None), rs)) (p1 := ReadTasks plen nr err (TPushFull e :: todo)).
  { apply reach_step. intros w [= Ew]. exists w. split_and!; try done; [|unfold view; congruence].
    cbn [pc_step task_step]. rewrite Ew, Ec, Ee. by rewrite bool_decide_false. }
  apply reach_step. intros w [= Ew]. destruct es as [|e0 es].
  - exists w. split_and!; try done; [|unfold view; congruence]. cbn [pc_step task_step]. by rewrite Ew, Ee.
  - exists (set_conn w (set_events c (Some (es ++ [e])))). split_and!; try done; [|unfold view; simpl; congruence].
    cbn [pc_step task_step]. by rewrite Ew, Ee.
Qed.

Lemma reply_alone t plen nr err command opt todo c P rm rs :
  wr_wf c ->
  reach t (c, P, (rm, None), rs) (ReadTasks plen nr err (TReply SCheck command opt :: todo))
    ((SendCommand c command opt).1, P, (rm, None), rs) (ReadTasks plen nr err todo).
Proof using Type*.
  intros Hw. pose proof (send_call_alone t _ _ _ _ c P rm rs Hw
    (context_reply t plen nr err command opt todo)) as Hr.
  cbn [exec_send] in Hr. by rewrite app_nil_r in Hr.
Qed.

Lemma command_alone t plen nr err ce todo c P rm rs :
  wr_wf c ->
  reach t (c, P, (rm, None), rs) (ReadTasks plen nr err (TCommand ce :: todo))
    (process_command c ce, P, (rm, None), rs) (ReadTasks plen nr err todo).
Proof using Type*.
  intros Hw. unfold process_command. set (ev := MkEvent _ _ _ _).
  destruct (_ && _) eqn:E1; [|destruct (_ && negb (isOptionSupported _)) eqn:E2].
  - apply reach_trans with (v1 := (c, P, (rm, None), rs))
      (p1 := ReadTasks plen nr err (TReply SCheck CmdWont (ce_Option ce) :: TPush ev :: todo)).
    { apply reach_step. intros w [= Ew]. exists w. split_and!; try done; [|unfold view; congruence].
      cbn [pc_step task_step]. by rewrite Ew, E1. }
    eapply reach_trans; [by apply reply_alone|apply push_alone].
  - apply reach_trans with (v1 := (c, P, (rm, None), rs))
      (p1 := ReadTasks plen nr err (TReply SCheck CmdDont (ce_Option ce) :: TPush ev :: todo)).
    { apply reach_step. intros w [= Ew]. exists w. split_and!; try done; [|unfold view; congruence].
      cbn [pc_step task_step]. by rewrite Ew, E1, E2. }
    eapply reach_trans; [by apply reply_alone|apply push_alone].
  - destruct (Handle (negotiator c) (ce_Command ce) (ce_Option ce)) as [n [resp changed]] eqn:Eh.
    set (c1 := set_negotiator c n). set (c2 := if negb (resp =? 0) then _ else c1).
    set (rest := (if changed then [TNegotiated] else []) ++ TPush ev :: todo).
    apply reach_trans with (v1 := (c1, P, (rm, None), rs))
      (p1 := ReadTasks plen nr err ((if negb (resp =? 0) then [TReply SCheck resp (ce_Option ce)] else []) ++ rest)).
    { apply reach_step. intros w [= Ew]. exists (set_conn w c1). split_and!; try done; [|unfold view; simpl; congruence].
      cbn [pc_step task_step]. by rewrite Ew, E1, E2, Eh. }
    apply reach_trans with (v1 := (c2, P, (rm, None), rs)) (p1 := ReadTasks plen nr err rest).
    { unfold c2. destruct (negb (resp =? 0)); [by apply reply_alone|apply reach_refl]. }
    unfold rest. destruct changed; [|apply push_alone].
    eapply reach_trans; [|apply push_alone]. apply reach_step. intros w [= Ew].
    exists (set_conn w (set_stats c2 (stats_update (stats c2) 0 0 0 1 0))).
    split_and!; try done; [|unfold view; simpl; congruence]. cbn [app pc_step task_step]. by rewrite Ew.
Qed.

Lemma sn_alone t plen nr err sn todo c P rm rs :
  reach t (c, P, (rm, None), rs) (ReadTasks plen nr err (TSub sn :: todo))
    (process_sn c sn, P, (rm, None), rs) (ReadTasks plen nr err todo).
Proof using Type*.
  unfold process_sn. set (c1 := handleSubnegotiation _ _ _). eapply reach_trans; [|apply push_alone].
  apply reach_step. intros w [= Ew]. exists (set_conn w c1).
  split_and!; try done; [|unfold view; simpl; congruence]. cbn [pc_step task_step]. by rewrite Ew.
Qed.

Lemma process_command_wr c ce : wr_wf c -> wr_wf (process_command c ce).
Proof using Type*.
  intros Hw.
  assert (Hs : forall c k o, wr_wf c -> wr_wf (SendCommand c k o).1).
  { intros c0 k o Hw0. destruct (closed c0) eqn:Ec; [unfold SendCommand; by rewrite Ec|].
    by apply (exec_send_frame c0 (SCommand k o) Hw0 Ec). }
  assert (Hp : forall c e, wr_wf c -> wr_wf (pushEvent c e)).
  { intros c0 e Hw0. unfold pushEvent. destruct (closed c0); [done|].
    destruct (events c0) as [es|]; [|done]. case_bool_decide; [done|]. by destruct es. }
  unfold process_command. destruct (_ && _); [by apply Hp, Hs|]. destruct (_ && _); [by apply Hp, Hs|].
  destruct (Handle _ _ _) as [n [resp changed]]. apply Hp.
  destruct changed, (negb (resp =? 0)); simpl; try done; by apply Hs.
Qed.

Lemma tasks_alone t plen nr err ces sns P rm rs : forall c,
  wr_wf c ->
  reach t (c, P, (rm, None), rs) (ReadTasks plen nr err ((TCommand <$> ces) ++ (TSub <$> sns)))
    (foldl process_sn (foldl process_command c ces) sns, P, (rm, None), rs) (ReadTasks plen nr err []).
Proof using Type*.
  induction ces as [|ce ces IH]; intros c Hw; cbn [fmap list_fmap app foldl].
  - clear Hw. revert c. induction sns as [|sn sns IH]; intros c; cbn [fmap list_fmap foldl]; [apply reach_refl|].
    eapply reach_trans; [apply sn_alone|apply IH].
  - eapply reach_trans; [by apply command_alone|]. by apply IH, process_command_wr.
Qed.

(** ** Read *)

(** The run ends in a panic. *)
Definition crashes t v p : Prop :=
  forall w, view w = v -> get_pc w t = Some p -> panicked w = false ->
  exists ls w', Forall (fun l => actor l = Some t) ls /\ wrun w ls = Some w' /\ panicked w' = true.

Definition outcome t v p P rs (r : option (Conn N Ring * (bytes * option error))) : Prop :=
  match r with
  | Some (c', res) => reach t v p (c', P, (None, None), rs ++ [(t, DidRead res)]) Idle
  | None => crashes t v p
  end.

Lemma outcome_after t v p v1 p1 P rs r : reach t v p v1 p1 -> outcome t v1 p1 P rs r -> outcome t v p P rs r.
Proof using Type*.
  intros Ha Hb. destruct r as [[c' res]|]; [by eapply reach_trans|].
  intros w Hv Hp Hw. destruct (Ha w Hv Hp Hw) as (w1 & Hv1 & _ & Hp1 & Hw1 & _ & ls & Hls & E).
  destruct (Hb w1 Hv1 Hp1 Hw1) as (ks & w2 & Hks & E2 & Hw2). exists (ls ++ ks), w2.
  split; [by apply Forall_app|]. by rewrite wrun_app, E.
Qed.

Lemma unlock_alone t res c P rs :
  outcome t (c, P, (Some t, None), rs) (ReadUnlock res) P rs (Some (c, res)).
Proof using Type*.
  apply reach_step. intros w [= Ec EP Er Ew Ers]. exists (add_result (set_readMu w None) t (DidRead res)).
  split_and!; try done. unfold view. simpl. congruence.
Qed.

Lemma goto_unlock t p res c P rs :
  (forall w, conn w = c -> pc_step w t p = Some (set_pc w t (ReadUnlock res))) ->
  outcome t (c, P, (Some t, None), rs) p P rs (Some (c, res)).
Proof using Type*.
  intros Hs. eapply outcome_after; [|by apply unlock_alone].
  apply reach_step. intros w [= Ec EP Er Ew Ers]. exists w. split_and!; try done; [by apply Hs|unfold view; congruence].
Qed.

Lemma take_queued_alone t p plen c P rs :
  (forall w, conn w = c -> pc_step w t p = Some (take_queued w t plen)) ->
  outcome t (c, P, (Some t, None), rs) p P rs (read_queue c plen).
Proof using Type*.
  intros Hs. destruct (read_queue c plen) as [[c' res]|] eqn:E.
  - eapply outcome_after; [|by apply unlock_alone].
    apply reach_step. intros w [= Ec EP Er Ew Ers]. exists (set_conn w c').
    split_and!; try done; [|unfold view; simpl; congruence]. rewrite Hs by done. unfold take_queued. by rewrite Ec, E.
  - intros w [= Ec EP Er Ew Ers] Hp Hw. exists [Step t], (panic w). split_and!; [by repeat constructor| |done].
    apply wrun_one. unfold wstep. rewrite Hw, Hp. cbn [mbind option_bind]. rewrite Hs by done.
    unfold take_queued. by rewrite Ec, E.
Qed.

(** The rest of [readLocked]. *)
Definition read_rest c (plen nr : Z) (err : option error) : option (Conn N Ring * (bytes * option error)) :=
  match err with
  | Some e =>
      if 0 <? q_Len (readBuf c) then read_queue c plen
      else if errors_Is e EOF then Some (c, ([], Some EOF))
      else Some (c, ([], Some e))
  | None =>
      if nr =? 0 then Some (c, ([], None))
      else if 0 <? q_Len (readBuf c) then read_queue c plen
      else Some (c, ([], None))
  end.

Lemma finish_alone t plen nr err c P rs :
  outcome t (c, P, (Some t, None), rs) (ReadTasks plen nr err []) P rs (read_rest c plen nr err).
Proof using Type*.
  unfold read_rest. destruct err as [e|].
  - destruct (0 <? _) eqn:E1; [|destruct (errors_Is e EOF) eqn:E2];
      [apply take_queued_alone|apply goto_unlock..]; intros w Ec;
      cbn [pc_step]; unfold read_finish; by rewrite Ec, E1, ?E2.
  - destruct (nr =? 0) eqn:E1; [|destruct (0 <? _) eqn:E2];
      [apply goto_unlock|apply take_queued_alone|apply goto_unlock]; intros w Ec;
      cbn [pc_step]; unfold read_finish; rewrite Ec, E1; by rewrite ?E2.
Qed.

(** [net.Conn.Read] returns. *)
Lemma net_alone t plen c P rs v' p' :
  (forall w, view w = (c, P, (Some t, None), rs) -> exists w1,
     net_returns w t plen = set_pc w1 t p' /\ view w1 = v' /\
     (forall t', get_pc w1 t' = get_pc w t') /\ panicked w1 = panicked w /\ disp w1 = disp w) ->
  reach t (c, P, (Some t, None), rs) (ReadNet plen) v' p'.
Proof using Type*.
  intros Hs w Hv Hp Hw. destruct (Hs w Hv) as (w1 & E & Hv1 & Hpc & Hpa & Hd).
  exists (set_pc w1 t p'). split; [exact Hv1|].
  apply alone_step with (l := NetReturns t); try done; [|congruence]. unfold wstep. by rewrite Hw, Hp, E.
Qed.

Lemma Read_locked_alone t plen c P rs :
  wr_wf c -> outcome t (c, P, (Some t, None), rs) (ReadLocked plen) P rs (readLocked c plen).
Proof using Type*.
  intros Hw. unfold readLocked. destruct (0 <? q_Len (readBuf c)) eqn:El.
  { apply take_queued_alone. intros w Ec. cbn [pc_step]. by rewrite Ec, El. }
  apply outcome_after with (v1 := (c, P, (Some t, None), rs)) (p1 := ReadNet plen).
  { apply reach_step. intros w [= Ec EP Er Ew Ers]. exists w. split_and!; try done; [|unfold view; congruence].
    cbn [pc_step]. by rewrite Ec, El. }
  destruct (net_Read (netConn c) (sl_len (readScratch c))) as [nc [data err]] eqn:En.
  set (c1 := set_readScratch (set_netConn c nc) _). destruct (0 <? zlen data) eqn:Ed.
  - unfold processReadLocked. set (c2 := set_stats c1 _). destruct (Parse (parser c2) data (parseResult c2)) as [q r] eqn:Ep.
    destruct (process_data (set_parse c2 q r) data (DataEvents r)) as [c3|] eqn:E3; cbn [mbind option_bind].
    + eapply outcome_after.
      { apply net_alone with (p' := ReadTasks plen (zlen data) err ((TCommand <$> CommandEvents r) ++ (TSub <$> SNEvents r)))
          (v' := (c3, P, (Some t, None), rs)).
        intros w [= Ec EP Er Ew Ers]. exists (set_conn w c3). split_and!; try done; [|unfold view; simpl; congruence].
        unfold net_returns. rewrite Ec, En, Ed. fold c1 c2. by rewrite Ep, E3. }
      eapply outcome_after; [apply tasks_alone|apply finish_alone].
      unfold wr_wf. by rewrite (rd_writeBuf _ _ (process_data_reads _ _ _ _ E3)).
    + intros w [= Ec EP Er Ew Ers] Hp Hpa. exists [NetReturns t], (panic w).
      split_and!; [by repeat constructor| |done]. apply wrun_one. unfold wstep. rewrite Hpa, Hp.
      unfold net_returns. rewrite Ec, En, Ed. fold c1 c2. by rewrite Ep, E3.
  - cbn [mbind option_bind]. assert (E0 : zlen data = 0).
    { apply Z.ltb_ge in Ed. pose proof (zlen_nonneg data). lia. }
    rewrite E0. eapply outcome_after; [|apply finish_alone]. apply net_alone.
    intros w [= Ec EP Er Ew Ers]. exists (set_conn w c1). split_and!; try done; [|unfold view; simpl; congruence].
    unfold net_returns. rewrite Ec, En, Ed. by fold c1.
Qed.

Lemma Read_alone t plen c P rs :
  wr_wf c -> outcome t (c, P, (None, None), rs) (ReadEnter plen) P rs (TelnetConn.Read c plen).
Proof using Type*.
  intros Hw. unfold TelnetConn.Read. destruct (closed c) eqn:Ec.
  - apply reach_step. intros w [= Ew EP Er Ewr Ers]. exists (add_result w t (DidRead ([], Some ErrConnClosed))).
    split_and!; try done; [|unfold view; simpl; congruence]. cbn [pc_step]. by rewrite Ew, Ec.
  - apply outcome_after with (v1 := (c, P, (None, None), rs)) (p1 := ReadLock plen).
    { apply reach_step. intros w [= Ew EP Er Ewr Ers]. exists w. split_and!; try done; [|unfold view; congruence].
      cbn [pc_step]. by rewrite Ew, Ec. }
    eapply outcome_after; [|by apply Read_locked_alone].
    apply reach_step. intros w [= Ew EP Er Ewr Ers]. exists (set_readMu w (Some t)).
    split_and!; try done; [|unfold view; simpl; congruence]. cbn [pc_step]. unfold lock_read. by rewrite Er.
Qed.

(** ** Close *)

(** From the dispatcher's end on. *)
Lemma release_alone t c P rs :
  let '(q, P1) := RingBuf.Free (readBuf c) P in
  let '(b, P2) := StaticBuf.Free (writeBuf c) P1 in
  let '(nc, err) := net_Close (netConn c) in
  reach t (c, P, (None, None), rs) (Closing KReadLock)
    (set_netConn (set_writeBuf (set_readBuf c q) b) nc, putBuf P2 (readScratch c), (None, None),
     rs ++ [(t, DidClose err)]) Idle.
Proof using Type*.
  destruct (RingBuf.Free (readBuf c) P) as [q P1] eqn:E1.
  destruct (StaticBuf.Free (writeBuf c) P1) as [b P2] eqn:E2.
  destruct (net_Close (netConn c)) as [nc err] eqn:E3.
  set (c1 := set_readBuf c q). set (c2 := set_writeBuf c1 b).
  apply reach_trans with (v1 := (c, P, (Some t, None), rs)) (p1 := Closing KFreeRead).
  { apply reach_step. intros w [= Ec EP Er Ew Ers]. exists (set_readMu w (Some t)).
    split_and!; try done; [|unfold view; simpl; congruence]. cbn [pc_step close_step]. unfold lock_read. by rewrite Er. }
  apply reach_trans with (v1 := (c1, P1, (Some t, None), rs)) (p1 := Closing KReadUnlock).
  { apply reach_step. intros w [= Ec EP Er Ew Ers]. exists (set_pools (set_conn w c1) P1).
    split_and!; try done; [|unfold view; simpl; congruence]. cbn [pc_step close_step]. by rewrite Ec, EP, E1. }
  apply reach_trans with (v1 := (c1, P1, (None, None), rs)) (p1 := Closing KWriteLock).
  { apply reach_step. intros w [= Ec EP Er Ew Ers]. exists (set_readMu w None).
    split_and!; try done. unfold view; simpl; congruence. }
  apply reach_trans with (v1 := (c1, P1, (None, Some t), rs)) (p1 := Closing KFreeWrite).
  { apply reach_step. intros w [= Ec EP Er Ew Ers]. exists (set_writeMu w (Some t)).
    split_and!; try done; [|unfold view; simpl; congruence]. cbn [pc_step close_step]. unfold lock_write. by rewrite Ew. }
  apply reach_trans with (v1 := (c2, P2, (None, Some t), rs)) (p1 := Closing KWriteUnlock).
  { apply reach_step. intros w [= Ec EP Er Ew Ers]. exists (set_freed (set_pools (set_conn w c2) P2)).
    split_and!; try done; [|unfold view; simpl; congruence]. cbn [pc_step close_step]. rewrite Ec, EP. simpl. by rewrite E2. }
  apply reach_trans with (v1 := (c2, P2, (None, None), rs)) (p1 := Closing KPut).
  { apply reach_step. intros w [= Ec EP Er Ew Ers]. exists (set_writeMu w None).
    split_and!; try done. unfold view; simpl; congruence. }
  apply reach_trans with (v1 := (c2, putBuf P2 (readScratch c), (None, None), rs)) (p1 := Closing KNet).
  { apply reach_step. intros w [= Ec EP Er Ew Ers]. exists (set_pools w (putBuf P2 (readScratch c))).
    split_and!; try done; [|unfold view; simpl; congruence]. cbn [pc_step close_step]. by rewrite Ec, EP. }
  apply reach_step. intros w [= Ec EP Er Ew Ers].
  exists (add_result (set_conn w (set_netConn c2 nc)) t (DidClose err)).
  split_and!; try done; [|unfold view; simpl; congruence]. cbn [pc_step close_step]. rewrite Ec. simpl. by rewrite E3.
Qed.

(** Up to the end of its flush. *)
Lemma flush_alone t c P rs :
  closed c = false ->
  reach t (c, P, (None, None), rs) CloseEnter
    ((Flush (set_closed c true)).1, P, (None, None), rs) (Closing KDone).
Proof using Type*.
  intros Hc. apply reach_trans with (v1 := (set_closed c true, P, (None, None), rs)) (p1 := Closing (KFlush SLock)).
  - apply reach_step. intros w [= Ec EP Er Ew Ers]. exists (set_won (set_conn w (set_closed c true)) t).
    split_and!; try done; [|unfold view; simpl; congruence]. cbn [pc_step]. by rewrite Ec, Hc.
  - pose proof (send_alone t _ _ _ _ (set_closed c true) P None rs (context_flush t)) as Hs.
    rewrite flush_body in Hs. by rewrite app_nil_r in Hs.
Qed.

(** [t] alone, but for the dispatcher, which may stop. *)
Definition closes t w w' : Prop :=
  exists ls, Forall (fun l => actor l = Some t \/ l = DispatcherStops) ls /\ wrun w ls = Some w'.

Lemma alone_closes t w p w' p' : alone t w p w' p' -> closes t w w'.
Proof using Type*.
  intros (_ & _ & _ & _ & ls & Hls & E). exists ls. split; [|done].
  eapply Forall_impl; [exact Hls|]. by left.
Qed.

Lemma closes_trans t w w1 w2 : closes t w w1 -> closes t w1 w2 -> closes t w w2.
Proof using Type*.
  intros (ls & Hls & E) (ks & Hks & E2). exists (ls ++ ks).
  split; [by apply Forall_app|]. by rewrite wrun_app, E.
Qed.

(** Past the dispatcher. *)
Lemma wait_alone t w c P rs :
  view w = (c, P, (None, None), rs) -> get_pc w t = Some (Closing KDone) -> panicked w = false ->
  (eventDone c = None \/ (disp w = DSelect /\ t <> Dispatcher)) ->
  exists w', view w' = (stop_dispatcher c, P, (None, None), rs) /\ get_pc w' t = Some (Closing KReadLock) /\ panicked w' = false /\ closes t w w'.
Proof using Type*.
  intros [= Ec EP Er Ew Ers] Hp Hw Hd.
  unfold stop_dispatcher. destruct (eventDone c) as [b|] eqn:Ee.
  - destruct Hd as [|[Hd Ht]]; [done|]. destruct t as [|i]; [done|].
    set (w0 := set_conn w (set_eventDone c (Some true))). set (w1 := set_pc w0 (User i) (Closing KWait)).
    assert (Hp1 : get_pc w1 (User i) = Some (Closing KWait)).
    { unfold w1. rewrite (get_set_pc w0 (User i) (Closing KDone)) by done. by rewrite decide_True. }
    set (w2 := set_disp w1 DExited). set (w3 := set_pc w2 (User i) (Closing KReadLock)).
    exists w3. split; [unfold view; simpl; congruence|]. split.
    { unfold w3. rewrite (get_set_pc w2 (User i) (Closing KWait)) by exact Hp1. by rewrite decide_True. }
    split; [done|]. exists [Step (User i); DispatcherStops; Step (User i)].
    split; [by repeat constructor; first [left|right]|].
    assert (E1 : wstep w (Step (User i)) = Some w1).
    { unfold wstep. rewrite Hw, Hp. cbn [mbind option_bind pc_step close_step]. by rewrite Ec, Ee. }
    assert (E2 : wstep w1 DispatcherStops = Some w2).
    { unfold wstep, w1. simpl. by rewrite Hw, Hd. }
    assert (E3 : wstep w2 (Step (User i)) = Some w3).
    { unfold wstep. change (get_pc w2 (User i)) with (get_pc w1 (User i)). rewrite Hp1. simpl. by rewrite Hw. }
    cbn [wrun mbind option_bind]. rewrite E1. cbn [mbind option_bind]. rewrite E2. cbn [mbind option_bind]. by rewrite E3.
  - assert (Ha : alone t w (Closing KDone) (set_pc w t (Closing KReadLock)) (Closing KReadLock)).
    { apply alone_step with (l := Step t); try done.
      unfold wstep. rewrite Hw, Hp. cbn [mbind option_bind pc_step close_step]. by rewrite Ec, Ee. }
    eexists. split; [|split_and!; [apply Ha|apply Ha|by eapply alone_closes]]. unfold view; simpl; congruence.
Qed.

Lemma Close_alone t w c P rs :
  wr_wf c -> view w = (c, P, (None, None), rs) -> get_pc w t = Some CloseEnter -> panicked w = false ->
  (eventDone c = None \/ (disp w = DSelect /\ t <> Dispatcher)) ->
  let '(c', P', err) := TelnetConn.Close c P in
  exists w', closes t w w' /\ get_pc w' t = Some Idle /\
    view w' = (c', P', (None, None), rs ++ [(t, if closed c then DidNotClose else DidClose err)]).
Proof using Type*.
  intros Hc Hv Hp Hw Hd. unfold TelnetConn.Close. destruct (closed c) eqn:Ecl.
  { injection Hv as Ec EP Er Ew Ers. set (w1 := add_result w t DidNotClose).
    assert (Ha : alone t w CloseEnter (set_pc w1 t Idle) Idle).
    { apply alone_step with (l := Step t); try done.
      unfold wstep. rewrite Hw, Hp. cbn [mbind option_bind pc_step]. by rewrite Ec, Ecl. }
    eexists. split; [by eapply alone_closes|]. split; [apply Ha|]. unfold view. simpl. congruence. }
  destruct (flush_alone t c P rs Ecl w Hv Hp Hw) as (w1 & Hv1 & Ha1). assert (Ha := Ha1).
  destruct Ha as (_ & Hp1 & Hw1 & Hd1 & _). set (c1 := (Flush (set_closed c true)).1) in *.
  assert (Hev : eventDone c1 = eventDone c).
  { pose proof (flushLocked_ok (set_closed c true) Hc) as Hf. unfold c1, Flush.
    destruct (flushLocked _) as [c2 e]. destruct Hf as ([F _ _] & _). by destruct (fr_events _ _ F) as [_ Fd]. }
  destruct (wait_alone t w1 c1 P rs Hv1 Hp1 Hw1) as (w2 & Hv2 & Hp2 & Hw2 & Hc2).
  { rewrite Hev. destruct Hd as [Hd|[Hd Ht]]; [by left|right]. by rewrite Hd1. }
  rewrite stop_dispatcher_is in *. fold c1. set (c1' := set_eventDone c1 _) in *.
  pose proof (release_alone t c1' P rs) as Hr. revert Hr.
  destruct (RingBuf.Free (readBuf c1') P) as [q P1]. change (writeBuf (set_readBuf c1' q)) with (writeBuf c1').
  destruct (StaticBuf.Free (writeBuf c1') P1) as [b P2].
  change (netConn (set_writeBuf (set_readBuf c1' q) b)) with (netConn c1').
  destruct (net_Close (netConn c1')) as [nc err]. intros Hr.
  destruct (Hr w2) as (w3 & Hv3 & Ha3); [done..|].
  exists w3. split; [|split; [apply Ha3|done]].
  eapply closes_trans; [by eapply alone_closes|]. eapply closes_trans; [done|]. by eapply alone_closes.
Qed.
End Alone.
