(* ===== verification/ConnRaces.v ===== *)
(** * ConnRaces: what goroutines that share a connection may rely on.

    The properties of [ConnShared], on top of the invariants of [ConnSharedProps] and the
    runs of [ConnAlone], and what goes wrong between [Close] and a call under way. *)
From S2P Require Import Prelude Constants GoSlice Pool ByteQueue RingBuf StaticBuf TelnetParser Options.
From S2P Require Import ParserSpec Wire NetConn TelnetConn ConnWriter ConnReader ConnShared ConnSharedProps ConnAlone.

Section Races.
  Context {N : Type} `{NetConnLaws N} `{GrowPolicy}.
  Implicit Types (w : world N) (t : tid) (c : Conn N Ring).

(** [t] makes a call and only [t] moves (and the dispatcher, which may stop). *)
Definition calls t w (a : call) w' : Prop :=
  exists ls, Forall (fun l => actor l = Some t \/ l = DispatcherStops) ls /\
    wrun w (Call t a :: ls) = Some w'.

Lemma calls_after t w a w' :
  panicked w = false -> get_pc w t = Some Idle -> closes t (set_pc w t (enter a)) w' -> calls t w a w'.
Proof using Type.
  intros Hw Hp (ls & Hls & E). exists ls. split; [done|].
  cbn [wrun]. unfold wstep at 1. by rewrite Hw, Hp.
Qed.

Lemma entered w t a : get_pc w t = Some Idle -> get_pc (set_pc w t (enter a)) t = Some (enter a).
Proof using Type. intros Hp. rewrite (get_set_pc w t Idle) by done. by rewrite decide_True. Qed.

(** C27: a call that nothing disturbs is the operation of [TelnetConn]. While neither lock
    is held and the other goroutines stand still, a sending operation, a [Read] and a
    [Close] (once the dispatcher has stopped) run to their end, and they change the
    connection and the pools and return exactly as the transition of the sequential
    model says; where that one panics, the run panics. *)
Theorem undisturbed_calls w t :
  wr_wf (conn w) -> panicked w = false -> readMu w = None -> writeMu w = None ->
  get_pc w t = Some Idle ->
  (forall o, exists w', calls t w (CallSend o) w' /\ get_pc w' t = Some Idle /\
     view w' = ((exec_send (conn w) o).1, pools w, (None, None),
                results w ++ [(t, DidSend o (exec_send (conn w) o).2)])) /\
  (forall plen, exists w', calls t w (CallRead plen) w' /\
     match TelnetConn.Read (conn w) (Z.of_nat plen) with
     | Some (c', res) => get_pc w' t = Some Idle /\
         view w' = (c', pools w, (None, None), results w ++ [(t, DidRead res)])
     | None => panicked w' = true
     end) /\
  (eventDone (conn w) = None \/ (disp w = DSelect /\ t <> Dispatcher) ->
   exists w', calls t w CallClose w' /\ get_pc w' t = Some Idle /\
     let '(c', P', err) := TelnetConn.Close (conn w) (pools w) in
     view w' = (c', P', (None, None),
                results w ++ [(t, if closed (conn w) then DidNotClose else DidClose err)])).
Proof.
  intros Hc Hw Hr Hwm Hp.
  assert (Hv : forall a, view (set_pc w t (enter a)) = (conn w, pools w, (None, None), results w)).
  { intros a. unfold view. simpl. congruence. }
  split_and!.
  - intros o. destruct (send_call_alone t o _ _ _ (conn w) (pools w) None (results w) Hc (context_call t o)
      (set_pc w t (enter (CallSend o))) (Hv _) (entered _ _ _ Hp) Hw) as (w' & Hv' & Ha).
    exists w'. split; [|split; [apply Ha|exact Hv']]. by eapply calls_after, alone_closes.
  - intros plen. pose proof (Read_alone t (Z.of_nat plen) (conn w) (pools w) (results w) Hc) as Hr'.
    destruct (TelnetConn.Read _ _) as [[c' res]|].
    + destruct (Hr' (set_pc w t (enter (CallRead plen))) (Hv _) (entered _ _ _ Hp) Hw) as (w' & Hv' & Ha).
      exists w'. split; [|split; [apply Ha|exact Hv']]. by eapply calls_after, alone_closes.
    + destruct (Hr' (set_pc w t (enter (CallRead plen))) (Hv _) (entered _ _ _ Hp) Hw) as (ls & w' & Hls & E & Hpa).
      exists w'. split; [|done]. apply calls_after; [done..|]. exists ls. split; [|done].
      eapply Forall_impl; [exact Hls|]. by left.
  - intros Hd. pose proof (Close_alone t (set_pc w t CloseEnter) (conn w) (pools w) (results w) Hc (Hv CallClose)
      (entered w t CallClose Hp) Hw) as Hcl.
    destruct (TelnetConn.Close _ _) as [[c' P'] err]. destruct Hcl as (w' & Hs & Hi & Hv').
    { destruct Hd as [Hd|[Hd Ht]]; [by left|right]. split; [|done]. simpl. by destruct t. }
    exists w'. split; [by apply calls_after|]. done.
Qed.

(** C10: concurrent senders do not mix, as long as no send reports an error. In every
    reachable state the goroutine that owns a mutex is the one between its [Lock] and
    [Unlock], and no other is (so that what runs there is one step to the others). Let
    goroutines send, read (and so answer commands) and close on one connection in any
    schedule in which no sending operation that ran reported an error. Until [Close] frees
    the output buffer, the stream (network and buffer) is what it was followed by the wire
    forms of the sends, whole and in the order in which they held the lock, and every send
    that returned is among them. And always the network has everything sent, in this
    order, before any successful flush of the time before the buffer was freed. (A send that
    comes after it is lost, [late_WriteByte_is_lost]; after a failed flush bytes are sent
    twice, [Write_accounts_for_every_byte].) *)
Theorem sends_do_not_mix c P w :
  (forall n : N, net_sent (net_Close n).1 = net_sent n) ->
  wr_wf c -> 0 <= sl_len (readScratch c) -> reachable c P w -> Forall no_error (order w) ->
  lock_ok w (writeMu w) holds_write /\ lock_ok w (readMu w) holds_read /\
  (freed w = false -> out (conn w) = out c ++ wire (items_of (order w)) /\
     forall t o, (t, DidSend o None) ∈ results w -> (t, o, None) ∈ order w) /\
  (forall pre t post, order w = pre ++ (t, SFlush, None) :: post ->
     exists rest, net_sent (netConn (conn w)) = out c ++ wire (items_of pre) ++ rest).
Proof.
  intros Hcl Hc Hs Hr Hok. destruct (reachable_stream Hcl c P w Hc Hs Hr) as [_ Hst].
  destruct (Hst Hok) as [Ho Hf]. destruct (reachable_locks c P w Hr) as [_ Hlw Hlr].
  split_and!; [done|done| |done]. intros Hfr. split; [by apply Ho|].
  by apply (reachable_sent c P w Hr Hfr).
Qed.

(** C16: [Close] among other calls. Whatever the schedule: at most one call of [Close] goes
    past the flag, and at most one returns its result; by then it has flushed the output
    and freed the output buffer (so with [sends_do_not_mix] everything sent before was
    handed to the network). A run-time panic can only come from a [Read] that holds the
    lock after [Close] has freed the ring it reads. *)
Theorem Close_among_goroutines c P w :
  wr_wf c -> 0 <= sl_len (readScratch c) -> ring_wf (readBuf c) -> closed c = false ->
  reachable c P w ->
  (forall t k, get_pc w t = Some (Closing k) -> won w = Some t) /\
  (length (filter did_close (results w)) <= 1)%nat /\
  (forall t e, (t, DidClose e) ∈ results w ->
     won w = Some t /\ freed w = true /\ flushed_by w t /\ forall t' k, get_pc w t' <> Some (Closing k)) /\
  (panicked w = true -> rbuf (readBuf (conn w)) = nil_slice /\ closed (conn w) = true /\
     exists t p, get_pc w t = Some p /\ reading p = true).
Proof.
  intros Hc Hs Hr Ho Hre. destruct (reachable_safe c P w Hc Hs Hr Ho Hre) as [_ K [_ R]].
  split_and!; [|apply K|apply K|exact R]. intros t k Hp. by destruct (k_at w K t k Hp).
Qed.

(** C17: the locks cannot deadlock, but a handler can. In every reachable state where
    nothing panicked, whatever a goroutine inside a call waits for will come: following
    who holds the lock it needs, one arrives at a goroutine that can step, at the network,
    or at code of the event handler. The one exception is a handler that calls [Close] of
    its own connection: it waits for the dispatcher, which waits for the handler, and from
    then on, whatever happens, that [Close] never returns and frees nothing. *)
Theorem no_deadlock_but_by_handler c P w :
  wr_wf c -> 0 <= sl_len (readScratch c) -> ring_wf (readBuf c) -> closed c = false ->
  reachable c P w -> panicked w = false ->
  (~ self_closing w -> forall t p, get_pc w t = Some p -> p <> Idle -> served w t) /\
  (self_closing w -> forall ls w', wrun w ls = Some w' ->
     self_closing w' /\ freed w' = false /\ forall t e, (t, DidClose e) ∉ results w').
Proof.
  intros Hc Hs Hr Ho Hre Hw. pose proof (reachable_safe c P w Hc Hs Hr Ho Hre) as Hsafe. split.
  - intros Hn t p Hp Hi.
    assert (p = Closing KWait \/ p <> Closing KWait) as [->|Hk]
      by (destruct p as [| | | | | | | | |[]]; first [by left|by right]).
    + by apply close_served.
    + by eapply goroutine_served.
  - intros Hself ls w' E. destruct (self_closing_run ls w w' E Hsafe Hself) as [Hs' [h Hd]].
    assert (Hp : get_pc w' Dispatcher = Some (Closing KWait)) by (simpl; by rewrite Hd).
    destruct (k_at _ (sf_close _ Hs') _ _ Hp) as (_ & Hf & _). split; [by exists h|]. split; [done|].
    intros t e Hin. by destruct (k_done _ (sf_close _ Hs') t e Hin) as (_ & Hf' & _); rewrite Hf' in Hf.
Qed.
End Races.

(** ** Concrete runs *)

#[local] Existing Instance doubling.

(** Two goroutines and a dispatcher on a connection whose peer sends [DO ECHO] and text. *)
Definition race_conn : Conn ScriptConn Ring := net_conn [[255; 253; 1; 104; 105; 33]] 6 64 [].
Definition race_start : world ScriptConn := start race_conn empty_pools.

Definition steps t (n : nat) : list label := replicate n (Step t).

(** The first writes a text with a 255 while the second reads: its answer to the command
    comes between the two writes, not inside one. *)
Definition send_run : list label :=
  [Spawn; Spawn; Call (User 0) (CallSend (SWrite [65; 255; 66])); Call (User 1) (CallRead 2)] ++
  steps (User 1) 3 ++ [NetReturns (User 1)] ++ steps (User 0) 2 ++ steps (User 1) 2 ++
  steps (User 0) 2 ++ steps (User 1) 3 ++ [Call (User 0) (CallSend (SWriteByte 67))] ++
  steps (User 0) 4 ++ steps (User 1) 4 ++ [Call (User 0) (CallSend SFlush)] ++ steps (User 0) 4.

Lemma race_conn_ok :
  wr_wf race_conn /\ 0 <= sl_len (readScratch race_conn) /\ ring_wf (readBuf race_conn) /\
  closed race_conn = false.
Proof.
  destruct (net_conn_ok [[255; 253; 1; 104; 105; 33]] 6 64 []) as [Hw _ Hr _ _ _]; [lia|lia|by vm_compute|].
  split_and!; [exact Hw|simpl; lia|exact Hr|done].
Qed.

Definition run_end (ls : list label) : world ScriptConn := default race_start (wrun race_start ls).

Lemma run_end_reachable ls :
  match wrun race_start ls with Some _ => true | None => false end = true ->
  reachable race_conn empty_pools (run_end ls).
Proof.
  intros Hr. exists ls. unfold run_end, race_start in *. by destruct (wrun _ ls).
Qed.

Lemma script_Close_sent (n : ScriptConn) : net_sent (net_Close n).1 = net_sent n.
Proof. done. Qed.

Lemma sends_do_not_mix_witness :
  out (conn (run_end send_run)) =
    wire [IText [65; 255; 66]; ICommand CmdWill OptEcho; IText [67]] /\
  (User 0, SWriteByte 67, None) ∈ order (run_end send_run) /\
  exists rest, net_sent (netConn (conn (run_end send_run))) =
    wire [IText [65; 255; 66]; ICommand CmdWill OptEcho; IText [67]] ++ rest.
Proof.
  destruct race_conn_ok as (Hw & Hs & _).
  destruct (sends_do_not_mix race_conn empty_pools (run_end send_run) script_Close_sent Hw Hs
    (run_end_reachable send_run ltac:(by vm_compute)) ltac:(vm_compute; repeat constructor)) as (_ & _ & Ho & Hf).
  split_and!.
  - rewrite (proj1 (Ho ltac:(by vm_compute))). by vm_compute.
  - apply (proj2 (Ho ltac:(by vm_compute))). by_decide.
  - destruct (Hf [(User 0, SWrite [65; 255; 66], None); (User 1, SCommand CmdWill OptEcho, None);
                  (User 0, SWriteByte 67, None)] (User 0) [] ltac:(by vm_compute)) as [rest E].
    exists rest. etrans; [exact E|]. by vm_compute.
Defined.

(** One goroutine closes; the dispatcher stops when it is told to. *)
Definition close_calls (i : nat) : list label :=
  [Call (User i) CallClose] ++ steps (User i) 5 ++ [DispatcherStops] ++ steps (User i) 9.

Definition close_run : list label :=
  [Spawn; Spawn; Call (User 0) (CallSend (SWriteByte 65))] ++ steps (User 0) 4 ++
  [Call (User 0) CallClose; Step (User 0); Call (User 1) CallClose; Step (User 1)] ++
  steps (User 0) 4 ++ [DispatcherStops] ++ steps (User 0) 9.

Lemma Close_among_goroutines_witness :
  (User 0, DidClose None) ∈ results (run_end close_run) /\ won (run_end close_run) = Some (User 0) /\
  flushed_by (run_end close_run) (User 0).
Proof.
  destruct race_conn_ok as (Hw & Hs & Hr & Ho).
  destruct (Close_among_goroutines race_conn empty_pools (run_end close_run) Hw Hs Hr Ho
    (run_end_reachable close_run ltac:(by vm_compute))) as (_ & _ & Hd & _).
  assert (Hin : (User 0, DidClose None) ∈ results (run_end close_run)) by by_decide.
  destruct (Hd _ _ Hin) as (Hwon & _ & Hfl & _). by split_and!.
Defined.

(** A handler that closes its connection. *)
Definition handler_run : list label :=
  [Spawn; Call (User 0) (CallRead 2)] ++ steps (User 0) 3 ++ [NetReturns (User 0)] ++ steps (User 0) 8 ++
  [DispatcherReceives; Call Dispatcher CallClose] ++ steps Dispatcher 5.

(** A sender that waits for the lock while another holds it. *)
Definition wait_run : list label :=
  [Spawn; Spawn; Call (User 0) (CallSend (SWriteByte 65)); Call (User 1) (CallSend (SWriteByte 66))] ++
  steps (User 0) 2 ++ steps (User 1) 1.

Lemma no_deadlock_but_by_handler_witness :
  served (run_end wait_run) (User 1) /\
  forall ls w', wrun (run_end handler_run) ls = Some w' -> freed w' = false.
Proof.
  destruct race_conn_ok as (Hw & Hs & Hr & Ho). split.
  - apply (proj1 (no_deadlock_but_by_handler race_conn empty_pools (run_end wait_run) Hw Hs Hr Ho
      (run_end_reachable wait_run ltac:(by vm_compute)) ltac:(by vm_compute))) with (p := Sending SLock (SWriteByte 66)).
    + intros [h E]. vm_compute in E. done.
    + by vm_compute.
    + done.
  - assert (Hself : self_closing (run_end handler_run)) by (eexists; vm_compute; reflexivity).
    intros ls w' E. by destruct (proj2 (no_deadlock_but_by_handler race_conn empty_pools (run_end handler_run)
      Hw Hs Hr Ho (run_end_reachable handler_run ltac:(by vm_compute)) ltac:(by vm_compute)) Hself ls w' E) as (_ & ? & _).
Defined.

Lemma undisturbed_calls_witness :
  exists w', calls (User 0) (run_end [Spawn]) (CallRead 2) w' /\
    results w' = [(User 0, DidRead ([104; 105], None))].
Proof.
  destruct race_conn_ok as (Hw & _).
  destruct (undisturbed_calls (run_end [Spawn]) (User 0) Hw eq_refl eq_refl eq_refl eq_refl) as (_ & Hr & _).
  destruct (Hr 2%nat) as (w' & Hc & Hv). exists w'. split; [exact Hc|].
  assert (E : (fun x => x.2) <$> TelnetConn.Read (conn (run_end [Spawn])) (Z.of_nat 2) = Some ([104; 105], None))
    by by vm_compute.
  destruct (TelnetConn.Read _ _) as [[c' res]|]; [|done]. simpl in E. destruct Hv as [_ Hv].
  injection Hv as _ _ _ _ ->. by simplify_eq.
Defined.

(** ** What can go wrong *)

(** A [Read] that found the flag clear and waits for its turn while [Close] runs then
    reads the freed ring: with text still queued it panics. *)
Definition late_read_run : list label :=
  [Spawn; Spawn; Call (User 0) (CallRead 2)] ++ steps (User 0) 3 ++ [NetReturns (User 0)] ++
  steps (User 0) 9 ++ [Call (User 0) (CallRead 5); Step (User 0)] ++ close_calls 1 ++ steps (User 0) 2.

Lemma late_Read_panics :
  exists w, wrun race_start late_read_run = Some w /\ panicked w = true /\ (User 1, DidClose None) ∈ results w.
Proof. eexists. split; [by vm_compute|]. split; [done|by_decide]. Qed.

(** A [WriteByte] in the same place reports success, and its byte is never sent. *)
Definition late_write_run : list label :=
  [Spawn; Spawn; Call (User 0) (CallSend (SWriteByte 65)); Step (User 0)] ++ close_calls 1 ++ steps (User 0) 3.

Lemma late_WriteByte_is_lost :
  exists w, wrun race_start late_write_run = Some w /\
    results w = [(User 1, DidClose None); (User 0, DidSend (SWriteByte 65) None)] /\
    net_sent (netConn (conn w)) = [].
Proof. eexists. split; [by vm_compute|]. by split; vm_compute. Qed.
