(* ===== verification/ConnType.v ===== *)
(** * ConnType: every value of a connection stays in its machine type.

    Bytes, 16-bit sizes and 64-bit counters are integers in the model. Here is the
    soundness of that reading: no operation of an open connection panics, and whatever
    sequence of operations runs, every byte it stores, sends or hands out is a byte. *)
From S2P Require Import Prelude Constants GoSlice ByteQueue RingBuf StaticBuf TelnetParser ParserSpec ParserProps Wire.
From S2P Require Import Options NetConn TelnetConn ConnWriter ConnReader ConnLine.

(** ** Types *)

Definition is_u16 (z : Z) : Prop := 0 <= z < 2 ^ 16.
Definition is_u64 (z : Z) : Prop := 0 <= z < 2 ^ 64.

Record parser_typed (p : Parser) : Prop := {
  pt_arr : wf_bytes (sl_arr (sbuf (snBuf p)));
  pt_cmd : is_byte (cmd p);
  pt_opt : is_byte (snOption p)
}.

Definition command_typed (ce : CommandEvent) : Prop := is_byte (ce_Command ce) /\ is_byte (ce_Option ce).

Record result_typed (r : ParseResult) : Prop := {
  rt_cmds : Forall command_typed (CommandEvents r);
  rt_subs : Forall (fun sn => is_byte (se_Option sn)) (SNEvents r)
}.

Definition event_typed (e : event) : Prop := is_byte (ev_cmd e) /\ is_byte (ev_option e).

Definition stats_typed (s : ConnStats) : Prop :=
  is_u64 (BytesRead s) /\ is_u64 (BytesWritten s) /\ is_u64 (CommandsRecv s) /\ is_u64 (CommandsSent s) /\
  is_u64 (OptionsNegotiated s) /\ is_u64 (Subnegotiations s) /\ is_u64 (Errors s).

Lemma u64_typed z : is_u64 (u64 z).
Proof. unfold is_u64, u64. apply Z.mod_pos_bound. lia. Qed.

Lemma stats_update_typed s a b d e f : stats_typed s -> stats_typed (stats_update s a b d e f).
Proof. unfold stats_typed. intros (_ & _ & ? & _ & _ & _ & ?). simpl. split_and!; try done; apply u64_typed. Qed.

Lemma wf_bytes_app l k : wf_bytes (l ++ k) <-> wf_bytes l /\ wf_bytes k.
Proof. apply Forall_app. Qed.

(** ** The parser *)

Section ParserTypes.
  Context `{GrowPolicy}.

Lemma append_typed s p : wf_bytes (sl_arr s) -> wf_bytes p -> wf_bytes (sl_arr (sl_append s p)).
Proof using Type.
  intros Hs Hp. unfold sl_append, wf_bytes in *. cmp; simpl.
  - unfold write_at. rewrite !Forall_app. split_and!; [by apply Forall_take|done|by apply Forall_drop].
  - rewrite !Forall_app. split_and!; [by apply Forall_take|done|].
    apply Forall_replicate. unfold is_byte. lia.
Qed.

Lemma WriteByte_typed sb b :
  wf_bytes (sl_arr (sbuf sb)) -> is_byte b -> wf_bytes (sl_arr (sbuf (StaticBuf.WriteByte sb b).1)).
Proof using Type.
  intros Hs Hb. unfold StaticBuf.WriteByte. cmp; [done|]. apply append_typed; [done|by constructor].
Qed.

Lemma appendData_typed r w : result_typed r -> result_typed (appendData r w).
Proof using Type. intros [Hc Hs]. split; [by rewrite appendData_cmds|by rewrite appendData_subs]. Qed.

Lemma parse_byte_typed p r ds i b :
  parser_typed p -> result_typed r -> is_byte b ->
  let '(p', r', _) := parse_byte (p, r, ds) i b in parser_typed p' /\ result_typed r'.
Proof using Type.
  intros [Ha Hc Ho] Hr Hb. pose proof (fun w => appendData_typed r w Hr) as Hd.
  unfold parse_byte. destruct (state p); split_byte; (split; [split|]); simpl; try done; try apply Hd.
  - destruct Hr as [Hcs Hss]. unfold appendCommand. case_bool_decide; [|done].
    split; simpl; [|done]. apply Forall_app. split; [done|]. by constructor; [split|constructor].
  - by apply WriteByte_typed.
  - destruct Hr as [Hcs Hss]. unfold appendSubnegotiation. case_bool_decide; [|done].
    split; simpl; [done|]. apply Forall_app. split; [done|]. by constructor; [|constructor].
  - apply WriteByte_typed; [|done]. by apply WriteByte_typed.
Qed.

Lemma parse_loop_typed data : forall p r ds i,
  parser_typed p -> result_typed r -> wf_bytes data ->
  let '(p', r', _) := parse_loop (p, r, ds) i data in parser_typed p' /\ result_typed r'.
Proof using Type.
  induction data as [|b data IH]; intros p r ds i Hp Hr Hd; [done|].
  apply Forall_cons_1 in Hd as [Hb Hd]. cbn [parse_loop].
  pose proof (parse_byte_typed p r ds i b Hp Hr Hb) as Hs.
  destruct (parse_byte (p, r, ds) i b) as [[p1 r1] ds1]. destruct Hs. by apply IH.
Qed.

Lemma Parse_typed p data result :
  parser_typed p -> wf_bytes data ->
  let '(p', r) := Parse p data result in parser_typed p' /\ result_typed r.
Proof using Type.
  intros Hp Hd. unfold Parse. pose proof (parse_loop_typed data p (MkResult [] [] []) 0 0 Hp) as Hs.
  destruct (parse_loop (p, MkResult [] [] [], 0) 0 data) as [[p1 r1] ds1].
  destruct Hs as [Hp1 Hr1]; [by split; constructor|done|]. split; [done|].
  destruct (_ && _); [by apply appendData_typed|done].
Qed.
End ParserTypes.

(** ** The connection *)

Section ConnTypes.
  Context {N Q : Type} `{NetConnLaws N} `{GrowPolicy} `{ByteQueueLaws Q}.
  Implicit Type c : Conn N Q.

(** [out] is what was sent and what waits in the write buffer. *)
Record typed c : Prop := {
  ty_ok : conn_ok c;
  ty_parser : parser_typed (parser c);
  ty_out : wf_bytes (out c);
  ty_queue : wf_bytes (q_items (readBuf c));
  ty_events : match events c with Some es => Forall event_typed es | None => True end;
  ty_term : wf_bytes (TerminalType c) /\ is_u16 (termWidth c) /\ is_u16 (termHeight c);
  ty_stats : stats_typed (stats c)
}.

Lemma w_bytes_typed c : wf_bytes (out c) -> wf_bytes (w_bytes c).
Proof using Type. unfold out. by intros [_ Hw]%wf_bytes_app. Qed.

(** After an operation that only sends: also when it failed, what is sent and what
    remains are made of what was there and what was added. *)
Lemma sends_out c c' e l : wf_bytes (out c) -> wf_bytes l -> sends c c' e l -> wf_bytes (out c').
Proof using Type.
  intros Hc Hl [_ _ Ho]. assert (Ht : wf_bytes (out c ++ l)) by (by apply wf_bytes_app).
  destruct e; [|by rewrite Ho]. destruct Ho as (s & k & E & _ & Hs). rewrite <- E in Ht.
  apply wf_bytes_app in Ht as [Hs' Hw]. unfold out. rewrite Hs, !wf_bytes_app. by split_and!; [|apply Forall_take|].
Qed.

Lemma sends_typed c c' e l :
  typed c -> wf_bytes l -> stats_typed (stats c') -> sends c c' e l -> typed c'.
Proof using Type.
  intros [Hok Hp Ho Hq He Ht Hst] Hl Hst' Hs. pose proof (sends_out _ _ _ _ Ho Hl Hs) as Ho'.
  destruct Hs as [F W _]. pose proof F as [? Ep Er En Eq Esc [Eev _] Ecl ECR (Et1 & Et2 & Et3) ? ?].
  split; try done.
  - destruct Hok. split; try done; rewrite ?Ep, ?Eq, ?En, ?Esc, ?Eev; done.
  - by rewrite Ep.
  - by rewrite Eq.
  - by rewrite Eev.
  - unfold TerminalType. by rewrite Et1, Et2, Et3.
Qed.

(** *** The counters *)

Lemma flushLocked_stats c : stats_typed (stats c) -> stats_typed (stats (flushLocked c).1).
Proof using Type.
  intros Hs. unfold flushLocked. destruct (_ =? 0); [done|].
  destruct (net_Write _ _) as [nc [n [e|]]], (0 <? n); simpl; try done; by apply stats_update_typed.
Qed.

Lemma maybe_flush_stats (b : bool) c :
  stats_typed (stats c) -> stats_typed (stats (if b then flushLocked c else (c, None)).1).
Proof using Type. intros Hs. destruct b; [by apply flushLocked_stats|done]. Qed.

Lemma write_loop_stats p : forall c n, stats_typed (stats c) -> stats_typed (stats (write_loop c n p).1).
Proof using Type.
  induction p as [|b p IH]; intros c n Hs; [done|]. cbn [write_loop].
  pose proof (maybe_flush_stats (w_cap c <=? w_len c) c Hs) as Hf.
  destruct (if w_cap c <=? w_len c then _ else _) as [c1 [e|]]; [done|]. apply IH. by destruct (b =? CmdIAC).
Qed.

Lemma Write_stats c p : stats_typed (stats c) -> stats_typed (stats (Write c p).1).
Proof using Type.
  intros Hs. unfold Write. destruct (closed c); [done|]. destruct (_ && _); [done|]. by apply write_loop_stats.
Qed.

Lemma SendCommand_stats c k opt : stats_typed (stats c) -> stats_typed (stats (SendCommand c k opt).1).
Proof using Type.
  intros Hs. unfold SendCommand. destruct (closed c); [done|].
  pose proof (maybe_flush_stats (w_cap c <? w_len c + 3) c Hs) as Hf.
  destruct (if _ <? _ then _ else _) as [c1 [e|]]; [done|]. by apply stats_update_typed.
Qed.

Lemma SendSubnegotiation_stats c opt data :
  stats_typed (stats c) -> stats_typed (stats (SendSubnegotiation c opt data).1).
Proof using Type.
  intros Hs. unfold SendSubnegotiation. destruct (closed c); [done|].
  pose proof (maybe_flush_stats (w_cap c <? w_len c + sn_required data) c Hs) as Hf.
  destruct (if _ <? _ then _ else _) as [c1 [e|]]; [done|]. cbn [fst].
  assert (Hf' : forall l c2, stats c2 = stats c1 -> stats (foldl sn_append c2 l) = stats c1).
  { induction l as [|b l IH]; intros c2 E; [done|]. cbn [foldl]. apply IH. unfold sn_append. by destruct (b =? CmdIAC). }
  change (stats_typed (stats (foldl sn_append (w_append c1 [CmdIAC; CmdSB; opt]) data))). by rewrite Hf'.
Qed.

(** *** Sending *)

Definition send_typed (o : send_op) : Prop :=
  match o with
  | SWrite p | SWriteString p | STType p => wf_bytes p
  | SWriteByte b => is_byte b
  | SCommand k opt => is_byte k /\ is_byte opt
  | SSubnegotiation opt data => is_byte opt /\ wf_bytes data
  | SNAWS _ _ | SFlush => True
  end.

Lemma escape_typed l : wf_bytes l -> wf_bytes (escape l).
Proof using Type.
  induction 1 as [|b l Hb _ IH]; [constructor|]. rewrite escape_cons. apply wf_bytes_app. split; [|done].
  destruct (b =? CmdIAC); repeat constructor; done || apply Hb.
Qed.

Lemma Write_typed c p : typed c -> wf_bytes p -> typed (Write c p).1.
Proof using Type.
  intros Ht Hp. pose proof (Write_stats c p (ty_stats _ Ht)) as Hst.
  destruct (closed c) eqn:Ho; [unfold Write; by rewrite Ho|].
  pose proof (Write_ok c p (ok_wr _ (ty_ok _ Ht)) Ho) as Hw. destruct (Write c p) as [c' [n e]].
  destruct Hw as (Hs & _). eapply sends_typed; [done| |done|done]. by apply escape_typed, Forall_take.
Qed.

Lemma SendCommand_typed c k opt : typed c -> is_byte k -> is_byte opt -> typed (SendCommand c k opt).1.
Proof using Type.
  intros Ht Hk Hopt. pose proof (SendCommand_stats c k opt (ty_stats _ Ht)) as Hst.
  destruct (closed c) eqn:Ho; [unfold SendCommand; by rewrite Ho|].
  pose proof (SendCommand_ok c k opt (ok_wr _ (ty_ok _ Ht)) Ho) as Hw. destruct (SendCommand c k opt) as [c' e].
  eapply sends_typed; [done| |done|done].
  destruct e; [constructor|]. unfold wire_command. repeat (constructor; [done|]). constructor.
Qed.

Lemma SendSubnegotiation_typed c opt data :
  typed c -> is_byte opt -> wf_bytes data -> typed (SendSubnegotiation c opt data).1.
Proof using Type.
  intros Ht Hopt Hd. pose proof (SendSubnegotiation_stats c opt data (ty_stats _ Ht)) as Hst.
  destruct (closed c) eqn:Ho; [unfold SendSubnegotiation; by rewrite Ho|].
  pose proof (SendSubnegotiation_ok c opt data (ok_wr _ (ty_ok _ Ht)) Ho) as Hw.
  destruct (SendSubnegotiation c opt data) as [c' e]. eapply sends_typed; [done| |done|done].
  destruct e; [constructor|]. unfold wire_sub. cbn [app]. do 3 (constructor; [done|]).
  apply wf_bytes_app. split; [by apply escape_typed|]. repeat (constructor; [done|]). constructor.
Qed.

Lemma Flush_typed c : typed c -> typed (Flush c).1.
Proof using Type.
  intros Ht. pose proof (flushLocked_stats c (ty_stats _ Ht)) as Hst. unfold Flush.
  pose proof (flushLocked_ok c (ok_wr _ (ty_ok _ Ht))) as Hw. destruct (flushLocked c) as [c' e].
  destruct Hw as (Hs & _). by eapply sends_typed; [done|constructor|done|].
Qed.

Lemma u8_typed z : is_byte (u8 z).
Proof using Type. apply Z.mod_pos_bound. lia. Qed.

Lemma exec_send_typed c o : typed c -> send_typed o -> typed (exec_send c o).1.
Proof using Type.
  intros Ht Ho. destruct o as [p|b|s|k opt|opt data|w h|t|]; cbn [exec_send send_typed] in *.
  - pose proof (Write_typed c p Ht Ho) as Hw. by destruct (Write c p) as [c' [n e]].
  - pose proof (Write_typed c [b] Ht ltac:(by constructor)) as Hw. unfold WriteByte.
    by destruct (Write c [b]) as [c' [n e]].
  - pose proof (Write_typed c s Ht Ho) as Hw. unfold WriteString. by destruct (Write c s) as [c' [n e]].
  - apply SendCommand_typed; tauto.
  - apply SendSubnegotiation_typed; tauto.
  - apply SendSubnegotiation_typed; [done|done|]. repeat (constructor; [apply u8_typed|]). constructor.
  - apply SendSubnegotiation_typed; [done|done|]. by constructor.
  - by apply Flush_typed.
Qed.

(** *** Receiving *)

Lemma pushEvent_typed c e : typed c -> event_typed e -> typed (pushEvent c e).
Proof using Type*.
  intros [Hok Hp Ho Hq He Ht Hst] Hev. pose proof (kp_ok _ _ (pushEvent_keeps c e) Hok) as Hok'. revert Hok'.
  unfold pushEvent. destruct (closed c); [done|]. destruct (events c) as [es|] eqn:Ee; [|by split; rewrite ?Ee].
  case_bool_decide; [|destruct es as [|e0 es]]; intros Hok'; split; try done; simpl; rewrite ?Ee; try done.
  - apply Forall_app. split; [done|by constructor].
  - apply Forall_cons_1 in He as [_ He]. apply Forall_app. split; [done|by constructor].
Qed.

Lemma set_stats_typed c s : typed c -> stats_typed s -> typed (set_stats c s).
Proof using Type. intros [[] Hp Ho Hq He Ht Hst] Hs. by split. Qed.

Lemma Handle_response_typed n k opt : is_byte (Handle n k opt).2.1.
Proof using Type.
  unfold Handle. destruct (Get n opt) as [o|]; [|done].
  unfold handleWill, handleWont, handleDo, handleDont. by split_byte.
Qed.

Lemma process_command_typed c ce : typed c -> command_typed ce -> typed (process_command c ce).
Proof using Type*.
  intros Ht [Hcmd Hopt]. unfold process_command.
  assert (Hev : event_typed (MkEvent eventCommand (ce_Command ce) (ce_Option ce) 0)) by done.
  destruct (_ && _); [by apply pushEvent_typed, Hev; apply SendCommand_typed|].
  destruct (_ && _); [by apply pushEvent_typed, Hev; apply SendCommand_typed|].
  pose proof (Handle_wf (negotiator c) (ce_Command ce) (ce_Option ce) (ok_neg _ (ty_ok _ Ht)) Hopt) as Hn.
  pose proof (Handle_response_typed (negotiator c) (ce_Command ce) (ce_Option ce)) as Hr.
  destruct (Handle _ _ _) as [n [resp changed]].
  assert (Ht1 : typed (set_negotiator c n)) by (destruct Ht as [[] ? ? ? ? ? ?]; by split).
  set (c1 := set_negotiator c n) in *.
  assert (Ht2 : typed (if negb (resp =? 0) then (SendCommand c1 resp (ce_Option ce)).1 else c1)).
  { destruct (negb _); [|done]. apply SendCommand_typed; done. }
  apply pushEvent_typed; [|done]. destruct changed; [|done].
  apply set_stats_typed; [done|]. apply stats_update_typed, Ht2.
Qed.

Lemma log2_small z k : 0 <= z < 2 ^ k -> 0 < k -> Z.log2 z < k.
Proof using Type.
  intros Hz Hk. destruct (decide (z = 0)) as [->|]; [done|]. apply Z.log2_lt_pow2; lia.
Qed.

Lemma be16_typed hi lo : is_byte hi -> is_byte lo -> is_u16 (be16 hi lo).
Proof using Type.
  unfold is_byte, be16, is_u16, u16. intros Hh Hl. pose proof (Z.mod_pos_bound (Z.shiftl hi 8) (2 ^ 16)) as Hm.
  set (h := Z.shiftl hi 8 mod 2 ^ 16) in *. assert (0 <= Z.lor h lo) by (apply Z.lor_nonneg; lia).
  split; [done|]. destruct (decide (Z.lor h lo = 0)) as [->|]; [lia|].
  apply Z.log2_lt_pow2; [lia|]. rewrite Z.log2_lor by lia. apply Z.max_lub_lt; apply log2_small; lia.
Qed.

Lemma set_terminal_typed c t w h :
  typed c -> match t with Some l => wf_bytes l | None => True end -> is_u16 w -> is_u16 h ->
  typed (set_terminal c t w h).
Proof using Type.
  intros [[] Hp Ho Hq He Ht Hst] Hl Hw Hh. split; try done. split_and!; [|done..].
  unfold TerminalType. simpl. by destruct t; [|constructor].
Qed.

Lemma termType_typed c : typed c -> match termType c with Some l => wf_bytes l | None => True end.
Proof using Type. intros [_ _ _ _ _ (Ht & _) _]. unfold TerminalType in Ht. by destruct (termType c). Qed.

Lemma process_sn_typed c sn : typed c -> is_byte (se_Option sn) -> typed (process_sn c sn).
Proof using Type*.
  intros Hc Ho. unfold process_sn. set (data := take _ _).
  assert (Hd : wf_bytes data) by (apply Forall_take, Hc).
  assert (Hc1 : typed (set_stats c (stats_update (stats c) 0 0 0 0 1)))
    by (apply set_stats_typed; [done|]; apply stats_update_typed, Hc).
  set (c1 := set_stats c _) in *. apply pushEvent_typed; [|by split].
  unfold handleSubnegotiation. destruct (_ =? OptTerminalType); [|destruct (_ =? OptNAWS); [|done]].
  - destruct data as [|b data]; [done|]. destruct (_ && _); [|done].
    apply Forall_cons_1 in Hd as [_ Hd]. apply set_terminal_typed; [done|done|apply Hc1..].
  - destruct data as [|d0 [|d1 [|d2 [|d3 data]]]]; try done. unfold wf_bytes in Hd. rewrite !Forall_cons in Hd. destruct Hd as (? & ? & ? & ? & _).
    apply set_terminal_typed; [done|by apply termType_typed|by apply be16_typed..].
Qed.

Lemma foldl_typed {A} (f : Conn N Q -> A -> Conn N Q) (P : A -> Prop) l :
  (forall c a, typed c -> P a -> typed (f c a)) ->
  forall c, typed c -> Forall P l -> typed (foldl f c l).
Proof using Type.
  intros Hf. induction l as [|a l IH]; intros c Hc Hl; [done|].
  apply Forall_cons_1 in Hl as [Ha Hl]. cbn [foldl]. by apply IH; [apply Hf|].
Qed.

Lemma windows_typed data evs :
  wf_bytes data -> wf_bytes (concat ((fun e => win_bytes data (de_Data e)) <$> evs)).
Proof using Type.
  intros Hd. induction evs as [|e evs IH]; [constructor|]. cbn [fmap list_fmap concat]. apply wf_bytes_app.
  split; [|done]. by apply Forall_take, Forall_drop.
Qed.

Lemma processReadLocked_typed c data :
  typed c -> wf_bytes data -> exists c', processReadLocked c data = Some c' /\ typed c'.
Proof using Type*.
  intros Hc Hd. unfold processReadLocked.
  change (Parse (parser c) data (parseResult c)) with (Parse (parser c) data empty_result).
  pose proof (Parse_simulates (parser c) data empty_result (ok_parser _ (ty_ok _ Hc))) as Hs.
  pose proof (Parse_typed (parser c) data empty_result (ty_parser _ Hc) Hd) as Ht.
  destruct (Parse (parser c) data empty_result) as [p r]. destruct Ht as [Hp [Hrc Hrs]].
  destruct (decode _ _ _) as [d os]. destruct Hs as (Hwf & _ & _ & _ & _ & _ & Hev & _).
  assert (Hc1 : typed (set_parse c p r)) by (destruct Hc as [[] ? ? ? ? ? ?]; by split).
  destruct (process_data_ok _ data (DataEvents r) _ (ty_ok _ Hc1) Hev) as (q & -> & Hq & _ & Hit).
  cbn [mbind option_bind]. eexists. split; [done|].
  apply (foldl_typed process_sn (fun sn => is_byte (se_Option sn))); [apply process_sn_typed| |done].
  apply (foldl_typed process_command command_typed); [apply process_command_typed| |done].
  destruct Hc1 as [[] ? ? Hq0 ? ? ?]. split; try done. simpl. rewrite Hit.
  apply Forall_take, wf_bytes_app. split; [exact Hq0|by apply windows_typed].
Qed.

Lemma set_readBuf_typed c q : typed c -> q_ok q -> wf_bytes (q_items q) -> typed (set_readBuf c q).
Proof using Type. intros [[] ? ? ? ? ? ?] Hq Hb. by split. Qed.

Lemma read_queue_typed c plen :
  typed c -> 0 <= plen ->
  exists c' bs e, read_queue c plen = Some (c', (bs, e)) /\ typed c' /\ wf_bytes bs.
Proof using Type*.
  intros Hc Hp. unfold read_queue.
  destruct (q_Read_ok (readBuf c) plen (ok_queue _ (ty_ok _ Hc)) Hp) as (q & Hq & _ & Hit & ->).
  cbn [mbind option_bind]. pose proof (spec_Read_split (q_items (readBuf c)) plen) as Hsp.
  destruct (spec_Read _ _) as [items [bs e]]. cbn [fst snd] in *.
  pose proof (ty_queue _ Hc) as Hb. rewrite <- Hsp in Hb. apply wf_bytes_app in Hb as [Hb1 Hb2].
  eexists _, bs, e. split; [done|]. split; [|done]. apply set_readBuf_typed; [done|done|by rewrite Hit].
Qed.

Lemma readLocked_typed c plen :
  typed c -> 0 <= plen ->
  exists c' bs e, readLocked c plen = Some (c', (bs, e)) /\ typed c' /\ wf_bytes bs.
Proof using Type*.
  intros Hc Hp. unfold readLocked. destruct (0 <? q_Len (readBuf c)); [by apply read_queue_typed|].
  pose proof (net_Read_ok (netConn c) (sl_len (readScratch c)) (proj1 (ok_scratch _ (ty_ok _ Hc)))) as Hr.
  destruct (net_Read _ _) as [nc [data err]]. destruct Hr as (Hl & Hwf & Hin & Hsent).
  set (c1 := set_readScratch _ _).
  assert (Hc1 : typed c1).
  { destruct Hc as [Hok ? Ho ? ? ? ?]. unfold c1. split; try done.
    - destruct Hok. split; try done. unfold sl_wf, sl_cap in *. simpl. unfold zlen at 1.
      rewrite length_write_at by (unfold zlen in *; lia). done.
    - unfold out. simpl. by rewrite Hsent. }
  assert (exists c2, (if 0 <? zlen data then
      processReadLocked (set_stats c1 (stats_update (stats c) (zlen data) 0 0 0 0)) data else Some c1) = Some c2 /\
    typed c2) as (c2 & E & Hc2).
  { destruct (0 <? zlen data); [|by exists c1]. apply processReadLocked_typed; [|done].
    apply set_stats_typed; [done|]. apply stats_update_typed, Hc. }
  match goal with |- context [mbind _ ?X] => replace X with (Some c2) by (symmetry; exact E) end.
  cbn [mbind option_bind]. pose proof (read_queue_typed c2 plen Hc2 Hp) as Hq.
  assert (Hnil : forall e : option error, exists c' bs e', Some (c2, ([] : bytes, e)) = Some (c', (bs, e')) /\ typed c' /\ wf_bytes bs)
    by (intros e; eexists _, _, _; split_and!; [done|done|constructor]).
  destruct err as [e|]; [|destruct (zlen data =? 0); [apply Hnil|]];
    (destruct (0 <? q_Len (readBuf c2)); [exact Hq|]); [|apply Hnil]. destruct (errors_Is e EOF); apply Hnil.
Qed.

Lemma Read_typed c plen :
  typed c -> 0 <= plen ->
  exists c' bs e, Read c plen = Some (c', (bs, e)) /\ typed c' /\ wf_bytes bs.
Proof using Type*.
  intros Hc Hp. unfold Read. destruct (closed c); [|by apply readLocked_typed].
  eexists _, _, _. split_and!; [done|done|constructor].
Qed.

Lemma set_readLineCR_typed c b : typed c -> typed (set_readLineCR c b).
Proof using Type. intros [[] ? ? ? ? ? ?]. by split. Qed.

Definition outcome_typed (r : line_outcome) : Prop :=
  match r with
  | LineDone c l _ | LineRunning c l => typed c /\ wf_bytes l
  | LinePanic => False
  end.

Lemma ReadLine_iter_typed c line :
  typed c -> wf_bytes line ->
  exists c' r, ReadLine_iter c line = Some (c', r) /\ typed c' /\
    match r with inl l => wf_bytes l | inr (l, _) => wf_bytes l end.
Proof using Type*.
  intros Hc Hl. unfold ReadLine_iter.
  destruct (readLocked_typed c 1024 Hc ltac:(lia)) as (c1 & bs & e & -> & Hc1 & Hbs). cbn [mbind option_bind].
  destruct (find_lf bs) as [i|].
  - destruct (if _ && bool_decide _ then _ else _) as [end_ line'] eqn:E.
    assert (Hl' : wf_bytes (line' ++ take end_ bs)).
    { apply wf_bytes_app. split; [|by apply Forall_take]. revert E. destruct (_ && bool_decide (_ = Some 13)); [by intros [= <- <-]|].
      destruct (_ && readLineCR c1); [|by intros [= <- <-]].
      destruct (0 <? zlen line); intros [= <- <-]; [by apply Forall_take|done]. }
    destruct (Z.of_nat i + 1 <? zlen bs); cbn [mbind option_bind].
    + destruct (q_Write_ok (readBuf c1) (drop (i + 1) bs) (ok_queue _ (ty_ok _ Hc1))) as (q & Hq & _ & Hit & ->).
      cbn [mbind option_bind]. destruct (spec_Write _ _ _) as [items w] eqn:Es. cbn [snd].
      eexists _, _. split; [done|]. split; [|done]. apply set_readLineCR_typed, set_readBuf_typed; [done|done|].
      rewrite Hit. cbn [fst]. pose proof (spec_Write_items _ _ (drop (i + 1) bs) (q_bound _ (ok_queue _ (ty_ok _ Hc1)))) as Hi.
      rewrite Es in Hi. cbn [fst] in Hi. rewrite Hi. apply Forall_take, wf_bytes_app.
      split; [apply Hc1|by apply Forall_drop].
    + eexists _, _. split; [done|]. by split; [apply set_readLineCR_typed|].
  - destruct (0 <? zlen bs), e as [e|]; eexists _, _; (split; [done|]); split;
      try (by apply set_readLineCR_typed); rewrite ?wf_bytes_app; done.
Qed.

Lemma ReadLine_typed fuel c : typed c -> outcome_typed (ReadLine fuel c).
Proof using Type*.
  unfold ReadLine. intros Hc. assert (Hl : wf_bytes []) by constructor. revert c Hc Hl.
  generalize (@nil Z). induction fuel as [|fuel IH]; intros line c Hc Hl; [done|]. cbn [ReadLine_loop].
  destruct (ReadLine_iter_typed c line Hc Hl) as (c' & r & -> & Hc' & Hr).
  destruct r as [l|[l e]]; [by apply IH|done].
Qed.

(** *** The event loop *)

Definition call_typed (h : handler_call) : Prop :=
  match h with
  | OnData data => wf_bytes data
  | OnCommand k opt => is_byte k /\ is_byte opt
  | OnSubnegotiation opt data => is_byte opt /\ wf_bytes data
  | OnError msg => wf_bytes msg
  end.

Lemma dispatch_typed c :
  typed c -> match dispatch c with Some (c', h) => typed c' /\ call_typed h | None => True end.
Proof using Type.
  intros [Hok Hp Ho Hq He Ht Hst]. unfold dispatch. destruct (events c) as [[|e es]|] eqn:Ee; try done.
  apply Forall_cons_1 in He as [[Hk Hopt] He]. assert (Hd : forall n, wf_bytes (take n (sl_arr (sbuf (snBuf (parser c))))))
    by (intros n; apply Forall_take, Hp). split.
  - destruct Hok as [? ? ? ? ? Hlen]. split; try done. split; try done. simpl. rewrite Ee in Hlen. simpl in Hlen. lia.
  - by destruct (ev_typ e); simpl.
Qed.
End ConnTypes.

(** ** Sequences of operations *)

(** The operations of a connection's users and of its dispatcher. *)
Inductive conn_op := ORead (plen : Z) | OReadLine (fuel : nat) | OSend (o : send_op) | ODispatch.

Inductive conn_out :=
  | RBytes (bs : list Z) (e : option error)
  | RLine (line : list Z) (e : option error)
  | RRunning
  | RSent (e : option error)
  | RCall (h : option handler_call).

Section Run.
  Context {N Q : Type} `{NetConnLaws N} `{GrowPolicy} `{ByteQueueLaws Q}.
  Implicit Type c : Conn N Q.

(** [None] is a panic. A line that takes more iterations is left to the next call. *)
Definition exec c (op : conn_op) : option (Conn N Q * conn_out) :=
  match op with
  | ORead plen => '(c, (bs, e)) ← Read c plen; Some (c, RBytes bs e)
  | OReadLine fuel =>
      match ReadLine fuel c with
      | LineDone c line e => Some (c, RLine line e)
      | LineRunning c _ => Some (c, RRunning)
      | LinePanic => None
      end
  | OSend o => let '(c, e) := exec_send c o in Some (c, RSent e)
  | ODispatch =>
      match dispatch c with Some (c, h) => Some (c, RCall (Some h)) | None => Some (c, RCall None) end
  end.

Fixpoint execs c (ops : list conn_op) : option (Conn N Q * list conn_out) :=
  match ops with
  | [] => Some (c, [])
  | op :: ops' => '(c, r) ← exec c op; '(c, rs) ← execs c ops'; Some (c, r :: rs)
  end.

Definition op_typed (op : conn_op) : Prop :=
  match op with ORead plen => 0 <= plen | OSend o => send_typed o | OReadLine _ | ODispatch => True end.

Definition out_typed (r : conn_out) : Prop :=
  match r with
  | RBytes bs _ | RLine bs _ => wf_bytes bs
  | RCall (Some h) => call_typed h
  | _ => True
  end.

Lemma exec_typed c op :
  typed c -> op_typed op -> exists c' r, exec c op = Some (c', r) /\ typed c' /\ out_typed r.
Proof using Type*.
  intros Hc Ho. destruct op as [plen|fuel|o|]; cbn [exec op_typed] in *.
  - destruct (Read_typed c plen Hc Ho) as (c' & bs & e & -> & Hc' & Hb). by eexists _, _.
  - pose proof (ReadLine_typed fuel c Hc) as Hl.
    destruct (ReadLine fuel c); [destruct Hl; by eexists _, _|done|destruct Hl; by eexists _, _].
  - pose proof (exec_send_typed c o Hc Ho) as Hs. destruct (exec_send c o) as [c' e]. by eexists _, _.
  - pose proof (dispatch_typed c Hc) as Hd.
    destruct (dispatch c) as [[c' h]|]; [destruct Hd|]; by eexists _, _.
Qed.

(** C11: Every operation keeps the connection well typed. From a connection in a good
    state whose values are in their ranges, any sequence of reads, line reads, sends
    with byte arguments and dispatcher steps runs without a panic, the connection stays
    in a good state with every stored byte, size and counter in its range, every
    byte put on the stream is a byte, and so is every byte handed to the reader and to
    the event handler. *)
Theorem operations_are_well_typed c ops :
  typed c -> Forall op_typed ops ->
  exists c' rs, execs c ops = Some (c', rs) /\ typed c' /\ Forall out_typed rs.
Proof using Type*.
  intros Hc Hops. revert c Hc. induction Hops as [|op ops Hop _ IH]; intros c Hc; cbn [execs].
  { by eexists _, _; split_and!; [..|constructor]. }
  destruct (exec_typed c op Hc Hop) as (c1 & r & -> & Hc1 & Hr). cbn [mbind option_bind].
  destruct (IH c1 Hc1) as (c2 & rs & -> & Hc2 & Hrs). eexists _, _. split; [done|]. by split; [|constructor].
Qed.
End Run.

#[local] Existing Instance doubling.

Definition typed_conn : Conn ScriptConn Ring := net_conn [[255; 251; 1; 104; 105; 13]; [10; 255]] 6 64 [].
Definition typed_ops : list conn_op :=
  [OReadLine 5; OSend (SWrite [255; 33]); ODispatch; ORead 10; OSend SFlush].

Lemma typed_conn_typed : typed typed_conn.
Proof.
  split; [by apply net_conn_ok|..]; try (split_and!; by_decide); try done; try by_decide.
  split; by_decide.
Qed.

Lemma operations_are_well_typed_witness :
  exists c' rs, execs typed_conn typed_ops = Some (c', rs) /\ typed c' /\ head rs = Some (RLine [104; 105] None).
Proof.
  destruct (operations_are_well_typed typed_conn typed_ops typed_conn_typed) as (c' & rs & E & Hc & _).
  { repeat constructor; done || by_decide. }
  exists c', rs. split; [exact E|]. split; [exact Hc|]. vm_compute in E. by simplify_eq.
Defined.
