(* ===== verification/Msdp.v ===== *)
(** * Msdp: the MUD Server Data Protocol of [mud.go].

    A Go map is an association list with distinct keys. The order in which [range]
    visits a map is unspecified in Go; here it is the order of the list, so that the
    theorems, which hold for every list, hold for every order. The parser recurses on
    the rest of its input and may not terminate: it takes fuel, and [None] says that
    the fuel ran out. *)
From S2P Require Import Prelude Constants.
#[local] Set Warnings "-register-all".

(** The struct with all its fields; pointers to it are not nil. *)
Inductive MSDPValue :=
  MkMSDP (String : list Z) (Table : list (list Z * MSDPValue)) (Array : list MSDPValue)
         (IsTable IsArray : bool).

Definition MSDPString (s : bytes) : MSDPValue := MkMSDP s [] [] false false.
Definition MSDPTable (t : list (bytes * MSDPValue)) : MSDPValue := MkMSDP [] t [] true false.
Definition MSDPArray (a : list MSDPValue) : MSDPValue := MkMSDP [] [] a false true.

(** ** Serialization *)

Fixpoint writeMSDPValue (v : MSDPValue) : bytes :=
  match v with
  | MkMSDP s t a is_table is_array =>
      if is_table then
        MSDPTableOpen ::
        (fix entries (t : list (list Z * MSDPValue)) : list Z :=
           match t with
           | [] => []
           | (k, val) :: t' => MSDPVar :: k ++ writeMSDPValue val ++ entries t'
           end) t ++ [MSDPTableClose]
      else if is_array then
        MSDPArrayOpen ::
        (fix elements (a : list MSDPValue) : list Z :=
           match a with [] => [] | val :: a' => writeMSDPValue val ++ elements a' end) a
        ++ [MSDPArrayClose]
      else MSDPVal :: s
  end.

Fixpoint MarshalMSDP (data : list (bytes * MSDPValue)) : bytes :=
  match data with
  | [] => []
  | (k, v) :: data' => MSDPVar :: k ++ writeMSDPValue v ++ MarshalMSDP data'
  end.

(** ** Parsing *)

(** [m[k] = v] *)
Fixpoint map_put (k : bytes) (v : MSDPValue) (m : list (bytes * MSDPValue))
    : list (bytes * MSDPValue) :=
  match m with
  | [] => [(k, v)]
  | (k', v') :: m' => if bool_decide (k' = k) then (k, v) :: m' else (k', v') :: map_put k v m'
  end.

(** The bytes up to the first one that satisfies [stop]: the loops that advance [i]. *)
Fixpoint scan (stop : byte -> bool) (data : bytes) : bytes :=
  match data with
  | [] => []
  | b :: data' => if stop b then [] else b :: scan stop data'
  end.

(** The bytes that end a key, and those that end a string. *)
Definition key_stop (b : byte) : bool :=
  (b =? MSDPVal) || (b =? MSDPTableOpen) || (b =? MSDPArrayOpen).
Definition val_stop (b : byte) : bool :=
  (b =? MSDPVar) || (b =? MSDPVal) || (b =? MSDPTableClose) || (b =? MSDPArrayClose).

(** [i < len(data) && data[i] != close] *)
Definition inside (close : byte) (data : bytes) (i : nat) : bool :=
  match data !! i with Some b => negb (b =? close) | None => false end.

(** [Some None] is the result [nil, -1]. *)
Fixpoint parseMSDPValue (fuel : nat) (data : bytes) : option (option (MSDPValue * nat)) :=
  match fuel with
  | O => None
  | S fuel' =>
      match data with
      | [] => Some (Some (MSDPString [], 0%nat))
      | b :: data' =>
          if b =? MSDPVal then
            let s := scan val_stop data' in Some (Some (MSDPString s, (1 + length s)%nat))
          else if b =? MSDPTableOpen then parse_table fuel' data 1 []
          else if b =? MSDPArrayOpen then parse_array fuel' data 1 []
          else let s := scan val_stop data in Some (Some (MSDPString s, length s))
      end
  end
with parse_table (fuel : nat) (data : bytes) (i : nat) (table : list (bytes * MSDPValue))
    : option (option (MSDPValue * nat)) :=
  match fuel with
  | O => None
  | S fuel' =>
      if inside MSDPTableClose data i then
        if negb (bool_decide (data !! i = Some MSDPVar)) then Some None
        else
          let key := scan key_stop (drop (i + 1) data) in
          let i := (i + 1 + length key)%nat in
          match parseMSDPValue fuel' (drop i data) with
          | None => None
          | Some None => Some None
          | Some (Some (val, n)) => parse_table fuel' data (i + n)%nat (map_put key val table)
          end
      else if bool_decide (data !! i = Some MSDPTableClose)
      then Some (Some (MSDPTable table, (i + 1)%nat)) else Some None
  end
with parse_array (fuel : nat) (data : bytes) (i : nat) (array : list MSDPValue)
    : option (option (MSDPValue * nat)) :=
  match fuel with
  | O => None
  | S fuel' =>
      if inside MSDPArrayClose data i then
        match parseMSDPValue fuel' (drop i data) with
        | None => None
        | Some None => Some None
        | Some (Some (val, n)) => parse_array fuel' data (i + n)%nat (array ++ [val])
        end
      else if bool_decide (data !! i = Some MSDPArrayClose)
      then Some (Some (MSDPArray array, (i + 1)%nat)) else Some None
  end.

(** The map, or the error with the position or the key it names. *)
Inductive unmarshal_result :=
  | Parsed (result : list (list Z * MSDPValue))
  | ExpectedVar (position : nat)
  | BadValue (key : list Z).

Fixpoint unmarshal_loop (fuel : nat) (data : bytes) (i : nat) (result : list (bytes * MSDPValue))
    : option unmarshal_result :=
  match fuel with
  | O => None
  | S fuel' =>
      if bool_decide (i < length data)%nat then
        if negb (bool_decide (data !! i = Some MSDPVar)) then Some (ExpectedVar i)
        else
          let key := scan key_stop (drop (i + 1) data) in
          let i := (i + 1 + length key)%nat in
          match parseMSDPValue fuel' (drop i data) with
          | None => None
          | Some None => Some (BadValue key)
          | Some (Some (val, n)) => unmarshal_loop fuel' data (i + n)%nat (map_put key val result)
          end
      else Some (Parsed result)
  end.

Definition UnmarshalMSDP (fuel : nat) (data : bytes) : option unmarshal_result :=
  unmarshal_loop fuel data 0 [].

(** ** Data that the wire format can carry *)

Definition key_ok (k : bytes) : Prop := Forall (fun b => key_stop b = false) k.
Definition str_ok (s : bytes) : Prop := Forall (fun b => val_stop b = false) s.

(** A string is ended by the next structural byte, so inside an array it may not be
    followed by a table or an array. *)
Definition is_string (v : MSDPValue) : bool := let 'MkMSDP _ _ _ t a := v in negb t && negb a.

Fixpoint array_follow (a : list MSDPValue) : bool :=
  match a with
  | v :: (w :: _) as a' => (negb (is_string v) || is_string w) && array_follow a'
  | _ => true
  end.

Inductive msdp_ok : MSDPValue -> Prop :=
  | ok_string s : str_ok s -> msdp_ok (MSDPString s)
  | ok_table t : Forall key_ok t.*1 -> NoDup t.*1 -> Forall (fun kv => msdp_ok kv.2) t ->
      msdp_ok (MSDPTable t)
  | ok_array a : array_follow a = true -> Forall msdp_ok a -> msdp_ok (MSDPArray a).

(** The recursion depth of the parser on the wire form of a value, generously. *)
Fixpoint msdp_size (v : MSDPValue) : nat :=
  let 'MkMSDP _ t a _ _ := v in
  (2 + (fix go (t : list (list Z * MSDPValue)) : nat :=
          match t with [] => 0 | (_, v) :: t' => 1 + msdp_size v + go t' end) t
     + (fix go (a : list MSDPValue) : nat :=
          match a with [] => 0 | v :: a' => 1 + msdp_size v + go a' end) a)%nat.

Definition entries_size (t : list (bytes * MSDPValue)) : nat :=
  sum_list_with (fun kv => 1 + msdp_size kv.2)%nat t.
Definition elements_size (a : list MSDPValue) : nat := sum_list_with (fun v => 1 + msdp_size v)%nat a.
Definition elements (a : list MSDPValue) : bytes := a ≫= writeMSDPValue.

(** ** Lemmas *)

Lemma write_table t : writeMSDPValue (MSDPTable t) = MSDPTableOpen :: MarshalMSDP t ++ [MSDPTableClose].
Proof. done. Qed.

Lemma write_array a : writeMSDPValue (MSDPArray a) = MSDPArrayOpen :: elements a ++ [MSDPArrayClose].
Proof. done. Qed.

Lemma size_table t : msdp_size (MSDPTable t) = (2 + entries_size t)%nat.
Proof.
  unfold MSDPTable. cbn [msdp_size]. rewrite Nat.add_0_r.
  assert (E : forall t, (fix go (t : list (list Z * MSDPValue)) : nat :=
    match t with [] => 0 | (_, v) :: t' => 1 + msdp_size v + go t' end)%nat t = entries_size t).
  { induction t0 as [|[k v] t0 IH]; [done|]. unfold entries_size in *. simpl.
    f_equal. f_equal. exact IH. }
  by rewrite E.
Qed.

Lemma size_array a : msdp_size (MSDPArray a) = (2 + elements_size a)%nat.
Proof. done. Qed.

(** What stops a scan. *)
Definition stops (stop : byte -> bool) (rest : bytes) : Prop :=
  match rest with [] => True | b :: _ => stop b = true end.

Lemma scan_app stop k rest :
  Forall (fun b => stop b = false) k -> stops stop rest -> scan stop (k ++ rest) = k.
Proof.
  intros Hk Hr. induction Hk as [|b k Hb _ IH]; simpl.
  - destruct rest as [|b rest]; simpl in *; [done|]. by rewrite Hr.
  - by rewrite Hb, IH.
Qed.

Lemma map_put_fresh k v m : k ∉ m.*1 -> map_put k v m = m ++ [(k, v)].
Proof.
  induction m as [|[k' v'] m IH]; [done|]. cbn [fmap list_fmap fst map_put].
  intros [Hk Hm]%not_elem_of_cons. rewrite bool_decide_false by done. by rewrite IH.
Qed.

(** A value starts with a byte that ends a key; a string with one that ends a string. *)
Lemma write_head v : exists b l, writeMSDPValue v = b :: l /\ key_stop b = true /\
  (is_string v = true -> val_stop b = true).
Proof.
  destruct v as [s t a [] []]; cbn [writeMSDPValue is_string]; eexists _, _; split_and!; try done.
Qed.

Lemma stops_write v l : stops key_stop (writeMSDPValue v ++ l).
Proof. destruct (write_head v) as (b & w & -> & ? & _). done. Qed.

(** The position after a prefix. *)
Lemma lookup_prefix {A} (pre : list A) x l : (pre ++ x :: l) !! length pre = Some x.
Proof. by rewrite lookup_app_r, Nat.sub_diag by lia. Qed.

Lemma drop_prefix {A} (pre l : list A) n : n = length pre -> drop n (pre ++ l) = l.
Proof. intros ->. apply drop_app_length. Qed.

(** The value parses back, with [rest] behind it, on any fuel from its size on. *)
Definition parses (v : MSDPValue) : Prop :=
  forall rest fuel, (is_string v = true -> stops val_stop rest) -> (msdp_size v <= fuel)%nat ->
  parseMSDPValue fuel (writeMSDPValue v ++ rest) = Some (Some (v, length (writeMSDPValue v))).

(** What follows the header of an entry: the key is found and the value parsed. *)
Lemma entry_parses k v pre l fuel :
  key_ok k -> parses v -> stops val_stop l -> (msdp_size v <= fuel)%nat ->
  let data := pre ++ MSDPVar :: k ++ writeMSDPValue v ++ l in
  scan key_stop (drop (length pre + 1) data) = k /\
  parseMSDPValue fuel (drop (length pre + 1 + length k) data) = Some (Some (v, length (writeMSDPValue v))).
Proof.
  intros Hk Hv Hl Hf data.
  assert (E1 : drop (length pre + 1) data = k ++ writeMSDPValue v ++ l).
  { unfold data. change (MSDPVar :: k ++ writeMSDPValue v ++ l)
      with ([MSDPVar] ++ k ++ writeMSDPValue v ++ l). rewrite app_assoc. apply drop_prefix.
    by rewrite length_app. }
  rewrite E1. split; [apply scan_app; [done|apply stops_write]|].
  rewrite <- drop_drop, E1, drop_app_length. by apply Hv.
Qed.

Lemma Marshal_stops t b l : stops val_stop (b :: l) -> stops val_stop (MarshalMSDP t ++ b :: l).
Proof. by destruct t as [|[k v] t]. Qed.

Lemma parse_table_ok t : forall pre tbl rest fuel,
  Forall key_ok t.*1 -> NoDup (tbl ++ t).*1 -> Forall (fun kv => parses kv.2) t ->
  (entries_size t < fuel)%nat ->
  parse_table fuel (pre ++ MarshalMSDP t ++ MSDPTableClose :: rest) (length pre) tbl =
  Some (Some (MSDPTable (tbl ++ t), (length pre + length (MarshalMSDP t) + 1)%nat)).
Proof.
  induction t as [|[k v] t IH]; intros pre tbl rest fuel Hk Hnd Hp Hf;
    (destruct fuel as [|fuel]; [lia|]); cbn [parse_table MarshalMSDP app].
  { unfold inside. rewrite lookup_prefix, Z.eqb_refl. cbn [negb].
    rewrite bool_decide_true by done. rewrite app_nil_r. cbn [length]. do 4 f_equal. lia. }
  apply Forall_cons_1 in Hk as [Hk Hks]. apply Forall_cons_1 in Hp as [Hv Hvs].
  cbn [fst snd] in *. unfold entries_size in Hf. cbn [sum_list_with] in Hf. fold (entries_size t) in Hf.
  unfold inside. rewrite lookup_prefix. cbn [negb Z.eqb MSDPVar MSDPTableClose Pos.eqb].
  change (negb (MSDPVar =? MSDPTableClose)) with true. cbn iota.
  rewrite bool_decide_true by done. cbn [negb]. rewrite <- !app_assoc.
  set (l := MarshalMSDP t ++ MSDPTableClose :: rest).
  destruct (entry_parses k v pre l fuel Hk Hv) as [E1 E2]; [by apply Marshal_stops|simpl in Hf; lia|].
  rewrite E1, E2.
  assert (Hfresh : k ∉ tbl.*1).
  { rewrite fmap_app in Hnd. apply NoDup_app in Hnd as (_ & Hd & _). intros Hin.
    apply (Hd k Hin). simpl. apply elem_of_cons. by left. }
  rewrite map_put_fresh by done.
  specialize (IH (pre ++ MSDPVar :: k ++ writeMSDPValue v) (tbl ++ [(k, v)]) rest fuel Hks).
  replace ((tbl ++ [(k, v)]) ++ t) with (tbl ++ (k, v) :: t) in IH by by rewrite <- app_assoc.
  specialize (IH Hnd Hvs ltac:(simpl in Hf; lia)). fold l in IH.
  replace ((pre ++ MSDPVar :: k ++ writeMSDPValue v) ++ l)
    with (pre ++ MSDPVar :: k ++ writeMSDPValue v ++ l) in IH
    by (by rewrite <- !app_assoc; cbn [app]; rewrite <- app_assoc).
  replace (length (pre ++ MSDPVar :: k ++ writeMSDPValue v))
    with (length pre + 1 + length k + length (writeMSDPValue v))%nat in IH
    by (rewrite length_app; cbn [length]; rewrite length_app; lia).
  rewrite IH. do 4 f_equal. cbn [length]. rewrite !length_app. lia.
Qed.

Lemma parse_array_ok a : forall pre arr rest fuel,
  array_follow a = true -> Forall parses a -> (elements_size a < fuel)%nat ->
  parse_array fuel (pre ++ elements a ++ MSDPArrayClose :: rest) (length pre) arr =
  Some (Some (MSDPArray (arr ++ a), (length pre + length (elements a) + 1)%nat)).
Proof.
  induction a as [|v a IH]; intros pre arr rest fuel Hfol Hp Hf;
    (destruct fuel as [|fuel]; [lia|]); cbn [parse_array].
  { unfold inside, elements. cbn [mbind list_bind app]. rewrite lookup_prefix, Z.eqb_refl. cbn [negb].
    rewrite bool_decide_true by done. rewrite app_nil_r. cbn [length]. do 4 f_equal. lia. }
  apply Forall_cons_1 in Hp as [Hv Hvs]. unfold elements_size in Hf. cbn [sum_list_with] in Hf.
  fold (elements_size a) in Hf. unfold elements. cbn [mbind list_bind]. fold (elements a).
  rewrite <- app_assoc. set (l := elements a ++ MSDPArrayClose :: rest).
  assert (Hin : inside MSDPArrayClose (pre ++ writeMSDPValue v ++ l) (length pre) = true).
  { unfold inside. destruct (write_head v) as (b & w & -> & Hb & _). cbn [app].
    rewrite lookup_prefix. unfold key_stop in Hb.
    destruct (Z.eqb_spec b MSDPArrayClose) as [->|]; [discriminate Hb|done]. }
  rewrite Hin, drop_app_length, Hv; [|intros Hs|simpl in Hf; lia].
  - specialize (IH (pre ++ writeMSDPValue v) (arr ++ [v]) rest fuel).
    fold l in IH. rewrite <- !app_assoc, length_app in IH. cbn [app] in IH. rewrite IH.
    + do 4 f_equal. rewrite !length_app. lia.
    + destruct a; [done|]. cbn [array_follow] in Hfol. by apply andb_prop in Hfol as [_ ?].
    + done.
    + simpl in Hf. lia.
  - unfold l, elements. destruct a as [|w a]; [done|]. cbn [array_follow] in Hfol.
    apply andb_prop in Hfol as [Hfol _]. rewrite Hs in Hfol. cbn [mbind list_bind].
    destruct (write_head w) as (b & u & -> & _ & Hb). simpl. by apply Hb.
Qed.

Lemma msdp_parses n : forall v, (msdp_size v <= n)%nat -> msdp_ok v -> parses v.
Proof.
  induction n as [|n IH]; intros v Hn Hv; [destruct v; simpl in Hn; lia|].
  destruct Hv as [s Hs|t Hk Hnd Hvs|a Hfol Hvs]; intros rest fuel Hfollow Hf.
  - destruct fuel as [|fuel]; [simpl in Hf; lia|]. cbn. rewrite scan_app; [done|done|by apply Hfollow].
  - rewrite size_table in *. destruct fuel as [|fuel]; [lia|]. rewrite write_table. cbn [app parseMSDPValue].
    change (MSDPTableOpen =? MSDPVal) with false. rewrite Z.eqb_refl. cbn iota. rewrite <- app_assoc.
    etrans; [apply (parse_table_ok t [MSDPTableOpen] [] rest fuel); [done|done| |lia]|].
    2: { cbn [length app]. rewrite length_app. cbn [length]. do 3 f_equal; lia. }
    apply Forall_forall. intros [k v] Hin. rewrite Forall_forall in Hvs.
    apply IH; [|by apply Hvs]. apply (sum_list_with_in _ (fun kv => 1 + msdp_size kv.2)%nat) in Hin.
    fold (entries_size t) in Hin. simpl in *. lia.
  - rewrite size_array in *. destruct fuel as [|fuel]; [lia|]. rewrite write_array. cbn [app parseMSDPValue].
    change (MSDPArrayOpen =? MSDPVal) with false. change (MSDPArrayOpen =? MSDPTableOpen) with false.
    rewrite Z.eqb_refl. cbn iota. rewrite <- app_assoc.
    etrans; [apply (parse_array_ok a [MSDPArrayOpen] [] rest fuel); [done| |lia]|].
    2: { cbn [length app]. rewrite length_app. cbn [length]. do 3 f_equal; lia. }
    apply Forall_forall. intros v Hin. rewrite Forall_forall in Hvs.
    apply IH; [|by apply Hvs]. apply (sum_list_with_in _ (fun v => 1 + msdp_size v)%nat) in Hin.
    fold (elements_size a) in Hin. simpl in *. lia.
Qed.

Lemma unmarshal_ok t : forall pre res fuel,
  Forall key_ok t.*1 -> NoDup (res ++ t).*1 -> Forall (fun kv => parses kv.2) t ->
  (entries_size t < fuel)%nat ->
  unmarshal_loop fuel (pre ++ MarshalMSDP t) (length pre) res = Some (Parsed (res ++ t)).
Proof.
  induction t as [|[k v] t IH]; intros pre res fuel Hk Hnd Hp Hf;
    (destruct fuel as [|fuel]; [lia|]); cbn [unmarshal_loop MarshalMSDP].
  { rewrite !app_nil_r, bool_decide_false by lia. done. }
  apply Forall_cons_1 in Hk as [Hk Hks]. apply Forall_cons_1 in Hp as [Hv Hvs].
  cbn [fst snd] in *. unfold entries_size in Hf. cbn [sum_list_with] in Hf. fold (entries_size t) in Hf.
  rewrite bool_decide_true by (rewrite length_app; simpl; lia).
  rewrite lookup_prefix, bool_decide_true by done. cbn [negb].
  destruct (entry_parses k v pre (MarshalMSDP t) fuel Hk Hv) as [E1 E2];
    [by destruct t as [|[k' v'] t]|simpl in Hf; lia|].
  rewrite E1, E2.
  assert (Hfresh : k ∉ res.*1).
  { rewrite fmap_app in Hnd. apply NoDup_app in Hnd as (_ & Hd & _). intros Hin.
    apply (Hd k Hin). simpl. apply elem_of_cons. by left. }
  rewrite map_put_fresh by done.
  specialize (IH (pre ++ MSDPVar :: k ++ writeMSDPValue v) (res ++ [(k, v)]) fuel Hks).
  replace ((res ++ [(k, v)]) ++ t) with (res ++ (k, v) :: t) in IH by by rewrite <- app_assoc.
  specialize (IH Hnd Hvs ltac:(simpl in Hf; lia)).
  replace ((pre ++ MSDPVar :: k ++ writeMSDPValue v) ++ MarshalMSDP t)
    with (pre ++ MSDPVar :: k ++ writeMSDPValue v ++ MarshalMSDP t) in IH
    by (by rewrite <- !app_assoc; cbn [app]; rewrite <- app_assoc).
  replace (length (pre ++ MSDPVar :: k ++ writeMSDPValue v))
    with (length pre + 1 + length k + length (writeMSDPValue v))%nat in IH
    by (rewrite length_app; cbn [length]; rewrite length_app; lia).
  exact IH.
Qed.

(** ** Termination away from arrays *)

Lemma length_scan stop l : (length (scan stop l) <= length l)%nat.
Proof. induction l as [|b l IH]; simpl; [done|]. destruct (stop b); simpl; lia. Qed.

Lemma inside_lt close data i : inside close data i = true -> (i < length data)%nat.
Proof. unfold inside. destruct (data !! i) eqn:E; [|done]. intros _. by apply lookup_lt_Some in E. Qed.

Lemma not_elem_of_drop (x : Z) n l : x ∉ l -> x ∉ drop n l.
Proof. intros Hx Hin. apply Hx. rewrite <- (take_drop n l). apply elem_of_app. by right. Qed.

(** The fuel needed is linear in the input left, and no more than it is consumed. *)
Lemma parse_terminates fuel :
  (forall data, MSDPArrayOpen ∉ data -> (2 * length data + 1 <= fuel)%nat ->
     exists r, parseMSDPValue fuel data = Some r /\ forall v n, r = Some (v, n) -> (n <= length data)%nat) /\
  (forall data i table, MSDPArrayOpen ∉ data -> (i <= length data)%nat ->
     (2 * (length data - i) + 1 <= fuel)%nat ->
     exists r, parse_table fuel data i table = Some r /\ forall v n, r = Some (v, n) -> (n <= length data)%nat).
Proof.
  induction fuel as [|fuel [IHv IHt]]; (split; [intros data Hn Hf|intros data i table Hn Hi Hf]); try lia.
  - destruct data as [|b data]; cbn [parseMSDPValue].
    { eexists. split; [done|]. intros ? ? [= _ <-]. done. }
    pose proof Hn as [Hb Hd]%not_elem_of_cons. pose proof (length_scan val_stop data).
    pose proof (length_scan val_stop (b :: data)).
    destruct (b =? MSDPVal); [eexists; split; [done|]; intros ? ? [= _ <-]; simpl; lia|].
    destruct (b =? MSDPTableOpen); [apply IHt; [done|simpl; lia|simpl in *; lia]|].
    rewrite (proj2 (Z.eqb_neq b MSDPArrayOpen)) by done.
    eexists. split; [done|]. by intros ? ? [= _ <-].
  - cbn [parse_table]. destruct (inside MSDPTableClose data i) eqn:Ein.
    + apply inside_lt in Ein.
      destruct (negb _); [by eexists|].
      pose proof (length_scan key_stop (drop (i + 1) data)) as Hs. rewrite length_drop in Hs.
      set (k := scan key_stop (drop (i + 1) data)) in *.
      destruct (IHv (drop (i + 1 + length k) data)) as (r & -> & Hr);
        [by apply not_elem_of_drop|rewrite length_drop; lia|].
      destruct r as [[v n]|]; [|by eexists]. specialize (Hr v n eq_refl). rewrite length_drop in Hr.
      apply IHt; [done|lia|lia].
    + destruct (bool_decide_reflect (data !! i = Some MSDPTableClose)) as [E|]; [|by eexists].
      apply lookup_lt_Some in E. eexists. split; [done|]. intros ? ? [= _ <-]. lia.
Qed.

Lemma unmarshal_terminates fuel : forall data i result,
  MSDPArrayOpen ∉ data -> (i <= length data)%nat -> (2 * (length data - i) + 1 <= fuel)%nat ->
  exists r, unmarshal_loop fuel data i result = Some r.
Proof.
  induction fuel as [|fuel IH]; intros data i result Hn Hi Hf; [lia|]. cbn [unmarshal_loop].
  destruct (bool_decide_reflect (i < length data)%nat); [|by eexists].
  destruct (negb _); [by eexists|].
  pose proof (length_scan key_stop (drop (i + 1) data)) as Hs. rewrite length_drop in Hs.
  set (k := scan key_stop (drop (i + 1) data)) in *.
  destruct (proj1 (parse_terminates fuel) (drop (i + 1 + length k) data)) as (r & -> & Hr);
    [by apply not_elem_of_drop|rewrite length_drop; lia|].
  destruct r as [[v n']|]; [|by eexists]. specialize (Hr v n' eq_refl). rewrite length_drop in Hr.
  apply IH; [done|lia|lia].
Qed.

(** ** Properties *)

(** C20: MSDP round trip, under conditions on the map. Parsing the wire form of a map,
    nested to any depth, gives the map back, in whatever order the marshaller visited it,
    provided the keys of each map are distinct and hold no byte that ends a key, the strings
    hold no byte that ends a string, and in every array no string is directly followed by a
    table or an array (which the parser would take for a part of the string);
    [entries_size + 1] iterations and recursive calls are enough. *)
Theorem MSDP_roundtrip data fuel :
  Forall key_ok data.*1 -> NoDup data.*1 -> Forall (fun kv => msdp_ok kv.2) data ->
  (entries_size data < fuel)%nat ->
  UnmarshalMSDP fuel (MarshalMSDP data) = Some (Parsed data).
Proof.
  intros Hk Hnd Hv Hf. unfold UnmarshalMSDP.
  apply (unmarshal_ok data [] [] fuel); [done|done| |done].
  eapply Forall_impl; [exact Hv|]. intros [k v] Hok. by eapply msdp_parses.
Qed.

(** The MSDP parser returns, with a map or an error, on every input that contains no
    array, after at most [2 * length + 1] nested iterations and calls. *)
Theorem UnmarshalMSDP_terminates data :
  MSDPArrayOpen ∉ data -> exists r, UnmarshalMSDP (2 * length data + 1) data = Some r.
Proof. intros Hn. apply unmarshal_terminates; [done|lia|lia]. Qed.

Lemma parse_array_stuck fuel array : parse_array fuel [MSDPArrayOpen; MSDPVar] 1 array = None.
Proof.
  revert array. induction fuel as [|fuel IH]; intros array; [done|]. cbn [parse_array].
  change (inside MSDPArrayClose [MSDPArrayOpen; MSDPVar] 1) with true. cbn iota.
  destruct fuel as [|fuel]; [done|].
  change (parseMSDPValue (S fuel) (drop 1 [MSDPArrayOpen; MSDPVar])) with (Some (Some (MSDPString [], 0%nat))).
  apply IH.
Qed.

(** An array makes the MSDP parser loop for ever: on the four bytes VAR "a" ARRAY_OPEN
    VAR, which any peer can send, it never returns, whatever the fuel, because the value
    it reads before the VAR is an empty string of length 0. *)
Theorem UnmarshalMSDP_hangs fuel :
  UnmarshalMSDP fuel [MSDPVar; 97; MSDPArrayOpen; MSDPVar] = None.
Proof.
  unfold UnmarshalMSDP. destruct fuel as [|fuel]; [done|]. cbn [unmarshal_loop].
  destruct fuel as [|fuel]; [done|].
  change (parseMSDPValue (S fuel) (drop _ _)) with (parse_array fuel [MSDPArrayOpen; MSDPVar] 1 []).
  by rewrite parse_array_stuck.
Qed.

(** {"name": "ab", "room": {"exits": ["n", "s"], "id": "7"}} *)
Definition sample_map : list (bytes * MSDPValue) :=
  [([110; 97; 109; 101], MSDPString [97; 98]);
   ([114; 111; 111; 109],
    MSDPTable [([101; 120; 105; 116; 115], MSDPArray [MSDPString [110]; MSDPString [115]]);
               ([105; 100], MSDPString [55])])].

Lemma MSDP_roundtrip_witness :
  UnmarshalMSDP 100 (MarshalMSDP sample_map) = Some (Parsed sample_map).
Proof.
  assert (Hstr : forall s, forallb (fun b => negb (val_stop b)) s = true -> msdp_ok (MSDPString s)).
  { intros s Hs. constructor. apply Forall_forall. intros b Hb. rewrite forallb_forall in Hs.
    apply negb_true_iff, Hs. by apply list_elem_of_In. }
  apply (MSDP_roundtrip sample_map 100).
  - unfold key_ok. by_decide.
  - by_decide.
  - apply Forall_cons_2; [by apply Hstr|]. apply Forall_singleton. cbn [snd].
    apply ok_table; [unfold key_ok; by_decide|by_decide|].
    apply Forall_cons_2; [|apply Forall_singleton; by apply Hstr]. cbn [snd].
    apply ok_array; [done|]. apply Forall_cons_2; [by apply Hstr|].
    apply Forall_singleton. by apply Hstr.
  - by_decide.
Defined.

Lemma UnmarshalMSDP_terminates_witness :
  exists r, UnmarshalMSDP 17 [MSDPVar; 97; MSDPTableOpen; MSDPVar; 98; MSDPVal; 99; MSDPVar] = Some r.
Proof.
  exact (UnmarshalMSDP_terminates [MSDPVar; 97; MSDPTableOpen; MSDPVar; 98; MSDPVal; 99; MSDPVar]
    ltac:(by_decide)).
Defined.
