(* ===== verification/GoText.v ===== *)
(** * GoText: what the text functions use of Go's strings.

    A string is its bytes. [range s] decodes UTF-8 as the language defines it: an
    invalid byte is the rune U+FFFD and one byte long. The tables of package [unicode]
    are a class with their documented values on ASCII; [unicode.IsSpace] is short
    enough to be spelt out. *)
From Stdlib Require Import Ascii String.
From S2P Require Import Prelude.
#[local] Open Scope Z_scope.

(** A string literal. *)
Definition str (s : string) : bytes :=
  (fun a => Z.of_N (N_of_ascii a)) <$> String.list_ascii_of_string s.
#[global] Arguments str s%_string.

(** ** UTF-8 *)

Definition RuneError : Z := 0xFFFD.

Definition is_cont (b : byte) : bool := (0x80 <=? b) && (b <=? 0xBF).

(** The ranges of the second byte of each lead byte. *)
Definition seq2 (b0 b1 : byte) : bool := (0xC2 <=? b0) && (b0 <=? 0xDF) && is_cont b1.
Definition seq3 (b0 b1 b2 : byte) : bool :=
  (0xE0 <=? b0) && (b0 <=? 0xEF) && is_cont b1 && is_cont b2 &&
  negb ((b0 =? 0xE0) && (b1 <? 0xA0)) && negb ((b0 =? 0xED) && (0x9F <? b1)).
Definition seq4 (b0 b1 b2 b3 : byte) : bool :=
  (0xF0 <=? b0) && (b0 <=? 0xF4) && is_cont b1 && is_cont b2 && is_cont b3 &&
  negb ((b0 =? 0xF0) && (b1 <? 0x90)) && negb ((b0 =? 0xF4) && (0x8F <? b1)).

Definition rune2 (b0 b1 : byte) : Z := (b0 - 0xC0) * 64 + (b1 - 0x80).
Definition rune3 (b0 b1 b2 : byte) : Z :=
  ((b0 - 0xE0) * 64 + (b1 - 0x80)) * 64 + (b2 - 0x80).
Definition rune4 (b0 b1 b2 b3 : byte) : Z :=
  (((b0 - 0xF0) * 64 + (b1 - 0x80)) * 64 + (b2 - 0x80)) * 64 + (b3 - 0x80).

(** [for _, r := range s]: the runes, each with the bytes it was decoded from. *)
Fixpoint runes (s : bytes) : list (Z * bytes) :=
  match s with
  | [] => []
  | b0 :: s1 =>
      if b0 <? 0x80 then (b0, [b0]) :: runes s1
      else
        match s1 with
        | b1 :: s2 =>
            if seq2 b0 b1 then (rune2 b0 b1, [b0; b1]) :: runes s2
            else match s2 with
            | b2 :: s3 =>
                if seq3 b0 b1 b2 then (rune3 b0 b1 b2, [b0; b1; b2]) :: runes s3
                else match s3 with
                | b3 :: s4 =>
                    if seq4 b0 b1 b2 b3 then (rune4 b0 b1 b2 b3, [b0; b1; b2; b3]) :: runes s4
                    else (RuneError, [b0]) :: runes s1
                | [] => (RuneError, [b0]) :: runes s1
                end
            | [] => (RuneError, [b0]) :: runes s1
            end
        | [] => (RuneError, [b0]) :: runes s1
        end
  end.

Definition is_surrogate (r : Z) : bool := (0xD800 <=? r) && (r <=? 0xDFFF).
Definition valid_rune (r : Z) : bool := (0 <=? r) && (r <=? 0x10FFFF) && negb (is_surrogate r).

(** [utf8.RuneLen] *)
Definition RuneLen (r : Z) : Z :=
  if r <? 0 then -1
  else if r <=? 0x7F then 1
  else if r <=? 0x7FF then 2
  else if is_surrogate r then -1
  else if r <=? 0xFFFF then 3
  else if r <=? 0x10FFFF then 4
  else -1.

(** [strings.Builder.WriteRune] *)
Definition encode (r : Z) : bytes :=
  let r := if valid_rune r then r else RuneError in
  if r <=? 0x7F then [r]
  else if r <=? 0x7FF then [0xC0 + r / 64; 0x80 + r mod 64]
  else if r <=? 0xFFFF then [0xE0 + r / 4096; 0x80 + r / 64 mod 64; 0x80 + r mod 64]
  else [0xF0 + r / 262144; 0x80 + r / 4096 mod 64; 0x80 + r / 64 mod 64; 0x80 + r mod 64].

(** ** Package unicode *)

(** [unicode.IsSpace] *)
Definition IsSpace (r : Z) : bool :=
  ((9 <=? r) && (r <=? 13)) || (r =? 0x20) || (r =? 0x85) || (r =? 0xA0) || (r =? 0x1680) ||
  ((0x2000 <=? r) && (r <=? 0x200A)) || (r =? 0x2028) || (r =? 0x2029) || (r =? 0x202F) ||
  (r =? 0x205F) || (r =? 0x3000).

Class Unicode := {
  is_Mn : Z -> bool;
  IsPrint : Z -> bool;
  ToLower_rune : Z -> Z
}.

(** The tables on ASCII, and that U+FFFD is a printable symbol. *)
Class UnicodeLaws `{Unicode} := {
  Mn_ascii r : r < 0x80 -> is_Mn r = false;
  Print_ascii r : 0 <= r < 0x80 -> IsPrint r = (0x20 <=? r) && (r <=? 0x7E);
  lower_ascii r : 0 <= r < 0x80 ->
    ToLower_rune r = if (65 <=? r) && (r <=? 90) then r + 32 else r;
  Mn_error : is_Mn RuneError = false;
  Print_error : IsPrint RuneError = true
}.

(** Tables for concrete runs: the combining diacritics, Latin-1. *)
Definition latin_tables : Unicode := {|
  is_Mn r := (0x300 <=? r) && (r <=? 0x36F);
  IsPrint r := ((0x20 <=? r) && (r <=? 0x7E)) || ((0xA1 <=? r) && negb (r =? 0xAD));
  ToLower_rune r := if (65 <=? r) && (r <=? 90) then r + 32 else r
|}.

Lemma latin_laws : @UnicodeLaws latin_tables.
Proof.
  split; simpl; try done; intros r Hr.
  - destruct (Z.leb_spec 0x300 r); [lia|done].
  - destruct (Z.leb_spec 0xA1 r); [lia|]. by rewrite orb_false_r.
Qed.

(** ** Package strings *)

(** [strings.Repeat]: [None] is the panic on a negative count. *)
Fixpoint repeat_n (s : bytes) (n : nat) : bytes :=
  match n with O => [] | S n' => s ++ repeat_n s n' end.

Definition strings_Repeat (s : bytes) (count : Z) : option bytes :=
  if count <? 0 then None else Some (repeat_n s (Z.to_nat count)).

(** [strings.Fields]: the maximal runs of runes that are not white space. [word] is the
    field being read. *)
Fixpoint fields_loop (rs : list (Z * bytes)) (word : bytes) : list bytes :=
  match rs with
  | [] => if bool_decide (word = []) then [] else [word]
  | (r, b) :: rs' =>
      if IsSpace r then
        if bool_decide (word = []) then fields_loop rs' [] else word :: fields_loop rs' []
      else fields_loop rs' (word ++ b)
  end.

Definition Fields (s : bytes) : list bytes := fields_loop (runes s) [].

(** [strings.Join] *)
Fixpoint Join (parts : list bytes) (sep : bytes) : bytes :=
  match parts with
  | [] => []
  | [p] => p
  | p :: parts' => p ++ sep ++ Join parts' sep
  end.

(** [strings.TrimSpace] *)
Fixpoint trim_left (rs : list (Z * bytes)) : list (Z * bytes) :=
  match rs with [] => [] | (r, b) :: rs' => if IsSpace r then trim_left rs' else rs end.

Definition TrimSpace (s : bytes) : bytes :=
  concat (rev (trim_left (rev (trim_left (runes s))))).*2.

(** [strings.ToLower] *)
Definition ToLower `{Unicode} (s : bytes) : bytes :=
  concat ((fun rb => encode (ToLower_rune rb.1)) <$> runes s).

(** [strings.HasPrefix] *)
Definition HasPrefix (s prefix : bytes) : bool := bool_decide (take (length prefix) s = prefix).

(** [strings.Index] and [bytes.IndexByte] of one byte; [None] is -1. *)
Fixpoint IndexByte (s : bytes) (c : byte) : option nat :=
  match s with
  | [] => None
  | b :: s' => if b =? c then Some 0%nat else S <$> IndexByte s' c
  end.

Definition ContainsByte (s : bytes) (c : byte) : bool := if IndexByte s c is Some _ then true else false.

(** ** Package strconv *)

(** The decimal digits of a natural number, most significant first. *)
Fixpoint digits (fuel : nat) (n : Z) : bytes :=
  match fuel with
  | O => []
  | S fuel' => if n <? 10 then [48 + n] else digits fuel' (n / 10) ++ [48 + n mod 10]
  end.

(** [strconv.Itoa] *)
Definition Itoa (n : Z) : bytes :=
  if n <? 0 then 45 :: digits (S (Z.to_nat (Z.log2 (- n)))) (- n)
  else digits (S (Z.to_nat (Z.log2 n))) n.

(** How [strconv.ParseUint(s, 10, 32)] fails. *)
Inductive num_error := ErrSyntax | ErrRange.

(** The value together with the error: on overflow Go returns the largest value, as
    soon as it sees it. *)
Fixpoint parse_uint (s : bytes) (n : Z) : Z * option num_error :=
  match s with
  | [] => (n, None)
  | b :: s' =>
      if (48 <=? b) && (b <=? 57) then
        let n1 := 10 * n + (b - 48) in
        if n1 <? 2 ^ 32 then parse_uint s' n1 else (2 ^ 32 - 1, Some ErrRange)
      else (0, Some ErrSyntax)
  end.

Definition ParseUint32 (s : bytes) : Z * option num_error :=
  if bool_decide (s = []) then (0, Some ErrSyntax) else parse_uint s 0.

(** ** UTF-8 *)

#[global] Arguments runes : simpl never.
#[global] Arguments encode : simpl never.

(** How a rune stands in a string. *)
Inductive decodes : Z -> bytes -> Prop :=
  | dec_ascii b0 : b0 < 0x80 -> decodes b0 [b0]
  | dec_2 b0 b1 : seq2 b0 b1 = true -> decodes (rune2 b0 b1) [b0; b1]
  | dec_3 b0 b1 b2 : seq3 b0 b1 b2 = true -> decodes (rune3 b0 b1 b2) [b0; b1; b2]
  | dec_4 b0 b1 b2 b3 : seq4 b0 b1 b2 b3 = true -> decodes (rune4 b0 b1 b2 b3) [b0; b1; b2; b3]
  | dec_error b0 : 0x80 <= b0 -> decodes RuneError [b0].

Lemma runes_cons b0 s1 :
  exists r b s', b0 :: s1 = b ++ s' /\ decodes r b /\ runes (b0 :: s1) = (r, b) :: runes s' /\
    (length s' <= length s1)%nat.
Proof.
  unfold runes; fold runes. destruct (Z.ltb_spec b0 0x80).
  { exists b0, [b0], s1. by repeat split; [constructor|]. }
  assert (He : decodes RuneError [b0]) by by constructor.
  destruct s1 as [|b1 s2]; [by exists RuneError, [b0], []|].
  destruct (seq2 b0 b1) eqn:E2.
  { exists (rune2 b0 b1), [b0; b1], s2. split_and!; try done; [by constructor|simpl; lia]. }
  destruct s2 as [|b2 s3]; [by exists RuneError, [b0], [b1]|].
  destruct (seq3 b0 b1 b2) eqn:E3.
  { exists (rune3 b0 b1 b2), [b0; b1; b2], s3. split_and!; try done; [by constructor|simpl; lia]. }
  destruct s3 as [|b3 s4]; [by exists RuneError, [b0], [b1; b2]|].
  destruct (seq4 b0 b1 b2 b3) eqn:E4.
  { exists (rune4 b0 b1 b2 b3), [b0; b1; b2; b3], s4.
    split_and!; try done; [by constructor|simpl; lia]. }
  by exists RuneError, [b0], (b1 :: b2 :: b3 :: s4).
Qed.

(** Induction along the runes of a string. *)
Lemma runes_ind (P : bytes -> list (Z * bytes) -> Prop) :
  P [] [] -> (forall r b s, decodes r b -> P s (runes s) -> P (b ++ s) ((r, b) :: runes s)) ->
  forall s, P s (runes s).
Proof.
  intros H0 Hs s. remember (length s) as n eqn:E.
  assert (Hn : (length s <= n)%nat) by lia. clear E. revert s Hn.
  induction n as [|n IH]; intros [|b0 s1] Hn; simpl in Hn; try done; [lia|].
  destruct (runes_cons b0 s1) as (r & b & s' & -> & Hd & -> & Hl). apply Hs; [done|]. apply IH. lia.
Qed.

Lemma runes_concat s : concat (runes s).*2 = s.
Proof. apply (runes_ind (fun s l => concat l.*2 = s)); [done|]. intros r b s' _ IH. simpl. by f_equal. Qed.

(** A string that does not start in the middle of a sequence. *)
Definition starts_rune (l : bytes) : Prop :=
  match l with [] => True | b :: _ => is_cont b = false end.

Lemma runes_unfold b0 s1 :
  runes (b0 :: s1) =
    if b0 <? 0x80 then (b0, [b0]) :: runes s1
    else match s1 with
    | b1 :: s2 =>
        if seq2 b0 b1 then (rune2 b0 b1, [b0; b1]) :: runes s2
        else match s2 with
        | b2 :: s3 =>
            if seq3 b0 b1 b2 then (rune3 b0 b1 b2, [b0; b1; b2]) :: runes s3
            else match s3 with
            | b3 :: s4 =>
                if seq4 b0 b1 b2 b3 then (rune4 b0 b1 b2 b3, [b0; b1; b2; b3]) :: runes s4
                else (RuneError, [b0]) :: runes s1
            | [] => (RuneError, [b0]) :: runes s1
            end
        | [] => (RuneError, [b0]) :: runes s1
        end
    | [] => (RuneError, [b0]) :: runes s1
    end.
Proof. done. Qed.

(** A sequence that a rune boundary cuts is not one. *)
Lemma seq_cut x :
  is_cont x = false ->
  (forall b0, seq2 b0 x = false) /\ (forall b0 b1, seq3 b0 x b1 = false) /\
  (forall b0 b1, seq3 b0 b1 x = false) /\ (forall b0 b1 b2, seq4 b0 x b1 b2 = false) /\
  (forall b0 b1 b2, seq4 b0 b1 x b2 = false) /\ (forall b0 b1 b2, seq4 b0 b1 b2 x = false).
Proof.
  intros Hx. unfold seq2, seq3, seq4. rewrite Hx. split_and!; intros;
    rewrite ?andb_false_r; simpl; rewrite ?andb_false_r; done.
Qed.

Lemma runes_app s l : starts_rune l -> runes (s ++ l) = runes s ++ runes l.
Proof.
  intros Hl. remember (length s) as n eqn:E.
  assert (Hn : (length s <= n)%nat) by lia. clear E. revert s Hn.
  induction n as [|n IH]; intros [|b0 s1] Hn; try done; [simpl in Hn; lia|].
  cbn [app]. rewrite !runes_unfold. simpl in Hn.
  assert (IH1 : runes (s1 ++ l) = runes s1 ++ runes l) by (apply IH; lia).
  destruct (b0 <? 0x80); [by rewrite IH1|].
  destruct s1 as [|b1 s2]; cbn [app].
  { destruct l as [|x l]; [done|]. destruct (seq_cut x Hl) as (H1 & H2 & _ & H3 & _). rewrite H1.
    destruct l as [|y l]; [done|]. rewrite H2. destruct l as [|z l]; [done|]. by rewrite H3. }
  cbn [app] in IH1. simpl in Hn. destruct (seq2 b0 b1); [cbn [app]; by rewrite IH by lia|].
  destruct s2 as [|b2 s3]; cbn [app] in IH1 |- *.
  { destruct l as [|x l]; [by f_equal|].
    destruct (seq_cut x Hl) as (_ & _ & H2 & _ & H3 & _). rewrite H2.
    destruct l as [|y l]; [by f_equal|]. rewrite H3. by f_equal. }
  simpl in Hn. destruct (seq3 b0 b1 b2); [cbn [app]; by rewrite IH by lia|].
  destruct s3 as [|b3 s4]; cbn [app] in IH1 |- *.
  { destruct l as [|x l]; [by f_equal|].
    destruct (seq_cut x Hl) as (_ & _ & _ & _ & _ & H3). rewrite H3. by f_equal. }
  simpl in Hn. destruct (seq4 b0 b1 b2 b3); cbn [app]; [by rewrite IH by lia|by f_equal].
Qed.

Definition is_ascii (b : byte) : Prop := 0 <= b < 0x80.

Lemma runes_ascii s : Forall (fun b => b < 0x80) s -> runes s = (fun b => (b, [b])) <$> s.
Proof.
  induction 1 as [|b s Hb _ IH]; [done|]. rewrite runes_unfold, (proj2 (Z.ltb_lt _ _)) by done.
  simpl. by f_equal.
Qed.

Lemma ascii_starts s : Forall (fun b => b < 0x80) s -> starts_rune s.
Proof. destruct 1 as [|b s Hb _]; [done|]. simpl. unfold is_cont. by cmp; [lia|]. Qed.

Lemma runes_app_ascii s l :
  Forall (fun b => b < 0x80) l -> runes (s ++ l) = runes s ++ ((fun b => (b, [b])) <$> l).
Proof. intros Hl. rewrite runes_app by by apply ascii_starts. by rewrite (runes_ascii l). Qed.

Lemma runes_ascii_app s l :
  Forall (fun b => b < 0x80) s -> runes (s ++ l) = ((fun b => (b, [b])) <$> s) ++ runes l.
Proof.
  induction 1 as [|b s Hb _ IH]; [done|]. cbn [app].
  rewrite runes_unfold, (proj2 (Z.ltb_lt _ _)) by done. rewrite IH. done.
Qed.

Lemma is_cont_range b : is_cont b = true <-> 0x80 <= b <= 0xBF.
Proof. unfold is_cont. rewrite andb_true_iff, !Z.leb_le. lia. Qed.

(** Break a boolean test on bytes into inequalities. *)
Ltac bool_lia :=
  repeat match goal with
  | H : context [andb ?a ?b = true] |- _ => rewrite andb_true_iff in H
  | H : _ /\ _ |- _ => destruct H
  | H : negb _ = true |- _ => apply negb_true_iff in H
  | H : is_cont _ = true |- _ => apply is_cont_range in H
  | H : (_ <=? _) = true |- _ => apply Z.leb_le in H
  | H : (_ <? _) = true |- _ => apply Z.ltb_lt in H
  | H : (_ =? _) = true |- _ => apply Z.eqb_eq in H
  | H : (_ <=? _) = false |- _ => apply Z.leb_gt in H
  | H : (_ <? _) = false |- _ => apply Z.ltb_ge in H
  | H : (_ =? _) = false |- _ => apply Z.eqb_neq in H
  | H : (_ && _) = false |- _ => apply andb_false_iff in H; destruct H
  end; try lia.

Lemma encode_bounds r :
  r <= 0x10FFFF ->
  0 <= r ->
  0x80 <= 0x80 + r mod 64 <= 0xBF /\ 0x80 <= 0x80 + r / 64 mod 64 <= 0xBF /\
  0x80 <= 0x80 + r / 4096 mod 64 <= 0xBF /\
  r = r / 64 * 64 + r mod 64 /\ r / 64 = r / 4096 * 64 + r / 64 mod 64 /\
  r / 4096 = r / 262144 * 64 + r / 4096 mod 64.
Proof.
  intros H1 H2.
  pose proof (Z.mod_pos_bound r 64). pose proof (Z.mod_pos_bound (r / 64) 64).
  pose proof (Z.mod_pos_bound (r / 4096) 64).
  change 4096 with (64 * 64). change 262144 with (64 * 64 * 64).
  rewrite <- !Z.div_div by lia.
  pose proof (Z.div_mod r 64). pose proof (Z.div_mod (r / 64) 64).
  pose proof (Z.div_mod (r / 64 / 64) 64). pose proof (Z.mod_pos_bound (r / 64 / 64) 64).
  lia.
Qed.

Lemma valid_range r : valid_rune r = true -> 0 <= r <= 0x10FFFF /\ (r < 0xD800 \/ 0xDFFF < r).
Proof.
  unfold valid_rune, is_surrogate. intros H. bool_lia.
Qed.

(** A well-formed sequence is decoded wherever it stands. *)
Lemma runes_seq2 b0 b1 l : seq2 b0 b1 = true -> runes (b0 :: b1 :: l) = (rune2 b0 b1, [b0; b1]) :: runes l.
Proof.
  intros H. rewrite runes_unfold, H. unfold seq2 in H. bool_lia.
  by rewrite (proj2 (Z.ltb_ge _ _)) by lia.
Qed.

Lemma runes_seq3 b0 b1 b2 l :
  seq3 b0 b1 b2 = true -> runes (b0 :: b1 :: b2 :: l) = (rune3 b0 b1 b2, [b0; b1; b2]) :: runes l.
Proof.
  intros H. rewrite runes_unfold, H. unfold seq3 in H.
  assert (0xE0 <= b0) by bool_lia. rewrite (proj2 (Z.ltb_ge _ _)) by lia.
  unfold seq2. by rewrite (proj2 (Z.leb_gt b0 0xDF)), andb_false_r by lia.
Qed.

Lemma runes_seq4 b0 b1 b2 b3 l :
  seq4 b0 b1 b2 b3 = true ->
  runes (b0 :: b1 :: b2 :: b3 :: l) = (rune4 b0 b1 b2 b3, [b0; b1; b2; b3]) :: runes l.
Proof.
  intros H. rewrite runes_unfold, H. unfold seq4 in H.
  assert (0xF0 <= b0) by bool_lia. rewrite (proj2 (Z.ltb_ge _ _)) by lia.
  unfold seq2, seq3. by rewrite (proj2 (Z.leb_gt b0 0xDF)), (proj2 (Z.leb_gt b0 0xEF)), !andb_false_r by lia.
Qed.

(** Prove a test on bytes. *)
Ltac bool_solve :=
  repeat match goal with
  | |- (_ && _) = true => apply andb_true_intro; split
  | |- is_cont _ = true => apply is_cont_range; lia
  | |- (_ <=? _) = true => apply Z.leb_le; lia
  | |- negb (_ && _) = true => apply negb_true_iff, andb_false_iff
  | |- (?a =? ?b) = false \/ _ =>
      destruct (Z.eqb_spec a b); [right|by left]
  | |- (_ <? _) = false => apply Z.ltb_ge; lia
  end.

(** Decoding what [WriteRune] wrote. *)
Lemma runes_encode r l :
  valid_rune r = true -> runes (encode r ++ l) = (r, encode r) :: runes l.
Proof.
  intros Hv. pose proof (valid_range r Hv) as [Hr Hs].
  destruct (encode_bounds r) as (B1 & B2 & B3 & E1 & E2 & E3); [lia..|].
  unfold encode. rewrite Hv. change 4096 with (64 * 64) in *.
  destruct (Z.leb_spec r 0x7F).
  { cbn [app]. rewrite runes_unfold, (proj2 (Z.ltb_lt _ _)) by lia. done. }
  destruct (Z.leb_spec r 0x7FF).
  { cbn [app]. rewrite runes_seq2 by (unfold seq2; bool_solve). unfold rune2. do 2 f_equal. lia. }
  destruct (Z.leb_spec r 0xFFFF).
  { cbn [app]. rewrite runes_seq3 by (unfold seq3; bool_solve). unfold rune3. do 2 f_equal. lia. }
  cbn [app]. rewrite runes_seq4 by (unfold seq4; bool_solve). unfold rune4. do 2 f_equal. lia.
Qed.

Lemma encode_invalid r : valid_rune r = false -> encode r = encode RuneError.
Proof. intros H. unfold encode. by rewrite H. Qed.

Lemma encode_valid_or_error r l :
  runes (encode r ++ l) =
    ((if valid_rune r then r else RuneError), encode r) :: runes l.
Proof.
  destruct (valid_rune r) eqn:E; [by apply runes_encode|].
  rewrite encode_invalid by done. by apply runes_encode.
Qed.

Lemma RuneLen_wide r : valid_rune r = true -> (1 <? RuneLen r) = (0x80 <=? r).
Proof.
  intros Hv. destruct (valid_range r Hv) as [Hr Hs]. unfold RuneLen, is_surrogate.
  destruct (Z.ltb_spec r 0); [lia|]. destruct (Z.leb_spec r 0x7F), (Z.leb_spec 0x80 r); try lia; try done.
  destruct (Z.leb_spec r 0x7FF); [done|].
  destruct (Z.leb_spec 0xD800 r), (Z.leb_spec r 0xDFFF); simpl; try lia;
    destruct (Z.leb_spec r 0xFFFF), (Z.leb_spec r 0x10FFFF); done || lia.
Qed.

Lemma valid_rune_intro r : 0 <= r <= 0x10FFFF -> r < 0xD800 \/ 0xDFFF < r -> valid_rune r = true.
Proof.
  intros Hr Hs. unfold valid_rune, is_surrogate. bool_solve.
  destruct Hs; [left|right]; apply Z.leb_gt; lia.
Qed.

(** Every rune of a string of bytes is a Unicode scalar value. *)
Lemma decodes_valid r b : decodes r b -> Forall is_byte b -> valid_rune r = true.
Proof.
  unfold is_byte.
  destruct 1 as [b0 H|b0 b1 H|b0 b1 b2 H|b0 b1 b2 b3 H|b0 H]; rewrite ?Forall_cons; intros HF; try done.
  - apply valid_rune_intro; lia.
  - unfold seq2 in H. unfold rune2. bool_lia. apply valid_rune_intro; lia.
  - unfold seq3 in H. unfold rune3. bool_lia; apply valid_rune_intro; lia.
  - unfold seq4 in H. unfold rune4. bool_lia; apply valid_rune_intro; lia.
Qed.

Lemma runes_valid s : wf_bytes s -> Forall (fun rb => valid_rune rb.1 = true) (runes s).
Proof.
  apply (runes_ind (fun s l => wf_bytes s -> Forall (fun rb => valid_rune rb.1 = true) l)); [done|].
  intros r b s' Hd IH [Hb Hs]%Forall_app. constructor; [by apply (decodes_valid r b)|by apply IH].
Qed.

(** ** Fields and Join *)

Lemma Join_app l k sep :
  l <> [] -> k <> [] -> Join (l ++ k) sep = Join l sep ++ sep ++ Join k sep.
Proof.
  intros Hl Hk. induction l as [|x l IH]; [done|]. destruct l as [|y l].
  { simpl. by destruct k. }
  cbn [app]. change (Join (x :: y :: l ++ k) sep) with (x ++ sep ++ Join ((y :: l) ++ k) sep).
  rewrite IH by done. change (Join (x :: y :: l) sep) with (x ++ sep ++ Join (y :: l) sep).
  by rewrite <- !app_assoc.
Qed.

(** A word: its runes are not white space. *)
Definition is_word (s : bytes) : Prop := s <> [] /\ Forall (fun rb => IsSpace rb.1 = false) (runes s).

(** Reading on a word extends it. *)
Lemma fields_word rs word :
  Forall (fun rb => IsSpace rb.1 = false) rs -> forall rest,
  fields_loop (rs ++ rest) word = fields_loop rest (word ++ concat rs.*2).
Proof.
  intros Hrs. revert word. induction Hrs as [|[r b] rs Hr _ IH]; intros word rest; simpl.
  { by rewrite app_nil_r. }
  simpl in Hr. by rewrite Hr, IH, <- app_assoc.
Qed.

Lemma space_starts l : IsSpace 0x20 = true /\ starts_rune (0x20 :: l).
Proof. done. Qed.

(** A word, a blank and the rest. *)
Lemma Fields_cons w s : is_word w -> Fields (w ++ 0x20 :: s) = w :: Fields s.
Proof.
  intros [Hne Hw]. unfold Fields. rewrite runes_app by done.
  rewrite fields_word by done. rewrite runes_concat. cbn [app].
  rewrite runes_unfold, (proj2 (Z.ltb_lt _ _)) by lia. cbn [fields_loop].
  change (IsSpace 32) with true. cbn iota. by rewrite bool_decide_false.
Qed.

Lemma Fields_word w : is_word w -> Fields w = [w].
Proof.
  intros [Hne Hw]. unfold Fields. rewrite <- (app_nil_r (runes w)), fields_word by done.
  rewrite runes_concat. simpl. by rewrite bool_decide_false.
Qed.

(** [strings.Fields] undoes joining words with blanks. *)
Lemma Fields_Join ws : Forall is_word ws -> Fields (Join ws [0x20]) = ws.
Proof.
  induction ws as [|w ws IH]; [done|]. intros [Hw Hws]%Forall_cons. simpl.
  destruct ws as [|v ws]; [by apply Fields_word|]. cbn [app]. rewrite Fields_cons by done. by rewrite IH.
Qed.

(** White space in front does not matter. *)
Lemma Fields_space s : Fields (0x20 :: s) = Fields s.
Proof. unfold Fields. rewrite runes_unfold, (proj2 (Z.ltb_lt _ _)) by lia. done. Qed.

(** ** A prefix that ends between two runes *)

Lemma runes_error_prefix b0 q k :
  runes (b0 :: q ++ k) = (RuneError, [b0]) :: runes (q ++ k) -> 0x80 <= b0 ->
  runes (b0 :: q) = (RuneError, [b0]) :: runes q.
Proof.
  intros H Hb. rewrite runes_unfold in H |- *. rewrite (proj2 (Z.ltb_ge _ _)) in H |- * by lia.
  destruct q as [|b1 q]; [done|]. cbn [app] in H.
  destruct (seq2 b0 b1); [by simplify_eq|].
  destruct q as [|b2 q]; [done|]. cbn [app] in H.
  destruct (seq3 b0 b1 b2); [by simplify_eq|].
  destruct q as [|b3 q]; [done|]. cbn [app] in H.
  destruct (seq4 b0 b1 b2 b3); [by simplify_eq|done].
Qed.

Lemma runes_head_prefix r b q k :
  decodes r b -> runes (b ++ q ++ k) = (r, b) :: runes (q ++ k) -> runes (b ++ q) = (r, b) :: runes q.
Proof.
  destruct 1 as [b0 H|b0 b1 H|b0 b1 b2 H|b0 b1 b2 b3 H|b0 H]; cbn [app]; intros E.
  - rewrite runes_unfold. by rewrite (proj2 (Z.ltb_lt _ _)).
  - by apply runes_seq2.
  - by apply runes_seq3.
  - by apply runes_seq4.
  - by apply (runes_error_prefix b0 q k).
Qed.

(** The runes of a prefix are a prefix of the runes. *)
Lemma runes_prefix s : forall rs1 rs2, runes s = rs1 ++ rs2 -> runes (concat rs1.*2) = rs1.
Proof.
  remember (length s) as n eqn:E. assert (Hn : (length s <= n)%nat) by lia. clear E. revert s Hn.
  induction n as [|n IH]; intros s Hn rs1 rs2 H.
  { destruct s; [|simpl in Hn; lia]. symmetry in H. by apply app_eq_nil in H as [-> _]. }
  destruct rs1 as [|[r b] rs1]; [done|]. destruct s as [|b0 s1]; [done|].
  destruct (runes_cons b0 s1) as (r' & b' & s' & E & Hd & Er & Hl).
  assert (Hl' : (length s' <= n)%nat) by (simpl in Hn; lia). rewrite Er in H. rewrite E in Er.
  cbn [app] in H. injection H as -> -> H.
  pose proof (IH s' Hl' rs1 rs2 H) as IH'. cbn [fmap list_fmap concat snd].
  assert (Es : s' = concat rs1.*2 ++ concat rs2.*2).
  { rewrite <- (runes_concat s'), H, fmap_app. apply concat_app. }
  rewrite Es in Er. rewrite (runes_head_prefix r b _ _ Hd Er). by rewrite IH'.
Qed.

(** And what is left of it are the runes of what is left. *)
Lemma runes_suffix rs1 : forall s rs2, runes s = rs1 ++ rs2 -> runes (concat rs2.*2) = rs2.
Proof.
  induction rs1 as [|[r b] rs1 IH]; intros s rs2 H.
  { cbn [app] in H. by rewrite <- H, runes_concat, H. }
  destruct s as [|b0 s1]; [done|]. destruct (runes_cons b0 s1) as (r' & b' & s' & E & Hd & Er & Hl).
  rewrite Er in H. cbn [app] in H. injection H as _ _ H. by apply (IH s').
Qed.

Lemma decodes_nonempty r b : decodes r b -> b <> [].
Proof. by destruct 1. Qed.

Lemma runes_nonempty s : Forall (fun rb => rb.2 <> []) (runes s).
Proof.
  apply (runes_ind (fun _ l => Forall (fun rb => rb.2 <> []) l)); [done|].
  intros r b s' Hd IH. constructor; [by apply (decodes_nonempty r)|done].
Qed.

Lemma fields_words s rs : forall a pre,
  runes s = a ++ pre ++ rs -> Forall (fun rb => IsSpace rb.1 = false) pre ->
  Forall is_word (fields_loop rs (concat pre.*2)).
Proof.
  assert (Hw : forall a pre rs, runes s = a ++ pre ++ rs ->
    Forall (fun rb => IsSpace rb.1 = false) pre -> concat pre.*2 <> [] -> is_word (concat pre.*2)).
  { intros a pre rs' H Hp Hne. split; [done|].
    apply (runes_suffix a) in H. by rewrite (runes_prefix _ _ _ H). }
  induction rs as [|[r b] rs IH]; intros a pre H Hp; cbn [fields_loop].
  { case_bool_decide; constructor; [|done]. by apply (Hw a pre []). }
  destruct (IsSpace r) eqn:Er.
  - assert (H' : runes s = (a ++ pre ++ [(r, b)]) ++ [] ++ rs) by (rewrite H, <- !app_assoc; done).
    pose proof (IH _ [] H' (List.Forall_nil _)) as Hr. case_bool_decide; [done|].
    constructor; [by apply (Hw a pre ((r, b) :: rs))|done].
  - replace (concat pre.*2 ++ b) with (concat (pre ++ [(r, b)]).*2)
      by (rewrite fmap_app, concat_app; simpl; by rewrite app_nil_r).
    apply (IH a); [by rewrite H, <- app_assoc|]. apply Forall_app. by split; [|constructor].
Qed.

Lemma Fields_words s : Forall is_word (Fields s).
Proof. by apply (fields_words s (runes s) [] []). Qed.

(** ** Numbers *)

Definition is_digit (b : byte) : Prop := 48 <= b <= 57.

Lemma digits_are fuel : forall n, 0 <= n -> Forall is_digit (digits fuel n).
Proof.
  induction fuel as [|fuel IH]; intros n Hn; simpl; [done|]. unfold is_digit in *.
  destruct (Z.ltb_spec n 10); [repeat constructor; lia|].
  apply Forall_app. split; [apply IH; apply Z.div_pos; lia|].
  pose proof (Z.mod_pos_bound n 10). repeat constructor; lia.
Qed.

(** The number that digits stand for, with [n] in front. *)
Fixpoint value (s : bytes) (n : Z) : Z :=
  match s with [] => n | b :: s' => value s' (10 * n + (b - 48)) end.

Lemma value_app s : forall t n, value (s ++ t) n = value t (value s n).
Proof. induction s as [|b s IH]; intros t n; [done|]. simpl. apply IH. Qed.

Lemma digits_value fuel : forall n, 0 <= n < 2 ^ Z.of_nat fuel -> value (digits fuel n) 0 = n.
Proof.
  induction fuel as [|fuel IH]; intros n Hn; [simpl in *; lia|]. cbn [digits].
  destruct (Z.ltb_spec n 10); [simpl; lia|].
  rewrite value_app, IH; [simpl|].
  - pose proof (Z.div_mod n 10). lia.
  - split; [apply Z.div_pos; lia|]. apply Z.div_lt_upper_bound; [lia|].
    rewrite Nat2Z.inj_succ, Z.pow_succ_r in Hn by lia. lia.
Qed.

Lemma log2_fuel n : 0 <= n -> n < 2 ^ Z.of_nat (S (Z.to_nat (Z.log2 n))).
Proof.
  intros Hn. rewrite Nat2Z.inj_succ, Z2Nat.id by apply Z.log2_nonneg.
  destruct (decide (n = 0)) as [->|]; [done|]. apply Z.log2_spec. lia.
Qed.

Lemma Itoa_value n : 0 <= n -> value (Itoa n) 0 = n /\ Forall is_digit (Itoa n) /\ Itoa n <> [].
Proof.
  intros Hn. unfold Itoa. rewrite (proj2 (Z.ltb_ge _ _)) by done. split_and!.
  - apply digits_value. split; [done|by apply log2_fuel].
  - by apply digits_are.
  - cbn [digits]. destruct (n <? 10); [done|]. by destruct (digits _ _).
Qed.

(** The bytes of a printed number. *)
Lemma Itoa_bytes n : Forall (fun b => b = 45 \/ is_digit b) (Itoa n).
Proof.
  assert (H : forall f m, 0 <= m -> Forall (fun b => b = 45 \/ is_digit b) (digits f m)).
  { intros f m Hm. eapply Forall_impl; [by apply digits_are|]. intros b. by right. }
  unfold Itoa. destruct (Z.ltb_spec n 0); [constructor; [by left|]|]; apply H; lia.
Qed.

Lemma value_mono s : forall n, 0 <= n -> Forall is_digit s -> n <= value s n.
Proof.
  induction s as [|b s IH]; intros n Hn Hs; simpl; [done|].
  apply Forall_cons in Hs as [Hb Hs]. unfold is_digit in Hb.
  specialize (IH (10 * n + (b - 48)) ltac:(lia) Hs). lia.
Qed.

(** [strconv.ParseUint]: digits up to the bound are their value. *)
Lemma parse_uint_ok s : forall n,
  Forall is_digit s -> 0 <= n -> value s n < 2 ^ 32 -> parse_uint s n = (value s n, None).
Proof.
  induction s as [|b s IH]; intros n Hs Hn Hv; [done|]. simpl in Hv |- *.
  apply Forall_cons in Hs as [Hb Hs]. unfold is_digit in Hb.
  rewrite (proj2 (Z.leb_le 48 b)), (proj2 (Z.leb_le b 57)) by lia. cbn [andb].
  pose proof (value_mono s (10 * n + (b - 48)) ltac:(lia) Hs).
  rewrite (proj2 (Z.ltb_lt _ _)) by lia. by apply IH; [|lia|].
Qed.

Lemma parse_uint_range s : forall n,
  Forall is_digit s -> 0 <= n < 2 ^ 32 -> 2 ^ 32 <= value s n -> parse_uint s n = (2 ^ 32 - 1, Some ErrRange).
Proof.
  induction s as [|b s IH]; intros n Hs Hn Hv; simpl in Hv |- *; [lia|].
  apply Forall_cons in Hs as [Hb Hs]. unfold is_digit in Hb.
  rewrite (proj2 (Z.leb_le 48 b)), (proj2 (Z.leb_le b 57)) by lia. cbn [andb].
  destruct (Z.ltb_spec (10 * n + (b - 48)) (2 ^ 32)); [|done]. apply IH; [done|lia|done].
Qed.
