(* ===== verification/Utils.v ===== *)
(** * Utils: the text functions of [utils.go].

    Stripping escape sequences, display widths, wrapping, padding, truncating, boxes and
    progress bars, and the line splitter for [bufio.Scanner]. [int] arithmetic is exact
    except in [ProgressBar], whose product may overflow. *)
From Stdlib Require Import String.
From S2P Require Import Prelude GoText.
#[local] Open Scope Z_scope.

(** ** Escape sequences *)

Definition is_final (b : byte) : bool := (0x40 <=? b) && (b <=? 0x7E).

(** [for i < len(s) && !(s[i] >= 0x40 && s[i] <= 0x7E) { i++ }]: what is left of [s]. *)
Fixpoint csi_end (s : bytes) : bytes :=
  match s with
  | [] => []
  | b :: s' => if is_final b then s else csi_end s'
  end.

(** The loop of [StripANSI] on the rest of the string; [i++] drops the byte at [i]. *)
Fixpoint strip_loop (fuel : nat) (s : bytes) : bytes :=
  match fuel with
  | O => []
  | S fuel' =>
      match s with
      | [] => []
      | b :: s' =>
          if (b =? 0x1B) && negb (bool_decide (s' = [])) then
            match s' with
            | 0x5B :: s'' => strip_loop fuel' (List.tl (csi_end s''))
            | _ => strip_loop fuel' (List.tl s')
            end
          else b :: strip_loop fuel' s'
      end
  end.

Definition StripANSI (s : bytes) : bytes := strip_loop (length s) s.

(** ** Widths *)

Section Width.
  Context `{Unicode}.

Definition rune_width (r : Z) : Z :=
  if is_Mn r then 0 else if 1 <? RuneLen r then 2 else 1.

Fixpoint width_loop (rs : list (Z * bytes)) (width : Z) : Z :=
  match rs with
  | [] => width
  | (r, _) :: rs' =>
      if is_Mn r then width_loop rs' width
      else if 1 <? RuneLen r then width_loop rs' (width + 2)
      else width_loop rs' (width + 1)
  end.

Definition StringWidth (s : bytes) : Z := width_loop (runes s) 0.

(** ** WordWrap *)

Fixpoint wrap_loop (words : list bytes) (maxWidth : Z) (lines : list bytes) (line : bytes)
    (lineWidth : Z) : list bytes :=
  match words with
  | [] => if 0 <? zlen line then lines ++ [line] else lines
  | word :: words' =>
      let wordWidth := StringWidth word in
      let '(lines, line, lineWidth) :=
        if (0 <? lineWidth) && (maxWidth <? lineWidth + 1 + wordWidth)
        then (lines ++ [line], [], 0) else (lines, line, lineWidth) in
      let '(line, lineWidth) :=
        if 0 <? lineWidth then (line ++ [0x20], lineWidth + 1) else (line, lineWidth) in
      wrap_loop words' maxWidth lines (line ++ word) (lineWidth + wordWidth)
  end.

Definition WordWrap (text : bytes) (maxWidth : Z) : list bytes :=
  let maxWidth := if maxWidth <=? 0 then 80 else maxWidth in
  wrap_loop (Fields text) maxWidth [] [] 0.

(** ** Padding *)

Definition PadRight (s : bytes) (width : Z) : option bytes :=
  let w := StringWidth s in
  if width <=? w then Some s
  else pad ← strings_Repeat [0x20] (width - w); Some (s ++ pad).

Definition PadLeft (s : bytes) (width : Z) : option bytes :=
  let w := StringWidth s in
  if width <=? w then Some s
  else pad ← strings_Repeat [0x20] (width - w); Some (pad ++ s).

Definition Center (s : bytes) (width : Z) : option bytes :=
  let w := StringWidth s in
  if width <=? w then Some s
  else
    let left := Z.quot (width - w) 2 in
    let right := width - w - left in
    l ← strings_Repeat [0x20] left;
    r ← strings_Repeat [0x20] right;
    Some (l ++ s ++ r).

(** ** Truncate *)

Fixpoint truncate_loop (rs : list (Z * bytes)) (limit : Z) (ellipsis b : bytes) (width : Z) : bytes :=
  match rs with
  | [] => b
  | (r, _) :: rs' =>
      let rw := if 1 <? RuneLen r then 2 else 1 in
      if limit <? width + rw then b ++ ellipsis
      else truncate_loop rs' limit ellipsis (b ++ encode r) (width + rw)
  end.

Definition Truncate (s : bytes) (maxWidth : Z) (ellipsis : bytes) : bytes :=
  let w := StringWidth s in
  if w <=? maxWidth then s
  else
    let ew := StringWidth ellipsis in
    if maxWidth <=? ew then ellipsis
    else truncate_loop (runes s) (maxWidth - ew) ellipsis [] 0.

(** ** Printable text *)

Definition IsPrintable (s : bytes) : bool :=
  forallb (fun rb => IsPrint rb.1 || IsSpace rb.1) (runes s).

Definition Sanitize (s : bytes) : bytes :=
  concat ((fun rb : Z * bytes =>
    if IsPrint rb.1 || (rb.1 =? 10) || (rb.1 =? 13) || (rb.1 =? 9) then encode rb.1 else [])
    <$> runes s).

Definition Repeat (s : bytes) (n : Z) : option bytes := strings_Repeat s n.

(** ** Box *)

Fixpoint box_width (lines : list bytes) (width : Z) : Z :=
  match lines with
  | [] => width
  | line :: lines' =>
      let w := StringWidth line in box_width lines' (if width <? w then w else width)
  end.

Fixpoint box_rows (lines : list bytes) (width : Z) (b : bytes) : option bytes :=
  match lines with
  | [] => Some b
  | line :: lines' =>
      pad ← PadRight line (width - 4);
      box_rows lines' width (b ++ str "| " ++ pad ++ str " |" ++ [10])
  end.

Definition Box (lines : list bytes) (width : Z) : option bytes :=
  let width := if width <=? 0 then box_width lines width + 4 else width in
  dashes ← strings_Repeat (str "-") (width - 2);
  let top := str "+" ++ dashes ++ str "+" in
  b ← box_rows lines width (top ++ [10]);
  Some (b ++ top).
End Width.

(** ** ProgressBar *)

(** The 64-bit [int]. *)
Definition i64 (z : Z) : Z := (z + 2 ^ 63) mod 2 ^ 64 - 2 ^ 63.

Definition ProgressBar (current total width : Z) : option bytes :=
  if total <=? 0 then
    bar ← strings_Repeat (str "-") width; Some (str "[" ++ bar ++ str "]")
  else
    let current := if total <? current then total else current in
    let filled := Z.quot (i64 (current * width)) total in
    full ← strings_Repeat (str "=") filled;
    rest ← strings_Repeat (str "-") (width - filled);
    Some (str "[" ++ full ++ rest ++ str "]").

(** ** SplitLines *)

(** The loop over [data]: what to advance by and where the token ends, at the first line
    ending from [i] on. *)
Fixpoint split_loop (rest : bytes) (i : nat) : option (nat * nat) :=
  match rest with
  | [] => None
  | b :: rest' =>
      if b =? 10 then Some ((i + 1)%nat, i)
      else if b =? 13 then
        match rest' with
        | 10 :: _ => Some ((i + 2)%nat, i)
        | _ => Some ((i + 1)%nat, i)
        end
      else split_loop rest' (i + 1)
  end.

(** [advance] and [token]; a nil token is [None], and the error is always nil. *)
Definition SplitLines (data : bytes) (atEOF : bool) : nat * option bytes :=
  if atEOF && bool_decide (data = []) then (0%nat, None)
  else match split_loop data 0 with
  | Some (advance, end_) => (advance, Some (take end_ data))
  | None => if atEOF then (length data, Some data) else (0%nat, None)
  end.

Definition ScanLines (data : bytes) (atEOF : bool) : nat * option bytes := SplitLines data atEOF.

(** [bufio.Scanner] over a reader that delivers [chunks] and then EOF: it asks the
    splitter, and reads on when it gets no token. *)
Fixpoint scan (fuel : nat) (split : bytes -> bool -> nat * option bytes)
    (buf : bytes) (chunks : list bytes) (eof : bool) : option (list bytes) :=
  match fuel with
  | O => None
  | S fuel' =>
      let more :=
        match chunks with
        | c :: chunks' => scan fuel' split (buf ++ c) chunks' eof
        | [] => if eof then Some [] else scan fuel' split buf [] true
        end in
      if bool_decide (buf = []) && negb eof then more
      else match split buf eof with
      | (advance, Some token) => (token ::.) <$> scan fuel' split (drop advance buf) chunks eof
      | (_, None) => more
      end
  end.
