(* ===== verification/UtilsProps.v ===== *)
(** * UtilsProps: what the text functions of [utils.go] compute. *)
From Stdlib Require Import String.
From S2P Require Import Prelude GoText Utils.
#[local] Open Scope Z_scope.

(** ** StripANSI *)

(** The reference: a state machine over the bytes. A final lone ESC is text. *)
Inductive ansi_state := Text | Esc | Csi.

Fixpoint strip_ref (st : ansi_state) (s : bytes) : bytes :=
  match s with
  | [] => []
  | b :: s' =>
      match st with
      | Text => if (b =? 0x1B) && negb (bool_decide (s' = [])) then strip_ref Esc s'
                else b :: strip_ref Text s'
      | Esc => if b =? 0x5B then strip_ref Csi s' else strip_ref Text s'
      | Csi => if is_final b then strip_ref Text s' else strip_ref Csi s'
      end
  end.

Lemma csi_end_ref s : strip_ref Text (List.tl (csi_end s)) = strip_ref Csi s.
Proof. induction s as [|b s IH]; simpl; [done|]. by destruct (is_final b). Qed.

Lemma csi_end_length s : (length (List.tl (csi_end s)) <= length s)%nat.
Proof. induction s as [|b s IH]; simpl; [done|]. destruct (is_final b); simpl; lia. Qed.

Lemma strip_loop_ref fuel : forall s, (length s <= fuel)%nat -> strip_loop fuel s = strip_ref Text s.
Proof.
  induction fuel as [|fuel IH]; intros [|b s] Hf; simpl in Hf |- *; try done; [lia|].
  destruct ((b =? 27) && negb (bool_decide (s = []))) eqn:E; [|by rewrite IH by lia].
  destruct s as [|c s]; [by rewrite andb_false_r in E|]. simpl in Hf.
  assert (H : strip_loop fuel (List.tl (c :: s)) = strip_ref Text s) by (apply IH; simpl; lia).
  pose proof (csi_end_length s). simpl.
  destruct (Z.eqb_spec c 0x5B) as [->|Hc].
  - rewrite IH by lia. apply csi_end_ref.
  - destruct c as [|p|p]; try exact H. do 7 (destruct p as [p|p|]; try exact H). by destruct Hc.
Qed.

Lemma StripANSI_ref s : StripANSI s = strip_ref Text s.
Proof. by apply strip_loop_ref. Qed.

Lemma strip_plain t s :
  Forall (fun b => b <> 0x1B) t -> StripANSI (t ++ s) = t ++ StripANSI s.
Proof.
  rewrite !StripANSI_ref. induction 1 as [|b t Hb _ IH]; [done|]. simpl.
  rewrite (proj2 (Z.eqb_neq _ _)) by done. simpl. by f_equal.
Qed.

Lemma StripANSI_nil : StripANSI [] = [].
Proof. done. Qed.

(** A complete control sequence disappears. *)
Lemma strip_csi params f s :
  Forall (fun b => is_final b = false) params -> is_final f = true ->
  StripANSI (0x1B :: 0x5B :: params ++ f :: s) = StripANSI s.
Proof.
  intros Hp Hf. rewrite !StripANSI_ref. simpl.
  induction Hp as [|b params Hb _ IH]; simpl; [by rewrite Hf|by rewrite Hb].
Qed.

(** What is left has no escape but perhaps as its last byte. *)
Lemma strip_ref_no_esc s : forall st,
  exists t e, strip_ref st s = t ++ e /\ Forall (fun b => b <> 0x1B) t /\ (e = [] \/ e = [0x1B]).
Proof.
  induction s as [|b s IH]; intros st; simpl.
  { exists [], []. split_and!; [done|constructor|by left]. }
  destruct st.
  - destruct (Z.eqb_spec b 27) as [->|Hb]; cbn [andb].
    + case_bool_decide as Hs; cbn [negb]; [|apply IH]. subst s.
      exists [], [27]. split_and!; [done|constructor|by right].
    + destruct (IH Text) as (t & e & -> & Ht & He). exists (b :: t), e.
      split_and!; [done|by constructor|done].
  - destruct (b =? 91); apply IH.
  - destruct (is_final b); apply IH.
Qed.

(** C38: [StripANSI] removes the escape sequences and nothing else. It is the state
    machine that drops ESC with the byte after it and, when that byte is a bracket,
    everything up to the final byte; its result has no ESC except a lone one that ended
    the text, and stripping twice changes nothing. *)
Theorem StripANSI_correct s :
  StripANSI s = strip_ref Text s /\
  (exists t e, StripANSI s = t ++ e /\ Forall (fun b => b <> 0x1B) t /\ (e = [] \/ e = [0x1B])) /\
  StripANSI (StripANSI s) = StripANSI s.
Proof.
  split; [apply StripANSI_ref|].
  assert (H : exists t e, StripANSI s = t ++ e /\ Forall (fun b => b <> 0x1B) t /\ (e = [] \/ e = [0x1B]))
    by (rewrite StripANSI_ref; apply strip_ref_no_esc).
  split; [done|]. destruct H as (t & e & -> & Ht & He). rewrite strip_plain by done.
  by destruct He as [-> | ->].
Qed.

(** ** Widths *)

Section Widths.
  Context `{UnicodeLaws}.

Lemma width_loop_add rs : forall w, width_loop rs w = w + width_loop rs 0.
Proof using Type.
  induction rs as [|[r b] rs IH]; intros w; simpl; [lia|].
  destruct (is_Mn r); [apply IH|]. destruct (1 <? RuneLen r); rewrite IH, (IH (0 + _)); lia.
Qed.

Lemma width_loop_app rs1 rs2 w : width_loop (rs1 ++ rs2) w = width_loop rs2 (width_loop rs1 w).
Proof using Type.
  revert w. induction rs1 as [|[r b] rs1 IH]; intros w; simpl; [done|].
  destruct (is_Mn r); [apply IH|]. destruct (1 <? RuneLen r); apply IH.
Qed.

Lemma width_loop_nonneg rs w : w <= width_loop rs w.
Proof using Type.
  revert w. induction rs as [|[r b] rs IH]; intros w; simpl; [lia|].
  destruct (is_Mn r); [apply IH|].
  destruct (1 <? RuneLen r); (etrans; [|apply IH]); lia.
Qed.

Lemma StringWidth_nonneg s : 0 <= StringWidth s.
Proof using Type. apply width_loop_nonneg. Qed.

Lemma StringWidth_app s l : starts_rune l -> StringWidth (s ++ l) = StringWidth s + StringWidth l.
Proof using Type.
  intros Hl. unfold StringWidth. by rewrite runes_app, width_loop_app, width_loop_add by done.
Qed.

(** A printable ASCII character is one column wide. *)
Lemma width_ascii s : Forall (fun b => 0 <= b < 0x80) s -> StringWidth s = zlen s.
Proof using Type*.
  intros Hs. unfold StringWidth. rewrite runes_ascii by (eapply Forall_impl; [done|]; simpl; lia).
  induction Hs as [|b s Hb _ IH]; [done|]. cbn [fmap list_fmap width_loop].
  rewrite Mn_ascii by lia. assert (E : RuneLen b = 1).
  { unfold RuneLen. by rewrite (proj2 (Z.ltb_ge _ _)), (proj2 (Z.leb_le _ _)) by lia. }
  rewrite E. change (1 <? 1) with false. cbn iota. rewrite width_loop_add, IH, zlen_cons. lia.
Qed.

Lemma ascii_app_width s l :
  Forall (fun b => 0 <= b < 0x80) s -> StringWidth (s ++ l) = zlen s + StringWidth l.
Proof using Type*.
  intros Hs. rewrite <- (width_ascii s Hs). unfold StringWidth.
  assert (Hs' : Forall (fun b => b < 0x80) s) by (eapply Forall_impl; [done|]; simpl; lia).
  by rewrite runes_ascii_app, (runes_ascii s), width_loop_app, width_loop_add by done.
Qed.

Lemma app_ascii_width s l :
  Forall (fun b => 0 <= b < 0x80) l -> StringWidth (s ++ l) = StringWidth s + zlen l.
Proof using Type*.
  intros Hl. rewrite StringWidth_app, (width_ascii l Hl); [done|].
  apply ascii_starts. eapply Forall_impl; [done|]; simpl; lia.
Qed.

(** [strings.Repeat] of one character. *)
Lemma Repeat_ok b n : 0 <= n -> exists l, strings_Repeat [b] n = Some l /\ l = replicate (Z.to_nat n) b.
Proof using Type.
  intros Hn. unfold strings_Repeat. rewrite (proj2 (Z.ltb_ge _ _)) by done. eexists. split; [done|].
  generalize (Z.to_nat n). intros m. induction m as [|m IH]; [done|]. simpl. by f_equal.
Qed.

Lemma replicate_ascii b n : 0 <= b < 0x80 -> Forall (fun b => 0 <= b < 0x80) (replicate n b).
Proof using Type. intros Hb. apply Forall_replicate. done. Qed.

Lemma zlen_replicate {A} (b : A) n : 0 <= n -> zlen (replicate (Z.to_nat n) b) = n.
Proof using Type. intros Hn. unfold zlen. rewrite length_replicate. lia. Qed.

(** Padding. [PadRight], [PadLeft] and [Center] never panic, keep the text, add only
    blanks, and give the width asked for unless the text is wider already. *)
Theorem padding_correct s width :
  exists l r c1 c2,
    PadRight s width = Some (s ++ r) /\ PadLeft s width = Some (l ++ s) /\
    Center s width = Some (c1 ++ s ++ c2) /\
    Forall (fun b => b = 0x20) (l ++ r ++ c1 ++ c2) /\
    zlen c1 <= zlen c2 <= zlen c1 + 1 /\
    Forall (fun t => StringWidth t = Z.max (StringWidth s) width) [s ++ r; l ++ s; c1 ++ s ++ c2].
Proof using Type*.
  unfold PadRight, PadLeft, Center. destruct (Z.leb_spec width (StringWidth s)) as [Hle|Hgt].
  { exists [], [], [], []. cbn [app]. rewrite !app_nil_r.
    split_and!; try done; try zl. repeat constructor; lia. }
  set (d := width - StringWidth s). assert (Hd : 0 <= d) by (unfold d; lia).
  assert (Hq : 0 <= Z.quot d 2 <= d /\ Z.quot d 2 <= d - Z.quot d 2 <= Z.quot d 2 + 1).
  { pose proof (Z.quot_rem' d 2). pose proof (Z.rem_bound_pos d 2). lia. }
  destruct (Repeat_ok 0x20 d Hd) as (r & E & Er).
  destruct (Repeat_ok 0x20 (Z.quot d 2)) as (c1 & E1 & Er1); [lia|].
  destruct (Repeat_ok 0x20 (d - Z.quot d 2)) as (c2 & E2 & Er2); [lia|].
  rewrite E, E1, E2. cbn [mbind option_bind].
  assert (A : forall n, Forall (fun b => 0 <= b < 0x80) (replicate n 0x20)) by (intros; by apply replicate_ascii).
  exists r, r, c1, c2. subst r c1 c2. split_and!; try done.
  - rewrite !Forall_app. split_and!; by apply Forall_replicate.
  - rewrite !zlen_replicate by lia. lia.
  - rewrite !zlen_replicate by lia. lia.
  - repeat constructor.
    + rewrite app_ascii_width, zlen_replicate by done. unfold d. lia.
    + rewrite ascii_app_width, zlen_replicate by done. unfold d. lia.
    + rewrite ascii_app_width, app_ascii_width, !zlen_replicate by (done || lia). unfold d in *. lia.
Qed.
End Widths.

Lemma padding_correct_witness :
  exists l r c1 c2,
    @PadRight latin_tables (str "ab") 5 = Some (str "ab" ++ r) /\
    @PadLeft latin_tables (str "ab") 5 = Some (l ++ str "ab") /\
    @Center latin_tables (str "ab") 5 = Some (c1 ++ str "ab" ++ c2) /\
    Forall (fun b => b = 0x20) (l ++ r ++ c1 ++ c2) /\
    zlen c1 <= zlen c2 <= zlen c1 + 1 /\
    Forall (fun t => @StringWidth latin_tables t = 5) [str "ab" ++ r; l ++ str "ab"; c1 ++ str "ab" ++ c2].
Proof. exact (@padding_correct latin_tables latin_laws (str "ab") 5). Defined.

(** ** WordWrap *)

Section Wrap.
  Context `{UnicodeLaws}.

Definition blank : bytes := [0x20].

Lemma Join_snoc g w sep : g <> [] -> Join (g ++ [w]) sep = Join g sep ++ sep ++ w.
Proof using Type.
  induction g as [|x g IH]; [done|]. intros _. destruct g as [|y g]; [done|].
  cbn [app Join] in *. rewrite IH by done. by rewrite <- !app_assoc.
Qed.

(** Words of a line fit together: a word never starts in the middle of a rune. *)
Lemma word_starts w : is_word w -> starts_rune w -> w <> [].
Proof using Type. by intros []. Qed.

Lemma width_blank w l : StringWidth (l ++ blank ++ w) = StringWidth l + 1 + StringWidth w.
Proof using Type*.
  rewrite StringWidth_app by done. rewrite ascii_app_width by (repeat constructor; lia).
  unfold blank, zlen. simpl. lia.
Qed.

(** A line of words, and how wide it is. *)
Definition line_of (g : list bytes) : bytes := Join g blank.

(** The lines break as late as they can: a line holds one word, or fits, and the first
    word of the next line would not have fitted. *)
Fixpoint greedy (M : Z) (groups : list (list bytes)) : Prop :=
  match groups with
  | [] => True
  | g :: groups' =>
      g <> [] /\ (StringWidth (line_of g) <= M \/ length g = 1%nat) /\
      match groups' with
      | (w :: _) :: _ => M < StringWidth (line_of g) + 1 + StringWidth w
      | _ => True
      end /\ greedy M groups'
  end.

(** A line that is still being filled: its words and the condition so far. *)
Definition filling (M : Z) (cur : list bytes) (line : bytes) (lineWidth : Z) : Prop :=
  line = line_of cur /\ lineWidth = StringWidth line /\
  (cur <> [] -> 0 < lineWidth /\ line <> []) /\
  (StringWidth line <= M \/ (length cur <= 1)%nat).

Lemma filling_nil M : filling M [] [] 0.
Proof using Type. repeat split; try done. right. simpl. lia. Qed.

Lemma filling_one M w : 0 < StringWidth w -> w <> [] -> filling M [w] w (StringWidth w).
Proof using Type. intros Hw Hne. repeat split; try done. by right. Qed.

Lemma filling_add M cur line lw w :
  filling M cur line lw -> cur <> [] -> lw + 1 + StringWidth w <= M ->
  filling M (cur ++ [w]) ((line ++ blank) ++ w) (lw + 1 + StringWidth w).
Proof using Type*.
  intros (-> & -> & Hne & _) Hc Hfit. specialize (Hne Hc) as [Hpos Hl].
  assert (E : (line_of cur ++ blank) ++ w = line_of (cur ++ [w]))
    by (unfold line_of; rewrite Join_snoc by done; by rewrite <- app_assoc).
  assert (Ew : StringWidth ((line_of cur ++ blank) ++ w) = StringWidth (line_of cur) + 1 + StringWidth w)
    by (rewrite <- app_assoc; apply width_blank).
  repeat split; try done.
  - pose proof (StringWidth_nonneg w). lia.
  - destruct (line_of cur); [done|discriminate].
  - left. lia.
Qed.

Lemma wrap_loop_ok M words : forall lines line lw cur,
  Forall (fun w => w <> [] /\ 0 < StringWidth w) words -> filling M cur line lw ->
  exists groups, wrap_loop words M lines line lw = lines ++ (line_of <$> groups) /\
    concat groups = cur ++ words /\ greedy M groups /\
    (cur <> [] -> exists g groups', groups = (cur ++ g) :: groups').
Proof using Type*.
  induction words as [|w words IH]; intros lines line lw cur Hws Hf; cbn [wrap_loop].
  { pose proof Hf as (El & Ew & Hne & Hfit). destruct (decide (cur = [])) as [->|Hc].
    - exists []. rewrite El. simpl. rewrite app_nil_r. by repeat split.
    - destruct (Hne Hc) as [_ Hl]. exists [cur].
      rewrite (proj2 (Z.ltb_lt _ _)) by (destruct line; [done|zl]).
      cbn [fmap list_fmap concat app greedy]. rewrite app_nil_r. split_and!; try done; [by rewrite El| |by exists [], []; rewrite app_nil_r].
      rewrite <- El. destruct Hfit; [by left|]. right. destruct cur as [|? [|]]; simpl in *; done || lia. }
  apply Forall_cons in Hws as [[Hwne Hwpos] Hws].
  destruct (decide (cur = [])) as [->|Hc].
  - destruct Hf as (-> & -> & _ & _). cbn [line_of Join app].
    change (StringWidth []) with 0. cbn [Z.ltb Z.compare andb].
    destruct (IH lines w (0 + StringWidth w) [w] Hws) as (gs & E & Hcat & Hg & Hfirst);
      [by apply filling_one|].
    exists gs. split_and!; done.
  - pose proof Hf as (El & Ew & Hne & Hfit). destruct (Hne Hc) as [Hpos Hl].
    rewrite (proj2 (Z.ltb_lt 0 lw)) by done. cbn [andb].
    destruct (Z.ltb_spec M (lw + 1 + StringWidth w)) as [Hbig|Hsmall].
    + cbn [Z.ltb Z.compare app].
      destruct (IH (lines ++ [line]) w (0 + StringWidth w) [w] Hws) as (gs & E & Hcat & Hg & Hfirst);
        [by apply filling_one|].
      destruct (Hfirst ltac:(done)) as (g & gs' & ->). cbn [app] in *.
      exists (cur :: (w :: g) :: gs'). rewrite E, <- app_assoc, El. split_and!; try done.
      * simpl in Hcat |- *. by rewrite <- Hcat.
      * cbn [greedy]. rewrite <- El, <- Ew. split; [done|]. split; [|split; [lia|exact Hg]].
        rewrite Ew. destruct Hfit; [by left|]. right. destruct cur as [|? [|]]; simpl in *; done || lia.
      * intros _. exists [], ((w :: g) :: gs'). by rewrite app_nil_r.
    + rewrite (proj2 (Z.ltb_lt 0 lw)) by done.
      destruct (IH lines ((line ++ blank) ++ w) (lw + 1 + StringWidth w) (cur ++ [w]) Hws)
        as (gs & E & Hcat & Hg & Hfirst); [by apply filling_add|].
      exists gs. unfold blank in E. rewrite E, Hcat, <- app_assoc. split_and!; try done.
      intros _. destruct (Hfirst ltac:(by destruct cur)) as (g & gs' & ->).
      exists (w :: g), gs'. by rewrite <- app_assoc.
Qed.

(** Joining the lines is joining the words. *)
Lemma Join_lines M gs : greedy M gs -> Join (line_of <$> gs) blank = Join (concat gs) blank.
Proof using Type.
  induction gs as [|g gs IH]; [done|]. intros (Hg & _ & _ & Hgs). specialize (IH Hgs).
  destruct gs as [|h gs]; [simpl; by rewrite app_nil_r|].
  cbn [fmap list_fmap concat] in IH |- *. rewrite Join_app; [|done|].
  - rewrite <- IH. done.
  - destruct Hgs as (Hh & _). by destruct h.
Qed.

(** C39: [WordWrap] keeps the words and breaks lines greedily, for a text in which every
    word has a positive width (a word of combining marks alone has none, and would be glued
    to the next). The lines are then the words of the text, in order, grouped and joined by
    single blanks; a line is at most as wide as asked for (80 when that is not positive)
    unless it is a single word, and breaks only where the next word would not have fitted.
    So splitting the joined lines gives back the words of the text. *)
Theorem WordWrap_correct text maxWidth :
  let M := if maxWidth <=? 0 then 80 else maxWidth in
  Forall (fun w => 0 < StringWidth w) (Fields text) ->
  exists groups, WordWrap text maxWidth = line_of <$> groups /\ concat groups = Fields text /\
    greedy M groups /\ Fields (Join (WordWrap text maxWidth) blank) = Fields text.
Proof using Type*.
  intros M Hpos. pose proof (Fields_words text) as Hw.
  assert (Hws : Forall (fun w => w <> [] /\ 0 < StringWidth w) (Fields text)).
  { apply Forall_forall. intros w Hin. rewrite Forall_forall in Hpos, Hw.
    split; [by apply Hw|by apply Hpos]. }
  destruct (wrap_loop_ok M (Fields text) [] [] 0 [] Hws (filling_nil M)) as (gs & E & Hcat & Hg & _).
  exists gs. unfold WordWrap. fold M. rewrite E. cbn [app] in Hcat |- *. split_and!; try done.
  rewrite <- Hcat in Hw |- *.
  by rewrite (Join_lines M), Fields_Join.
Qed.
End Wrap.

Lemma WordWrap_correct_witness :
  exists groups, @WordWrap latin_tables (str "the quick  brown fox") 9 = line_of <$> groups /\
    concat groups = Fields (str "the quick  brown fox") /\ @greedy latin_tables 9 groups /\
    Fields (Join (@WordWrap latin_tables (str "the quick  brown fox") 9) blank) =
    Fields (str "the quick  brown fox").
Proof.
  apply (@WordWrap_correct latin_tables latin_laws (str "the quick  brown fox") 9).
  by_decide.
Defined.

(** ** Truncate and Sanitize *)

Section Cut.
  Context `{UnicodeLaws}.

(** What [WriteRune] wrote for a list of runes. *)
Definition encoded (rs : list (Z * bytes)) : bytes := concat ((fun rb => encode rb.1) <$> rs).

(** The width [Truncate] counts: marks count as their encoding does. *)
Definition counted (rs : list (Z * bytes)) : Z :=
  foldr (fun rb w => (if 1 <? RuneLen rb.1 then 2 else 1) + w) 0 rs.

Lemma runes_encoded rs l :
  Forall (fun rb => valid_rune rb.1 = true) rs ->
  runes (encoded rs ++ l) = ((fun rb => (rb.1, encode rb.1)) <$> rs) ++ runes l.
Proof using Type.
  induction 1 as [|[r b] rs Hr _ IH]; [done|]. unfold encoded in *. cbn [fmap list_fmap concat fst].
  rewrite <- app_assoc, runes_encode by done. by rewrite IH.
Qed.

Lemma counted_bound rs : width_loop ((fun rb => (rb.1, encode rb.1)) <$> rs) 0 <= counted rs.
Proof using Type.
  induction rs as [|[r b] rs IH]; [done|]. cbn [fmap list_fmap width_loop counted foldr fst].
  fold (counted rs). destruct (is_Mn r).
  - destruct (1 <? RuneLen r); lia.
  - destruct (1 <? RuneLen r); rewrite width_loop_add; lia.
Qed.

Lemma counted_nonneg rs : 0 <= counted rs.
Proof using Type. induction rs as [|[r b] rs IH]; simpl; [done|]. destruct (1 <? RuneLen r); lia. Qed.

Lemma counted_width rs : width_loop rs 0 <= counted rs.
Proof using Type.
  induction rs as [|[r b] rs IH]; [done|]. cbn [width_loop counted foldr fst]. fold (counted rs).
  destruct (is_Mn r); [destruct (1 <? RuneLen r); lia|].
  destruct (1 <? RuneLen r); rewrite width_loop_add; lia.
Qed.

(** The loop stops at the first rune that does not fit. *)
Lemma truncate_loop_ok rs limit e : forall b width,
  width <= limit -> limit < width + counted rs ->
  exists k rb rs', rs = k ++ rb :: rs' /\ truncate_loop rs limit e b width = (b ++ encoded k) ++ e /\
    width + counted k <= limit < width + counted (k ++ [rb]).
Proof using Type.
  induction rs as [|[r x] rs IH]; intros b width Hle Hw; cbn [truncate_loop]; [simpl in Hw; lia|].
  cbn [counted foldr fst] in Hw. fold (counted rs) in Hw. set (rw := if 1 <? RuneLen r then 2 else 1) in *.
  destruct (Z.ltb_spec limit (width + rw)) as [Hbig|Hsmall].
  - exists [], (r, x), rs. simpl. rewrite app_nil_r. fold rw. split_and!; try done; lia.
  - destruct (IH (b ++ encode r) (width + rw)) as (k & rb & rs' & -> & E & Hk); [lia..|].
    exists ((r, x) :: k), rb, rs'. rewrite E. cbn [app counted foldr fst]. fold (counted k).
    fold (counted (k ++ [rb])). fold rw. split_and!; [done| |lia|lia].
    unfold encoded. cbn [fmap list_fmap concat fst]. by rewrite <- !app_assoc.
Qed.

(** [Truncate] fits the width. A text that fits is unchanged. A longer one is cut
    after the last rune that leaves room for the ellipsis (a combining mark is taken to
    be as wide as its encoding suggests), and the result is at most as wide as asked
    for. But an ellipsis that is itself too wide is returned whole. *)
Theorem Truncate_fits s maxWidth ellipsis :
  wf_bytes s ->
  (StringWidth s <= maxWidth -> Truncate s maxWidth ellipsis = s) /\
  (maxWidth < StringWidth s -> maxWidth <= StringWidth ellipsis ->
     Truncate s maxWidth ellipsis = ellipsis) /\
  (maxWidth < StringWidth s -> StringWidth ellipsis < maxWidth ->
     exists k rb rs, runes s = k ++ rb :: rs /\ Truncate s maxWidth ellipsis = encoded k ++ ellipsis /\
       StringWidth (encoded k ++ ellipsis) <= maxWidth /\
       counted k <= maxWidth - StringWidth ellipsis < counted (k ++ [rb])).
Proof using Type*.
  intros Hwf. unfold Truncate. split_and!.
  - intros Hle. by rewrite (proj2 (Z.leb_le _ _)).
  - intros Hgt He. by rewrite (proj2 (Z.leb_gt _ _)), (proj2 (Z.leb_le _ _)).
  - intros Hgt He. rewrite (proj2 (Z.leb_gt _ _)), (proj2 (Z.leb_gt _ _)) by done.
    pose proof (counted_width (runes s)) as Hc. fold (StringWidth s) in Hc.
    pose proof (StringWidth_nonneg ellipsis).
    destruct (truncate_loop_ok (runes s) (maxWidth - StringWidth ellipsis) ellipsis [] 0)
      as (k & rb & rs & Er & E & Hk); [lia..|].
    exists k, rb, rs. rewrite E. split_and!; try done; [|lia|lia].
    pose proof (runes_valid s Hwf) as Hv. rewrite Er in Hv. apply Forall_app in Hv as [Hv _].
    unfold StringWidth at 1. rewrite runes_encoded, width_loop_app, width_loop_add by done.
    fold (StringWidth ellipsis). pose proof (counted_bound k). lia.
Qed.

(** The runes that [Sanitize] keeps. *)
Definition keeps (rb : Z * bytes) : bool :=
  IsPrint rb.1 || (rb.1 =? 10) || (rb.1 =? 13) || (rb.1 =? 9).

Lemma Sanitize_encoded s : Sanitize s = encoded (List.filter keeps (runes s)).
Proof using Type.
  unfold Sanitize. induction (runes s) as [|rb rs IH]; [done|].
  cbn [fmap list_fmap concat List.filter]. rewrite IH. fold (keeps rb). by destruct (keeps rb).
Qed.

(** [Sanitize] leaves printable text. Its result passes [IsPrintable], it keeps
    exactly the printable runes and line ends and tabs, and doing it again changes
    nothing. *)
Theorem Sanitize_printable s :
  wf_bytes s ->
  let kept := List.filter keeps (runes s) in
  Sanitize s = encoded kept /\ (runes (Sanitize s)).*1 = kept.*1 /\
  IsPrintable (Sanitize s) = true /\ Sanitize (Sanitize s) = Sanitize s.
Proof using Type*.
  intros Hwf kept. rewrite Sanitize_encoded. fold kept.
  assert (Hk : Forall (fun rb => valid_rune rb.1 = true /\ keeps rb = true) kept).
  { apply Forall_forall. intros rb Hin. apply list_elem_of_In, filter_In in Hin as [Hin Hk].
    split; [|done]. pose proof (runes_valid s Hwf) as Hv. rewrite Forall_forall in Hv.
    by apply Hv, list_elem_of_In. }
  assert (Er : runes (encoded kept) = (fun rb => (rb.1, encode rb.1)) <$> kept).
  { rewrite <- (app_nil_r (encoded kept)), runes_encoded, app_nil_r; [done|].
    eapply Forall_impl; [exact Hk|]. by intros ? []. }
  split; [done|]. split; [by rewrite Er, <- list_fmap_compose|].
  rewrite Sanitize_encoded. unfold IsPrintable. rewrite Er. clear Er.
  induction Hk as [|rb l [_ Hk] _ [IH1 IH2]]; [done|].
  cbn [fmap list_fmap forallb List.filter]. change (keeps (rb.1, encode rb.1)) with (keeps rb).
  rewrite Hk, IH1. split; [|unfold encoded in *; cbn [fmap list_fmap concat]; by rewrite IH2].
  unfold keeps in Hk. rewrite !orb_true_iff, !Z.eqb_eq in Hk. cbn [fst].
  destruct Hk as [[[-> | ->]| ->]| ->]; by rewrite ?orb_true_r.
Qed.
End Cut.

Lemma Truncate_fits_witness :
  exists k rb rs, runes (str "Hello, world") = k ++ rb :: rs /\
    @Truncate latin_tables (str "Hello, world") 8 (str "...") = encoded k ++ str "..." /\
    @StringWidth latin_tables (encoded k ++ str "...") <= 8 /\
    counted k <= 5 < counted (k ++ [rb]).
Proof.
  apply (@Truncate_fits latin_tables latin_laws (str "Hello, world") 8 (str "...")); by_decide.
Defined.

Lemma Sanitize_printable_witness :
  let s := [72; 105; 7; 0xC3; 0xA9; 0xFF; 10] in
  let t := @Sanitize latin_tables s in
  t = [72; 105; 0xC3; 0xA9; 0xEF; 0xBF; 0xBD; 10] /\ @IsPrintable latin_tables t = true /\
  @Sanitize latin_tables t = t.
Proof.
  intros s t. split; [vm_compute; reflexivity|].
  apply (@Sanitize_printable latin_tables latin_laws s). by_decide.
Defined.

(** ** Box and ProgressBar *)

Section Boxes.
  Context `{UnicodeLaws}.

(** A row of a box: the text padded between its borders. *)
Definition box_row (line pad : bytes) : bytes := str "| " ++ line ++ pad ++ str " |".

Lemma box_rows_ok lines width : forall b,
  Forall (fun line => StringWidth line <= width - 4) lines ->
  exists rows, box_rows lines width b = Some (b ++ concat ((fun r => r ++ [10]) <$> rows)) /\
    Forall2 (fun line row => exists pad, row = box_row line pad /\ Forall (fun c => c = 0x20) pad) lines rows /\
    Forall (fun row => StringWidth row = width) rows.
Proof using Type*.
  induction lines as [|line lines IH]; intros b Hl; cbn [box_rows].
  { exists []. simpl. by rewrite app_nil_r. }
  apply Forall_cons in Hl as [Hw Hl].
  destruct (padding_correct line (width - 4)) as (l & r & c1 & c2 & -> & _ & _ & Hb & _ & Hws).
  apply Forall_cons in Hws as [Hr _]. cbn [mbind option_bind].
  destruct (IH (b ++ str "| " ++ (line ++ r) ++ str " |" ++ [10]) Hl) as (rows & -> & H2 & Hrows).
  exists (box_row line r :: rows). split_and!.
  - unfold box_row. cbn [fmap list_fmap concat]. by rewrite <- !app_assoc.
  - constructor; [|done]. exists r. split; [done|]. rewrite !Forall_app in Hb. apply Hb.
  - constructor; [|done]. unfold box_row.
    rewrite ascii_app_width by by_decide. rewrite (app_assoc line), app_ascii_width by by_decide.
    rewrite Hr. unfold zlen. simpl. lia.
Qed.

Lemma box_width_max lines : forall w, w <= box_width lines w /\
  Forall (fun line => StringWidth line <= box_width lines w) lines /\
  (w <= 0 -> lines <> [] -> 0 <= box_width lines w).
Proof using Type.
  induction lines as [|line lines IH]; intros w; cbn [box_width]; [by repeat constructor|].
  set (w' := if w <? StringWidth line then StringWidth line else w).
  assert (Hw' : w <= w' /\ StringWidth line <= w') by (unfold w'; cmp; lia).
  destruct (IH w') as (Hle & Hall & _). pose proof (StringWidth_nonneg line).
  split_and!; [lia| |lia]. constructor; [lia|done].
Qed.

(** [Box] draws a rectangle. If the lines fit the width (or no width is given and
    there is a line), it does not panic, and its rows, the two borders and one row per
    line with only blanks added, are all equally wide. *)
Theorem Box_rectangle lines width :
  (4 <= width /\ Forall (fun line => StringWidth line <= width - 4) lines) \/
    (width <= 0 /\ lines <> []) ->
  exists W top rows, Box lines width = Some (Join (top :: rows ++ [top]) [10]) /\
    (0 < width -> W = width) /\
    Forall2 (fun line row => exists pad, row = box_row line pad /\ Forall (fun c => c = 0x20) pad) lines rows /\
    Forall (fun row => StringWidth row = W) (top :: rows).
Proof using Type*.
  intros Hc. unfold Box.
  set (W := if width <=? 0 then box_width lines width + 4 else width).
  assert (HW : 4 <= W /\ Forall (fun line => StringWidth line <= W - 4) lines /\ (0 < width -> W = width)).
  { unfold W. destruct Hc as [[Hw Hl]|[Hw Hl]].
    - by rewrite (proj2 (Z.leb_gt _ _)) by lia.
    - rewrite (proj2 (Z.leb_le _ _)) by lia. destruct (box_width_max lines width) as (_ & Hall & Hpos).
      specialize (Hpos Hw Hl). split_and!; [lia| |lia]. by rewrite Z.add_simpl_r. }
  destruct HW as (H4 & Hl & HW). destruct (Repeat_ok 45 (W - 2)) as (dashes & E & Ed); [lia|].
  change (str "-") with [45]. rewrite E. cbn [mbind option_bind].
  set (top := str "+" ++ dashes ++ str "+").
  destruct (box_rows_ok lines W (top ++ [10]) Hl) as (rows & -> & H2 & Hrows). cbn [mbind option_bind].
  exists W, top, rows. split_and!; try done.
  - f_equal. clear. rewrite <- app_assoc.
    assert (E : concat ((fun r => r ++ [10]) <$> rows) ++ top = Join (rows ++ [top]) [10]).
    { induction rows as [|r rows IH]; [done|]. cbn [fmap list_fmap concat app].
      rewrite <- !app_assoc. cbn [app]. rewrite IH. by destruct rows. }
    rewrite <- app_assoc, E. by destruct rows.
  - constructor; [|done]. unfold top. rewrite ascii_app_width by by_decide.
    rewrite app_ascii_width by by_decide. rewrite Ed, width_ascii, zlen_replicate; [|lia|by apply replicate_ascii].
    unfold zlen. simpl. lia.
Qed.

(** With a width of 1 the border would have a negative length: a panic. *)
Lemma Box_one_panics lines : Box lines 1 = None.
Proof. reflexivity. Qed.
End Boxes.

Lemma Box_rectangle_witness :
  exists W top rows, @Box latin_tables [str "ab"; str "c"] 0 = Some (Join (top :: rows ++ [top]) [10]) /\
    (0 < 0 -> W = 0) /\
    Forall2 (fun line row => exists pad, row = box_row line pad /\ Forall (fun c => c = 0x20) pad)
      [str "ab"; str "c"] rows /\
    Forall (fun row => @StringWidth latin_tables row = W) (top :: rows).
Proof. apply (@Box_rectangle latin_tables latin_laws [str "ab"; str "c"] 0). right. split; [lia|done]. Defined.

Lemma i64_small z : - 2 ^ 63 <= z < 2 ^ 63 -> i64 z = z.
Proof. intros Hz. unfold i64. rewrite Z.mod_small by lia. lia. Qed.

(** [ProgressBar] is as wide as asked for, between its brackets, and the part
    filled is the share of the total, rounded down, as long as the product of the
    current value and the width fits an [int]. *)
Theorem ProgressBar_correct current total width :
  0 <= current -> 0 <= width -> current * width < 2 ^ 63 -> 0 < total ->
  let filled := Z.min current total * width / total in
  ProgressBar current total width =
    Some (str "[" ++ replicate (Z.to_nat filled) 61 ++ replicate (Z.to_nat (width - filled)) 45 ++ str "]") /\
  0 <= filled <= width /\ (total <= current -> filled = width).
Proof.
  intros Hc Hw Hprod Ht filled.
  assert (Hb : 0 <= filled <= width).
  { unfold filled. split; [apply Z.div_pos; nia|]. apply Z.div_le_upper_bound; [lia|]. nia. }
  split; [|split; [done|]].
  - unfold ProgressBar. rewrite (proj2 (Z.leb_gt _ _)) by done.
    replace (if total <? current then total else current) with (Z.min current total) by (cmp; lia).
    assert (E : Z.quot (i64 (Z.min current total * width)) total = filled).
    { rewrite i64_small by nia. apply Z.quot_div_nonneg; nia. }
    rewrite E. change (str "=") with [61]. change (str "-") with [45].
    destruct (Repeat_ok 61 filled) as (full & -> & ->); [lia|].
    destruct (Repeat_ok 45 (width - filled)) as (rest & -> & ->); [lia|]. done.
  - intros Hle. unfold filled. rewrite Z.min_r by done. rewrite Z.mul_comm. apply Z.div_mul. lia.
Qed.

Lemma ProgressBar_correct_witness :
  ProgressBar 3 4 10 = Some (str "[" ++ replicate 7 61 ++ replicate 3 45 ++ str "]") /\ 0 <= 7 <= 10.
Proof.
  destruct (ProgressBar_correct 3 4 10) as (E & Hb & _); [lia..|]. split; [exact E|lia].
Defined.

(** ** Lines *)

(** The lines of a text: they end at a line feed, at a carriage return, or at the two
    in that order; what follows the last ending is a line if it is not empty. *)
Fixpoint lines (s cur : bytes) : list bytes :=
  match s with
  | [] => if bool_decide (cur = []) then [] else [cur]
  | b :: s' =>
      if b =? 10 then cur :: lines s' []
      else if b =? 13 then
        match s' with
        | 10 :: s'' => cur :: lines s'' []
        | _ => cur :: lines s' []
        end
      else lines s' (cur ++ [b])
  end.

Definition no_ending (s : bytes) : Prop := Forall (fun b => b <> 10 /\ b <> 13) s.

Lemma lines_app p s cur : no_ending p -> lines (p ++ s) cur = lines s (cur ++ p).
Proof.
  intros Hp. revert cur. induction Hp as [|b p [H1 H2] _ IH]; intros cur; [by rewrite app_nil_r|].
  cbn [app lines]. rewrite (proj2 (Z.eqb_neq _ _) H1), (proj2 (Z.eqb_neq _ _) H2), IH.
  by rewrite <- app_assoc.
Qed.

Lemma lines_plain p : no_ending p -> p <> [] -> lines p [] = [p].
Proof.
  intros Hp Hne. rewrite <- (app_nil_r p) at 1. rewrite lines_app by done. cbn [app lines].
  by rewrite bool_decide_false.
Qed.

Lemma match_lf {A} (s : bytes) (f : bytes -> A) (d : A) :
  match s with 10 :: s' => f s' | _ => d end = if bool_decide (head s = Some 10) then f (List.tl s) else d.
Proof.
  destruct s as [|c s]; [done|]. destruct (decide (c = 10)) as [->|Hc]; [done|].
  rewrite bool_decide_false by (cbn; congruence).
  destruct c as [|q|q]; try done. do 4 (destruct q as [q|q|]; try done).
Qed.

Lemma split_free p rest : no_ending p -> forall i, split_loop (p ++ rest) i = split_loop rest (length p + i).
Proof.
  induction 1 as [|b p [H1 H2] _ IH]; intros i; [done|]. cbn [app split_loop length].
  rewrite (proj2 (Z.eqb_neq _ _) H1), (proj2 (Z.eqb_neq _ _) H2), IH. f_equal. lia.
Qed.

Lemma find_ending s : no_ending s \/ exists p b rest, s = p ++ b :: rest /\ no_ending p /\ (b = 10 \/ b = 13).
Proof.
  induction s as [|b s IH]; [by left; constructor|].
  destruct (decide (b = 10 \/ b = 13)) as [Hb|Hb]; [right; exists [], b, s; split_and!; [done|constructor|done]|].
  destruct IH as [Hs|(p & c & rest & -> & Hp & Hc)].
  - left. constructor; [lia|done].
  - right. exists (b :: p), c, rest. split_and!; [done|constructor; [lia|done]|done].
Qed.

(** The ending at [b :: rest]: how many bytes it has, given what follows. *)
Definition ending_len (b : byte) (rest : bytes) : nat :=
  if (b =? 13) && bool_decide (head rest = Some 10) then 2 else 1.

Lemma split_ending p b rest :
  no_ending p -> b = 10 \/ b = 13 ->
  split_loop (p ++ b :: rest) 0 = Some ((length p + ending_len b rest)%nat, length p).
Proof.
  intros Hp Hb. rewrite split_free, Nat.add_0_r by done. unfold ending_len. cbn [split_loop].
  destruct Hb as [-> | ->]; [done|]. cbn -[head].
  rewrite (match_lf rest (fun _ => Some ((length p + 2)%nat, length p)) _). by case_bool_decide.
Qed.

Lemma lines_ending p b rest :
  no_ending p -> b = 10 \/ b = 13 ->
  lines (p ++ b :: rest) [] = p :: lines (drop (ending_len b rest) (b :: rest)) [].
Proof.
  intros Hp Hb. rewrite lines_app by done. unfold ending_len. cbn [lines app].
  destruct Hb as [-> | ->]; [done|]. cbn -[head lines].
  rewrite (match_lf rest (fun s'' => p :: lines s'' []) _). case_bool_decide; [|done].
  by destruct rest.
Qed.

(** No chunk ends between a carriage return and its line feed. *)
Fixpoint whole_endings (chunks : list bytes) : Prop :=
  match chunks with
  | [] => True
  | c :: cs => (last c = Some 13 -> head (concat cs) <> Some 10) /\ whole_endings cs
  end.

Definition scan_measure (buf : bytes) (chunks : list bytes) (eof : bool) : nat :=
  length buf + length (concat chunks) + length chunks + (if eof then 0 else 1).

(** One call of the splitter: a line, or nothing found. *)
Lemma SplitLines_cases buf eof :
  (SplitLines buf eof = (0%nat, None) /\ no_ending buf /\ (eof = true -> buf = [])) \/
  (SplitLines buf eof = (length buf, Some buf) /\ no_ending buf /\ eof = true /\ buf <> []) \/
  exists p b rest, buf = p ++ b :: rest /\ no_ending p /\ (b = 10 \/ b = 13) /\
    SplitLines buf eof = ((length p + ending_len b rest)%nat, Some p).
Proof.
  unfold SplitLines. destruct (find_ending buf) as [Hb|(p & b & rest & -> & Hp & Hb)].
  - pose proof (split_free buf [] Hb 0) as E. rewrite app_nil_r in E. rewrite E. cbn [split_loop].
    destruct eof; cbn [andb]; [|by left]. case_bool_decide as Hn; [subst buf; by left|by right; left].
  - right. right. exists p, b, rest. split_and!; try done.
    rewrite bool_decide_false, andb_false_r by (by destruct p). rewrite split_ending by done.
    by rewrite take_app_length.
Qed.

(** The ending does not reach into the next chunk. *)
Lemma ending_whole b rest next :
  b = 10 \/ b = 13 -> (last (b :: rest) = Some 13 -> head next <> Some 10) ->
  ending_len b (rest ++ next) = ending_len b rest.
Proof.
  intros Hb H. unfold ending_len. destruct Hb as [-> | ->]; [done|]. destruct rest as [|c rest]; [|done].
  cbn [app]. by rewrite (bool_decide_false (head next = _)) by (by apply H).
Qed.

Lemma last_drop_some {A} n (l : list A) x : last (drop n l) = Some x -> last l = Some x.
Proof. intros H. rewrite <- (take_drop n l), last_app, H. done. Qed.

Lemma scan_lines fuel : forall buf chunks eof,
  (scan_measure buf chunks eof < fuel)%nat -> (eof = true -> chunks = []) ->
  (last buf = Some 13 -> head (concat chunks) <> Some 10) -> whole_endings chunks ->
  scan fuel SplitLines buf chunks eof = Some (lines (buf ++ concat chunks) []).
Proof.
  unfold scan_measure. induction fuel as [|fuel IH]; intros buf chunks eof Hm He Hl Hc; [lia|]. cbn [scan].
  assert (Hmore : no_ending buf -> (eof = true -> buf = []) ->
    match chunks with
    | c :: chunks' => scan fuel SplitLines (buf ++ c) chunks' eof
    | [] => if eof then Some [] else scan fuel SplitLines buf [] true
    end = Some (lines (buf ++ concat chunks) [])).
  { intros Hb Hbe. destruct chunks as [|c cs].
    - destruct eof; [by rewrite (Hbe eq_refl)|]. by apply IH; simpl in *; [lia|..].
    - destruct eof; [by discriminate He|]. simpl in Hm. rewrite length_app in Hm.
      destruct Hc as [Hc1 Hc2]. rewrite IH; [by cbn [concat]; rewrite app_assoc|rewrite length_app; lia|done| |done].
      rewrite last_app. destruct (last c) eqn:Ec; [by apply Hc1|].
      apply last_None in Ec. subst c. exact Hl. }
  case_bool_decide as Hn; cbn [andb].
  { subst buf. destruct eof; cbn [negb]; [|by apply Hmore; [constructor|]]. by rewrite (He eq_refl) in *. }
  destruct (SplitLines_cases buf eof) as [(-> & Hb & Hbe)|[(-> & Hb & -> & _)|(p & b & rest & -> & Hp & Hb & ->)]].
  - by apply Hmore.
  - rewrite (He eq_refl) in *. rewrite drop_all, IH; cbn in *; try done; [|destruct buf; [done|simpl in *; lia]].
    rewrite app_nil_r, lines_plain by done. done.
  - rewrite IH; try done.
    + rewrite <- app_assoc. cbn [app fmap option_fmap option_map]. rewrite (lines_ending p b) by done.
      rewrite last_app in Hl. cbn [last] in Hl.
      rewrite ending_whole; [|done|by rewrite last_cons in Hl |- *; destruct (last rest)].
      rewrite <- drop_drop, drop_app_length. do 3 f_equal.
      rewrite app_comm_cons, drop_app_le; [done|]. unfold ending_len. simpl.
      destruct (_ && _) eqn:E; [|lia]. apply andb_true_iff in E as [_ E%bool_decide_eq_true].
      destruct rest; simpl in *; [done|lia].
    + rewrite length_drop. rewrite length_app in *. simpl in *. unfold ending_len. destruct (_ && _); lia.
    + intros E%last_drop_some. by apply Hl.
Qed.

(** The line scanner finds the lines. Whatever chunks the reader delivers, as long as
    no chunk ends between a carriage return and its line feed, [bufio.Scanner] with
    [ScanLines] stops with the lines of the whole text, one token each. *)
Theorem ScanLines_splits chunks fuel :
  whole_endings chunks -> (length (concat chunks) + length chunks + 1 < fuel)%nat ->
  scan fuel ScanLines [] chunks false = Some (lines (concat chunks) []).
Proof.
  intros Hc Hf. change ScanLines with SplitLines. by rewrite scan_lines.
Qed.

Lemma ScanLines_splits_witness :
  scan 20 ScanLines [] [str "ab"; [13; 10]; str "c"; [13]; str "d"] false =
    Some [str "ab"; str "c"; str "d"].
Proof.
  rewrite (ScanLines_splits [str "ab"; [13; 10]; str "c"; [13]; str "d"] 20); [reflexivity| |vm_compute; lia].
  repeat split; vm_compute; congruence.
Defined.

(** The condition is needed: when a read ends between the two bytes of an ending, the
    splitter answers at the carriage return without asking for more, and the line feed
    that follows counts as an empty line. *)
Lemma ScanLines_cut_ending :
  scan 20 ScanLines [] [str "ab" ++ [13]; 10 :: str "c"] false = Some [str "ab"; []; str "c"] /\
  lines (concat [str "ab" ++ [13]; 10 :: str "c"]) [] = [str "ab"; str "c"].
Proof. by split. Qed.
