(* ===== verification/Color.v ===== *)
(** * Color: the ANSI colours of [color.go].

    A [Color] is a value, but its attributes are a slice: the arrays are kept in a store
    shared by all colours, and the variant methods append to them. [fmt.Sscanf] is
    modelled for the one format that is used. *)
From Stdlib Require Import String.
From S2P Require Import Prelude Constants GoSlice GoText Utils UtilsProps.
From S2P Require Import NetConn TelnetConn Wire ConnWriter.
#[local] Open Scope Z_scope.

(** ** Slices of integers *)

(** The arrays; a slice starts at the base of its array, and nil is [None]. *)
Abbreviation store := (list (list Z)).
Record ints := MkInts { in_arr : nat; in_len : nat }.

Definition array (h : store) (s : ints) : list Z := default [] (h !! in_arr s).
Definition contents (h : store) (s : option ints) : list Z :=
  match s with Some s => take (in_len s) (array h s) | None => [] end.

(** [append(s, x)] *)
Definition append `{GrowPolicy} (h : store) (s : option ints) (x : Z) : store * option ints :=
  let len := match s with Some s => in_len s | None => O end in
  let cap := match s with Some s => length (array h s) | None => O end in
  let fresh :=
    let need := Z.of_nat len + 1 in
    (h ++ [contents h s ++ [x] ++ replicate (Z.to_nat (grow_cap (Z.of_nat cap) need - need)) 0],
     Some (MkInts (length h) (S len))) in
  match s with
  | Some s =>
      if (len <? cap)%nat
      then (<[in_arr s := <[len := x]> (array h s)]> h, Some (MkInts (in_arr s) (S len))) else fresh
  | None => fresh
  end.

(** [[]int{...}] *)
Definition ints_literal (h : store) (l : list Z) : store * option ints :=
  (h ++ [l], Some (MkInts (length h) (length l))).

(** ** Colours *)

Record Color := MkColor {
  Fg : Z; Bg : Z; Attrs : option ints; TrueColor : bool; R : Z; G : Z; B : Z
}.

(** [parts], the parameters of the sequence *)
Definition ansi_parts (h : store) (c : Color) : list bytes :=
  let parts := Itoa <$> contents h (Attrs c) in
  if TrueColor c then
    let parts := parts ++ [str "38;2;" ++ Itoa (R c) ++ str ";" ++ Itoa (G c) ++ str ";" ++ Itoa (B c)] in
    if 0 <=? Bg c then
      parts ++ [str "48;2;" ++ Itoa (Z.shiftr (Bg c) 16) ++ str ";" ++
                Itoa (Z.land (Z.shiftr (Bg c) 8) 0xFF) ++ str ";" ++ Itoa (Z.land (Bg c) 0xFF)]
    else parts
  else
    let parts := if 0 <=? Fg c then parts ++ [Itoa (i64 (Fg c + 30))] else parts in
    if 0 <=? Bg c then parts ++ [Itoa (i64 (Bg c + 40))] else parts.

Definition ANSI (h : store) (c : Color) : bytes :=
  let parts := ansi_parts h c in
  if bool_decide (parts = []) then [0x1B] ++ str "[0m"
  else [0x1B] ++ str "[" ++ Join parts (str ";") ++ str "m".

Definition basic (fg : Z) : Color := MkColor fg (-1) None false 0 0 0.
Definition Black := basic ColorBlack.
Definition Red := basic ColorRed.
Definition Green := basic ColorGreen.
Definition Yellow := basic ColorYellow.
Definition Blue := basic ColorBlue.
Definition Magenta := basic ColorMagenta.
Definition Cyan := basic ColorCyan.
Definition White := basic ColorWhite.
Definition Default := basic ColorDefault.

Section Variants.
  Context `{GrowPolicy}.

(** [c.Attrs = append(c.Attrs, attr); return c] *)
Definition with_attr (attr : Z) (h : store) (c : Color) : store * Color :=
  let '(h, a) := append h (Attrs c) attr in
  (h, MkColor (Fg c) (Bg c) a (TrueColor c) (R c) (G c) (B c)).
Definition Bold := with_attr AttrBold.
Definition Underline := with_attr AttrUnderline.
Definition Blink := with_attr AttrBlink.
Definition Reverse := with_attr AttrReverse.
End Variants.

Definition On (c : Color) (bg : Z) : Color :=
  MkColor (Fg c) bg (Attrs c) (TrueColor c) (R c) (G c) (B c).
Definition RGB (c : Color) (r g b : byte) : Color := MkColor (Fg c) (Bg c) (Attrs c) true r g b.

Definition Reset : bytes := [0x1B] ++ str "[0m".
Definition Sprint (h : store) (c : Color) (s : bytes) : bytes := ANSI h c ++ s ++ Reset.

(** [fmt.Sprintf] is a parameter. *)
Definition Sprintf {V} (fmt_Sprintf : bytes -> list V -> bytes) (h : store) (c : Color)
    (format : bytes) (a : list V) : bytes := Sprint h c (fmt_Sprintf format a).

Definition Color256 (h : store) (code : byte) : store * Color :=
  let '(h, a) := ints_literal h [38; 5; code] in (h, MkColor (-1) (-1) a false 0 0 0).
Definition Bg256 (h : store) (code : byte) : store * Color :=
  let '(h, a) := ints_literal h [48; 5; code] in (h, MkColor (-1) (-1) a false 0 0 0).

(** The errors of the first and of the last write are dropped. *)
Definition WriteColor {N Q} `{NetConn N} `{GrowPolicy} (h : store) (c : Conn N Q) (text : bytes)
    (color : Color) : Conn N Q * (Z * option error) :=
  let '(c, (n1, _)) := WriteString c (ANSI h color) in
  let '(c, (n2, err)) := WriteString c text in
  let '(c, (n3, _)) := WriteString c Reset in
  (c, (n1 + n2 + n3, err)).

(** ** ParseColor *)

(** [SkipSpace] of package [fmt], in [Sscanf]: [None] is "unexpected newline". *)
Fixpoint SkipSpace (rs : list (Z * bytes)) : option (list (Z * bytes)) :=
  match rs with
  | [] => Some []
  | (r, b) :: rs' =>
      if r =? 10 then None else if IsSpace r then SkipSpace rs' else Some ((r, b) :: rs')
  end.

Definition hex_value (r : Z) : option Z :=
  if (48 <=? r) && (r <=? 57) then Some (r - 48)
  else if (97 <=? r) && (r <=? 102) then Some (r - 87)
  else if (65 <=? r) && (r <=? 70) then Some (r - 55)
  else None.

(** The verb [%02x]: at most two digits, at least one. *)
Definition scan_02x (rs : list (Z * bytes)) : option (Z * list (Z * bytes)) :=
  rs ← SkipSpace rs;
  match rs with
  | (r1, _) :: rs1 =>
      d1 ← hex_value r1;
      match rs1 with
      | (r2, _) :: rs2 =>
          match hex_value r2 with Some d2 => Some (16 * d1 + d2, rs2) | None => Some (d1, rs1) end
      | [] => Some (d1, rs1)
      end
  | [] => None
  end.

(** [fmt.Sscanf(s, "#%02x%02x%02x", &r, &g, &b)] from zeros, on what follows the [#]. *)
Definition scan_rgb (rs : list (Z * bytes)) : Z * Z * Z :=
  match scan_02x rs with
  | None => (0, 0, 0)
  | Some (r, rs) =>
      match scan_02x rs with
      | None => (r, 0, 0)
      | Some (g, rs) =>
          match scan_02x rs with None => (r, g, 0) | Some (b, _) => (r, g, b) end
      end
  end.

Section Parse.
  Context `{Unicode} `{GrowPolicy}.

Definition ParseColor (h : store) (s : bytes) : store * Color :=
  let s := ToLower (TrimSpace s) in
  if bool_decide (s = str "black") then (h, Black)
  else if bool_decide (s = str "red") then (h, Red)
  else if bool_decide (s = str "green") then (h, Green)
  else if bool_decide (s = str "yellow") then (h, Yellow)
  else if bool_decide (s = str "blue") then (h, Blue)
  else if bool_decide (s = str "magenta") then (h, Magenta)
  else if bool_decide (s = str "cyan") then (h, Cyan)
  else if bool_decide (s = str "white") then (h, White)
  else if bool_decide (s = str "bold") then Bold h Default
  else if bool_decide (s = str "underline") then Underline h Default
  else if HasPrefix s (str "#") && (zlen s =? 7) then
    let '(r, g, b) := scan_rgb (List.tl (runes s)) in (h, RGB Default r g b)
  else (h, Default).
End Parse.

(** ** The escape sequence *)

(** The SGR codes of a colour. *)
Definition codes (h : store) (c : Color) : list Z :=
  contents h (Attrs c) ++
  (if TrueColor c then
     [38; 2; R c; G c; B c] ++
     (if 0 <=? Bg c then [48; 2; Z.shiftr (Bg c) 16; Z.land (Z.shiftr (Bg c) 8) 0xFF; Z.land (Bg c) 0xFF] else [])
   else
     (if 0 <=? Fg c then [i64 (Fg c + 30)] else []) ++ (if 0 <=? Bg c then [i64 (Bg c + 40)] else [])).

Lemma Join_nested l k m sep : k <> [] -> Join (l ++ [Join k sep] ++ m) sep = Join (l ++ k ++ m) sep.
Proof.
  intros Hk. assert (H : Join ([Join k sep] ++ m) sep = Join (k ++ m) sep).
  { destruct m as [|x m]; [by rewrite !app_nil_r|]. by rewrite !Join_app by done. }
  destruct l as [|y l]; [done|]. rewrite !(Join_app (y :: l)); [by rewrite H|done| |done|done].
  by destruct k.
Qed.

(** Five parameters in one part. *)
Definition five (u v x y z : Z) : bytes := Join (Itoa <$> [u; v; x; y; z]) [59].

Lemma Join_five u v x y z l m :
  Join (l ++ five u v x y z :: m) [59] = Join (l ++ Itoa u :: Itoa v :: Itoa x :: Itoa y :: Itoa z :: m) [59].
Proof.
  change (five u v x y z) with (Join [Itoa u; Itoa v; Itoa x; Itoa y; Itoa z] [59]).
  apply (Join_nested l [Itoa u; Itoa v; Itoa x; Itoa y; Itoa z] m [59]). discriminate.
Qed.

(** The sequence lists the codes. *)
Lemma ansi_parts_codes h c :
  Join (ansi_parts h c) [59] = Join (Itoa <$> codes h c) [59] /\ (ansi_parts h c = [] <-> codes h c = []).
Proof.
  unfold ansi_parts, codes.
  assert (E : forall u v x y z, Itoa u ++ [59] ++ Itoa v ++ [59] ++ Itoa x ++ [59] ++ Itoa y ++ [59] ++ Itoa z =
    five u v x y z) by done.
  change (str "38;2;") with (Itoa 38 ++ [59] ++ Itoa 2 ++ [59]).
  change (str "48;2;") with (Itoa 48 ++ [59] ++ Itoa 2 ++ [59]). change (str ";") with [59].
  rewrite <- !app_assoc, !E, fmap_app. set (l := contents h (Attrs c)).
  assert (Hl : (Itoa <$> l) = [] <-> l = []) by (destruct l; split; done).
  assert (Hnil : forall (A : Type) (x : A) (a b : list A), a ++ x :: b = [] <-> False)
    by (intros A x a b; split; [intros Hx; by destruct a|done]).
  destruct (TrueColor c), (0 <=? Bg c); [| |destruct (0 <=? Fg c)..];
    rewrite <- ?app_assoc; cbn [fmap list_fmap app];
    rewrite ?app_nil_r, ?Join_five; split; try done; rewrite ?Hnil; try done.
  change (?a :: ?b :: ?c :: ?d :: ?e :: ?f :: ?g) with ([a; b; c; d; e] ++ f :: g).
  rewrite app_assoc, Join_five, <- app_assoc. done.
Qed.

Lemma ANSI_codes h c :
  ANSI h c = 0x1B :: 0x5B :: Join (if bool_decide (codes h c = []) then [[48]] else Itoa <$> codes h c) [59] ++ [109].
Proof.
  destruct (ansi_parts_codes h c) as [Hj Hn]. unfold ANSI. change (str ";") with [59]. rewrite Hj.
  rewrite (bool_decide_ext _ _ Hn). by case_bool_decide.
Qed.

(** Nothing in it but digits, minus signs and semicolons. *)
Lemma Join_Forall (P : byte -> Prop) parts sep :
  Forall P sep -> Forall (Forall P) parts -> Forall P (Join parts sep).
Proof.
  intros Hs Hp. induction Hp as [|p parts Hp1 Hp IH]; [constructor|].
  destruct parts; [done|]. change (Forall P (p ++ sep ++ Join (l :: parts) sep)).
  by rewrite !Forall_app.
Qed.

Lemma ANSI_shape h c :
  exists params, ANSI h c = 0x1B :: 0x5B :: params ++ [109] /\ Forall (fun b => is_final b = false) params.
Proof.
  rewrite ANSI_codes. eexists. split; [done|]. apply Join_Forall; [by repeat constructor|].
  case_bool_decide; [by repeat constructor|]. apply Forall_fmap, Forall_true. intros n. simpl.
  eapply Forall_impl; [apply Itoa_bytes|]. unfold is_digit, is_final. intros b [-> |Hb]; [done|].
  by rewrite (proj2 (Z.leb_gt _ _)) by lia.
Qed.

(** Colours are transparent. Whatever the colour, stripping the escape sequences from
    coloured text gives the text back, and a coloured text inside others leaves them
    alone. *)
Theorem Sprint_stripped h c s rest :
  Forall (fun b => b <> 0x1B) s -> StripANSI (Sprint h c s ++ rest) = s ++ StripANSI rest.
Proof.
  intros Hs. unfold Sprint. destruct (ANSI_shape h c) as (params & -> & Hp).
  rewrite <- !app_assoc. cbn [app]. rewrite <- app_assoc. cbn [app]. rewrite strip_csi by done.
  rewrite strip_plain by done. f_equal.
  apply (strip_csi [48] 109); by repeat constructor.
Qed.

Lemma Sprint_stripped_witness :
  StripANSI (Sprint [] Red (str "hot") ++ str " and " ++ Sprint [] (On Blue ColorWhite) (str "cold")) =
    str "hot and cold".
Proof.
  rewrite (Sprint_stripped [] Red (str "hot")) by by_decide. by vm_compute.
Defined.

(** What a terminal reads from the sequence: the numbers up to the final [m]. *)
Fixpoint sgr_loop (s : bytes) (n : Z) : option (list Z) :=
  match s with
  | [] => None
  | b :: s' =>
      if b =? 109 then if bool_decide (s' = []) then Some [n] else None
      else if b =? 59 then (n ::.) <$> sgr_loop s' 0
      else if (48 <=? b) && (b <=? 57) then sgr_loop s' (10 * n + (b - 48))
      else None
  end.

Definition sgr (s : bytes) : option (list Z) :=
  if bool_decide (take 2 s = [0x1B; 0x5B]) then sgr_loop (drop 2 s) 0 else None.

Lemma sgr_digits s : Forall is_digit s -> forall t n, sgr_loop (s ++ t) n = sgr_loop t (value s n).
Proof.
  induction 1 as [|b s Hb _ IH]; intros t n; [done|]. cbn [app sgr_loop value]. unfold is_digit in Hb.
  rewrite (proj2 (Z.eqb_neq b 109)), (proj2 (Z.eqb_neq b 59)), (proj2 (Z.leb_le 48 b)), (proj2 (Z.leb_le b 57))
    by lia. apply IH.
Qed.

Lemma sgr_codes l : Forall (fun n => 0 <= n) l -> l <> [] -> sgr_loop (Join (Itoa <$> l) [59] ++ [109]) 0 = Some l.
Proof.
  induction 1 as [|n l Hn _ IH]; [done|]. intros _. destruct (Itoa_value n Hn) as (Hv & Hd & _).
  destruct l as [|m l].
  - cbn [fmap list_fmap Join]. by rewrite sgr_digits, Hv.
  - change (Join (Itoa <$> n :: m :: l) [59]) with (Itoa n ++ [59] ++ Join (Itoa <$> m :: l) [59]).
    rewrite <- !app_assoc, sgr_digits, Hv by done. cbn [app sgr_loop].
    change (59 =? 109) with false. change (59 =? 59) with true. cbn iota. by rewrite IH.
Qed.

(** The components are in their ranges, the attributes are not negative. *)
Definition color_ok (h : store) (c : Color) : Prop :=
  Forall (fun n => 0 <= n) (contents h (Attrs c)) /\ 0 <= R c /\ 0 <= G c /\ 0 <= B c /\
  Fg c < 2 ^ 62 /\ Bg c < 2 ^ 62.

Lemma codes_nonneg h c : color_ok h c -> Forall (fun n => 0 <= n) (codes h c).
Proof.
  intros (Hl & HR & HG & HB & Hf & Hb). unfold codes. apply Forall_app. split; [done|].
  assert (Hi : forall z k, 0 <= z < 2 ^ 62 -> 0 <= k <= 40 -> 0 <= i64 (z + k)).
  { intros z k Hz Hk. rewrite i64_small; lia. }
  assert (Hland : forall z, 0 <= z -> 0 <= Z.land z 255) by (intros; apply Z.land_nonneg; by right).
  destruct (TrueColor c); apply Forall_app; split; repeat cmp; repeat constructor; try done; try lia;
    try (by apply Hi); try (apply Hland); try (by apply Z.shiftr_nonneg).
  all: done.
Qed.

(** C40: [ANSI] writes the colour's codes. A terminal reads back from the sequence the
    attributes in order, then the foreground and the background: one code each from 30
    and 40 on, or [38;2] and [48;2] with the three components of a true colour; a colour
    without any is the reset. *)
Theorem ANSI_roundtrip h c :
  color_ok h c -> sgr (ANSI h c) = Some (if bool_decide (codes h c = []) then [0] else codes h c).
Proof.
  intros Hc%codes_nonneg. rewrite ANSI_codes. unfold sgr. rewrite bool_decide_true by done.
  cbn [drop]. case_bool_decide; [done|]. by apply sgr_codes.
Qed.

Lemma ANSI_roundtrip_witness :
  sgr (ANSI [[1; 4]] (MkColor 1 4 (Some (MkInts 0 2)) false 0 0 0)) = Some [1; 4; 31; 44].
Proof. rewrite ANSI_roundtrip; [by vm_compute|]. repeat split; try done. by repeat constructor. Defined.

(** [On] takes a colour index; with a true colour it is read as a 24-bit value. *)
Lemma On_true_color : codes [] (On (RGB Default 255 0 0) ColorRed) = [38; 2; 255; 0; 0; 48; 2; 0; 0; 1].
Proof. done. Qed.

(** ** Variants and the store *)

Definition slice_ok (h : store) (s : option ints) : Prop :=
  match s with Some s => (in_arr s < length h)%nat /\ (in_len s <= length (array h s))%nat | None => True end.

(** Appending to [s] leaves [t] alone: another array, or no further into the same. *)
Definition undisturbed (s t : option ints) : Prop :=
  match s, t with
  | Some s, Some t => in_arr s = in_arr t -> (in_len t <= in_len s)%nat
  | _, _ => True
  end.

Section Store.
  Context `{GrowPolicy}.

Lemma array_app h k s : (in_arr s < length h)%nat -> array (h ++ k) s = array h s.
Proof using Type. intros Hs. unfold array. by rewrite lookup_app_l. Qed.

Lemma append_ok h s x :
  slice_ok h s ->
  let '(h', s') := append h s x in
  slice_ok h' s' /\ contents h' s' = contents h s ++ [x] /\
  forall t, slice_ok h t -> undisturbed s t -> slice_ok h' t /\ contents h' t = contents h t.
Proof using Type.
  intros Hs. unfold append.
  set (old := contents h s). set (len := match s with Some s => in_len s | None => O end).
  assert (Hold : length old = len).
  { unfold old, len. destruct s as [s|]; [|done]. destruct Hs. simpl. rewrite length_take. lia. }
  set (fresh := (h ++ _, _)).
  assert (Hfresh : let '(h', s') := fresh in slice_ok h' s' /\ contents h' s' = old ++ [x] /\
    forall t, slice_ok h t -> slice_ok h' t /\ contents h' t = contents h t).
  { unfold fresh. split_and!.
    - simpl. unfold array. rewrite length_app, lookup_app_r, Nat.sub_diag by done. simpl.
      rewrite !length_app, Hold. simpl. lia.
    - unfold contents, array. cbn [in_arr in_len]. rewrite lookup_app_r, Nat.sub_diag by done. cbn [lookup list_lookup default from_option id].
      rewrite app_assoc. apply take_app_length'. rewrite length_app, Hold. simpl. lia.
    - intros [t|]; [|done]. simpl. intros [Ht Hl]. rewrite array_app, length_app by done. split; [lia|done]. }
  destruct s as [s|]; [|by destruct Hfresh as (? & ? & Ht); split_and!; auto].
  destruct Hs as [Ha Hl]. cbn [in_len] in len.
  assert (Earr : h !! in_arr s = Some (array h s))
    by (unfold array; by destruct (lookup_lt_is_Some_2 h _ Ha) as [? ->]).
  set (arr := array h s) in *. destruct (Nat.ltb_spec len (length arr)) as [Hlt|];
    [|by destruct Hfresh as (? & ? & Ht); split_and!; auto].
  assert (Hlook : (<[in_arr s := <[len := x]> arr]> h) !! in_arr s = Some (<[len := x]> arr))
    by (by rewrite list_lookup_insert_eq).
  split_and!.
  - unfold slice_ok, array. cbn [in_arr in_len]. rewrite Hlook, length_insert. simpl. rewrite length_insert. lia.
  - unfold contents, array. cbn [in_arr in_len]. rewrite Hlook. simpl.
    rewrite (take_S_r _ _ x) by (by rewrite list_lookup_insert_eq). by rewrite take_insert_ge.
  - intros [t|]; [|done]. simpl. unfold array. intros [Ht Htl] Hu. rewrite length_insert.
    destruct (decide (in_arr s = in_arr t)) as [E|E]; [|by rewrite list_lookup_insert_ne].
    rewrite <- E in *. specialize (Hu eq_refl). rewrite Hlook, Earr in *. simpl in *.
    rewrite length_insert, take_insert_ge by (unfold len; lia). done.
Qed.
End Store.

(** A variant is the colour with one more attribute. [Bold], [Underline], [Blink] and
    [Reverse] give a colour whose attributes are those of the receiver and the new one,
    and change no other colour, the receiver included, unless its attributes are in the
    same array and reach further. *)
Theorem variant_adds_attribute `{GrowPolicy} attr h c :
  slice_ok h (Attrs c) ->
  let '(h', c') := with_attr attr h c in
  slice_ok h' (Attrs c') /\ contents h' (Attrs c') = contents h (Attrs c) ++ [attr] /\
  (Fg c', Bg c', TrueColor c', R c', G c', B c') = (Fg c, Bg c, TrueColor c, R c, G c, B c) /\
  forall d, slice_ok h (Attrs d) -> undisturbed (Attrs c) (Attrs d) ->
    slice_ok h' (Attrs d) /\ ANSI h' d = ANSI h d.
Proof.
  intros Hc. unfold with_attr. pose proof (append_ok h (Attrs c) attr Hc) as Ha.
  destruct (append h (Attrs c) attr) as [h' a]. destruct Ha as (Hw & Hn & Ho).
  split_and!; try done. intros d Hd Hu. destruct (Ho _ Hd Hu) as [Hd' E]. split; [done|].
  unfold ANSI, ansi_parts. by rewrite E.
Qed.

Lemma variant_adds_attribute_witness :
  let '(h1, c1) := @Bold doubling [] Red in
  let '(h2, c2) := @Underline doubling h1 c1 in
  contents h2 (Attrs c2) = [1; 4] /\ ANSI h2 c1 = ANSI h1 c1.
Proof.
  pose proof (@variant_adds_attribute doubling AttrUnderline (@Bold doubling [] Red).1 (@Bold doubling [] Red).2
    ltac:(simpl; lia)) as Hv.
  simpl in *. destruct Hv as (_ & E & _ & Hd). split; [exact E|].
  apply (Hd (@Bold doubling [] Red).2); simpl; lia.
Defined.

(** The exception happens: with a spare cell in the array, the second of two variants of
    one colour overwrites the attribute of the first. *)
Lemma variants_overwrite :
  let '(h, base) := @Bold doubling [] Red in
  let '(h, base) := @Underline doubling h base in
  let '(h, base) := @Blink doubling h base in
  let '(h1, a) := @Reverse doubling h base in
  let '(h2, b) := @Bold doubling h1 base in
  contents h1 (Attrs a) = [1; 4; 5; 7] /\ contents h2 (Attrs a) = [1; 4; 5; 1].
Proof. by vm_compute. Qed.

(** ** Writing *)

Section Writing.
  Context {N Q : Type} `{NetConnLaws N} `{GrowPolicy}.
  Implicit Type c : Conn N Q.

Lemma Write_counts c p c' n e :
  wr_wf c -> closed c = false -> Write c p = (c', (n, e)) ->
  wr_wf c' /\ closed c' = false /\ 0 <= n <= zlen p /\
  (n = zlen p -> e = None /\ sends c c' None (escape p)).
Proof using Type*.
  intros Hc Ho E. pose proof (Write_ok c p Hc Ho) as Hw. rewrite E in Hw.
  destruct Hw as (Hs & Hn & He). split_and!; [apply Hs|by rewrite (fr_closed _ _ (sd_frame _ _ _ _ Hs))|lia..|].
  intros ->. destruct e; [lia|]. split; [done|]. unfold zlen in Hs. by rewrite Nat2Z.id, take_ge in Hs.
Qed.

(** The count that [WriteColor] returns tells whether the text arrived. It never
    exceeds the length of the coloured text, and when it is that length no write failed
    and the stream has grown by exactly the coloured text. *)
Theorem WriteColor_counts h c text color :
  wr_wf c -> closed c = false ->
  let '(c', (n, err)) := WriteColor h c text color in
  0 <= n <= zlen (Sprint h color text) /\
  (n = zlen (Sprint h color text) ->
   err = None /\ frame c c' /\ out c' = out c ++ escape (Sprint h color text)).
Proof using Type*.
  intros Hc Ho. unfold WriteColor, WriteString.
  destruct (Write c (ANSI h color)) as [c1 [n1 e1]] eqn:E1.
  destruct (Write_counts _ _ _ _ _ Hc Ho E1) as (W1 & O1 & B1 & S1).
  destruct (Write c1 text) as [c2 [n2 e2]] eqn:E2.
  destruct (Write_counts _ _ _ _ _ W1 O1 E2) as (W2 & O2 & B2 & S2).
  destruct (Write c2 Reset) as [c3 [n3 e3]] eqn:E3.
  destruct (Write_counts _ _ _ _ _ W2 O2 E3) as (W3 & O3 & B3 & S3).
  unfold Sprint. rewrite !zlen_app. split; [lia|]. intros En.
  destruct S1 as [_ S1]; [lia|]. destruct S2 as [-> S2]; [lia|]. destruct S3 as [_ S3]; [lia|].
  pose proof (sends_trans _ _ _ _ _ _ S1 (sends_trans _ _ _ _ _ _ S2 S3)) as [F _ O].
  split_and!; [done|done|]. rewrite O. unfold escape. by rewrite !bind_app.
Qed.
End Writing.

(** The error of the last write is dropped: here the reset never reaches the buffer and
    the error is nil. *)
Lemma WriteColor_drops_error :
  (@WriteColor _ _ _ doubling [] (script_conn [] 5 []) (str "hello world") Red).2 = (16, None).
Proof. by vm_compute. Qed.

(** ** Parsing *)

Definition lower (b : byte) : byte := if (65 <=? b) && (b <=? 90) then b + 32 else b.
Definition blank (b : byte) : Prop := is_ascii b /\ IsSpace b = true.

(** ASCII text that neither starts nor ends with white space. *)
Definition trimmed (s : bytes) : Prop :=
  Forall is_ascii s /\ from_option (fun b => IsSpace b = false) True (head s) /\
  from_option (fun b => IsSpace b = false) True (last s).

Definition ascii_runes (s : bytes) : list (Z * bytes) := (fun b => (b, [b])) <$> s.

Lemma trim_left_ascii p s :
  Forall blank p -> from_option (fun b => IsSpace b = false) True (head s) ->
  trim_left (ascii_runes (p ++ s)) = ascii_runes s.
Proof.
  intros Hp Hs. unfold ascii_runes. induction Hp as [|b p [_ Hb] _ IH]; simpl; [|by rewrite Hb].
  destruct s as [|b s]; [done|]. simpl in *. by rewrite Hs.
Qed.

Lemma TrimSpace_ascii p1 s p2 :
  Forall blank p1 -> Forall blank p2 -> trimmed s -> TrimSpace (p1 ++ s ++ p2) = s.
Proof.
  intros H1 H2 (Hs & Hh & Hl). unfold TrimSpace.
  assert (Hlow : forall l, Forall is_ascii l -> Forall (fun b => b < 0x80) l)
    by (intros l Hf; eapply Forall_impl; [exact Hf|]; unfold is_ascii; lia).
  assert (Hb : forall l, Forall blank l -> Forall is_ascii l)
    by (intros l Hf; eapply Forall_impl; [exact Hf|]; by intros b []).
  rewrite runes_ascii by (rewrite !Forall_app; auto). fold (ascii_runes (p1 ++ s ++ p2)).
  assert (Hrev : forall l, rev (ascii_runes l) = ascii_runes (rev l))
    by (intros l; symmetry; apply List.map_rev).
  assert (Hc : forall l, concat (ascii_runes l).*2 = l) by (induction l as [|b l IH]; simpl; by f_equal).
  destruct s as [|b s].
  { cbn [app]. rewrite <- (app_nil_r (p1 ++ p2)), trim_left_ascii by (rewrite ?Forall_app; done). done. }
  rewrite trim_left_ascii by done. rewrite Hrev, List.rev_app_distr, trim_left_ascii.
  - by rewrite Hrev, List.rev_involutive, Hc.
  - by apply List.Forall_rev.
  - rewrite List.rev_alt. fold (reverse (b :: s)). by rewrite head_reverse.
Qed.

Section ParseProps.
  Context `{UnicodeLaws} `{GrowPolicy}.

Lemma ToLower_ascii s : Forall is_ascii s -> ToLower s = lower <$> s.
Proof using Type*.
  intros Hs. unfold ToLower. rewrite runes_ascii by (eapply Forall_impl; [done|]; unfold is_ascii; lia).
  induction Hs as [|b s Hb _ IH]; [done|]. unfold is_ascii in Hb. cbn [fmap list_fmap concat fst]. rewrite IH.
  rewrite lower_ascii by done. fold (lower b). assert (Hl : 0 <= lower b <= 0x7F).
  { unfold lower. destruct (65 <=? b) eqn:?, (b <=? 90) eqn:?; cbn [andb]; bool_lia. }
  unfold encode. rewrite valid_rune_intro by lia. by rewrite (proj2 (Z.leb_le _ _)) by lia.
Qed.

Lemma scan_hex2 r1 r2 d1 d2 rs :
  hex_value r1 = Some d1 -> hex_value r2 = Some d2 -> IsSpace r1 = false ->
  scan_02x ((r1, [r1]) :: (r2, [r2]) :: rs) = Some (16 * d1 + d2, rs).
Proof using Type.
  intros E1 E2 Hs. unfold scan_02x. cbn [SkipSpace]. rewrite Hs.
  destruct (Z.eqb_spec r1 10) as [->|]; [done|]. cbn [mbind option_bind]. by rewrite E1, E2.
Qed.

Lemma hex_value_range b d : hex_value b = Some d -> 48 <= b <= 102 /\ IsSpace b = false.
Proof using Type.
  unfold hex_value. intros Hb. assert (Hr : 48 <= b <= 102).
  { destruct (_ && _) eqn:E; [bool_lia|clear E]. destruct (_ && _) eqn:E; [bool_lia|clear E].
    destruct (_ && _) eqn:E; [bool_lia|done]. }
  split; [done|]. unfold IsSpace. repeat (cmp; [lia|]). cbn. repeat cmp; try lia; done.
Qed.

Definition named : list (bytes * Color) :=
  [(str "black", Black); (str "red", Red); (str "green", Green); (str "yellow", Yellow);
   (str "blue", Blue); (str "magenta", Magenta); (str "cyan", Cyan); (str "white", White)].

(** [ParseColor] reads a colour however it is written. White space around the text
    and the case of its letters do not matter: the eight names give their colours, [bold]
    and [underline] the variants of the default, [#] and six hexadecimal digits the true
    colour with these components; any other text, but one of seven bytes that starts
    with [#], gives the default. *)
Theorem ParseColor_correct h p1 s p2 :
  Forall blank p1 -> Forall blank p2 -> trimmed s ->
  let l := lower <$> s in
  let result := ParseColor h (p1 ++ s ++ p2) in
  (forall c, (l, c) ∈ named -> result = (h, c)) /\
  (l = str "bold" -> result = Bold h Default) /\
  (l = str "underline" -> result = Underline h Default) /\
  (forall digits r1 r0 g1 g0 b1 b0, l = 35 :: digits ->
     mapM hex_value digits = Some [r1; r0; g1; g0; b1; b0] ->
     result = (h, RGB Default (16 * r1 + r0) (16 * g1 + g0) (16 * b1 + b0))) /\
  (l ∉ named.*1 -> l <> str "bold" -> l <> str "underline" -> head l <> Some 35 \/ zlen l <> 7 ->
   result = (h, Default)).
Proof using Type*.
  intros Hp1 Hp2 Hs l result. assert (El : ToLower (TrimSpace (p1 ++ s ++ p2)) = l).
  { rewrite TrimSpace_ascii by done. apply ToLower_ascii, Hs. }
  unfold result, ParseColor. rewrite El. clearbody l. clear El result. split_and!.
  - intros c. unfold named. rewrite !elem_of_cons, elem_of_nil.
    intros [E|[E|[E|[E|[E|[E|[E|[E|[]]]]]]]]]; by simplify_eq.
  - by intros ->.
  - by intros ->.
  - intros digits r1 r0 g1 g0 b1 b0 -> Hm. apply mapM_Some_1 in Hm.
    do 6 (apply Forall2_cons_inv_r in Hm as (? & ? & ? & Hm & ->)). apply Forall2_nil_inv_r in Hm as ->.
    rewrite !bool_decide_false by done. cbn [HasPrefix]. change (HasPrefix _ _ && _) with true. cbn iota.
    repeat match goal with
    | E : hex_value ?b = Some _ |- _ => destruct (hex_value_range _ _ E); revert E
    end. intros. rewrite runes_ascii by (repeat constructor; lia).
    cbn [fmap list_fmap List.tl]. unfold scan_rgb. by do 3 erewrite scan_hex2 by eassumption.
  - unfold named. intros Hn Hb Hu Ho. cbn [fmap list_fmap fst] in Hn. rewrite !not_elem_of_cons in Hn.
    rewrite !bool_decide_false by tauto. destruct (HasPrefix l (str "#") && (zlen l =? 7)) eqn:E; [|done].
    apply andb_true_iff in E as [E%bool_decide_eq_true El%Z.eqb_eq].
    destruct Ho as [Ho|Ho]; [|done]. destruct Ho. destruct l as [|b l]; [done|].
    by injection E as ->.
Qed.
End ParseProps.

Lemma ParseColor_correct_witness :
  @ParseColor latin_tables doubling [] (str " #Ff80C0 ") = ([], RGB Default 255 128 192) /\
  @ParseColor latin_tables doubling [] ([9] ++ str "RED" ++ [10]) = ([], Red).
Proof.
  split.
  - apply (@ParseColor_correct latin_tables latin_laws doubling [] (str " ") (str "#Ff80C0") (str " ")) with
      (digits := str "ff80c0") (r1 := 15) (r0 := 15) (g1 := 8) (g0 := 0) (b1 := 12) (b0 := 0);
      try by vm_compute. 1-2: by_decide. split; [by_decide|done].
  - apply (@ParseColor_correct latin_tables latin_laws doubling [] [9] (str "RED") [10]).
    1-2: by_decide. { split; [by_decide|done]. } rewrite list_elem_of_In. vm_compute. tauto.
Defined.

(** A hexadecimal colour with a wrong digit is taken up to it, not refused. *)
Lemma ParseColor_malformed :
  @ParseColor latin_tables doubling [] (str "#12zz34") = ([], RGB Default 0x12 0 0).
Proof. by vm_compute. Qed.
