(* ===== verification/Mud.v ===== *)
(** * Mud: GMCP, MSSP, MTTS and MCP, the other protocols of [mud.go].

    MSDP is in [Msdp] and MCCP in [Mccp]. [json.Marshal] is a parameter. A Go map of
    strings is a [gmap]; the order in which [range] visits it is an argument. *)
From Stdlib Require Import String.
From stdpp Require Import gmap.
From S2P Require Import Prelude Constants GoSlice GoText StaticBuf TelnetParser ParserSpec ParserProps Wire.
From S2P Require Import NetConn TelnetConn ConnWriter.
#[local] Open Scope Z_scope.

(** Errors of this file: those of the packages called, and the texts of [fmt.Errorf]. *)
Inductive mud_error :=
  | JSONError (code : Z) | ConnError (e : error) | NumError (e : num_error)
  | NotMCP | InvalidMCP.

(** ** GMCP *)

Record GMCPMessage := MkGMCP { gm_Package : bytes; gm_Data : option bytes }.

(** The value to send: a byte slice, or anything else. *)
Inductive payload (V : Type) := Raw (d : list Z) | Value (v : V).
#[global] Arguments Raw {V}. #[global] Arguments Value {V}.

Section GMCP.
  Context {V : Type} (json_Marshal : V -> bytes + Z).

Definition MarshalGMCP (pkg : bytes) (data : payload V) : bytes + mud_error :=
  let buf := pkg ++ [32] in
  match data with
  | Raw d => inl (buf ++ d)
  | Value v =>
      match json_Marshal v with
      | inl b => inl (buf ++ b)
      | inr code => inr (JSONError code)
      end
  end.

Definition SendGMCP {N Q} `{NetConn N} `{GrowPolicy} (c : Conn N Q) (pkg : bytes) (data : payload V)
    : Conn N Q * option mud_error :=
  match MarshalGMCP pkg data with
  | inr err => (c, Some err)
  | inl payload => let '(c, err) := SendSubnegotiation c OptGMCP payload in (c, ConnError <$> err)
  end.
End GMCP.

Definition UnmarshalGMCP (data : bytes) : GMCPMessage :=
  match IndexByte data 32 with
  | None => MkGMCP data None
  | Some space => MkGMCP (take space data) (Some (drop (space + 1) data))
  end.

(** ** MSSP *)

Record MSSPVar := MkMSSP { ms_Name : bytes; ms_Value : bytes }.

Fixpoint MarshalMSSP (vars : list MSSPVar) : bytes :=
  match vars with
  | [] => []
  | v :: vars' => 1 :: ms_Name v ++ 2 :: ms_Value v ++ MarshalMSSP vars'
  end.

Definition SendMSSP {N Q} `{NetConn N} `{GrowPolicy} (c : Conn N Q) (vars : list MSSPVar)
    : Conn N Q * option error := SendSubnegotiation c OptMSSP (MarshalMSSP vars).

(** ** MTTS *)

Definition MTTSAnsi : Z := Z.shiftl 1 0.
Definition MTTSVt100 : Z := Z.shiftl 1 1.
Definition MTTSUtf8 : Z := Z.shiftl 1 2.
Definition MTTS256Color : Z := Z.shiftl 1 3.
Definition MTTSMouse : Z := Z.shiftl 1 4.
Definition MTTSOscColor : Z := Z.shiftl 1 5.
Definition MTTSCscreen : Z := Z.shiftl 1 6.
Definition MTTSProxy : Z := Z.shiftl 1 7.
Definition MTTSTrueColor : Z := Z.shiftl 1 8.
Definition MTTSMnes : Z := Z.shiftl 1 9.
Definition MTTSMccp : Z := Z.shiftl 1 10.
Definition MTTSMsp : Z := Z.shiftl 1 11.
Definition MTTSMxp : Z := Z.shiftl 1 12.
Definition MTTSSsl : Z := Z.shiftl 1 13.

Definition Has (f flag : Z) : bool := negb (Z.land f flag =? 0).

(** [strings.EqualFold] of a string and an upper-case ASCII word: the letters that fold
    to [k] are its two cases, and for K and S the Kelvin sign and the long s. *)
Definition folds_to (k r : Z) : bool :=
  (r =? k) || (r =? k + 32) || ((k =? 83) && (r =? 0x17F)) || ((k =? 75) && (r =? 0x212A)).

Fixpoint equal_fold (rs : list (Z * bytes)) (word : bytes) : bool :=
  match rs, word with
  | [], [] => true
  | (r, _) :: rs', k :: word' => folds_to k r && equal_fold rs' word'
  | _, _ => false
  end.

Definition EqualFold (s word : bytes) : bool := equal_fold (runes s) word.

Definition ParseMTTS (s : bytes) : bytes * Z * option mud_error :=
  match Fields s with
  | p0 :: p1 :: _ =>
      if negb (EqualFold p0 (str "MTTS")) then (s, 0, None)
      else match ParseUint32 p1 with
      | (_, Some err) => (p0, 0, Some (NumError err))
      | (f, None) => (p0, f, None)
      end
  | _ => (s, 0, None)
  end.

(** ** MCP *)

Record MCPMessage := MkMCP {
  AuthKey : bytes; Package : bytes; Tag : bytes; Params : gmap (list Z) (list Z)
}.

(** The loop over the parameters. *)
Fixpoint mcp_params (fuel : nat) (parts : list bytes) (m : gmap (list Z) (list Z)) : gmap (list Z) (list Z) :=
  match fuel with
  | O => m
  | S fuel' =>
      match parts with
      | [] => m
      | part :: rest =>
          match IndexByte part 58 with
          | Some (S _ as colon) =>
              let key := take colon part in
              let val := if (colon + 1 <? length part)%nat then drop (colon + 1) part else [] in
              match rest with
              | next :: rest' =>
                  if bool_decide (val = []) && negb (ContainsByte next 58)
                  then mcp_params fuel' rest' (<[key := next]> m)
                  else mcp_params fuel' rest (<[key := val]> m)
              | [] => mcp_params fuel' rest (<[key := val]> m)
              end
          | _ => mcp_params fuel' rest m
          end
      end
  end.

Definition ParseMCP (line : bytes) : MCPMessage + mud_error :=
  if negb (HasPrefix line (str "#$#")) then inr NotMCP
  else
    match Fields (drop 3 line) with
    | p0 :: p1 :: rest =>
        let '(auth, parts) :=
          if negb (ContainsByte p1 58) then (p1, rest) else ([], p1 :: rest) in
        let '(tag, parts) :=
          match parts with t :: parts' => (t, parts') | [] => ([], []) end in
        inl (MkMCP auth p0 tag (mcp_params (length parts) parts ∅))
    | _ => inr InvalidMCP
    end.

(** [kvs] is the order in which [range] visits the parameters. *)
Definition MCP_String (m : MCPMessage) (kvs : list (bytes * bytes)) : bytes :=
  str "#$#" ++ Package m ++
  (if bool_decide (AuthKey m = []) then [] else 32 :: AuthKey m) ++
  (if bool_decide (Tag m = []) then [] else 32 :: Tag m) ++
  concat ((fun kv => 32 :: kv.1 ++ str ": " ++ kv.2) <$> kvs).

(** ** Searching a byte *)

Lemma IndexByte_first s c t : c ∉ s -> IndexByte (s ++ c :: t) c = Some (length s).
Proof.
  induction s as [|b s IH]; intros Hc; simpl; [by rewrite Z.eqb_refl|].
  apply not_elem_of_cons in Hc as [Hb Hc]. rewrite (proj2 (Z.eqb_neq b c)) by done. by rewrite IH.
Qed.

Lemma IndexByte_none s c : c ∉ s -> IndexByte s c = None.
Proof.
  induction s as [|b s IH]; intros Hc; simpl; [done|].
  apply not_elem_of_cons in Hc as [Hb Hc]. rewrite (proj2 (Z.eqb_neq b c)) by done. by rewrite IH.
Qed.

Lemma ContainsByte_false s c : c ∉ s -> ContainsByte s c = false.
Proof. intros Hc. unfold ContainsByte. by rewrite IndexByte_none. Qed.

Lemma ContainsByte_true s c t : c ∉ s -> ContainsByte (s ++ c :: t) c = true.
Proof. intros Hc. unfold ContainsByte. by rewrite IndexByte_first. Qed.

(** ** GMCP *)

Lemma UnmarshalGMCP_split pkg body :
  32 ∉ pkg -> UnmarshalGMCP (pkg ++ 32 :: body) = MkGMCP pkg (Some body).
Proof.
  intros Hp. unfold UnmarshalGMCP. rewrite IndexByte_first by done.
  rewrite take_app_length, Nat.add_1_r, (drop_app_ge _ _ (S (length pkg))) by lia.
  by replace (S (length pkg) - length pkg)%nat with 1%nat by lia.
Qed.

Section GMCPProps.
  Context {V N Q : Type} (json_Marshal : V -> bytes + Z) `{NetConnLaws N} `{GrowPolicy}.
  Implicit Type c : Conn N Q.

(** C24: A GMCP message arrives. When [SendGMCP] of a package name without a blank
    reports no error, the stream has grown by one GMCP subnegotiation. A peer's parser,
    at rest (between sequences), that receives in one chunk any texts and WILL, WONT, DO,
    DONT commands with that one subnegotiation among them hands over, if the message
    holds no IAC and fits the parser's buffer, exactly one payload, and [UnmarshalGMCP]
    takes it apart into the package name and the bytes given (or the JSON of the value). *)
Theorem GMCP_message_arrives c pkg data c1 :
  wr_wf c -> closed c = false -> 32 ∉ pkg ->
  SendGMCP json_Marshal c pkg data = (c1, None) ->
  exists body, match data with Raw d => body = d | Value v => json_Marshal v = inl body end /\
    let msg := pkg ++ 32 :: body in
    frame c c1 /\ out c1 = out c ++ wire_sub OptGMCP msg /\
    (forall p result xs, parser_wf p -> alpha p = DData -> CmdIAC ∉ msg -> zlen msg <= sn_cap p ->
       Forall item_ok xs -> subs xs = [(OptGMCP, msg)] ->
       let '(p', r) := Parse p (wire xs) result in
       exists payload, sn_bytes p' r = [(OptGMCP, payload)] /\
         UnmarshalGMCP payload = MkGMCP pkg (Some body)).
Proof using Type*.
  intros Hc Ho Hp Hs. unfold SendGMCP in Hs.
  assert (exists body, match data with Raw d => body = d | Value v => json_Marshal v = inl body end /\
    MarshalGMCP json_Marshal pkg data = inl (pkg ++ 32 :: body)) as (body & Hb & Hm).
  { unfold MarshalGMCP in *. destruct data as [d|v].
    - exists d. by rewrite <- app_assoc.
    - destruct (json_Marshal v) as [b|]; [|done]. exists b. by rewrite <- app_assoc. }
  exists body. split; [done|]. rewrite Hm in Hs.
  pose proof (SendSubnegotiation_ok c OptGMCP (pkg ++ 32 :: body) Hc Ho) as Hk.
  destruct (SendSubnegotiation c OptGMCP (pkg ++ 32 :: body)) as [c2 [e|]]; [done|]. injection Hs as ->.
  destruct Hk as [F W O]. split_and!; [done|done|].
  intros p result xs Hwf Hd Hi Hl Hok Hxs. pose proof (Parse_wire p xs result Hwf Hd Hok) as Hw.
  destruct (Parse p _ result) as [p' r]. destruct Hw as (_ & _ & _ & Hsn).
  exists (pkg ++ 32 :: body). split; [|by apply UnmarshalGMCP_split].
  rewrite Hsn, Hxs. cbn [kept app fmap list_fmap shown fst snd foldl take].
  by rewrite overlay_nil, escape_no_IAC, take_ge by (done || (unfold zlen in Hl; lia)).
Qed.
End GMCPProps.

#[local] Existing Instance doubling.

Definition json_none (v : unit) : bytes + Z := inl (str "{}").

Lemma GMCP_message_arrives_witness :
  let c := script_conn [] 1000 [] in
  let msg := str "Core.Hello {}" in
  let xs := [IText (str "hi"); ISub OptGMCP msg; ICommand CmdWill OptEcho] in
  exists c1, SendGMCP json_none c (str "Core.Hello") (Value tt) = (c1, None) /\
    out c1 = wire_sub OptGMCP msg /\
    exists payload, sn_bytes (Parse NewParser (wire xs) empty_result).1
        (Parse NewParser (wire xs) empty_result).2 = [(OptGMCP, payload)] /\
      UnmarshalGMCP payload = MkGMCP (str "Core.Hello") (Some (str "{}")).
Proof.
  intros c msg xs.
  exists (SendGMCP json_none c (str "Core.Hello") (Value tt)).1.
  assert (E : SendGMCP json_none c (str "Core.Hello") (Value tt) =
    ((SendGMCP json_none c (str "Core.Hello") (Value tt)).1, None)) by by vm_compute.
  split; [exact E|].
  destruct (@GMCP_message_arrives unit _ _ json_none _ _ doubling c (str "Core.Hello") (Value tt) _
    (script_conn_wr_wf [] 1000 [] ltac:(simpl; lia)) eq_refl ltac:(by_decide) E) as (body & Hb & _ & Ho & Hp).
  injection Hb as <-. split; [exact Ho|].
  specialize (Hp NewParser empty_result xs NewParser_wf eq_refl ltac:(by_decide) ltac:(by vm_compute)
    ltac:(by repeat constructor) eq_refl).
  revert Hp. by destruct (Parse _ _ _).
Defined.

(** ** MSSP *)

(** What a client reads from the payload: 1 starts a variable's name, 2 its value. *)
Fixpoint mssp_read (s : bytes) (name : bytes) (val : option bytes) : option (list MSSPVar) :=
  match s with
  | [] => v ← val; Some [MkMSSP name v]
  | b :: s' =>
      if b =? 1 then v ← val; (MkMSSP name v ::.) <$> mssp_read s' [] None
      else if b =? 2 then match val with None => mssp_read s' name (Some []) | Some _ => None end
      else match val with
           | None => mssp_read s' (name ++ [b]) None
           | Some v => mssp_read s' name (Some (v ++ [b]))
           end
  end.

Definition ReadMSSP (s : bytes) : option (list MSSPVar) :=
  match s with
  | [] => Some []
  | b :: s' => if b =? 1 then mssp_read s' [] None else None
  end.

Definition unmarked (s : bytes) : Prop := Forall (fun b => b <> 1 /\ b <> 2) s.

Lemma mssp_name s : unmarked s -> forall t name, mssp_read (s ++ t) name None = mssp_read t (name ++ s) None.
Proof.
  induction 1 as [|b s [H1 H2] _ IH]; intros t name; [by rewrite app_nil_r|]. cbn [app mssp_read].
  by rewrite (proj2 (Z.eqb_neq _ _) H1), (proj2 (Z.eqb_neq _ _) H2), IH, <- app_assoc.
Qed.

Lemma mssp_value s : unmarked s -> forall t name v,
  mssp_read (s ++ t) name (Some v) = mssp_read t name (Some (v ++ s)).
Proof.
  induction 1 as [|b s [H1 H2] _ IH]; intros t name v; [by rewrite app_nil_r|]. cbn [app mssp_read].
  by rewrite (proj2 (Z.eqb_neq _ _) H1), (proj2 (Z.eqb_neq _ _) H2), IH, <- app_assoc.
Qed.

(** The MSSP variables come back. A client that reads the payload of [MarshalMSSP]
    finds exactly the variables given, in order and with duplicates and empty values, as
    long as no name or value holds one of the two marker bytes. *)
Theorem MSSP_roundtrip vars :
  Forall (fun v => unmarked (ms_Name v) /\ unmarked (ms_Value v)) vars ->
  ReadMSSP (MarshalMSSP vars) = Some vars.
Proof.
  intros Hv. destruct vars as [|v0 vars]; [done|]. cbn [MarshalMSSP ReadMSSP].
  change (1 =? 1) with true. cbn iota. revert v0 Hv.
  induction vars as [|v1 vars IH]; intros [n v] [[Hn Hval] Hv]%Forall_cons; cbn [ms_Name ms_Value] in *;
    rewrite mssp_name by done; cbn [app mssp_read]; change (2 =? 1) with false; change (2 =? 2) with true; cbn iota.
  - cbn [MarshalMSSP]. by rewrite (mssp_value v), app_nil_l by done.
  - rewrite mssp_value by done. cbn [app MarshalMSSP mssp_read]. change (1 =? 1) with true. cbn iota.
    by rewrite IH.
Qed.

Lemma MSSP_roundtrip_witness :
  ReadMSSP (MarshalMSSP [MkMSSP (str "NAME") (str "TelnettyMUD"); MkMSSP (str "PLAYERS") []]) =
    Some [MkMSSP (str "NAME") (str "TelnettyMUD"); MkMSSP (str "PLAYERS") []].
Proof. apply MSSP_roundtrip. repeat constructor; by_decide. Defined.

(** ** MTTS *)

Lemma Has_bit f i : 0 <= i -> Has f (Z.shiftl 1 i) = Z.testbit f i.
Proof.
  intros Hi. unfold Has. rewrite Z.shiftl_1_l. destruct (Z.testbit f i) eqn:E.
  - apply negb_true_iff, Z.eqb_neq. intros E0. apply (f_equal (fun z => Z.testbit z i)) in E0.
    by rewrite Z.land_spec, Z.pow2_bits_true, Z.bits_0, E in E0 by done.
  - apply negb_false_iff, Z.eqb_eq. apply Z.bits_inj'. intros j Hj.
    rewrite Z.land_spec, Z.bits_0, Z.pow2_bits_eqb by done.
    destruct (Z.eqb_spec i j) as [<-|]; [by rewrite E|by rewrite andb_false_r].
Qed.

Lemma digits_word d : Forall is_digit d -> d <> [] -> is_word d.
Proof.
  intros Hd Hne. split; [done|].
  rewrite runes_ascii by (eapply Forall_impl; [done|]; unfold is_digit; lia).
  apply Forall_fmap. eapply Forall_impl; [done|]. unfold is_digit, compose, IsSpace. intros b Hb. cbn [fst].
  repeat (cmp; [lia|]). cbn. repeat cmp; try lia; done.
Qed.

(** Words and what follows them. *)
Lemma Fields_word_rest w rest :
  is_word w -> rest = [] \/ (exists r, rest = 32 :: r) -> Fields (w ++ rest) = w :: Fields rest.
Proof.
  intros Hw [-> | (r & ->)]; [by rewrite app_nil_r, Fields_word|]. by rewrite Fields_cons, Fields_space.
Qed.

(** [ParseMTTS] reads the flags. A text whose first word is MTTS in any case and whose
    second is a decimal number gives that word and that number, the error of
    [strconv.ParseUint] and no flags when it needs more than 32 bits; then [Has] of the
    [i]-th flag is the [i]-th bit of the number. *)
Theorem ParseMTTS_correct w d rest :
  is_word w -> EqualFold w (str "MTTS") = true -> Forall is_digit d -> d <> [] ->
  rest = [] \/ (exists r, rest = 32 :: r) ->
  let n := value d 0 in
  ParseMTTS (w ++ 32 :: d ++ rest) =
    (if n <? 2 ^ 32 then (w, n, None) else (w, 0, Some (NumError ErrRange))) /\
  (forall i, 0 <= i -> Has n (Z.shiftl 1 i) = Z.testbit n i).
Proof.
  intros Hw Hf Hd Hne Hr n. split; [|by intros; apply Has_bit].
  unfold ParseMTTS. rewrite Fields_cons, Fields_word_rest by (done || by apply digits_word).
  rewrite Hf. cbn [negb]. unfold ParseUint32. rewrite bool_decide_false by done.
  destruct (Z.ltb_spec n (2 ^ 32)).
  - by rewrite parse_uint_ok.
  - by rewrite parse_uint_range.
Qed.

Lemma ParseMTTS_correct_witness :
  ParseMTTS (str "mtts 271") = (str "mtts", 271, None) /\ Has 271 MTTSTrueColor = true /\ Has 271 MTTSMouse = false.
Proof.
  destruct (ParseMTTS_correct (str "mtts") (str "271") []) as [E Hb];
    [split; [done|by_decide]|by vm_compute|unfold is_digit; by_decide|done|by left|].
  split; [exact E|]. split; [apply (Hb 8); lia|apply (Hb 4); lia].
Defined.

(** ** MCP *)

(** Words that do not hold a colon. *)
Definition plain (s : bytes) : Prop := is_word s /\ 58 ∉ s.
Definition param_ok (kv : bytes * bytes) : Prop := plain kv.1 /\ (kv.2 = [] \/ plain kv.2).

(** The fields that a parameter becomes. *)
Definition param_parts (kv : bytes * bytes) : list bytes :=
  (kv.1 ++ [58]) :: if bool_decide (kv.2 = []) then [] else [kv.2].

Definition write_param (kv : bytes * bytes) : bytes := 32 :: kv.1 ++ str ": " ++ kv.2.

Lemma word_colon k : is_word k -> is_word (k ++ [58]).
Proof.
  intros [Hk Hs]. split; [by destruct k|]. rewrite runes_app_ascii by by repeat constructor.
  apply Forall_app. split; [done|]. by repeat constructor.
Qed.

Lemma write_params_head kvs :
  concat (write_param <$> kvs) = [] \/ exists r, concat (write_param <$> kvs) = 32 :: r.
Proof. destruct kvs as [|kv kvs]; [by left|right; by eexists]. Qed.

Lemma Fields_params kvs :
  Forall param_ok kvs -> Fields (concat (write_param <$> kvs)) = kvs ≫= param_parts.
Proof.
  induction 1 as [|[k v] kvs [[Hk _] Hv] _ IH]; [done|].
  cbn [fmap list_fmap concat mbind list_bind]. unfold write_param at 1, param_parts at 1. cbn [fst snd] in *.
  change (str ": ") with ([58] ++ [32]). cbn [app]. rewrite Fields_space.
  replace ((k ++ 58 :: 32 :: v) ++ concat (write_param <$> kvs))
    with ((k ++ [58]) ++ 32 :: (v ++ concat (write_param <$> kvs))) by (by rewrite <- !app_assoc).
  rewrite Fields_cons by by apply word_colon. f_equal.
  case_bool_decide as E; [subst v; exact IH|]. destruct Hv as [?|[Hv _]]; [done|].
  rewrite Fields_word_rest by (done || apply write_params_head). by rewrite IH.
Qed.

Lemma mcp_params_ok kvs :
  Forall param_ok kvs -> forall fuel m, (length (kvs ≫= param_parts) <= fuel)%nat ->
  mcp_params fuel (kvs ≫= param_parts) m = foldl (fun m kv => <[kv.1 := kv.2]> m) m kvs.
Proof.
  induction 1 as [|[k v] kvs [[Hk Hkc] Hv] Hkvs IH]; intros fuel m Hf; [by destruct fuel|].
  cbn [fst snd mbind list_bind] in *. cbn [foldl fst snd]. unfold param_parts at 1. unfold param_parts at 1 in Hf.
  cbn [fst snd] in *. destruct fuel as [|fuel]; [simpl in Hf; lia|].
  cbn [app mcp_params]. cbn [app length] in Hf. rewrite IndexByte_first by done.
  destruct Hk as [Hkne _]. destruct (length k) as [|n] eqn:En; [by destruct k|].
  assert (El : length (k ++ [58]) = (S n + 1)%nat) by (rewrite length_app, En; simpl; lia).
  rewrite El, Nat.ltb_irrefl. rewrite take_app_length' by done.
  case_bool_decide as E.
  - subst v. cbn [app] in *. rewrite <- (IH fuel) by lia. destruct kvs as [|[k1 v1] kvs]; [done|]. cbn [mbind list_bind]. unfold param_parts. cbn [fst snd app].
    apply Forall_cons in Hkvs as [[[_ Hc1] _] _]. rewrite ContainsByte_true by done.
    by rewrite andb_false_r.
  - destruct Hv as [?|[_ Hvc]]; [done|]. cbn [app] in *. rewrite bool_decide_true by done.
    rewrite ContainsByte_false by done. cbn [negb andb]. apply IH. simpl in Hf. lia.
Qed.

Lemma foldl_insert (kvs : list (bytes * bytes)) (m : gmap (list Z) (list Z)) :
  NoDup kvs.*1 -> kvs ≡ₚ map_to_list m -> foldl (fun m kv => <[kv.1 := kv.2]> m) ∅ kvs = m.
Proof.
  intros Hn Hp. assert (E : forall l (m0 : gmap (list Z) (list Z)),
    foldl (fun m kv => <[kv.1 := kv.2]> m) m0 l = foldr (fun kv m => <[kv.1 := kv.2]> m) m0 (reverse l)).
  { intros l. induction l as [|kv l IH]; intros m0; [done|]. cbn [foldl].
    by rewrite reverse_cons, foldr_app, IH. }
  rewrite E. change (list_to_map (reverse kvs) = m). rewrite <- (list_to_map_to_list m).
  apply list_to_map_proper; [|by rewrite reverse_Permutation].
  by rewrite reverse_Permutation.
Qed.

(** C25: An MCP message comes back from its wire form. Whatever the order in which the map
    of parameters is visited, [ParseMCP] of [String] gives the message back when it has
    an authentication key and a tag, package, key and tag are words, and the keys and
    the values that are not empty are words without a colon. *)
Theorem MCP_roundtrip m kvs :
  is_word (Package m) -> plain (AuthKey m) -> is_word (Tag m) ->
  kvs ≡ₚ map_to_list (Params m) -> Forall param_ok kvs ->
  ParseMCP (MCP_String m kvs) = inl m.
Proof.
  intros Hp [Ha Hac] Ht Hk Hok. destruct m as [auth pkg tag ps]. cbn [Package AuthKey Tag Params] in *.
  unfold ParseMCP, MCP_String. cbn [Package AuthKey Tag Params].
  rewrite (bool_decide_false (auth = [])) by apply Ha. rewrite (bool_decide_false (tag = [])) by apply Ht.
  assert (Epre : forall s, HasPrefix (str "#$#" ++ s) (str "#$#") = true)
    by (intros s; unfold HasPrefix; by rewrite take_app_length, bool_decide_true).
  rewrite Epre. cbn [negb]. change (drop 3 (str "#$#" ++ ?s)) with s.
  cbn [app]. rewrite (Fields_cons pkg) by done. cbn [app].
  rewrite (Fields_cons auth) by done.
  change (concat ((fun kv : list Z * list Z => 32 :: kv.1 ++ str ": " ++ kv.2) <$> kvs))
    with (concat (write_param <$> kvs)).
  rewrite (Fields_word_rest tag) by (done || apply write_params_head).
  rewrite Fields_params, ContainsByte_false by done. cbn [negb].
  rewrite mcp_params_ok by done. by rewrite (foldl_insert _ ps) by (rewrite ?Hk; try apply NoDup_fst_map_to_list; done).
Qed.

Lemma MCP_roundtrip_witness :
  let m := MkMCP (str "key1") (str "dns-edit") (str "t:1") {[str "name" := str "x"; str "note" := []]} in
  ParseMCP (str "#$#dns-edit key1 t:1 note:  name: x") = inl m.
Proof.
  intros m.
  apply (MCP_roundtrip m [(str "note", []); (str "name", str "x")]);
    unfold param_ok, plain, is_word; by_decide.
Defined.

(** Without a key and a tag, or with a colon in a value, it does not. *)
Lemma MCP_parameter_lost :
  let m := MkMCP [] (str "pkg") [] {[str "k" := str "v"]} in
  ParseMCP (MCP_String m [(str "k", str "v")]) = inl (MkMCP [] (str "pkg") (str "k:") ∅).
Proof. by vm_compute. Qed.

Lemma MCP_tag_becomes_key :
  ParseMCP (MCP_String (MkMCP [] (str "pkg") (str "t") ∅) []) = inl (MkMCP (str "t") (str "pkg") [] ∅).
Proof. by vm_compute. Qed.

Lemma MCP_colon_in_value :
  ParseMCP (MCP_String (MkMCP (str "a") (str "pkg") (str "t") {[str "url" := str "http://x"]})
    [(str "url", str "http://x")]) =
  inl (MkMCP (str "a") (str "pkg") (str "t") {[str "url" := []; str "http" := str "//x"]}).
Proof. by vm_compute. Qed.
