(* ===== verification/Mccp.v ===== *)
(** * Mccp: the compressed stream of [mud.go].

    [MCCPWriter] puts a [zlib.Writer] in front of a connection. The compressor is a
    class: its operations produce chunks that it hands to the connection's [Write], and
    its laws are what the documentation of [compress/zlib] promises. *)
From S2P Require Import Prelude Constants GoSlice TelnetParser ParserSpec ParserProps Wire.
From S2P Require Import NetConn TelnetConn ConnWriter.
#[local] Open Scope Z_scope.

(** ** zlib *)

(** A new writer (nothing is written by it), and what each operation hands on. *)
Class Zlib (W : Type) := {
  z_new : Z -> W + Z;
  z_write : W -> bytes -> W * list bytes;
  z_flush : W -> W * list bytes;
  z_close : W -> W * list bytes
}.

Class ZlibLaws (W : Type) `{Zlib W} := {
  (** what the decompressor makes of a stream, and the data taken and the stream so far *)
  inflate : bytes -> bytes;
  z_taken : W -> bytes;
  z_stream : W -> bytes;
  z_new_ok level : -2 <= level <= 9 ->
    exists w, z_new level = inl w /\ z_taken w = [] /\ z_stream w = [];
  z_write_ok w p : let '(w', out) := z_write w p in
    z_taken w' = z_taken w ++ p /\ z_stream w' = z_stream w ++ concat out;
  (** after [Flush] all the data can be decompressed *)
  z_flush_ok w : let '(w', out) := z_flush w in
    z_taken w' = z_taken w /\ z_stream w' = z_stream w ++ concat out /\
    inflate (z_stream w') = z_taken w';
  z_close_ok w : let '(w', out) := z_close w in
    z_taken w' = z_taken w /\ z_stream w' = z_stream w ++ concat out /\
    inflate (z_stream w') = z_taken w'
}.

Definition NoCompression : Z := 0.
Definition BestCompression : Z := 9.
Definition DefaultCompression : Z := -1.

(** The errors: of the connection, or of the compressor. *)
Inductive mccp_error := ConnErr (e : error) | ZlibErr (code : Z).

(** ** The writer *)

Section Mccp.
  Context {N Q W : Type} `{NetConn N} `{GrowPolicy} `{Zlib W}.
  Implicit Type c : Conn N Q.

(** A [zlib.Writer] keeps the first error of the connection. *)
Record ZWriter := MkZW { zw_state : W; zw_err : option mccp_error }.

Record MCCPWriter := MkMCCP { mw_conn : Conn N Q; mw_writer : option ZWriter; mw_level : Z }.

Definition EnableMCCP2 c (level : Z) : Conn N Q * (MCCPWriter + error) :=
  let level := if (level <? NoCompression) || (BestCompression <? level) then DefaultCompression else level in
  let '(c, err) := SendCommand c CmdWill OptMCCP2 in
  match err with
  | Some e => (c, inr e)
  | None =>
      let '(c, err) := Flush c in
      match err with Some e => (c, inr e) | None => (c, inl (MkMCCP c None level)) end
  end.

Definition StartCompression (mw : MCCPWriter) : MCCPWriter * option mccp_error :=
  let '(c, err) := SendSubnegotiation (mw_conn mw) OptMCCP2 [] in
  match err with
  | Some e => (MkMCCP c (mw_writer mw) (mw_level mw), Some (ConnErr e))
  | None =>
      let '(c, err) := Flush c in
      match err with
      | Some e => (MkMCCP c (mw_writer mw) (mw_level mw), Some (ConnErr e))
      | None =>
          match z_new (mw_level mw) with
          | inl w => (MkMCCP c (Some (MkZW w None)) (mw_level mw), None)
          | inr code => (MkMCCP c None (mw_level mw), Some (ZlibErr code))
          end
      end
  end.

(** The compressor's writes to the connection, up to the first error. *)
Fixpoint hand_on c (chunks : list bytes) : Conn N Q * option error :=
  match chunks with
  | [] => (c, None)
  | chunk :: chunks' =>
      let '(c, (_, err)) := Write c chunk in
      match err with Some e => (c, Some e) | None => hand_on c chunks' end
  end.

(** One operation of the [zlib.Writer]. *)
Definition z_op c (zw : ZWriter) (op : W -> W * list bytes) : Conn N Q * ZWriter * option mccp_error :=
  match zw_err zw with
  | Some e => (c, zw, Some e)
  | None =>
      let '(w, chunks) := op (zw_state zw) in
      let '(c, err) := hand_on c chunks in
      let err := ConnErr <$> err in (c, MkZW w err, err)
  end.

Definition mccp_Write (mw : MCCPWriter) (p : bytes) : MCCPWriter * (Z * option mccp_error) :=
  match mw_writer mw with
  | None =>
      let '(c, (n, err)) := Write (mw_conn mw) p in
      (MkMCCP c None (mw_level mw), (n, ConnErr <$> err))
  | Some zw =>
      let '(c, zw, err) := z_op (mw_conn mw) zw (fun w => z_write w p) in
      (MkMCCP c (Some zw) (mw_level mw), (if err is Some _ then 0 else zlen p, err))
  end.

Definition mccp_Flush (mw : MCCPWriter) : MCCPWriter * option mccp_error :=
  let '(mw, err) :=
    match mw_writer mw with
    | None => (mw, None)
    | Some zw =>
        let '(c, zw, err) := z_op (mw_conn mw) zw z_flush in (MkMCCP c (Some zw) (mw_level mw), err)
    end in
  match err with
  | Some e => (mw, Some e)
  | None =>
      let '(c, err) := Flush (mw_conn mw) in
      (MkMCCP c (mw_writer mw) (mw_level mw), ConnErr <$> err)
  end.

Definition mccp_Close (mw : MCCPWriter) : MCCPWriter * option mccp_error :=
  match mw_writer mw with
  | None => (mw, None)
  | Some zw =>
      let '(c, zw, err) := z_op (mw_conn mw) zw z_close in
      match err with
      | Some e => (MkMCCP c (Some zw) (mw_level mw), Some e)
      | None => (MkMCCP c None (mw_level mw), None)
      end
  end.

(** A session: writes and flushes, up to the first error. *)
Inductive mccp_op := MWrite (p : list Z) | MFlush.

Fixpoint mccp_run (mw : MCCPWriter) (ops : list mccp_op) : MCCPWriter * option mccp_error :=
  match ops with
  | [] => (mw, None)
  | op :: ops' =>
      let '(mw, err) :=
        match op with
        | MWrite p => let '(mw, (_, err)) := mccp_Write mw p in (mw, err)
        | MFlush => mccp_Flush mw
        end in
      match err with Some e => (mw, Some e) | None => mccp_run mw ops' end
  end.

Definition written (ops : list mccp_op) : bytes :=
  ops ≫= (fun op => match op with MWrite p => p | MFlush => [] end).
End Mccp.
#[global] Arguments ZWriter : clear implicits.
#[global] Arguments MCCPWriter : clear implicits.

(** ** What the connection gets *)

Section MccpProps.
  Context {N Q W : Type} `{NetConnLaws N} `{GrowPolicy} `{ZlibLaws W}.
  Implicit Type c : Conn N Q.

Lemma hand_on_ok chunks : forall c c',
  wr_wf c -> closed c = false -> hand_on c chunks = (c', None) -> sends c c' None (escape (concat chunks)).
Proof using Type.
  induction chunks as [|chunk chunks IH]; intros c c' Hc Ho E; cbn [hand_on] in E.
  { simplify_eq. by apply sends_refl. }
  destruct (Write c chunk) as [c1 [n [e|]]] eqn:Ew; [done|].
  pose proof (Write_sends c chunk c1 n Hc Ho Ew) as Hs. cbn [concat]. rewrite escape_app.
  eapply sends_trans; [exact Hs|]. apply IH; [apply Hs| |done].
  by rewrite (fr_closed _ _ (sd_frame _ _ _ _ Hs)).
Qed.

(** The writer of a session: what was written since [c0], and that no error is kept. *)
Definition session (c0 : Conn N Q) (mw : MCCPWriter N Q W) (data : bytes) : Prop :=
  exists w, mw_writer mw = Some (MkZW w None) /\ z_taken w = data /\
    sends c0 (mw_conn mw) None (escape (z_stream w)).

(** An operation of the compressor that takes [p]. *)
Definition takes (op : W -> W * list bytes) (p : bytes) : Prop :=
  forall w, let '(w', outp) := op w in z_taken w' = z_taken w ++ p /\ z_stream w' = z_stream w ++ concat outp.

Lemma z_op_ok c0 mw data op p c zw :
  wr_wf c0 -> closed c0 = false -> session c0 mw data -> takes op p ->
  (forall zw0, mw_writer mw = Some zw0 -> z_op (mw_conn mw) zw0 op = (c, zw, None)) ->
  exists w, zw = MkZW w None /\ z_taken w = data ++ p /\ sends c0 c None (escape (z_stream w)) /\
    exists w0, w = (op w0).1.
Proof using Type.
  intros Hc Ho (w & Ew & Ht & Hs) Hop E. specialize (E _ Ew). unfold z_op in E. cbn [zw_err zw_state] in E.
  specialize (Hop w). destruct (op w) as [w' outp] eqn:Eop. destruct Hop as [Ht' Hz].
  destruct (hand_on (mw_conn mw) outp) as [c' err] eqn:Eh. destruct err as [e|]; [done|].
  simplify_eq/=. exists w'. split_and!; [done|done| |exists w; by rewrite Eop].
  rewrite Hz, escape_app. eapply sends_trans; [exact Hs|].
  apply hand_on_ok; [apply Hs| |done]. by rewrite (fr_closed _ _ (sd_frame _ _ _ _ Hs)).
Qed.

Lemma mccp_Write_ok c0 mw data p mw' n :
  wr_wf c0 -> closed c0 = false -> session c0 mw data -> mccp_Write mw p = (mw', (n, None)) ->
  session c0 mw' (data ++ p) /\ n = zlen p.
Proof using Type.
  intros Hc Ho Hs E. pose proof Hs as (w & Ew & _). unfold mccp_Write in E. rewrite Ew in E.
  destruct (z_op (mw_conn mw) (MkZW w None) (fun w => z_write w p)) as [[c zw] err] eqn:Eop. simplify_eq/=.
  destruct (z_op_ok c0 mw data (fun w => z_write w p) p c zw Hc Ho Hs) as (w' & -> & Ht & Hs' & _).
  - intros w0. pose proof (z_write_ok w0 p) as Hz. by destruct (z_write w0 p).
  - intros zw0 E0. rewrite Ew in E0. by simplify_eq.
  - split; [|done]. by exists w'.
Qed.

(** [Flush] makes everything written decompressible, and leaves nothing in the buffer. *)
Lemma mccp_Flush_ok c0 mw data mw' :
  wr_wf c0 -> closed c0 = false -> session c0 mw data -> mccp_Flush mw = (mw', None) ->
  session c0 mw' data /\ w_bytes (mw_conn mw') = [] /\
  exists w, mw_writer mw' = Some (MkZW w None) /\ inflate (z_stream w) = data.
Proof using Type.
  intros Hc Ho Hs E. pose proof Hs as (w & Ew & _). unfold mccp_Flush in E. rewrite Ew in E.
  destruct (z_op (mw_conn mw) (MkZW w None) z_flush) as [[c zw] err] eqn:Eop.
  destruct err as [e|]; [done|]. cbn [mw_conn mw_writer mw_level] in E.
  destruct (z_op_ok c0 mw data z_flush [] c zw Hc Ho Hs) as (w' & -> & Ht & Hs' & w0 & Ew0).
  - intros w1. pose proof (z_flush_ok w1) as Hz. destruct (z_flush w1). rewrite app_nil_r. tauto.
  - intros zw0 E0. rewrite Ew in E0. by simplify_eq.
  - rewrite app_nil_r in Ht. destruct (Flush c) as [c1 err] eqn:Ef. destruct err as [e|]; [done|]. simplify_eq/=.
    pose proof (flushLocked_ok c (sd_wf _ _ _ _ Hs')) as Hf. unfold Flush in Ef. rewrite Ef in Hf.
    destruct Hf as (Hf & Hb & _). assert (Hs1 : sends c0 c1 None (escape (z_stream (z_flush w0).1))).
    { rewrite <- (app_nil_r (escape _)). by eapply sends_trans. }
    split; [by exists (z_flush w0).1|]. split; [by apply Hb|]. eexists. split; [done|].
    pose proof (z_flush_ok w0) as Hz. destruct (z_flush w0) as [w1 outp]. apply Hz.
Qed.

Lemma mccp_run_ok c0 ops : forall mw data mw',
  wr_wf c0 -> closed c0 = false -> session c0 mw data -> mccp_run mw ops = (mw', None) ->
  session c0 mw' (data ++ written ops).
Proof using Type.
  induction ops as [|op ops IH]; intros mw data mw' Hc Ho Hs E; cbn [mccp_run] in E.
  { simplify_eq. by rewrite app_nil_r. }
  cbn [written mbind list_bind]. destruct op as [p|].
  - destruct (mccp_Write mw p) as [mw1 [n [e|]]] eqn:Ew; [done|].
    destruct (mccp_Write_ok c0 mw data p mw1 n Hc Ho Hs Ew) as [Hs1 _].
    rewrite app_assoc. by apply IH with mw1.
  - destruct (mccp_Flush mw) as [mw1 [e|]] eqn:Ef; [done|].
    destruct (mccp_Flush_ok c0 mw data mw1 Hc Ho Hs Ef) as [Hs1 _]. by apply IH with mw1.
Qed.

(** The two calls that come before: the offer, and the marker. *)
Lemma EnableMCCP2_ok c level c1 (mw : MCCPWriter N Q W) :
  wr_wf c -> closed c = false -> EnableMCCP2 c level = (c1, inl mw) ->
  mw_conn mw = c1 /\ mw_writer mw = None /\ -2 <= mw_level mw <= 9 /\
  sends c c1 None (wire [ICommand CmdWill OptMCCP2]).
Proof using Type.
  intros Hc Ho E. unfold EnableMCCP2 in E. set (lv := if _ || _ then _ else _) in E.
  pose proof (SendCommand_ok c CmdWill OptMCCP2 Hc Ho) as Hs.
  destruct (SendCommand c CmdWill OptMCCP2) as [c0 [e|]]; [done|].
  pose proof (flushLocked_ok c0 (sd_wf _ _ _ _ Hs)) as Hf. unfold Flush in E.
  destruct (flushLocked c0) as [c2 [e|]]; [done|]. injection E as <- <-. cbn [mw_conn mw_writer mw_level].
  split_and!; [done|done|..|by destruct Hf as [Hf _]; apply (sends_trans _ _ _ _ _ _ Hs Hf)];
    unfold lv, NoCompression, BestCompression, DefaultCompression; repeat cmp; cbn [orb]; lia.
Qed.

Lemma StartCompression_ok c0 mw mw' l :
  wr_wf c0 -> closed c0 = false -> mw_writer mw = None -> -2 <= mw_level mw <= 9 ->
  sends c0 (mw_conn mw) None l -> StartCompression mw = (mw', None) ->
  sends c0 (mw_conn mw') None (l ++ wire [ISub OptMCCP2 []]) /\
  exists w, mw_writer mw' = Some (MkZW w None) /\ z_taken w = [] /\ z_stream w = [].
Proof using Type.
  intros Hc Ho Hw Hl Hs E. unfold StartCompression in E.
  assert (Ho' : closed (mw_conn mw) = false) by (by rewrite (fr_closed _ _ (sd_frame _ _ _ _ Hs))).
  pose proof (SendSubnegotiation_ok (mw_conn mw) OptMCCP2 [] (sd_wf _ _ _ _ Hs) Ho') as Hk.
  destruct (SendSubnegotiation (mw_conn mw) OptMCCP2 []) as [c1 [e|]]; [done|].
  pose proof (flushLocked_ok c1 (sd_wf _ _ _ _ Hk)) as Hf. unfold Flush in E.
  destruct (flushLocked c1) as [c2 [e|]]; [done|]. destruct Hf as [Hf _].
  destruct (z_new_ok (mw_level mw) Hl) as (w & Ew & Ht & Hz). rewrite Ew in E. injection E as <-.
  cbn [mw_conn mw_writer]. split; [|by exists w].
  eapply sends_trans; [exact Hs|]. apply (sends_trans _ _ _ _ _ _ Hk Hf).
Qed.
End MccpProps.

Section Stream.
  Context {N Q W : Type} `{NetConnLaws N} `{GrowPolicy} `{ZlibLaws W}.
  Implicit Type c : Conn N Q.

(** C19: The compressed stream arrives, but escaped. After [EnableMCCP2],
    [StartCompression], any sequence of [Write] and [Flush] calls and a last [Flush],
    none of which reported an error, the network has taken the offer, the marker and
    then one stream, in this order; the stream decompresses to exactly what was
    written, and a peer's parser delivers it. What follows the marker on the wire is
    not that stream but its escaped form: they are the same exactly when the compressor
    produced no byte 255. *)
Theorem MCCP_stream_arrives c level c1 (mw : MCCPWriter N Q W) mw1 ops mw2 mw3 :
  wr_wf c -> closed c = false ->
  EnableMCCP2 c level = (c1, inl mw) -> StartCompression mw = (mw1, None) ->
  mccp_run mw1 ops = (mw2, None) -> mccp_Flush mw2 = (mw3, None) ->
  exists stream, inflate stream = written ops /\
    net_sent (netConn (mw_conn mw3)) =
      out c ++ wire [ICommand CmdWill OptMCCP2; ISub OptMCCP2 []] ++ escape stream /\
    (escape stream = stream <-> CmdIAC ∉ stream) /\
    forall p chunks, parser_wf p -> alpha p = DData -> concat chunks = escape stream ->
      let '(_, rs) := feed p chunks in
      Forall (fun cr => not_full cr.2) rs -> inflate (fed_data rs) = written ops.
Proof using Type*.
  intros Hc Ho E0 E1 E2 E3.
  destruct (EnableMCCP2_ok c level c1 mw Hc Ho E0) as (<- & Hw & Hl & Hs).
  destruct (StartCompression_ok c mw mw1 _ Hc Ho Hw Hl Hs E1) as (Hs1 & w & Ew & Ht & Hz).
  assert (Ho1 : closed (mw_conn mw1) = false) by (by rewrite (fr_closed _ _ (sd_frame _ _ _ _ Hs1))).
  assert (Hses : session (mw_conn mw1) mw1 []).
  { exists w. split_and!; [done|done|]. rewrite Hz. apply sends_refl, Hs1. }
  pose proof (mccp_run_ok _ ops mw1 [] mw2 (sd_wf _ _ _ _ Hs1) Ho1 Hses E2) as Hses2.
  destruct (mccp_Flush_ok _ mw2 _ mw3 (sd_wf _ _ _ _ Hs1) Ho1 Hses2 E3)
    as ((w' & Ew' & _ & Hs3) & Hb & w'' & Ew'' & Hi).
  rewrite Ew' in Ew''. injection Ew'' as <-. exists (z_stream w'). split_and!; [exact Hi|..].
  - assert (Hout : net_sent (netConn (mw_conn mw3)) = out (mw_conn mw3))
      by (unfold out; by rewrite Hb, app_nil_r).
    rewrite Hout, (sd_out _ _ _ _ (sends_trans _ _ _ _ _ _ Hs1 Hs3)). by rewrite <- app_assoc.
  - split; [|apply escape_no_IAC]. intros E Hin.
    pose proof (length_escape_IAC _ Hin) as Hlen. rewrite E in Hlen. lia.
  - intros p chunks Hp Ha Hch. pose proof (feed_decode chunks p Hp) as Hd. rewrite Hch, Ha in Hd.
    pose proof (decode_wire (sn_cap p) (sn_cap_nonneg p Hp) [IText (z_stream w')] ltac:(by repeat constructor)) as Hx.
    unfold wire in Hx. cbn [mbind list_bind wire_item] in Hx. rewrite app_nil_r in Hx.
    destruct (feed p chunks) as [p' rs]. destruct (decode _ _ _) as [d os].
    destruct Hx as (_ & Hx & _). intros Hn. destruct Hd as (_ & Hd). rewrite (proj1 (Hd Hn)), Hx.
    unfold texts. cbn [mbind list_bind]. by rewrite app_nil_r.
Qed.
End Stream.

(** ** A concrete compressor

    It stores the data as it is; its state is the stream. *)

#[export] Instance Stored_Zlib : Zlib (list Z) := {
  z_new level := if (-2 <=? level) && (level <=? 9) then inl [] else inr 0;
  z_write w p := (w ++ p, [p]);
  z_flush w := (w, []);
  z_close w := (w, [])
}.

#[export] Instance Stored_Laws : ZlibLaws (list Z).
Proof.
  refine {| inflate s := s; z_taken w := w; z_stream w := w |}; unfold z_new, z_write, z_flush, z_close; simpl.
  - intros level Hl. exists []. by rewrite !(proj2 (Z.leb_le _ _)) by lia.
  - intros w p. by rewrite app_nil_r.
  - intros w. by rewrite app_nil_r.
  - intros w. by rewrite app_nil_r.
Defined.

#[local] Existing Instance doubling.

Definition wit_ops : list mccp_op := [MWrite [104; 105]; MFlush; MWrite [255; 33]].
Definition wit_start : Conn ScriptConn RingBuf.Ring * (MCCPWriter ScriptConn RingBuf.Ring (list Z) + error) :=
  EnableMCCP2 (script_conn [] 1000 [7]) 12.
Definition wit_mw : MCCPWriter ScriptConn RingBuf.Ring (list Z) :=
  match wit_start.2 with inl mw => mw | inr _ => MkMCCP (script_conn [] 0 []) None 0 end.
Definition wit_mw1 := (StartCompression wit_mw).1.
Definition wit_mw2 := (mccp_run wit_mw1 wit_ops).1.
Definition wit_mw3 := (mccp_Flush wit_mw2).1.

Lemma MCCP_stream_arrives_witness :
  exists stream, stream = [104; 105; 255; 33] /\
    net_sent (netConn (mw_conn wit_mw3)) =
      7 :: wire [ICommand CmdWill OptMCCP2; ISub OptMCCP2 []] ++ escape stream /\
    escape stream <> stream.
Proof.
  assert (E0 : wit_start = (wit_start.1, inl wit_mw)) by by vm_compute.
  assert (E1 : StartCompression wit_mw = (wit_mw1, None)) by by vm_compute.
  assert (E2 : mccp_run wit_mw1 wit_ops = (wit_mw2, None)) by by vm_compute.
  assert (E3 : mccp_Flush wit_mw2 = (wit_mw3, None)) by by vm_compute.
  destruct (MCCP_stream_arrives (script_conn [] 1000 [7]) 12 wit_start.1 wit_mw wit_mw1 wit_ops wit_mw2 wit_mw3
    (script_conn_wr_wf [] 1000 [7] ltac:(simpl; lia)) eq_refl E0 E1 E2 E3) as (stream & Hi & Hn & Hesc & _).
  exists stream. cbn in Hi. split; [exact Hi|]. split; [exact Hn|]. rewrite Hesc, Hi. intros Hnot.
  apply Hnot. rewrite !elem_of_cons. unfold CmdIAC. tauto.
Defined.
