(* ===== verification/Server.v ===== *)
(** * Server: the accept loop, the handlers and the shutdown of [server.go].

    Every goroutine is cut at its accesses to shared state: an atomic, a channel
    operation, a critical section of [connMu], a call of [net.Listener]. A world holds the
    [Server], the pools and the goroutines with their program counters; a label says who
    moves and how a [select] or the network decides. [wstep] is [None] where that goroutine
    is blocked. Behind every handler, from [NewConn] on, stands the world of its connection
    ([ConnShared.world]): the handler's goroutine is [User 0] there, a call of
    [Server.Close] that has come to this connection is another user, and what one of them
    does to the connection is a step of [ConnShared]. *)
From stdpp Require Export gmap.
From S2P Require Import Prelude GoSlice Pool ByteQueue RingBuf TelnetParser NetConn TelnetConn.
From S2P Require ConnShared.
#[local] Open Scope Z_scope.

(** ** The server *)

Record Server (cfg : Type) := MkServer {
  config : cfg;
  handler : bool;
  listener : option nat;
  closed : bool;
  closing : bool;
  closeDone : bool;
  conns : gset nat;
  connsAccepted : Z;
  connsClosed : Z;
  connsActive : Z;
  (** the values in the channel, and its capacity; [None] is the nil channel *)
  acceptLimit : nat;
  acceptCap : option nat
}.
Arguments MkServer {cfg}.
Arguments config {cfg}.
Arguments handler {cfg}.
Arguments listener {cfg}.
Arguments closed {cfg}.
Arguments closing {cfg}.
Arguments closeDone {cfg}.
Arguments conns {cfg}.
Arguments connsAccepted {cfg}.
Arguments connsClosed {cfg}.
Arguments connsActive {cfg}.
Arguments acceptLimit {cfg}.
Arguments acceptCap {cfg}.

(** A handler is here nil ([false]) or not. *)
Inductive ServerOption (cfg : Type) :=
  | WithConfig (c : cfg) | WithHandler (h : bool) | WithMaxConns (n : Z).
Arguments WithConfig {cfg}.
Arguments WithHandler {cfg}.
Arguments WithMaxConns {cfg}.

Section Definitions.
  Context {cfg : Type}.
  Implicit Type s : Server cfg.

(** [None]: [make(chan struct{}, n)] panics for a negative [n]. *)
Definition apply_option s (opt : ServerOption cfg) : option (Server cfg) :=
  match opt with
  | WithConfig c => Some (MkServer c (handler s) (listener s) (closed s) (closing s) (closeDone s)
      (conns s) (connsAccepted s) (connsClosed s) (connsActive s) (acceptLimit s) (acceptCap s))
  | WithHandler h => Some (MkServer (config s) h (listener s) (closed s) (closing s) (closeDone s)
      (conns s) (connsAccepted s) (connsClosed s) (connsActive s) (acceptLimit s) (acceptCap s))
  | WithMaxConns n =>
      if n <? 0 then None else
      Some (MkServer (config s) (handler s) (listener s) (closed s) (closing s) (closeDone s)
        (conns s) (connsAccepted s) (connsClosed s) (connsActive s) 0%nat (Some (Z.to_nat n)))
  end.

Fixpoint apply_options s (opts : list (ServerOption cfg)) : option (Server cfg) :=
  match opts with [] => Some s | o :: opts' => s' ← apply_option s o; apply_options s' opts' end.

Definition set_acceptCap s (c : option nat) : Server cfg :=
  MkServer (config s) (handler s) (listener s) (closed s) (closing s) (closeDone s) (conns s)
    (connsAccepted s) (connsClosed s) (connsActive s) (acceptLimit s) c.

(** The zero value of the configuration is an argument. *)
Definition NewServer (zero : cfg) (opts : list (ServerOption cfg)) : option (Server cfg) :=
  s ← apply_options (MkServer zero false None false false false ∅ 0 0 0 0%nat None) opts;
  Some (if acceptCap s is Some _ then s else set_acceptCap s (Some (Z.to_nat 10000))).

Definition set_listener s (l : option nat) : Server cfg :=
  MkServer (config s) (handler s) l (closed s) (closing s) (closeDone s) (conns s)
    (connsAccepted s) (connsClosed s) (connsActive s) (acceptLimit s) (acceptCap s).
Definition set_closed s : Server cfg :=
  MkServer (config s) (handler s) (listener s) true (closing s) (closeDone s) (conns s)
    (connsAccepted s) (connsClosed s) (connsActive s) (acceptLimit s) (acceptCap s).
Definition close_closing s : Server cfg :=
  MkServer (config s) (handler s) (listener s) (closed s) true (closeDone s) (conns s)
    (connsAccepted s) (connsClosed s) (connsActive s) (acceptLimit s) (acceptCap s).
Definition close_closeDone s : Server cfg :=
  MkServer (config s) (handler s) (listener s) (closed s) (closing s) true (conns s)
    (connsAccepted s) (connsClosed s) (connsActive s) (acceptLimit s) (acceptCap s).
Definition set_conns s (m : gset nat) : Server cfg :=
  MkServer (config s) (handler s) (listener s) (closed s) (closing s) (closeDone s) m
    (connsAccepted s) (connsClosed s) (connsActive s) (acceptLimit s) (acceptCap s).
Definition add_accepted s : Server cfg :=
  MkServer (config s) (handler s) (listener s) (closed s) (closing s) (closeDone s) (conns s)
    (u64 (connsAccepted s + 1)) (connsClosed s) (connsActive s) (acceptLimit s) (acceptCap s).
Definition add_closed s : Server cfg :=
  MkServer (config s) (handler s) (listener s) (closed s) (closing s) (closeDone s) (conns s)
    (connsAccepted s) (u64 (connsClosed s + 1)) (connsActive s) (acceptLimit s) (acceptCap s).
Definition add_active s (d : Z) : Server cfg :=
  MkServer (config s) (handler s) (listener s) (closed s) (closing s) (closeDone s) (conns s)
    (connsAccepted s) (connsClosed s) (u32 (connsActive s + d)) (acceptLimit s) (acceptCap s).
Definition set_acceptLimit s (n : nat) : Server cfg :=
  MkServer (config s) (handler s) (listener s) (closed s) (closing s) (closeDone s) (conns s)
    (connsAccepted s) (connsClosed s) (connsActive s) n (acceptCap s).

(** [s.acceptLimit <- struct{}{}] and [<-s.acceptLimit]; [None] where they block. *)
Definition acquire s : option (Server cfg) :=
  if acceptCap s is Some c then
    if bool_decide (acceptLimit s < c)%nat then Some (set_acceptLimit s (S (acceptLimit s))) else None
  else None.
Definition release s : option (Server cfg) :=
  match acceptLimit s with O => None | S n => Some (set_acceptLimit s n) end.

(** [Stats()] *)
Definition Stats s : Z * Z * Z := (connsAccepted s, connsClosed s, connsActive s).

End Definitions.

(** The zero [Config]. *)
Definition no_config : Config :=
  MkConfig false false false false false false false false false false false false false false
    [] 0 0 0 0 false false.

(** ** The goroutines *)

Inductive serve_error := ErrServerClosed | ErrNilHandler | ListenError.

(** Where a call of [ListenAndServe] or [Serve] stands; from [Accept] to [go] it holds the
    connection of the network. *)
Inductive serve_pc (N : Type) :=
  | ListenStart | ListenNet | ServeStore | LoopTop | LoopAcquire | LoopAccept
  | LoopFailed | LoopCheckClosed | LoopAccepted (nc : N) | LoopCounted (nc : N) | LoopSpawn (nc : N)
  | LoopClosing | LoopReturned (e : serve_error).
Arguments ListenStart {N}.
Arguments ListenNet {N}.
Arguments ServeStore {N}.
Arguments LoopTop {N}.
Arguments LoopAcquire {N}.
Arguments LoopAccept {N}.
Arguments LoopFailed {N}.
Arguments LoopCheckClosed {N}.
Arguments LoopAccepted {N}.
Arguments LoopCounted {N}.
Arguments LoopSpawn {N}.
Arguments LoopClosing {N}.
Arguments LoopReturned {N}.

Record loop (N : Type) := MkLoop { lpc : serve_pc N; ln : nat }.
Arguments MkLoop {N}.
Arguments lpc {N}.
Arguments ln {N}.

(** Where [handleConn] stands: [HCall] is before the call of the handler, [HRun] inside it,
    [HClosing] inside the deferred [c.Close()]. *)
Inductive handler_pc (N : Type) :=
  | HNew (nc : N) | HRegister | HCall | HRun | HUnregister | HClose | HClosing
  | HRelease | HDecrement | HCount | HDone.
Arguments HNew {N}.
Arguments HRegister {N}.
Arguments HCall {N}.
Arguments HRun {N}.
Arguments HUnregister {N}.
Arguments HClose {N}.
Arguments HClosing {N}.
Arguments HRelease {N}.
Arguments HDecrement {N}.
Arguments HCount {N}.
Arguments HDone {N}.

(** [shared]: the connection and the goroutines that use it, once [NewConn] has made it. *)
Record hconn (N : Type) := MkH { hpc : handler_pc N; shared : option (ConnShared.world N) }.
Arguments MkH {N}.
Arguments hpc {N}.
Arguments shared {N}.

(** How [Close] and [Shutdown] return. *)
Inductive close_error := AlreadyClosed | CtxError.

(** [KConn c n todo]: inside [c.Close()], as the user [n] of that connection. *)
Inductive closer_pc :=
  | KStart | KClosing | KListener | KSnapshot
  | KConns (todo : list nat) | KConn (c n : nat) (todo : list nat)
  | KWaitDone | KReturned (r : option close_error).

(** [shutdown]: the call is [Shutdown]. [snapshot] remembers the connections it was to
    close; it is not part of the program's state. *)
Record closer := MkK { kpc : closer_pc; shutdown : bool; ctx_done : bool; snapshot : gset nat }.

Record world (N : Type) := World {
  srv : Server Config;
  pools : Pools;
  closed_lns : gset nat;
  next_ln : nat;
  loops : list (loop N);
  hs : list (hconn N);
  closers : list closer;
  panicked : bool
}.
Arguments World {N}.
Arguments srv {N}.
Arguments pools {N}.
Arguments closed_lns {N}.
Arguments next_ln {N}.
Arguments loops {N}.
Arguments hs {N}.
Arguments closers {N}.
Arguments panicked {N}.

Inductive loop_choice (N : Type) :=
  Go | PickSend | PickClosing | ListenOk | ListenFails | AcceptOk (nc : N) | AcceptErr.
Arguments Go {N}.
Arguments PickSend {N}.
Arguments PickClosing {N}.
Arguments ListenOk {N}.
Arguments ListenFails {N}.
Arguments AcceptOk {N}.
Arguments AcceptErr {N}.

(** [Make]: what [sync.Pool] hands to [NewConn]. *)
Inductive handler_choice := Proceed | Make (choices : nat * nat * nat) | HandlerDone.
Inductive closer_choice := Continue | Order (todo : list nat) | PickCtx.

(** [ConnStep]: a step of a goroutine of the connection. [ReadsLine]: [ReadLine], called by
    the handler, takes no lock and may at any moment have changed whatever it uses of the
    connection; [None] is its panic. *)
Inductive label (N : Type) :=
  | StartServe (l : nat) | StartListenAndServe | StartClose | StartShutdown
  | LoopStep (i : nat) (ch : loop_choice N)
  | HandlerStep (i : nat) (ch : handler_choice)
  | CloserStep (i : nat) (ch : closer_choice)
  | ConnStep (i : nat) (l : ConnShared.label)
  | ReadsLine (i : nat) (r : option (Conn N Ring))
  | CtxDone (i : nat).
Arguments StartServe {N}.
Arguments StartListenAndServe {N}.
Arguments StartClose {N}.
Arguments StartShutdown {N}.
Arguments LoopStep {N}.
Arguments HandlerStep {N}.
Arguments CloserStep {N}.
Arguments ConnStep {N}.
Arguments ReadsLine {N}.
Arguments CtxDone {N}.

Section System.
  Context {N : Type} `{NetConn N} `{GrowPolicy}.
  Implicit Types (w : world N) (s : Server Config) (h : hconn N) (cw : ConnShared.world N).

Definition set_srv w s : world N :=
  World s (pools w) (closed_lns w) (next_ln w) (loops w) (hs w) (closers w) (panicked w).
Definition set_pools w P : world N :=
  World (srv w) P (closed_lns w) (next_ln w) (loops w) (hs w) (closers w) (panicked w).
Definition panic w : world N :=
  World (srv w) (pools w) (closed_lns w) (next_ln w) (loops w) (hs w) (closers w) true.
Definition set_loop w (i : nat) (l : loop N) : world N :=
  World (srv w) (pools w) (closed_lns w) (next_ln w) (<[i := l]> (loops w)) (hs w) (closers w) (panicked w).
Definition set_h w (i : nat) h : world N :=
  World (srv w) (pools w) (closed_lns w) (next_ln w) (loops w) (<[i := h]> (hs w)) (closers w) (panicked w).
Definition set_closer w (i : nat) (k : closer) : world N :=
  World (srv w) (pools w) (closed_lns w) (next_ln w) (loops w) (hs w) (<[i := k]> (closers w)) (panicked w).
Definition add_loop w (l : loop N) : world N :=
  World (srv w) (pools w) (closed_lns w) (next_ln w) (loops w ++ [l]) (hs w) (closers w) (panicked w).
Definition add_h w h : world N :=
  World (srv w) (pools w) (closed_lns w) (next_ln w) (loops w) (hs w ++ [h]) (closers w) (panicked w).
Definition add_closer w (k : closer) : world N :=
  World (srv w) (pools w) (closed_lns w) (next_ln w) (loops w) (hs w) (closers w ++ [k]) (panicked w).
Definition new_ln w : world N :=
  World (srv w) (pools w) (closed_lns w) (S (next_ln w)) (loops w) (hs w) (closers w) (panicked w).
Definition close_ln w (l : nat) : world N :=
  World (srv w) (pools w) ({[ l ]} ∪ closed_lns w) (next_ln w) (loops w) (hs w) (closers w) (panicked w).

(** The handler's connection after some steps; the pools are those of the program, and a
    panic there ends the program. *)
Definition set_shared w (i : nat) (pc : handler_pc N) cw : world N :=
  World (srv w) (ConnShared.pools cw) (closed_lns w) (next_ln w) (loops w)
    (<[i := MkH pc (Some cw)]> (hs w)) (closers w) (panicked w || ConnShared.panicked cw).

Definition conn_steps w (i : nat) h (pc : handler_pc N) (ls : list ConnShared.label) : option (world N) :=
  cw ← shared h;
  cw' ← ConnShared.wrun (ConnShared.set_pools cw (pools w)) ls;
  Some (set_shared w i pc cw').

(** The goroutine [n] of the connection is not inside an operation. *)
Definition returned h (n : nat) : bool :=
  match shared h with
  | Some cw => if ConnShared.get_pc cw (ConnShared.User n) is Some ConnShared.Idle then true else false
  | None => false
  end.

(** ** ListenAndServe and Serve *)

Definition loop_step w (i : nat) (l : loop N) (ch : loop_choice N) : option (world N) :=
  let s := srv w in
  let goto w pc := set_loop w i (MkLoop pc (ln l)) in
  match lpc l, ch with
  | ListenStart, Go =>
      Some (goto w (if handler s then ListenNet else LoopReturned ErrNilHandler))
  | ListenNet, ListenFails => Some (goto w (LoopReturned ListenError))
  | ListenNet, ListenOk => Some (set_loop (new_ln w) i (MkLoop ServeStore (next_ln w)))
  | ServeStore, Go => Some (goto (set_srv w (set_listener s (Some (ln l)))) LoopTop)
  | LoopTop, Go => Some (goto w (if closing s then LoopClosing else LoopAcquire))
  | LoopAcquire, PickSend => s' ← acquire s; Some (goto (set_srv w s') LoopAccept)
  | LoopAcquire, PickClosing => if closing s then Some (goto w LoopClosing) else None
  | LoopAccept, AcceptOk nc =>
      if bool_decide (ln l ∈ closed_lns w) then None else Some (goto w (LoopAccepted nc))
  | LoopAccept, AcceptErr => Some (goto w LoopFailed)
  | LoopFailed, Go => s' ← release s; Some (goto (set_srv w s') LoopCheckClosed)
  | LoopCheckClosed, Go => Some (goto w (if closed s then LoopClosing else LoopTop))
  | LoopAccepted nc, Go => Some (goto (set_srv w (add_accepted s)) (LoopCounted nc))
  | LoopCounted nc, Go => Some (goto (set_srv w (add_active s 1)) (LoopSpawn nc))
  | LoopSpawn nc, Go => Some (goto (add_h w (MkH (HNew nc) None)) LoopTop)
  | LoopClosing, Go =>
      if closeDone s then Some (panic w)
      else Some (goto (set_srv w (close_closeDone s)) (LoopReturned ErrServerClosed))
  | _, _ => None
  end.

(** ** handleConn *)

(** [NewConn] runs before anyone else knows the connection. *)
Definition handler_step w (i : nat) h (ch : handler_choice) : option (world N) :=
  let s := srv w in
  let goto w pc := set_h w i (MkH pc (shared h)) in
  match hpc h, ch with
  | HNew nc, Make choices =>
      Some (match NewConn choices (pools w) nc (config s) with
            | None => panic w
            | Some (c, P) =>
                set_shared w i HRegister (ConnShared.set_users (ConnShared.start c P) [ConnShared.Idle])
            end)
  | HRegister, Proceed => Some (goto (set_srv w (set_conns s ({[ i ]} ∪ conns s))) HCall)
  | HCall, Proceed => Some (if handler s then goto w HRun else panic w)
  | HRun, HandlerDone => if returned h 0 then Some (goto w HUnregister) else None
  | HUnregister, Proceed => Some (goto (set_srv w (set_conns s (conns s ∖ {[ i ]}))) HClose)
  | HClose, Proceed =>
      conn_steps w i h HClosing [ConnShared.Call (ConnShared.User 0) ConnShared.CallClose]
  | HClosing, Proceed => if returned h 0 then Some (goto w HRelease) else None
  | HRelease, Proceed => s' ← release s; Some (goto (set_srv w s') HDecrement)
  | HDecrement, Proceed => Some (goto (set_srv w (add_active s (2 ^ 32 - 1))) HCount)
  | HCount, Proceed => Some (goto (set_srv w (add_closed s)) HDone)
  | _, _ => None
  end.

(** ** The connections *)

(** The handler's goroutine calls operations while it runs the handler; other goroutines
    that use the connection come after it, and the one of a [Server.Close] calls nothing
    else. *)
Definition in_handler h : bool := match hpc h with HRun => true | _ => false end.
Definition handed_over h : bool := match hpc h with HNew _ | HRegister | HCall => false | _ => true end.
Definition closes_as (i n : nat) (k : closer) : bool :=
  match kpc k with KConn c m _ => (c =? i)%nat && (m =? n)%nat | _ => false end.

Definition may_step w (i : nat) h (l : ConnShared.label) : bool :=
  match l with
  | ConnShared.Spawn => handed_over h
  | ConnShared.Call (ConnShared.User O) _ => in_handler h
  | ConnShared.Call (ConnShared.User n) _ => negb (existsb (closes_as i n) (closers w))
  | _ => true
  end.

Definition conn_step w (i : nat) h (l : ConnShared.label) : option (world N) :=
  if may_step w i h l then conn_steps w i h (hpc h) [l] else None.

Definition reads_line w (i : nat) h (r : option (Conn N Ring)) : option (world N) :=
  if in_handler h && returned h 0 then
    cw ← shared h;
    match r with
    | None => Some (set_shared w i (hpc h) (ConnShared.panic (ConnShared.set_pools cw (pools w))))
    | Some c =>
        if Bool.eqb (TelnetConn.closed c) (TelnetConn.closed (ConnShared.conn cw))
        then Some (set_h w i (MkH (hpc h) (Some (ConnShared.set_conn cw c)))) else None
    end
  else None.

(** ** Close and Shutdown *)

(** The iteration order of the map is the environment's choice. *)
Definition closer_step w (i : nat) (k : closer) (ch : closer_choice) : option (world N) :=
  let s := srv w in
  let goto w pc := set_closer w i (MkK pc (shutdown k) (ctx_done k) (snapshot k)) in
  match kpc k, ch with
  | KStart, Continue =>
      Some (if closed s then goto w (KReturned (Some AlreadyClosed))
            else goto (set_srv w (set_closed s)) KClosing)
  | KClosing, Continue =>
      if closing s then Some (panic w) else Some (goto (set_srv w (close_closing s)) KListener)
  | KListener, Continue =>
      Some (goto (if listener s is Some l then close_ln w l else w) KSnapshot)
  | KSnapshot, Order todo =>
      if bool_decide (todo ≡ₚ elements (conns s)) then
        Some (set_closer w i (MkK (KConns todo) (shutdown k) (ctx_done k) (conns s)))
      else None
  | KConns (c :: todo), Continue =>
      h ← hs w !! c;
      cw ← shared h;
      let n := length (ConnShared.users cw) in
      w' ← conn_steps w c h (hpc h)
             [ConnShared.Spawn; ConnShared.Call (ConnShared.User n) ConnShared.CallClose];
      Some (goto w' (KConn c n todo))
  | KConn c n todo, Continue =>
      h ← hs w !! c; if returned h n then Some (goto w (KConns todo)) else None
  | KConns [], Continue => Some (goto w KWaitDone)
  | KWaitDone, Continue => if closeDone s then Some (goto w (KReturned None)) else None
  | KWaitDone, PickCtx =>
      if shutdown k && ctx_done k then Some (goto w (KReturned (Some CtxError))) else None
  | _, _ => None
  end.

(** ** The system *)

Definition wstep w (l : label N) : option (world N) :=
  if panicked w then None else
  match l with
  | StartServe l => Some (add_loop w (MkLoop ServeStore l))
  | StartListenAndServe => Some (add_loop w (MkLoop ListenStart 0))
  | StartClose => Some (add_closer w (MkK KStart false false ∅))
  | StartShutdown => Some (add_closer w (MkK KStart true false ∅))
  | LoopStep i ch => l ← loops w !! i; loop_step w i l ch
  | HandlerStep i ch => h ← hs w !! i; handler_step w i h ch
  | CloserStep i ch => k ← closers w !! i; closer_step w i k ch
  | ConnStep i l => h ← hs w !! i; conn_step w i h l
  | ReadsLine i r => h ← hs w !! i; reads_line w i h r
  | CtxDone i =>
      k ← closers w !! i; Some (set_closer w i (MkK (kpc k) (shutdown k) true (snapshot k)))
  end.

Definition step w w' : Prop := exists l, wstep w l = Some w'.

Fixpoint wrun w (ls : list (label N)) : option (world N) :=
  match ls with [] => Some w | l :: ls' => w' ← wstep w l; wrun w' ls' end.

(** A program starts with a new server and no calls. *)
Definition start s (P : Pools) : world N := World s P ∅ 0 [] [] [] false.

Definition fresh s : Prop :=
  listener s = None /\ closed s = false /\ closing s = false /\ closeDone s = false /\
  conns s = ∅ /\ connsAccepted s = 0 /\ connsClosed s = 0 /\ connsActive s = 0 /\
  acceptLimit s = 0%nat.

Definition reachable w : Prop :=
  exists s P ls, fresh s /\ pools_wf P /\ wrun (start s P) ls = Some w.

(** ** Counting goroutines *)

Fixpoint count {A} (P : A -> bool) (l : list A) : nat :=
  match l with [] => 0 | x :: l' => (if P x then 1 else 0) + count P l' end.

(** Holding a value of [acceptLimit]. *)
Definition loop_holds (l : loop N) : bool :=
  match lpc l with
  | LoopAccept | LoopFailed | LoopAccepted _ | LoopCounted _ | LoopSpawn _ => true
  | _ => false
  end.
Definition handler_holds h : bool :=
  match hpc h with HDecrement | HCount | HDone => false | _ => true end.

(** Counted in [connsActive], in [connsAccepted] and in [connsClosed]. *)
Definition loop_active (l : loop N) : bool := match lpc l with LoopSpawn _ => true | _ => false end.
Definition handler_active h : bool :=
  match hpc h with HCount | HDone => false | _ => true end.
Definition loop_accepted (l : loop N) : bool :=
  match lpc l with LoopCounted _ | LoopSpawn _ => true | _ => false end.
Definition handler_done h : bool := match hpc h with HDone => true | _ => false end.

(** Running user code, and registered. *)
Definition handler_runs h : bool := match hpc h with HCall | HRun => true | _ => false end.
Definition registered h : bool :=
  match hpc h with HCall | HRun | HUnregister => true | _ => false end.

Definition loop_finished (l : loop N) : bool :=
  match lpc l with LoopReturned ErrServerClosed => true | _ => false end.
End System.
