(* ===== verification/ServerProps.v ===== *)
(** * ServerProps: what holds of every reachable state of the server.

    The invariants relate the counters, the semaphore and the registry to the program
    counters of the goroutines, the two channels of the shutdown to the calls of [Close]
    and [Shutdown], and these calls to the connections they close, whose own invariants
    are those of [ConnSharedProps]. *)
From S2P Require Import Prelude GoSlice Pool RingBuf TelnetParser NetConn TelnetConn ConnWriter ConnProps.
From S2P Require ConnShared ConnSharedProps.
From S2P Require Import Server.
#[local] Open Scope Z_scope.

(** ** Counting *)

Section Count.
  Context {A : Type} (P : A -> bool).

Lemma count_app l k : count P (l ++ k) = (count P l + count P k)%nat.
Proof using Type. induction l as [|x l IH]; simpl; [done|]. rewrite IH. lia. Qed.

Lemma count_insert l i x y :
  l !! i = Some x ->
  (count P (<[i:=y]> l) + (if P x then 1 else 0) = count P l + (if P y then 1 else 0))%nat.
Proof using Type.
  revert i. induction l as [|z l IH]; intros [|i] E; simplify_eq/=; [lia|].
  specialize (IH i E). lia.
Qed.

Lemma count_le l : (count P l <= length l)%nat.
Proof using Type. induction l as [|x l IH]; simpl; [done|]. destruct (P x); lia. Qed.

Lemma count_zero l : count P l = 0%nat <-> forall i x, l !! i = Some x -> P x = false.
Proof using Type.
  induction l as [|z l IH]; simpl; [done|]. split.
  - intros H [|i] x E; simplify_eq/=; [destruct (P x); done|]. apply (proj1 IH ltac:(lia) i x E).
  - intros H. rewrite (H 0%nat z eq_refl). apply IH. intros i x E. by apply (H (S i)).
Qed.

Lemma count_pos l i x : l !! i = Some x -> P x = true -> (1 <= count P l)%nat.
Proof using Type.
  intros E H. destruct (count P l) eqn:Ec; [|lia]. apply count_zero with (i := i) (x := x) in Ec; congruence.
Qed.

Lemma count_some l : count P l = 1%nat -> exists i x, l !! i = Some x /\ P x = true.
Proof using Type.
  induction l as [|z l IH]; simpl; [done|]. destruct (P z) eqn:E; [by exists 0%nat, z|].
  intros H. destruct (IH H) as (i & x & ? & ?). by exists (S i), x.
Qed.

Lemma count_mono (Q : A -> bool) l :
  (forall x, P x = true -> Q x = true) -> (count P l <= count Q l)%nat.
Proof using Type.
  intros H. induction l as [|x l IH]; simpl; [done|].
  specialize (H x). destruct (P x); [rewrite H by done|destruct (Q x)]; lia.
Qed.
End Count.

(** Updating another element, or keeping the property of this one. *)
Lemma insert_keeps {A} (P : A -> Prop) (l : list A) i j y y' :
  (exists x, l !! i = Some x /\ P x) -> l !! j = Some y -> (j = i -> P y') ->
  exists x, <[j:=y']> l !! i = Some x /\ P x.
Proof.
  intros (x & E & Hx) Ey Hy. destruct (decide (j = i)) as [->|Hne].
  - rewrite list_lookup_insert_eq by (by eapply lookup_lt_Some). exists y'. by split; [|apply Hy].
  - rewrite list_lookup_insert_ne by done. eauto.
Qed.

(** Replace the count of an updated list by what the update changes. *)
Ltac count_step :=
  match goal with
  | E : ?l !! ?i = Some ?x |- context [count ?P (<[?i:=?y]> ?l)] =>
      let H := fresh "Hn" in
      pose proof (count_insert P l i x y E) as H;
      let px := eval hnf in (P x) in change (P x) with px in H;
      let py := eval hnf in (P y) in change (P y) with py in H;
      generalize dependent (count P (<[i:=y]> l)); intros
  | |- context [count ?P (?l ++ ?k)] => rewrite (count_app P l k)
  end.

Lemma u64_add_l a b : u64 (u64 a + b) = u64 (a + b).
Proof. apply Zplus_mod_idemp_l. Qed.

Lemma u32_pred n : u32 (u32 (Z.of_nat (S n)) + (2 ^ 32 - 1)) = u32 (Z.of_nat n).
Proof.
  rewrite u32_add_l. replace (Z.of_nat (S n) + (2 ^ 32 - 1)) with (Z.of_nat n + 1 * 2 ^ 32) by lia.
  unfold u32. by rewrite Z_mod_plus_full.
Qed.

Section Invariants.
  Context {N : Type} {NC : NetConn N} {GP : GrowPolicy}.
  Implicit Types (s : Server Config) (w : world N) (h : hconn N) (cw : ConnShared.world N).

(** ** What a step does *)

Lemma acquire_Some s s' :
  acquire s = Some s' -> s' = set_acceptLimit s (S (acceptLimit s)) /\
  exists c, acceptCap s = Some c /\ (acceptLimit s < c)%nat.
Proof using Type.
  unfold acquire. destruct (acceptCap s) as [c|]; [|done]. case_bool_decide; [|done].
  intros [= <-]. eauto.
Qed.

Lemma release_Some s s' :
  release s = Some s' -> exists n, acceptLimit s = S n /\ s' = set_acceptLimit s n.
Proof using Type. unfold release. destruct (acceptLimit s); [done|]. intros [= <-]. eauto. Qed.

(** The possible moves, one constructor per transition that matters to the counters. *)
Definition step_ind_goal (Inv : world N -> Prop) : Prop :=
  forall w l w', Inv w -> wstep w l = Some w' -> Inv w'.

Lemma reachable_ind (Inv : world N -> Prop) :
  (forall s P, fresh s -> pools_wf P -> Inv (start s P)) -> step_ind_goal Inv ->
  forall w, reachable w -> Inv w.
Proof using Type.
  intros Hi Hs w (s & P & ls & Hf & HP & Hr). specialize (Hi s P Hf HP). clear Hf HP.
  revert Hr Hi. generalize (start (N := N) s P). induction ls as [|l ls IH]; intros w0; cbn [wrun].
  { intros [= <-]. done. }
  destruct (wstep w0 l) as [w1|] eqn:E; [|done]. cbn [mbind option_bind].
  intros Hr Hi. by apply (IH w1 Hr), (Hs w0 l).
Qed.

(** ** Counters *)

Record counters_ok w : Prop := {
  co_tokens : acceptLimit (srv w) = (count loop_holds (loops w) + count handler_holds (hs w))%nat;
  co_cap : if acceptCap (srv w) is Some c then (acceptLimit (srv w) <= c)%nat
           else acceptLimit (srv w) = 0%nat;
  co_active : connsActive (srv w) =
    u32 (Z.of_nat (count loop_active (loops w) + count handler_active (hs w)));
  co_accepted : connsAccepted (srv w) =
    u64 (Z.of_nat (count loop_accepted (loops w) + length (hs w)));
  co_closed : connsClosed (srv w) = u64 (Z.of_nat (count handler_done (hs w)))
}.

(** The connection exists once [NewConn] has run. *)
Definition handler_ok h : Prop := shared h = None <-> exists nc, hpc h = HNew nc.

Definition handlers_ok w : Prop := Forall handler_ok (hs w).

Lemma conn_steps_Some w i h pc ls w' :
  conn_steps w i h pc ls = Some w' -> exists cw cw', shared h = Some cw /\
    ConnShared.wrun (ConnShared.set_pools cw (pools w)) ls = Some cw' /\ w' = set_shared w i pc cw'.
Proof using Type.
  unfold conn_steps. destruct (shared h) as [cw|]; [|done]. cbn [mbind option_bind].
  destruct (ConnShared.wrun _ ls) as [cw'|] eqn:E; [|done]. intros [= <-]. eauto.
Qed.

Arguments conn_steps : simpl never.

(** Everything a step can do: the goroutine that moves is looked up, its program
    counter and choice decide the transition. *)
Ltac invert_step H :=
  unfold wstep in H; destruct (panicked _) eqn:Hpanic; [discriminate H|];
  match type of H with context [match ?l with StartServe _ => _ | _ => _ end] =>
    destruct l as [?| | | |i ch|i ch|i ch|i sl|i rr|i] end; cbn [mbind option_bind] in H;
  try match type of H with context [?l !! ?j] =>
    destruct (l !! j) eqn:Ei; [|discriminate H]; cbn [mbind option_bind] in H end;
  unfold loop_step, handler_step, closer_step, conn_step, reads_line in H;
  try match type of H with
    | context [lpc ?x] => destruct (lpc x) eqn:Epc
    | context [match hpc ?x with _ => _ end] => destruct (hpc x) eqn:Epc
    | context [kpc ?x] => destruct (kpc x) as [| | | |[|? ?]|? ? ?| |?] eqn:Epc
    end;
  try match type of H with
    | context [match ?c with Go => _ | _ => _ end] => destruct c; try discriminate H
    | context [match ?c with Proceed => _ | _ => _ end] => destruct c; try discriminate H
    | context [match ?c with Continue => _ | _ => _ end] => destruct c; try discriminate H
    end;
  simplify_option_eq; repeat (case_match; simplify_option_eq); try done;
  repeat match goal with
  | E : conn_steps _ _ _ _ _ = Some _ |- _ =>
      apply conn_steps_Some in E as (? & ? & ? & Hsteps & ->)
  end.

Lemma handlers_ok_step : step_ind_goal handlers_ok.
Proof using Type.
  intros w l w' Hw H. unfold handlers_ok in *. invert_step H; simpl; try done.
  all: try (apply Forall_app; split; [done|]; apply Forall_singleton; split; by eauto).
  all: apply Forall_insert; [done|].
  all: match goal with E : hs _ !! _ = Some _ |- _ =>
         destruct (Forall_lookup_1 _ _ _ _ Hw E) as [Hn1 Hn2] end.
  all: split; simpl; [intros E'; try discriminate E'; destruct (Hn1 E'); congruence|].
  all: intros [nc0 E0]; try discriminate E0; specialize (Hn2 (ex_intro _ nc0 E0)); congruence.
Qed.

(** The counts after an update, computed where the program counter is known. *)
Ltac count_tac :=
  repeat count_step;
  repeat match goal with
  | E : lpc ?x = _, H : context [lpc ?x] |- _ => rewrite E in H
  | E : hpc ?x = _, H : context [hpc ?x] |- _ => rewrite E in H
  | E : kpc ?x = _, H : context [kpc ?x] |- _ => rewrite E in H
  end;
  rewrite ?length_insert, ?length_app; simpl in *.

(** What an [acquire] and a [release] did. *)
Ltac step_facts :=
  repeat match goal with
  | E : acquire _ = Some _ |- _ => apply acquire_Some in E as (-> & ? & Hc & Hlt)
  | E : release _ = Some _ |- _ => apply release_Some in E as (? & En & ->)
  end.

Lemma counters_step w l w' : counters_ok w -> wstep w l = Some w' -> counters_ok w'.
Proof using Type.
  intros Hw H. invert_step H; destruct Hw as [Ht Hcap Hact Hacc Hcl]; step_facts.
  all: split; simpl; try done.
  all: count_tac; try lia.
  all: try (first [rewrite Hact|rewrite Hacc|rewrite Hcl];
    rewrite ?u32_add_l, ?u64_add_l; f_equal; lia).
  - rewrite Hc. lia.
  - destruct (acceptCap (srv w)); lia.
  - destruct (acceptCap (srv w)); lia.
  - rewrite Hact. etrans; [|apply u32_pred]. do 4 f_equal. lia.
Qed.

(** ** The registry *)

(** [s.conns] holds the connections between their two critical sections. *)
Definition registry_ok w : Prop :=
  forall i, i ∈ conns (srv w) <-> exists h, hs w !! i = Some h /\ registered h = true.

Lemma registry_update w i h h' (m : gset nat) :
  registry_ok w -> hs w !! i = Some h -> (i ∈ m <-> registered h' = true) ->
  (forall j, j <> i -> j ∈ m <-> j ∈ conns (srv w)) ->
  forall j, j ∈ m <-> exists x, <[i:=h']> (hs w) !! j = Some x /\ registered x = true.
Proof using Type.
  intros Hw E Hi Hm j. pose proof (lookup_lt_Some _ _ _ E).
  destruct (decide (j = i)) as [->|Hne].
  - rewrite list_lookup_insert_eq, Hi by done. split; [by eauto|]. by intros (x & [= <-] & ?).
  - by rewrite list_lookup_insert_ne, Hm, (Hw j).
Qed.

Lemma registry_insert w i h h' :
  registry_ok w -> hs w !! i = Some h -> registered h' = registered h ->
  forall j, j ∈ conns (srv w) <-> exists x, <[i:=h']> (hs w) !! j = Some x /\ registered x = true.
Proof using Type.
  intros Hw E Hr. apply (registry_update w i h h'); try done. rewrite Hr, (Hw i), E.
  split; [by intros (x & [= <-] & ?)|by eauto].
Qed.

Lemma registry_app w h :
  registry_ok w -> registered h = false ->
  forall j, j ∈ conns (srv w) <-> exists x, (hs w ++ [h]) !! j = Some x /\ registered x = true.
Proof using Type.
  intros Hw Hr j. rewrite (Hw j). split; intros (x & E & ?).
  - exists x. split; [by apply lookup_app_l_Some|done].
  - apply lookup_app_Some in E as [?|[_ E]]; [by eauto|].
    apply list_lookup_singleton_Some in E as [_ <-]. congruence.
Qed.

Lemma registry_step w l w' : registry_ok w -> wstep w l = Some w' -> registry_ok w'.
Proof using Type.
  intros Hw H. invert_step H; step_facts; try exact Hw.
  all: try (intros ?; simpl; eapply registry_insert; [done..|]; unfold registered; simpl; by rewrite ?Epc).
  - intros j. by apply (registry_app w).
  - intros j. apply (registry_update w i h); try done; simpl.
    + split; [done|]. intros _. by apply elem_of_union_l, elem_of_singleton.
    + intros k Hk. rewrite elem_of_union, elem_of_singleton. tauto.
  - intros j. apply (registry_update w i h); try done; simpl.
    + split; [|done]. intros [_ Hi]%elem_of_difference. by destruct Hi; apply elem_of_singleton.
    + intros k Hk. rewrite elem_of_difference, elem_of_singleton. tauto.
Qed.

(** The handlers that run user code are those that hold a value of [acceptLimit] at
    that point. *)
Lemma runs_holds h : handler_runs h = true -> handler_holds h = true.
Proof using Type. unfold handler_runs, handler_holds. by destruct (hpc h). Qed.

Lemma reachable_counters w :
  reachable w -> counters_ok w /\ handlers_ok w /\ registry_ok w.
Proof using Type.
  apply (reachable_ind (fun w => counters_ok w /\ handlers_ok w /\ registry_ok w)).
  - intros s P (Hl & Hc & Hcg & Hcd & Hm & Ha & Hcl & Hac & Ht) _. split_and!.
    + split; simpl; rewrite ?Ht, ?Ha, ?Hcl, ?Hac; try done. destruct (acceptCap s); lia.
    + constructor.
    + intros i. simpl. rewrite Hm. split; [set_solver|]. intros (h & ? & _). done.
  - intros w0 l w1 (Hc & Hh & Hr) E. split_and!.
    + by apply (counters_step w0 l).
    + by apply (handlers_ok_step w0 l).
    + by apply (registry_step w0 l).
Qed.

(** ** The shutdown *)

(** The call that closes the server: it has won the compare-and-swap. *)
Definition won (k : closer) : bool :=
  match kpc k with KStart | KReturned (Some AlreadyClosed) => false | _ => true end.
Definition past_closing (k : closer) : bool :=
  match kpc k with KStart | KClosing | KReturned (Some AlreadyClosed) => false | _ => true end.
Definition loop_closing (l : loop N) : bool :=
  match lpc l with LoopClosing | LoopReturned ErrServerClosed => true | _ => false end.

Record shutdown_ok w : Prop := {
  sh_won : count won (closers w) = if closed (srv w) then 1%nat else 0%nat;
  sh_closing : count past_closing (closers w) = if closing (srv w) then 1%nat else 0%nat;
  sh_done : count loop_finished (loops w) = if closeDone (srv w) then 1%nat else 0%nat;
  sh_loop : closed (srv w) = false -> count loop_closing (loops w) = 0%nat;
  sh_returned : forall i k, closers w !! i = Some k -> kpc k = KReturned None -> closeDone (srv w) = true
}.

Lemma closing_closed w : shutdown_ok w -> closing (srv w) = true -> closed (srv w) = true.
Proof using Type.
  intros [Hw Hc _ _ _] E. rewrite E in Hc.
  assert (count past_closing (closers w) <= count won (closers w))%nat.
  { apply count_mono. intros k. unfold past_closing, won. by destruct (kpc k). }
  destruct (closed (srv w)); [done|lia].
Qed.

(** A second goroutine that closes [closeDone] means a second accept loop. *)
Lemma two_loops w i l :
  shutdown_ok w -> loops w !! i = Some l -> lpc l = LoopClosing -> closeDone (srv w) = true ->
  (2 <= length (loops w))%nat.
Proof using Type.
  intros [_ _ Hd _ _] E Epc Ed. rewrite Ed in Hd.
  assert (H : (1 <= count loop_finished (<[i := MkLoop (LoopReturned ErrServerClosed) 0]> (loops w)))%nat).
  { apply (count_pos _ _ i (MkLoop (LoopReturned ErrServerClosed) 0)); [|done].
    apply list_lookup_insert_eq. by apply lookup_lt_Some in E. }
  pose proof (count_insert loop_finished (loops w) i l (MkLoop (LoopReturned ErrServerClosed) 0) E) as Hn.
  assert (loop_finished l = false) as Hl by (unfold loop_finished; by rewrite Epc).
  rewrite Hl in Hn. simpl in Hn.
  pose proof (count_le loop_finished (<[i := MkLoop (LoopReturned ErrServerClosed) 0]> (loops w))) as Hlen.
  rewrite length_insert in Hlen. lia.
Qed.

(** Nobody but the winner closes [closing]. *)
Lemma closing_once w i k :
  shutdown_ok w -> closers w !! i = Some k -> kpc k = KClosing -> closing (srv w) = false.
Proof using Type.
  intros [Hw Hc _ _ _] E Epc.
  set (k0 := MkK KStart false false ∅).
  pose proof (count_insert won (closers w) i k k0 E) as H1.
  pose proof (count_insert past_closing (closers w) i k k0 E) as H2.
  assert (won k = true /\ past_closing k = false) as [Ek1 Ek2]
    by (unfold won, past_closing; by rewrite Epc).
  rewrite Ek1 in H1. rewrite Ek2 in H2. simpl in H1, H2.
  assert (count past_closing (<[i:=k0]> (closers w)) <= count won (<[i:=k0]> (closers w)))%nat.
  { apply count_mono. intros k'. unfold past_closing, won. by destruct (kpc k'). }
  destruct (closed (srv w)), (closing (srv w)); done || lia.
Qed.

(** A closer that moved is the only one that may have returned by the move. *)
Lemma returned_insert w i (k' : closer) (b : bool) :
  (forall j k, closers w !! j = Some k -> kpc k = KReturned None -> b = true) ->
  (kpc k' = KReturned None -> b = true) ->
  forall j k, <[i:=k']> (closers w) !! j = Some k -> kpc k = KReturned None -> b = true.
Proof using Type.
  intros H H' j k [(-> & <- & _)|(_ & E)]%list_lookup_insert_Some; [done|by apply (H j k)].
Qed.

Lemma returned_app w (k' : closer) (b : bool) :
  (forall j k, closers w !! j = Some k -> kpc k = KReturned None -> b = true) ->
  kpc k' = KStart ->
  forall j k, (closers w ++ [k']) !! j = Some k -> kpc k = KReturned None -> b = true.
Proof using Type.
  intros H H' j k [E|[_ E]]%lookup_app_Some; [by apply (H j k)|].
  apply list_lookup_singleton_Some in E as [_ <-]. congruence.
Qed.

Lemma shutdown_step w l w' : shutdown_ok w -> wstep w l = Some w' -> shutdown_ok w'.
Proof using Type.
  intros Hw H. invert_step H; step_facts; try exact Hw.
  all: pose proof (closing_closed w Hw) as Hcc; pose proof Hw as [Hwon Hclosing Hdone Hloop Hret].
  all: split; simpl; try done; try congruence.
  all: repeat match goal with
    | E : ?f (srv ?w) = _, H' : _ = (if ?f (srv ?w) then _ else _) |- _ => rewrite E in H'
    end.
  all: count_tac; try lia.
  all: try (by apply returned_app).
  all: try (apply returned_insert; [done|]; simpl; intros; simplify_eq; by (done || eapply Hret)).
  all: try (intros Hf; specialize (Hloop Hf); lia).
  all: try (match goal with Hf : closed _ = false |- _ =>
    first [specialize (Hloop Hf); lia|rewrite Hcc in Hf by done; discriminate|congruence] end).
  destruct (closed (srv w)); done || lia.
Qed.

(** ** The connections *)

Lemma set_pools_locks cw P : ConnSharedProps.locks_ok cw -> ConnSharedProps.locks_ok (ConnShared.set_pools cw P).
Proof using Type. intros Hl. eapply ConnSharedProps.locks_ok_same; [exact Hl|done|done|]. by intros []. Qed.

(** What steps of a connection keep. *)
Lemma run_keeps (Inv : ConnShared.world N -> Prop) (ok : ConnShared.label -> Prop) ls : forall cw cw',
  (forall c l c', ConnSharedProps.locks_ok c -> ok l -> ConnShared.wstep c l = Some c' -> Inv c -> Inv c') ->
  ConnSharedProps.locks_ok cw -> Forall ok ls -> ConnShared.wrun cw ls = Some cw' ->
  ConnSharedProps.locks_ok cw' /\ (Inv cw -> Inv cw').
Proof using Type.
  induction ls as [|l ls IH]; intros cw cw' Hs Hl Hok; cbn [ConnShared.wrun]; [by intros [= <-]|].
  apply Forall_cons_1 in Hok as [Ho Hok].
  destruct (ConnShared.wstep cw l) as [c1|] eqn:E; [|done]. cbn [mbind option_bind]. intros Er.
  destruct (IH c1 cw' Hs (ConnSharedProps.wstep_locks _ _ _ E Hl) Hok Er) as [Hl' Hi]. split; [done|].
  intros Hc. by apply Hi, (Hs cw l).
Qed.

(** What happens to the connection of the handler [i] in a step of the server: nothing,
    [NewConn], steps of its goroutines, or something done by [ReadLine]. *)
Inductive evolves (l : label N) (i : nat) h h' : Prop :=
  | ev_same : shared h' = shared h -> evolves l i h h'
  | ev_made c P : shared h = None ->
      shared h' = Some (ConnShared.set_users (ConnShared.start c P) [ConnShared.Idle]) -> evolves l i h h'
  | ev_steps cw P ls cw' : shared h = Some cw -> shared h' = Some cw' ->
      ConnShared.wrun (ConnShared.set_pools cw P) ls = Some cw' ->
      Forall (fun x => (forall t, x <> ConnShared.NetReturns t) \/ l = ConnStep i x) ls -> evolves l i h h'
  | ev_reads cw cw' : shared h = Some cw -> shared h' = Some cw' ->
      (forall t, ConnShared.get_pc cw' t = ConnShared.get_pc cw t) ->
      ConnShared.readMu cw' = ConnShared.readMu cw -> ConnShared.writeMu cw' = ConnShared.writeMu cw ->
      TelnetConn.closed (ConnShared.conn cw') = TelnetConn.closed (ConnShared.conn cw) -> evolves l i h h'.

Lemma insert_evolves w l i h' :
  (forall h, hs w !! i = Some h -> evolves l i h h') ->
  forall j h, hs w !! j = Some h -> exists h2, <[i:=h']> (hs w) !! j = Some h2 /\ evolves l j h h2.
Proof using Type.
  intros He j h E. destruct (decide (i = j)) as [->|Hne].
  - rewrite list_lookup_insert_eq by (by eapply lookup_lt_Some). eauto.
  - rewrite list_lookup_insert_ne by done. exists h. split; [done|]. by apply ev_same.
Qed.

Lemma wstep_evolves w l w' :
  handlers_ok w -> wstep w l = Some w' ->
  forall j h, hs w !! j = Some h -> exists h', hs w' !! j = Some h' /\ evolves l j h h'.
Proof using Type.
  intros Hh H. invert_step H; step_facts; simpl.
  all: try (intros j h1 E1; exists h1; split; [done|by apply ev_same]).
  all: try (intros j h1 E1; exists h1; split; [by apply lookup_app_l_Some|by apply ev_same]).
  all: apply insert_evolves; intros h1 E1; simplify_eq.
  all: try (by apply ev_same).
  - apply (ev_made _ _ _ _ c p0); [|done]. apply (Forall_lookup_1 _ _ _ _ Hh Ei). eauto.
  - eapply ev_steps; [done|done|exact Hsteps|]. by repeat constructor.
  - eapply ev_steps; [done|done|exact Hsteps|]. by repeat constructor.
  - eapply ev_steps; [done|done|exact Hsteps|]. constructor; [by right|done].
  - eapply ev_reads; [done..|by intros []|done|done|]. by apply eqb_prop.
  - eapply ev_reads; [done|done|by intros []|done|done|done].
Qed.


Definition conn_locks h : Prop := forall cw, shared h = Some cw -> ConnSharedProps.locks_ok cw.
Definition conns_ok w : Prop := Forall conn_locks (hs w).

Lemma made_locks (c : Conn N Ring) P :
  ConnSharedProps.locks_ok (ConnShared.set_users (ConnShared.start c P) [ConnShared.Idle]).
Proof using Type.
  eapply ConnSharedProps.locks_ok_same; [apply (ConnSharedProps.start_locks c P)|done|done|].
  intros [|i] q Hq; [done|]. simpl. split; [|done].
  intros E. apply list_lookup_singleton_Some in E as [_ <-]. done.
Qed.

Lemma same_locks cw cw' :
  ConnSharedProps.locks_ok cw -> (forall t, ConnShared.get_pc cw' t = ConnShared.get_pc cw t) ->
  ConnShared.readMu cw' = ConnShared.readMu cw -> ConnShared.writeMu cw' = ConnShared.writeMu cw ->
  ConnSharedProps.locks_ok cw'.
Proof using Type.
  intros Hl Hp Hr Hw. eapply ConnSharedProps.locks_ok_same; [exact Hl|done|done|]. intros t p _. by rewrite Hp.
Qed.

(** A property of a connection's world that its steps keep is kept by the server. *)
Lemma evolves_keeps (Inv : ConnShared.world N -> Prop) (ok : ConnShared.label -> Prop) l i h h' cw :
  (forall c l c', ConnSharedProps.locks_ok c -> ok l -> ConnShared.wstep c l = Some c' -> Inv c -> Inv c') ->
  (forall c c', Inv c -> (forall t, ConnShared.get_pc c' t = ConnShared.get_pc c t) ->
     TelnetConn.closed (ConnShared.conn c') = TelnetConn.closed (ConnShared.conn c) -> Inv c') ->
  (forall x, (forall t, x <> ConnShared.NetReturns t) \/ l = ConnStep i x -> ok x) ->
  conn_locks h -> evolves l i h h' -> shared h = Some cw -> Inv cw ->
  exists cw', shared h' = Some cw' /\ Inv cw'.
Proof using Type.
  intros Hs Hsame Hok Hl He E Hi.
  destruct He as [Es|c P En|cw0 P ls cw' E1 E2 Er Hls|cw0 cw' E1 E2 Hp Hr Hw Hc];
    [exists cw; by rewrite Es|congruence| |]; (assert (cw0 = cw) as -> by congruence).
  - exists cw'. split; [done|].
    assert (Hall : Forall ok ls) by (eapply Forall_impl; [exact Hls|exact Hok]).
    destruct (run_keeps Inv ok ls _ cw' Hs (set_pools_locks _ P (Hl _ E1)) Hall Er) as [_ Hk].
    apply Hk. eapply Hsame; [exact Hi|by intros []|done].
  - exists cw'. split; [done|]. by apply (Hsame cw).
Qed.

Lemma evolves_locks l i h h' : conn_locks h -> evolves l i h h' -> conn_locks h'.
Proof using Type.
  intros Hl He cw E'.
  destruct He as [Es|c P En E|cw0 P ls cw' E1 E2 Er Hls|cw0 cw' E1 E2 Hp Hr Hw Hc]; simplify_eq.
  - apply Hl. by rewrite <- Es.
  - apply made_locks.
  - by destruct (run_keeps (fun _ => True) (fun _ => True) ls _ cw' ltac:(done)
      (set_pools_locks _ P (Hl _ E1)) ltac:(by apply Forall_true) Er).
  - by apply (same_locks cw0); [apply Hl|..].
Qed.

Lemma conns_ok_step w l w' : handlers_ok w -> conns_ok w -> wstep w l = Some w' -> conns_ok w'.
Proof using Type.
  intros Hh Hw E. apply Forall_lookup. intros j h' Eh'.
  destruct (decide (j < length (hs w))%nat) as [Hlt|Hge].
  - destruct (lookup_lt_is_Some_2 _ _ Hlt) as [h Eh].
    destruct (wstep_evolves w l w' Hh E j h Eh) as (h2 & E2 & He). simplify_eq.
    eapply evolves_locks; [|exact He]. by eapply Forall_lookup_1.
  - intros cw Ec. exfalso. revert Eh'. invert_step E; step_facts; simpl; intros Eh'.
    all: apply lookup_lt_Some in Eh' as Hlen; rewrite ?length_insert, ?length_app in Hlen; simpl in Hlen; try lia.
    rewrite lookup_app_r in Eh' by lia. apply list_lookup_singleton_Some in Eh' as [_ <-]. done.
Qed.

(** ** What the closer has closed *)

Definition on_conn w (c : nat) (Inv : ConnShared.world N -> Prop) : Prop :=
  exists h, hs w !! c = Some h /\ exists cw, shared h = Some cw /\ Inv cw.

(** The flag of the connection is set. *)
Definition is_closed w (c : nat) : Prop :=
  on_conn w c (fun cw => TelnetConn.closed (ConnShared.conn cw) = true).

(** Or its goroutine [n] is about to set it. *)
Definition closing_on w (c n : nat) : Prop :=
  on_conn w c (fun cw => ConnSharedProps.closes_or_closed cw (ConnShared.User n)).

Lemma on_conn_step w l w' c (Inv : ConnShared.world N -> Prop) (ok : ConnShared.label -> Prop) :
  (forall c l c', ConnSharedProps.locks_ok c -> ok l -> ConnShared.wstep c l = Some c' -> Inv c -> Inv c') ->
  (forall c c', Inv c -> (forall t, ConnShared.get_pc c' t = ConnShared.get_pc c t) ->
     TelnetConn.closed (ConnShared.conn c') = TelnetConn.closed (ConnShared.conn c) -> Inv c') ->
  (forall x, (forall t, x <> ConnShared.NetReturns t) \/ l = ConnStep c x -> ok x) ->
  handlers_ok w -> conns_ok w -> wstep w l = Some w' -> on_conn w c Inv -> on_conn w' c Inv.
Proof using Type.
  intros Hs Hsame Hok Hh Hw E (h & Eh & cw & Ec & Hi).
  destruct (wstep_evolves w l w' Hh E c h Eh) as (h' & E' & He). exists h'. split; [done|].
  eapply (evolves_keeps Inv ok); [done..| |exact He|done|done]. by eapply Forall_lookup_1.
Qed.

Lemma closed_mono w l w' c :
  handlers_ok w -> conns_ok w -> wstep w l = Some w' -> is_closed w c -> is_closed w' c.
Proof using Type.
  intros Hh Hw E. eapply (on_conn_step w l w' c _ (fun _ => True)); try done.
  - intros c0 l0 c1 _ _ Es. apply (ConnSharedProps.la_closed _ _ (ConnSharedProps.wstep_lasting c0 l0 c1 Es)).
  - intros c0 c1 Hi _ Hc. congruence.
Qed.

Lemma closing_mono w l w' c n :
  handlers_ok w -> conns_ok w -> wstep w l = Some w' -> closing_on w c n -> closing_on w' c n.
Proof using Type.
  intros Hh Hw E. eapply (on_conn_step w l w' c _ (fun _ => True)); try done.
  - intros c0 l0 c1 Hl _ Es. by apply (ConnSharedProps.wstep_closes c0 (ConnShared.User n) l0 c1 Hl Es).
  - intros c0 c1 [Hi|Hi] Hp Hc; [left; congruence|right; by rewrite Hp].
Qed.

(** Of its snapshot, a closer has closed all but what it still has to do. *)
Definition closer_ok w (k : closer) : Prop :=
  match kpc k with
  | KConns todo => forall c, c ∈ snapshot k -> c ∈ todo \/ is_closed w c
  | KConn c0 n todo =>
      (forall c, c ∈ snapshot k -> c ∈ c0 :: todo \/ is_closed w c) /\ closing_on w c0 n
  | KWaitDone | KReturned None | KReturned (Some CtxError) => forall c, c ∈ snapshot k -> is_closed w c
  | _ => True
  end.

Definition closers_ok w : Prop := Forall (closer_ok w) (closers w).

Lemma closer_ok_mono w l w' k :
  handlers_ok w -> conns_ok w -> wstep w l = Some w' -> closer_ok w k -> closer_ok w' k.
Proof using Type.
  intros Hh Hw H Hk. assert (Hm : forall c, is_closed w c -> is_closed w' c) by (intros c; by apply (closed_mono w l)).
  unfold closer_ok in *. destruct (kpc k) as [| | | |?|c0 n todo| |[[]|]]; try done.
  - intros j Hj. destruct (Hk j Hj); [by left|right; by apply Hm].
  - destruct Hk as [Hk Hc]. split; [|by apply (closing_mono w l)].
    intros j Hj. destruct (Hk j Hj); [by left|right; by apply Hm].
  - intros j Hj. by apply Hm, Hk.
  - intros j Hj. by apply Hm, Hk.
  - intros j Hj. by apply Hm, Hk.
Qed.

(** A closer that comes to a connection enters its [Close]. *)
Lemma enters_close cw P n cw' :
  n = length (ConnShared.users cw) ->
  ConnShared.wrun (ConnShared.set_pools cw P)
    [ConnShared.Spawn; ConnShared.Call (ConnShared.User n) ConnShared.CallClose] = Some cw' ->
  ConnShared.get_pc cw' (ConnShared.User n) = Some ConnShared.CloseEnter.
Proof using Type.
  intros -> E. cbn [ConnShared.wrun] in E. unfold ConnShared.wstep in E. cbn [ConnShared.panicked ConnShared.set_pools] in E.
  destruct (ConnShared.panicked cw) eqn:Ep; [done|]. cbn [mbind option_bind] in E.
  cbn [ConnShared.panicked ConnShared.set_pools ConnShared.set_users] in E. rewrite Ep in E. simpl in E.
  rewrite lookup_app_r, Nat.sub_diag in E by lia. simpl in E. simplify_eq/=.
  apply list_lookup_insert_eq. rewrite length_app. simpl. lia.
Qed.

Lemma returned_closed w c n h :
  hs w !! c = Some h -> returned h n = true -> closing_on w c n -> is_closed w c.
Proof using Type.
  intros Eh Hr (h' & E' & cw & Ec & Hc). simplify_eq. exists h. split; [done|]. exists cw. split; [done|].
  unfold returned in Hr. rewrite Ec in Hr. destruct Hc as [Hc|Hc]; [done|]. by rewrite Hc in Hr.
Qed.
Lemma closers_step w l w' :
  handlers_ok w -> conns_ok w -> closers_ok w -> wstep w l = Some w' -> closers_ok w'.
Proof using Type.
  intros Hh Hl Hw H.
  assert (Hw' : Forall (closer_ok w') (closers w)).
  { eapply Forall_impl; [exact Hw|]. intros k. by apply (closer_ok_mono w l). }
  assert (Hm : forall c, is_closed w c -> is_closed w' c) by (intros c; by apply (closed_mono w l)).
  unfold closers_ok. invert_step H; simpl; try exact Hw'.
  all: try (apply Forall_app; split; [exact Hw'|]; by repeat constructor).
  all: apply Forall_insert; [exact Hw'|].
  all: match goal with E : closers _ !! _ = Some ?k |- _ =>
         pose proof (Forall_lookup_1 _ _ _ _ Hw E) as Hk; unfold closer_ok in Hk |- *;
         rewrite Epc in Hk; simpl in Hk |- * end; try done.
  - intros j Hj. left. match goal with Hp : _ ≡ₚ _ |- _ => rewrite Hp end. by apply elem_of_elements.
  - intros j Hj. destruct (Hk j Hj) as [Hn|?]; [by apply elem_of_nil in Hn|by apply Hm].
  - split; [intros j Hj; destruct (Hk j Hj); [by left|right; by apply Hm]|].
    eexists. split; [apply list_lookup_insert_eq; by eapply lookup_lt_Some|]. eexists. split; [done|].
    right. simplify_eq. by eapply enters_close.
  - destruct Hk as [Hk Hc]. intros j Hj. destruct (Hk j Hj) as [[->|?]%elem_of_cons|?]; [right|by left|right; by apply Hm].
    by eapply Hm, returned_closed.
Qed.

Lemma reachable_shutdown w :
  reachable w -> shutdown_ok w /\ handlers_ok w /\ conns_ok w /\ closers_ok w.
Proof using Type.
  apply (reachable_ind (fun w => shutdown_ok w /\ handlers_ok w /\ conns_ok w /\ closers_ok w)).
  - intros s P (Hl & Hc & Hcg & Hcd & Hm & Ha & Hcl & Hac & Ht) _.
    split; [|by split_and!; constructor]. split; simpl; rewrite ?Hc, ?Hcg, ?Hcd; done.
  - intros w0 l w1 (Hs & Hh & Hc & Hk) E. split_and!.
    + by apply (shutdown_step w0 l).
    + by apply (handlers_ok_step w0 l).
    + by apply (conns_ok_step w0 l).
    + by apply (closers_step w0 l).
Qed.

(** ** The accept loop after [Close] *)

Definition past_listener (k : closer) : bool :=
  match kpc k with
  | KSnapshot | KConns _ | KConn _ _ _ | KWaitDone | KReturned None | KReturned (Some CtxError) => true
  | _ => false
  end.

Definition stored (pc : serve_pc N) : bool :=
  match pc with ListenStart | ListenNet | ServeStore | LoopReturned _ => false | _ => true end.
Definition may_accept (pc : serve_pc N) : bool :=
  match pc with LoopAcquire | LoopAccept => true | _ => false end.

(** With one accept loop, [Close] finds its listener, and closes it before the loop can
    wait for a connection again. *)
Definition listener_ok w : Prop :=
  forall l, loops w = [l] ->
    (stored (lpc l) = true -> listener (srv w) = Some (ln l)) /\
    ((0 < count past_listener (closers w))%nat -> may_accept (lpc l) = true -> ln l ∈ closed_lns w).

Lemma past_listener_closing w :
  shutdown_ok w -> (0 < count past_listener (closers w))%nat -> closing (srv w) = true.
Proof using Type.
  intros [_ Hc _ _ _] Hp.
  assert (count past_listener (closers w) <= count past_closing (closers w))%nat.
  { apply count_mono. intros k. unfold past_listener, past_closing. by destruct (kpc k) as [| | | | | | |[[]|]]. }
  destruct (closing (srv w)); [done|lia].
Qed.

Lemma insert_singleton {A} (l : list A) i x y z :
  l !! i = Some x -> <[i := y]> l = [z] -> l = [x] /\ z = y.
Proof using Type.
  intros E H. assert (Hl : length l = 1%nat) by by rewrite <- (length_insert l i y), H.
  destruct l as [|a [|b l]]; [done| |done]. by destruct i; simplify_eq/=.
Qed.

(** A move that is not the loop's may only add closed listeners and, once the listener
    is closed, closers. *)
Lemma listener_ok_other w w' :
  listener_ok w -> loops w' = loops w -> listener (srv w') = listener (srv w) ->
  closed_lns w ⊆ closed_lns w' ->
  ((0 < count past_listener (closers w'))%nat -> (0 < count past_listener (closers w))%nat) ->
  listener_ok w'.
Proof using Type.
  intros Hw El Es Hc Hp l E. rewrite El in E. destruct (Hw l E) as [H1 H2]. rewrite Es.
  split; [done|]. intros Hp' Hm. by apply Hc, H2; [apply Hp|].
Qed.

(** A move of the loop itself. *)
Lemma listener_ok_loop w w' i x y :
  listener_ok w -> shutdown_ok w -> loops w !! i = Some x -> loops w' = <[i:=y]> (loops w) ->
  closers w' = closers w -> closed_lns w' = closed_lns w ->
  (stored (lpc y) = true -> listener (srv w') = Some (ln y) \/
     stored (lpc x) = true /\ ln y = ln x /\ listener (srv w') = listener (srv w)) ->
  (may_accept (lpc y) = true -> closing (srv w) = false \/ may_accept (lpc x) = true /\ ln y = ln x) ->
  listener_ok w'.
Proof using Type.
  intros Hw Hs Ex El Ec En H1 H2 l E. rewrite El in E.
  destruct (insert_singleton _ _ _ _ _ Ex E) as [Ew ->]. destruct (Hw x Ew) as [W1 W2].
  rewrite Ec, En. split.
  - intros Hst. destruct (H1 Hst) as [?|(? & -> & ->)]; [done|by apply W1].
  - intros Hp Hm. destruct (H2 Hm) as [Hc|(? & ->)]; [|by apply W2].
    pose proof (past_listener_closing w Hs Hp). congruence.
Qed.

Lemma listener_step w l w' : listener_ok w -> shutdown_ok w -> wstep w l = Some w' -> listener_ok w'.
Proof using Type.
  intros Hw Hs H. pose proof (past_listener_closing w Hs) as Hcl. invert_step H; step_facts; try exact Hw.
  (* a new loop *)
  1-2: (intros l0 E; simpl in E; destruct (loops w) as [|? [|? ?]]; by simplify_eq/=).
  all: try (apply (listener_ok_other w); try done; simpl; count_tac; lia).
  all: try (eapply (listener_ok_loop w); [done|done|eassumption|done..| |]; simpl;
    rewrite ?Epc; tauto).
  - by eapply (listener_ok_loop w); [done|done|eassumption|..].
  - intros l0 E. destruct (Hw l0 E) as [H1 _]. split; [exact H1|]. intros _ Hm. simpl in *.
    rewrite H1 in H by (by destruct (lpc l0)). simplify_eq. by apply elem_of_union_l, elem_of_singleton.
  - intros l0 E. destruct (Hw l0 E) as [H1 _]. split; [exact H1|]. intros _ Hm.
    rewrite H1 in H by (by destruct (lpc l0)). done.
Qed.

Lemma reachable_listener w : reachable w -> listener_ok w.
Proof using Type.
  intros Hr. pose proof (reachable_ind (fun w => listener_ok w /\ shutdown_ok w)) as Hind.
  apply Hind; [| |done]; clear Hind w Hr.
  - intros s P Hf _. split; [done|]. destruct Hf as (Hl & Hc & Hcg & Hcd & Hm & Ha & Hcl & Hac & Ht).
    split; simpl; rewrite ?Hc, ?Hcg, ?Hcd; done.
  - intros w0 l w1 (Hl & Hs) E.
    split; [by apply (listener_step w0 l)|by apply (shutdown_step w0 l)].
Qed.

(** Steps that the accept loop takes at most, once its listener is closed. *)
Definition loop_left (pc : serve_pc N) : nat :=
  match pc with
  | LoopReturned _ => 0 | LoopClosing => 1 | LoopTop | LoopCheckClosed => 2
  | LoopFailed | LoopSpawn _ | ServeStore => 3 | LoopAccept | LoopCounted _ | ListenNet => 4
  | LoopAcquire | LoopAccepted _ | ListenStart => 5
  end.

Definition is_loop_step (l : label N) : bool := match l with LoopStep _ _ => true | _ => false end.
Definition starts_loop (l : label N) : bool :=
  match l with StartServe _ | StartListenAndServe => true | _ => false end.

(** The state after the listener of the only loop was closed. *)
Definition stopping w (l : loop N) : Prop :=
  counters_ok w /\ shutdown_ok w /\ listener_ok w /\
  loops w = [l] /\ (0 < count past_listener (closers w))%nat.

Lemma past_listener_mono w l w' :
  wstep w l = Some w' ->
  (0 < count past_listener (closers w))%nat -> (0 < count past_listener (closers w'))%nat.
Proof using Type.
  intros H. invert_step H; simpl; try done; count_tac; lia.
Qed.

Lemma stopping_step w lp l w' :
  stopping w lp -> starts_loop l = false -> wstep w l = Some w' ->
  exists lp', stopping w' lp' /\
    ((if is_loop_step l then 1 else 0) + loop_left (lpc lp') <= loop_left (lpc lp))%nat.
Proof using Type.
  intros (Hc & Hs & Hl & El & Hp) Hns H.
  pose proof (past_listener_closing w Hs Hp) as Hcl. pose proof (closing_closed w Hs Hcl) as Hcd.
  assert (Hlp' : forall lp', loops w' = [lp'] -> stopping w' lp').
  { intros lp' E. split_and!; [by apply (counters_step w l)|by apply (shutdown_step w l)|by apply (listener_step w l)|done|by apply (past_listener_mono w l)]. }
  destruct (Hl lp El) as [_ Hmay]. specialize (Hmay Hp).
  destruct (is_loop_step l) eqn:Els.
  - destruct l as [?| | | |i ch|i ch|i ch|i sl|i rr|i]; try done. unfold wstep in H.
    destruct (panicked w); [done|]. rewrite El in H. destruct i as [|i]; [|done].
    cbn [lookup list_lookup mbind option_bind] in H. unfold loop_step in H.
    destruct (lpc lp) eqn:Epc, ch; try discriminate H; rewrite ?Hcl, ?Hcd in H; simplify_option_eq.
    all: try (eexists; split; [apply Hlp'; simpl; by rewrite El|simpl; lia]).
    + eexists. split; [apply Hlp'; simpl; by rewrite El|]. simpl. destruct (handler (srv w)); simpl; lia.
    + match goal with Hn : ln lp ∉ _ |- _ => by destruct (Hn (Hmay eq_refl)) end.
    + destruct (closeDone (srv w)) eqn:Ed; simplify_eq.
      * pose proof (two_loops w 0 lp Hs) as H2. rewrite El in H2. specialize (H2 eq_refl Epc Ed). simpl in H2. lia.
      * eexists; split; [apply Hlp'; simpl; by rewrite El|simpl; lia].
  - exists lp. split; [|lia]. apply Hlp'. rewrite <- El.
    invert_step H; simpl; done.
Qed.

Lemma stopping_run ls : forall w lp w',
  stopping w lp -> Forall (fun l => starts_loop l = false) ls -> wrun w ls = Some w' ->
  exists lp', stopping w' lp' /\
    (length (List.filter is_loop_step ls) + loop_left (lpc lp') <= loop_left (lpc lp))%nat.
Proof using Type.
  induction ls as [|l ls IH]; intros w lp w' Hw Hns; cbn [wrun].
  { intros [= <-]. exists lp. split; [done|simpl; lia]. }
  apply Forall_cons_1 in Hns as [Hl Hns].
  destruct (wstep w l) as [w1|] eqn:E; [|done]. cbn [mbind option_bind]. intros Hr.
  destruct (stopping_step w lp l w1 Hw Hl E) as (lp1 & Hw1 & H1).
  destruct (IH w1 lp1 w' Hw1 Hns Hr) as (lp2 & Hw2 & H2). exists lp2. split; [done|].
  cbn [List.filter]. destruct (is_loop_step l); cbn [length]; lia.
Qed.

(** It is never blocked: the closed listener fails, and [closing] can be received. *)
Lemma stopping_enabled w lp :
  stopping w lp -> panicked w = false -> (forall e, lpc lp <> LoopReturned e) ->
  exists ch w', wstep w (LoopStep 0 ch) = Some w'.
Proof using Type.
  intros (Hc & Hs & Hl & El & Hp) Hpan Hne.
  pose proof (past_listener_closing w Hs Hp) as Hcl.
  unfold wstep. rewrite Hpan, El. cbn [lookup list_lookup mbind option_bind]. unfold loop_step.
  assert (Ht : lpc lp = LoopFailed -> exists s', release (srv w) = Some s').
  { intros E. unfold release. rewrite (co_tokens _ Hc), El. simpl. unfold loop_holds at 1. rewrite E.
    simpl. eauto. }
  destruct (lpc lp) eqn:E.
  - exists Go. eauto.
  - exists ListenFails. eauto.
  - exists Go. eauto.
  - exists Go. eauto.
  - exists PickClosing. rewrite Hcl. eauto.
  - exists AcceptErr. eauto.
  - exists Go. destruct (Ht eq_refl) as [s' ->]. cbn [mbind option_bind]. eauto.
  - exists Go. eauto.
  - exists Go. eauto.
  - exists Go. eauto.
  - exists Go. eauto.
  - exists Go. destruct (closeDone (srv w)); eauto.
  - by destruct (Hne e).
Qed.

(** ** A closer behind a reader *)

(** The call of [Close] at [i] has come to the connection [c], where its goroutine has not
    got [readMu] yet and [t] waits for the network inside [Read]. *)
Definition waits_behind w (i c n : nat) (todo : list nat) (t : ConnShared.tid) : Prop :=
  (exists k, closers w !! i = Some k /\ kpc k = KConn c n todo) /\
  on_conn w c (fun cw => ConnSharedProps.close_behind cw t (ConnShared.User n)).

Lemma behind_not_returned w c n t h :
  hs w !! c = Some h -> on_conn w c (fun cw => ConnSharedProps.close_behind cw t (ConnShared.User n)) ->
  returned h n = false.
Proof using Type.
  intros Eh (h' & E' & cw & Ec & _ & k & Hk & _). simplify_eq. unfold returned. by rewrite Ec, Hk.
Qed.

Lemma waits_step w i0 c n todo0 t l w' :
  handlers_ok w -> conns_ok w -> waits_behind w i0 c n todo0 t ->
  l <> ConnStep c (ConnShared.NetReturns t) -> wstep w l = Some w' -> waits_behind w' i0 c n todo0 t.
Proof using Type.
  intros Hh Hl (Hk & Hb) Hne H. split.
  - pose proof (fun h Eh => behind_not_returned w c n t h Eh Hb) as Hret. clear Hb.
    pose proof Hk as (k & Ek & Epk). invert_step H; simpl; try done.
    all: try (rewrite lookup_app_l by (by eapply lookup_lt_Some); eauto).
    all: eapply insert_keeps; [exact Hk|eassumption|]; intros ->; simpl; simplify_eq; try congruence.
    rewrite Epk in Epc. simplify_eq. by rewrite (Hret H0) in H1.
  - eapply (on_conn_step w l w' c _ (fun x => x <> ConnShared.NetReturns t)); try done.
    + intros c0 l0 c1 Hlk Ho Es. by apply (ConnSharedProps.wstep_close_behind c0 l0 c1).
    + intros c0 c1 [(plen & Ht) (k & Hu & Hk')] Hp _. split; [exists plen|exists k]; by rewrite Hp.
    + intros x [Hx| ->]; [done|congruence].
Qed.

Lemma waits_run ls : forall w i c n todo t w',
  handlers_ok w -> conns_ok w -> waits_behind w i c n todo t ->
  Forall (fun l => l <> ConnStep c (ConnShared.NetReturns t)) ls -> wrun w ls = Some w' ->
  waits_behind w' i c n todo t.
Proof using Type.
  induction ls as [|l ls IH]; intros w i c n todo t w' Hh Hl Hw Hn; cbn [wrun]; [by intros [= <-]|].
  apply Forall_cons_1 in Hn as [Hne Hn].
  destruct (wstep w l) as [w1|] eqn:E; [|done]. cbn [mbind option_bind].
  apply IH; [by apply (handlers_ok_step w l)|by apply (conns_ok_step w l)|by apply (waits_step w i c n todo t l)|done].
Qed.

(** ** What panics *)

Section Panics.
  Context {NL : NetConnLaws N}.

(** [NewConn] makes its buffers for this configuration. *)
Definition config_ok s : Prop := ReadBufferSize (config s) <= 2 ^ 32.

Definition pools_ok w : Prop := config_ok (srv w) -> pools_wf (pools w).

Lemma run_pools cw ls : forall cw',
  ConnShared.wrun cw ls = Some cw' -> pools_wf (ConnShared.pools cw) -> pools_wf (ConnShared.pools cw').
Proof using Type.
  revert cw. induction ls as [|l ls IH]; intros cw cw'; cbn [ConnShared.wrun]; [by intros [= <-]|].
  destruct (ConnShared.wstep cw l) as [c1|] eqn:E; [|done]. cbn [mbind option_bind].
  intros Er Hp. by apply (IH c1), (ConnSharedProps.wstep_lasting cw l c1 E).
Qed.

Lemma pools_step w l w' : pools_ok w -> wstep w l = Some w' -> pools_ok w'.
Proof using Type*.
  intros Hw H. unfold pools_ok, config_ok in *. invert_step H; step_facts; simpl; try exact Hw.
  all: try (intros Hc; eapply run_pools; [exact Hsteps|]; by apply Hw).
  intros Hc. destruct (NewConn_ok choices (pools w) nc (config (srv w)) (Hw Hc) Hc) as (c' & P' & E & HP' & _).
  by simplify_eq.
Qed.

(** A panic is the call of a nil handler, a second accept loop that closes [closeDone], a
    read buffer of more than 4 GiB, or a panic of an operation of a connection. *)
Definition panic_ok w : Prop :=
  panicked w = true ->
  handler (srv w) = false \/ (2 <= length (loops w))%nat \/ 2 ^ 32 < ReadBufferSize (config (srv w)) \/
  exists c, on_conn w c (fun cw => ConnShared.panicked cw = true).

Lemma on_inserted w w' i h pc cw (Inv : ConnShared.world N -> Prop) :
  hs w !! i = Some h -> hs w' = <[i := MkH pc (Some cw)]> (hs w) -> Inv cw -> exists c, on_conn w' c Inv.
Proof using Type.
  intros E Ew Hi. exists i, (MkH pc (Some cw)). split; [|by exists cw].
  rewrite Ew. apply list_lookup_insert_eq. by eapply lookup_lt_Some.
Qed.

Lemma panic_step w l w' : shutdown_ok w -> pools_ok w -> wstep w l = Some w' -> panic_ok w'.
Proof using Type*.
  intros Hs Hp H. unfold panic_ok, pools_ok, config_ok in *. invert_step H; step_facts; simpl; try congruence.
  all: rewrite ?Hpanic; cbn [orb]; try discriminate; intros Hpan.
  all: try (do 3 right; eapply (on_inserted w); [eassumption|done|exact Hpan]).
  - right; left. by eapply two_loops.
  - right; right; left. destruct (Z.lt_ge_cases (2 ^ 32) (ReadBufferSize (config (srv w)))) as [|Hle]; [done|].
    destruct (NewConn_ok choices (pools w) nc (config (srv w)) (Hp Hle) Hle) as (c' & P' & E & _). congruence.
  - by left.
  - by rewrite (closing_once _ _ _ Hs Ei Epc) in *.
Qed.

Lemma reachable_panic w : reachable w -> panic_ok w.
Proof using Type*.
  intros Hr. apply (reachable_ind (fun w => panic_ok w /\ pools_ok w /\ shutdown_ok w)); [| |done]; clear w Hr.
  - intros s P Hf HP. split; [by intros ?|]. split; [by intros _|].
    destruct Hf as (Hl & Hc & Hcg & Hcd & Hm & Ha & Hcl & Hac & Ht). split; simpl; rewrite ?Hc, ?Hcg, ?Hcd; done.
  - intros w0 l w1 (_ & Hp & Hs) E. split_and!; [by apply (panic_step w0 l)|by apply (pools_step w0 l)|by apply (shutdown_step w0 l)].
Qed.
End Panics.
End Invariants.

(** ** Runs to look at *)

#[local] Existing Instance doubling.

Section Runs.

Definition demo : Server Config :=
  default (MkServer plain_config false None false false false ∅ 0 0 0 0 None)
    (NewServer no_config [WithConfig plain_config; WithHandler true; WithMaxConns 2]).

Definition program : world ScriptConn := start demo empty_pools.

(** The state after a run from a fresh server. *)
Definition after (ls : list (label ScriptConn)) : world ScriptConn := default program (wrun program ls).

Definition serves (n : nat) (ch : loop_choice ScriptConn) : list (label ScriptConn) := [LoopStep n ch].
Definition handles (n : nat) (ch : handler_choice) : list (label ScriptConn) := [HandlerStep n ch].
Definition shuts (n : nat) (ch : closer_choice) : list (label ScriptConn) := [CloserStep n ch].

(** [k] steps of the goroutine [u] of the connection [n]. *)
Definition uses (n : nat) (u k : nat) : list (label ScriptConn) :=
  replicate k (ConnStep n (ConnShared.Step (ConnShared.User u))).

(** A listener is served and one connection accepted; its handler starts to run. *)
Definition one_connection : list (label ScriptConn) :=
  [StartServe 7] ++ serves 0 Go ++ serves 0 Go ++ serves 0 PickSend ++
  serves 0 (AcceptOk (Script [[104; 105]] [] 1000)) ++ serves 0 Go ++ serves 0 Go ++ serves 0 Go.
Definition registers : list (label ScriptConn) :=
  handles 0 (Make (0, 0, 0)%nat) ++ handles 0 Proceed ++ handles 0 Proceed.

(** [Close] up to its snapshot. *)
Definition closes (call : label ScriptConn) : list (label ScriptConn) :=
  [call] ++ shuts 0 Continue ++ shuts 0 Continue ++ shuts 0 Continue.

Lemma after_reachable ls :
  match wrun program ls with Some _ => true | None => false end = true -> reachable (after ls).
Proof.
  intros E. exists demo, empty_pools, ls. split; [done|]. split; [apply empty_pools_wf|].
  change (start demo empty_pools) with program. unfold after. by destruct (wrun program ls).
Qed.
End Runs.

(** ** Properties *)

(** C14: the counters and the limit of the server. In every reachable state the values
    in [acceptLimit] are those held by the accept loops and the handlers, never more
    than its capacity, so no more than [WithMaxConns] handlers run at once; [Stats]
    counts what was accepted, what was closed and, in between, what is active (modulo
    the width of each counter); and [conns] holds exactly the connections whose
    handlers are between their two critical sections. *)
Theorem server_counts {N : Type} `{NetConn N} `{GrowPolicy} (w : world N) :
  reachable w ->
  acceptLimit (srv w) = (count loop_holds (loops w) + count handler_holds (hs w))%nat /\
  (forall c, acceptCap (srv w) = Some c ->
     acceptLimit (srv w) <= c /\ count handler_runs (hs w) <= c)%nat /\
  Stats (srv w) =
    (u64 (Z.of_nat (count loop_accepted (loops w) + length (hs w))),
     u64 (Z.of_nat (count handler_done (hs w))),
     u32 (Z.of_nat (count loop_active (loops w) + count handler_active (hs w)))) /\
  (forall i, i ∈ conns (srv w) <-> exists h, hs w !! i = Some h /\ registered h = true).
Proof.
  intros Hr. destruct (reachable_counters w Hr) as ([Ht Hcap Hact Hacc Hcl] & _ & Hreg).
  split_and!; [done| |unfold Stats; by rewrite Hacc, Hcl, Hact|done].
  intros c Hc. rewrite Hc in Hcap. split; [done|].
  pose proof (count_mono handler_runs handler_holds (hs w) runs_holds). lia.
Qed.

Lemma server_counts_witness :
  let w := after (one_connection ++ registers) in
  acceptLimit (srv w) = 1%nat /\ count handler_runs (hs w) = 1%nat /\
  Stats (srv w) = (1, 0, 1) /\ 0%nat ∈ conns (srv w) /\ (count handler_runs (hs w) <= 2)%nat.
Proof.
  intros w. assert (Hr : reachable w) by (apply after_reachable; vm_compute; reflexivity).
  destruct (server_counts w Hr) as (Ht & Hc & Hs & Hreg). split_and!.
  - rewrite Ht. vm_compute. reflexivity.
  - vm_compute. reflexivity.
  - rewrite Hs. vm_compute. reflexivity.
  - apply Hreg. assert (E : registered <$> (hs w !! 0%nat) = Some true) by (vm_compute; reflexivity).
    destruct (hs w !! 0%nat) as [h|]; [|done]. exists h. split; [done|]. by injection E.
  - by apply (Hc 2%nat).
Defined.

(** C15: what [Close] and [Shutdown] promise. In every reachable state of the program at
    most one call has won the right to close the server. The channel [closing] is closed
    exactly when that call is past its [close(s.closing)], and [closeDone] exactly when one
    accept loop has returned [ErrServerClosed]; neither is closed a second time unless the
    program panics. A call returns nil only when both channels are closed, so only after
    an accept loop has returned [ErrServerClosed] (never where [Serve] was not called, or
    returned with another error), and by then every connection of its snapshot is closed
    (its flag is set); the same connections are closed when [Shutdown] gives up. A
    run-time panic means a nil handler, a second call of [Serve] or [ListenAndServe], a read
    buffer configured to more than 4 GiB, or a panic of an operation of a connection. *)
Theorem Close_protocol {N : Type} `{NetConnLaws N} `{GrowPolicy} (w : world N) :
  reachable w ->
  count won (closers w) = (if closed (srv w) then 1%nat else 0%nat) /\
  count past_closing (closers w) = (if closing (srv w) then 1%nat else 0%nat) /\
  count loop_finished (loops w) = (if closeDone (srv w) then 1%nat else 0%nat) /\
  (forall i k, closers w !! i = Some k -> kpc k = KReturned None ->
     closed (srv w) = true /\ closing (srv w) = true /\ closeDone (srv w) = true /\
     (exists j l, loops w !! j = Some l /\ lpc l = LoopReturned ErrServerClosed)) /\
  (forall i k r c, closers w !! i = Some k -> kpc k = KReturned r -> r <> Some AlreadyClosed ->
     c ∈ snapshot k -> is_closed w c) /\
  (panicked w = true ->
     handler (srv w) = false \/ (2 <= length (loops w))%nat \/ 2 ^ 32 < ReadBufferSize (config (srv w)) \/
     exists c, on_conn w c (fun cw => ConnShared.panicked cw = true)).
Proof.
  intros Hr. destruct (reachable_shutdown w Hr) as (Hs & _ & _ & Hk).
  split_and!; [apply Hs..| | |by apply reachable_panic].
  - intros i k E Ek.
    assert (Hcg : closing (srv w) = true).
    { pose proof (sh_closing _ Hs) as Hn. destruct (closing (srv w)); [done|].
      apply count_zero with (i := i) (x := k) in Hn; [|done]. unfold past_closing in Hn. by rewrite Ek in Hn. }
    pose proof (sh_returned _ Hs i k E Ek) as Hd. pose proof (sh_done _ Hs) as Hn. rewrite Hd in Hn.
    split_and!; [by apply closing_closed|done|done|].
    destruct (count_some _ _ Hn) as (j & l & El & Hl). exists j, l. split; [done|].
    unfold loop_finished in Hl. by destruct (lpc l) as [| | | | | | | | | | | |[]].
  - intros i k r c E Ek Hne. pose proof (Forall_lookup_1 _ _ _ _ Hk E) as Hok.
    unfold closer_ok in Hok. rewrite Ek in Hok. destruct r as [[]|]; [done|apply Hok..].
Qed.

(** [Conn.Close] of the goroutine [u], until it waits for the dispatcher, and the rest. *)
Definition begins_close (n u : nat) : list (label ScriptConn) :=
  uses n u 5 ++ [ConnStep n ConnShared.DispatcherStops] ++ uses n u 1.

(** One connection, registered; [Close] closes it, the loop stops, [Close] returns. *)
Definition closed_run : list (label ScriptConn) :=
  one_connection ++ registers ++ closes StartClose ++
  shuts 0 (Order [0%nat]) ++ shuts 0 Continue ++ begins_close 0 1 ++ uses 0 1 8 ++
  shuts 0 Continue ++ shuts 0 Continue ++ serves 0 Go ++ serves 0 Go ++ shuts 0 Continue.

Lemma Close_protocol_witness :
  let w := after closed_run in
  closed (srv w) = true /\ closing (srv w) = true /\ closeDone (srv w) = true /\ is_closed w 0 /\
  (exists j l, loops w !! j = Some l /\ lpc l = LoopReturned ErrServerClosed).
Proof.
  intros w. assert (Hr : reachable w) by (apply after_reachable; vm_compute; reflexivity).
  destruct (Close_protocol w Hr) as (_ & _ & _ & Hret & Hsnap & _).
  set (k := MkK (KReturned None) false false {[0%nat]}).
  assert (Ek : closers w !! 0%nat = Some k) by (vm_compute; reflexivity).
  destruct (Hret 0%nat k Ek eq_refl) as (Hc & Hcg & Hd & Hl). split_and!; [done..| |done].
  apply (Hsnap 0%nat k None 0%nat Ek eq_refl); [done|by_decide].
Defined.

(** C36: the accept loop stops. Once a [Close] or [Shutdown] has closed the listener of
    the only accept loop, that loop takes at most five more steps, however the other
    goroutines run, and until it has returned it always can take one. *)
Theorem accept_loop_stops {N : Type} `{NetConn N} `{GrowPolicy} (w : world N) l ls w' :
  reachable w -> loops w = [l] -> (0 < count past_listener (closers w))%nat ->
  Forall (fun l => starts_loop l = false) ls -> wrun w ls = Some w' ->
  exists l', loops w' = [l'] /\
    (length (List.filter is_loop_step ls) + loop_left (lpc l') <= loop_left (lpc l) <= 5)%nat /\
    ((exists e, lpc l' = LoopReturned e) \/ panicked w' = true \/
     exists ch w'', wstep w' (LoopStep 0 ch) = Some w'').
Proof.
  intros Hr El Hp Hns Hrun.
  destruct (reachable_counters w Hr) as (Hc & _). destruct (reachable_shutdown w Hr) as [Hs _].
  assert (Hst : stopping w l) by (split_and!; try done; by apply reachable_listener).
  destruct (stopping_run ls w l w' Hst Hns Hrun) as (l' & Hst' & Hle).
  exists l'. split_and!; [apply Hst'|done|by destruct (lpc l); simpl; lia|].
  destruct (panicked w') eqn:Epan; [by right; left|].
  assert (Hd : (exists e, lpc l' = LoopReturned e) \/ forall e, lpc l' <> LoopReturned e)
    by (destruct (lpc l'); [by right..|left; by eexists]).
  destruct Hd as [?|Hne]; [by left|]. do 2 right. by apply (stopping_enabled w' l').
Qed.

(** [Close] comes while the loop is about to accept. *)
Definition closing_run : list (label ScriptConn) :=
  [StartServe 7] ++ serves 0 Go ++ serves 0 Go ++ serves 0 PickSend ++ closes StartClose.

Lemma accept_loop_stops_witness :
  let w := after closing_run in
  let ls := serves 0 AcceptErr ++ shuts 0 (Order []) ++ serves 0 Go ++ serves 0 Go ++ serves 0 Go in
  exists w' l', wrun w ls = Some w' /\ loops w' = [l'] /\ (loop_left (lpc l') <= 0)%nat.
Proof.
  intros w ls. assert (Hr : reachable w) by (apply after_reachable; vm_compute; reflexivity).
  destruct (wrun w ls) as [w'|] eqn:E; [|by vm_compute in E].
  destruct (accept_loop_stops w (MkLoop LoopAccept 7) ls w' Hr) as (l' & El & Hle & _).
  - vm_compute. reflexivity.
  - vm_compute. lia.
  - by_decide.
  - exact E.
  - exists w', l'. split; [done|]. split; [done|]. simpl in Hle. lia.
Defined.

(** C37: [Close] and [Shutdown] wait for idle connections. A call that has come to a
    connection and entered its [Conn.Close] there (won it, and not yet got [readMu]) makes
    no progress while some goroutine, such as the handler, is inside a [Read] of that
    connection that waits for the network: as long as that [net.Conn.Read] does not return
    (the peer sends nothing and no deadline passes), and whatever else happens, the call
    stays where it is, before [readMu.Lock()] of this [Conn.Close], and closes none of the
    connections that come after; in particular when the context of [Shutdown] is done. *)
Theorem Close_waits_for_reader {N : Type} `{NetConn N} `{GrowPolicy} (w : world N)
    i k c n todo h cw t plen st ls w' :
  reachable w -> closers w !! i = Some k -> kpc k = KConn c n todo ->
  hs w !! c = Some h -> shared h = Some cw ->
  ConnShared.get_pc cw (ConnShared.User n) = Some (ConnShared.Closing st) ->
  ConnSharedProps.before_readMu st = true ->
  ConnShared.get_pc cw t = Some (ConnShared.ReadNet plen) ->
  wrun w ls = Some w' -> Forall (fun l => l <> ConnStep c (ConnShared.NetReturns t)) ls ->
  (exists k', closers w' !! i = Some k' /\ kpc k' = KConn c n todo) /\
  on_conn w' c (fun cw' => ConnSharedProps.close_behind cw' t (ConnShared.User n)).
Proof.
  intros Hr Ek Epk Eh Ec Hu Hst Ht Hrun Hn. destruct (reachable_shutdown w Hr) as (_ & Hh & Hl & _).
  assert (Hw : waits_behind w i c n todo t).
  { split; [by eauto|]. exists h. split; [done|]. exists cw. split; [done|]. split; [by exists plen|by exists st]. }
  by apply (waits_run ls w i c n todo t w' Hh Hl Hw Hn Hrun).
Qed.

(** A client that stays silent, and a [Shutdown]. *)
Definition idle_run : list (label ScriptConn) :=
  one_connection ++ registers ++
  [ConnStep 0 (ConnShared.Call (ConnShared.User 0) (ConnShared.CallRead 5))] ++ uses 0 0 3 ++
  closes StartShutdown ++ shuts 0 (Order [0%nat]) ++ shuts 0 Continue ++ begins_close 0 1.

Lemma Close_waits_for_reader_witness :
  let w := after idle_run in
  let ls := serves 0 Go ++ serves 0 Go ++ [CtxDone 0; ConnStep 0 ConnShared.Spawn] in
  exists w', wrun w ls = Some w' /\
  exists k', closers w' !! 0%nat = Some k' /\ kpc k' = KConn 0 1 [].
Proof.
  intros w ls. assert (Hr : reachable w) by (apply after_reachable; vm_compute; reflexivity).
  destruct (wrun w ls) as [w'|] eqn:E; [|by vm_compute in E]. exists w'. split; [done|].
  assert (Hv : match hs w !! 0%nat with
    | Some h => match shared h with
      | Some cw => ConnShared.get_pc cw (ConnShared.User 1) = Some (ConnShared.Closing ConnShared.KReadLock) /\
                   ConnShared.get_pc cw (ConnShared.User 0) = Some (ConnShared.ReadNet 5)
      | None => False end
    | None => False end) by (vm_compute; split; reflexivity).
  assert (Ek : closers w !! 0%nat = Some (MkK (KConn 0 1 []) true false {[0%nat]})) by (vm_compute; reflexivity).
  assert (Hn : Forall (fun l => l <> ConnStep 0 (ConnShared.NetReturns (ConnShared.User 0))) ls)
    by (unfold ls; repeat (constructor; [discriminate|]); constructor).
  clearbody w ls.
  destruct (hs w !! 0%nat) as [h|] eqn:Eh; [|done]. destruct (shared h) as [cw|] eqn:Ec; [|done].
  destruct Hv as [Hu Ht].
  exact (proj1 (Close_waits_for_reader w 0 _ 0 1 [] h cw (ConnShared.User 0) 5 ConnShared.KReadLock ls w' Hr Ek
    eq_refl Eh Ec Hu eq_refl Ht E Hn)).
Defined.

(** ** What can go wrong *)

(** A connection accepted before [Close] but registered after its snapshot stays open:
    [Close] has returned, the accept loop too, and the handler still runs. *)
Definition missed_run : list (label ScriptConn) :=
  one_connection ++ closes StartClose ++ shuts 0 (Order []) ++ shuts 0 Continue ++
  registers ++ serves 0 Go ++ serves 0 Go ++ shuts 0 Continue.

Definition flag (h : hconn ScriptConn) : option bool := TelnetConn.closed ∘ ConnShared.conn <$> shared h.

Lemma Close_misses_connection :
  exists w, wrun program missed_run = Some w /\
    (kpc <$> closers w) = [KReturned None] /\ (lpc <$> loops w) = [LoopReturned ErrServerClosed] /\
    (handler_runs <$> hs w) = [true] /\ (flag <$> hs w) = [Some false].
Proof.
  assert (Hv : (fun w : world ScriptConn => (kpc <$> closers w, lpc <$> loops w, handler_runs <$> hs w, flag <$> hs w))
      <$> wrun program missed_run =
    Some ([KReturned None], [LoopReturned ErrServerClosed], [true], [Some false])) by (vm_compute; reflexivity).
  apply fmap_Some in Hv as (w & E & Hw). exists w. split; [exact E|]. clear E.
  injection Hw as -> -> -> ->. repeat split.
Qed.

(** Two calls of [Serve]: the second one to notice [Close] closes [closeDone] again. *)
Definition two_loops_run : list (label ScriptConn) :=
  [StartServe 1; StartServe 2] ++ serves 0 Go ++ serves 1 Go ++ closes StartClose ++
  serves 0 Go ++ serves 0 Go ++ serves 1 Go ++ serves 1 Go.

Lemma second_Serve_panics :
  exists w, wrun program two_loops_run = Some w /\ panicked w = true.
Proof. eexists. split; [vm_compute; reflexivity|reflexivity]. Qed.

(** [Serve] does not check the handler, as [ListenAndServe] does: the first connection
    brings the program down. *)
Lemma Serve_nil_handler_panics :
  exists s w, NewServer plain_config [] = Some s /\
    wrun (start s empty_pools) (one_connection ++ registers) = Some w /\ panicked w = true.
Proof.
  set (s := default demo (NewServer plain_config [])).
  assert (Hv : panicked <$> wrun (start s empty_pools) (one_connection ++ registers) = Some true)
    by (vm_compute; reflexivity).
  apply fmap_Some in Hv as (w & E & Hw). exists s, w.
  split; [vm_compute; reflexivity|]. split; [exact E|]. exact (eq_sym Hw).
Qed.
