(* ===== verification/Examples.v ===== *)
(** * Examples: the programs of src/examples/.

    The handlers of the echo server and of the MUD server and the two loops of the client,
    as functions on the connection they are given. A call whose results the code drops is
    its effect on the connection. The loops take fuel, one number for the rounds and one
    for each [ReadLine]. The signal handlers, the log and the exit codes are left out. *)
From Stdlib Require Import String.
From S2P Require Import Prelude Constants GoSlice GoText Pool ByteQueue RingBuf StaticBuf TelnetParser Options.
From S2P Require Import Server NetConn TelnetConn Color Msdp Mud ConnLine LineStream.
#[local] Open Scope Z_scope.

Definition crlf : bytes := [13; 10].

(** What a function on a connection comes to. *)
Inductive outcome (A : Type) := Returned (a : A) | Panicked | Running.
#[global] Arguments Returned {A}. #[global] Arguments Panicked {A}. #[global] Arguments Running {A}.

(** The fields that the examples do not name are zero. *)
Definition zero_config : Config :=
  MkConfig false false false false false false false false false false false false false false
    [] 0 0 0 0 false false.

Section Calls.
  Context {N Q : Type} `{NetConn N} `{GrowPolicy}.
  Implicit Type c : Conn N Q.

(** Calls whose results are dropped. *)
Definition put c (p : bytes) : Conn N Q := (Write c p).1.
Definition putColor (h : store) c (text : bytes) (color : Color) : Conn N Q := (WriteColor h c text color).1.
Definition flushOut c : Conn N Q := (Flush c).1.
End Calls.

(** [defer c.Close()] *)
Definition closing {N} `{NetConn N} `{GrowPolicy} (o : outcome (Conn N Ring)) (P : Pools)
    : outcome (Conn N Ring * Pools) :=
  match o with
  | Returned c => let '(c, P, _) := Close c P in Returned (c, P)
  | Panicked => Panicked
  | Running => Running
  end.

(** What the server's goroutine for a connection does with it: [NewConn], the handler, and
    a second [Close]. *)
Definition serve {N} `{NetConn N} `{GrowPolicy}
    (handler : Conn N Ring -> Pools -> outcome (Conn N Ring * Pools))
    (choices : nat * nat * nat) (P : Pools) (nc : N) (cfg : Config) : outcome (Conn N Ring * Pools) :=
  match NewConn choices P nc cfg with
  | None => Panicked
  | Some (c, P) =>
      match handler c P with
      | Returned (c, P) => let '(c, P, _) := Close c P in Returned (c, P)
      | o => o
      end
  end.

(** ** The echo server *)

Definition echo_config : Config :=
  MkConfig false true true true false false false false false false false false false false
    [] 0 0 0 0 false false.

(** The options of [main]. *)
Definition echo_options : list (ServerOption Config) := [WithConfig echo_config; WithHandler true; WithMaxConns 1000].

Section Handler.
  Context {N Q : Type} `{NetConn N} `{GrowPolicy} `{ByteQueue Q}.
  Implicit Type c : Conn N Q.

Fixpoint echo_loop (lfuel fuel : nat) c : outcome (Conn N Q) :=
  match fuel with
  | O => Running
  | S fuel' =>
      match ReadLine lfuel c with
      | LinePanic => Panicked
      | LineRunning _ _ => Running
      | LineDone c _ (Some _) => Returned c
      | LineDone c line None =>
          if bool_decide (line = str "quit") then
            let c := put c (str "Goodbye!" ++ crlf) in
            Returned (flushOut c)
          else
            let c := put c (str "Echo: ") in
            let c := put c line in
            let c := put c crlf in
            echo_loop lfuel fuel' (flushOut c)
      end
  end.

Definition echo_greet c : Conn N Q :=
  let c := put c (str "Welcome to the Telnetty Echo Server!" ++ crlf) in
  let c := put c (str "Type 'quit' to disconnect." ++ crlf ++ crlf) in
  flushOut c.
End Handler.

Definition handleConn {N} `{NetConn N} `{GrowPolicy} (fuel : nat) (c : Conn N Ring) (P : Pools)
    : outcome (Conn N Ring * Pools) := closing (echo_loop fuel fuel (echo_greet c)) P.

(** ** The MUD server *)

Record Player := MkPlayer { Name : bytes; Level : Z; HP : Z; MaxHP : Z }.

Definition mud_config : Config :=
  MkConfig false false false true true false false false true false true true true false
    [] 80 24 0 0 false false.

Definition mud_options : list (ServerOption Config) := [WithConfig mud_config; WithHandler true; WithMaxConns 500].

Definition player : Player := MkPlayer (str "Adventurer") 1 100 100.

(** [now] is [time.Now().Unix()]. *)
Definition mssp_vars (now : Z) : list MSSPVar :=
  [MkMSSP (str "NAME") (str "TelnettyMUD"); MkMSSP (str "PLAYERS") (str "1"); MkMSSP (str "UPTIME") (Itoa now)].

Definition core_hello : list (bytes * bytes) :=
  [(str "client", str "TelnettyMUD"); (str "version", str "1.0.0")].

Definition msdp_data (p : Player) : list (bytes * MSDPValue) :=
  [(str "name", MSDPString (Name p)); (str "level", MSDPString (Itoa (Level p)));
   (str "hp", MSDPString (Itoa (HP p))); (str "maxhp", MSDPString (Itoa (MaxHP p)))].

(** [fmt.Sprintf] of the line that answers "score" *)
Definition score_line (p : Player) : bytes :=
  str "Name: " ++ Name p ++ str "  Level: " ++ Itoa (Level p) ++
  str "  HP: " ++ Itoa (HP p) ++ str "/" ++ Itoa (MaxHP p) ++ crlf.

Section Handler.
  Context {N Q : Type} `{NetConn N} `{GrowPolicy} `{ByteQueue Q}.
  Implicit Type c : Conn N Q.
  (** [json.Marshal] of a map of strings, and the order in which the [n]-th [range] over
      the MSDP map visits it. *)
  Context (json_Marshal : list (bytes * bytes) -> bytes + Z).
  Context (visit : nat -> list (bytes * MSDPValue) -> list (bytes * MSDPValue)).

(** [h]: the arrays behind the colours. *)
Definition mud_greet (now : Z) (h : store) c : store * Conn N Q :=
  let c := (SendMSSP c (mssp_vars now)).1 in
  let c := flushOut c in
  let c := (SendGMCP json_Marshal c (str "Core.Hello") (Value core_hello)).1 in
  let c := flushOut c in
  let '(h, cyan) := Bold h Cyan in
  let c := putColor h c (str "Welcome to TelnettyMUD!" ++ crlf) cyan in
  let c := putColor h c (str "=========================" ++ crlf ++ crlf) Yellow in
  (h, flushOut c).

(** [n] counts the scores sent. *)
Fixpoint mud_loop (lfuel fuel : nat) (h : store) (n : nat) c : outcome (Conn N Q) :=
  match fuel with
  | O => Running
  | S fuel' =>
      let c := flushOut (put c (str "> ")) in
      match ReadLine lfuel c with
      | LinePanic => Panicked
      | LineRunning _ _ => Running
      | LineDone c _ (Some _) => Returned c
      | LineDone c cmd None =>
          if bool_decide (cmd = str "look") then
            let c := putColor h c (str "You are in a vast digital realm." ++ crlf) Green in
            mud_loop lfuel fuel' h n (flushOut c)
          else if bool_decide (cmd = str "score") then
            let c := (SendSubnegotiation c OptMSDP (MarshalMSDP (visit n (msdp_data player)))).1 in
            let c := flushOut c in
            let c := put c (score_line player) in
            mud_loop lfuel fuel' h (S n) (flushOut c)
          else if bool_decide (cmd = str "quit") then
            let c := putColor h c (str "Farewell, brave adventurer!" ++ crlf) Magenta in
            Returned (flushOut c)
          else
            let c := put c (str "Unknown command. Try: look, score, quit" ++ crlf) in
            mud_loop lfuel fuel' h n (flushOut c)
      end
  end.
End Handler.

Definition handleMUDConn {N} `{NetConn N} `{GrowPolicy} json_Marshal visit (now : Z) (h : store)
    (fuel : nat) (c : Conn N Ring) (P : Pools) : outcome (Conn N Ring * Pools) :=
  let '(h, c) := mud_greet json_Marshal now h c in
  closing (mud_loop visit fuel fuel h 0 c) P.

(** ** The client *)

Definition client_config : Config :=
  MkConfig false true true true true false false false false false false false false false
    (str "telnetty-client") 80 24 0 0 true false.

(** The callbacks write to the standard error, here a text. *)
Definition event_handler : EventHandlerFunc bytes :=
  MkHandler None
    (Some (fun cmd opt w => w ++ str "[CMD] " ++ Itoa cmd ++ str " " ++ Itoa opt ++ [10]))
    (Some (fun opt data w => w ++ str "[SN] option=" ++ Itoa opt ++ str " len=" ++ Itoa (zlen data) ++ [10]))
    None.

(** The tokens of a [bufio.Scanner] of the standard library: lines without their ending,
    up to one too long for the scanner's buffer, and a last line without a line feed. *)
Definition MaxScanTokenSize : Z := 64 * 1024.

Fixpoint scanner_lines (fuel : nat) (text : bytes) : list bytes :=
  match fuel with
  | O => []
  | S fuel' =>
      match cut text with
      | Some (pre, rest) =>
          if zlen pre <? MaxScanTokenSize then strip_cr pre :: scanner_lines fuel' rest else []
      | None =>
          if bool_decide (text = []) then []
          else if zlen text <? MaxScanTokenSize then [strip_cr text] else []
      end
  end.

(** [scanner.Scan] until it is false *)
Definition Scan (stdin : bytes) : list bytes := scanner_lines (S (length stdin)) stdin.

Section Loops.
  Context {N Q : Type} `{NetConn N} `{GrowPolicy} `{ByteQueue Q}.
  Implicit Type c : Conn N Q.

(** The main goroutine. *)
Fixpoint send_loop (lines : list bytes) c : Conn N Q :=
  match lines with
  | [] => c
  | line :: lines' =>
      let c := put c line in
      let c := put c crlf in
      send_loop lines' (flushOut c)
  end.

(** The background goroutine: what it writes to the standard output. *)
Fixpoint read_loop (fuel : nat) c (stdout : bytes) : outcome (Conn N Q * bytes) :=
  match fuel with
  | O => Running
  | S fuel' =>
      match Read c 4096 with
      | None => Panicked
      | Some (c, (_, Some _)) => Returned (c, stdout)
      | Some (c, (buf, None)) => read_loop fuel' c (stdout ++ buf)
      end
  end.

(** The dispatcher while it has events. *)
Fixpoint dispatch_events (n : nat) c (stderr : bytes) : Conn N Q * bytes :=
  match n with
  | O => (c, stderr)
  | S n' =>
      match dispatch c with
      | Some (c, call) => dispatch_events n' c (handler_On event_handler call stderr)
      | None => (c, stderr)
      end
  end.
End Loops.
