(* ===== verification/Sessions.v ===== *)
(** * Sessions: servers of lines, and a connection from [NewConn] to [Close].

    A server of lines prompts, reads a line, reacts and goes on. Its transcript is what it
    sends, as a function of the lines it reads; between them the connection puts its
    answers to the peer's commands, each a whole command ([with_answers]). *)
From Stdlib Require Import String.
From stdpp Require Import relations.
From S2P Require Import Prelude Constants GoSlice GoText Pool ByteQueue RingBuf StaticBuf TelnetParser ParserSpec ParserProps Wire.
From S2P Require Import Options Server NetConn TelnetConn ConnWriter ConnReader ConnLine LineStream ConnSession ConnProps ConnTalk.
From S2P Require Import Color Examples.
#[local] Open Scope Z_scope.

(** ** The lines of a text *)

(** The lines that end in a line feed, without it. *)
Fixpoint whole_lines (text : bytes) : list bytes :=
  match text with
  | [] => []
  | b :: text' =>
      if b =? 10 then [] :: whole_lines text'
      else match whole_lines text' with [] => [] | l :: ls => (b :: l) :: ls end
  end.

Lemma whole_lines_cut text :
  whole_lines text = match cut text with Some (pre, rest) => pre :: whole_lines rest | None => [] end.
Proof.
  induction text as [|b text IH]; [done|]. cbn [whole_lines cut]. destruct (b =? 10); [done|].
  rewrite IH. by destruct (cut text) as [[pre rest]|].
Qed.

(** A line as a program gets it: the carriage return before the line feed is gone, unless
    a read without text came between the two. *)
Definition read_as (l piece : bytes) : Prop := l = strip_cr piece \/ l = piece.

(** In a [fair] conversation [ls] are the lines of a text, exactly so in the [good] case. *)
Definition lines_read (fair good : Prop) (ls : list bytes) (text : bytes) : Prop :=
  fair -> Forall2 read_as ls (whole_lines text) /\ (good -> ls = strip_cr <$> whole_lines text).

Lemma lines_read_nil (fair good : Prop) text : (fair -> cut text = None) -> lines_read fair good [] text.
Proof. intros E Hf. by rewrite whole_lines_cut, E. Qed.

Lemma lines_read_cons (good : Prop) l ls text pre rest :
  cut text = Some (pre, rest) -> read_as l pre -> (good -> l = strip_cr pre) ->
  Forall2 read_as ls (whole_lines rest) /\ (good -> ls = strip_cr <$> whole_lines rest) ->
  Forall2 read_as (l :: ls) (whole_lines text) /\ (good -> l :: ls = strip_cr <$> whole_lines text).
Proof.
  intros E Hl Hg [Hf He]. rewrite whole_lines_cut, E. split; [by constructor|].
  intros Hgood. by rewrite (Hg Hgood), (He Hgood).
Qed.

(** A session that ends early has no say in the rest. *)
Definition lines_after (text : bytes) : list bytes :=
  match cut text with Some (_, rest) => strip_cr <$> whole_lines rest | None => [] end.

(** ** Servers of lines

    Both servers prompt, read a line and react to it, until a reaction ends the session or
    [ReadLine] fails. *)
Section Server.
  Context {N Q S : Type} `{NetConn N} `{GrowPolicy} `{ByteQueue Q}.
  Context (prompt : Conn N Q -> Conn N Q) (react : S -> bytes -> (Conn N Q -> Conn N Q) * option S).

Fixpoint line_loop (lfuel fuel : nat) (s : S) (c : Conn N Q) : outcome (Conn N Q) :=
  match fuel with
  | O => Running
  | Datatypes.S fuel' =>
      match ReadLine lfuel (prompt c) with
      | LinePanic => Panicked
      | LineRunning _ _ => Running
      | LineDone c _ (Some _) => Returned c
      | LineDone c line None =>
          match react s line with
          | (f, Some s') => line_loop lfuel fuel' s' (f c)
          | (f, None) => Returned (f c)
          end
      end
  end.

(** The transcript. *)
Context (prompt_items : list item) (react_items : S -> bytes -> list item * option S).

Fixpoint dialogue (s : S) (ls : list bytes) : list item :=
  prompt_items ++
  match ls with
  | [] => []
  | l :: ls' =>
      match react_items s l with
      | (ys, Some s') => ys ++ dialogue s' ls'
      | (ys, None) => ys
      end
  end.
End Server.

(** ** Sessions on any network

    Where writes fail the transcript is lost, but the session still ends. *)

Section AnyNetwork.
  Context {N Q : Type} `{NetConnLaws N} `{GrowPolicy} `{ByteQueueLaws Q}.
  Implicit Type c : Conn N Q.

(** [f] sends something, or fails to. *)
Definition sends_some (f : Conn N Q -> Conn N Q) : Prop :=
  forall c, wr_wf c -> frame c (f c) /\ wr_wf (f c).

Lemma some_comp f g : sends_some f -> sends_some g -> sends_some (fun c => g (f c)).
Proof using Type.
  intros Hf Hg c Hc. destruct (Hf c Hc) as [F1 W1]. destruct (Hg _ W1) as [F2 W2]. split; [by etrans|done].
Qed.

Lemma some_put p : sends_some (fun c => put c p).
Proof using Type.
  intros c Hc. unfold put. destruct (closed c) eqn:Ho; [unfold Write; by rewrite Ho|].
  pose proof (Write_ok c p Hc Ho) as Hw. destruct (Write c p) as [c' [n e]]. cbn [fst]. split; apply Hw.
Qed.

Lemma some_flushOut : sends_some flushOut.
Proof using Type.
  intros c Hc. unfold flushOut, Flush. pose proof (flushLocked_ok c Hc) as Hf.
  destruct (flushLocked c). cbn [fst]. split; apply Hf.
Qed.

Lemma some_sub opt data : sends_some (fun c => (SendSubnegotiation c opt data).1).
Proof using Type.
  intros c Hc. destruct (closed c) eqn:Ho; [unfold SendSubnegotiation; by rewrite Ho|].
  pose proof (SendSubnegotiation_ok c opt data Hc Ho) as Hs.
  destruct (SendSubnegotiation c opt data). cbn [fst]. split; apply Hs.
Qed.

Lemma some_color h text color : sends_some (fun c => putColor h c text color).
Proof using Type.
  intros c Hc. unfold putColor, WriteColor, WriteString.
  destruct (some_put (ANSI h color) c Hc) as [F1 W1]. unfold put in F1, W1.
  destruct (Write c (ANSI h color)) as [c1 [n1 e1]]. destruct (some_put text c1 W1) as [F2 W2]. unfold put in F2, W2.
  destruct (Write c1 text) as [c2 [n2 e2]]. destruct (some_put Reset c2 W2) as [F3 W3]. unfold put in F3, W3.
  destruct (Write c2 Reset) as [c3 [n3 e3]]. cbn [fst] in *. split; [|done]. by do 2 (etrans; [done|]).
Qed.

Context (measure : N -> nat) (Hnet : ends measure).

Lemma some_potential f c :
  sends_some f -> conn_ok c ->
  conn_ok (f c) /\ sl_len (readScratch (f c)) = sl_len (readScratch c) /\
  (potential measure (f c) <= potential measure c)%nat.
Proof using Type*.
  intros Hf Hc. destruct (Hf c (ok_wr _ Hc)) as [F W]. split_and!.
  - exact (kp_ok _ _ (frame_keeps _ _ F (fun _ => W)) Hc).
  - by rewrite (fr_readScratch _ _ F).
  - by apply frame_potential.
Qed.

(** Every line brings the end of the network's stream nearer, whatever becomes of it. *)
Lemma line_ends {S} (prompt : Conn N Q -> Conn N Q) (react : S -> bytes -> (Conn N Q -> Conn N Q) * option S) :
  sends_some prompt -> (forall s l, sends_some (react s l).1) ->
  forall c s, conn_ok c -> 0 < sl_len (readScratch c) ->
  exists c' n0, forall lfuel fuel, (n0 <= lfuel)%nat -> (n0 <= fuel)%nat ->
    line_loop prompt react lfuel fuel s c = Returned c'.
Proof using Type*.
  intros Hp Hr c. remember (potential measure c) as k eqn:Ek. revert c Ek.
  induction (lt_wf k) as [k _ IH]. intros c -> s Hc Hsz.
  destruct (some_potential prompt c Hp Hc) as (Hc0 & Hs0 & Hpot0). set (k := potential measure (prompt c)) in *.
  destruct (ReadLine_loop_done measure (en_read _ Hnet) (en_write _ Hnet) (Datatypes.S k) (prompt c) [])
    as (c1 & l & e & E & [Hc1 Hs1] & Hpot); [done|by rewrite Hs0|fold k; lia|].
  assert (Hrun : forall lfuel, (Datatypes.S k <= lfuel)%nat -> ReadLine lfuel (prompt c) = LineDone c1 l e)
    by (intros lfuel Hf; by eapply ReadLine_loop_more).
  destruct e as [e|].
  { exists c1, (Datatypes.S k). intros lfuel [|fuel] Hf Hf2; [lia|]. cbn [line_loop]. by rewrite Hrun. }
  specialize (Hpot eq_refl). fold k in Hpot. specialize (Hr s l). destruct (react s l) as [f [s'|]] eqn:Er; cbn [fst] in Hr.
  - destruct (some_potential f c1 Hr Hc1) as (Hc2 & Hs2 & Hpot2).
    destruct (IH (potential measure (f c1)) ltac:(lia) (f c1) eq_refl s') as (c' & n0 & Hloop); [done|congruence|].
    exists c', (Datatypes.S (max n0 (Datatypes.S k))).
    intros lfuel [|fuel] Hf Hf2; [lia|]. cbn [line_loop]. rewrite Hrun by lia. rewrite Er. apply Hloop; lia.
  - exists (f c1), (Datatypes.S k).
    intros lfuel [|fuel] Hf Hf2; [lia|]. cbn [line_loop]. rewrite Hrun by lia. by rewrite Er.
Qed.

End AnyNetwork.

(** ** Sessions on a network that takes everything *)

Section Sessions.
  Context {N Q : Type} `{NetConnLaws N} `{GrowPolicy} `{ByteQueueLaws Q}.
  Context (Hrel : reliable (N := N)).
  Implicit Type c : Conn N Q.

(** [f] sends the items [ys]. *)
Definition tells (f : Conn N Q -> Conn N Q) (ys : list item) : Prop :=
  forall c, talking c -> speaks c (f c) ys.

Lemma tells_put p : tells (fun c => put c p) [IText p].
Proof using Type*. intros c. apply Write_speaks, Hrel. Qed.

Lemma tells_flushOut : tells flushOut [].
Proof using Type*. intros c Hc. by apply Flush_speaks. Qed.

Lemma tells_comp f g ys zs : tells f ys -> tells g zs -> tells (fun c => g (f c)) (ys ++ zs).
Proof using Type.
  intros Hf Hg c Hc. pose proof (Hf c Hc) as Hs. apply (speaks_trans _ _ _ _ _ Hs), Hg, Hs.
Qed.

Lemma tells_sub opt data : tells (fun c => (SendSubnegotiation c opt data).1) [ISub opt data].
Proof using Type*. intros c. apply SendSubnegotiation_speaks, Hrel. Qed.

Lemma tells_color h text color :
  tells (fun c => putColor h c text color) [IText (ANSI h color); IText text; IText Reset].
Proof using Type*.
  intros c Hc. unfold putColor, WriteColor, WriteString.
  pose proof (tells_put (ANSI h color) c Hc) as S1. unfold put in S1.
  destruct (Write c (ANSI h color)) as [c1 [n1 e1]]. cbn [fst] in S1.
  pose proof (tells_put text c1 (sa_talking _ _ _ (sk_said _ _ _ S1))) as S2. unfold put in S2.
  destruct (Write c1 text) as [c2 [n2 e2]]. cbn [fst] in S2.
  pose proof (tells_put Reset c2 (sa_talking _ _ _ (sk_said _ _ _ S2))) as S3. unfold put in S3.
  destruct (Write c2 Reset) as [c3 [n3 e3]]. cbn [fst] in *.
  exact (speaks_trans _ _ _ _ _ S1 (speaks_trans _ _ _ _ _ S2 S3)).
Qed.

Context (measure : N -> nat) (Hnet : ends measure).

(** A prompt and the line read after it. *)
Lemma line_round (prompt : Conn N Q -> Conn N Q) prompt_items c :
  tells prompt prompt_items -> talking c -> 0 < sl_len (readScratch c) ->
  exists c1 l e xs n0,
    (forall lfuel, (n0 <= lfuel)%nat -> ReadLine lfuel (prompt c) = LineDone c1 l e) /\
    said c c1 xs /\ 0 < sl_len (readScratch c1) /\ (e = None -> potential measure c1 < potential measure c)%nat /\
    with_answers (config c) prompt_items xs /\
    (line_state c -> line_state c1 /\ line_of (ahead c) l e (ahead c1) /\
     (tight c -> match cut (ahead c) with Some (pre, _) => l = strip_cr pre /\ tight c1 | None => True end)).
Proof using Type*.
  intros Hp Hc Hsz. pose proof (Hp c Hc) as Sp. set (c0 := prompt c) in *.
  pose proof (sa_talking _ _ _ (sk_said _ _ _ Sp)) as Hc0.
  pose proof (frame_potential measure Hnet _ _ (sk_frame _ _ _ Sp)) as Hpot0.
  destruct (ReadLine_talks Hrel measure Hnet c0 Hc0) as (c1 & l & e & xs & E & S1 & Ha & Hsz1 & Hpot & Hx).
  { by rewrite (fr_readScratch _ _ (sk_frame _ _ _ Sp)). }
  exists c1, l, e, (prompt_items ++ xs), (Datatypes.S (potential measure c0)). split_and!.
  - intros lfuel Hf. apply E. lia.
  - apply (said_trans _ _ _ _ _ (sk_said _ _ _ Sp) S1).
  - done.
  - intros He. specialize (Hpot He). lia.
  - rewrite (sa_config _ _ _ (sk_said _ _ _ Sp)) in Ha.
    pose proof (with_answers_app _ _ _ _ _ (with_answers_refl (config c) prompt_items) (answers_with _ _ Ha)) as Hw.
    by rewrite app_nil_r in Hw.
  - intros Hl. destruct (Hx (speaks_line_state _ _ _ Sp Hl)) as (Hl1 & Hline & Ht).
    rewrite (speaks_ahead _ _ _ Sp) in Hline, Ht. split; [done|]. split; [done|].
    intros Htc. apply Ht. by eapply speaks_tight.
Qed.

(** A server of lines ends, and its stream is its transcript of lines that it read, with
    answers between; in a calm conversation these are the lines there are. *)
Lemma line_session {S} (prompt : Conn N Q -> Conn N Q) react prompt_items
    (react_items : S -> bytes -> list item * option S) :
  tells prompt prompt_items ->
  (forall s l, (react s l).2 = (react_items s l).2 /\ tells (react s l).1 (react_items s l).1) ->
  forall c s, talking c -> 0 < sl_len (readScratch c) ->
  exists c' ls xs n0,
    (forall lfuel fuel, (n0 <= lfuel)%nat -> (n0 <= fuel)%nat ->
       line_loop prompt react lfuel fuel s c = Returned c') /\
    said c c' xs /\ lines_read (line_state c) (tight c) ls (ahead c) /\
    with_answers (config c) (dialogue prompt_items react_items s ls) xs.
Proof using Type*.
  intros Hp Hr c. remember (potential measure c) as k eqn:Ek. revert c Ek.
  induction (lt_wf k) as [k _ IH]. intros c -> s Hc Hsz.
  destruct (line_round prompt prompt_items c Hp Hc Hsz) as (c1 & l & e & xs & n1 & E & S1 & Hsz1 & Hpot & Hw & Hx).
  destruct e as [e|].
  { exists c1, [], xs, (Datatypes.S n1).
    split_and!; [|done| |cbn [dialogue]; by rewrite app_nil_r].
    - intros lfuel [|fuel] Hf Hf2; [lia|]. cbn [line_loop]. by rewrite E by lia.
    - apply lines_read_nil. intros Hl. destruct (Hx Hl) as (_ & Hline & _). unfold line_of in Hline.
      destruct (cut (ahead c)) as [[? ?]|]; [by destruct Hline|done]. }
  specialize (Hpot eq_refl). destruct (Hr s l) as [Es Ht]. specialize (Ht c1 (sa_talking _ _ _ S1)).
  destruct (react s l) as [f os] eqn:Er. destruct (react_items s l) as [ys os'] eqn:Ei. cbn [fst snd] in *. subst os'.
  pose proof (said_trans _ _ _ _ _ S1 (sk_said _ _ _ Ht)) as S2.
  pose proof (with_answers_app _ _ _ _ _ Hw (with_answers_refl (config c) ys)) as Hw2.
  assert (Hline : line_state c -> exists pre rest, cut (ahead c) = Some (pre, rest) /\ read_as l pre /\
    (tight c -> l = strip_cr pre /\ tight c1) /\ ahead c1 = rest /\ line_state c1).
  { intros Hl. destruct (Hx Hl) as (Hl1 & Hline & Htc). unfold line_of in Hline.
    destruct (cut (ahead c)) as [[pre rest]|]; [|by destruct Hline]. exists pre, rest. by destruct Hline as (_ & ? & ?). }
  destruct os as [s'|].
  - pose proof (frame_potential measure Hnet _ _ (sk_frame _ _ _ Ht)) as Hpot2.
    destruct (IH (potential measure (f c1)) ltac:(lia) (f c1) eq_refl s') as (c' & ls & zs & n0 & Hrun & S3 & Hls & Hw3);
      [apply (sk_said _ _ _ Ht)|by rewrite (fr_readScratch _ _ (sk_frame _ _ _ Ht))|].
    exists c', (l :: ls), ((xs ++ ys) ++ zs), (Datatypes.S (max n0 n1)). split_and!.
    + intros lfuel [|fuel] Hf Hf2; [lia|]. cbn [line_loop]. rewrite E by lia. rewrite Er. apply Hrun; lia.
    + by eapply said_trans.
    + intros Hl. destruct (Hline Hl) as (pre & rest & Ecut & Hll & Htc & Hrest & Hl1).
      destruct (Hls (speaks_line_state _ _ _ Ht Hl1)) as [Hf Hg].
      rewrite (speaks_ahead _ _ _ Ht), Hrest in Hf, Hg.
      apply (lines_read_cons (tight c) _ _ _ _ _ Ecut Hll); [by intros ?; apply Htc|]. split; [done|].
      intros Htt. apply Hg. eapply speaks_tight; [exact Ht|]. by apply Htc.
    + cbn [dialogue]. rewrite Ei, app_assoc. rewrite (sa_config _ _ _ S2) in Hw3. by apply with_answers_app.
  - exists (f c1), (l :: lines_after (ahead c)), (xs ++ ys), (Datatypes.S n1). split_and!.
    + intros lfuel [|fuel] Hf Hf2; [lia|]. cbn [line_loop]. rewrite E by lia. by rewrite Er.
    + done.
    + intros Hl. destruct (Hline Hl) as (pre & rest & Ecut & Hll & Htc & _). unfold lines_after. rewrite Ecut.
      apply (lines_read_cons (tight c) _ _ _ _ _ Ecut Hll); [by intros ?; apply Htc|].
      split; [|done]. apply Forall2_fmap_l, Forall_Forall2_diag, Forall_true. by left.
    + cbn [dialogue]. by rewrite Ei.
Qed.
End Sessions.

Lemma lines_read_weaken (fair fair' good good' : Prop) ls text :
  (fair' -> fair) -> (good' -> good) -> lines_read fair good ls text -> lines_read fair' good' ls text.
Proof. intros Hf Hg Hl Hfair. destruct (Hl (Hf Hfair)) as [? He]. split; auto. Qed.

(** ** A connection as the server hands it to its handler *)

(** The good case: reads never bring nothing without an error, and the peer sends items
    none of which ends in a carriage return, or none of which begins with a line feed. *)
Definition whole_writes {N} `{NetConnLaws N} (nc : N) : Prop :=
  brisk (N := N) /\ exists ys, net_incoming nc = wire ys /\ Forall item_ok ys /\ clean_endings ys.

(** The text in what a new connection receives. *)
Definition incoming_text (l : bytes) : bytes := out_data (ParserSpec.decode (sn_cap NewParser) DData l).2.

Section Served.
  Context {N : Type} `{NetConnLaws N} `{GrowPolicy}.
  Context (Hrel : reliable (N := N)).

Lemma accepted choices P (nc : N) cfg :
  pools_wf P -> ReadBufferSize cfg = 0 ->
  exists c P', NewConn choices P nc cfg = Some (c, P') /\ talking c /\
    0 < sl_len (readScratch c) /\ (calm 65536 nc -> line_state c) /\
    (forall opt, isOptionEnabledLocally (config c) opt = isOptionEnabledLocally cfg opt) /\
    out c = net_sent nc ++ wire (initial_items cfg) /\ ahead c = incoming_text (net_incoming nc) /\
    (whole_writes nc -> tight c) /\ w_bytes c = [].
Proof using Type*.
  intros HP Hr. destruct (NewConn_ok choices P nc cfg HP ltac:(lia))
    as (c & P' & E & _ & Hc & Ho & Hn & Hp & Hcfg & Hq & Hs & Hcap & Hnet & c1 & Hf & Hw & Hout).
  rewrite Hr in Hs, Hcap. assert (Hinc : net_incoming (netConn c) = net_incoming nc).
  { rewrite Hnet. unfold offered. destruct (_ =? 0); [done|].
    pose proof (net_Write_ok nc (wire (initial_items cfg))) as Hwr.
    destruct (net_Write _ _) as [nc' [k e]]. by destruct Hwr as (_ & _ & _ & Hin). }
  pose proof (flushLocked_reliable Hrel c1) as He. pose proof (flushLocked_ok c1 Hw) as Hfl.
  unfold Flush in Hf. destruct (flushLocked c1) as [c2 e]. cbn [fst snd] in *. subst c2 e.
  destruct Hfl as ([_ _ O] & Hwb & _).
  exists c, P'. split_and!; [done| |by rewrite Hs| |done| | | |by apply Hwb].
  - split; [done|done|]. rewrite Hn. apply permitted_new.
  - intros Hcalm. split; [done|by rewrite Hs|by rewrite Hcap|rewrite Hq; simpl; lia|]. rewrite Hs, Hnet.
    eapply calm_writes; [|exact Hcalm]. apply offered_writes.
  - by rewrite O, app_nil_r.
  - unfold ahead, decoded, incoming_text. by rewrite Hq, Hp, Hinc.
  - intros [Hb (ys & Ey & Hok & Hcr)]. apply (fresh_tight c ys); rewrite ?Hp; try done. by rewrite Hinc.
Qed.

(** Which answers are allowed depends on the options enabled only. *)
Lemma with_answers_config cfg cfg' ys xs :
  (forall opt, isOptionEnabledLocally cfg opt = isOptionEnabledLocally cfg' opt) ->
  with_answers cfg ys xs -> with_answers cfg' ys xs.
Proof using Type.
  intros Hcfg. induction 1; [constructor|by constructor|]. apply wa_answer; [|done].
  destruct H2 as (resp & opt & -> & Hneg & Ha & Hb). exists resp, opt.
  split_and!; [done|done|split; [by rewrite <- Hcfg|done]].
Qed.

(** The deferred [Close], and that of the server. *)
Lemma closing_closes (c : Conn N Ring) P :
  talking c -> exists c' P' nc,
    closing (Returned c) P = Returned (c', P') /\ Close c' P' = (c', P', Some ErrConnClosed) /\
    closed c' = true /\ netConn c' = (net_Close nc).1 /\ net_sent nc = out c.
Proof using Type*.
  intros Hc. destruct (Close_sends_rest Hrel c P Hc) as (c' & P' & nc & E & Hs & Hn & Ho).
  exists c', P', nc. unfold closing. rewrite E. split_and!; try done. unfold Close. by rewrite Ho.
Qed.
End Served.

(** ** Serving a connection, on any network *)

Section Ending.
  Context {N : Type} `{NetConnLaws N} `{GrowPolicy}.

Lemma flushLocked_closed {Q} (c : Conn N Q) : closed (flushLocked c).1 = closed c.
Proof using Type.
  unfold flushLocked. destruct (_ =? 0); [done|]. destruct (net_Write _ _) as [nc [k [e|]]]; by destruct (0 <? k).
Qed.

Lemma Close_closed (c : Conn N Ring) P : closed (Close c P).1.1 = true.
Proof using Type.
  unfold Close. destruct (closed c) eqn:Ho; [done|].
  pose proof (flushLocked_closed (set_closed c true)) as Hf. unfold Flush.
  destruct (flushLocked (set_closed c true)) as [c1 e]. cbn [fst] in *. rewrite stop_dispatcher_is.
  destruct (RingBuf.Free _ P) as [q P1]. destruct (StaticBuf.Free _ P1) as [w P2].
  by destruct (net_Close _) as [nc err].
Qed.

Lemma served_ends (body : nat -> Conn N Ring -> outcome (Conn N Ring)) choices P nc cfg :
  (forall c, conn_ok c -> 0 < sl_len (readScratch c) ->
     exists c' n0, forall fuel, (n0 <= fuel)%nat -> body fuel c = Returned c') ->
  pools_wf P -> ReadBufferSize cfg = 0 ->
  exists c P' n0,
    (forall fuel, (n0 <= fuel)%nat ->
       serve (fun c P => closing (body fuel c) P) choices P nc cfg = Returned (c, P')) /\ closed c = true.
Proof using Type*.
  intros Hbody HP Hr. destruct (NewConn_ok choices P nc cfg HP ltac:(lia))
    as (c & P1 & E & _ & Hc & _ & _ & _ & _ & Hq & Hs & Hcap & _).
  rewrite Hr in Hs. destruct (Hbody c Hc) as (c1 & n0 & Hrun); [by rewrite Hs|].
  destruct (Close c1 P1) as [[c2 P2] e2] eqn:E2. destruct (Close c2 P2) as [[c3 P3] e3] eqn:E3.
  exists c3, P3, n0. split.
  - intros fuel Hf. unfold serve. rewrite E, Hrun by done. unfold closing. by rewrite E2, E3.
  - pose proof (Close_closed c2 P2) as Hcl. by rewrite E3 in Hcl.
Qed.
End Ending.

(** ** Serving a connection *)

Section Serving.
  Context {N : Type} `{NetConnLaws N} `{GrowPolicy}.
  Context (Hrel : reliable (N := N)).

(** From the handler's body to the life of the connection. *)
Lemma served (body : nat -> Conn N Ring -> outcome (Conn N Ring)) (spec : list bytes -> list item)
    choices P nc cfg :
  (forall c, talking c -> 0 < sl_len (readScratch c) -> exists c' ls xs n0,
     (forall fuel, (n0 <= fuel)%nat -> body fuel c = Returned c') /\ said c c' xs /\
     lines_read (line_state c) (tight c) ls (ahead c) /\ with_answers (config c) (spec ls) xs) ->
  pools_wf P -> ReadBufferSize cfg = 0 ->
  exists c P' ls xs nc1 n0,
    (forall fuel, (n0 <= fuel)%nat ->
       serve (fun c P => closing (body fuel c) P) choices P nc cfg = Returned (c, P')) /\
    closed c = true /\ netConn c = (net_Close nc1).1 /\
    net_sent nc1 = net_sent nc ++ wire (initial_items cfg ++ xs) /\
    with_answers cfg (spec ls) xs /\ 
    lines_read (calm 65536 nc) (whole_writes nc) ls (incoming_text (net_incoming nc)).
Proof using Type*.
  intros Hbody HP Hr. destruct (accepted Hrel choices P nc cfg HP Hr) as (c & P1 & E & Hc & Hsz & Hl & Hcfg & Hout & Hah & Ht & _).
  destruct (Hbody c Hc Hsz) as (c1 & ls & xs & n0 & Hrun & Hs & Hls & Hw).
  destruct (closing_closes Hrel c1 P1 (sa_talking _ _ _ Hs)) as (c2 & P2 & nc1 & E1 & E2 & Ho & Hn & Hsent).
  exists c2, P2, ls, xs, nc1, n0. split_and!; [|done|done| | |rewrite <- Hah; by eapply lines_read_weaken].
  - intros fuel Hf. unfold serve. by rewrite E, Hrun, E1, E2 by done.
  - by rewrite Hsent, (sa_out _ _ _ Hs), Hout, wire_app, app_assoc.
  - by eapply with_answers_config.
Qed.
End Serving.
