(* ===== verification/ExamplesProps.v ===== *)
(** * ExamplesProps: the sessions of the echo server, of the MUD server and of the client. *)
From Stdlib Require Import String.
From stdpp Require Import relations.
From S2P Require Import Prelude Constants GoSlice GoText Pool ByteQueue RingBuf StaticBuf TelnetParser ParserSpec ParserProps Wire.
From S2P Require Import Options Server NetConn TelnetConn ConnWriter ConnReader ConnLine LineStream ConnSession ConnProps ConnTalk.
From S2P Require Import Color Msdp Mud Examples Sessions.
#[local] Open Scope Z_scope.

(** ** The echo server *)

Definition echo_reply (l : bytes) : list item * option unit :=
  if bool_decide (l = str "quit") then ([IText (str "Goodbye!" ++ crlf)], None)
  else ([IText (str "Echo: "); IText l; IText crlf], Some tt).

Definition echo_welcome : list item :=
  [IText (str "Welcome to the Telnetty Echo Server!" ++ crlf);
   IText (str "Type 'quit' to disconnect." ++ crlf ++ crlf)].

(** What the echo server writes to a peer that sends the lines [ls]. *)
Fixpoint echo_transcript (ls : list bytes) : list item :=
  match ls with
  | [] => []
  | l :: ls' =>
      if bool_decide (l = str "quit") then [IText (str "Goodbye!" ++ crlf)]
      else [IText (str "Echo: "); IText l; IText crlf] ++ echo_transcript ls'
  end.

Lemma echo_items_ok ls : Forall item_ok (echo_transcript ls).
Proof. induction ls as [|l ls IH]; [done|]. cbn [echo_transcript]. case_bool_decide; by repeat constructor. Qed.

Section Echo.
  Context {N Q : Type} `{NetConnLaws N} `{GrowPolicy} `{ByteQueueLaws Q}.
  Context (Hrel : reliable (N := N)).
  Implicit Type c : Conn N Q.

Definition echo_react (_ : unit) (l : bytes) : (Conn N Q -> Conn N Q) * option unit :=
  if bool_decide (l = str "quit") then (fun c => flushOut (put c (str "Goodbye!" ++ crlf)), None)
  else (fun c => flushOut (put (put (put c (str "Echo: ")) l) crlf), Some tt).

Lemma echo_loop_is lfuel fuel : forall c, echo_loop lfuel fuel c = line_loop id echo_react lfuel fuel tt c.
Proof using Type.
  induction fuel as [|fuel IH]; intros c; [done|]. cbn [echo_loop line_loop]. unfold id.
  destruct (ReadLine lfuel c) as [c1 l [e|]| |]; try done. unfold echo_react.
  destruct (bool_decide (l = str "quit")); [done|]. apply IH.
Qed.

Lemma echo_react_tells s l :
  (echo_react s l).2 = (echo_reply l).2 /\ tells (echo_react s l).1 (echo_reply l).1.
Proof using Type*.
  unfold echo_react, echo_reply. destruct (bool_decide _); (split; [done|]); cbn [fst].
  - apply (tells_comp _ _ _ _ (tells_put Hrel _) (tells_flushOut Hrel)).
  - apply (tells_comp _ _ _ _ (tells_comp _ _ _ _ (tells_comp _ _ _ _
      (tells_put Hrel _) (tells_put Hrel _)) (tells_put Hrel _)) (tells_flushOut Hrel)).
Qed.

Lemma echo_dialogue ls : dialogue [] (fun _ => echo_reply) tt ls = echo_transcript ls.
Proof using Type.
  induction ls as [|l ls IH]; [done|]. cbn [dialogue echo_transcript]. unfold echo_reply at 1.
  destruct (bool_decide _); [done|]. by rewrite IH.
Qed.

Lemma echo_greet_tells : tells echo_greet echo_welcome.
Proof using Type*.
  apply (tells_comp _ _ _ _ (tells_comp _ _ _ _ (tells_put Hrel _) (tells_put Hrel _)) (tells_flushOut Hrel)).
Qed.

Context (measure : N -> nat) (Hnet : ends measure).

(** The handler up to its deferred [Close]. *)
Lemma echo_runs c :
  talking c -> 0 < sl_len (readScratch c) ->
  exists c' ls xs n0,
    (forall fuel, (n0 <= fuel)%nat -> echo_loop fuel fuel (echo_greet c) = Returned c') /\
    said c c' xs /\ lines_read (line_state c) (tight c) ls (ahead c) /\
    with_answers (config c) (echo_welcome ++ echo_transcript ls) xs.
Proof using Type*.
  intros Hc Hl. pose proof (echo_greet_tells c Hc) as Hg.
  destruct (line_session Hrel measure Hnet id echo_react [] (fun _ => echo_reply)
    (fun c Hc => speaks_refl c Hc) echo_react_tells (echo_greet c) tt) as (c' & ls & xs & n0 & E & Hs & Hls & Hw);
    [apply (sk_said _ _ _ Hg)|by rewrite (fr_readScratch _ _ (sk_frame _ _ _ Hg))|].
  exists c', ls, (echo_welcome ++ xs), n0. rewrite (speaks_ahead _ _ _ Hg) in Hls. split_and!;
    [|by eapply said_trans; [apply Hg|]|eapply lines_read_weaken; [| |exact Hls]; [by eapply speaks_line_state|by eapply speaks_tight]|].
  - intros fuel Hf. rewrite echo_loop_is. by apply E.
  - apply with_answers_app; [apply with_answers_refl|]. rewrite <- echo_dialogue.
    by rewrite <- (sa_config _ _ _ (sk_said _ _ _ Hg)).
Qed.
End Echo.

(** ** The MUD server *)

(** A coloured text is three writes. *)
Definition colored (h : store) (color : Color) (text : bytes) : list item :=
  [IText (ANSI h color); IText text; IText Reset].

Section MudTranscript.
  Context `{GrowPolicy} (json_Marshal : list (bytes * bytes) -> bytes + Z).
  Context (visit : nat -> list (bytes * MSDPValue) -> list (bytes * MSDPValue)).

(** Whether [Core.Hello] is sent depends on the encoder; the title's colour has a new array. *)
Definition mud_welcome (now : Z) (h : store) : list item :=
  [ISub OptMSSP (MarshalMSSP (mssp_vars now))] ++
  match json_Marshal core_hello with
  | inl b => [ISub OptGMCP (str "Core.Hello" ++ [32] ++ b)]
  | inr _ => []
  end ++
  colored (Bold h Cyan).1 (Bold h Cyan).2 (str "Welcome to TelnettyMUD!" ++ crlf) ++
  colored (Bold h Cyan).1 Yellow (str "=========================" ++ crlf ++ crlf).

Definition mud_reply (h : store) (n : nat) (l : bytes) : list item * option nat :=
  if bool_decide (l = str "look") then
    (colored h Green (str "You are in a vast digital realm." ++ crlf), Some n)
  else if bool_decide (l = str "score") then
    ([ISub OptMSDP (MarshalMSDP (visit n (msdp_data player)));
      IText (score_line player)], Some (S n))
  else if bool_decide (l = str "quit") then
    (colored h Magenta (str "Farewell, brave adventurer!" ++ crlf), None)
  else ([IText (str "Unknown command. Try: look, score, quit" ++ crlf)], Some n).

(** What the MUD server writes to a peer that sends the lines [ls]: a prompt before each. *)
Definition mud_transcript (h : store) : list bytes -> list item :=
  dialogue [IText (str "> ")] (mud_reply h) 0%nat.
End MudTranscript.

(** The table of a score is read back, in whatever order it was written. *)
Lemma msdp_data_read_back t :
  t ≡ₚ msdp_data player ->
  exists fuel, UnmarshalMSDP fuel (MarshalMSDP t) = Some (Parsed t).
Proof.
  intros Ht. exists (S (entries_size t)). apply (unmarshal_ok t [] []); [| | |lia].
  - rewrite Ht. unfold key_ok. by_decide.
  - rewrite Ht. by_decide.
  - assert (Hok : Forall (fun kv => msdp_ok kv.2) t) by (rewrite Ht; repeat constructor).
    eapply Forall_impl; [exact Hok|]. intros [k v] Hv. by eapply msdp_parses.
Qed.

Section Mud.
  Context {N Q : Type} `{NetConnLaws N} `{GrowPolicy} `{ByteQueueLaws Q}.
  Context (Hrel : reliable (N := N)).
  Context (json_Marshal : list (bytes * bytes) -> bytes + Z).
  Context (visit : nat -> list (bytes * MSDPValue) -> list (bytes * MSDPValue)).
  Implicit Type c : Conn N Q.

Definition mud_prompt c : Conn N Q := flushOut (put c (str "> ")).

Definition mud_react (h : store) (n : nat) (l : bytes) : (Conn N Q -> Conn N Q) * option nat :=
  if bool_decide (l = str "look") then
    (fun c => flushOut (putColor h c (str "You are in a vast digital realm." ++ crlf) Green), Some n)
  else if bool_decide (l = str "score") then
    (fun c => flushOut (put (flushOut
       (SendSubnegotiation c OptMSDP (MarshalMSDP (visit n (msdp_data player)))).1)
       (score_line player)), Some (S n))
  else if bool_decide (l = str "quit") then
    (fun c => flushOut (putColor h c (str "Farewell, brave adventurer!" ++ crlf) Magenta), None)
  else (fun c => flushOut (put c (str "Unknown command. Try: look, score, quit" ++ crlf)), Some n).

Lemma mud_loop_is lfuel fuel h : forall n c,
  mud_loop visit lfuel fuel h n c = line_loop mud_prompt (mud_react h) lfuel fuel n c.
Proof using Type.
  induction fuel as [|fuel IH]; intros n c; [done|]. cbn [mud_loop line_loop].
  fold (mud_prompt c). destruct (ReadLine lfuel (mud_prompt c)) as [c1 l [e|]| |]; try done. unfold mud_react.
  destruct (bool_decide _); [apply IH|]. destruct (bool_decide _); [apply IH|].
  destruct (bool_decide _); [done|]. apply IH.
Qed.

Lemma mud_prompt_tells : tells mud_prompt [IText (str "> ")].
Proof using Type*. apply (tells_comp _ _ _ _ (tells_put Hrel _) (tells_flushOut Hrel)). Qed.

Lemma mud_react_tells h n l :
  (mud_react h n l).2 = (mud_reply visit h n l).2 /\ tells (mud_react h n l).1 (mud_reply visit h n l).1.
Proof using Type*.
  unfold mud_react, mud_reply. pose proof (tells_flushOut Hrel) as Hf.
  destruct (bool_decide _); [|destruct (bool_decide _); [|destruct (bool_decide _)]]; (split; [done|]); cbn [fst].
  - apply (tells_comp _ _ _ _ (tells_color Hrel _ _ _) Hf).
  - apply (tells_comp _ _ _ _ (tells_comp _ _ _ _ (tells_comp _ _ _ _ (tells_sub Hrel _ _) Hf) (tells_put Hrel _)) Hf).
  - apply (tells_comp _ _ _ _ (tells_color Hrel _ _ _) Hf).
  - apply (tells_comp _ _ _ _ (tells_put Hrel _) Hf).
Qed.

Lemma tells_GMCP pkg data :
  tells (fun c => (SendGMCP json_Marshal c pkg (Value data)).1)
    (match json_Marshal data with inl b => [ISub OptGMCP (pkg ++ [32] ++ b)] | inr _ => [] end).
Proof using Type*.
  intros c Hc. unfold SendGMCP, MarshalGMCP. destruct (json_Marshal data) as [b|err]; [|by apply speaks_refl].
  rewrite app_assoc. pose proof (tells_sub Hrel OptGMCP ((pkg ++ [32]) ++ b) c Hc) as Hs. cbn beta in Hs.
  by destruct (SendSubnegotiation c OptGMCP ((pkg ++ [32]) ++ b)) as [c' e].
Qed.

Lemma mud_greet_tells now h :
  tells (fun c => (mud_greet json_Marshal now h c).2) (mud_welcome json_Marshal now h) /\
  forall c, (mud_greet json_Marshal now h c).1 = (Bold h Cyan).1.
Proof using Type*.
  unfold mud_welcome, mud_greet. destruct (Bold h Cyan) as [h1 cyan]. cbn [fst snd]. split; [|done].
  pose proof (tells_flushOut Hrel) as Hf.
  pose proof (tells_comp _ _ _ _ (tells_sub Hrel OptMSSP (MarshalMSSP (mssp_vars now))) Hf) as T1.
  pose proof (tells_comp _ _ _ _ (tells_comp _ _ _ _ T1 (tells_GMCP (str "Core.Hello") core_hello)) Hf) as T2.
  pose proof (tells_comp _ _ _ _ T2 (tells_color Hrel h1 (str "Welcome to TelnettyMUD!" ++ crlf) cyan)) as T3.
  pose proof (tells_comp _ _ _ _ T3 (tells_color Hrel h1 (str "=========================" ++ crlf ++ crlf) Yellow)) as T4.
  pose proof (tells_comp _ _ _ _ T4 Hf) as T5. rewrite !app_nil_r, <- !app_assoc in T5. exact T5.
Qed.

Context (measure : N -> nat) (Hnet : ends measure).

Lemma mud_runs now h c :
  talking c -> 0 < sl_len (readScratch c) ->
  exists c' ls xs n0,
    (forall fuel, (n0 <= fuel)%nat ->
       (let '(h, c) := mud_greet json_Marshal now h c in mud_loop visit fuel fuel h 0 c) = Returned c') /\
    said c c' xs /\ lines_read (line_state c) (tight c) ls (ahead c) /\
    with_answers (config c) (mud_welcome json_Marshal now h ++ mud_transcript visit (Bold h Cyan).1 ls) xs.
Proof using Type*.
  intros Hc Hl. destruct (mud_greet_tells now h) as [Hg Hh]. specialize (Hg c Hc). specialize (Hh c). cbn beta in Hg.
  destruct (mud_greet json_Marshal now h c) as [h1 c1]. cbn [fst snd] in *. subst h1.
  destruct (line_session Hrel measure Hnet mud_prompt (mud_react (Bold h Cyan).1) _ (mud_reply visit (Bold h Cyan).1)
    mud_prompt_tells (mud_react_tells _) c1 0%nat) as (c' & ls & xs & n0 & E & Hs & Hls & Hw);
    [apply (sk_said _ _ _ Hg)|by rewrite (fr_readScratch _ _ (sk_frame _ _ _ Hg))|].
  exists c', ls, (mud_welcome json_Marshal now h ++ xs), n0. rewrite (speaks_ahead _ _ _ Hg) in Hls.
  split_and!;
    [|by eapply said_trans; [apply Hg|]|eapply lines_read_weaken; [| |exact Hls]; [by eapply speaks_line_state|by eapply speaks_tight]|].
  - intros fuel Hf. rewrite mud_loop_is. by apply E.
  - apply with_answers_app; [apply with_answers_refl|]. by rewrite <- (sa_config _ _ _ (sk_said _ _ _ Hg)).
Qed.
End Mud.

(** ** Every session ends *)

Section Ending.
  Context {N : Type} `{NetConnLaws N} `{GrowPolicy}.
  Context (measure : N -> nat) (Hnet : ends measure).
  Context (json_Marshal : list (bytes * bytes) -> bytes + Z).
  Context (visit : nat -> list (bytes * MSDPValue) -> list (bytes * MSDPValue)).

Lemma some_greet now h : sends_some (fun c : Conn N Ring => (mud_greet json_Marshal now h c).2).
Proof using Type.
  unfold mud_greet. destruct (Bold h Cyan) as [h1 cyan]. cbn [snd].
  assert (Hg : sends_some (fun c : Conn N Ring => (SendGMCP json_Marshal c (str "Core.Hello") (Value core_hello)).1)).
  { intros c Hc. unfold SendGMCP, MarshalGMCP. destruct (json_Marshal core_hello) as [b|err]; [|done].
    pose proof (some_sub OptGMCP ((str "Core.Hello" ++ [32]) ++ b) c Hc) as Hs. cbn beta in Hs.
    by destruct (SendSubnegotiation c OptGMCP _) as [c' e]. }
  pose proof (some_comp _ _ (some_comp _ _ (some_sub OptMSSP (MarshalMSSP (mssp_vars now))) some_flushOut)
    (some_comp _ _ Hg some_flushOut)) as T1.
  exact (some_comp _ _ T1 (some_comp _ _ (some_comp _ _ (some_color h1 _ cyan) (some_color h1 _ Yellow)) some_flushOut)).
Qed.

Lemma some_mud_react h n l : sends_some (mud_react (N := N) (Q := Ring) visit h n l).1.
Proof using Type.
  unfold mud_react. repeat (destruct (bool_decide _)); cbn [fst].
  - apply (some_comp _ _ (some_color _ _ _) some_flushOut).
  - apply (some_comp _ _ (some_comp _ _ (some_comp _ _ (some_sub _ _) some_flushOut) (some_put _)) some_flushOut).
  - apply (some_comp _ _ (some_color _ _ _) some_flushOut).
  - apply (some_comp _ _ (some_put _) some_flushOut).
Qed.

Lemma some_echo_react s l : sends_some (echo_react (N := N) (Q := Ring) s l).1.
Proof using Type.
  unfold echo_react. destruct (bool_decide _); cbn [fst].
  - apply (some_comp _ _ (some_put _) some_flushOut).
  - apply (some_comp _ _ (some_comp _ _ (some_comp _ _ (some_put _) (some_put _)) (some_put _)) some_flushOut).
Qed.

(** C13: every session ends. Whatever becomes of what is written, on a network that does
    not deliver for ever (a measure falls with every read that brings bytes or no error,
    and does not grow with writes), the server's goroutine for a connection returns, with
    the echo handler and with the MUD handler, without a panic, and the connection is
    closed: a client that goes away, sends chunks of any size or fails writes never leaves
    a handler behind. *)
Theorem sessions_end choices P nc now h :
  pools_wf P ->
  (exists c P' n0,
     (forall fuel, (n0 <= fuel)%nat -> serve (handleConn fuel) choices P nc echo_config = Returned (c, P')) /\
     closed c = true) /\
  (exists c P' n0,
     (forall fuel, (n0 <= fuel)%nat ->
        serve (handleMUDConn json_Marshal visit now h fuel) choices P nc mud_config = Returned (c, P')) /\
     closed c = true).
Proof using Type*.
  intros HP. split.
  - assert (Hbody : forall c : Conn N Ring, conn_ok c -> 0 < sl_len (readScratch c) ->
      exists c' n0, forall fuel, (n0 <= fuel)%nat -> echo_loop fuel fuel (echo_greet c) = Returned c').
    { intros c Hc Hsz. destruct (some_potential measure Hnet echo_greet c
        (some_comp _ _ (some_comp _ _ (some_put _) (some_put _)) some_flushOut) Hc) as (Hg & Hgs & _).
      destruct (line_ends measure Hnet id echo_react (fun c Hc => conj (reflexivity c) Hc) some_echo_react _ tt Hg)
        as (c' & n0 & Hrun); [by rewrite Hgs|].
      exists c', n0. intros fuel Hf. rewrite echo_loop_is. by apply Hrun. }
    exact (served_ends (fun fuel c => echo_loop fuel fuel (echo_greet c)) choices P nc echo_config Hbody HP eq_refl).
  - destruct (served_ends (fun fuel c => let '(h, c) := mud_greet json_Marshal now h c in mud_loop visit fuel fuel h 0 c)
      choices P nc mud_config) as (c & P' & n0 & E & Ho); [|done|done|].
    + intros c Hc Hsz. destruct (some_potential measure Hnet _ c (some_greet now h) Hc) as (Hg & Hgs & _).
      destruct (mud_greet json_Marshal now h c) as [h1 c1]. cbn [snd] in Hg, Hgs.
      destruct (line_ends measure Hnet mud_prompt (mud_react visit h1) (some_comp _ _ (some_put _) some_flushOut)
        (some_mud_react h1) c1 0%nat Hg) as (c' & n0 & Hrun); [by rewrite Hgs|].
      exists c', n0. intros fuel Hf. rewrite mud_loop_is. by apply Hrun.
    + exists c, P', n0. split; [|done]. intros fuel Hf. rewrite <- (E fuel Hf). unfold serve, handleMUDConn.
      destruct (NewConn choices P nc mud_config) as [[c0 P0]|]; [|done]. by destruct (mud_greet json_Marshal now h c0).
Qed.
End Ending.

(** ** Serving *)

Section Served.
  Context {N : Type} `{NetConnLaws N} `{GrowPolicy}.
  Context (Hrel : reliable (N := N)) (measure : N -> nat) (Hnet : ends measure).

(** C12: the echo server echoes. On a network that takes what it is given ([reliable]) and
    does not deliver for ever ([ends]), the server's goroutine for a connection runs to its
    end without a panic: it sends the initial offers, the welcome, and for each line that
    it read, up to a line "quit", its echo, then (after "quit") the farewell; between these
    only whole answers to the peer's commands that the configuration allows. All of it has
    been sent when the network connection is closed. In a calm conversation (no read
    brings more than 1024 bytes or, beyond 128 bytes, more than 63 IACs, and errors come
    only at the end) the lines read are those of the text that the TELNET decoder finds in
    the peer's bytes, in order and without their endings (of a CR LF the CR may stay when a
    read without text came between, which does not happen where the peer's writes are
    whole and the network never returns nothing). *)
Theorem echo_session choices P nc :
  pools_wf P ->
  exists c P' ls xs nc1 n0,
    (forall fuel, (n0 <= fuel)%nat ->
       serve (handleConn fuel) choices P nc echo_config = Returned (c, P')) /\
    closed c = true /\ netConn c = (net_Close nc1).1 /\
    net_sent nc1 = net_sent nc ++ wire (initial_items echo_config ++ xs) /\
    with_answers echo_config (echo_welcome ++ echo_transcript ls) xs /\
    lines_read (calm 65536 nc) (whole_writes nc) ls (incoming_text (net_incoming nc)).
Proof using Type*.
  intros HP. exact (served Hrel (fun fuel c => echo_loop fuel fuel (echo_greet c))
    (fun ls => echo_welcome ++ echo_transcript ls) choices P nc echo_config
    (echo_runs Hrel measure Hnet) HP eq_refl).
Qed.

(** C26: a session of the MUD server. On a network that takes what it is given and does not
    deliver for ever, and whatever the encoder of JSON does, the goroutine runs to its end
    without a panic; it has sent the MSSP table, the GMCP greeting (if the encoder did not
    fail), the title in colours, and then before each line a prompt and after it the reply
    to the command the line is, up to "quit" or the end of the input, with allowed answers
    between. In a calm conversation (as for the echo server) the lines are those of the
    peer's text. A score carries the MSDP table of the player, which a peer reads back
    whatever the order Go's map had. *)
Theorem mud_session choices P nc json_Marshal visit now h :
  pools_wf P -> (forall n l, visit n l ≡ₚ l) ->
  exists c P' ls xs nc1 n0,
    (forall fuel, (n0 <= fuel)%nat ->
       serve (handleMUDConn json_Marshal visit now h fuel) choices P nc mud_config = Returned (c, P')) /\
    closed c = true /\ netConn c = (net_Close nc1).1 /\
    net_sent nc1 = net_sent nc ++ wire (initial_items mud_config ++ xs) /\
    with_answers mud_config (mud_welcome json_Marshal now h ++ mud_transcript visit (Bold h Cyan).1 ls) xs /\
    lines_read (calm 65536 nc) (whole_writes nc) ls (incoming_text (net_incoming nc)) /\
    forall n, let t := visit n (msdp_data player) in
      exists fuel, UnmarshalMSDP fuel (MarshalMSDP t) = Some (Parsed t).
Proof using Type*.
  intros HP Hv.
  destruct (served Hrel (fun fuel c => let '(h, c) := mud_greet json_Marshal now h c in mud_loop visit fuel fuel h 0 c)
    (fun ls => mud_welcome json_Marshal now h ++ mud_transcript visit (Bold h Cyan).1 ls) choices P nc mud_config
    (mud_runs Hrel json_Marshal visit measure Hnet now h) HP eq_refl)
    as (c & P' & ls & xs & nc1 & n0 & E & Ho & Hn & Hs & Hw & Hls).
  exists c, P', ls, xs, nc1, n0. split; [|by repeat (split; [done|]); intros n; apply msdp_data_read_back, Hv].
  intros fuel Hf. rewrite <- (E fuel Hf). unfold serve, handleMUDConn.
  destruct (NewConn choices P nc mud_config) as [[c0 P0]|]; [|done].
  by destruct (mud_greet json_Marshal now h c0).
Qed.
End Served.

(** ** The client *)

Lemma scanner_lines_no_lf fuel : forall text, Forall (fun l => 10 ∉ l) (scanner_lines fuel text).
Proof.
  assert (Hs : forall l, 10 ∉ l -> 10 ∉ strip_cr l).
  { intros l Hl. unfold strip_cr. case_decide; [|done]. destruct l as [|b l _] using rev_ind; [done|].
    rewrite removelast_last. intros Hin. apply Hl, elem_of_app. by left. }
  induction fuel as [|fuel IH]; intros text; cbn [scanner_lines]; [done|].
  destruct (cut text) as [[pre rest]|] eqn:E.
  - apply cut_Some in E as [_ Hn]. destruct (_ <? _); [|done]. constructor; [by apply Hs|done].
  - apply cut_None in E. case_bool_decide; [done|]. destruct (_ <? _); [|done]. constructor; [by apply Hs|done].
Qed.

(** The writes of the client: each line, and each line's ending. *)
Definition client_writes (ls : list bytes) : list item := ls ≫= fun l => [IText l; IText crlf].

Lemma client_writes_lines ls :
  Forall (fun l => 10 ∉ l) ls -> strip_cr <$> whole_lines (texts (client_writes ls)) = ls.
Proof.
  induction 1 as [|l ls Hl _ IH]; [done|].
  change (texts (client_writes (l :: ls))) with (l ++ crlf ++ texts (client_writes ls)).
  unfold crlf. cbn [app]. rewrite whole_lines_cut.
  change (l ++ 13 :: 10 :: ?r) with (l ++ [13] ++ 10 :: r). rewrite app_assoc, cut_app.
  - cbn [fmap list_fmap]. rewrite IH. by rewrite strip_cr_snoc.
  - rewrite elem_of_app. intros [?|Hin%list_elem_of_singleton]; done.
Qed.

Lemma client_writes_ok ls :
  Forall (fun l => 10 ∉ l) ls -> Forall item_ok (client_writes ls) /\ Forall no_initial_lf (client_writes ls).
Proof.
  induction 1 as [|l ls Hl _ [IHo IHn]]; [done|]. split; (constructor; [|by constructor]); [done|].
  destruct l as [|b l]; [done|]. cbn. intros [= ->]. apply Hl. left.
Qed.

Section Client.
  Context {N Q : Type} `{NetConnLaws N} `{GrowPolicy} `{ByteQueueLaws Q}.
  Implicit Type c : Conn N Q.

Section Sending.
Context (Hrel : reliable (N := N)).

Lemma send_loop_speaks ls : forall c,
  talking c -> speaks c (send_loop ls c) (client_writes ls) /\
    (w_bytes c = [] -> w_bytes (send_loop ls c) = []).
Proof using Type*.
  induction ls as [|l ls IH]; intros c Hc; cbn [send_loop]; [by split; [apply speaks_refl|]|].
  pose proof (tells_comp _ _ _ _ (tells_put Hrel l) (tells_put Hrel crlf) c Hc) as S1. cbn beta in S1.
  destruct (Flush_speaks Hrel _ (sa_talking _ _ _ (sk_said _ _ _ S1))) as [S2 Hw].
  pose proof (speaks_trans _ _ _ _ _ S1 S2) as S12. fold (flushOut (put (put c l) crlf)) in *.
  destruct (IH _ (sa_talking _ _ _ (sk_said _ _ _ S12))) as [S3 Hw3]. split; [|intros _; by apply Hw3].
  exact (speaks_trans _ _ _ _ _ S12 S3).
Qed.
End Sending.

Context (measure : N -> nat) (Hnet : ends measure).

(** The reading goroutine prints all the text there is, and ends with the stream. *)
Lemma read_loop_prints c stdout :
  line_state c -> closed c = false ->
  exists c' n0, forall fuel, (n0 <= fuel)%nat ->
    read_loop fuel c stdout = Returned (c', stdout ++ ahead c).
Proof using Type*.
  remember (potential measure c) as k eqn:Ek. revert c Ek stdout.
  induction (lt_wf k) as [k _ IH]. intros c -> stdout Hl Ho.
  destruct (line_read c 4096 Hl ltac:(lia)) as (c1 & bs & e & E & Hr & Hq0 & _ & _ & Hah & Hend).
  pose proof (read_lowers_potential measure (en_read _ Hnet) (en_write _ Hnet) c 4096 c1 bs e
    (ls_ok _ Hl) (ls_scratch _ Hl) ltac:(lia) Hr) as Hpot.
  destruct e as [e|].
  - destruct Hend as [-> Hnil]; [done|]. exists c1, 1%nat. intros [|fuel] Hf; [lia|].
    cbn [read_loop]. rewrite Read_open, E by done. by rewrite Hah, Hnil, app_nil_r.
  - specialize (Hpot (or_intror eq_refl)). pose proof (rr_setup _ _ _ _ _ Hr) as Hss.
    destruct (IH (potential measure c1) ltac:(lia) c1 eq_refl (stdout ++ bs)) as (c' & n0 & Hrun).
    + split; [apply Hr|by rewrite (ss_scratch _ _ Hss); apply Hl|by rewrite (ss_cap _ _ Hss); apply Hl|
        rewrite Hq0; simpl; lia|exact (read_calm c 4096 c1 bs None (ls_calm _ Hl) Hr)].
    + by rewrite (ss_closed _ _ Hss).
    + exists c', (S n0). intros [|fuel] Hf; [lia|]. cbn [read_loop]. rewrite Read_open, E by done.
      rewrite Hrun by lia. by rewrite Hah, app_assoc.
Qed.
End Client.

(** What the client reports of an event, whose data are a window of the parser's buffer. *)
Definition report {N Q} (c : Conn N Q) (e : event) : bytes :=
  match ev_typ e with
  | eventCommand => str "[CMD] " ++ Itoa (ev_cmd e) ++ str " " ++ Itoa (ev_option e) ++ [10]
  | eventSubnegotiation => str "[SN] option=" ++ Itoa (ev_option e) ++ str " len=" ++
      Itoa (zlen (take (Z.to_nat (ev_data e)) (sl_arr (sbuf (snBuf (parser c)))))) ++ [10]
  | _ => []
  end.

(** The dispatcher of the client reports the queued events in order, and has no callback
    for data and errors. *)
Lemma client_reports {N Q} `{NetConn N} (c : Conn N Q) es stderr :
  events c = Some es ->
  dispatch_events (length es) c stderr = (set_events c (Some []), stderr ++ (es ≫= report c)).
Proof.
  revert c stderr. induction es as [|e es IH]; intros c stderr E; cbn [dispatch_events length].
  { rewrite app_nil_r. by destruct c; simplify_eq/=. }
  unfold dispatch. rewrite E, IH by done. cbn [mbind list_bind]. rewrite app_assoc. f_equal.
  assert (Hr : es ≫= report (set_events c (Some es)) = es ≫= report c) by done. rewrite Hr. f_equal.
  unfold report, handler_On, event_handler. destruct (ev_typ e); cbn [DataFunc CmdFunc SNFunc ErrFunc]; by rewrite ?app_nil_r.
Qed.

(** ** The client and the echo server *)

Lemma with_answers_no_lf cfg ys xs : with_answers cfg ys xs -> Forall no_initial_lf ys -> Forall no_initial_lf xs.
Proof.
  induction 1 as [|y ys xs _ IH|x ys xs Hx _ IH]; intros Hlf; [done| |].
  - apply Forall_cons_1 in Hlf as [? ?]. constructor; auto.
  - constructor; [|auto]. by destruct Hx as (resp & opt & -> & _).
Qed.

(** What a new connection finds in a stream of items. *)
Lemma incoming_text_wire xs : Forall item_ok xs -> incoming_text (wire xs) = texts xs.
Proof.
  intros Hok. unfold incoming_text. pose proof (decode_wire (sn_cap NewParser) ltac:(done) xs Hok) as Hd.
  destruct (ParserSpec.decode _ _ _) as [d os]. by destruct Hd as (_ & Hd & _).
Qed.

Section EndToEnd.
  Context {Nc Ns : Type} `{NetConnLaws Nc} `{NetConnLaws Ns} `{GrowPolicy}.
  Context (Hrel_c : reliable (N := Nc)) (Hrel_s : reliable (N := Ns)).
  Context (measure_c : Nc -> nat) (Hnet_c : ends measure_c).
  Context (measure_s : Ns -> nat) (Hnet_s : ends measure_s) (Hbrisk : brisk (N := Ns)).

(** What the server reads of the client's writes are the lines, in the good case. *)
Lemma echo_reads stdin zs :
  with_answers client_config (client_writes (Scan stdin)) zs ->
  forall ns : Ns, net_incoming ns = wire (initial_items client_config ++ zs) ->
  whole_writes ns /\ strip_cr <$> whole_lines (incoming_text (net_incoming ns)) = Scan stdin.
Proof using Type*.
  intros Hzs ns Hin. pose proof (scanner_lines_no_lf (S (length stdin)) stdin) as Hlf. fold (Scan stdin) in Hlf.
  destruct (client_writes_ok _ Hlf) as [Hok Hno].
  pose proof (with_answers_ok _ _ _ Hzs Hok) as Hzok. pose proof (with_answers_no_lf _ _ _ Hzs Hno) as Hzno.
  assert (Hall : Forall item_ok (initial_items client_config ++ zs)).
  { apply Forall_app. split; [by repeat constructor|done]. }
  split.
  - split; [done|]. eexists. split; [exact Hin|]. split; [done|]. right. apply Forall_app. split; [by repeat constructor|done].
  - rewrite Hin, incoming_text_wire, texts_app by done.
    destruct (with_answers_texts _ _ _ Hzs) as [-> _]. by apply client_writes_lines.
Qed.

(** C7: the client and the echo server, end to end, over networks that take what they are
    given, do not deliver for ever and (the server's) never return nothing. The client's
    main goroutine sends its offers and then, escaped and flushed, each line of the
    standard input that its scanner finds. Let the server receive these, with answers of
    the client's reading goroutine anywhere between the writes, in a calm conversation
    (no read brings more than 1024 bytes or, beyond 128 bytes, more than 63 IACs). Then the
    server's goroutine ends without a panic; and when the client receives all it has sent,
    in a calm conversation too, its reading goroutine prints exactly the welcome and the
    echo of each line up to "quit" (then the farewell): the negotiation in both directions,
    the escaping and the buffering leave no trace. *)
Theorem client_and_echo_server choices_c choices_s Pc Ps (nc : Nc) (ns : Ns) stdin :
  pools_wf Pc -> pools_wf Ps -> net_sent nc = [] -> net_sent ns = [] ->
  exists c Pc', NewConn choices_c Pc nc client_config = Some (c, Pc') /\
    let lines := Scan stdin in
    let c1 := send_loop lines c in
    net_sent (netConn c1) = wire (initial_items client_config ++ client_writes lines) /\
    forall zs, with_answers client_config (client_writes lines) zs -> calm 65536 ns ->
      net_incoming ns = wire (initial_items client_config ++ zs) ->
      exists s Ps' ns1 n0,
        (forall fuel, (n0 <= fuel)%nat ->
           serve (handleConn fuel) choices_s Ps ns echo_config = Returned (s, Ps')) /\
        netConn s = (net_Close ns1).1 /\
        (net_incoming nc = net_sent ns1 -> calm 65536 nc ->
         exists c2 n1, forall fuel, (n1 <= fuel)%nat ->
           read_loop fuel c1 [] = Returned (c2, texts (echo_welcome ++ echo_transcript lines))).
Proof using Type*.
  intros HPc HPs Hsc Hss.
  destruct (accepted Hrel_c choices_c Pc nc client_config HPc eq_refl)
    as (c & Pc' & E & Hc & _ & Hl & _ & Hout & Hah & _ & Hw).
  exists c, Pc'. split; [done|]. intros lines c1.
  destruct (send_loop_speaks Hrel_c lines c Hc) as [Hsp Hw1]. specialize (Hw1 Hw). fold c1 in Hsp, Hw1.
  pose proof (sa_out _ _ _ (sk_said _ _ _ Hsp)) as Hout1. unfold out at 1 in Hout1.
  rewrite Hw1, app_nil_r, Hout, Hsc in Hout1. cbn [app] in Hout1. rewrite <- wire_app in Hout1.
  split; [done|]. intros zs Hzs Hcalm Hin.
  destruct (echo_reads stdin zs Hzs ns Hin) as [Htext Hlines].
  destruct (echo_session Hrel_s measure_s Hnet_s choices_s Ps ns HPs)
    as (s & Ps' & ls & ys & ns1 & n0 & Hrun & _ & Hns & Hsent & Hwa & Hls).
  destruct (Hls Hcalm) as [_ Hls']. rewrite Hls', Hlines in Hwa by done. rewrite Hss in Hsent. cbn [app] in Hsent.
  exists s, Ps', ns1, n0. split; [done|]. split; [done|]. intros Hback Hcalm_c.
  destruct (read_loop_prints measure_c Hnet_c c1 []) as (c2 & n1 & Hr).
  { eapply speaks_line_state; [exact Hsp|by apply Hl]. }
  { apply (sk_said _ _ _ Hsp). }
  exists c2, n1. intros fuel Hf. rewrite (Hr fuel Hf). do 2 f_equal. cbn [app].
  rewrite (speaks_ahead _ _ _ Hsp), Hah, Hback, Hsent.
  destruct (with_answers_texts _ _ _ Hwa) as [Ht _].
  rewrite incoming_text_wire, texts_app, Ht; [done|]. apply Forall_app. split; [by repeat constructor|].
  apply (with_answers_ok _ _ _ Hwa), Forall_app. split; [by repeat constructor|apply echo_items_ok].
Qed.
End EndToEnd.

(** ** Witnesses *)

#[local] Existing Instance doubling.

(** A network that delivers like the window and takes nothing. *)
Record MuteConn := Mute { window : WindowConn }.

#[local] Instance MuteConn_NetConn : NetConn MuteConn := {
  net_Read n sz := let '(w, res) := net_Read (window n) sz in (Mute w, res);
  net_Write n p := (n, (0, if zlen p =? 0 then None else Some (NetError 1)));
  net_Close n := (n, None)
}.

#[local] Instance MuteConn_Laws : NetConnLaws MuteConn.
Proof.
  refine {| net_sent n := []; net_incoming n := net_incoming (window n) |}.
  - intros [w] sz Hsz. pose proof (net_Read_ok w sz Hsz) as Hr. unfold net_Read at 1, MuteConn_NetConn. cbn [window].
    destruct (net_Read w sz) as [w' [data e]]. by destruct Hr as (? & ? & ? & _).
  - intros [w] p. unfold net_Write, MuteConn_NetConn. pose proof (zlen_nonneg p).
    destruct (Z.eqb_spec (zlen p) 0); split_and!; done || lia.
Defined.

Lemma mute_ends : ends (fun n => window_measure (window n)).
Proof.
  destruct window_ends as [Hr _]. split; [|done]. intros [w] sz Hsz. specialize (Hr w sz Hsz).
  unfold net_Read at 1, MuteConn_NetConn. cbn [window]. by destruct (net_Read w sz) as [w' [data e]].
Qed.

Lemma sessions_end_witness :
  exists c P' n0,
    (forall fuel, (n0 <= fuel)%nat ->
       serve (handleConn (N := MuteConn) fuel) (0, 0, 0)%nat empty_pools
         (Mute (Window (str "hi" ++ [10]) [])) echo_config = Returned (c, P')) /\ closed c = true.
Proof.
  exact (proj1 (sessions_end _ mute_ends (fun _ => inr 1) (fun _ l => l) (0, 0, 0)%nat empty_pools
    (Mute (Window (str "hi" ++ [10]) [])) 7 [] empty_pools_wf)).
Defined.

Lemma window_reliable : reliable (N := WindowConn).
Proof. done. Qed.

(** A run that ended is the run for any more fuel. *)
Lemma echo_loop_more {N Q} `{NetConn N} `{GrowPolicy} `{ByteQueue Q} lf lf' f : forall f' (c c' : Conn N Q),
  (lf <= lf')%nat -> (f <= f')%nat -> echo_loop lf f c = Returned c' -> echo_loop lf' f' c = Returned c'.
Proof.
  induction f as [|f IH]; intros [|f'] c c' Hl Hf E; [done|done|lia|]. cbn [echo_loop] in *.
  destruct (ReadLine lf c) as [c1 l e| |] eqn:E1; [|done|done].
  unfold ReadLine in *. rewrite (ReadLine_loop_more lf lf' c [] c1 l e Hl E1).
  destruct e; [done|]. destruct (bool_decide _); [done|]. apply IH; [done|lia|done].
Qed.

Lemma echo_served_once fuel n0 nc cfg s P s' P' :
  serve (handleConn (N := WindowConn) fuel) (0, 0, 0)%nat empty_pools nc cfg = Returned (s, P) ->
  (forall f, (n0 <= f)%nat -> serve (handleConn f) (0, 0, 0)%nat empty_pools nc cfg = Returned (s', P')) ->
  s' = s.
Proof.
  intros E Hf. specialize (Hf (max fuel n0) ltac:(lia)). revert E Hf.
  unfold serve, handleConn, closing. destruct (NewConn _ _ _ _) as [[c P1]|]; [|done].
  destruct (echo_loop fuel fuel (echo_greet c)) as [c1| |] eqn:E1; [|done|done].
  rewrite (echo_loop_more fuel (max fuel n0) fuel (max fuel n0) _ c1) by (done || lia).
  destruct (Close c1 P1) as [[c2 P2] e2]. destruct (Close c2 P2) as [[c3 P3] e3]. congruence.
Qed.

(** "hi" and "quit" typed at the client. *)
Definition typed : bytes := str "hi" ++ crlf ++ str "quit" ++ [10].
Definition client_sent : bytes := wire (initial_items client_config ++ client_writes (Scan typed)).

(** The bytes of the server, by running it. *)
Definition server_sent : bytes :=
  match serve (handleConn (N := WindowConn) 20) (0, 0, 0)%nat empty_pools (Window client_sent []) echo_config with
  | Returned (s, _) => sent (netConn s)
  | _ => []
  end.

Lemma echo_session_witness :
  exists s P' ls xs nc1 n0,
    (forall fuel, (n0 <= fuel)%nat ->
       serve (handleConn (N := WindowConn) fuel) (0, 0, 0)%nat empty_pools
         (Window (str "hi" ++ [10] ++ str "quit" ++ [10]) []) echo_config = Returned (s, P')) /\
    sent nc1 = wire (initial_items echo_config ++ xs) /\
    with_answers echo_config (echo_welcome ++ echo_transcript ls) xs /\ ls = [str "hi"; str "quit"].
Proof.
  destruct (echo_session window_reliable window_measure window_ends (0, 0, 0)%nat empty_pools
    (Window (str "hi" ++ [10] ++ str "quit" ++ [10]) []) empty_pools_wf)
    as (s & P' & ls & xs & nc1 & n0 & E & _ & _ & Hs & Hw & Hls).
  exists s, P', ls, xs, nc1, n0. split; [exact E|]. split; [exact Hs|]. split; [exact Hw|].
  rewrite (proj2 (Hls (window_calm _ _))); [by vm_compute|]. split; [exact window_brisk|].
  exists [IText (str "hi" ++ [10] ++ str "quit" ++ [10])].
  split; [by vm_compute|]. split; [by repeat constructor|]. left. by repeat constructor.
Defined.

Lemma mud_session_witness :
  exists s P' ls xs nc1 n0,
    (forall fuel, (n0 <= fuel)%nat ->
       serve (handleMUDConn (N := WindowConn) (fun _ => inl (str "{}")) (fun _ l => l) 7 [] fuel)
         (0, 0, 0)%nat empty_pools (Window (str "score" ++ [10]) []) mud_config = Returned (s, P')) /\
    sent nc1 = wire (initial_items mud_config ++ xs) /\ Forall2 read_as ls [str "score"] /\
    with_answers mud_config
      (mud_welcome (fun _ => inl (str "{}")) 7 [] ++ mud_transcript (fun _ l => l) (Bold [] Cyan).1 ls) xs.
Proof.
  destruct (mud_session window_reliable window_measure window_ends (0, 0, 0)%nat empty_pools
    (Window (str "score" ++ [10]) []) (fun _ => inl (str "{}")) (fun _ l => l) 7 [] empty_pools_wf (fun _ _ => reflexivity _))
    as (s & P' & ls & xs & nc1 & n0 & E & _ & _ & Hs & Hw & Hls & _).
  exists s, P', ls, xs, nc1, n0. split; [exact E|]. split; [exact Hs|]. split; [exact (proj1 (Hls (window_calm _ _)))|exact Hw].
Defined.

Lemma client_and_echo_server_witness :
  exists c Pc' c2 n1,
    NewConn (0, 0, 0)%nat empty_pools (Window server_sent []) client_config = Some (c, Pc') /\
    forall fuel, (n1 <= fuel)%nat ->
      read_loop fuel (send_loop (Scan typed) c) [] =
      Returned (c2, str "Welcome to the Telnetty Echo Server!" ++ crlf ++
                    str "Type 'quit' to disconnect." ++ crlf ++ crlf ++
                    str "Echo: hi" ++ crlf ++ str "Goodbye!" ++ crlf).
Proof.
  destruct (client_and_echo_server window_reliable window_reliable window_measure window_ends
    window_measure window_ends window_brisk (0, 0, 0)%nat (0, 0, 0)%nat empty_pools empty_pools
    (Window server_sent []) (Window client_sent []) typed empty_pools_wf empty_pools_wf ltac:(done) ltac:(done))
    as (c & Pc' & E & Hrun).
  destruct Hrun as [_ Hrun].
  destruct (Hrun _ (with_answers_refl _ _) (window_calm _ _)) as (s & Ps' & ns1 & n0 & Hs & Hn & Hback); [by vm_compute|].
  destruct Hback as (c2 & n1 & Hr); [|apply window_calm|].
  - assert (Hv : match serve (handleConn (N := WindowConn) 20) (0, 0, 0)%nat empty_pools (Window client_sent []) echo_config with
      | Returned (s, _) => (fun b => b mod 256) <$> server_sent = sent (netConn s)
      | _ => False end) by by vm_compute.
    destruct (serve _ _ _ _ _) as [[s0 P0]| |] eqn:E0; [|destruct Hv..].
    rewrite (echo_served_once 20 n0 _ _ s0 P0 s Ps' E0 Hs) in Hn. cbn in Hn. rewrite <- Hn. exact Hv.
  - exists c, Pc', c2, n1. split; [exact E|]. exact Hr.
Defined.
